(* ===== verification/_CoqProject ===== *)
-Q . S2P
Prelude.v
Core.v
Cache.v
JumpHash.v
Ring.v
Membership.v
Sequencer.v
FailureDetector.v
Delta.v
Codec.v
Protocol.v
Messages.v
Responses.v
StoreWire.v
GossipWire.v
Crc.v
DatumLog.v
Pages.v
BTree.v
BTreeRep.v
BTreeDisk.v
BTreeQuery.v
BTreeInsert.v
BTreeRemove.v
BTreeSpec.v
BTreeRebuild.v
BTreeTheorems.v
RankedTree.v
Fields.v
Names.v
Schema.v
RankKeys.v
Indexes.v
TreeKinds.v
TkKind.v
TkTheorems.v
StoreNode.v
Transfer.v
Collections.v
LbKind.v
LbTheorems.v
Collation.v
OpContext.v
Worker.v
WorkerInv.v
WorkerTheorems.v
Pool.v
PeerLink.v
Cluster.v
NodeConfig.v
Server.v
IndexKinds.v
Remote.v
RemoteTheorems.v
Migrate.v
MigrateTheorems.v
MigrateRun.v
MigrateRunTheorems.v
TypedContext.v
TypedIndex.v
Driver.v
DriverTheorems.v
