(* ===== verification/Prelude.v ===== *)
(** * Seisin: a verification development

    Seisin is a two-tier store. Compute nodes run operations on data they own under a
    ring; each datum is a byte string with a 16-byte id. Storage nodes keep the data in
    an append-only log and ordered collections in page files. Nodes learn of each other
    by gossip; a driver moves data between storage nodes while the cluster runs. The
    development models the Rust sources under [src/crates] file by file and proves what
    each part promises to the ones above it.

    ** The files, bottom up

    - [Prelude]: bytes, fixed-width integers, lists, the result type [res] (a value, an
      error, a panic) and the calls-on-a-state type [io]. [Core], [Crc], [Codec]:
      [seisin-core]'s ids, the checksum, the codecs' building blocks.
    - Placement: [JumpHash], [Ring] ([seisin-ring]).
    - Wire formats: [Protocol], [Messages], [Responses] ([seisin-protocol/src/lib.rs]),
      [StoreWire] ([store_wire.rs]), [GossipWire] ([seisin-gossip/src/wire.rs]).
    - Storage engine: [Delta], [DatumLog], [Pages], [BTree] with its proofs in
      [BTreeRep], [BTreeDisk], [BTreeQuery], [BTreeInsert], [BTreeRemove],
      [BTreeRebuild], [BTreeSpec], [BTreeTheorems] ([seisin-storage]).
    - Types and indexes: [Fields], [Names], [Schema], [RankKeys], [Indexes],
      [RankedTree], [TreeKinds], [TkKind] with [TkTheorems], [LbKind] with [LbTheorems],
      [TypedContext] with [TypedIndex], [Driver] with [DriverTheorems] ([seisin-types]
      and [seisin-node/src/index_handler.rs]); [IndexKinds], the registry of the kinds
      and a ranked index through thread and file.
    - Storage node: [StoreNode] ([store_server.rs], [transfer.rs], [heartbeat.rs]),
      [Transfer] (its live migration), [Collections] ([collection_store.rs]).
    - Compute node: [Cache] ([seisin-core]), [OpContext] ([seisin-ops]), [Collation],
      [Worker] with [WorkerInv] and [WorkerTheorems], [Pool] ([collation.rs],
      [worker.rs], [pool.rs]), [PeerLink] ([peer_link.rs]), [Server] ([server.rs], and the client of
      [seisin-client]), [Remote] with [RemoteTheorems] ([replica_resolver.rs],
      [remote_store.rs], [RemoteCollectionStore]).
    - Cluster: [Membership], [Sequencer], [FailureDetector] ([seisin-gossip]),
      [Cluster] ([halt.rs], [gossip_state.rs], [gossip_client.rs], [gossip_server.rs]),
      [NodeConfig] ([config.rs], [node.rs]).
    - Administration: [Migrate] with [MigrateTheorems] ([seisin-migrate]), [MigrateRun]
      with [MigrateRunTheorems] (a migration against the modelled storage nodes).

    A struct is a Record with the source's field names (prefixed where two clash), an
    enum an Inductive, a function a Definition of its name. What the source keeps behind
    [&self] and locks is state passed and returned. The interfaces between components
    are classes: [Store] and [CollectionStore] with their laws, the ordered file of
    [RankedTree], the resident index of [Indexes], the environment [Env] of a thread,
    the network [DriverNet] of the driver; implementations are instances.

    ** What the theorems show

    - Durability: the log refines a finite map; a crash at any byte of an append
      loses that record at most; chains of deltas stay bounded. The B+Tree refines a
      sorted association list in every operation.
    - Operations: a thread runs an operation only with every lock, commits all of its
      writes or none, as the index replies decide, and never panics; the lock of one
      datum is wound-wait; typed writes keep every index equal to the one computed from
      the data. Leaderboards, histories, ranked indexes and partitions refine standings,
      timelines, rankings and sets, a ranked index up to the response its client reads.
      The scans of the typed driver find exactly the data that break a rule, and a
      revalidation keeps exactly those that still do; a call over a peer link gets the
      answer to its own request or none.
    - Replication and migration: whatever the network does, the networked store refines
      a map on the replicas that serve, and one surviving replica keeps it serving; a
      live transfer is complete; the driver plans exactly the copies the new ring needs,
      enumerates every datum, and takes no step before those that make it safe, and a
      migration of data at rest leaves every replica of the new ring with its value.
    - Cluster: gossip in any order builds the ring of the sequencer's history; tables
      converge; a silent node is declared dead; redirects reach the owner; an
      acknowledged pause is a barrier.
    - Errors: the theorems of kind error exhibit runs on which the code does not do
      what its comments say. Theorems that are no properties of the manifest state
      others.

    ** Bounds and fuel

    A [u64] addition that must wrap does so by [wrap 64]; one that Rust checks panics.
    Loops are structural where the source's are over a list. The rest take fuel and come
    with a proof that it is enough: the hash's outer loop 32 turns and its inner loop
    [2^64] (never reached); leaves of a ring its length; a drain the number of pending
    mutations and one; recovery the length of the file; descents and walks of a tree the
    number of its pages; the levels of a rebuild its number of nodes; walks of a history
    its entries and one; the driver's pages the size of the log, and its polls the
    number of steps the copy takes. A fresh page file has room for [2^15] insertions by
    the bound the proofs use, two pages more than the height for each ([bt_room]).

    ** Not modelled

    Sockets, threads, files' system calls and their failures: a connection is the bytes
    on it, a file its bytes, a thread a sequence of steps, and atomics and mutexes are
    the value they guard. The order in which a hash map is visited is that of
    [map_to_list] or [elements]. Allocation failure, the text of debug renderings, the
    [u32] count of delta bytes past [2^32], the clock and SHA-1 behind new and named
    ids (parameters), RON parsing, the environment of the node's binary. The closure that evicts non-native
    data reads the ring when each thread runs it; the model uses the ring at the send.
    A thread of [Pool] hands its messages to other nodes as effects that the pool
    delivers; [PeerLink] has the link itself. The structure of a leaderboard calls the
    storage tier, so it is [LbKind]'s, and not among those [IndexKinds] puts in a thread.
*)

From stdpp Require Export base tactics list gmap strings numbers sorting.
From Stdlib Require Export ZArith Lia.
From Stdlib Require Import Strings.Byte.

#[global] Set Default Goal Selector "!".
#[global] Open Scope Z_scope.

(** ** Bytes *)

Abbreviation byte := Init.Byte.byte.
Abbreviation bytes := (list Init.Byte.byte).

(** The numeric value of a [u8]. *)
Definition byte_val (b : byte) : Z := Z.of_N (Byte.to_N b).

(** [z as u8]: the low eight bits of [z]. *)
Definition u8 (z : Z) : byte :=
  default x00 (Byte.of_N (Z.to_N (z mod 256))).

#[global] Instance byte_eq_dec : EqDecision byte := Byte.byte_eq_dec.
#[global] Instance byte_countable : Countable byte := inj_countable Byte.to_N Byte.of_N Byte.of_to_N.

Lemma byte_val_range b : 0 <= byte_val b < 256.
Proof. unfold byte_val. pose proof (Byte.to_N_bounded b). lia. Qed.

Lemma byte_val_u8 z : byte_val (u8 z) = z mod 256.
Proof.
  unfold byte_val, u8. pose proof (Z.mod_pos_bound z 256 ltac:(lia)).
  destruct (Byte.of_N (Z.to_N (z mod 256))) as [b|] eqn:E; simpl.
  - apply Byte.to_of_N in E. rewrite E, Z2N.id; lia.
  - apply Byte.of_N_None_iff in E. lia.
Qed.

Lemma byte_val_inj b1 b2 : byte_val b1 = byte_val b2 -> b1 = b2.
Proof.
  unfold byte_val. intros H%N2Z.inj.
  pose proof (Byte.of_to_N b1) as E1. rewrite H, Byte.of_to_N in E1. by injection E1.
Qed.

Lemma u8_byte_val b : u8 (byte_val b) = b.
Proof.
  apply byte_val_inj. rewrite byte_val_u8. apply Z.mod_small, byte_val_range.
Qed.

(** ** Lengths, ranges and slices

    A [usize] is a [Z]; the length of a vector is [zlen]. *)

Definition zlen {A} (l : list A) : Z := Z.of_nat (length l).

Lemma zlen_nonneg {A} (l : list A) : 0 <= zlen l.
Proof. unfold zlen. lia. Qed.
Lemma zlen_nil {A} : zlen (@nil A) = 0.
Proof. done. Qed.
Lemma zlen_cons {A} (x : A) l : zlen (x :: l) = 1 + zlen l.
Proof. unfold zlen. simpl. lia. Qed.
Lemma zlen_app {A} (l1 l2 : list A) : zlen (l1 ++ l2) = zlen l1 + zlen l2.
Proof. unfold zlen. rewrite length_app. lia. Qed.
Lemma zlen_0 {A} (l : list A) : zlen l = 0 -> l = [].
Proof. destruct l; [done|]. rewrite zlen_cons. pose proof (zlen_nonneg l). lia. Qed.
Lemma zlen_map {A B} (f : A -> B) l : zlen (map f l) = zlen l.
Proof. unfold zlen. by rewrite length_map. Qed.
Lemma zlen_replicate {A} n (x : A) : zlen (replicate n x) = Z.of_nat n.
Proof. unfold zlen. by rewrite length_replicate. Qed.
Lemma zlen_rev {A} (l : list A) : zlen (rev l) = zlen l.
Proof. unfold zlen. by rewrite length_rev. Qed.

Lemma filter_all {A} (P : A -> Prop) `{forall x, Decision (P x)} l :
  Forall P l -> filter P l = l.
Proof. induction 1 as [|x l Hx Hl IH]; [done|]. by rewrite filter_cons_True, IH. Qed.

Lemma filter_iff_in {A} (P Q : A -> Prop) `{forall x, Decision (P x)} `{forall x, Decision (Q x)} (l : list A) :
  (forall x, x ∈ l -> P x <-> Q x) -> filter P l = filter Q l.
Proof.
  induction l as [|x l IH]; intros HPQ; [done|]. pose proof (HPQ x ltac:(left)) as Hx.
  assert (filter P l = filter Q l) as E by (apply IH; intros; apply HPQ; by right).
  destruct (decide (P x)); [rewrite !filter_cons_True by tauto|rewrite !filter_cons_False by tauto]; by rewrite E.
Qed.

Lemma Forall_take_lookup {A} (P : A -> Prop) n l :
  Forall P (take n l) <-> forall j x, (j < n)%nat -> l !! j = Some x -> P x.
Proof.
  rewrite Forall_lookup. setoid_rewrite lookup_take_Some. naive_solver.
Qed.

Create Rewrite HintDb zlen.
#[export] Hint Rewrite @zlen_nil @zlen_cons @zlen_app @zlen_map @zlen_replicate @zlen_rev : zlen.

(** The bytes from offset [a] up to (not including) offset [b]. *)
Definition sub_bytes {A} (buf : list A) (a b : Z) : list A :=
  take (Z.to_nat (b - a)) (drop (Z.to_nat a) buf).

Lemma sub_bytes_nil {A} (buf : list A) a : sub_bytes buf a a = [].
Proof. unfold sub_bytes. by rewrite Z.sub_diag. Qed.

Lemma sub_bytes_split {A} (buf : list A) a b c :
  0 <= a -> a <= b -> b <= c ->
  sub_bytes buf a c = sub_bytes buf a b ++ sub_bytes buf b c.
Proof.
  intros. unfold sub_bytes.
  replace (Z.to_nat (c - a)) with (Z.to_nat (b - a) + Z.to_nat (c - b))%nat by lia.
  rewrite <- take_take_drop, drop_drop. do 3 f_equal; lia.
Qed.

Lemma sub_bytes_full {A} (buf : list A) : sub_bytes buf 0 (zlen buf) = buf.
Proof. unfold sub_bytes, zlen. simpl. rewrite drop_0. apply take_ge. lia. Qed.

Lemma sub_bytes_len {A} (buf : list A) a b :
  0 <= a -> a <= b -> b <= zlen buf -> zlen (sub_bytes buf a b) = b - a.
Proof. intros. unfold sub_bytes, zlen in *. rewrite length_take, length_drop. lia. Qed.

Lemma sub_bytes_app {A} (pre bs post : list A) :
  sub_bytes (pre ++ bs ++ post) (zlen pre) (zlen pre + zlen bs) = bs.
Proof.
  unfold sub_bytes, zlen. rewrite Nat2Z.id, drop_app_length.
  replace (Z.to_nat _) with (length bs) by lia. by rewrite take_app_length.
Qed.

Lemma sub_bytes_app_end {A} (pre bs : list A) :
  sub_bytes (pre ++ bs) (zlen pre) (zlen pre + zlen bs) = bs.
Proof.
  pose proof (sub_bytes_app pre bs []) as H. by rewrite app_nil_r in H.
Qed.

(** ** Results

    [Result<T>] of the source, with a third outcome for a panic: an index out
    of range, a failed [unwrap], an arithmetic overflow. The message of an
    [Err] is the constant part of the source's message. *)

Inductive res (A : Type) : Type :=
| Ok (a : A)
| Err (msg : string)
| Panic.
Arguments Ok {A} a.
Arguments Err {A} msg.
Arguments Panic {A}.

#[global] Instance res_ret : MRet res := λ A a, Ok a.
#[global] Instance res_bind : MBind res := λ A B f m,
  match m with Ok a => f a | Err e => Err e | Panic => Panic end.
#[global] Instance res_fmap : FMap res := λ A B f m,
  match m with Ok a => Ok (f a) | Err e => Err e | Panic => Panic end.

Definition is_ok {A} (r : res A) : bool := match r with Ok _ => true | _ => false end.
Definition ok_option {A} (r : res A) : option A := match r with Ok a => Some a | _ => None end.

Lemma res_bind_Ok {A B} (m : res A) (k : A -> res B) y :
  m ≫= k = Ok y <-> exists x, m = Ok x /\ k x = Ok y.
Proof. destruct m; simpl; naive_solver. Qed.

(** [&buf[a..b]] *)
Definition slice {A} (buf : list A) (a b : Z) : res (list A) :=
  if (0 <=? a) && (a <=? b) && (b <=? zlen buf) then Ok (sub_bytes buf a b) else Panic.

(** [buf[i]] *)
Definition index {A} (buf : list A) (i : Z) : res A :=
  if 0 <=? i then
    match buf !! Z.to_nat i with Some x => Ok x | None => Panic end
  else Panic.

(** A traversal that undoes a map. *)
Lemma mapM_map_Ok {A B} (f : B -> res A) (g : A -> B) l : Forall (λ x, f (g x) = Ok x) l -> mapM f (map g l) = Ok l.
Proof. induction 1 as [|x l Hx _ IH]; [done|]. simpl. rewrite Hx. simpl. by rewrite IH. Qed.

Lemma slice_ok {A} (buf : list A) a b :
  0 <= a -> a <= b -> b <= zlen buf -> slice buf a b = Ok (sub_bytes buf a b).
Proof. intros. unfold slice. by rewrite !(proj2 (Z.leb_le _ _)) by lia. Qed.

Lemma index_ok {A} (buf : list A) i :
  0 <= i < zlen buf -> exists x, index buf i = Ok x /\ buf !! Z.to_nat i = Some x.
Proof.
  intros. unfold index, zlen in *. rewrite (proj2 (Z.leb_le _ _)) by lia.
  destruct (lookup_lt_is_Some_2 buf (Z.to_nat i)) as [x E]; [lia|]. rewrite E. eauto.
Qed.

(** Reads at fixed offsets of a buffer built by concatenation. *)
Lemma slice_skip {A} (p q : list A) a b :
  zlen p <= a -> slice (p ++ q) a b = slice q (a - zlen p) (b - zlen p).
Proof.
  intros H. pose proof (zlen_nonneg p). unfold slice. rewrite zlen_app.
  assert ((0 <=? a) && (a <=? b) && (b <=? zlen p + zlen q) =
          (0 <=? a - zlen p) && (a - zlen p <=? b - zlen p) && (b - zlen p <=? zlen q)) as ->.
  { repeat match goal with |- context [?x <=? ?y] => destruct (Z.leb_spec x y) end; simpl; lia. }
  destruct (_ && _ && _); [|done]. f_equal. unfold sub_bytes, zlen in *.
  rewrite drop_app_ge by lia. f_equal; [|f_equal]; lia.
Qed.

Lemma slice_here {A} (p q : list A) b : zlen p = b -> slice (p ++ q) 0 b = Ok p.
Proof.
  intros <-. pose proof (zlen_nonneg p). pose proof (zlen_nonneg q).
  rewrite slice_ok by (rewrite ?zlen_app; lia). f_equal.
  unfold sub_bytes. rewrite drop_0, Z.sub_0_r. unfold zlen. rewrite Nat2Z.id. apply take_app_length.
Qed.

Lemma slice_all {A} (p : list A) b : zlen p = b -> slice p 0 b = Ok p.
Proof. intros H. rewrite <- (app_nil_r p) at 1. by apply slice_here. Qed.

Lemma index_skip {A} (p q : list A) i :
  zlen p <= i -> index (p ++ q) i = index q (i - zlen p).
Proof.
  intros H. pose proof (zlen_nonneg p). unfold index, zlen in *.
  rewrite !(proj2 (Z.leb_le _ _)) by lia. rewrite lookup_app_r by lia.
  replace (Z.to_nat (i - Z.of_nat (length p))) with (Z.to_nat i - length p)%nat by lia. done.
Qed.

Lemma slice_cons {A} (x : A) q a b : 1 <= a -> slice (x :: q) a b = slice q (a - 1) (b - 1).
Proof. apply (slice_skip [x]). Qed.
Lemma index_cons {A} (x : A) q i : 1 <= i -> index (x :: q) i = index q (i - 1).
Proof. apply (index_skip [x]). Qed.
Lemma index_0_app {A} (x : A) l : index ([x] ++ l) 0 = Ok x.
Proof. done. Qed.

Lemma index_sub {A} (l : list A) i x : index l i = Ok x -> sub_bytes l i (i + 1) = [x].
Proof.
  unfold index, sub_bytes. destruct (Z.leb_spec 0 i); [|done].
  destruct (l !! Z.to_nat i) eqn:E; [|done]. intros [= ->].
  replace (i + 1 - i) with 1 by lia. by rewrite (drop_S _ _ _ E).
Qed.

(** ** Machine integers *)

Definition uint_ok (w z : Z) : Prop := 0 <= z < 2 ^ w.
Abbreviation u16_ok := (uint_ok 16).
Abbreviation u32_ok := (uint_ok 32).
Abbreviation u64_ok := (uint_ok 64).
Abbreviation u128_ok := (uint_ok 128).
Definition i64_ok (z : Z) : Prop := - 2 ^ 63 <= z < 2 ^ 63.

(** Wrapping arithmetic at width [w]. *)
Definition wrap (w z : Z) : Z := z mod 2 ^ w.
(** [z as i64] for a [u64] and [z as u64] for an [i64]. *)
Definition as_i64 (z : Z) : Z := if z <? 2 ^ 63 then z else z - 2 ^ 64.
Definition as_u64 (z : Z) : Z := wrap 64 z.

Lemma wrap_ok w z : 0 <= w -> uint_ok w (wrap w z).
Proof. intros. apply Z.mod_pos_bound. lia. Qed.
Lemma wrap_small w z : uint_ok w z -> wrap w z = z.
Proof. intros. by apply Z.mod_small. Qed.

Lemma as_i64_as_u64 z : i64_ok z -> as_i64 (as_u64 z) = z.
Proof.
  unfold i64_ok, as_i64, as_u64, wrap. intros.
  destruct (decide (0 <= z)).
  - rewrite Z.mod_small by lia. by rewrite (proj2 (Z.ltb_lt _ _)) by lia.
  - rewrite <- (Z_mod_plus_full z 1), Z.mod_small by lia.
    rewrite (proj2 (Z.ltb_ge _ _)); lia.
Qed.
Lemma as_u64_as_i64 z : u64_ok z -> as_u64 (as_i64 z) = z.
Proof.
  unfold uint_ok, as_i64, as_u64, wrap. intros.
  destruct (Z.ltb_spec z (2 ^ 63)).
  - apply Z.mod_small. lia.
  - rewrite <- (Z_mod_plus_full (z - 2 ^ 64) 1), Z.mod_small; lia.
Qed.
Lemma as_i64_ok z : u64_ok z -> i64_ok (as_i64 z).
Proof. unfold uint_ok, as_i64, i64_ok. intros. destruct (Z.ltb_spec z (2 ^ 63)); lia. Qed.

(** ** Little-endian and big-endian encodings *)

Fixpoint to_le (n : nat) (z : Z) : bytes :=
  match n with O => [] | S n => u8 z :: to_le n (z / 256) end.

Fixpoint from_le (bs : bytes) : Z :=
  match bs with [] => 0 | b :: bs => byte_val b + 256 * from_le bs end.

Definition to_be (n : nat) (z : Z) : bytes := rev (to_le n z).
Definition from_be (bs : bytes) : Z := from_le (rev bs).

Lemma length_to_le n z : length (to_le n z) = n.
Proof. revert z. induction n; intros; simpl; auto. Qed.
Lemma zlen_to_le n z : zlen (to_le n z) = Z.of_nat n.
Proof. unfold zlen. by rewrite length_to_le. Qed.
Lemma zlen_to_be n z : zlen (to_be n z) = Z.of_nat n.
Proof. unfold to_be. by rewrite zlen_rev, zlen_to_le. Qed.
#[export] Hint Rewrite zlen_to_le zlen_to_be : zlen.

Lemma pow_256_S n : 2 ^ (8 * Z.of_nat (S n)) = 256 * 2 ^ (8 * Z.of_nat n).
Proof. rewrite Nat2Z.inj_succ, Z.mul_succ_r, Z.pow_add_r by lia. lia. Qed.

Lemma from_le_to_le_mod n z : from_le (to_le n z) = z mod 2 ^ (8 * Z.of_nat n).
Proof.
  revert z. induction n as [|n IH]; intros z; simpl to_le; simpl from_le.
  - by rewrite Z.mod_1_r.
  - rewrite IH, byte_val_u8, pow_256_S.
    pose proof (Z.pow_pos_nonneg 2 (8 * Z.of_nat n) ltac:(lia) ltac:(lia)).
    rewrite Z.rem_mul_r by lia. lia.
Qed.

Lemma from_le_to_le n z : uint_ok (8 * Z.of_nat n) z -> from_le (to_le n z) = z.
Proof. intros. rewrite from_le_to_le_mod. by apply Z.mod_small. Qed.

Lemma from_le_range bs : uint_ok (8 * zlen bs) (from_le bs).
Proof.
  unfold uint_ok. induction bs as [|b bs IH]; simpl from_le; [done|].
  unfold zlen in *. simpl length. rewrite pow_256_S. pose proof (byte_val_range b). lia.
Qed.

Lemma to_le_from_le bs : to_le (length bs) (from_le bs) = bs.
Proof.
  induction bs as [|b bs IH]; simpl; [done|].
  pose proof (byte_val_range b). f_equal.
  - apply byte_val_inj. rewrite byte_val_u8, Z.mul_comm, Z_mod_plus_full.
    by apply Z.mod_small.
  - rewrite Z.mul_comm, Z_div_plus_full, Z.div_small by lia. by simpl; rewrite Z.add_0_l.
Qed.

(** A little-endian field read back from [n] bytes of a buffer. *)
Lemma to_le_sub n buf a b :
  0 <= a -> b = a + Z.of_nat n -> b <= zlen buf ->
  to_le n (from_le (sub_bytes buf a b)) = sub_bytes buf a b /\
  uint_ok (8 * Z.of_nat n) (from_le (sub_bytes buf a b)).
Proof.
  intros Ha -> Hb. pose proof (sub_bytes_len buf a (a + Z.of_nat n) Ha ltac:(lia) Hb) as Hl.
  split.
  - rewrite <- (to_le_from_le (sub_bytes buf a (a + Z.of_nat n))) at 2. f_equal. unfold zlen in Hl. lia.
  - pose proof (from_le_range (sub_bytes buf a (a + Z.of_nat n))) as Hr. rewrite Hl in Hr.
    by replace (a + Z.of_nat n - a) with (Z.of_nat n) in Hr by lia.
Qed.

Lemma from_le_inj a b : length a = length b -> from_le a = from_le b -> a = b.
Proof.
  intros Hl H. rewrite <- (to_le_from_le a), <- (to_le_from_le b). congruence.
Qed.

Lemma from_be_to_be n z : uint_ok (8 * Z.of_nat n) z -> from_be (to_be n z) = z.
Proof. unfold from_be, to_be. rewrite rev_involutive. apply from_le_to_le. Qed.

Lemma to_be_from_be bs : to_be (length bs) (from_be bs) = bs.
Proof.
  unfold to_be, from_be. rewrite <- (length_rev bs), to_le_from_le. apply rev_involutive.
Qed.

Lemma from_be_range bs : uint_ok (8 * zlen bs) (from_be bs).
Proof. unfold from_be. rewrite <- (zlen_rev bs). apply from_le_range. Qed.

(** ** Byte-string order

    The [Ord] of [[u8]]: lexicographic. *)

Fixpoint bytes_cmp (a b : bytes) : comparison :=
  match a, b with
  | [], [] => Eq
  | [], _ :: _ => Lt
  | _ :: _, [] => Gt
  | x :: a, y :: b =>
      match Z.compare (byte_val x) (byte_val y) with Eq => bytes_cmp a b | c => c end
  end.

Definition bytes_ltb (a b : bytes) : bool :=
  match bytes_cmp a b with Lt => true | _ => false end.

Lemma from_le_snoc l b : from_le (l ++ [b]) = from_le l + 2 ^ (8 * zlen l) * byte_val b.
Proof.
  induction l as [|x l IH]; simpl app; simpl from_le; [change (2 ^ (8 * zlen [])) with 1; lia|].
  rewrite IH. unfold zlen. simpl length. rewrite pow_256_S. lia.
Qed.

Lemma from_be_cons b l : from_be (b :: l) = byte_val b * 2 ^ (8 * zlen l) + from_be l.
Proof. unfold from_be. simpl. rewrite from_le_snoc, zlen_rev. lia. Qed.

Lemma from_be_app a b : from_be (a ++ b) = from_be a * 2 ^ (8 * zlen b) + from_be b.
Proof.
  induction a as [|x a IH]; [done|]. simpl app. rewrite !from_be_cons, IH. rewrite zlen_app.
  rewrite Z.mul_add_distr_l, Z.pow_add_r by (unfold zlen; lia). ring.
Qed.

(** On strings of one length, the byte order is the order of the big-endian
    values: what lets a fixed-width id or rank key be compared as a number. *)
Lemma bytes_cmp_from_be a b :
  length a = length b -> bytes_cmp a b = Z.compare (from_be a) (from_be b).
Proof.
  revert b. induction a as [|x a IH]; intros [|y b] Hl; try done.
  simpl bytes_cmp. injection Hl as Hl. rewrite !from_be_cons, (IH b Hl).
  assert (zlen a = zlen b) as -> by (unfold zlen; lia).
  pose proof (from_be_range a) as Ha. pose proof (from_be_range b) as Hb.
  unfold uint_ok in *. assert (zlen a = zlen b) as Hz by (unfold zlen; lia). rewrite Hz in Ha.
  set (p := 2 ^ (8 * zlen b)) in *.
  destruct (Z.compare_spec (byte_val x) (byte_val y)) as [E|E|E]; symmetry.
  - rewrite E. destruct (Z.compare_spec (from_be a) (from_be b));
      [apply Z.compare_eq_iff|apply Z.compare_lt_iff|apply Z.compare_gt_iff]; lia.
  - apply Z.compare_lt_iff. nia.
  - apply Z.compare_gt_iff. nia.
Qed.

Lemma bytes_cmp_refl a : bytes_cmp a a = Eq.
Proof. induction a; simpl; [done|]. by rewrite Z.compare_refl. Qed.

Lemma bytes_cmp_eq a b : bytes_cmp a b = Eq -> a = b.
Proof.
  revert b. induction a as [|x a IH]; intros [|y b]; simpl; try done.
  destruct (Z.compare_spec (byte_val x) (byte_val y)) as [E|E|E]; try done.
  intros ?%IH. apply byte_val_inj in E. congruence.
Qed.

Lemma bytes_cmp_antisym a b : bytes_cmp b a = CompOpp (bytes_cmp a b).
Proof.
  revert b. induction a as [|x a IH]; intros [|y b]; simpl; try done.
  rewrite Z.compare_antisym. destruct (Z.compare (byte_val x) (byte_val y)); simpl; auto.
Qed.

Lemma bytes_cmp_lt_trans a b c :
  bytes_cmp a b = Lt -> bytes_cmp b c = Lt -> bytes_cmp a c = Lt.
Proof.
  revert b c. induction a as [|x a IH]; intros [|y b] [|z c]; simpl; try done.
  destruct (Z.compare_spec (byte_val x) (byte_val y)) as [E|E|E];
  destruct (Z.compare_spec (byte_val y) (byte_val z)) as [F|F|F];
  destruct (Z.compare_spec (byte_val x) (byte_val z)) as [G|G|G]; try done; try lia; eauto.
Qed.

(** ** UTF-8

    [String::from_utf8] accepts exactly the well-formed sequences of the
    Unicode standard (no overlong forms, no surrogates, nothing past
    U+10FFFF). A [String] is the byte list it holds. *)

Definition in_range (lo hi : Z) (b : byte) : bool :=
  (lo <=? byte_val b) && (byte_val b <=? hi).
Definition is_cont (b : byte) : bool := in_range 128 191 b.

Fixpoint utf8_valid (bs : bytes) : bool :=
  match bs with
  | [] => true
  | b0 :: r0 =>
      if in_range 0 127 b0 then utf8_valid r0 else
      match r0 with
      | [] => false
      | b1 :: r1 =>
          if in_range 194 223 b0 then is_cont b1 && utf8_valid r1 else
          match r1 with
          | [] => false
          | b2 :: r2 =>
              if in_range 224 239 b0 then
                (if byte_val b0 =? 224 then in_range 160 191 b1
                 else if byte_val b0 =? 237 then in_range 128 159 b1
                 else is_cont b1) && is_cont b2 && utf8_valid r2
              else
              match r2 with
              | [] => false
              | b3 :: r3 =>
                  if in_range 240 244 b0 then
                    (if byte_val b0 =? 240 then in_range 144 191 b1
                     else if byte_val b0 =? 244 then in_range 128 143 b1
                     else is_cont b1) && is_cont b2 && is_cont b3 && utf8_valid r3
                  else false
              end
          end
      end
  end.

Definition from_utf8 (bs : bytes) : res bytes :=
  if utf8_valid bs then Ok bs else Err "not valid utf8".

(** A string as the wire formats carry it: valid UTF-8 whose length fits the
    [u32] length prefix. *)
Definition str_ok (s : bytes) : Prop := utf8_valid s = true /\ zlen s < 2 ^ 32.

(** ** Cursor decoders

    The wire formats decode with functions of the shape
    [fn take_x(buf: &[u8], offset: &mut usize) -> Result<X>]: the buffer is
    read, the offset is threaded. *)

Definition cur (A : Type) : Type := bytes -> Z -> res (A * Z).

#[global] Instance cur_ret : MRet cur := λ A a _ off, Ok (a, off).
#[global] Instance cur_bind : MBind cur := λ A B k d buf off,
  match d buf off with
  | Ok (x, off') => k x buf off'
  | Err e => Err e
  | Panic => Panic
  end.

Definition cur_err {A} (msg : string) : cur A := λ _ _, Err msg.

(** [if buf.len() < *offset + n { bail!(msg) }
     let v = &buf[*offset..*offset + n]; *offset += n] *)
Definition take_n (n : Z) (msg : string) : cur bytes := λ buf off,
  if zlen buf <? off + n then Err msg
  else v ← slice buf off (off + n); Ok (v, off + n).

(** [&buf[*offset..]], to the end. *)
Definition take_rest : cur bytes := λ buf off,
  v ← slice buf off (zlen buf); Ok (v, zlen buf).

(** A decoder [f] of a whole slice, called as [f(&buf[*offset..])?]. *)
Definition cur_sub {A} (f : bytes -> res A) : cur A := λ buf off,
  v ← slice buf off (zlen buf); x ← f v; Ok (x, zlen buf).

(** [if offset != buf.len() { bail!(msg) }] *)
Definition expect_end (msg : string) : cur () := λ buf off,
  if off =? zlen buf then Ok ((), off) else Err msg.

(** A fallible step that does not touch the cursor ([String::from_utf8(..)?],
    a [match] on a tag that may [bail!]). *)
Definition cur_lift {A} (r : res A) : cur A := λ _ off, a ← r; Ok (a, off).

(** [for _ in 0..n { items.push(d(buf, offset)?) }] *)
Fixpoint cur_repeat {A} (n : nat) (d : cur A) : cur (list A) :=
  match n with
  | O => mret []
  | S n => x ← d; xs ← cur_repeat n d; mret (x :: xs)
  end.

(** Running a cursor from a starting offset and keeping the value. *)
Definition run_cur {A} (d : cur A) (buf : bytes) (off : Z) : res A := fst <$> d buf off.

(** *** Completeness: [parses d bs x]

    From any position of any buffer where [bs] starts, [d] yields [x] and moves
    the cursor past [bs]. [parses_last] is the same where [bs] ends the
    buffer. *)

Definition parses {A} (d : cur A) (bs : bytes) (x : A) : Prop :=
  forall pre post, d (pre ++ bs ++ post) (zlen pre) = Ok (x, zlen pre + zlen bs).

Definition parses_last {A} (d : cur A) (bs : bytes) (x : A) : Prop :=
  forall pre, d (pre ++ bs) (zlen pre) = Ok (x, zlen pre + zlen bs).

(** *** Soundness: [decodes d P]

    From any in-range position, [d] does not panic; when it succeeds the cursor
    has moved forward inside the buffer and [P consumed rest value] holds. *)

Definition decodes {A} (d : cur A) (P : bytes -> bytes -> A -> Prop) : Prop :=
  forall buf off, 0 <= off <= zlen buf ->
  match d buf off with
  | Ok (x, off') =>
      off <= off' <= zlen buf /\ P (sub_bytes buf off off') (sub_bytes buf off' (zlen buf)) x
  | Err _ => True
  | Panic => False
  end.

(** The same for a decoder of a whole slice. *)
Definition decodes_all {A} (f : bytes -> res A) (P : bytes -> A -> Prop) : Prop :=
  forall buf, match f buf with Ok x => P buf x | Err _ => True | Panic => False end.

Create HintDb codec.

Section cursor_laws.
Context {A B : Type}.
Implicit Types (d : cur A) (k : A -> cur B).

Lemma parses_conv d bs bs' x : parses d bs' x -> bs = bs' -> parses d bs x.
Proof. by intros ? ->. Qed.

Lemma parses_parses_last d bs x : parses d bs x -> parses_last d bs x.
Proof. intros H pre. specialize (H pre []). by rewrite app_nil_r in H. Qed.

Lemma parses_ret (x : A) : parses (mret x) [] x.
Proof. intros pre post. unfold mret, cur_ret. by rewrite Z.add_0_r. Qed.

Lemma parses_bind d k b1 b2 x y :
  parses d b1 x -> parses (k x) b2 y -> parses (d ≫= k) (b1 ++ b2) y.
Proof.
  intros H1 H2 pre post. unfold mbind, cur_bind. rewrite <- app_assoc, (H1 pre (b2 ++ post)).
  specialize (H2 (pre ++ b1) post). rewrite <- app_assoc, zlen_app in H2.
  rewrite H2, zlen_app. do 2 f_equal. lia.
Qed.

Lemma parses_bind_nil d k b x y :
  parses d b x -> parses (k x) [] y -> parses (d ≫= k) b y.
Proof. intros. rewrite <- (app_nil_r b). by eapply parses_bind. Qed.

Lemma parses_last_bind d k b1 b2 x y :
  parses d b1 x -> parses_last (k x) b2 y -> parses_last (d ≫= k) (b1 ++ b2) y.
Proof.
  intros H1 H2 pre. unfold mbind, cur_bind. rewrite (H1 pre b2).
  specialize (H2 (pre ++ b1)). rewrite <- app_assoc, zlen_app in H2.
  rewrite H2, zlen_app. do 2 f_equal. lia.
Qed.

Lemma parses_last_bind_nil d k b x y :
  parses d b x -> parses_last (k x) [] y -> parses_last (d ≫= k) b y.
Proof. intros. rewrite <- (app_nil_r b). by eapply parses_last_bind. Qed.

Lemma parses_last_bind_end d k b x y :
  parses_last d b x -> parses_last (k x) [] y -> parses_last (d ≫= k) b y.
Proof.
  intros H1 H2 pre. unfold mbind, cur_bind. rewrite (H1 pre).
  specialize (H2 (pre ++ b)). rewrite app_nil_r, zlen_app in H2.
  rewrite H2, zlen_nil. do 2 f_equal. lia.
Qed.

Lemma parses_lift (x : A) : parses (cur_lift (Ok x)) [] x.
Proof. intros pre post. unfold cur_lift. simpl. by rewrite Z.add_0_r. Qed.

Lemma parses_last_sub (f : bytes -> res A) bs x : f bs = Ok x -> parses_last (cur_sub f) bs x.
Proof.
  intros H pre. unfold cur_sub. pose proof (zlen_nonneg pre). pose proof (zlen_nonneg bs).
  rewrite slice_ok by (rewrite ?zlen_app; lia).
  rewrite zlen_app, sub_bytes_app_end. simpl. by rewrite H.
Qed.

Lemma run_cur_parses d pre bs x :
  parses_last d bs x -> run_cur d (pre ++ bs) (zlen pre) = Ok x.
Proof. intros H. unfold run_cur. by rewrite H. Qed.

Lemma decodes_weaken d (P Q : bytes -> bytes -> A -> Prop) :
  decodes d P -> (forall b r x, P b r x -> Q b r x) -> decodes d Q.
Proof.
  intros H HPQ buf off Hoff. specialize (H buf off Hoff).
  destruct (d buf off) as [[x off']| |]; naive_solver.
Qed.

Lemma decodes_ret (P : bytes -> bytes -> A -> Prop) x :
  (forall r, P [] r x) -> decodes (mret x) P.
Proof. intros HP buf off Hoff. unfold mret, cur_ret. rewrite sub_bytes_nil. split; [lia|auto]. Qed.

Lemma decodes_err (P : bytes -> bytes -> A -> Prop) msg : decodes (cur_err msg) P.
Proof. by intros buf off Hoff. Qed.

Lemma decodes_bind d k (P : bytes -> bytes -> A -> Prop) (Q : bytes -> bytes -> B -> Prop) :
  decodes d P ->
  (forall b x, (exists r, P b r x) -> decodes (k x) (λ b' r' y, P b (b' ++ r') x -> Q (b ++ b') r' y)) ->
  decodes (d ≫= k) Q.
Proof.
  intros Hd Hk buf off Hoff. unfold mbind, cur_bind. specialize (Hd buf off Hoff).
  destruct (d buf off) as [[x o1]| |] eqn:E; [|done..]. destruct Hd as [Ho HP].
  specialize (Hk (sub_bytes buf off o1) x ltac:(eauto) buf o1 ltac:(lia)).
  destruct (k x buf o1) as [[y o2]| |]; [|done..]. destruct Hk as [Ho2 HQ].
  split; [lia|]. rewrite (sub_bytes_split buf off o1 o2) by lia. apply HQ.
  by rewrite <- sub_bytes_split by lia.
Qed.

Lemma decodes_lift (r : res A) (P : A -> Prop) :
  match r with Ok x => P x | Err _ => True | Panic => False end ->
  decodes (cur_lift r) (λ b _ x, b = [] /\ P x).
Proof.
  intros H buf off Hoff. unfold cur_lift. destruct r; simpl; [|done..].
  rewrite sub_bytes_nil. split; [lia|done].
Qed.

Lemma decodes_sub (f : bytes -> res A) (P : bytes -> A -> Prop) :
  decodes_all f P -> decodes (cur_sub f) (λ b r x, r = [] /\ P b x).
Proof.
  intros H buf off Hoff. unfold cur_sub. rewrite slice_ok by lia. simpl.
  specialize (H (sub_bytes buf off (zlen buf))).
  destruct (f _); simpl; [|done..]. rewrite sub_bytes_nil. split; [lia|done].
Qed.

Lemma decodes_run d (P : bytes -> bytes -> A -> Prop) buf off :
  decodes d P -> 0 <= off <= zlen buf ->
  match run_cur d buf off with
  | Ok x => exists b r, buf = take (Z.to_nat off) buf ++ b ++ r /\ P b r x
  | Err _ => True
  | Panic => False
  end.
Proof.
  intros H Hoff. unfold run_cur. specialize (H buf off Hoff).
  destruct (d buf off) as [[x o]| |]; simpl; [|done..]. destruct H as [Ho HP].
  eexists _, _; split; [|exact HP].
  rewrite <- sub_bytes_split by lia. unfold sub_bytes, zlen.
  rewrite (take_ge (drop _ _)) by (rewrite length_drop; lia). by rewrite take_drop.
Qed.
End cursor_laws.

Lemma parses_repeat {A} (d : cur A) (enc : A -> bytes) (xs : list A) n :
  (forall x, x ∈ xs -> parses d (enc x) x) -> n = length xs ->
  parses (cur_repeat n d) (flat_map enc xs) xs.
Proof.
  intros H ->. induction xs as [|x xs IH]; simpl; [apply parses_ret|].
  eapply parses_bind; [apply H; left|]. eapply parses_bind_nil; [|apply parses_ret].
  apply IH. intros. apply H. by right.
Qed.

Lemma decodes_repeat {A} (d : cur A) (enc : A -> bytes) (wf : A -> Prop) n :
  decodes d (λ b _ x, b = enc x /\ wf x) ->
  decodes (cur_repeat n d) (λ b _ xs, b = flat_map enc xs /\ Forall wf xs /\ length xs = n).
Proof.
  intros H. induction n as [|n IH]; simpl; [by apply decodes_ret|].
  eapply decodes_bind; [exact H|]. intros b x _.
  eapply decodes_bind; [exact IH|]. intros b' xs _. apply decodes_ret.
  intros r (-> & ? & ?) (-> & ?). simpl. rewrite app_nil_r. by split_and!; [|constructor|f_equal].
Qed.

Lemma decodes_repeat_all {A} (d : cur A) (Q : A -> Prop) n :
  decodes d (λ _ _ x, Q x) -> decodes (cur_repeat n d) (λ _ _ xs, Forall Q xs /\ length xs = n).
Proof.
  intros H. induction n as [|n IH]; simpl; [apply decodes_ret; by split; [constructor|]|].
  eapply decodes_bind; [exact H|]. intros b x [r Hx]. eapply decodes_bind; [exact IH|]. intros b' xs [r' [HF Hl]].
  apply decodes_ret. intros _ _ _. split; [by constructor|simpl; lia].
Qed.

(** *** Primitive cursors and their laws *)

Definition take_le (n : nat) (msg : string) : cur Z :=
  v ← take_n (Z.of_nat n) msg; mret (from_le v).

(** [if buf.len() < *offset + 1 { bail!(msg) } let b = buf[*offset]; *offset += 1] *)
Definition take_byte (msg : string) : cur byte := λ buf off,
  if zlen buf <? off + 1 then Err msg
  else b ← index buf off; Ok (b, off + 1).

Lemma parses_take_n n msg bs : zlen bs = n -> parses (take_n n msg) bs bs.
Proof.
  intros <- pre post. unfold take_n. pose proof (zlen_nonneg pre). pose proof (zlen_nonneg bs).
  pose proof (zlen_nonneg post).
  rewrite (proj2 (Z.ltb_ge _ _)) by (rewrite !zlen_app; lia).
  rewrite slice_ok by (rewrite ?zlen_app; lia). by rewrite sub_bytes_app.
Qed.

Lemma decodes_take_n n msg :
  0 <= n -> decodes (take_n n msg) (λ b _ x, b = x /\ zlen x = n).
Proof.
  intros Hn buf off Hoff. unfold take_n. destruct (Z.ltb_spec (zlen buf) (off + n)); [done|].
  rewrite slice_ok by lia. simpl. split; [lia|]. split; [done|]. rewrite sub_bytes_len; lia.
Qed.

Lemma parses_take_le n msg z :
  uint_ok (8 * Z.of_nat n) z -> parses (take_le n msg) (to_le n z) z.
Proof.
  intros Hz. unfold take_le. eapply parses_bind_nil; [apply parses_take_n, zlen_to_le|].
  rewrite from_le_to_le by done. apply parses_ret.
Qed.

Lemma decodes_take_le n msg :
  decodes (take_le n msg) (λ b _ z, b = to_le n z /\ uint_ok (8 * Z.of_nat n) z).
Proof.
  unfold take_le. eapply decodes_bind; [apply decodes_take_n; lia|].
  intros b v _. apply decodes_ret. intros r [-> Hl]. rewrite app_nil_r.
  split; [|rewrite <- Hl; apply from_le_range].
  rewrite <- (to_le_from_le v) at 1. f_equal. unfold zlen in Hl. lia.
Qed.

Lemma parses_take_byte msg b : parses (take_byte msg) [b] b.
Proof.
  intros pre post. unfold take_byte. pose proof (zlen_nonneg pre). pose proof (zlen_nonneg post).
  rewrite (proj2 (Z.ltb_ge _ _)) by (rewrite !zlen_app, zlen_cons, zlen_nil; lia).
  unfold index. rewrite (proj2 (Z.leb_le _ _)) by lia. unfold zlen. rewrite Nat2Z.id.
  change ([b] ++ post) with (b :: post). by rewrite list_lookup_middle.
Qed.

Lemma decodes_take_byte msg : decodes (take_byte msg) (λ b _ x, b = [x]).
Proof.
  intros buf off Hoff. unfold take_byte. destruct (Z.ltb_spec (zlen buf) (off + 1)); [done|].
  destruct (index_ok buf off ltac:(lia)) as (x & -> & Hx). simpl. split; [lia|].
  unfold sub_bytes. replace (off + 1 - off) with 1 by lia. simpl.
  by rewrite (drop_S _ _ _ Hx).
Qed.

Lemma parses_last_take_rest bs : parses_last take_rest bs bs.
Proof.
  intros pre. unfold take_rest. pose proof (zlen_nonneg pre). pose proof (zlen_nonneg bs).
  rewrite slice_ok by (rewrite ?zlen_app; lia). by rewrite zlen_app, sub_bytes_app_end.
Qed.

Lemma decodes_take_rest : decodes take_rest (λ b r x, b = x /\ r = []).
Proof.
  intros buf off Hoff. unfold take_rest. rewrite slice_ok by lia. simpl.
  rewrite sub_bytes_nil. split; [lia|done].
Qed.

Lemma parses_last_expect_end msg : parses_last (expect_end msg) [] ().
Proof.
  intros pre. unfold expect_end. rewrite app_nil_r, Z.eqb_refl, zlen_nil. by rewrite Z.add_0_r.
Qed.

Lemma decodes_expect_end msg : decodes (expect_end msg) (λ b r _, b = [] /\ r = []).
Proof.
  intros buf off Hoff. unfold expect_end. destruct (Z.eqb_spec off (zlen buf)); [|done].
  subst. rewrite sub_bytes_nil. split; [lia|done].
Qed.

Lemma parses_from_utf8 s : utf8_valid s = true -> parses (cur_lift (from_utf8 s)) [] s.
Proof. intros H. unfold from_utf8. rewrite H. apply parses_lift. Qed.

Lemma decodes_from_utf8 s :
  decodes (cur_lift (from_utf8 s)) (λ b _ x, b = [] /\ x = s /\ utf8_valid x = true).
Proof.
  apply (decodes_lift (from_utf8 s) (λ x, x = s /\ utf8_valid x = true)).
  unfold from_utf8. by destruct (utf8_valid s) eqn:E.
Qed.

Lemma from_utf8_spec s :
  match from_utf8 s with Ok x => x = s /\ utf8_valid x = true | Err _ => True | Panic => False end.
Proof. unfold from_utf8. by destruct (utf8_valid s) eqn:E. Qed.

#[export] Hint Resolve parses_take_n parses_take_le parses_take_byte parses_ret
  parses_from_utf8 : codec.
#[export] Hint Resolve parses_last_take_rest parses_last_expect_end
  parses_parses_last parses_last_sub : codec.
#[export] Hint Resolve decodes_take_le decodes_take_byte decodes_take_rest
  decodes_expect_end decodes_from_utf8 decodes_err decodes_sub : codec.
#[export] Hint Extern 1 (decodes (take_n _ _) _) => apply decodes_take_n; lia : codec.
#[export] Hint Extern 1 (zlen _ = _) => done : codec.

(** Proves [parses] and [parses_last] goals whose byte string is written as
    [b1 ++ b2 ++ ..] in the order the decoder reads. *)
Ltac parse_step :=
  cbn beta iota zeta;
  lazymatch goal with
  | |- parses (mret _) [] _ => apply parses_ret
  | |- parses_last (mret _) [] _ => apply parses_parses_last, parses_ret
  | |- parses (cur_lift _ ≫= _) ?b _ =>
      change b with ([] ++ b); eapply parses_bind; [solve [eauto with codec]|]
  | |- parses_last (cur_lift _ ≫= _) ?b _ =>
      change b with ([] ++ b); eapply parses_last_bind; [solve [eauto with codec]|]
  | |- parses (_ ≫= _) (_ ++ _) _ => eapply parses_bind; [solve [eauto with codec]|]
  | |- parses (_ ≫= _) _ _ => eapply parses_bind_nil; [solve [eauto with codec]|]
  | |- parses_last (_ ≫= _) (_ ++ _) _ => eapply parses_last_bind; [solve [eauto with codec]|]
  | |- parses_last (_ ≫= _) _ _ =>
      first [ eapply parses_last_bind_nil; [solve [eauto with codec]|]
            | eapply parses_last_bind_end; [solve [eauto with codec]|] ]
  | |- _ => solve [eauto with codec]
  end.
Ltac parse := repeat parse_step.

(** Proves [decodes] goals by following the decoder; leaves the final
    implication from what each step consumed. *)
Ltac decode_step :=
  cbn beta iota zeta;
  lazymatch goal with
  | |- decodes (mret _) _ => apply decodes_ret; intros
  | |- decodes (cur_err _) _ => apply decodes_err
  | |- decodes (_ ≫= _) _ =>
      eapply decodes_bind; [solve [eauto with codec]|intros ? ? [? ?]]
  | |- decodes (if ?c then _ else _) _ => destruct c eqn:?
  | |- decodes (match ?c with _ => _ end) _ => destruct c eqn:?
  end.
Ltac decode_finish :=
  destruct_and?; subst; simpl in *; rewrite ?app_nil_r, <- ?app_assoc in *; simplify_eq;
  split_and?; eauto with codec.
Ltac decode := repeat decode_step; decode_finish.

Lemma index_0 {A} (x : A) l : index (x :: l) 0 = Ok x.
Proof. done. Qed.

#[global] Arguments slice {A} _ _ _ : simpl never.
#[global] Arguments index {A} _ _ : simpl never.
#[global] Arguments zlen {A} _ : simpl never.
#[global] Arguments sub_bytes {A} _ _ _ : simpl never.
#[global] Arguments to_le _ _ : simpl never.
#[global] Arguments from_le _ : simpl never.
#[global] Arguments to_be _ _ : simpl never.
#[global] Arguments from_be _ : simpl never.
#[global] Arguments u8 _ : simpl never.
#[global] Arguments byte_val _ : simpl never.
#[global] Arguments wrap _ _ : simpl never.
#[global] Arguments Z.pow _ _ : simpl never.

Lemma byte_val_u8_small z : 0 <= z < 256 -> byte_val (u8 z) = z.
Proof. intros. rewrite byte_val_u8. by apply Z.mod_small. Qed.

#[global] Opaque to_le from_le to_be from_be u8 byte_val.

(** Resolves [slice] and [index] reads of a concatenation of fields of known
    lengths. *)
Ltac eval_offset a :=
  lazymatch a with
  | context [zlen _] => a
  | _ => let a' := eval vm_compute in a in
         lazymatch a' with Z0 => a' | Zpos _ => a' | Zneg _ => a' | _ => a end
  end.
Ltac fixed_len := autorewrite with zlen; lia.
Ltac fixed_read :=
  repeat first
    [ rewrite index_0
    | rewrite index_0_app
    | rewrite slice_here by fixed_len
    | rewrite slice_all by fixed_len
    | rewrite slice_cons by lia
    | rewrite index_cons by lia
    | rewrite slice_skip by fixed_len
    | rewrite index_skip by fixed_len
    | progress autorewrite with zlen
    | match goal with
      | |- context [slice ?q ?a ?b] => progress
          (let a' := eval_offset a in let b' := eval_offset b in change (slice q a b) with (slice q a' b'))
      | |- context [index ?q ?a] => progress
          (let a' := eval_offset a in change (index q a) with (index q a'))
      end ].

(** Reduces binds of known results, and nothing else. *)
Ltac rsimpl := cbn [mbind res_bind cur_bind fmap res_fmap mret res_ret fst snd].
Tactic Notation "rsimpl" "in" hyp(H) :=
  cbn [mbind res_bind cur_bind fmap res_fmap mret res_ret fst snd] in H.

(** ** Ascending lists *)

Lemma ascending_NoDup (l : list Z) : StronglySorted Z.lt l -> NoDup l.
Proof.
  induction 1 as [|x l Hs IH Hx]; [constructor|]. apply NoDup_cons. split; [|done]. intros Hin.
  rewrite Forall_forall in Hx. specialize (Hx x Hin). lia.
Qed.

Lemma ascending_unique (xs ys : list Z) :
  StronglySorted Z.lt xs -> StronglySorted Z.lt ys -> (forall x, x ∈ xs <-> x ∈ ys) -> xs = ys.
Proof.
  intros Hx Hy Hiff. apply (StronglySorted_unique_strong Z.lt); [intros x y _ _ ? ?; lia|done..|].
  by apply NoDup_Permutation; [apply ascending_NoDup..|].
Qed.
