(* ===== verification/Core.v ===== *)
(** * seisin-core: datum identity, authority, secondary-key entries

    Models [crates/seisin-core/src/datum.rs], [authority.rs] and [sk.rs].
    A [DatumId] is a 128-bit UUID: the derived [Ord] on its 16 bytes is the
    order of the big-endian number, so an id is a [Z] in [[0, 2^128)] and its
    wire form is its 16 big-endian bytes. *)

From S2P Require Import Prelude.

(** ** datum.rs *)

Abbreviation DatumId := Z (only parsing).
Definition datum_ok (id : DatumId) : Prop := u128_ok id.

Definition as_bytes (id : DatumId) : bytes := to_be 16 id.
Definition from_bytes (bs : bytes) : DatumId := from_be bs.

Lemma zlen_as_bytes id : zlen (as_bytes id) = 16.
Proof. apply zlen_to_be. Qed.
#[export] Hint Rewrite zlen_as_bytes : zlen.

Lemma from_bytes_as_bytes id : datum_ok id -> from_bytes (as_bytes id) = id.
Proof. apply (from_be_to_be 16). Qed.

Lemma as_bytes_from_bytes bs : zlen bs = 16 -> as_bytes (from_bytes bs) = bs.
Proof.
  intros H. unfold as_bytes, from_bytes. rewrite <- (to_be_from_be bs) at 2. f_equal.
  unfold zlen in H. lia.
Qed.

Lemma from_bytes_ok bs : zlen bs = 16 -> datum_ok (from_bytes bs).
Proof. intros H. pose proof (from_be_range bs) as R. by rewrite H in R. Qed.

Lemma as_bytes_inj a b : datum_ok a -> datum_ok b -> as_bytes a = as_bytes b -> a = b.
Proof. intros Ha Hb H. rewrite <- (from_bytes_as_bytes a), H by done. by apply from_bytes_as_bytes. Qed.

(** The derived byte order of ids is the order of the model's ids. *)
Lemma as_bytes_cmp a b :
  datum_ok a -> datum_ok b -> bytes_cmp (as_bytes a) (as_bytes b) = Z.compare a b.
Proof.
  intros Ha Hb. rewrite bytes_cmp_from_be.
  - unfold as_bytes. by rewrite !from_be_to_be.
  - pose proof (zlen_as_bytes a). pose proof (zlen_as_bytes b). unfold zlen in *. lia.
Qed.

(** ** authority.rs *)

Abbreviation NodeId := Z (only parsing).
Abbreviation ThreadId := Z (only parsing).

Inductive AuthorityIdx :=
| Native
| Foreign (node_id : NodeId) (thread_id : ThreadId).

#[global] Instance AuthorityIdx_eq_dec : EqDecision AuthorityIdx.
Proof. solve_decision. Defined.

Definition authority_ok (a : AuthorityIdx) : Prop :=
  match a with Native => True | Foreign n t => u64_ok n /\ u32_ok t end.

Definition ENCODED_LEN : Z := 13.
Definition TAG_NATIVE : Z := 0.
Definition TAG_FOREIGN : Z := 1.

(** [let mut buf = [0u8; ENCODED_LEN]], then the tag and, for [Foreign], the
    two little-endian fields at 1..9 and 9..13. *)
Definition authority_encode (a : AuthorityIdx) : bytes :=
  match a with
  | Native => u8 TAG_NATIVE :: replicate 12 (u8 0)
  | Foreign node_id thread_id => u8 TAG_FOREIGN :: to_le 8 node_id ++ to_le 4 thread_id
  end.

Definition authority_decode (buf : bytes) : res AuthorityIdx :=
  tag ← index buf 0;
  if byte_val tag =? TAG_NATIVE then Ok Native
  else if byte_val tag =? TAG_FOREIGN then
    node_id ← slice buf 1 9;
    thread_id ← slice buf 9 13;
    Ok (Foreign (from_le node_id) (from_le thread_id))
  else Err "invalid authority_idx tag byte".

Lemma zlen_authority_encode a : zlen (authority_encode a) = ENCODED_LEN.
Proof. destruct a; simpl; autorewrite with zlen; done. Qed.
#[export] Hint Rewrite zlen_authority_encode : zlen.

Lemma authority_decode_encode a :
  authority_ok a -> authority_decode (authority_encode a) = Ok a.
Proof.
  destruct a as [|n t]; [done|]. intros [Hn Ht].
  unfold authority_decode, authority_encode. rewrite index_0. rsimpl.
  rewrite byte_val_u8_small by done. simpl.
  rewrite !slice_ok by (autorewrite with zlen; lia). simpl.
  set (buf := u8 TAG_FOREIGN :: _).
  assert (sub_bytes buf 1 9 = to_le 8 n) as ->.
  { pose proof (sub_bytes_app [u8 TAG_FOREIGN] (to_le 8 n) (to_le 4 t)) as H.
    by rewrite zlen_to_le in H. }
  assert (sub_bytes buf 9 13 = to_le 4 t) as ->.
  { pose proof (sub_bytes_app (u8 TAG_FOREIGN :: to_le 8 n) (to_le 4 t) []) as H.
    autorewrite with zlen in H. by rewrite app_nil_r in H. }
  by rewrite !from_le_to_le.
Qed.

(** A 13-byte array is never a panic and decodes to a value in range. *)
Lemma authority_decode_spec buf :
  zlen buf = ENCODED_LEN ->
  match authority_decode buf with Ok a => authority_ok a | Err _ => True | Panic => False end.
Proof.
  intros H. unfold authority_decode.
  destruct (index_ok buf 0 ltac:(rewrite H; unfold ENCODED_LEN; lia)) as (tag & -> & _).
  simpl. destruct (byte_val tag =? TAG_NATIVE); [done|].
  destruct (byte_val tag =? TAG_FOREIGN); [|done].
  rewrite !slice_ok by (rewrite ?H; unfold ENCODED_LEN; lia). simpl.
  pose proof (from_le_range (sub_bytes buf 1 9)) as R1.
  pose proof (from_le_range (sub_bytes buf 9 13)) as R2.
  rewrite sub_bytes_len in R1, R2 by (rewrite ?H; unfold ENCODED_LEN; lia). done.
Qed.

(** ** sk.rs *)

Definition ENTRY_LEN : Z := 16 + ENCODED_LEN.

Definition encode_sk_entry (e : DatumId * AuthorityIdx) : bytes :=
  as_bytes e.1 ++ authority_encode e.2.

Definition encode_sk_entries (entries : list (DatumId * AuthorityIdx)) : bytes :=
  to_le 4 (zlen entries) ++ flat_map encode_sk_entry entries.

(** The loop over the [count] fixed-size records starting at [offset]. *)
Fixpoint decode_sk_loop (count : nat) (bs : bytes) (offset : Z)
    : res (list (DatumId * AuthorityIdx)) :=
  match count with
  | O => Ok []
  | S count =>
      id_bytes ← slice bs offset (offset + 16);
      authority_bytes ← slice bs (offset + 16) (offset + ENTRY_LEN);
      a ← authority_decode authority_bytes;
      rest ← decode_sk_loop count bs (offset + ENTRY_LEN);
      Ok ((from_bytes id_bytes, a) :: rest)
  end.

Definition decode_sk_entries (bs : bytes) : res (list (DatumId * AuthorityIdx)) :=
  if zlen bs <? 4 then Err "sk entry list truncated: missing count prefix" else
  c ← slice bs 0 4;
  let count := from_le c in
  let expected_len := 4 + count * ENTRY_LEN in
  if negb (zlen bs =? expected_len) then Err "sk entry list length mismatch" else
  decode_sk_loop (Z.to_nat count) bs 4.

Definition sk_entry_ok (e : DatumId * AuthorityIdx) : Prop :=
  datum_ok e.1 /\ authority_ok e.2.

Lemma zlen_encode_sk_entry e : zlen (encode_sk_entry e) = ENTRY_LEN.
Proof. unfold encode_sk_entry. by autorewrite with zlen. Qed.

Lemma zlen_flat_map_const {A B} (f : A -> list B) k l :
  (forall x, zlen (f x) = k) -> zlen (flat_map f l) = zlen l * k.
Proof.
  intros H. induction l as [|x l IH]; simpl; [by rewrite !zlen_nil|].
  rewrite zlen_app, zlen_cons, IH, H. lia.
Qed.

Lemma decode_sk_loop_encode pre es :
  Forall sk_entry_ok es ->
  decode_sk_loop (length es) (pre ++ flat_map encode_sk_entry es) (zlen pre) = Ok es.
Proof.
  intros H. revert pre. induction H as [|[id a] es [Hid Ha] _ IH]; intros pre; [done|].
  cbn [length decode_sk_loop flat_map].
  set (tl := flat_map encode_sk_entry es) in *.
  pose proof (zlen_nonneg pre). pose proof (zlen_nonneg tl).
  unfold encode_sk_entry. simpl fst; simpl snd.
  rewrite !slice_ok by (autorewrite with zlen; unfold ENTRY_LEN, ENCODED_LEN; lia).
  rewrite <- app_assoc.
  pose proof (sub_bytes_app pre (as_bytes id) (authority_encode a ++ tl)) as E1.
  pose proof (sub_bytes_app (pre ++ as_bytes id) (authority_encode a) tl) as E2.
  rewrite <- app_assoc in E2. autorewrite with zlen in E1, E2. rewrite E1.
  replace (zlen pre + ENTRY_LEN) with (zlen pre + 16 + ENCODED_LEN) by (unfold ENTRY_LEN; lia).
  rewrite E2. rsimpl. rewrite authority_decode_encode by done. rsimpl.
  specialize (IH (pre ++ as_bytes id ++ authority_encode a)).
  rewrite <- !app_assoc in IH. autorewrite with zlen in IH.
  rewrite Z.add_assoc in IH. rewrite IH. rsimpl. by rewrite from_bytes_as_bytes.
Qed.

Lemma decode_sk_entries_encode es :
  Forall sk_entry_ok es -> zlen es < 2 ^ 32 ->
  decode_sk_entries (encode_sk_entries es) = Ok es.
Proof.
  intros Hes Hlen. unfold decode_sk_entries, encode_sk_entries.
  pose proof (zlen_nonneg es).
  pose proof (zlen_flat_map_const _ _ es zlen_encode_sk_entry) as Hfm.
  rewrite (proj2 (Z.ltb_ge _ _)) by (autorewrite with zlen; rewrite Hfm; unfold ENTRY_LEN, ENCODED_LEN; lia).
  rewrite slice_ok by (autorewrite with zlen; rewrite ?Hfm; unfold ENTRY_LEN, ENCODED_LEN; lia).
  pose proof (sub_bytes_app [] (to_le 4 (zlen es)) (flat_map encode_sk_entry es)) as E.
  autorewrite with zlen in E. change (0 + Z.of_nat 4) with 4 in E. simpl in E. rewrite E. rsimpl.
  rewrite from_le_to_le by (split; done || lia). autorewrite with zlen. rewrite Hfm.
  change (Z.of_nat 4) with 4. rewrite Z.eqb_refl. cbn [negb].
  pose proof (decode_sk_loop_encode (to_le 4 (zlen es)) es Hes) as L.
  rewrite zlen_to_le in L. replace (Z.to_nat (zlen es)) with (length es) by (unfold zlen; lia). exact L.
Qed.

(** The decoder of stored entries never panics: every slice is guarded by the
    length check. *)
Lemma decode_sk_loop_safe n bs off :
  0 <= off -> off + Z.of_nat n * ENTRY_LEN <= zlen bs ->
  decode_sk_loop n bs off <> Panic.
Proof.
  revert off. induction n as [|n IH]; intros off H0 H; [done|].
  cbn [decode_sk_loop]. unfold ENTRY_LEN, ENCODED_LEN in *.
  rewrite !slice_ok by lia. rsimpl.
  pose proof (authority_decode_spec (sub_bytes bs (off + 16) (off + (16 + 13)))) as Ha.
  rewrite sub_bytes_len in Ha by lia. specialize (Ha ltac:(unfold ENCODED_LEN; lia)).
  destruct (authority_decode _); rsimpl; [|done..].
  specialize (IH (off + (16 + 13)) ltac:(lia) ltac:(lia)).
  by destruct (decode_sk_loop n bs (off + (16 + 13))).
Qed.

Lemma decode_sk_entries_safe bs : decode_sk_entries bs <> Panic.
Proof.
  unfold decode_sk_entries. destruct (Z.ltb_spec (zlen bs) 4); [done|].
  rewrite slice_ok by lia. rsimpl.
  pose proof (from_le_range (sub_bytes bs 0 4)) as R. unfold uint_ok in R.
  destruct (Z.eqb_spec (zlen bs) (4 + from_le (sub_bytes bs 0 4) * ENTRY_LEN)); [|done].
  cbn [negb]. apply decode_sk_loop_safe; lia.
Qed.
