(* ===== verification/Cache.v ===== *)
(** * seisin-core: the [Store] trait and the write-through [Cache]

    Models [crates/seisin-core/src/store.rs] and [cache.rs]. The [Store] trait
    is a class of operations on a store state (its methods take [&self] and
    mutate behind it); what the cache relies on are the laws of [StoreLaws],
    stated against an abstract content map. [InMemoryStore] is the instance
    the source ships in this crate. *)

From S2P Require Import Prelude Core.

(** ** store.rs *)

Class StoreOps (S : Type) := {
  store_get : S -> DatumId -> Z -> option bytes * S;
  store_put : S -> DatumId -> bytes -> Z -> S;
  store_delete : S -> DatumId -> Z -> S;
  store_put_with_previous : S -> DatumId -> bytes -> option bytes -> Z -> S
}.

(** The contract of a store. [store_put_with_previous] may use the caller's
    previous value to send a delta, so its law asks that the value be the one
    the store holds. *)
Class StoreLaws (S : Type) `{StoreOps S} := {
  store_view : S -> gmap DatumId bytes;
  store_get_value s id n : (store_get s id n).1 = store_view s !! id;
  store_get_view s id n : store_view (store_get s id n).2 = store_view s;
  store_put_view s id c n : store_view (store_put s id c n) = <[id:=c]> (store_view s);
  store_delete_view s id n : store_view (store_delete s id n) = delete id (store_view s);
  store_put_prev_view s id c prev n :
    (forall p, prev = Some p -> store_view s !! id = Some p) ->
    store_view (store_put_with_previous s id c prev n) = <[id:=c]> (store_view s)
}.

(** *** InMemoryStore *)

Record InMemoryStore := { data : gmap DatumId bytes }.

Definition InMemoryStore_new : InMemoryStore := {| data := ∅ |}.

Definition mem_get_replicated (s : InMemoryStore) (id : DatumId) (_n : Z)
  : option bytes * InMemoryStore := (data s !! id, s).
Definition mem_put_replicated (s : InMemoryStore) (id : DatumId) (content : bytes) (_n : Z)
  : InMemoryStore := {| data := <[id:=content]> (data s) |}.
Definition mem_delete_replicated (s : InMemoryStore) (id : DatumId) (_n : Z)
  : InMemoryStore := {| data := delete id (data s) |}.
(** The trait's default method: [previous] is ignored. *)
Definition mem_put_with_previous_replicated (s : InMemoryStore) (id : DatumId)
    (content : bytes) (previous : option bytes) (n : Z) : InMemoryStore :=
  mem_put_replicated s id content n.

#[global] Instance InMemoryStore_ops : StoreOps InMemoryStore := {|
  store_get := mem_get_replicated;
  store_put := mem_put_replicated;
  store_delete := mem_delete_replicated;
  store_put_with_previous := mem_put_with_previous_replicated
|}.

#[global] Instance InMemoryStore_laws : StoreLaws InMemoryStore.
Proof. by refine {| store_view := data |}. Defined.

(** ** cache.rs *)

Record Cache (S : Type) := mkCache {
  store : S;
  entries : gmap DatumId bytes
}.
Arguments mkCache {S} _ _.
Arguments store {S} _.
Arguments entries {S} _.

Section cache.
Context {S : Type} `{StoreOps S}.
Implicit Types c : Cache S.

Definition Cache_new (s : S) : Cache S := mkCache s ∅.

Definition get_replicated c (id : DatumId) (n : Z) : option bytes * Cache S :=
  match entries c !! id with
  | Some content => (Some content, c)
  | None =>
      let '(r, s') := store_get (store c) id n in
      match r with
      | None => (None, mkCache s' (entries c))
      | Some loaded => (Some loaded, mkCache s' (<[id:=loaded]> (entries c)))
      end
  end.

Definition put_replicated c (id : DatumId) (content : bytes) (n : Z) : Cache S :=
  let previous := entries c !! id in
  mkCache (store_put_with_previous (store c) id content previous n)
          (<[id:=content]> (entries c)).

Definition delete_replicated c (id : DatumId) (n : Z) : Cache S :=
  mkCache (store_delete (store c) id n) (delete id (entries c)).

Definition cache_get c id := get_replicated c id 1.
Definition cache_put c id content := put_replicated c id content 1.
Definition cache_delete c id := delete_replicated c id 1.

Definition invalidate c (id : DatumId) : Cache S :=
  mkCache (store c) (delete id (entries c)).

Definition evict_non_native c (is_native : DatumId -> bool) : Cache S :=
  mkCache (store c) (filter (λ '(id, _), is_native id = true) (entries c)).

(** *** Coherence

    Every cached value is the stored one. [coherent_on P] asks it only of
    the ids satisfying [P]. *)

Context `{!StoreLaws S}.

Definition cache_view c : gmap DatumId bytes := store_view (store c).

Definition coherent_on (P : DatumId -> bool) c : Prop :=
  forall id v, P id = true -> entries c !! id = Some v -> cache_view c !! id = Some v.
Definition coherent c : Prop := coherent_on (λ _, true) c.

Lemma new_coherent s : coherent (Cache_new s).
Proof. intros id v _ Hl. simpl in Hl. by rewrite lookup_empty in Hl. Qed.

Lemma get_value c id n : coherent c -> (get_replicated c id n).1 = cache_view c !! id.
Proof.
  intros Hc. unfold get_replicated. destruct (entries c !! id) as [v|] eqn:E; simpl.
  - symmetry. by apply Hc.
  - pose proof (store_get_value (store c) id n) as Hv.
    destruct (store_get (store c) id n) as [[v|] s'] eqn:G; by simpl in *.
Qed.

Lemma get_view c id n : cache_view (get_replicated c id n).2 = cache_view c.
Proof.
  unfold get_replicated. destruct (entries c !! id) as [v|] eqn:E; simpl; [done|].
  pose proof (store_get_view (store c) id n) as Hv.
  by destruct (store_get (store c) id n) as [[v|] s'] eqn:G.
Qed.

Lemma get_coherent c id n : coherent c -> coherent (get_replicated c id n).2.
Proof.
  intros Hc i v _ Hi. rewrite get_view. unfold get_replicated in Hi.
  destruct (entries c !! id) as [w|] eqn:E; simpl in Hi; [by apply Hc|].
  pose proof (store_get_value (store c) id n) as Hv.
  destruct (store_get (store c) id n) as [[w|] s'] eqn:G; simpl in *; [|by apply Hc].
  apply lookup_insert_Some in Hi as [[<- <-]|[_ Hi]]; [done|by apply Hc].
Qed.

Lemma put_view c id content n :
  coherent c -> cache_view (put_replicated c id content n) = <[id:=content]> (cache_view c).
Proof. intros Hc. apply store_put_prev_view. intros p Hp. by apply Hc. Qed.

Lemma put_coherent c id content n : coherent c -> coherent (put_replicated c id content n).
Proof.
  intros Hc i v _ Hi. rewrite put_view by done. simpl in Hi.
  apply lookup_insert_Some in Hi as [[<- <-]|[Hne Hi]]; [by simplify_map_eq|].
  rewrite lookup_insert_ne by done. by apply Hc.
Qed.

Lemma delete_view c id n : cache_view (delete_replicated c id n) = delete id (cache_view c).
Proof. apply store_delete_view. Qed.

Lemma delete_coherent c id n : coherent c -> coherent (delete_replicated c id n).
Proof.
  intros Hc i v _ Hi. rewrite delete_view. simpl in Hi.
  apply lookup_delete_Some in Hi as [Hne Hi]. rewrite lookup_delete_ne by done. by apply Hc.
Qed.

Lemma invalidate_coherent_on P c id :
  coherent_on (λ i, P i && negb (bool_decide (i = id))) c -> coherent_on P (invalidate c id).
Proof.
  intros Hc i v Hi Hl. simpl in Hl. apply lookup_delete_Some in Hl as [Hne Hl].
  apply Hc; [|done]. rewrite bool_decide_eq_false_2 by done. by rewrite Hi.
Qed.

Lemma invalidate_coherent c id : coherent c -> coherent (invalidate c id).
Proof. intros Hc. apply invalidate_coherent_on. intros i v _. by apply Hc. Qed.

Lemma evict_coherent_on c is_native :
  coherent_on is_native c -> coherent (evict_non_native c is_native).
Proof.
  intros Hc i v _ Hi. simpl in Hi. apply map_lookup_filter_Some in Hi as [Hl Hn]. by apply Hc.
Qed.

(** *** The cache as an abstract map

    Any sequence of operations on a coherent cache answers as the same
    sequence on the bare content map. *)

Inductive cache_op :=
| OpGet (id : DatumId) (n : Z)
| OpPut (id : DatumId) (content : bytes) (n : Z)
| OpDelete (id : DatumId) (n : Z)
| OpInvalidate (id : DatumId)
| OpEvict (is_native : DatumId -> bool).

Definition cache_step c (o : cache_op) : option (option bytes) * Cache S :=
  match o with
  | OpGet id n => let '(r, c') := get_replicated c id n in (Some r, c')
  | OpPut id content n => (None, put_replicated c id content n)
  | OpDelete id n => (None, delete_replicated c id n)
  | OpInvalidate id => (None, invalidate c id)
  | OpEvict p => (None, evict_non_native c p)
  end.

(** The specification: a map from ids to contents. *)
Definition spec_step (m : gmap DatumId bytes) (o : cache_op)
  : option (option bytes) * gmap DatumId bytes :=
  match o with
  | OpGet id _ => (Some (m !! id), m)
  | OpPut id content _ => (None, <[id:=content]> m)
  | OpDelete id _ => (None, delete id m)
  | OpInvalidate _ | OpEvict _ => (None, m)
  end.

Definition run {T} (step : T -> cache_op -> option (option bytes) * T)
    : T -> list cache_op -> list (option (option bytes)) * T :=
  fix go t os :=
    match os with
    | [] => ([], t)
    | o :: os =>
        let '(r, t') := step t o in
        let '(rs, t'') := go t' os in (r :: rs, t'')
    end.

Lemma cache_step_refines c o :
  coherent c ->
  (cache_step c o).1 = (spec_step (cache_view c) o).1 /\
  cache_view (cache_step c o).2 = (spec_step (cache_view c) o).2 /\
  coherent (cache_step c o).2.
Proof.
  intros Hc. destruct o as [id n|id content n|id n|id|p]; simpl.
  - pose proof (get_value c id n Hc) as E1. pose proof (get_view c id n) as E2.
    pose proof (get_coherent c id n Hc) as E3.
    destruct (get_replicated c id n); simpl in *. by rewrite E1.
  - by split_and!; [|apply put_view|apply put_coherent].
  - by split_and!; [|apply delete_view|apply delete_coherent].
  - by split_and!; [| |apply invalidate_coherent].
  - split_and!; [done..|]. apply evict_coherent_on. intros i v _. by apply Hc.
Qed.
End cache.
Arguments cache_op : clear implicits.

(** C26: on a coherent cache over any store that keeps the [Store] contract,
    every sequence of get / put / delete / invalidate / evict operations
    returns the answers of the plain content map, leaves the store holding
    exactly that map (an acknowledged write is never only in memory), and
    ends coherent. *)
Theorem cache_refines_map {S} `{StoreLaws S} (c : Cache S) (os : list cache_op) :
  coherent c ->
  (run cache_step c os).1 = (run spec_step (cache_view c) os).1 /\
  cache_view (run cache_step c os).2 = (run spec_step (cache_view c) os).2 /\
  coherent (run cache_step c os).2.
Proof.
  revert c. induction os as [|o os IH]; intros c Hc; [done|].
  destruct (cache_step_refines c o Hc) as (E1 & E2 & E3).
  simpl. destruct (cache_step c o) as [r c'], (spec_step (cache_view c) o) as [r' m'].
  simpl in *. subst. specialize (IH c' E3) as (I1 & I2 & I3).
  destruct (run cache_step c' os), (run spec_step (cache_view c') os). by simpl in *; subst.
Qed.

Lemma cache_refines_map_witness :
  let c := cache_put (Cache_new InMemoryStore_new) 7 [u8 1] in
  coherent c /\
  (run cache_step c [OpGet 7 1; OpPut 7 [u8 2] 3; OpInvalidate 7; OpGet 7 1; OpDelete 7 1; OpGet 7 1]).1
    = [Some (Some [u8 1]); None; None; Some (Some [u8 2]); None; Some None].
Proof.
  intros c. assert (coherent c) as Hc by (apply put_coherent, new_coherent).
  split; [exact Hc|].
  rewrite (proj1 (cache_refines_map c _ Hc)). vm_compute. reflexivity.
Defined.

(** After a ring change, dropping every entry this node does not natively
    own restores coherence as long as other nodes wrote only to ids outside
    the new native set: the next read of a dropped id reloads what the store
    holds. *)
Theorem evict_restores_coherence {S} `{StoreLaws S} (c : Cache S) (s' : S)
    (is_native : DatumId -> bool) (id : DatumId) (n : Z) :
  coherent c ->
  (forall i, is_native i = true -> store_view s' !! i = cache_view c !! i) ->
  let c' := evict_non_native (mkCache s' (entries c)) is_native in
  coherent c' /\ (get_replicated c' id n).1 = store_view s' !! id.
Proof.
  intros Hc Hext c'.
  assert (coherent c') as Hc'.
  { apply evict_coherent_on. intros i v Hi Hl. unfold cache_view. simpl.
    rewrite Hext by done. by apply Hc. }
  split; [done|]. by rewrite get_value.
Qed.

Lemma evict_restores_coherence_witness :
  let c := cache_put (cache_put (Cache_new InMemoryStore_new) 1 [u8 1]) 2 [u8 2] in
  let s' := store_put (store c) 2 [u8 9] 1 in
  let c' := evict_non_native (mkCache s' (entries c)) (λ i, i =? 1) in
  (get_replicated c' 2 1).1 = Some [u8 9].
Proof.
  intros c s' c'.
  transitivity (store_view s' !! 2); [|vm_compute; reflexivity].
  refine (proj2 (evict_restores_coherence c s' (λ i, i =? 1) 2 1 _ _)).
  - apply put_coherent, put_coherent, new_coherent.
  - intros i ->%Z.eqb_eq. vm_compute. reflexivity.
Defined.
