(* ===== verification/JumpHash.v ===== *)
(** * seisin-ring: the jump-consistent hash

    Models [crates/seisin-ring/src/jump_hash.rs] ([SplitMix64] and
    [JumpBackHasher::hash]) with every word at its width.

    The inner [loop] draws random words until one lands: it is iterated at
    most [2^64] times by [iter_until], whose doubling recursion stops at the
    first exit and so still computes. [inner_terminates] shows that the bound
    is never reached (the generator's state runs through all of [u64] and the
    state 0 yields the word 0, which leaves the loop), so the model is the
    unbounded loop. The outer [while] clears the top bit of a [u32] each turn:
    32 turns are enough ([outer_total]). *)

From S2P Require Import Prelude.

(** ** Bounded iteration with early exit *)

Section iter.
Context {S R : Type} (f : S -> S + R).

Fixpoint iter_until (p : positive) (s : S) : S + R :=
  match p with
  | xH => f s
  | xO p =>
      match iter_until p s with inl s' => iter_until p s' | inr r => inr r end
  | xI p =>
      match f s with
      | inr r => inr r
      | inl s =>
          match iter_until p s with inl s' => iter_until p s' | inr r => inr r end
      end
  end.

Fixpoint iter_nat (k : nat) (s : S) : S + R :=
  match k with
  | O => inl s
  | Datatypes.S k => match f s with inl s' => iter_nat k s' | inr r => inr r end
  end.

Lemma iter_nat_add a b s :
  iter_nat (a + b) s = match iter_nat a s with inl s' => iter_nat b s' | inr r => inr r end.
Proof. revert s. induction a as [|a IH]; intros s; simpl; [done|]. by destruct (f s). Qed.

Lemma iter_until_nat p s : iter_until p s = iter_nat (Pos.to_nat p) s.
Proof.
  revert s. induction p as [p IH|p IH|]; intros s.
  - simpl iter_until. rewrite Pos2Nat.inj_xI. simpl iter_nat. destruct (f s) as [s'|]; [|done].
    rewrite Nat.add_0_r, iter_nat_add, !IH. destruct (iter_nat (Pos.to_nat p) s'); [apply IH|done].
  - simpl iter_until. rewrite Pos2Nat.inj_xO. simpl Nat.mul.
    rewrite Nat.add_0_r, iter_nat_add, !IH. destruct (iter_nat (Pos.to_nat p) s); [apply IH|done].
  - change (Pos.to_nat 1) with 1%nat. simpl. by destruct (f s).
Qed.

(** An exit after [k] steps persists with more steps, and running out means
    no step before exited. *)
Lemma iter_nat_inl_le k k' s s' :
  (k' <= k)%nat -> iter_nat k s = inl s' -> exists s'', iter_nat k' s = inl s''.
Proof.
  intros Hk. replace k with (k' + (k - k'))%nat by lia. rewrite iter_nat_add.
  destruct (iter_nat k' s); [by eauto|done].
Qed.
End iter.

(** ** SplitMix64 *)

Definition GAMMA : Z := 0x9E3779B97F4A7C15.

(** [next_long]: the drawn word and the new state. *)
Definition next_long (state : Z) : Z * Z :=
  let state := wrap 64 (state + GAMMA) in
  let z := state in
  let z := wrap 64 (Z.lxor z (Z.shiftr z 30) * 0xBF58476D1CE4E5B9) in
  let z := wrap 64 (Z.lxor z (Z.shiftr z 27) * 0x94D049BB133111EB) in
  (Z.lxor z (Z.shiftr z 31), state).

(** ** JumpBackHasher *)

Definition leading_zeros (z : Z) : Z := if z =? 0 then 32 else 31 - Z.log2 z.

Fixpoint pos_count_ones (p : positive) : Z :=
  match p with xH => 1 | xO p => pos_count_ones p | xI p => 1 + pos_count_ones p end.
Definition count_ones (z : Z) : Z :=
  match z with Zpos p => pos_count_ones p | _ => 0 end.

(** [mask2]: twice the level, minus one, without overflowing the top level. *)
Definition level_mask (q : Z) : Z := if q =? 0x80000000 then 0xFFFFFFFF else Z.shiftl q 1 - 1.

(** One turn of the inner [loop] for the level [q]: the state is the candidate
    [b] and the generator; it exits by [return b] ([inl b]) or by [break]
    ([inr rng]). *)
Definition inner_step (n q : Z) (s : Z * Z) : Z * Z + (Z + Z) :=
  let '(b, rng) := s in
  if b <? n then inr (inl b) else
  let '(w, rng) := next_long rng in
  let mask2 := level_mask q in
  let b := Z.land (wrap 32 w) mask2 in
  if b <? q then inr (inr rng) else
  if b <? n then inr (inl b) else
  let b := Z.land (wrap 32 (Z.shiftr w 32)) mask2 in
  if b <? q then inr (inr rng) else
  if b <? n then inr (inl b) else
  inl (b, rng).

Definition inner_loop (n q b rng : Z) : Z * Z + (Z + Z) :=
  iter_until (inner_step n q) (2 ^ 64)%positive (b, rng).

(** [1u32 << (31 - u_work.leading_zeros())] *)
Definition level (u_work : Z) : Z := Z.shiftl 1 (31 - leading_zeros u_work).

(** [q.wrapping_add(((v >> shift) as u32) & (q - 1))] *)
Definition first_candidate (v u_work : Z) : Z :=
  let q := level u_work in
  let shift := Z.land (Z.shiftl (count_ones u_work) 5) 63 in
  let b0 := Z.land (wrap 32 (Z.shiftr v shift)) (q - 1) in
  wrap 32 (q + b0).

(** The outer [while u_work != 0]; [None] is a run out of fuel. *)
Fixpoint outer_loop (fuel : nat) (n v u_work rng : Z) : option Z :=
  if u_work =? 0 then Some 0 else
  match fuel with
  | O => None
  | S fuel =>
      let q := level u_work in
      match inner_loop n q (first_candidate v u_work) rng with
      | inr (inl b) => Some b
      | inr (inr rng') => outer_loop fuel n v (Z.lxor u_work q) rng'
      | inl _ => None
      end
  end.

Definition hash_mask (n : Z) : Z := Z.shiftr 0xFFFFFFFF (leading_zeros (n - 1)).

Definition hash_opt (k n : Z) : option Z :=
  if n <=? 1 then Some 0 else
  let '(v, rng) := next_long k in
  let u := Z.land (wrap 32 (Z.lxor v (Z.shiftr v 32))) (hash_mask n) in
  outer_loop 32 n v u rng.

(** [JumpBackHasher::hash] (the hasher is reseeded on every call). *)
Definition hash (k n : Z) : Z := default 0 (hash_opt k n).

Example hash_0_2 : hash 0 2 = 0. Proof. vm_compute. reflexivity. Qed.
Example hash_1_2 : hash 1 2 = 1. Proof. vm_compute. reflexivity. Qed.

(** ** Bit lemmas *)

Lemma land_pow2_small r m : 0 <= m -> 0 <= r < 2 ^ m -> Z.land r (2 ^ m) = 0.
Proof.
  intros Hm Hr. apply Z.bits_inj'. intros i Hi.
  rewrite Z.land_spec, Z.pow2_bits_eqb, Z.bits_0 by done.
  destruct (Z.eqb_spec m i) as [<-|]; [|apply andb_false_r].
  destruct (decide (r = 0)) as [->|]; [by rewrite Z.bits_0|].
  rewrite Z.bits_above_log2; [done|lia|]. apply Z.log2_lt_pow2; lia.
Qed.

Lemma lxor_top_bit r m : 0 <= m -> 0 <= r < 2 ^ m -> Z.lxor (2 ^ m + r) (2 ^ m) = r.
Proof.
  intros Hm Hr. rewrite Z.add_comm, Z.add_nocarry_lxor by (by apply land_pow2_small).
  by rewrite Z.lxor_assoc, Z.lxor_nilpotent, Z.lxor_0_r.
Qed.

Lemma level_pow u : 0 < u < 2 ^ 32 -> level u = 2 ^ Z.log2 u.
Proof.
  intros Hu. unfold level, leading_zeros. rewrite (proj2 (Z.eqb_neq _ _)) by lia.
  rewrite Z.shiftl_1_l. f_equal. lia.
Qed.

Lemma log2_u32 u : 0 < u < 2 ^ 32 -> 0 <= Z.log2 u < 32.
Proof. intros. split; [apply Z.log2_nonneg|]. apply Z.log2_lt_pow2; lia. Qed.

Lemma level_range u : 0 < u < 2 ^ 32 -> level u <= u < 2 * level u.
Proof.
  intros Hu. rewrite level_pow by done. pose proof (Z.log2_spec u ltac:(lia)) as H.
  rewrite Z.pow_succ_r in H by apply Z.log2_nonneg. lia.
Qed.

(** Clearing the top bit of [u_work] leaves what is below it. *)
Lemma lxor_level u : 0 < u < 2 ^ 32 -> Z.lxor u (level u) = u - level u.
Proof.
  intros Hu. pose proof (level_range u Hu) as H. rewrite level_pow in * by done.
  replace u with (2 ^ Z.log2 u + (u - 2 ^ Z.log2 u)) at 1 by lia.
  apply lxor_top_bit; [apply Z.log2_nonneg|lia].
Qed.

Lemma level_lt u m : 0 < u < 2 ^ 32 -> u < 2 ^ m -> 0 <= m -> 2 * level u <= 2 ^ m.
Proof.
  intros Hu Hm Hm0. rewrite level_pow by done.
  assert (Z.log2 u < m) by (apply Z.log2_lt_pow2; lia).
  rewrite <- Z.pow_succ_r by apply Z.log2_nonneg. apply Z.pow_le_mono_r; lia.
Qed.

Lemma first_candidate_range v u :
  0 < u < 2 ^ 32 -> level u <= first_candidate v u < 2 * level u.
Proof.
  intros Hu. unfold first_candidate.
  assert (exists b0, Z.land (wrap 32 (Z.shiftr v (Z.land (Z.shiftl (count_ones u) 5) 63))) (level u - 1) = b0
            /\ 0 <= b0 < level u) as (b0 & -> & Hb0).
  { eexists; split; [done|]. rewrite level_pow by done.
    pose proof (log2_u32 u Hu). rewrite Z.sub_1_r, <- Z.ones_equiv, Z.land_ones by lia.
    apply Z.mod_pos_bound. lia. }
  pose proof (level_lt u 32 Hu ltac:(lia) ltac:(lia)).
  rewrite wrap_small; unfold uint_ok; lia.
Qed.

Lemma level_pos u : 0 < u < 2 ^ 32 -> 0 < level u.
Proof. intros. pose proof (level_range u ltac:(lia)). lia. Qed.

(** ** The inner loop *)

(** The bounded iteration as a step count; the bound itself is never unfolded. *)
Lemma inner_loop_nat : exists k, Z.of_nat k = 2 ^ 64 /\
  forall n q b rng, inner_loop n q b rng = iter_nat (inner_step n q) k (b, rng).
Proof.
  exists (Pos.to_nat (2 ^ 64)). split; [apply positive_nat_Z|].
  intros. apply iter_until_nat.
Qed.

Lemma inner_step_bounds n q b rng b' :
  0 < q -> q <= b ->
  (inner_step n q (b, rng) = inr (inl b') -> q <= b' < n) /\
  (forall rng', inner_step n q (b, rng) = inl (b', rng') -> q <= b').
Proof.
  intros Hq Hb. unfold inner_step.
  destruct (Z.ltb_spec b n); [split; [intros [= <-]; lia|done]|].
  destruct (next_long rng) as [w rng1].
  set (m2 := level_mask q).
  destruct (Z.ltb_spec (Z.land (wrap 32 w) m2) q); [done|].
  destruct (Z.ltb_spec (Z.land (wrap 32 w) m2) n); [split; [intros [= <-]; lia|done]|].
  destruct (Z.ltb_spec (Z.land (wrap 32 (Z.shiftr w 32)) m2) q); [done|].
  destruct (Z.ltb_spec (Z.land (wrap 32 (Z.shiftr w 32)) m2) n);
    [split; [intros [= <-]; lia|done]|].
  split; [done|]. intros rng' [= <- _]. lia.
Qed.

Lemma inner_returns_bounds n q b rng b' :
  0 < q -> q <= b -> inner_loop n q b rng = inr (inl b') -> q <= b' < n.
Proof.
  intros Hq. destruct inner_loop_nat as (k & _ & ->). revert b rng.
  induction k as [|k IH]; intros b rng Hb; cbn [iter_nat]; [discriminate|].
  pose proof (inner_step_bounds n q b rng) as HS.
  destruct (inner_step n q (b, rng)) as [[b1 rng1]|r].
  - apply IH. by eapply (HS b1).
  - intros [= ->]. by apply (HS b').
Qed.

(** A candidate below [n] is returned at once, whatever the generator. *)
Lemma inner_immediate n q b rng : b < n -> inner_loop n q b rng = inr (inl b).
Proof.
  intros H. destruct inner_loop_nat as ([|k] & Hk & ->); [exfalso; lia|]. cbn [iter_nat]. unfold inner_step.
  by rewrite (proj2 (Z.ltb_lt _ _)).
Qed.

(** Growing [n] by one changes the outcome only by returning [n] itself. *)
Lemma inner_grow n q b rng :
  inner_loop (n + 1) q b rng = inner_loop n q b rng \/
  inner_loop (n + 1) q b rng = inr (inl n).
Proof.
  destruct inner_loop_nat as (k & _ & HK). rewrite !HK. clear HK. revert b rng.
  assert (forall b rng, inner_step (n + 1) q (b, rng) = inner_step n q (b, rng) \/
            inner_step (n + 1) q (b, rng) = inr (inl n)) as Hstep.
  { intros b rng. unfold inner_step.
    destruct (next_long rng) as [w rng1]. set (m2 := level_mask q).
    repeat match goal with |- context [?x <? ?y] => destruct (Z.ltb_spec x y) end;
      try (by left); try lia; right; repeat f_equal; lia. }
  induction k as [|k IH]; intros b rng; cbn [iter_nat]; [by left|].
  destruct (Hstep b rng) as [->| ->]; [|by right].
  destruct (inner_step n q (b, rng)) as [[b1 rng1]|r]; [apply IH|by left].
Qed.

(** *** Termination *)

Lemma next_long_state rng : (next_long rng).2 = wrap 64 (rng + GAMMA).
Proof. done. Qed.

Lemma next_long_zero rng : wrap 64 (rng + GAMMA) = 0 -> (next_long rng).1 = 0.
Proof. intros H. unfold next_long. by rewrite H. Qed.

Lemma inner_state n q k b rng b' rng' :
  0 <= rng < 2 ^ 64 ->
  iter_nat (inner_step n q) k (b, rng) = inl (b', rng') ->
  rng' = wrap 64 (rng + Z.of_nat k * GAMMA).
Proof.
  revert b rng. induction k as [|k IH]; intros b rng Hr; cbn [iter_nat].
  { intros [= _ <-]. rewrite Z.mul_0_l, Z.add_0_r. by rewrite wrap_small. }
  destruct (inner_step n q (b, rng)) as [[b1 rng1]|] eqn:E; [|done].
  assert (rng1 = wrap 64 (rng + GAMMA)) as ->.
  { rewrite <- next_long_state. unfold inner_step in E. destruct (next_long rng) as [w r1].
    by repeat case_match; simplify_eq. }
  intros H. apply IH in H; [|apply wrap_ok; lia]. rewrite H. unfold wrap.
  rewrite Zplus_mod_idemp_l. f_equal. lia.
Qed.

Definition GAMMA_INV : Z := 0xF1DE83E19937733D.

Lemma inner_terminates n q b rng :
  0 < q -> 0 <= rng < 2 ^ 64 -> exists r, inner_loop n q b rng = inr r.
Proof.
  intros Hq Hr. destruct inner_loop_nat as (k & Hk & ->).
  destruct (iter_nat (inner_step n q) k (b, rng)) as [s|r] eqn:E; [|by eauto].
  exfalso. set (j := wrap 64 (- (rng + GAMMA) * GAMMA_INV)).
  assert (0 <= j < 2 ^ 64) as Hj by (apply wrap_ok; lia).
  assert (wrap 64 (rng + j * GAMMA + GAMMA) = 0) as Hzero.
  { unfold j, wrap.
    replace (rng + (- (rng + GAMMA) * GAMMA_INV) mod 2 ^ 64 * GAMMA + GAMMA)
      with ((rng + GAMMA) + (- (rng + GAMMA) * GAMMA_INV) mod 2 ^ 64 * GAMMA) by lia.
    rewrite <- Zplus_mod_idemp_r, Zmult_mod_idemp_l, Zplus_mod_idemp_r.
    replace (rng + GAMMA + - (rng + GAMMA) * GAMMA_INV * GAMMA)
      with ((rng + GAMMA) * (1 - GAMMA_INV * GAMMA)) by lia.
    rewrite <- Zmult_mod_idemp_r. replace ((1 - GAMMA_INV * GAMMA) mod 2 ^ 64) with 0 by done.
    by rewrite Z.mul_0_r. }
  destruct (iter_nat_inl_le _ k (S (Z.to_nat j)) _ _ ltac:(lia) E) as [s'' E2].
  replace (S (Z.to_nat j)) with (Z.to_nat j + 1)%nat in E2 by lia. rewrite iter_nat_add in E2.
  destruct (iter_nat (inner_step n q) (Z.to_nat j) (b, rng)) as [[b1 r1]|] eqn:E1; [|done].
  apply inner_state in E1; [|done]. rewrite Z2Nat.id in E1 by lia. subst r1.
  assert (wrap 64 (wrap 64 (rng + j * GAMMA) + GAMMA) = 0) as Hz.
  { unfold wrap in *. by rewrite Zplus_mod_idemp_l. }
  pose proof (next_long_zero _ Hz) as Hw.
  cbn [iter_nat] in E2. unfold inner_step in E2. destruct (b1 <? n); [done|].
  destruct (next_long (wrap 64 (rng + j * GAMMA))) as [w r2]. simpl in Hw. subst w.
  change (wrap 32 0) with 0 in E2. rewrite Z.land_0_l in E2.
  by rewrite (proj2 (Z.ltb_lt _ _)) in E2.
Qed.

Lemma inner_breaks_state n q b rng rng' :
  0 <= rng < 2 ^ 64 -> inner_loop n q b rng = inr (inr rng') -> 0 <= rng' < 2 ^ 64.
Proof.
  destruct inner_loop_nat as (k & _ & ->). revert b rng. induction k as [|k IH]; intros b rng Hr; cbn [iter_nat]; [discriminate|].
  assert (0 <= (next_long rng).2 < 2 ^ 64) by (rewrite next_long_state; apply wrap_ok; lia).
  destruct (inner_step n q (b, rng)) as [[b1 rng1]|r] eqn:E.
  - intros H1. eapply IH; [|done]. unfold inner_step in E. destruct (next_long rng).
    by repeat case_match; simplify_eq.
  - intros [= ->]. unfold inner_step in E. destruct (next_long rng).
    by repeat case_match; simplify_eq.
Qed.

(** ** The outer loop *)

Lemma outer_total f n v u rng :
  (f <= 32)%nat -> 0 < n -> 0 <= u < 2 ^ Z.of_nat f -> 0 <= rng < 2 ^ 64 ->
  exists b, outer_loop f n v u rng = Some b /\ 0 <= b < n.
Proof.
  intros Hf Hn. revert u rng. induction f as [|f IH]; intros u rng Hu Hr; cbn [outer_loop].
  { rewrite (proj2 (Z.eqb_eq _ _)) by (change (2 ^ Z.of_nat 0) with 1 in Hu; lia).
    exists 0. split; [done|lia]. }
  destruct (Z.eqb_spec u 0); [exists 0; split; [done|lia]|].
  assert (2 ^ Z.of_nat (S f) <= 2 ^ 32) by (apply Z.pow_le_mono_r; lia).
  assert (0 < u < 2 ^ 32) as Hu32 by lia.
  pose proof (first_candidate_range v u Hu32) as Hc. pose proof (level_pos u Hu32) as Hl.
  destruct (inner_terminates n (level u) (first_candidate v u) rng Hl Hr) as [[b|rng'] E]; rewrite E.
  - apply inner_returns_bounds in E; [|lia..]. exists b. split; [done|lia].
  - apply inner_breaks_state in E; [|done]. rewrite lxor_level by done.
    apply IH; [lia| |done]. pose proof (level_range u Hu32).
    pose proof (level_lt u (Z.of_nat (S f)) Hu32 ltac:(lia) ltac:(lia)) as H2.
    rewrite Nat2Z.inj_succ, Z.pow_succ_r in H2 by lia. lia.
Qed.

(** When every level left is at most [n], the first candidate is the answer. *)
Lemma outer_small f n v u rng m :
  (0 < f)%nat -> 0 <= m <= 32 -> 2 ^ m <= n -> 0 <= u < 2 ^ m ->
  outer_loop f n v u rng = if u =? 0 then Some 0 else Some (first_candidate v u).
Proof.
  intros Hf Hm Hn Hu. destruct f as [|f]; [lia|]. cbn [outer_loop].
  destruct (Z.eqb_spec u 0); [done|].
  assert (2 ^ m <= 2 ^ 32) by (apply Z.pow_le_mono_r; lia).
  assert (0 < u < 2 ^ 32) as Hu32 by lia.
  pose proof (first_candidate_range v u Hu32). pose proof (level_lt u m Hu32 ltac:(lia) ltac:(lia)).
  by rewrite inner_immediate by lia.
Qed.

Lemma outer_grow f n v u rng :
  outer_loop f (n + 1) v u rng = outer_loop f n v u rng \/
  outer_loop f (n + 1) v u rng = Some n.
Proof.
  revert u rng. induction f as [|f IH]; intros u rng; cbn [outer_loop]; [by left|].
  destruct (u =? 0); [by left|].
  destruct (inner_grow n (level u) (first_candidate v u) rng) as [-> | ->]; [|by right].
  destruct (inner_loop _ _ _ _) as [|[b|rng']]; [by left..|apply IH].
Qed.

Lemma hash_mask_ones n : 2 <= n < 2 ^ 32 -> hash_mask n = Z.ones (Z.log2 (n - 1) + 1).
Proof.
  intros Hn. unfold hash_mask, leading_zeros. rewrite (proj2 (Z.eqb_neq _ _)) by lia.
  pose proof (log2_u32 (n - 1) ltac:(lia)).
  change 0xFFFFFFFF with (Z.ones 32). rewrite Z.shiftr_div_pow2 by lia.
  rewrite Z.ones_div_pow2 by lia. f_equal. lia.
Qed.

(** The word whose masked bits choose the levels. *)
Definition hash_word (v : Z) : Z := wrap 32 (Z.lxor v (Z.shiftr v 32)).

Lemma hash_opt_unfold k n : 2 <= n < 2 ^ 32 ->
  hash_opt k n =
    outer_loop 32 n (next_long k).1 (hash_word (next_long k).1 mod 2 ^ (Z.log2 (n - 1) + 1))
      (next_long k).2.
Proof.
  intros Hn. unfold hash_opt. rewrite (proj2 (Z.leb_gt _ _)) by lia.
  destruct (next_long k) as [v rng]. rewrite hash_mask_ones by done.
  pose proof (Z.log2_nonneg (n - 1)). by rewrite Z.land_ones by lia.
Qed.

Lemma hash_opt_total k n :
  1 <= n < 2 ^ 32 -> exists b, hash_opt k n = Some b /\ 0 <= b < n.
Proof.
  intros Hn. destruct (decide (n = 1)) as [->|]; [exists 0; split; [done|lia]|].
  rewrite hash_opt_unfold by lia. pose proof (log2_u32 (n - 1) ltac:(lia)).
  apply outer_total; [lia..| |rewrite next_long_state; apply wrap_ok; lia].
  change (2 ^ Z.of_nat 32) with (2 ^ 32).
  assert (2 ^ (Z.log2 (n - 1) + 1) <= 2 ^ 32) by (apply Z.pow_le_mono_r; lia).
  pose proof (Z.mod_pos_bound (hash_word (next_long k).1) (2 ^ (Z.log2 (n - 1) + 1))
    ltac:(apply Z.pow_pos_nonneg; lia)). lia.
Qed.

Lemma hash_range k n : 1 <= n < 2 ^ 32 -> 0 <= hash k n < n.
Proof. intros Hn. unfold hash. by destruct (hash_opt_total k n Hn) as (b & -> & ?). Qed.

(** The power-of-two boundary: one more level is consulted, and it either lands
    on the new bucket or leaves the answer to the old levels. *)
Lemma outer_boundary f v u rng m :
  (0 < f)%nat -> 0 <= m < 32 -> 0 <= u < 2 ^ m -> 0 <= rng < 2 ^ 64 ->
  outer_loop (S f) (2 ^ m + 1) v (2 ^ m + u) rng = outer_loop (S f) (2 ^ m) v u rng \/
  outer_loop (S f) (2 ^ m + 1) v (2 ^ m + u) rng = Some (2 ^ m).
Proof.
  intros Hf Hm Hu Hr. assert (2 ^ m <= 2 ^ 31) by (apply Z.pow_le_mono_r; lia).
  rewrite (outer_small (S f) (2 ^ m) _ _ _ m) by lia.
  assert (0 < 2 ^ m + u < 2 ^ 32) as Hw by lia.
  assert (level (2 ^ m + u) = 2 ^ m) as Hlv.
  { rewrite level_pow by done. f_equal. apply Z.log2_unique; [lia|].
    rewrite Z.pow_succ_r by lia. lia. }
  cbn [outer_loop]. rewrite Hlv. rewrite (proj2 (Z.eqb_neq _ _)) by lia.
  pose proof (first_candidate_range v _ Hw) as Hc. rewrite Hlv in Hc.
  destruct (inner_terminates (2 ^ m + 1) (2 ^ m) (first_candidate v (2 ^ m + u)) rng ltac:(lia) Hr)
    as [[b|rng'] E]; rewrite E.
  - apply inner_returns_bounds in E; [|lia..]. right. f_equal. lia.
  - left. rewrite lxor_top_bit by lia. apply (outer_small f _ _ _ _ m); lia.
Qed.

Lemma hash_opt_boundary k m :
  1 <= m < 32 ->
  hash_opt k (2 ^ m + 1) = hash_opt k (2 ^ m) \/ hash_opt k (2 ^ m + 1) = Some (2 ^ m).
Proof.
  intros Hm. assert (2 ^ 1 <= 2 ^ m <= 2 ^ 31) as Hp by (split; apply Z.pow_le_mono_r; lia).
  rewrite !hash_opt_unfold by lia.
  assert (0 <= (next_long k).2 < 2 ^ 64) as Hr by (rewrite next_long_state; apply wrap_ok; lia).
  replace (2 ^ m + 1 - 1) with (2 ^ m) by lia. rewrite Z.log2_pow2 by lia.
  rewrite Z.sub_1_r, Z.log2_pred_pow2 by lia. replace (Z.pred m + 1) with m by lia.
  rewrite Z.pow_add_r, Z.pow_1_r, Z.rem_mul_r by lia.
  set (w := hash_word (next_long k).1).
  pose proof (Z.mod_pos_bound w (2 ^ m) ltac:(lia)) as Hu.
  pose proof (Z.mod_pos_bound (w / 2 ^ m) 2 ltac:(lia)) as Hb.
  destruct (decide ((w / 2 ^ m) mod 2 = 0)) as [-> |].
  { rewrite Z.mul_0_r, Z.add_0_r. apply outer_grow. }
  replace ((w / 2 ^ m) mod 2) with 1 by lia. rewrite Z.mul_1_r, (Z.add_comm (w mod 2 ^ m)).
  apply outer_boundary; lia.
Qed.

(** Adding one bucket moves a key only to the new bucket. *)
Lemma hash_grow k n :
  0 <= n -> n + 1 < 2 ^ 32 -> hash k (n + 1) = hash k n \/ hash k (n + 1) = n.
Proof.
  intros Hn0 Hn. destruct (decide (n <= 1)).
  { pose proof (hash_range k (n + 1) ltac:(lia)). 
    assert (hash k n = 0) as -> by (unfold hash, hash_opt; by rewrite (proj2 (Z.leb_le _ _))).
    lia. }
  enough (hash_opt k (n + 1) = hash_opt k n \/ hash_opt k (n + 1) = Some n) as [H|H];
    [unfold hash; rewrite H; auto..|].
  destruct (decide (Z.log2 n = Z.log2 (n - 1))) as [E|E].
  - rewrite !hash_opt_unfold by lia. replace (n + 1 - 1) with n by lia. rewrite E. apply outer_grow.
  - pose proof (log2_u32 n ltac:(lia)). pose proof (Z.log2_spec n ltac:(lia)) as Hs.
    pose proof (Z.log2_le_mono (n - 1) n ltac:(lia)).
    assert (n - 1 < 2 ^ Z.log2 n) by (apply Z.log2_lt_pow2; lia).
    assert (n = 2 ^ Z.log2 n) as Hpow by lia.
    assert (1 <= Z.log2 n) by (apply Z.log2_le_pow2; lia).
    rewrite Hpow. apply hash_opt_boundary. lia.
Qed.


(** Growing from [n] to [m] buckets moves a key only to a new bucket. *)
Lemma hash_grow_many k n m :
  0 <= n <= m -> m < 2 ^ 32 -> hash k m = hash k n \/ n <= hash k m < m.
Proof.
  intros Hnm Hm. replace m with (n + Z.of_nat (Z.to_nat (m - n))) in * by lia.
  induction (Z.to_nat (m - n)) as [|d IH]; [left; f_equal; lia|].
  rewrite Nat2Z.inj_succ in *. unfold Z.succ in *. rewrite Z.add_assoc in *.
  destruct (hash_grow k (n + Z.of_nat d) ltac:(lia) ltac:(lia)) as [-> | ->]; [|right; lia].
  destruct (IH ltac:(lia) ltac:(lia)) as [->|]; [by left|right; lia].
Qed.

(** C30: [JumpBackHasher::hash] always returns: for every seed and every bucket
    count of at least one, the rejection loop exits before its [2^64] bound and
    the level loop before its 32nd turn, and the bucket is below [n]. *)
Theorem hash_terminates_in_range (k n : Z) :
  1 <= n < 2 ^ 32 ->
  exists b, hash_opt k n = Some b /\ hash k n = b /\ 0 <= b < n.
Proof.
  intros Hn. destruct (hash_opt_total k n Hn) as (b & Hb & Hr).
  exists b. split_and!; try done; try lia. unfold hash. by rewrite Hb.
Qed.

Lemma hash_terminates_in_range_witness :
  1 <= 5 < 2 ^ 32 /\ exists b, hash_opt 7 5 = Some b /\ hash 7 5 = b /\ 0 <= b < 5.
Proof. split; [lia|]. apply (hash_terminates_in_range 7 5). lia. Defined.

(** C29: between any two bucket counts, growing or shrinking, a key changes
    bucket only into or out of the buckets that one side lacks. *)
Theorem hash_minimal_remap (k n m : Z) :
  1 <= n <= m -> m < 2 ^ 32 ->
  (hash k m < n -> hash k n = hash k m) /\
  (hash k m <> hash k n -> n <= hash k m < m).
Proof.
  intros Hnm Hm. destruct (hash_grow_many k n m ltac:(lia) Hm) as [->|]; [done|].
  split; [lia|done].
Qed.

Lemma hash_minimal_remap_witness :
  (hash 1 9 < 3 -> hash 1 3 = hash 1 9) /\ (hash 1 9 <> hash 1 3 -> 3 <= hash 1 9 < 9).
Proof. apply (hash_minimal_remap 1 3 9); lia. Defined.

#[global] Opaque hash.
