(* ===== verification/Ring.v ===== *)
(** * seisin-ring: the compute and storage rings

    Models [crates/seisin-ring/src/ring.rs]: the slot vector, join and leave,
    the weights view, the owner of a datum and its replica set. Slot counts are
    cast to [u32] by the code; the theorems assume a ring of fewer than [2^32]
    slots. *)

From S2P Require Import Prelude Core JumpHash.

Record Ring := mkRing { slots : list (NodeId * ThreadId) }.

Definition ring_empty : Ring := mkRing [].

(** [for t in 0..thread_count { slots.push((node_id, ThreadId(t))) }] *)
Definition apply_join (r : Ring) (node_id : NodeId) (thread_count : Z) : Ring :=
  mkRing (slots r ++ map (λ t, (node_id, Z.of_nat t)) (seq 0 (Z.to_nat thread_count))).

Definition from_members (members : list (NodeId * Z)) : Ring :=
  fold_left (λ ring '(node_id, thread_count), apply_join ring node_id thread_count)
    members ring_empty.

(** [slots.swap(i, last); slots.pop()] *)
Definition swap_remove {A} (i : nat) (l : list A) : list A :=
  match last l with
  | Some x => removelast (<[i := x]> l)
  | None => l
  end.

(** The [while i < slots.len()] of [apply_leave]; each turn brings [i] and the
    length one closer, so as many turns as slots are enough. *)
Fixpoint leave_loop (fuel : nat) (node_id : NodeId) (i : nat) (l : list (NodeId * ThreadId))
    : option (list (NodeId * ThreadId)) :=
  match l !! i with
  | None => Some l
  | Some (n, _) =>
      match fuel with
      | O => None
      | S fuel =>
          if n =? node_id then leave_loop fuel node_id i (swap_remove i l)
          else leave_loop fuel node_id (S i) l
      end
  end.

Definition apply_leave (r : Ring) (node_id : NodeId) : Ring :=
  mkRing (default [] (leave_loop (length (slots r)) node_id 0 (slots r))).

Definition contains (r : Ring) (node_id : NodeId) : bool :=
  existsb (λ '(n, _), n =? node_id) (slots r).

(** One turn of the [for (node, _) in &self.slots] of [weights]. *)
Definition weights_step (acc : list NodeId * gmap NodeId Z) (slot : NodeId * ThreadId)
    : list NodeId * gmap NodeId Z :=
  let '(order, counts) := acc in
  let node := slot.1 in
  let order := match counts !! node with Some _ => order | None => order ++ [node] end in
  (order, <[node := default 0 (counts !! node) + 1]> counts).

Definition weights (r : Ring) : list (NodeId * Z) :=
  let '(order, counts) := fold_left weights_step (slots r) ([], ∅) in
  map (λ n, (n, default 0 (counts !! n))) order.

Definition node_ids (r : Ring) : list NodeId := map fst (weights r).

(** The trailing eight bytes of the id, little-endian. *)
Definition hash_key (datum_id : DatumId) : Z := from_le (sub_bytes (as_bytes datum_id) 8 16).

Definition slot_count (r : Ring) : Z := wrap 32 (zlen (slots r)).

Definition native (r : Ring) (datum_id : DatumId) : res (NodeId * ThreadId) :=
  index (slots r) (hash (hash_key datum_id) (slot_count r)).

(** The salted phase: [fuel] is the number of attempts left. *)
Fixpoint salted_phase (fuel : nat) (r : Ring) (base salt : Z) (target : nat)
    (chosen : list NodeId) : res (list NodeId) :=
  match fuel with
  | O => Ok chosen
  | S fuel =>
      if bool_decide (length chosen < target)%nat then
        let key := wrap 64 (base + wrap 64 (salt * GAMMA)) in
        '(node, _) ← index (slots r) (hash key (slot_count r));
        salted_phase fuel r base (salt + 1) target
          (if bool_decide (node ∈ chosen) then chosen else chosen ++ [node])
      else Ok chosen
  end.

(** The final sweep over [node_ids()]. *)
Fixpoint sweep (distinct : list NodeId) (target : nat) (chosen : list NodeId) : list NodeId :=
  match distinct with
  | [] => chosen
  | node :: distinct =>
      if bool_decide (length chosen = target) then chosen
      else sweep distinct target
             (if bool_decide (node ∈ chosen) then chosen else chosen ++ [node])
  end.

Definition replicas (r : Ring) (datum_id : DatumId) (n : nat) : res (list NodeId) :=
  if bool_decide (slots r = []) || bool_decide (n = 0%nat) then Ok [] else
  let distinct := node_ids r in
  let target := Nat.min n (length distinct) in
  let base := hash_key datum_id in
  '(first, _) ← index (slots r) (hash base (slot_count r));
  let cap := (length (slots r) * 3 + 32)%nat in
  chosen ← salted_phase cap r base 1 target [first];
  Ok (if bool_decide (length chosen < target)%nat then sweep distinct target chosen else chosen).

Definition ring_ok (r : Ring) : Prop := zlen (slots r) < 2 ^ 32.

(** ** Swap-remove *)

Section swap_remove.
Context {A : Type}.
Implicit Types (l : list A) (x y : A).

Lemma swap_remove_snoc i l y :
  swap_remove i (l ++ [y]) = if bool_decide (i = length l) then l else <[i := y]> l.
Proof.
  unfold swap_remove. rewrite last_snoc. case_bool_decide as Hi.
  - subst. rewrite insert_app_r_alt by lia. rewrite Nat.sub_diag. simpl. apply removelast_last.
  - destruct (decide (i < length l)%nat).
    + rewrite insert_app_l by done. apply removelast_last.
    + rewrite !list_insert_ge by (rewrite ?length_app; simpl; lia). apply removelast_last.
Qed.

Lemma list_snoc_cases l : l = [] \/ exists l' y, l = l' ++ [y].
Proof. induction l using rev_ind; eauto. Qed.

Lemma length_swap_remove i l x :
  l !! i = Some x -> S (length (swap_remove i l)) = length l.
Proof.
  destruct (list_snoc_cases l) as [->|(l' & y & ->)]; [done|]. intros _.
  rewrite swap_remove_snoc, length_app. simpl.
  case_bool_decide; rewrite ?length_insert; lia.
Qed.

(** Every position but [i] and the last keeps its element. *)
Lemma lookup_swap_remove_ne i j l :
  j <> i -> (j < length (swap_remove i l))%nat -> swap_remove i l !! j = l !! j.
Proof.
  destruct (list_snoc_cases l) as [->|(l' & y & ->)]; [done|]. intros Hne.
  rewrite swap_remove_snoc. case_bool_decide; rewrite ?length_insert; intros Hj;
    rewrite lookup_app_l by done; [done|]. by rewrite list_lookup_insert_ne.
Qed.

Lemma swap_remove_Permutation i l x :
  l !! i = Some x -> x :: swap_remove i l ≡ₚ l.
Proof.
  destruct (list_snoc_cases l) as [->|(l' & y & ->)]; [done|]. intros Hx.
  rewrite swap_remove_snoc. case_bool_decide as Hi.
  - subst. rewrite list_lookup_middle in Hx by done. simplify_eq. apply Permutation_cons_append.
  - assert (i < length l')%nat as Hl.
    { apply lookup_lt_Some in Hx. rewrite length_app in Hx. simpl in Hx. lia. }
    rewrite lookup_app_l in Hx by done.
    rewrite <- (take_drop_middle l' i x Hx) at 2. rewrite insert_take_drop by done.
    rewrite <- Permutation_middle, <- (Permutation_cons_append (_ ++ _)),
      <- Permutation_middle. apply perm_swap.
Qed.
End swap_remove.

(** ** Leave *)

Lemma leave_loop_spec f node i l :
  (length l <= i + f)%nat -> (i <= length l)%nat ->
  Forall (λ s, s.1 <> node) (take i l) ->
  exists l', leave_loop f node i l = Some l' /\
    l' ≡ₚ filter (λ s, s.1 <> node) l /\
    (forall j s, (j < length l')%nat -> l !! j = Some s -> s.1 <> node -> l' !! j = Some s).
Proof.
  revert i l. induction f as [|f IH]; intros i l Hf Hi HF; cbn [leave_loop].
  { rewrite lookup_ge_None_2 by lia. exists l. split_and!; [done| |done].
    rewrite take_ge in HF by lia. by rewrite filter_all. }
  destruct (l !! i) as [[n t]|] eqn:E.
  2: { apply lookup_ge_None_1 in E. rewrite take_ge in HF by lia. exists l.
       split_and!; [done| |done]. by rewrite filter_all. }
  pose proof (lookup_lt_Some _ _ _ E) as Hlt.
  destruct (Z.eqb_spec n node) as [->|Hne].
  - pose proof (length_swap_remove _ _ _ E) as Hlen.
    destruct (IH i (swap_remove i l)) as (l' & E' & HP & HK); [lia..| |].
    { rewrite Forall_take_lookup in HF |- *. intros j s Hj Hs.
      pose proof (lookup_lt_Some _ _ _ Hs).
      rewrite lookup_swap_remove_ne in Hs by lia. eauto. }
    exists l'. split_and!; [done| |].
    + rewrite HP. transitivity (filter (λ s, s.1 <> node) ((node, t) :: swap_remove i l)).
      * by rewrite filter_cons_False by (simpl; tauto).
      * by rewrite (swap_remove_Permutation _ _ _ E).
    + intros j s Hj Hs Hn. apply HK; [done| |done].
      assert (j <> i) by (intros ->; simplify_eq; simpl in *; done).
      rewrite lookup_swap_remove_ne; [done..|].
      rewrite HP in Hj. pose proof (length_filter (λ s, s.1 <> node) (swap_remove i l)). lia.
  - destruct (IH (S i) l) as (l' & E' & HP & HK); [lia..| |eauto].
    rewrite (take_S_r _ _ _ E). apply Forall_app. by split; [|constructor].
Qed.

Lemma apply_leave_slots r node :
  slots (apply_leave r node) ≡ₚ filter (λ s, s.1 <> node) (slots r).
Proof.
  destruct (leave_loop_spec (length (slots r)) node 0 (slots r)) as (l & E & HP & _);
    [lia..|constructor|]. unfold apply_leave. by rewrite E.
Qed.

Lemma apply_leave_keeps r node j s :
  (j < length (slots (apply_leave r node)))%nat -> slots r !! j = Some s -> s.1 <> node ->
  slots (apply_leave r node) !! j = Some s.
Proof.
  destruct (leave_loop_spec (length (slots r)) node 0 (slots r)) as (l & E & _ & HK);
    [lia..|constructor|]. unfold apply_leave. rewrite E. apply HK.
Qed.

Lemma apply_leave_length r node :
  (length (slots (apply_leave r node)) <= length (slots r))%nat.
Proof. rewrite apply_leave_slots. apply length_filter. Qed.

(** ** The owner of a datum *)

Lemma slot_count_ok r : ring_ok r -> slot_count r = zlen (slots r).
Proof. intros H. apply wrap_small. pose proof (zlen_nonneg (slots r)). split; [done|exact H]. Qed.

Lemma ring_index_ok r k :
  ring_ok r -> slots r <> [] ->
  exists s, index (slots r) (hash k (slot_count r)) = Ok s /\
    slots r !! Z.to_nat (hash k (zlen (slots r))) = Some s.
Proof.
  intros Hr Hne. rewrite slot_count_ok by done. apply index_ok. apply hash_range.
  pose proof (zlen_nonneg (slots r)). split; [|exact Hr].
  destruct (decide (zlen (slots r) = 0)) as [?%zlen_0|]; [done|lia].
Qed.

Lemma index_lookup {A} (l : list A) i x : 0 <= i -> l !! Z.to_nat i = Some x -> index l i = Ok x.
Proof. intros Hi Hx. unfold index. rewrite (proj2 (Z.leb_le _ _)) by done. by rewrite Hx. Qed.

Lemma ring_size_le r r' :
  ring_ok r' -> (length (slots r) <= length (slots r'))%nat ->
  ring_ok r /\ 0 <= zlen (slots r) <= zlen (slots r').
Proof. unfold ring_ok, zlen. lia. Qed.

Lemma native_lookup r d s :
  ring_ok r -> slots r <> [] ->
  native r d = Ok s <-> slots r !! Z.to_nat (hash (hash_key d) (zlen (slots r))) = Some s.
Proof.
  intros Hr Hne. unfold native. destruct (ring_index_ok r (hash_key d) Hr Hne) as (s' & -> & ->).
  naive_solver.
Qed.

(** The owner lookup panics exactly on the empty ring, and otherwise
    returns one of its slots. *)
Theorem native_total (r : Ring) (d : DatumId) :
  ring_ok r ->
  if bool_decide (slots r = []) then native r d = Panic
  else exists s, native r d = Ok s /\ s ∈ slots r.
Proof.
  intros Hr. case_bool_decide as He.
  - unfold native, index. rewrite He. by destruct (0 <=? _).
  - destruct (ring_index_ok r (hash_key d) Hr He) as (s & E & Hs). exists s. split; [exact E|].
    by eapply list_elem_of_lookup_2.
Qed.

Lemma native_total_witness :
  exists s, native (from_members [(1, 2); (2, 1)]) 77 = Ok s /\
            s ∈ slots (from_members [(1, 2); (2, 1)]).
Proof. apply (native_total (from_members [(1, 2); (2, 1)]) 77). vm_compute. reflexivity. Defined.

(** A join only moves data to the joining node: every datum keeps its
    owner or is now owned by one of the new slots. *)
Theorem apply_join_minimal_remap (r : Ring) (node : NodeId) (count : Z) (d : DatumId) :
  ring_ok (apply_join r node count) -> slots r <> [] ->
  native (apply_join r node count) d = native r d \/
  exists t, native (apply_join r node count) d = Ok (node, t) /\ 0 <= t < count.
Proof.
  intros Hr Hne. set (r' := apply_join r node count) in *.
  assert (length (slots r) <= length (slots r'))%nat as Hl by (simpl; rewrite length_app; lia).
  destruct (ring_size_le r r' Hr Hl) as (Hr0 & Hz).
  assert (slots r' <> []) as Hne' by (simpl; destruct (slots r); done).
  destruct (hash_grow_many (hash_key d) (zlen (slots r)) (zlen (slots r')) ltac:(lia) Hr) as [E|E].
  - left. destruct (ring_index_ok r (hash_key d) Hr0 Hne) as (s & E1 & Hs).
    unfold native at 2. rewrite E1. apply native_lookup; [done..|]. rewrite E. simpl.
    by apply lookup_app_l_Some.
  - right. destruct (ring_index_ok r' (hash_key d) Hr Hne') as (s & E1 & Hs).
    unfold native. rewrite E1.
    set (h := hash (hash_key d) (zlen (slots r'))) in *. simpl slots in Hs.
    rewrite lookup_app_r in Hs by (unfold zlen in *; lia).
    rewrite list_lookup_fmap in Hs. apply fmap_Some in Hs as (t & Ht & ->).
    apply lookup_seq in Ht. exists (Z.of_nat t). split; [done|]. lia.
Qed.

Lemma apply_join_minimal_remap_witness :
  let r := from_members [(1, 2); (2, 1)] in
  native (apply_join r 3 2) 5 = native r 5 \/
  exists t, native (apply_join r 3 2) 5 = Ok (3, t) /\ 0 <= t < 2.
Proof. apply apply_join_minimal_remap; [vm_compute; reflexivity|done]. Defined.

(** A leave removes exactly the leaving node's slots, and every datum owned
    by another node's slot that survives the shrink keeps its owner: only the
    departed node's data and those of the last slots, moved into the gaps, can
    change hands. *)
Theorem apply_leave_minimal_remap (r : Ring) (node : NodeId) :
  ring_ok r ->
  slots (apply_leave r node) ≡ₚ filter (λ s, s.1 <> node) (slots r) /\
  contains (apply_leave r node) node = false /\
  forall d s, native r d = Ok s -> s.1 <> node ->
    hash (hash_key d) (slot_count r) < zlen (slots (apply_leave r node)) ->
    native (apply_leave r node) d = Ok s.
Proof.
  intros Hr. set (r' := apply_leave r node). pose proof (apply_leave_slots r node) as HP.
  split; [done|]. split.
  { apply not_true_is_false. unfold contains. rewrite existsb_exists. intros ([n t] & Hin & E).
    apply Z.eqb_eq in E. subst n. apply list_elem_of_In in Hin. fold r' in HP. rewrite HP in Hin.
    apply list_elem_of_filter in Hin as [Hn _]. done. }
  intros d s Hs Hn Hlt. pose proof (apply_leave_length r node) as Hl. fold r' in Hl.
  destruct (ring_size_le r' r Hr Hl) as (Hr' & Hz). rewrite slot_count_ok in Hlt by done.
  assert (slots r <> []) as Hne by (intros He; unfold native, index in Hs; rewrite He in Hs; by destruct (0 <=? _)).
  assert (0 <= hash (hash_key d) (zlen (slots r))) as H0.
  { apply hash_range. split; [|exact Hr]. destruct (slots r); [done|]. rewrite zlen_cons.
    pose proof (zlen_nonneg l). lia. }
  assert (slots r' <> []) as Hne' by (intros He; rewrite He in Hlt; change (zlen []) with 0 in Hlt; lia).
  apply native_lookup in Hs; [|done..]. apply native_lookup; [done..|].
  destruct (hash_grow_many (hash_key d) (zlen (slots r')) (zlen (slots r)) ltac:(lia) Hr) as [E|]; [|lia].
  rewrite <- E. apply apply_leave_keeps; [fold r'; unfold zlen in *; lia|done..].
Qed.

Lemma apply_leave_minimal_remap_witness :
  let r := from_members [(1, 1); (2, 2); (3, 2)] in
  slots (apply_leave r 1) = [(3, 1); (2, 0); (2, 1); (3, 0)] /\
  contains (apply_leave r 1) 1 = false.
Proof.
  intros r. split; [vm_compute; reflexivity|].
  apply (apply_leave_minimal_remap r 1). vm_compute. reflexivity.
Defined.

(** ** Weights *)

Definition count_node (l : list (NodeId * ThreadId)) (n : NodeId) : Z :=
  zlen (filter (λ s, s.1 = n) l).

(** What [weights] has accumulated after the slots [l]. *)
Definition weights_inv (l : list (NodeId * ThreadId)) (acc : list NodeId * gmap NodeId Z) : Prop :=
  NoDup acc.1 /\ (forall n, n ∈ acc.1 <-> n ∈ l.*1) /\
  (forall n, acc.2 !! n = if bool_decide (n ∈ l.*1) then Some (count_node l n) else None).

Lemma count_node_snoc l s n :
  count_node (l ++ [s]) n = count_node l n + (if bool_decide (s.1 = n) then 1 else 0).
Proof.
  unfold count_node. rewrite filter_app, zlen_app, filter_cons. case_bool_decide; by case_decide.
Qed.

Lemma count_node_0 l n : n ∉ l.*1 -> count_node l n = 0.
Proof.
  induction l as [|s l IH] using rev_ind; [done|]. rewrite count_node_snoc, fmap_app. simpl.
  intros H. rewrite bool_decide_eq_false_2 by set_solver. rewrite IH; set_solver.
Qed.

Lemma weights_step_inv l acc s :
  weights_inv l acc -> weights_inv (l ++ [s]) (weights_step acc s).
Proof.
  destruct acc as [order counts], s as [n t]. intros (HN & HO & HC). unfold weights_step. simpl in *.
  assert (forall m, m ∈ (l ++ [(n, t)]).*1 <-> m ∈ l.*1 \/ m = n) as Hin
    by (intros m; rewrite fmap_app; set_solver).
  assert (default 0 (counts !! n) = count_node l n) as Hd.
  { rewrite HC. case_bool_decide; [done|]. simpl. by rewrite count_node_0. }
  pose proof (HC n) as Hn. split_and!; simpl.
  - case_bool_decide as Hb; rewrite Hn; [done|]. apply NoDup_app. split_and!; [done| |].
    + intros x Hx%HO. set_solver.
    + apply NoDup_singleton.
  - intros m. rewrite Hin. case_bool_decide as Hb; rewrite Hn; [|rewrite elem_of_app]; rewrite HO;
      set_solver.
  - intros m. rewrite Hd, count_node_snoc, (bool_decide_ext _ _ (Hin m)). simpl.
    destruct (decide (n = m)) as [<-|Hne].
    + rewrite lookup_insert_eq, !bool_decide_eq_true_2 by auto. done.
    + rewrite lookup_insert_ne, HC, (bool_decide_eq_false_2 (n = m)), Z.add_0_r by done.
      repeat case_bool_decide; naive_solver.
Qed.

Lemma weights_fold_inv l : weights_inv l (fold_left weights_step l ([], ∅)).
Proof.
  induction l as [|s l IH] using rev_ind.
  - split_and!; simpl; [constructor|done|]. intros n. by rewrite lookup_empty.
  - rewrite fold_left_app. by apply weights_step_inv.
Qed.

Lemma node_ids_order r : node_ids r = (fold_left weights_step (slots r) ([], ∅)).1.
Proof.
  unfold node_ids, weights. destruct (fold_left _ _ _) as [order counts]. simpl.
  rewrite map_map. apply map_id.
Qed.

Lemma node_ids_NoDup r : NoDup (node_ids r).
Proof. rewrite node_ids_order. apply weights_fold_inv. Qed.

Lemma elem_of_node_ids r n : n ∈ node_ids r <-> n ∈ (slots r).*1.
Proof. rewrite node_ids_order. apply weights_fold_inv. Qed.

(** [weights] lists each node of the ring once, with its number of slots. *)
Theorem weights_spec (r : Ring) :
  NoDup (weights r).*1 /\
  forall n c, (n, c) ∈ weights r <-> n ∈ (slots r).*1 /\ c = count_node (slots r) n.
Proof.
  split; [apply (node_ids_NoDup r)|]. intros n c. unfold weights.
  pose proof (weights_fold_inv (slots r)) as (_ & HO & HC).
  destruct (fold_left _ _ _) as [order counts]. simpl in *.
  etrans; [apply list_elem_of_fmap|]. split.
  - intros (m & [= -> ->] & Hm). pose proof Hm as Hs. apply HO in Hs. split; [done|].
    rewrite HC, bool_decide_eq_true_2 by done. done.
  - intros (Hn & ->). exists n. split; [|by apply HO].
    rewrite HC, bool_decide_eq_true_2 by done. done.
Qed.

(** The slots a member contributes, folded into the counts. *)
Lemma weights_block order counts node c k :
  fold_left weights_step (map (λ t, (node, Z.of_nat t)) (seq k (S c))) (order, counts) =
    (match counts !! node with Some _ => order | None => order ++ [node] end,
     <[node := default 0 (counts !! node) + Z.of_nat (S c)]> counts).
Proof.
  revert k order counts. induction c as [|c IH]; intros k order counts; [done|].
  change (seq k (S (S c))) with (k :: seq (S k) (S c)). cbn [map fold_left].
  unfold weights_step at 2. cbn [fst snd]. rewrite IH. rewrite lookup_insert_eq, insert_insert_eq. simpl.
  do 2 f_equal. lia.
Qed.

Lemma from_members_snoc ms n c : from_members (ms ++ [(n, c)]) = apply_join (from_members ms) n c.
Proof. unfold from_members. by rewrite fold_left_app. Qed.

Lemma weights_from_members_fold ms :
  NoDup ms.*1 -> Forall (λ m, 0 < m.2) ms ->
  let acc := fold_left weights_step (slots (from_members ms)) ([], ∅) in
  acc.1 = ms.*1 /\ forall n c, acc.2 !! n = Some c <-> (n, c) ∈ ms.
Proof.
  induction ms as [|[n c] ms IH] using rev_ind; intros HN HP; simpl.
  { split; [done|]. intros. rewrite lookup_empty. set_solver. }
  rewrite fmap_app in HN. apply NoDup_app in HN as (HN & Hd & _).
  apply Forall_app in HP as (HP & Hc). apply Forall_inv in Hc. simpl in Hc.
  specialize (IH HN HP). rewrite from_members_snoc. simpl slots. rewrite fold_left_app.
  destruct (fold_left weights_step (slots (from_members ms)) ([], ∅)) as [order counts].
  simpl in IH. destruct IH as [-> HC].
  assert (n ∉ ms.*1) as Hn by set_solver.
  assert (counts !! n = None) as Hnone.
  { destruct (counts !! n) as [c'|] eqn:E; [|done]. apply HC in E.
    exfalso. apply Hn. apply list_elem_of_fmap. by exists (n, c'). }
  replace (Z.to_nat c) with (S (Z.to_nat (c - 1))) by lia.
  rewrite weights_block, Hnone. simpl. split; [by rewrite fmap_app|].
  intros m c'. rewrite elem_of_app, list_elem_of_singleton.
  destruct (decide (n = m)) as [<-|Hne].
  - rewrite lookup_insert_eq. split; [intros [= <-]; right; f_equal; lia|].
    intros [Hin|[= ->]]; [|f_equal; lia]. apply HC in Hin. congruence.
  - rewrite lookup_insert_ne by done. rewrite HC. naive_solver.
Qed.

(** The weights view of a ring built from members with distinct ids and at
    least one thread each is that member list, so rebuilding the ring from its
    weights reproduces it slot for slot. *)
Theorem weights_from_members (ms : list (NodeId * Z)) :
  NoDup ms.*1 -> Forall (λ m, 0 < m.2) ms ->
  weights (from_members ms) = ms /\
  from_members (weights (from_members ms)) = from_members ms.
Proof.
  intros HN HP. pose proof (weights_from_members_fold ms HN HP) as [Ho HC].
  assert (weights (from_members ms) = ms) as E; [|by rewrite E].
  unfold weights. destruct (fold_left _ _ _) as [order counts]. simpl in *. subst order.
  rewrite map_map. rewrite <- (map_id ms) at 2. apply map_ext_in. intros [n c] Hin.
  simpl. apply list_elem_of_In, HC in Hin. by rewrite Hin.
Qed.

Lemma weights_from_members_witness :
  weights (from_members [(1, 2); (2, 1)]) = [(1, 2); (2, 1)].
Proof.
  apply (weights_from_members [(1, 2); (2, 1)]).
  - by repeat constructor; set_solver.
  - by repeat constructor.
Defined.

(** After a leave the weights no longer determine placement: rebuilding the
    ring from its weights gives some datum another owning node. *)
Theorem weights_rebuild_diverges_after_leave :
  let r := apply_leave (from_members [(1, 1); (2, 2); (3, 2)]) 1 in
  from_members (weights r) <> r /\
  exists d a b, native r d = Ok a /\ native (from_members (weights r)) d = Ok b /\ a.1 <> b.1.
Proof.
  split; [by vm_compute|]. exists 0. eexists _, _. split_and!; [vm_compute; reflexivity..|done].
Qed.

(** ** Replica sets *)

(** A partial replica set: distinct nodes of the ring, at most [target], with
    the native owner first. *)
Definition chosen_inv (r : Ring) (first : NodeId) (target : nat) (chosen : list NodeId) : Prop :=
  head chosen = Some first /\ NoDup chosen /\ chosen ⊆ node_ids r /\
  (length chosen <= target)%nat.

Lemma chosen_push r first target chosen node :
  chosen_inv r first target chosen -> (length chosen < target)%nat -> node ∈ node_ids r ->
  chosen_inv r first target (if bool_decide (node ∈ chosen) then chosen else chosen ++ [node]).
Proof.
  intros (HH & HN & HS & HL) Hlt Hin. case_bool_decide as Hc; [by split_and!; auto|]. split_and!.
  - destruct chosen; [done|exact HH].
  - apply NoDup_app. split_and!; [done|set_solver|apply NoDup_singleton].
  - set_solver.
  - rewrite length_app. simpl. lia.
Qed.

Lemma slot_node_id r k :
  ring_ok r -> slots r <> [] ->
  exists s, index (slots r) (hash k (slot_count r)) = Ok s /\ s.1 ∈ node_ids r.
Proof.
  intros Hr Hne. destruct (ring_index_ok r k Hr Hne) as (s & E & Hs). exists s. split; [done|].
  apply elem_of_node_ids. apply list_elem_of_fmap_2. by eapply list_elem_of_lookup_2.
Qed.

Lemma salted_phase_inv f r base salt first target chosen :
  ring_ok r -> slots r <> [] -> chosen_inv r first target chosen ->
  exists l, salted_phase f r base salt target chosen = Ok l /\ chosen_inv r first target l.
Proof.
  intros Hr Hne. revert salt chosen. induction f as [|f IH]; intros salt chosen HI;
    cbn [salted_phase]; [by eauto|].
  case_bool_decide as Hlt; [|by eauto].
  destruct (slot_node_id r (wrap 64 (base + wrap 64 (salt * GAMMA))) Hr Hne) as ([n t] & -> & Hn).
  rsimpl. apply IH. by apply chosen_push.
Qed.

(** The sweep picks every listed node until the target is met. *)
Lemma sweep_inv r first target ns chosen :
  ns ⊆ node_ids r -> chosen_inv r first target chosen ->
  let l := sweep ns target chosen in
  chosen_inv r first target l /\ (length l = target \/ (chosen ⊆ l /\ ns ⊆ l)).
Proof.
  revert chosen. induction ns as [|n ns IH]; intros chosen Hns HI; cbn [sweep].
  { split; [done|]. right. set_solver. }
  case_bool_decide as Hl; [by split; [|left]|].
  destruct (IH (if bool_decide (n ∈ chosen) then chosen else chosen ++ [n])) as [HI' HD];
    [set_solver| |].
  { apply chosen_push; [done| |set_solver]. destruct HI as (_ & _ & _ & ?). lia. }
  split; [done|]. destruct HD as [?|[H1 H2]]; [by left|right].
  case_bool_decide; set_solver.
Qed.

Lemma chosen_complete r first target chosen ns :
  chosen_inv r first target chosen -> NoDup ns -> ns ⊆ chosen ->
  (target <= length ns)%nat -> length chosen = target.
Proof.
  intros (_ & _ & _ & HL) HN HS HT. pose proof (submseteq_length ns chosen) as H.
  assert (ns ⊆+ chosen) as Hs by (apply NoDup_submseteq; auto). specialize (H Hs). lia.
Qed.

(** The owner first, then distinct nodes of the ring. *)
Lemma replicas_set (r : Ring) (d : DatumId) (n : nat) :
  ring_ok r -> slots r <> [] -> (0 < n)%nat ->
  exists l owner t, replicas r d n = Ok l /\ native r d = Ok (owner, t) /\
    head l = Some owner /\ NoDup l /\ (forall m, m ∈ l -> m ∈ (slots r).*1) /\
    length l = Nat.min n (length (node_ids r)).
Proof.
  intros Hr Hne Hn. unfold replicas, native.
  rewrite !bool_decide_eq_false_2 by (done || lia). cbn [orb].
  destruct (slot_node_id r (hash_key d) Hr Hne) as ([owner t] & E & Ho). rewrite E. rsimpl.
  set (target := Nat.min n (length (node_ids r))).
  assert (0 < length (node_ids r))%nat as Hpos by (destruct (node_ids r); simpl; [set_solver|lia]).
  assert (chosen_inv r owner target [owner]) as HI0.
  { split_and!; [done|apply NoDup_singleton|set_solver|simpl; unfold target; lia]. }
  destruct (salted_phase_inv (length (slots r) * 3 + 32) r (hash_key d) 1 owner target [owner] Hr Hne HI0)
    as (l & E' & HI). rewrite E'. rsimpl.
  assert (exists l', l' = (if bool_decide (length l < target)%nat then sweep (node_ids r) target l else l)
    /\ chosen_inv r owner target l' /\ length l' = target) as (l' & <- & HI' & HL).
  { eexists; split; [done|]. case_bool_decide as Hlt.
    - destruct (sweep_inv r owner target (node_ids r) l) as [HS [HL|[_ HL]]]; [done..|].
      split; [done|]. eapply chosen_complete; [done|apply (node_ids_NoDup r)|done|lia].
    - split; [done|]. destruct HI as (_ & _ & _ & ?). lia. }
  destruct HI' as (H1 & H2 & H3 & _). exists l', owner, t. split_and!; try done.
  intros m Hm. apply elem_of_node_ids. by apply H3.
Qed.

(** C31: for a non-empty ring and a positive replication factor the replica set
    is computed without a panic; it starts with the native owner and holds
    distinct nodes of the ring, exactly as many as were asked for or as exist. *)
Theorem replicas_spec (r : Ring) (d : DatumId) (n : nat) :
  ring_ok r -> slots r <> [] -> (0 < n)%nat ->
  exists l owner t, replicas r d n = Ok l /\ native r d = Ok (owner, t) /\
    head l = Some owner /\ NoDup l /\ (forall m, m ∈ l -> m ∈ (slots r).*1) /\
    length l = Nat.min n (length (node_ids r)).
Proof. apply replicas_set. Qed.

Lemma replicas_spec_witness :
  let r := from_members [(1, 2); (2, 1); (3, 1)] in
  exists l owner t, replicas r 42 2 = Ok l /\ native r 42 = Ok (owner, t) /\
    head l = Some owner /\ NoDup l /\ (forall m, m ∈ l -> m ∈ (slots r).*1) /\
    length l = Nat.min 2 (length (node_ids r)).
Proof. apply replicas_spec; [vm_compute; reflexivity|done|lia]. Defined.
