(* ===== verification/Membership.v ===== *)
(** * seisin-gossip: the SWIM membership table

    Models [crates/seisin-gossip/src/membership.rs]: the merge rule, the status
    transitions a failure detector drives, and the sorted live view. A
    [HashMap] is a [gmap]; where the code says "in no particular order" the
    order is the one of [map_to_list]. *)

From S2P Require Import Prelude Core.

Inductive MemberStatus := Alive | Suspect | Dead.
Inductive MemberRole := Compute | Storage.

#[global] Instance MemberStatus_eq_dec : EqDecision MemberStatus.
Proof. solve_decision. Defined.
#[global] Instance MemberRole_eq_dec : EqDecision MemberRole.
Proof. solve_decision. Defined.

Definition severity (s : MemberStatus) : Z :=
  match s with Alive => 0 | Suspect => 1 | Dead => 2 end.

Record MemberUpdate := mkUpdate {
  u_node_id : NodeId;
  u_incarnation : Z;
  u_status : MemberStatus;
  u_client_address : bytes;
  u_gossip_address : bytes;
  u_thread_count : Z;
  u_role : MemberRole;
  u_capacity_weight : Z;
  u_store_address : bytes;
  u_log_id : bytes
}.

Record MemberRecord := mkRecord {
  r_incarnation : Z;
  r_status : MemberStatus;
  r_role : MemberRole;
  r_capacity_weight : Z;
  r_store_address : bytes;
  r_client_address : bytes;
  r_gossip_address : bytes;
  r_thread_count : Z;
  r_log_id : bytes
}.

Definition to_update (r : MemberRecord) (node_id : NodeId) : MemberUpdate :=
  {| u_node_id := node_id; u_incarnation := r_incarnation r; u_status := r_status r;
     u_client_address := r_client_address r; u_gossip_address := r_gossip_address r;
     u_thread_count := r_thread_count r; u_role := r_role r;
     u_capacity_weight := r_capacity_weight r; u_store_address := r_store_address r;
     u_log_id := r_log_id r |}.

(** The [MemberRecord { .. }] both arms of [merge_update] insert. *)
Definition of_update (u : MemberUpdate) : MemberRecord :=
  {| r_incarnation := u_incarnation u; r_status := u_status u; r_role := u_role u;
     r_capacity_weight := u_capacity_weight u; r_store_address := u_store_address u;
     r_client_address := u_client_address u; r_gossip_address := u_gossip_address u;
     r_thread_count := u_thread_count u; r_log_id := u_log_id u |}.

Abbreviation MemberTable := (gmap NodeId MemberRecord) (only parsing).

Definition accepts (u : MemberUpdate) (current : MemberRecord) : bool :=
  (r_incarnation current <? u_incarnation u)
  || ((u_incarnation u =? r_incarnation current)
      && (severity (r_status current) <? severity (u_status u))).

Definition merge_update (t : MemberTable) (u : MemberUpdate) : bool * MemberTable :=
  match t !! u_node_id u with
  | None => (true, <[u_node_id u := of_update u]> t)
  | Some current =>
      if accepts u current then (true, <[u_node_id u := of_update u]> t) else (false, t)
  end.

Definition member_get (t : MemberTable) (node_id : NodeId) : option MemberUpdate :=
  match t !! node_id with Some r => Some (to_update r node_id) | None => None end.

Definition set_status (r : MemberRecord) (s : MemberStatus) : MemberRecord :=
  {| r_incarnation := r_incarnation r; r_status := s; r_role := r_role r;
     r_capacity_weight := r_capacity_weight r; r_store_address := r_store_address r;
     r_client_address := r_client_address r; r_gossip_address := r_gossip_address r;
     r_thread_count := r_thread_count r; r_log_id := r_log_id r |}.

Definition set_incarnation (r : MemberRecord) (i : Z) : MemberRecord :=
  {| r_incarnation := i; r_status := r_status r; r_role := r_role r;
     r_capacity_weight := r_capacity_weight r; r_store_address := r_store_address r;
     r_client_address := r_client_address r; r_gossip_address := r_gossip_address r;
     r_thread_count := r_thread_count r; r_log_id := r_log_id r |}.

Definition mark_suspect (t : MemberTable) (node_id : NodeId) : option MemberUpdate * MemberTable :=
  match t !! node_id with
  | None => (None, t)
  | Some r =>
      if bool_decide (r_status r = Alive) then
        let r := set_status r Suspect in (Some (to_update r node_id), <[node_id := r]> t)
      else (None, t)
  end.

Definition mark_dead (t : MemberTable) (node_id : NodeId) : option MemberUpdate * MemberTable :=
  match t !! node_id with
  | None => (None, t)
  | Some r =>
      if bool_decide (r_status r = Dead) then (None, t)
      else let r := set_status r Dead in (Some (to_update r node_id), <[node_id := r]> t)
  end.

(** Panics when the node is not registered, or when the incarnation overflows
    [u64]. *)
Definition confirm_alive_self (t : MemberTable) (self_id : NodeId)
    : res (MemberUpdate * MemberTable) :=
  match t !! self_id with
  | None => Panic
  | Some r =>
      if 2 ^ 64 <=? r_incarnation r + 1 then Panic else
      let r := set_status (set_incarnation r (r_incarnation r + 1)) Alive in
      Ok (to_update r self_id, <[self_id := r]> t)
  end.

Definition all_members (t : MemberTable) : list MemberUpdate :=
  map (λ '(node_id, r), to_update r node_id) (map_to_list t).

Definition is_alive (r : MemberRecord) : bool := bool_decide (r_status r = Alive).

(** [ids.sort_by_key(|node_id| node_id.0)] on the live ids. *)
Definition alive_members (t : MemberTable) : list NodeId :=
  merge_sort Z.le (map fst (base.filter (λ p, is_alive p.2 = true) (map_to_list t))).

(** ** The precedence order *)

(** Facts are ranked by incarnation, then severity. *)
Definition rank (i : Z) (s : MemberStatus) : Z := 3 * i + severity s.
Definition u_rank (u : MemberUpdate) : Z := rank (u_incarnation u) (u_status u).
Definition r_rank (r : MemberRecord) : Z := rank (r_incarnation r) (r_status r).

Lemma severity_range s : 0 <= severity s <= 2.
Proof. destruct s; simpl; lia. Qed.

Lemma rank_inj i s i' s' : rank i s = rank i' s' -> i = i' /\ s = s'.
Proof.
  unfold rank. intros H. pose proof (severity_range s). pose proof (severity_range s').
  assert (i = i') by lia. subst. split; [done|].
  destruct s, s'; simpl in *; try done; lia.
Qed.

Lemma accepts_rank u r : accepts u r = bool_decide (r_rank r < u_rank u).
Proof.
  unfold accepts, u_rank, r_rank, rank.
  pose proof (severity_range (u_status u)). pose proof (severity_range (r_status r)).
  case_bool_decide; destruct (Z.ltb_spec (r_incarnation r) (u_incarnation u)); simpl; try lia;
    destruct (Z.eqb_spec (u_incarnation u) (r_incarnation r)); simpl; try lia; 
    destruct (Z.ltb_spec (severity (r_status r)) (severity (u_status u))); simpl; lia.
Qed.

Lemma r_rank_of_update u : r_rank (of_update u) = u_rank u.
Proof. done. Qed.
Lemma of_update_to_update r n : of_update (to_update r n) = r.
Proof. by destruct r. Qed.
Lemma to_update_of_update u : to_update (of_update u) (u_node_id u) = u.
Proof. by destruct u. Qed.

Lemma merge_update_lookup_ne t u n :
  n <> u_node_id u -> (merge_update t u).2 !! n = t !! n.
Proof.
  intros Hn. unfold merge_update. destruct (t !! u_node_id u); [destruct (accepts u m)|];
    simpl; [by rewrite lookup_insert_ne|done|by rewrite lookup_insert_ne].
Qed.

Lemma merge_update_lookup t u :
  (merge_update t u).2 !! u_node_id u =
    Some (match t !! u_node_id u with
          | Some r => if bool_decide (r_rank r < u_rank u) then of_update u else r
          | None => of_update u
          end).
Proof.
  unfold merge_update. destruct (t !! u_node_id u) as [r|] eqn:E; simpl.
  - rewrite accepts_rank. case_bool_decide; simpl; [by rewrite lookup_insert_eq|done].
  - by rewrite lookup_insert_eq.
Qed.

(** Merging a batch of gossiped facts. *)
Definition merge_all (t : MemberTable) (us : list MemberUpdate) : MemberTable :=
  fold_left (λ t u, (merge_update t u).2) us t.

(** [u] is a maximal fact about its node among [us]. *)
Definition best (us : list MemberUpdate) (u : MemberUpdate) : Prop :=
  u ∈ us /\ forall v, v ∈ us -> u_node_id v = u_node_id u -> u_rank v <= u_rank u.

Lemma merge_all_snoc t us u : merge_all t (us ++ [u]) = (merge_update (merge_all t us) u).2.
Proof. unfold merge_all. by rewrite fold_left_app. Qed.

(** A node some fact names is in the table. *)
Lemma merge_all_is_Some us u : u ∈ us -> is_Some (merge_all ∅ us !! u_node_id u).
Proof.
  induction us as [|w us IH] using rev_ind; [set_solver|]. rewrite merge_all_snoc.
  destruct (decide (u_node_id u = u_node_id w)) as [->|Hne].
  - rewrite merge_update_lookup. eauto.
  - rewrite merge_update_lookup_ne by done. intros [Hu|Hu]%elem_of_app; [by apply IH|].
    apply list_elem_of_singleton in Hu. congruence.
Qed.

Lemma best_snoc us u v :
  u ∈ us ++ [v] -> (forall w, w ∈ us -> u_node_id w = u_node_id u -> u_rank w <= u_rank u) ->
  (u_node_id v = u_node_id u -> u_rank v <= u_rank u) -> best (us ++ [v]) u.
Proof.
  intros Hin Hus Hv. split; [done|]. intros w [Hw|Hw]%elem_of_app Hn; [by apply Hus|].
  apply list_elem_of_singleton in Hw as ->. by apply Hv.
Qed.

(** Every record of the table is a maximal fact among those merged. *)
Lemma merge_all_best us n r : merge_all ∅ us !! n = Some r -> best us (to_update r n).
Proof.
  revert n r. induction us as [|u us IH] using rev_ind; intros n r; [done|].
  rewrite merge_all_snoc. destruct (decide (n = u_node_id u)) as [->|Hne].
  - rewrite merge_update_lookup. destruct (merge_all ∅ us !! u_node_id u) as [r0|] eqn:E.
    + specialize (IH _ _ E) as [IH1 IH2]. case_bool_decide as Hlt; intros [= <-].
      * rewrite to_update_of_update. apply best_snoc; [set_solver| |lia].
        intros w Hw Hn. specialize (IH2 w Hw Hn). change (u_rank (to_update r0 _)) with (r_rank r0) in IH2.
        lia.
      * apply best_snoc; [set_solver|done|]. intros _.
        change (u_rank (to_update r0 _)) with (r_rank r0). lia.
    + intros [= <-]. rewrite to_update_of_update. apply best_snoc; [set_solver| |lia].
      intros w Hw Hn. apply merge_all_is_Some in Hw as [? Hw]. congruence.
  - rewrite merge_update_lookup_ne by done. intros E. destruct (IH _ _ E) as [IH1 IH2].
    apply best_snoc; [set_solver|done|]. simpl. congruence.
Qed.

(** No two facts of [us] about one node tie in rank without being equal: a node
    reports one set of addresses and weights per incarnation. *)
Definition consistent (us : list MemberUpdate) : Prop :=
  forall u v, u ∈ us -> v ∈ us -> u_node_id u = u_node_id v -> u_incarnation u = u_incarnation v ->
    u_status u = u_status v -> u = v.

Lemma best_unique us u v :
  consistent us -> best us u -> best us v -> u_node_id u = u_node_id v -> u = v.
Proof.
  intros HC [Hu1 Hu2] [Hv1 Hv2] Hn.
  assert (u_rank u = u_rank v) as Hr by (specialize (Hu2 v Hv1); specialize (Hv2 u Hu1); lia).
  apply rank_inj in Hr as [? ?]. by apply HC.
Qed.

(** C27: two tables that have merged the same facts, in any order and with any
    repetitions, are equal, whenever each node reports one set of attributes
    per incarnation and status. *)
Theorem membership_converges (us vs : list MemberUpdate) :
  consistent us -> (forall u, u ∈ us <-> u ∈ vs) ->
  merge_all ∅ us = merge_all ∅ vs.
Proof.
  intros HC Heq. apply map_eq. intros n.
  assert (forall r, best vs (to_update r n) -> best us (to_update r n)) as Hb.
  { intros r [H1 H2]. split; [by apply Heq|]. intros v Hv. apply H2. by apply Heq. }
  destruct (merge_all ∅ us !! n) as [r|] eqn:E; destruct (merge_all ∅ vs !! n) as [r'|] eqn:E'.
  - apply merge_all_best in E, E'. apply Hb in E'.
    pose proof (best_unique us _ _ HC E E' eq_refl) as HE. f_equal.
    rewrite <- (of_update_to_update r n), HE. apply of_update_to_update.
  - apply merge_all_best in E as [Hin _]. apply Heq, merge_all_is_Some in Hin as [? Hin].
    simpl in Hin. congruence.
  - apply merge_all_best in E' as [Hin _]. apply Heq, merge_all_is_Some in Hin as [? Hin].
    simpl in Hin. congruence.
  - done.
Qed.

(** A small cluster of facts used by the examples. *)
Definition demo_update (n i : Z) (s : MemberStatus) : MemberUpdate :=
  {| u_node_id := n; u_incarnation := i; u_status := s; u_client_address := [];
     u_gossip_address := []; u_thread_count := 2; u_role := Compute;
     u_capacity_weight := 0; u_store_address := []; u_log_id := replicate 16 (u8 0) |}.

Lemma membership_converges_witness :
  let a := demo_update 1 0 Alive in
  let b := demo_update 1 0 Dead in
  let c := demo_update 1 1 Alive in
  merge_all ∅ [a; b; c] = merge_all ∅ [c; b; a; b].
Proof.
  intros a b c. apply membership_converges.
  - intros u v Hu Hv _ Hi Hs. unfold a, b, c in *. set_unfold.
    destruct_or?; subst; simpl in *; done.
  - intros u. set_solver.
Defined.

(** What one table's merge does: the record of the update's node becomes
    whichever of the two ranks higher by incarnation then severity (the old one
    on a tie), no other record changes, and the returned flag says whether the
    table changed. *)
Theorem merge_update_spec (t : MemberTable) (u : MemberUpdate) :
  let '(changed, t') := merge_update t u in
  (forall n, n <> u_node_id u -> t' !! n = t !! n) /\
  t' !! u_node_id u =
    Some (match t !! u_node_id u with
          | Some r => if bool_decide (r_rank r < u_rank u) then of_update u else r
          | None => of_update u
          end) /\
  (changed = true <-> t' <> t).
Proof.
  destruct (merge_update t u) as [changed t'] eqn:E.
  pose proof (merge_update_lookup t u) as HL. rewrite E in HL.
  split_and!; [|done|].
  - intros n Hn. pose proof (merge_update_lookup_ne t u n Hn) as HN. by rewrite E in HN.
  - unfold merge_update in E. destruct (t !! u_node_id u) as [r|] eqn:Er.
    + rewrite accepts_rank in E. case_bool_decide as Hr; simplify_eq; [|naive_solver].
      split; [|done]. intros _ He. apply (f_equal (.!! u_node_id u)) in He.
      rewrite lookup_insert_eq, Er in He. simplify_eq.
      unfold r_rank, u_rank in Hr. simpl in Hr. lia.
    + simplify_eq. split; [|done]. intros _ He. apply (f_equal (.!! u_node_id u)) in He.
      rewrite lookup_insert_eq, Er in He. done.
Qed.

(** Every local status change is the merge of the fact it gossips: a table
    that merges the update returned by [mark_suspect], [mark_dead] or
    [confirm_alive_self] makes the same transition, so peers replaying the
    gossip follow the detector that produced it. *)
Theorem transitions_are_merges (t : MemberTable) (n : NodeId) :
  (forall u t', mark_suspect t n = (Some u, t') -> merge_update t u = (true, t')) /\
  (forall u t', mark_dead t n = (Some u, t') -> merge_update t u = (true, t')) /\
  (forall u t', confirm_alive_self t n = Ok (u, t') -> merge_update t u = (true, t')).
Proof.
  assert (forall r r', t !! n = Some r -> r_rank r < r_rank r' ->
            merge_update t (to_update r' n) = (true, <[n := r']> t)) as Hm.
  { intros r r' E Hr. unfold merge_update. simpl. rewrite E, accepts_rank.
    change (u_rank (to_update r' n)) with (r_rank r'). rewrite bool_decide_eq_true_2 by done.
    by rewrite of_update_to_update. }
  unfold mark_suspect, mark_dead, confirm_alive_self, r_rank, rank in *.
  destruct (t !! n) as [r|] eqn:E; [|done].
  split_and!; intros u t' H.
  - case_bool_decide as Hs; simplify_eq. apply (Hm r); [done|]. simpl. rewrite Hs. simpl. lia.
  - case_bool_decide as Hs; simplify_eq. apply (Hm r); [done|]. simpl.
    pose proof (severity_range (r_status r)). destruct (r_status r); simpl in *; try done; lia.
  - case_match; simplify_eq. apply (Hm r); [done|]. simpl.
    pose proof (severity_range (r_status r)). lia.
Qed.

(** The refutation of a suspicion wins over every fact about the node of the
    same or an older incarnation, whatever its status. *)
Lemma refutation_wins t n u t' s us :
  confirm_alive_self t n = Ok (u, t') ->
  us !! n = Some s -> r_incarnation s < u_incarnation u ->
  (merge_update us u).2 !! n = Some (of_update u).
Proof.
  intros H Hs Hi. assert (u_node_id u = n) as Hn.
  { unfold confirm_alive_self in H. repeat case_match; by simplify_eq. }
  rewrite <- Hn in Hs |- *. rewrite merge_update_lookup, Hs, bool_decide_eq_true_2; [done|].
  unfold r_rank, u_rank, rank. pose proof (severity_range (r_status s)).
  pose proof (severity_range (u_status u)). lia.
Qed.

(** ** The live view *)

Lemma alive_members_Permutation t :
  alive_members t ≡ₚ map fst (base.filter (λ p, is_alive p.2 = true) (map_to_list t)).
Proof. apply merge_sort_Permutation. Qed.

Lemma elem_of_alive_members t n :
  n ∈ alive_members t <-> exists r, t !! n = Some r /\ r_status r = Alive.
Proof.
  rewrite alive_members_Permutation. etrans; [apply list_elem_of_fmap|].
  setoid_rewrite list_elem_of_filter. split.
  - intros ([m r] & -> & Ha & Hin). apply elem_of_map_to_list in Hin. simpl in *.
    exists r. split; [done|]. by apply bool_decide_eq_true in Ha.
  - intros (r & Hr & Ha). exists (n, r). split_and!; [done| |by apply elem_of_map_to_list].
    by apply bool_decide_eq_true.
Qed.

Lemma alive_members_sorted t : StronglySorted Z.lt (alive_members t).
Proof.
  assert (NoDup (alive_members t)) as HN.
  { rewrite alive_members_Permutation. apply (NoDup_fmap_fst).
    - intros n r1 r2 [_ H1%elem_of_map_to_list]%list_elem_of_filter
        [_ H2%elem_of_map_to_list]%list_elem_of_filter. congruence.
    - apply NoDup_filter, NoDup_map_to_list. }
  assert (StronglySorted Z.le (alive_members t)) as HS by (apply StronglySorted_merge_sort; apply _).
  induction HS as [|x l HS IH HF]; [constructor|]. apply NoDup_cons in HN as [Hx HN].
  constructor; [by apply IH|]. rewrite Forall_forall in HF |- *. intros y Hy.
  specialize (HF y Hy). assert (x <> y) by (intros ->; done). lia.
Qed.
