(* ===== verification/Sequencer.v ===== *)
(** * seisin-gossip: the epoch sequencer and the mutation log

    Models [crates/seisin-gossip/src/sequencer.rs]. Gossip delivers
    epoch-numbered ring mutations in any order, more than once; the log
    releases them in gapless epoch order. Epochs are [u64]s that grow by one
    per ring change; the model leaves them unbounded. *)

From S2P Require Import Prelude Core Membership.

(** [alive_members.iter().min()] *)
Definition list_min (l : list Z) : option Z :=
  match l with [] => None | x :: l => Some (fold_left Z.min l x) end.

Definition is_sequencer (self_id : NodeId) (alive : list NodeId) : bool :=
  match list_min alive with Some lowest => lowest =? self_id | None => false end.

Inductive RingMutation :=
| Join (node_id : NodeId) (thread_count : Z)
| Leave (node_id : NodeId).

Record MutationLog := mkLog {
  applied_epoch : Z;
  pending : gmap Z RingMutation
}.

Definition MutationLog_new : MutationLog := mkLog 0 ∅.

Definition record (l : MutationLog) (epoch : Z) (mutation : RingMutation) : MutationLog :=
  if applied_epoch l <? epoch
  then mkLog (applied_epoch l) (<[epoch := mutation]> (pending l)) else l.

(** The [loop] of [drain_applicable]: every turn but the last removes an entry,
    so one turn more than there are pending entries is enough. *)
Fixpoint drain_loop (fuel : nat) (l : MutationLog) (ready : list RingMutation)
    : option (list RingMutation * MutationLog) :=
  match fuel with
  | O => None
  | S fuel =>
      let next_epoch := applied_epoch l + 1 in
      match pending l !! next_epoch with
      | Some mutation =>
          drain_loop fuel (mkLog next_epoch (delete next_epoch (pending l))) (ready ++ [mutation])
      | None => Some (ready, l)
      end
  end.

Definition drain_applicable (l : MutationLog) : list RingMutation * MutationLog :=
  default ([], l) (drain_loop (S (size (pending l))) l []).

(** ** The sequencer *)

Lemma fold_min_spec l x :
  let m := fold_left Z.min l x in m ∈ x :: l /\ forall y, y ∈ x :: l -> m <= y.
Proof.
  revert x. induction l as [|z l IH]; intros x; simpl.
  - split; [set_solver|]. intros y Hy. apply list_elem_of_singleton in Hy. lia.
  - destruct (IH (Z.min x z)) as [H1 H2]. split.
    + apply elem_of_cons in H1 as [-> |H1]; [|set_solver].
      destruct (Z.min_spec x z) as [[_ ->]|[_ ->]]; set_solver.
    + intros y Hy. pose proof (H2 (Z.min x z) ltac:(set_solver)).
      apply elem_of_cons in Hy as [->|[->|Hy]%elem_of_cons]; [lia..|]. apply H2. set_solver.
Qed.

(** Over one membership view there is exactly one sequencer as soon as some
    member is alive, it is the lowest live id, and there is none otherwise. *)
Theorem sequencer_unique (t : MemberTable) :
  (alive_members t = [] -> forall n, is_sequencer n (alive_members t) = false) /\
  (alive_members t <> [] ->
   exists s, s ∈ alive_members t /\ (forall m, m ∈ alive_members t -> s <= m) /\
     forall n, is_sequencer n (alive_members t) = true <-> n = s).
Proof.
  split; [by intros ->|]. destruct (alive_members t) as [|x l]; [done|]. intros _.
  destruct (fold_min_spec l x) as [H1 H2]. eexists; split_and!; [exact H1|exact H2|].
  intros n. unfold is_sequencer, list_min. rewrite Z.eqb_eq. naive_solver.
Qed.

Lemma sequencer_unique_witness :
  let t := merge_all ∅ [demo_update 5 0 Alive; demo_update 3 0 Alive; demo_update 1 0 Dead] in
  alive_members t = [3; 5] /\ exists s, s ∈ alive_members t /\
    (forall m, m ∈ alive_members t -> s <= m) /\
    forall n, is_sequencer n (alive_members t) = true <-> n = s.
Proof. intros t. split; [vm_compute; reflexivity|]. apply sequencer_unique. by vm_compute. Defined.

(** ** The mutation log *)

(** The epochs from [a+1] to [b]. *)
Definition epochs (a b : Z) : list Z := seqZ (a + 1) (b - a).

Lemma epochs_cons a b : a < b -> epochs a b = (a + 1) :: epochs (a + 1) b.
Proof.
  intros H. unfold epochs. rewrite seqZ_cons by lia. do 2 f_equal. lia.
Qed.

Lemma epochs_app a b c : a <= b <= c -> epochs a c = epochs a b ++ epochs b c.
Proof.
  intros H. unfold epochs. replace (c - a) with ((b - a) + (c - b)) by lia.
  rewrite seqZ_app by lia. do 2 f_equal. lia.
Qed.

(** [f] is the sequencer's history: the mutation it assigned to each epoch. *)
Section log.
Context (f : Z -> RingMutation).

(** The buffer holds only mutations of the history, of epochs to come. *)
Definition log_ok (l : MutationLog) : Prop :=
  0 <= applied_epoch l /\
  forall e m, pending l !! e = Some m -> applied_epoch l < e /\ m = f e.

Lemma record_ok l e : log_ok l -> log_ok (record l e (f e)).
Proof.
  intros [H0 HP]. unfold record. destruct (Z.ltb_spec (applied_epoch l) e); [|done].
  split; [done|]. intros e' m. simpl. rewrite lookup_insert_Some. naive_solver.
Qed.

Lemma drain_loop_spec fuel l ready :
  log_ok l -> (size (pending l) < fuel)%nat ->
  exists l', drain_loop fuel l ready =
      Some (ready ++ map f (epochs (applied_epoch l) (applied_epoch l')), l') /\
    log_ok l' /\ applied_epoch l <= applied_epoch l' /\
    pending l' !! (applied_epoch l' + 1) = None /\
    forall e, applied_epoch l' < e -> pending l' !! e = pending l !! e.
Proof.
  revert l ready. induction fuel as [|fuel IH]; intros l ready [H0 HP] Hf; [lia|].
  cbn [drain_loop]. destruct (pending l !! (applied_epoch l + 1)) as [m|] eqn:E.
  - destruct (IH (mkLog (applied_epoch l + 1) (delete (applied_epoch l + 1) (pending l)))
                (ready ++ [m])) as (l' & HE & HI & Hle & Hn & Hk); simpl in *.
    { split; simpl; [lia|]. intros e m' [Hne He]%lookup_delete_Some.
      apply HP in He as [? ->]. split; [lia|done]. }
    { assert (size (pending l) <> 0%nat) by (eapply map_size_ne_0_lookup_2; eauto).
      rewrite map_size_delete, E. simpl. lia. }
    exists l'. rewrite HE, (epochs_cons (applied_epoch l)) by lia.
    apply HP in E as [_ ->]. split_and!; [|done|lia|done|].
    + by rewrite <- app_assoc.
    + intros e He. rewrite Hk by done. rewrite lookup_delete_ne; [done|lia].
  - exists l. unfold epochs. rewrite Z.sub_diag, app_nil_r. by split_and!.
Qed.

Lemma drain_spec l :
  log_ok l ->
  let '(ready, l') := drain_applicable l in
  ready = map f (epochs (applied_epoch l) (applied_epoch l')) /\ log_ok l' /\
  applied_epoch l <= applied_epoch l' /\ pending l' !! (applied_epoch l' + 1) = None /\
  forall e, applied_epoch l' < e -> pending l' !! e = pending l !! e.
Proof.
  intros Hl. unfold drain_applicable.
  destruct (drain_loop_spec (S (size (pending l))) l [] Hl) as (l' & -> & H); [lia|]. by split.
Qed.

(** A node's life: deliveries, in whatever order gossip makes them, and
    drains; the state is the log and everything applied so far. *)
Inductive log_event := Deliver (epoch : Z) (mutation : RingMutation) | Drain.

Definition log_step (s : MutationLog * list RingMutation) (ev : log_event) :=
  match ev with
  | Deliver e m => (record s.1 e m, s.2)
  | Drain => let '(ready, l) := drain_applicable s.1 in (l, s.2 ++ ready)
  end.

Definition log_run (evs : list log_event) : MutationLog * list RingMutation :=
  fold_left log_step evs (MutationLog_new, []).

(** Deliveries agree with the history. *)
Definition from_history (ev : log_event) : Prop :=
  match ev with Deliver e m => m = f e | Drain => True end.

Definition run_inv (evs : list log_event) (s : MutationLog * list RingMutation) : Prop :=
  log_ok s.1 /\ s.2 = map f (epochs 0 (applied_epoch s.1)) /\
  forall e, Deliver e (f e) ∈ evs -> e <= applied_epoch s.1 \/ is_Some (pending s.1 !! e).

Lemma log_run_inv evs : Forall from_history evs -> run_inv evs (log_run evs).
Proof.
  induction evs as [|ev evs IH] using rev_ind; intros HF.
  { split_and!; simpl; [|done|set_solver]. by split. }
  apply Forall_app in HF as [HF HE]. apply Forall_inv in HE.
  destruct (IH HF) as (Hl & Ho & Hd). unfold log_run in *. rewrite fold_left_app. simpl.
  destruct (fold_left log_step evs (MutationLog_new, [])) as [l outs]. simpl in *.
  destruct ev as [e m|]; simpl in *; unfold run_inv; simpl.
  - subst m. split_and!; [by apply record_ok| |].
    + unfold record. by destruct (applied_epoch l <? e).
    + intros e' Hin. unfold record. destruct (Z.ltb_spec (applied_epoch l) e); simpl.
      * rewrite elem_of_app, list_elem_of_singleton in Hin. rewrite lookup_insert_is_Some'.
        destruct Hin as [Hin|[= -> _]]; [destruct (Hd e' Hin)|]; eauto.
      * rewrite elem_of_app, list_elem_of_singleton in Hin.
        destruct Hin as [Hin|[= -> _]]; [by apply Hd|by left].
  - pose proof (drain_spec l Hl) as HD. destruct (drain_applicable l) as [ready l']. simpl.
    destruct HD as (-> & Hl' & Hle & _ & Hk). split_and!; [done| |].
    + rewrite Ho, <- map_app, <- epochs_app; [done|]. destruct Hl. lia.
    + intros e [Hin|Hin]%elem_of_app; [|set_solver].
      destruct (Hd e Hin) as [|Hp]; [left; lia|].
      destruct (decide (e <= applied_epoch l')); [by left|right]. rewrite Hk by lia. done.
Qed.

(** Once every epoch up to [k] has arrived, one drain brings the node to [k]. *)
Lemma drain_progress evs k :
  Forall from_history evs -> (forall e, 0 < e <= k -> Deliver e (f e) ∈ evs) ->
  k <= applied_epoch (log_run (evs ++ [Drain])).1.
Proof.
  intros HF Hall. destruct (log_run_inv evs HF) as (Hl & _ & Hd).
  unfold log_run in *. rewrite fold_left_app. simpl.
  destruct (fold_left log_step evs (MutationLog_new, [])) as [l outs]. simpl in *.
  pose proof (drain_spec l Hl) as HD. destruct (drain_applicable l) as [ready l']. simpl.
  destruct HD as (_ & [H0 _] & Hle & Hn & Hk).
  destruct (decide (k <= applied_epoch l')) as [|Hgt]; [done|exfalso].
  destruct (Hd (applied_epoch l' + 1)) as [|Hp]; [apply Hall; lia|lia|].
  rewrite <- Hk in Hp by lia. rewrite Hn in Hp. by destruct Hp.
Qed.
End log.

(** Whatever the order and the repetitions in which one history of
    sequenced mutations reaches a node, what it has applied is exactly the
    history up to its applied epoch, in epoch order and without gaps; and a
    drain after every epoch up to [k] has arrived brings it at least to [k]. *)
Theorem mutation_log_applies_history (f : Z -> RingMutation) (evs : list log_event) (k : Z) :
  Forall (from_history f) evs ->
  (log_run evs).2 = map f (epochs 0 (applied_epoch (log_run evs).1)) /\
  ((forall e, 0 < e <= k -> Deliver e (f e) ∈ evs) ->
   k <= applied_epoch (log_run (evs ++ [Drain])).1).
Proof.
  intros HF. split; [by apply (log_run_inv f)|by apply drain_progress].
Qed.

Lemma mutation_log_applies_history_witness :
  let f e := if e =? 2 then Leave 7 else Join e 1 in
  let evs := [Deliver 3 (f 3); Drain; Deliver 1 (f 1); Drain; Deliver 1 (f 1); Deliver 2 (f 2)] in
  (log_run evs).2 = [Join 1 1] /\ 3 <= applied_epoch (log_run (evs ++ [Drain])).1.
Proof.
  intros f evs.
  assert (Forall (from_history f) evs) as HF by (repeat constructor).
  destruct (mutation_log_applies_history f evs 3 HF) as [H1 H2]. split.
  - rewrite H1. vm_compute. reflexivity.
  - apply H2. intros e He. assert (e = 1 \/ e = 2 \/ e = 3) as [->|[->| ->]] by lia;
      apply list_elem_of_In; simpl; tauto.
Defined.
