(* ===== verification/FailureDetector.v ===== *)
(** * seisin-gossip: the SWIM failure detector

    Models [crates/seisin-gossip/src/failure_detector.rs] with the clock of
    [clock.rs] as the time each call is made at: direct probe, indirect probe,
    suspicion, death. The loops of [check_timeouts] over its hash maps visit
    the entries in the order of [map_to_list]; the code leaves it open. *)

From S2P Require Import Prelude Core.

Abbreviation Tick := Z (only parsing).

Definition PROBE_TIMEOUT_MILLIS : Z := 1000.
Definition SUSPICION_TIMEOUT_MILLIS : Z := 5000.

(** [FakeClock::advance]. *)
Definition advance (now millis : Tick) : Tick := now + millis.

Inductive ProbeState :=
| AwaitingDirectAck (started_at : Tick)
| AwaitingIndirectAck (started_at : Tick).

Inductive TimeoutAction :=
| EscalateToIndirect (target : NodeId)
| MarkSuspect (target : NodeId)
| MarkDead (target : NodeId).

Record FailureDetector := mkDetector {
  probe_timeout_millis : Z;
  suspicion_timeout_millis : Z;
  probes : gmap NodeId ProbeState;
  suspected_since : gmap NodeId Tick
}.

Definition FailureDetector_new (probe suspicion : Z) : FailureDetector :=
  mkDetector probe suspicion ∅ ∅.

Definition begin_direct_probe (d : FailureDetector) (now : Tick) (target : NodeId) : FailureDetector :=
  mkDetector (probe_timeout_millis d) (suspicion_timeout_millis d)
    (<[target := AwaitingDirectAck now]> (probes d)) (suspected_since d).

Definition on_ack (d : FailureDetector) (target : NodeId) : FailureDetector :=
  mkDetector (probe_timeout_millis d) (suspicion_timeout_millis d)
    (delete target (probes d)) (delete target (suspected_since d)).

Definition saturating_sub (a b : Z) : Z := Z.max 0 (a - b).

(** [now.0.saturating_sub(since.0) >= timeout] *)
Definition expired (now since timeout : Z) : bool := timeout <=? saturating_sub now since.

Definition must_escalate (d : FailureDetector) (now : Tick) (p : NodeId * ProbeState) : bool :=
  match p.2 with
  | AwaitingDirectAck s => expired now s (probe_timeout_millis d)
  | AwaitingIndirectAck _ => false
  end.
Definition must_suspect (d : FailureDetector) (now : Tick) (p : NodeId * ProbeState) : bool :=
  match p.2 with
  | AwaitingDirectAck _ => false
  | AwaitingIndirectAck s => expired now s (probe_timeout_millis d)
  end.

Definition check_timeouts (d : FailureDetector) (now : Tick) : list TimeoutAction * FailureDetector :=
  let escalate := map fst (base.filter (λ p, must_escalate d now p = true) (map_to_list (probes d))) in
  let suspect := map fst (base.filter (λ p, must_suspect d now p = true) (map_to_list (probes d))) in
  let probes1 := fold_left (λ m t, <[t := AwaitingIndirectAck now]> m) escalate (probes d) in
  let probes2 := fold_left (λ m t, delete t m) suspect probes1 in
  let since1 := fold_left (λ m t, <[t := now]> m) suspect (suspected_since d) in
  let dead := map fst (base.filter (λ p, expired now p.2 (suspicion_timeout_millis d) = true)
                         (map_to_list since1)) in
  let since2 := fold_left (λ m t, delete t m) dead since1 in
  (map EscalateToIndirect escalate ++ map MarkSuspect suspect ++ map MarkDead dead,
   mkDetector (probe_timeout_millis d) (suspicion_timeout_millis d) probes2 since2).

(** ** One node at a time

    What [check_timeouts] does to one target depends on that target alone. *)

Section folds.
Context {V : Type}.
Implicit Types (m : gmap NodeId V) (l : list NodeId).

Lemma lookup_fold_insert l v m n :
  fold_left (λ m t, <[t := v]> m) l m !! n = if bool_decide (n ∈ l) then Some v else m !! n.
Proof.
  induction l as [|t l IH] using rev_ind; simpl; [done|]. rewrite fold_left_app. simpl.
  destruct (decide (t = n)) as [->|Hne].
  - rewrite lookup_insert_eq, bool_decide_eq_true_2; [done|set_solver].
  - rewrite lookup_insert_ne, IH by done. repeat case_bool_decide; set_solver.
Qed.

Lemma lookup_fold_delete l m n :
  fold_left (λ m t, delete t m) l m !! n = if bool_decide (n ∈ l) then None else m !! n.
Proof.
  induction l as [|t l IH] using rev_ind; simpl; [done|]. rewrite fold_left_app. simpl.
  destruct (decide (t = n)) as [->|Hne].
  - rewrite lookup_delete_eq, bool_decide_eq_true_2; [done|set_solver].
  - rewrite lookup_delete_ne, IH by done. repeat case_bool_decide; set_solver.
Qed.

Lemma elem_of_keys_filter (P : NodeId * V -> bool) m n :
  n ∈ map fst (base.filter (λ p, P p = true) (map_to_list m)) <->
  exists v, m !! n = Some v /\ P (n, v) = true.
Proof.
  etrans; [apply list_elem_of_fmap|]. setoid_rewrite list_elem_of_filter. split.
  - intros ([k v] & -> & HP & Hin). apply elem_of_map_to_list in Hin. eauto.
  - intros (v & Hv & HP). exists (n, v). by rewrite elem_of_map_to_list.
Qed.
End folds.

(** The state of one target, and what a check at [now] makes of it. *)
Definition target_state : Type := option ProbeState * option Tick.
Definition target_of (d : FailureDetector) (n : NodeId) : target_state :=
  (probes d !! n, suspected_since d !! n).

Definition check_target (P S now : Z) (n : NodeId) (st : target_state)
    : list TimeoutAction * target_state :=
  let '(acts, p, since) :=
    match st.1 with
    | Some (AwaitingDirectAck s) =>
        if expired now s P then ([EscalateToIndirect n], Some (AwaitingIndirectAck now), st.2)
        else ([], st.1, st.2)
    | Some (AwaitingIndirectAck s) =>
        if expired now s P then ([MarkSuspect n], None, Some now) else ([], st.1, st.2)
    | None => ([], None, st.2)
    end in
  match since with
  | Some s => if expired now s S then (acts ++ [MarkDead n], (p, None)) else (acts, (p, since))
  | None => (acts, (p, None))
  end.

Definition action_target (a : TimeoutAction) : NodeId :=
  match a with EscalateToIndirect n | MarkSuspect n | MarkDead n => n end.

Lemma in_keys_filter {V} (P : NodeId * V -> bool) (m : gmap NodeId V) n :
  bool_decide (n ∈ map fst (base.filter (λ p, P p = true) (map_to_list m))) =
  match m !! n with Some v => P (n, v) | None => false end.
Proof.
  case_bool_decide as H; rewrite elem_of_keys_filter in H; destruct (m !! n) as [v|]; try naive_solver.
  destruct (P (n, v)) eqn:E; naive_solver.
Qed.

Lemma elem_of_actions a escalate suspect dead :
  a ∈ map EscalateToIndirect escalate ++ map MarkSuspect suspect ++ map MarkDead dead <->
  match a with
  | EscalateToIndirect n => n ∈ escalate
  | MarkSuspect n => n ∈ suspect
  | MarkDead n => n ∈ dead
  end.
Proof.
  rewrite !elem_of_app. change (@map NodeId TimeoutAction) with (@fmap list _ NodeId TimeoutAction).
  rewrite !list_elem_of_fmap. destruct a; naive_solver.
Qed.

(** The same automaton, one question at a time. *)
Definition escalates (P now : Z) (st : target_state) : bool :=
  match st.1 with Some (AwaitingDirectAck s) => expired now s P | _ => false end.
Definition suspects (P now : Z) (st : target_state) : bool :=
  match st.1 with Some (AwaitingIndirectAck s) => expired now s P | _ => false end.
Definition since_after (P now : Z) (st : target_state) : option Tick :=
  if suspects P now st then Some now else st.2.
Definition dies (P S now : Z) (st : target_state) : bool :=
  match since_after P now st with Some s => expired now s S | None => false end.

Lemma check_target_state P S now n st :
  (check_target P S now n st).2 =
    (if escalates P now st then Some (AwaitingIndirectAck now)
     else if suspects P now st then None else st.1,
     if dies P S now st then None else since_after P now st).
Proof.
  destruct st as [p since]. unfold check_target, dies, since_after, escalates, suspects. simpl.
  destruct p as [[s|s]|]; [destruct (expired now s P)..|]; destruct since as [t|]; simpl;
    repeat match goal with |- context [expired ?a ?b ?c] => destruct (expired a b c) end; done.
Qed.

Lemma check_target_actions P S now n st a :
  action_target a = n ->
  a ∈ (check_target P S now n st).1 <->
  match a with
  | EscalateToIndirect _ => escalates P now st = true
  | MarkSuspect _ => suspects P now st = true
  | MarkDead _ => dies P S now st = true
  end.
Proof.
  intros Ha. destruct st as [p since].
  unfold check_target, dies, since_after, escalates, suspects. simpl.
  destruct p as [[s|s]|]; [destruct (expired now s P)..|]; destruct since as [t|]; simpl;
    repeat match goal with |- context [expired ?a ?b ?c] => destruct (expired a b c) end; simpl;
    rewrite ?elem_of_cons, ?elem_of_nil; destruct a; simpl in Ha; subst; intuition congruence.
Qed.

Section check_maps.
Context (d : FailureDetector) (now : Tick) (n : NodeId).
Let P := probe_timeout_millis d.
Let S := suspicion_timeout_millis d.
Let st := target_of d n.

Lemma in_escalate :
  bool_decide (n ∈ map fst (base.filter (λ p, must_escalate d now p = true) (map_to_list (probes d))))
  = escalates P now st.
Proof. rewrite in_keys_filter. unfold st, escalates. simpl. by destruct (probes d !! n) as [[|]|]. Qed.

Lemma in_suspect :
  bool_decide (n ∈ map fst (base.filter (λ p, must_suspect d now p = true) (map_to_list (probes d))))
  = suspects P now st.
Proof. rewrite in_keys_filter. unfold st, suspects. simpl. by destruct (probes d !! n) as [[|]|]. Qed.
End check_maps.

(** [check_timeouts] treats every target independently: the actions it returns
    for a target and the state it leaves for it are those of the target's own
    probe, escalate, suspect, dead automaton. *)
Lemma check_timeouts_local (d : FailureDetector) (now : Tick) (n : NodeId) :
  let P := probe_timeout_millis d in
  let S := suspicion_timeout_millis d in
  target_of (check_timeouts d now).2 n = (check_target P S now n (target_of d n)).2 /\
  forall a, action_target a = n ->
    (a ∈ (check_timeouts d now).1 <-> a ∈ (check_target P S now n (target_of d n)).1).
Proof.
  intros P S. rewrite check_target_state. unfold check_timeouts.
  pose proof (in_escalate d now n) as HE. pose proof (in_suspect d now n) as HU.
  fold P in HE, HU. set (escalate := map fst (base.filter (λ p, must_escalate d now p = true) _)) in *.
  set (suspect := map fst (base.filter (λ p, must_suspect d now p = true) _)) in *.
  pose proof (lookup_fold_insert suspect now (suspected_since d) n) as HS. rewrite HU in HS.
  set (since1 := fold_left _ suspect (suspected_since d)) in *.
  pose proof (in_keys_filter (λ p, expired now p.2 S) since1 n) as HD. simpl in HD.
  set (dead := map fst (base.filter _ (map_to_list since1))) in *. simpl.
  rewrite HS in HD. change (bool_decide (n ∈ dead) = dies P S now (target_of d n)) in HD.
  change (since1 !! n = since_after P now (target_of d n)) in HS.
  split.
  - unfold target_of at 1. simpl.
    rewrite !lookup_fold_delete, lookup_fold_insert, HS, HE, HU, HD. f_equal.
    unfold escalates, suspects, P. simpl. by destruct (probes d !! n) as [[|]|]; repeat case_match.
  - intros a Ha. rewrite elem_of_actions, check_target_actions by done.
    destruct a; simpl in Ha; subst; rewrite <- ?HE, <- ?HU, <- ?HD; by rewrite bool_decide_eq_true.
Qed.

(** ** Histories *)

Inductive fd_event := Probe (n : NodeId) | Ack (n : NodeId) | Check.

Abbreviation fd_trace := (list (Tick * fd_event)) (only parsing).

(** The detector after a history of timed calls, the time of the last one, and
    the calls themselves, oldest first. *)
Inductive fd_reach (P S : Z) : fd_trace -> Tick -> FailureDetector -> Prop :=
| reach_init : fd_reach P S [] 0 (FailureDetector_new P S)
| reach_probe tr now d t n :
    fd_reach P S tr now d -> now <= t ->
    fd_reach P S (tr ++ [(t, Probe n)]) t (begin_direct_probe d t n)
| reach_ack tr now d t n :
    fd_reach P S tr now d -> now <= t ->
    fd_reach P S (tr ++ [(t, Ack n)]) t (on_ack d n)
| reach_check tr now d t :
    fd_reach P S tr now d -> now <= t ->
    fd_reach P S (tr ++ [(t, Check)]) t (check_timeouts d t).2.

(** A probe of [n] was sent at [b] and no ack of it has come since. *)
Definition silent_since (tr : fd_trace) (n : NodeId) (b : Tick) : Prop :=
  exists tr1 tr2, tr = tr1 ++ (b, Probe n) :: tr2 /\ forall t, (t, Ack n) ∉ tr2.

Lemma silent_snoc tr n b ev :
  silent_since tr n b -> ev.2 <> Ack n -> silent_since (tr ++ [ev]) n b.
Proof.
  intros (tr1 & tr2 & -> & Hs) Hev. exists tr1, (tr2 ++ [ev]). split; [by rewrite <- app_assoc|].
  intros t [Hin|Hin]%elem_of_app; [by eapply Hs|]. apply list_elem_of_singleton in Hin.
  by subst.
Qed.

Lemma silent_new tr n t : silent_since (tr ++ [(t, Probe n)]) n t.
Proof. exists tr, []. split; [done|]. set_solver. Qed.

Definition target_inv (P : Z) (tr : fd_trace) (now : Tick) (n : NodeId) (st : target_state) : Prop :=
  match st.1 with
  | Some (AwaitingDirectAck s) => silent_since tr n s /\ s <= now
  | Some (AwaitingIndirectAck s) => exists b, silent_since tr n b /\ b + P <= s <= now
  | None => True
  end /\
  match st.2 with
  | Some s => exists b, silent_since tr n b /\ b + 2 * P <= s <= now
  | None => True
  end.

Lemma expired_true now s T : s <= now -> expired now s T = true -> s + T <= now.
Proof. unfold expired, saturating_sub. rewrite Z.leb_le. lia. Qed.

Lemma expired_intro now s T : s + T <= now -> 0 <= T -> expired now s T = true.
Proof. unfold expired, saturating_sub. rewrite Z.leb_le. lia. Qed.

Lemma target_inv_le P tr now now' n st :
  target_inv P tr now n st -> now <= now' -> target_inv P tr now' n st.
Proof.
  intros [H1 H2] Ht. split.
  - destruct (st.1) as [[s|s]|]; [|destruct H1 as (b & ? & ?); exists b|done]; (split; [naive_solver|lia]).
  - destruct (st.2) as [s|]; [|done]. destruct H2 as (b & ? & ?). exists b. split; [done|lia].
Qed.

(** A silent target's bounds survive time and any event but its ack. *)
Lemma target_inv_snoc P tr now t n ev st :
  target_inv P tr now n st -> now <= t -> ev.2 <> Ack n -> target_inv P (tr ++ [ev]) t n st.
Proof.
  intros [H1 H2] Ht Hev. split.
  - destruct (st.1) as [[s|s]|]; [|destruct H1 as (b & ? & ?); exists b|done];
      (split; [apply silent_snoc; naive_solver|lia]).
  - destruct (st.2) as [s|]; [|done]. destruct H2 as (b & ? & ?). exists b.
    split; [by apply silent_snoc|lia].
Qed.

Lemma target_inv_since P tr now n st s :
  target_inv P tr now n st -> since_after P now st = Some s ->
  exists b, silent_since tr n b /\ b + 2 * P <= s <= now.
Proof.
  intros [H1 H2]. unfold since_after, suspects.
  destruct st as [p since]; simpl in *. destruct p as [[s0|s0]|]; [by intros ->| |by intros ->].
  destruct (expired now s0 P) eqn:E; [|by intros ->]. intros [= <-].
  destruct H1 as (b & Hb & ?). exists b. split; [done|]. apply expired_true in E; lia.
Qed.

Lemma target_inv_check P S tr now n st :
  0 <= P -> target_inv P tr now n st -> target_inv P tr now n (check_target P S now n st).2.
Proof.
  intros HP HI. rewrite check_target_state. split; simpl.
  - destruct HI as [H1 _]. unfold escalates, suspects.
    destruct (st.1) as [[s|s]|]; [|by destruct (expired now s P)|done].
    destruct (expired now s P) eqn:E; [|done]. destruct H1 as [? ?]. exists s.
    split; [done|]. apply expired_true in E; lia.
  - destruct (dies P S now st); [done|]. destruct (since_after P now st) eqn:E; [|done].
    by eapply target_inv_since.
Qed.

Lemma fd_reach_inv P S tr now d :
  0 <= P -> fd_reach P S tr now d ->
  probe_timeout_millis d = P /\ suspicion_timeout_millis d = S /\
  forall n, target_inv P tr now n (target_of d n).
Proof.
  intros HP. induction 1 as [|tr now d t m HR (E1 & E2 & IH) Ht|tr now d t m HR (E1 & E2 & IH) Ht
    |tr now d t HR (E1 & E2 & IH) Ht]; (split; [done|]); (split; [done|]); intros n.
  - done.
  - pose proof (target_inv_snoc P tr now t n (t, Probe m) _ (IH n) Ht ltac:(done)) as HI.
    unfold target_of in *. simpl. destruct (decide (m = n)) as [->|Hne].
    + rewrite lookup_insert_eq. destruct HI as [_ HI2]. split; [|exact HI2]. simpl.
      split; [apply silent_new|lia].
    + by rewrite lookup_insert_ne.
  - unfold target_of. simpl. destruct (decide (m = n)) as [->|Hne].
    + by rewrite !lookup_delete_eq.
    + rewrite !lookup_delete_ne by done.
      apply (target_inv_snoc P tr now t n (t, Ack m)); [apply IH|done|simpl; congruence].
  - pose proof (check_timeouts_local d t n) as [HL _]. rewrite HL, E1, E2.
    apply target_inv_check; [done|].
    by apply (target_inv_snoc P tr now t n (t, Check)); [apply IH|..].
Qed.

(** No node is declared dead early. If a check at [now] returns [MarkDead n],
    then a probe of [n] was sent at least two probe timeouts and one suspicion
    timeout before [now], and no ack of [n] has come in since it was sent. *)
Theorem dead_only_after_silence (P S : Z) (tr : fd_trace) (t now : Tick) (d : FailureDetector)
    (n : NodeId) :
  0 <= P -> fd_reach P S tr t d -> t <= now -> MarkDead n ∈ (check_timeouts d now).1 ->
  exists b, silent_since tr n b /\ b + 2 * P + S <= now.
Proof.
  intros HP HR Ht Hin. destruct (fd_reach_inv P S tr t d HP HR) as (E1 & E2 & HI).
  pose proof (check_timeouts_local d now n) as [_ HA]. rewrite E1, E2 in HA.
  apply (HA (MarkDead n) eq_refl), check_target_actions in Hin; [|done].
  pose proof (target_inv_le P tr t now n _ (HI n) Ht) as HI'.
  unfold dies in Hin. destruct (since_after P now (target_of d n)) as [s|] eqn:E; [|done].
  destruct (target_inv_since P tr now n _ s HI' E) as (b & Hb & ?). exists b.
  split; [done|]. apply expired_true in Hin; lia.
Qed.

(** A node that is probed and never answers. *)
Definition unanswered (n : NodeId) (t0 t1 t2 : Tick) : FailureDetector :=
  let d0 := begin_direct_probe (FailureDetector_new PROBE_TIMEOUT_MILLIS SUSPICION_TIMEOUT_MILLIS) t0 n in
  let d1 := (check_timeouts d0 t1).2 in (check_timeouts d1 t2).2.

Lemma dead_only_after_silence_witness :
  exists b, silent_since [(10, Probe 4); (1100, Check); (2200, Check)] 4 b /\
    b + 2 * PROBE_TIMEOUT_MILLIS + SUSPICION_TIMEOUT_MILLIS <= 7300.
Proof.
  apply (dead_only_after_silence PROBE_TIMEOUT_MILLIS SUSPICION_TIMEOUT_MILLIS _ 2200 _
           (unanswered 4 10 1100 2200)).
  - done.
  - unfold unanswered. apply (reach_check _ _ [_; _] 1100); [|lia].
    apply (reach_check _ _ [_] 10); [|lia]. apply (reach_probe _ _ [] 0); [constructor|lia].
  - lia.
  - apply list_elem_of_In. vm_compute. auto.
Defined.

(** C28: a silent node is declared dead. From a fresh probe at [t0], checks at
    [t1], [t2] and [t3], each at least its timeout after the one before,
    return the escalation, the suspicion and the death of that node, whatever
    the other targets of the detector. *)
Theorem silent_node_is_declared_dead (d : FailureDetector) (n : NodeId) (t0 t1 t2 t3 : Tick) :
  let P := probe_timeout_millis d in
  let S := suspicion_timeout_millis d in
  0 <= P -> 0 < S -> suspected_since d !! n = None ->
  t0 + P <= t1 -> t1 + P <= t2 -> t2 + S <= t3 ->
  let d0 := begin_direct_probe d t0 n in
  let '(a1, d1) := check_timeouts d0 t1 in
  let '(a2, d2) := check_timeouts d1 t2 in
  let '(a3, d3) := check_timeouts d2 t3 in
  EscalateToIndirect n ∈ a1 /\ MarkSuspect n ∈ a2 /\ MarkDead n ∈ a3 /\
  target_of d3 n = (None, None).
Proof.
  intros P S HP HS Hs H1 H2 H3 d0.
  assert (target_of d0 n = (Some (AwaitingDirectAck t0), None)) as E0.
  { unfold target_of, d0. simpl. by rewrite lookup_insert_eq, Hs. }
  destruct (check_timeouts_local d0 t1 n) as [L1 A1]. rewrite E0 in L1, A1.
  destruct (check_timeouts d0 t1) as [a1 d1] eqn:C1.
  assert (probe_timeout_millis d1 = P /\ suspicion_timeout_millis d1 = S) as [P1 S1] by (by inversion C1).
  destruct (check_timeouts_local d1 t2 n) as [L2 A2].
  destruct (check_timeouts d1 t2) as [a2 d2] eqn:C2.
  assert (probe_timeout_millis d2 = P /\ suspicion_timeout_millis d2 = S) as [P2 S2]
    by (by inversion C2; rewrite P1, S1).
  destruct (check_timeouts_local d2 t3 n) as [L3 A3].
  destruct (check_timeouts d2 t3) as [a3 d3]. cbn [fst snd] in *.
  change (probe_timeout_millis d0) with P in *. change (suspicion_timeout_millis d0) with S in *.
  rewrite P1, S1 in *. rewrite P2, S2 in *.
  unfold check_target in L1, A1. simpl in L1, A1. rewrite expired_intro in L1, A1 by lia.
  simpl in L1, A1. rewrite L1 in L2, A2. unfold check_target in L2, A2. simpl in L2, A2.
  rewrite expired_intro in L2, A2 by lia. simpl in L2, A2.
  assert (expired t2 t2 S = false) as E2.
  { unfold expired, saturating_sub. apply Z.leb_gt. lia. }
  rewrite E2 in L2, A2. simpl in L2, A2. rewrite L2 in L3, A3.
  unfold check_target in L3, A3. simpl in L3, A3. rewrite expired_intro in L3, A3 by lia.
  simpl in L3, A3. split_and!; [|..|done].
  - apply A1; [done|set_solver].
  - apply A2; [done|set_solver].
  - apply A3; [done|set_solver].
Qed.

Lemma silent_node_is_declared_dead_witness :
  let d := FailureDetector_new PROBE_TIMEOUT_MILLIS SUSPICION_TIMEOUT_MILLIS in
  MarkDead 4 ∈ (check_timeouts (unanswered 4 10 1100 2200) 7300).1.
Proof.
  intros d. pose proof (silent_node_is_declared_dead d 4 10 1100 2200 7300) as H.
  specialize (H ltac:(done) ltac:(done) ltac:(done) ltac:(done) ltac:(done) ltac:(done)).
  cbv zeta in H. unfold unanswered. fold d. cbv zeta. destruct (check_timeouts _ 1100) as [a1 d1].
  cbn [snd]. destruct (check_timeouts d1 2200) as [a2 d2]. cbn [snd].
  destruct (check_timeouts d2 7300) as [a3 d3]. apply H.
Defined.
