(* ===== verification/Delta.v ===== *)
(** * seisin-storage: byte deltas

    Models [crates/seisin-storage/src/delta.rs]: the prefix/suffix trim, the
    splice and the log/wire codec. Lengths are cast to [u32] by the code, so
    the theorems about [diff] assume values shorter than 4 GiB. *)

From S2P Require Import Prelude.

Record Delta := mkDelta {
  prefix_len : Z;
  suffix_len : Z;
  middle : bytes;
  new_total_len : Z
}.

Definition encoded_len (d : Delta) : Z := 16 + zlen (middle d).

(** [while prefix < max_prefix && old[prefix] == new[prefix]]; [k] is what is
    left of [max_prefix - prefix]. *)
Fixpoint prefix_loop (k : nat) (old new : bytes) (prefix : Z) : res Z :=
  match k with
  | O => Ok prefix
  | S k =>
      o ← index old prefix;
      n ← index new prefix;
      if bool_decide (o = n) then prefix_loop k old new (prefix + 1) else Ok prefix
  end.

Fixpoint suffix_loop (k : nat) (old new : bytes) (suffix : Z) : res Z :=
  match k with
  | O => Ok suffix
  | S k =>
      o ← index old (zlen old - 1 - suffix);
      n ← index new (zlen new - 1 - suffix);
      if bool_decide (o = n) then suffix_loop k old new (suffix + 1) else Ok suffix
  end.

Definition diff (old new : bytes) : res Delta :=
  let max_prefix := Z.min (zlen old) (zlen new) in
  prefix ← prefix_loop (Z.to_nat max_prefix) old new 0;
  let max_suffix := max_prefix - prefix in
  suffix ← suffix_loop (Z.to_nat max_suffix) old new 0;
  mid ← slice new prefix (zlen new - suffix);
  Ok {| prefix_len := wrap 32 prefix; suffix_len := wrap 32 suffix;
        middle := mid; new_total_len := wrap 32 (zlen new) |}.

Definition apply (old : bytes) (d : Delta) : res bytes :=
  let prefix := prefix_len d in
  let suffix := suffix_len d in
  if zlen old <? prefix + suffix then Err "delta prefix + suffix exceed the base" else
  if negb (prefix + zlen (middle d) + suffix =? new_total_len d) then
    Err "delta reassembles to a length it does not declare" else
  p ← slice old 0 prefix;
  s ← slice old (zlen old - suffix) (zlen old);
  Ok (p ++ middle d ++ s).

Definition encode_delta (d : Delta) : bytes :=
  to_le 4 (prefix_len d) ++ to_le 4 (suffix_len d) ++ to_le 4 (new_total_len d) ++
  to_le 4 (wrap 32 (zlen (middle d))) ++ middle d.

Definition decode_delta (buf : bytes) : res Delta :=
  if zlen buf <? 16 then Err "delta too short for its fixed fields" else
  prefix ← slice buf 0 4;
  suffix ← slice buf 4 8;
  total ← slice buf 8 12;
  mlen ← slice buf 12 16;
  if negb (zlen buf =? 16 + from_le mlen) then Err "delta declares another middle length" else
  mid ← slice buf 16 (zlen buf);
  Ok {| prefix_len := from_le prefix; suffix_len := from_le suffix;
        middle := mid; new_total_len := from_le total |}.

(** The ranges of the [u32] fields. *)
Definition delta_ok (d : Delta) : Prop :=
  u32_ok (prefix_len d) /\ u32_ok (suffix_len d) /\ u32_ok (new_total_len d) /\
  u32_ok (zlen (middle d)).

(** ** Codec *)

Lemma zlen_encode_delta d : zlen (encode_delta d) = encoded_len d.
Proof. unfold encode_delta, encoded_len. autorewrite with zlen. lia. Qed.
#[export] Hint Rewrite zlen_encode_delta : zlen.

Lemma decode_encode_delta d : delta_ok d -> decode_delta (encode_delta d) = Ok d.
Proof.
  intros (H1 & H2 & H3 & H4). unfold decode_delta. rewrite zlen_encode_delta. unfold encoded_len.
  pose proof (zlen_nonneg (middle d)). rewrite (proj2 (Z.ltb_ge _ _)) by lia.
  unfold encode_delta. fixed_read. rsimpl. rewrite wrap_small, !from_le_to_le by done.
  rewrite Z.eqb_refl. simpl. by destruct d.
Qed.

(** The decoder is total on its inputs: it never panics, and what it accepts is
    exactly an encoding. *)
Lemma decode_delta_exact : decodes_all decode_delta (λ buf d, buf = encode_delta d /\ delta_ok d).
Proof.
  intros buf. unfold decode_delta. destruct (Z.ltb_spec (zlen buf) 16); [done|].
  rewrite !slice_ok by lia. rsimpl.
  destruct (Z.eqb_spec (zlen buf) (16 + from_le (sub_bytes buf 12 16))) as [E|]; [|done]. simpl.
  destruct (to_le_sub 4 buf 0 4) as [F0 ?]; [lia..|]. destruct (to_le_sub 4 buf 4 8) as [F4 ?]; [lia..|].
  destruct (to_le_sub 4 buf 8 12) as [F8 ?]; [lia..|].
  destruct (to_le_sub 4 buf 12 16) as [F12 ?]; [lia..|].
  assert (zlen (sub_bytes buf 16 (zlen buf)) = from_le (sub_bytes buf 12 16)) as Hm
    by (rewrite sub_bytes_len; lia).
  split; [|unfold delta_ok; simpl; by rewrite Hm].
  unfold encode_delta. simpl. rewrite Hm, wrap_small, F0, F4, F8, F12 by done.
  rewrite <- !sub_bytes_split by lia. by rewrite sub_bytes_full.
Qed.

(** ** Splicing *)

Lemma apply_spec old d :
  delta_ok d ->
  match apply old d with
  | Ok out => zlen out = new_total_len d /\ prefix_len d + suffix_len d <= zlen old
  | Err _ => True
  | Panic => False
  end.
Proof.
  intros ([? _] & [? _] & _ & _).
  unfold apply. destruct (Z.ltb_spec (zlen old) (prefix_len d + suffix_len d)); [done|].
  destruct (Z.eqb_spec (prefix_len d + zlen (middle d) + suffix_len d) (new_total_len d)) as [E|];
    [|done]. simpl. rewrite !slice_ok by lia. rsimpl. split; [|done].
  rewrite !zlen_app, !sub_bytes_len by lia. lia.
Qed.

(** The two loops stop inside the shared part, at ends that agree. *)
Lemma prefix_loop_spec k old new p :
  0 <= p -> p + Z.of_nat k <= zlen old -> p + Z.of_nat k <= zlen new ->
  sub_bytes old 0 p = sub_bytes new 0 p ->
  exists q, prefix_loop k old new p = Ok q /\ p <= q <= p + Z.of_nat k /\
    sub_bytes old 0 q = sub_bytes new 0 q.
Proof.
  revert p. induction k as [|k IH]; intros p Hp Ho Hn HE; cbn [prefix_loop].
  { exists p. split_and!; [done|lia..|done]. }
  destruct (index_ok old p ltac:(lia)) as (o & Eo & _). destruct (index_ok new p ltac:(lia)) as (n & En & _).
  rewrite Eo, En. rsimpl. case_bool_decide as Heq; [|exists p; split_and!; [done|lia..|done]].
  destruct (IH (p + 1)) as (q & Eq & ? & ?); [lia..| |exists q; split_and!; [done|lia..|done]].
  rewrite !(sub_bytes_split _ 0 p (p + 1)) by lia.
  rewrite HE, (index_sub _ _ _ Eo), (index_sub _ _ _ En). congruence.
Qed.

Lemma suffix_loop_spec k old new s :
  0 <= s -> s + Z.of_nat k <= zlen old -> s + Z.of_nat k <= zlen new ->
  sub_bytes old (zlen old - s) (zlen old) = sub_bytes new (zlen new - s) (zlen new) ->
  exists q, suffix_loop k old new s = Ok q /\ s <= q <= s + Z.of_nat k /\
    sub_bytes old (zlen old - q) (zlen old) = sub_bytes new (zlen new - q) (zlen new).
Proof.
  revert s. induction k as [|k IH]; intros s Hs Ho Hn HE; cbn [suffix_loop].
  { exists s. split_and!; [done|lia..|done]. }
  destruct (index_ok old (zlen old - 1 - s) ltac:(lia)) as (o & Eo & _).
  destruct (index_ok new (zlen new - 1 - s) ltac:(lia)) as (n & En & _).
  rewrite Eo, En. rsimpl. case_bool_decide as Heq; [|exists s; split_and!; [done|lia..|done]].
  destruct (IH (s + 1)) as (q & Eq & ? & ?); [lia..| |exists q; split_and!; [done|lia..|done]].
  apply index_sub in Eo, En.
  rewrite (sub_bytes_split old _ (zlen old - s)), (sub_bytes_split new _ (zlen new - s)) by lia.
  replace (zlen old - (s + 1)) with (zlen old - 1 - s) by lia.
  replace (zlen new - (s + 1)) with (zlen new - 1 - s) by lia.
  replace (zlen old - s) with (zlen old - 1 - s + 1) in * by lia.
  replace (zlen new - s) with (zlen new - 1 - s + 1) in * by lia. congruence.
Qed.

(** What [diff] computes; applying the delta to the new value changes nothing, so a
    delta that is delivered twice is harmless. *)
Lemma diff_spec (old new : bytes) :
  u32_ok (zlen old) -> u32_ok (zlen new) ->
  exists d, diff old new = Ok d /\ delta_ok d /\ encoded_len d <= 16 + zlen new /\ new_total_len d = zlen new /\
    apply old d = Ok new /\ apply new d = Ok new.
Proof.
  intros [_ Ho] [_ Hn]. pose proof (zlen_nonneg old). pose proof (zlen_nonneg new). unfold diff.
  destruct (prefix_loop_spec (Z.to_nat (Z.min (zlen old) (zlen new))) old new 0)
    as (p & -> & Hp & HP); [lia..|by rewrite !sub_bytes_nil|]. rsimpl.
  destruct (suffix_loop_spec (Z.to_nat (Z.min (zlen old) (zlen new) - p)) old new 0)
    as (s & -> & Hs & HS); [lia..|by rewrite !Z.sub_0_r, !sub_bytes_nil|]. rsimpl.
  rewrite slice_ok by lia. rsimpl. rewrite !wrap_small by (unfold uint_ok; lia).
  set (d := {| prefix_len := p |}). exists d.
  assert (zlen (middle d) = zlen new - s - p) as Hm by (simpl; rewrite sub_bytes_len; lia).
  assert (delta_ok d) as Hd by (unfold delta_ok; rewrite Hm; unfold uint_ok; simpl; lia).
  assert (forall base, sub_bytes base 0 p = sub_bytes new 0 p -> p + s <= zlen base ->
    sub_bytes base (zlen base - s) (zlen base) = sub_bytes new (zlen new - s) (zlen new) -> apply base d = Ok new) as Happly.
  { intros base HP' Hb HS'. unfold apply. rewrite Hm. simpl.
    rewrite (proj2 (Z.ltb_ge _ _)), (proj2 (Z.eqb_eq _ _)) by lia. simpl. rewrite !slice_ok by lia. rsimpl.
    rewrite HP', HS'. rewrite <- !sub_bytes_split by lia. by rewrite sub_bytes_full. }
  split; [done|]. split; [done|]. split; [unfold encoded_len; lia|]. split; [done|]. split; apply Happly; (done || lia).
Qed.

(** C33: [diff] never panics, and splicing its delta onto the old value gives the
    new one; the delta is one the codec carries faithfully and costs at most 16
    bytes more than the new value. *)
Theorem apply_diff (old new : bytes) :
  u32_ok (zlen old) -> u32_ok (zlen new) ->
  exists d, diff old new = Ok d /\ apply old d = Ok new /\ delta_ok d /\
    decode_delta (encode_delta d) = Ok d /\ encoded_len d <= 16 + zlen new.
Proof.
  intros Ho Hn. destruct (diff_spec old new Ho Hn) as (d & E & Hd & Hl & _ & Ha & _). exists d.
  split_and!; [done..|by apply decode_encode_delta|done].
Qed.

Lemma apply_diff_witness :
  exists d, diff [u8 1; u8 2; u8 3; u8 4] [u8 1; u8 9; u8 4] = Ok d /\
    apply [u8 1; u8 2; u8 3; u8 4] d = Ok [u8 1; u8 9; u8 4] /\ delta_ok d /\
    decode_delta (encode_delta d) = Ok d /\ encoded_len d <= 16 + 3.
Proof. apply (apply_diff [u8 1; u8 2; u8 3; u8 4] [u8 1; u8 9; u8 4]); done. Defined.

(** The delta decoder never panics on any bytes; it accepts exactly the
    encodings of deltas; and applying a decoded delta to any base is a clean
    error or a value of the declared length, never a panic. *)
Theorem delta_decode_safe (buf old : bytes) :
  match decode_delta buf with
  | Ok d => buf = encode_delta d /\
      match apply old d with Ok out => zlen out = new_total_len d | Err _ => True | Panic => False end
  | Err _ => forall d, delta_ok d -> buf <> encode_delta d
  | Panic => False
  end.
Proof.
  pose proof (decode_delta_exact buf) as HD. destruct (decode_delta buf) as [d| |] eqn:E; [| |done].
  - destruct HD as [-> Hd]. split; [done|]. pose proof (apply_spec old d Hd).
    destruct (apply old d); naive_solver.
  - intros d Hd ->. rewrite decode_encode_delta in E; done.
Qed.
