(* ===== verification/Codec.v ===== *)
(** * Wire building blocks

    The cursor helpers that [crates/seisin-protocol/src/lib.rs] and
    [store_wire.rs] share (each file has its own identical copy): ids, byte
    strings, lists, optional integers, the version byte and the tag dispatch.
    Every writer comes with two laws: the reader inverts it ([parses_*]) and
    accepts nothing else ([decodes_*]). *)

From S2P Require Import Prelude Core.

Definition ID_LEN : Z := 16.
Definition RK_RANK_KEY_LEN : Z := 8.

(** ** Writers and readers *)

Definition put_id (id : DatumId) : bytes := as_bytes id.
Definition take_id : cur DatumId :=
  v ← take_n ID_LEN "truncated datum id"; mret (from_bytes v).

Definition put_bytes (bs : bytes) : bytes := to_le 4 (wrap 32 (zlen bs)) ++ bs.
Definition take_bytes : cur bytes :=
  len ← take_le 4 "truncated length prefix"; take_n len "truncated byte field".

Definition take_u16 : cur Z := take_le 2 "truncated u16".
Definition take_u32 : cur Z := take_le 4 "truncated u32".
Definition take_u64 : cur Z := take_le 8 "truncated u64".
Definition take_rank_key : cur bytes := take_n RK_RANK_KEY_LEN "truncated rank key".

(** A [String] field: a byte field that must be UTF-8. *)
Definition take_string : cur bytes := v ← take_bytes; cur_lift (from_utf8 v).

(** [(items.len() as u32).to_le_bytes()] and the items, and the loop reading
    them back. *)
Definition put_list {A} (put : A -> bytes) (xs : list A) : bytes :=
  to_le 4 (wrap 32 (zlen xs)) ++ flat_map put xs.
Definition take_list {A} (take : cur A) : cur (list A) :=
  count ← take_u32; cur_repeat (Z.to_nat count) take.

Definition put_id_list (ids : list DatumId) : bytes := put_list put_id ids.
Definition take_id_list : cur (list DatumId) := take_list take_id.

(** [v.to_le_bytes()] and [take_u64(..)? as i64] for an [i64]. *)
Definition put_i64 (v : Z) : bytes := to_le 8 (as_u64 v).
Definition take_i64 : cur Z := v ← take_u64; mret (as_i64 v).

(** A presence flag and the value; any flag but 0 and 1 is an error. *)
Definition put_opt {A} (put : A -> bytes) (v : option A) : bytes :=
  match v with None => [u8 0] | Some v => u8 1 :: put v end.
Definition take_opt {A} (msg : string) (take : cur A) : cur (option A) :=
  flag ← take_byte msg;
  if byte_val flag =? 0 then mret None
  else if byte_val flag =? 1 then v ← take; mret (Some v)
  else cur_err "unknown option flag".

Definition put_opt_i64 (v : option Z) : bytes := put_opt put_i64 v.
Definition take_opt_i64 : cur (option Z) := take_opt "truncated option flag" take_i64.

(** [u8::from(b)] *)
Definition put_bool (b : bool) : byte := u8 (if b then 1 else 0).

(** Checks and strips the leading version byte. *)
Definition check_version (version : Z) (buf : bytes) : res bytes :=
  match buf with
  | [] => Err "empty payload"
  | v :: rest => if byte_val v =? version then Ok rest else Err "unsupported protocol version"
  end.

(** [if buf.is_empty() { bail! } let mut offset = 1; match buf[0] { .. }] *)
Definition tagged {A} (msg : string) (k : Z -> cur A) (buf : bytes) : res A :=
  if bool_decide (buf = []) then Err msg else
  tag ← index buf 0;
  run_cur (k (byte_val tag)) buf 1.

(** ** Completeness *)

Definition list_ok {A} (ok : A -> Prop) (xs : list A) : Prop := u32_ok (zlen xs) /\ Forall ok xs.
Definition opt_ok {A} (ok : A -> Prop) (v : option A) : Prop :=
  match v with None => True | Some v => ok v end.
(** A byte field whose length fits its [u32] prefix, and a string field. *)
Definition field_ok (bs : bytes) : Prop := u32_ok (zlen bs).
Definition string_ok (bs : bytes) : Prop := field_ok bs /\ utf8_valid bs = true.
Definition rank_key_ok (bs : bytes) : Prop := zlen bs = RK_RANK_KEY_LEN.

Lemma parses_take_id id : datum_ok id -> parses take_id (put_id id) id.
Proof.
  intros H. unfold take_id. eapply parses_bind_nil; [apply parses_take_n, zlen_as_bytes|].
  rewrite from_bytes_as_bytes by done. apply parses_ret.
Qed.

Lemma parses_take_bytes bs : field_ok bs -> parses take_bytes (put_bytes bs) bs.
Proof.
  intros H. unfold take_bytes, put_bytes. rewrite wrap_small by done.
  eapply parses_bind; [by apply parses_take_le|]. by apply parses_take_n.
Qed.

Lemma parses_take_string bs : string_ok bs -> parses take_string (put_bytes bs) bs.
Proof.
  intros [H1 H2]. unfold take_string. eapply parses_bind_nil; [by apply parses_take_bytes|].
  by apply parses_from_utf8.
Qed.

Lemma parses_take_list {A} (ok : A -> Prop) put (take : cur A) xs :
  (forall x, ok x -> parses take (put x) x) -> list_ok ok xs ->
  parses (take_list take) (put_list put xs) xs.
Proof.
  intros Hx [Hl HF]. unfold take_list, put_list. rewrite wrap_small by done.
  eapply parses_bind; [by apply parses_take_le|]. apply parses_repeat.
  - intros x Hin. apply Hx. rewrite Forall_forall in HF. by apply HF.
  - unfold zlen. lia.
Qed.

Lemma parses_take_i64 v : i64_ok v -> parses take_i64 (put_i64 v) v.
Proof.
  intros H. unfold take_i64, put_i64. eapply parses_bind_nil.
  - apply (parses_take_le 8). apply wrap_ok. lia.
  - rewrite as_i64_as_u64 by done. apply parses_ret.
Qed.

Lemma parses_take_opt {A} (ok : A -> Prop) put (take : cur A) msg v :
  (forall x, ok x -> parses take (put x) x) -> opt_ok ok v ->
  parses (take_opt msg take) (put_opt put v) v.
Proof.
  intros Hx Hv. destruct v as [v|]; unfold take_opt, put_opt.
  - change (u8 1 :: put v) with ([u8 1] ++ put v).
    eapply parses_bind; [apply parses_take_byte|]. rewrite byte_val_u8_small by lia. simpl.
    eapply parses_bind_nil; [by apply Hx|]. apply parses_ret.
  - change [u8 0] with ([u8 0] ++ @nil byte).
    eapply parses_bind; [apply parses_take_byte|]. rewrite byte_val_u8_small by lia. apply parses_ret.
Qed.

Lemma tagged_parses {A} msg (k : Z -> cur A) t bs x :
  0 <= t < 256 -> parses_last (k t) bs x -> tagged msg k (u8 t :: bs) = Ok x.
Proof.
  intros Ht H. unfold tagged. rewrite bool_decide_eq_false_2 by done. rewrite index_0. rsimpl.
  rewrite byte_val_u8_small by done. by apply (run_cur_parses (k t) [u8 t]).
Qed.

Lemma parses_take_u16 z : u16_ok z -> parses take_u16 (to_le 2 z) z.
Proof. apply (parses_take_le 2). Qed.
Lemma parses_take_u32 z : u32_ok z -> parses take_u32 (to_le 4 z) z.
Proof. apply (parses_take_le 4). Qed.
Lemma parses_take_u64 z : u64_ok z -> parses take_u64 (to_le 8 z) z.
Proof. apply (parses_take_le 8). Qed.
Lemma parses_take_rank_key bs : rank_key_ok bs -> parses take_rank_key bs bs.
Proof. apply parses_take_n. Qed.
Lemma parses_take_id_list ids : list_ok datum_ok ids -> parses take_id_list (put_id_list ids) ids.
Proof. apply parses_take_list, parses_take_id. Qed.
Lemma parses_take_opt_i64 v : opt_ok i64_ok v -> parses take_opt_i64 (put_opt_i64 v) v.
Proof. apply parses_take_opt, parses_take_i64. Qed.

(** ** Soundness *)

Lemma decodes_take_id : decodes take_id (λ b _ id, b = put_id id /\ datum_ok id).
Proof.
  unfold take_id. eapply decodes_bind; [apply decodes_take_n; unfold ID_LEN; lia|].
  intros b v _. apply decodes_ret. intros r [-> Hl]. rewrite app_nil_r. unfold put_id.
  rewrite as_bytes_from_bytes by done. split; [done|]. by apply from_bytes_ok.
Qed.

Lemma decodes_take_bytes : decodes take_bytes (λ b _ bs, b = put_bytes bs /\ field_ok bs).
Proof.
  unfold take_bytes. eapply decodes_bind; [apply decodes_take_le|]. intros b n [r [-> Hn]].
  eapply decodes_weaken; [apply decodes_take_n; apply Hn|]. intros b' r' bs [-> Hl] [_ Hn'].
  unfold put_bytes, field_ok. rewrite Hl, wrap_small by done. done.
Qed.

Lemma decodes_take_string : decodes take_string (λ b _ bs, b = put_bytes bs /\ string_ok bs).
Proof.
  unfold take_string. eapply decodes_bind; [apply decodes_take_bytes|]. intros b n _.
  eapply decodes_weaken; [apply decodes_from_utf8|]. intros b' r' bs (-> & -> & Hu) [-> Hl].
  rewrite app_nil_r. done.
Qed.

Lemma decodes_take_list {A} (ok : A -> Prop) put (take : cur A) :
  decodes take (λ b _ x, b = put x /\ ok x) ->
  decodes (take_list take) (λ b _ xs, b = put_list put xs /\ list_ok ok xs).
Proof.
  intros H. unfold take_list. eapply decodes_bind; [apply decodes_take_le|]. intros b n _.
  eapply decodes_weaken; [by apply decodes_repeat|]. intros b' r' xs (-> & HF & Hl) [-> Hn].
  unfold put_list, list_ok. assert (zlen xs = n) as -> by (unfold zlen; destruct Hn; lia).
  by rewrite wrap_small by done.
Qed.

Lemma decodes_take_i64 : decodes take_i64 (λ b _ v, b = put_i64 v /\ i64_ok v).
Proof.
  unfold take_i64. eapply decodes_bind; [apply decodes_take_le|]. intros b v _.
  apply decodes_ret. intros r [-> Hv]. unfold put_i64. rewrite as_u64_as_i64, app_nil_r by done.
  split; [done|]. by apply as_i64_ok.
Qed.

Lemma byte_val_eq b z : byte_val b = z -> b = u8 z.
Proof. intros <-. symmetry. apply u8_byte_val. Qed.

Lemma decodes_take_opt {A} (ok : A -> Prop) put (take : cur A) msg :
  decodes take (λ b _ x, b = put x /\ ok x) ->
  decodes (take_opt msg take) (λ b _ v, b = put_opt put v /\ opt_ok ok v).
Proof.
  intros H. unfold take_opt. eapply decodes_bind; [apply decodes_take_byte|]. intros b flag _.
  destruct (Z.eqb_spec (byte_val flag) 0) as [E|_]; [|destruct (Z.eqb_spec (byte_val flag) 1) as [E|_]].
  - apply decodes_ret. intros r ->. by rewrite (byte_val_eq _ _ E).
  - eapply decodes_bind; [exact H|]. intros b' v _. apply decodes_ret. intros r [-> Hv] ->.
    by rewrite (byte_val_eq _ _ E), app_nil_r.
  - apply decodes_err.
Qed.

Lemma tagged_decodes {A} msg (k : Z -> cur A) (P : bytes -> A -> Prop) :
  (forall t, 0 <= t < 256 -> decodes (k t) (λ b r x, P (u8 t :: b ++ r) x)) ->
  decodes_all (tagged msg k) P.
Proof.
  intros H buf. unfold tagged. case_bool_decide as E; [done|].
  destruct buf as [|tag bs]; [done|]. rewrite index_0. rsimpl.
  pose proof (decodes_run _ _ (tag :: bs) 1 (H (byte_val tag) (byte_val_range tag))) as HR.
  specialize (HR ltac:(rewrite zlen_cons; pose proof (zlen_nonneg bs); lia)).
  destruct (run_cur _ _ _) as [x| |]; [|done..]. destruct HR as (b & r & E' & HP).
  simpl in E'. rewrite u8_byte_val in HP.
  change (take (Z.to_nat 1) (tag :: bs)) with [tag] in E'. simpl in E'. by rewrite E'.
Qed.

Lemma decodes_take_u16 : decodes take_u16 (λ b _ z, b = to_le 2 z /\ u16_ok z).
Proof. apply (decodes_take_le 2). Qed.
Lemma decodes_take_u32 : decodes take_u32 (λ b _ z, b = to_le 4 z /\ u32_ok z).
Proof. apply (decodes_take_le 4). Qed.
Lemma decodes_take_u64 : decodes take_u64 (λ b _ z, b = to_le 8 z /\ u64_ok z).
Proof. apply (decodes_take_le 8). Qed.
Lemma decodes_take_rank_key : decodes take_rank_key (λ b _ x, b = x /\ rank_key_ok x).
Proof. by apply decodes_take_n. Qed.
Lemma decodes_take_id_list :
  decodes take_id_list (λ b _ ids, b = put_id_list ids /\ list_ok datum_ok ids).
Proof. apply decodes_take_list, decodes_take_id. Qed.
Lemma decodes_take_opt_i64 :
  decodes take_opt_i64 (λ b _ v, b = put_opt_i64 v /\ opt_ok i64_ok v).
Proof. apply decodes_take_opt, decodes_take_i64. Qed.

(** The optional fields of the messages, whatever their error text. *)
Lemma parses_opt_id msg v : opt_ok datum_ok v -> parses (take_opt msg take_id) (put_opt put_id v) v.
Proof. apply parses_take_opt, parses_take_id. Qed.
Lemma decodes_opt_id msg :
  decodes (take_opt msg take_id) (λ b _ v, b = put_opt put_id v /\ opt_ok datum_ok v).
Proof. apply decodes_take_opt, decodes_take_id. Qed.
Lemma parses_opt_u64 msg v : opt_ok u64_ok v -> parses (take_opt msg take_u64) (put_opt (to_le 8) v) v.
Proof. apply parses_take_opt, parses_take_u64. Qed.
Lemma decodes_opt_u64 msg :
  decodes (take_opt msg take_u64) (λ b _ v, b = put_opt (to_le 8) v /\ opt_ok u64_ok v).
Proof. apply decodes_take_opt, decodes_take_u64. Qed.
Lemma parses_opt_bytes msg v : opt_ok field_ok v -> parses (take_opt msg take_bytes) (put_opt put_bytes v) v.
Proof. apply parses_take_opt, parses_take_bytes. Qed.
Lemma decodes_opt_bytes msg :
  decodes (take_opt msg take_bytes) (λ b _ v, b = put_opt put_bytes v /\ opt_ok field_ok v).
Proof. apply decodes_take_opt, decodes_take_bytes. Qed.

(** ** Strict decoders and automation

    [let x = ..?; if offset != buf.len() { bail!(msg) } Ok(x)] *)
Definition ended {A} (msg : string) (d : cur A) : cur A :=
  x ← d; _ ← expect_end msg; mret x.

Lemma parses_ended {A} msg (d : cur A) bs x : parses d bs x -> parses_last (ended msg d) bs x.
Proof.
  intros H. unfold ended. eapply parses_last_bind_nil; [exact H|].
  eapply parses_last_bind_end; [apply parses_last_expect_end|].
  apply parses_parses_last, parses_ret.
Qed.

Lemma decodes_ended {A} msg (d : cur A) (P Q : bytes -> bytes -> A -> Prop) :
  decodes d P -> (forall b x, P b [] x -> Q b [] x) -> decodes (ended msg d) Q.
Proof.
  intros H HPQ. unfold ended. eapply decodes_bind; [exact H|]. intros b x _.
  eapply decodes_bind; [apply decodes_expect_end|]. intros b' [] _.
  apply decodes_ret. intros r [-> E] HP. rewrite app_nil_r in *. simpl in *. subst r. auto.
Qed.

#[export] Hint Resolve parses_take_id parses_take_bytes parses_take_string parses_take_i64
  parses_take_u16 parses_take_u32 parses_take_u64 parses_take_rank_key parses_take_id_list
  parses_take_opt_i64 : codec.
#[export] Hint Resolve decodes_take_id decodes_take_bytes decodes_take_string decodes_take_i64
  decodes_take_u16 decodes_take_u32 decodes_take_u64 decodes_take_rank_key decodes_take_id_list
  decodes_take_opt_i64 : codec.
#[export] Hint Resolve parses_opt_id decodes_opt_id parses_opt_u64 decodes_opt_u64
  parses_opt_bytes decodes_opt_bytes : codec.

(** Decides the comparison of two closed tags. *)
Ltac eval_tags :=
  repeat match goal with
  | |- context [?a =? ?b] =>
      let v := eval vm_compute in (a =? b) in
      lazymatch v with true => idtac | false => idtac end; change (a =? b) with v; cbv iota
  end.

(** Follows a decoder that dispatches on the tag [t]. *)
Ltac tag_cases t :=
  repeat lazymatch goal with
  | |- decodes (if t =? ?c then _ else _) _ => destruct (Z.eqb_spec t c) as [->|_]
  end.

(** Closes a soundness goal left by [decode]: what each step consumed, put back
    together, is the encoding. *)
Ltac decoded :=
  intros; repeat match goal with
  | H : _ /\ _ |- _ => destruct H
  | H : exists _, _ |- _ => destruct H
  end; subst; cbn; rewrite ?app_nil_r, <- ?app_assoc; cbn.
