(* ===== verification/Protocol.v ===== *)
(** * seisin-protocol: the client and node wire protocol

    Models [crates/seisin-protocol/src/lib.rs]: the message types, the public
    sub-codecs (rank queries, leaderboards, histories, foreign keys, extents),
    the request and response codecs, the peer-link envelope and the frame.
    Strings are their UTF-8 bytes. *)

From S2P Require Import Prelude Core Codec.

(** ** Messages *)

Inductive RkQueryKind := TopN (n : Z) | BottomN (n : Z) | PercentileSample (n : Z).

Inductive LbExecuteOp :=
| LbUpdate (player_id : DatumId) (display rank_key : bytes) (friend_ids : list DatumId) (top window : Z)
| LbRemove (player_id : DatumId).

Record LbQueryReq := mkLbQueryReq {
  lq_top : Z; lq_bottom : Z; lq_around_player : option DatumId; lq_window : Z;
  lq_friend_ids : list DatumId }.

Record LbEntry := mkLbEntry { le_rank_key : bytes; le_player_id : DatumId; le_display : bytes }.

Record LbFriendRank := mkLbFriendRank {
  fr_player_id : DatumId; fr_rank : Z; fr_rank_key : bytes; fr_display : bytes }.

Record LbResult := mkLbResult {
  lr_total : Z; lr_player_rank : option Z; lr_top : list LbEntry; lr_bottom : list LbEntry;
  lr_around : list LbEntry; lr_friends : list LbFriendRank }.

Inductive TkOp :=
| TkSet (sub_key : bytes) (as_of : option Z) (value : bytes)
| TkClear (sub_key : bytes) (as_of : option Z).

Inductive TkQueryReq :=
| AsOf (sub_key : bytes) (t : Z)
| Current (sub_key : bytes)
| History (sub_key : bytes)
| Range (sub_key : bytes) (from to : Z)
| SnapshotAt (t : Z).

Record TkSpan := mkTkSpan { sp_sub_key : bytes; sp_lower : Z; sp_upper : option Z; sp_value : bytes }.
Record TkResult := mkTkResult { tr_spans : list TkSpan }.

Inductive FkPendingOp :=
| FkList
| FkRemove (referencing_pk target : DatumId)
| FkInsert (referencing_pk target : DatumId).

Inductive ExtentOp := ExtentInsert (pk : DatumId) | ExtentRemove (pk : DatumId).

Record StorageMember := mkStorageMember {
  sm_node_id : NodeId; sm_weight : Z; sm_store_address : bytes; sm_log_id : DatumId }.

(** ** Rank queries *)

Definition RK_QUERY_TOP_N : Z := 0.
Definition RK_QUERY_BOTTOM_N : Z := 1.
Definition RK_QUERY_PERCENTILE_SAMPLE : Z := 2.

Definition encode_rk_query_kind (q : RkQueryKind) : bytes :=
  let '(tag, n) :=
    match q with
    | TopN n => (RK_QUERY_TOP_N, n)
    | BottomN n => (RK_QUERY_BOTTOM_N, n)
    | PercentileSample n => (RK_QUERY_PERCENTILE_SAMPLE, n)
    end in
  u8 tag :: to_le 4 n.

Definition decode_rk_query_kind (buf : bytes) : res RkQueryKind :=
  if negb (zlen buf =? 5) then Err "rk query kind must be exactly 5 bytes" else
  n ← slice buf 1 5;
  tag ← index buf 0;
  if byte_val tag =? RK_QUERY_TOP_N then Ok (TopN (from_le n))
  else if byte_val tag =? RK_QUERY_BOTTOM_N then Ok (BottomN (from_le n))
  else if byte_val tag =? RK_QUERY_PERCENTILE_SAMPLE then Ok (PercentileSample (from_le n))
  else Err "unknown rk query kind tag".

Definition encode_rk_entry (e : bytes * DatumId) : bytes := e.1 ++ as_bytes e.2.
Definition encode_rk_entries (entries : list (bytes * DatumId)) : bytes :=
  to_le 4 (wrap 32 (zlen entries)) ++ flat_map encode_rk_entry entries.

(** The [for i in 0..count] loop: [i] is the next entry, [k] the entries left. *)
Fixpoint rk_entries_loop (k : nat) (buf : bytes) (i : Z) : res (list (bytes * DatumId)) :=
  match k with
  | O => Ok []
  | S k =>
      let entry_len := RK_RANK_KEY_LEN + ID_LEN in
      let start := 4 + i * entry_len in
      rank_key ← slice buf start (start + RK_RANK_KEY_LEN);
      pk_id ← slice buf (start + RK_RANK_KEY_LEN) (start + entry_len);
      rest ← rk_entries_loop k buf (i + 1);
      Ok ((rank_key, from_bytes pk_id) :: rest)
  end.

Definition decode_rk_entries (buf : bytes) : res (list (bytes * DatumId)) :=
  if zlen buf <? 4 then Err "rk entries buffer too short for a count" else
  c ← slice buf 0 4;
  let count := from_le c in
  if negb (zlen buf =? 4 + count * (RK_RANK_KEY_LEN + ID_LEN)) then Err "rk entries length mismatch"
  else rk_entries_loop (Z.to_nat count) buf 0.

(** ** Leaderboards *)

Definition LB_OP_UPDATE : Z := 0.
Definition LB_OP_REMOVE : Z := 1.

Definition encode_lb_execute_op (op : LbExecuteOp) : bytes :=
  match op with
  | LbUpdate player_id display rank_key friend_ids top window =>
      u8 LB_OP_UPDATE :: put_id player_id ++ rank_key ++ put_bytes display ++
        put_id_list friend_ids ++ to_le 4 top ++ to_le 4 window
  | LbRemove player_id => u8 LB_OP_REMOVE :: put_id player_id
  end.

Definition decode_lb_execute_op : bytes -> res LbExecuteOp :=
  tagged "empty lb execute op" (λ tag, ended "lb execute op has trailing bytes"
    (if tag =? LB_OP_UPDATE then
       player_id ← take_id;
       rank_key ← take_rank_key;
       display ← take_bytes;
       friend_ids ← take_id_list;
       top ← take_u32;
       window ← take_u32;
       mret (LbUpdate player_id display rank_key friend_ids top window)
     else if tag =? LB_OP_REMOVE then player_id ← take_id; mret (LbRemove player_id)
     else cur_err "unknown lb execute op tag")).

Definition encode_lb_query_req (q : LbQueryReq) : bytes :=
  to_le 4 (lq_top q) ++ to_le 4 (lq_bottom q) ++ put_opt put_id (lq_around_player q) ++
  to_le 4 (lq_window q) ++ put_id_list (lq_friend_ids q).

Definition take_lb_query_req : cur LbQueryReq :=
  top ← take_u32;
  bottom ← take_u32;
  around_player ← take_opt "lb query truncated at around_player flag" take_id;
  window ← take_u32;
  friend_ids ← take_id_list;
  mret (mkLbQueryReq top bottom around_player window friend_ids).
Definition decode_lb_query_req (buf : bytes) : res LbQueryReq :=
  run_cur (ended "lb query has trailing bytes" take_lb_query_req) buf 0.

Definition put_lb_entry (e : LbEntry) : bytes :=
  le_rank_key e ++ put_id (le_player_id e) ++ put_bytes (le_display e).
Definition take_lb_entry : cur LbEntry :=
  rank_key ← take_rank_key;
  player_id ← take_id;
  display ← take_bytes;
  mret (mkLbEntry rank_key player_id display).
Definition put_lb_entries (es : list LbEntry) : bytes := put_list put_lb_entry es.
Definition take_lb_entries : cur (list LbEntry) := take_list take_lb_entry.

Definition put_lb_friend (f : LbFriendRank) : bytes :=
  put_id (fr_player_id f) ++ to_le 8 (fr_rank f) ++ fr_rank_key f ++ put_bytes (fr_display f).
Definition take_lb_friend : cur LbFriendRank :=
  player_id ← take_id;
  rank ← take_u64;
  rank_key ← take_rank_key;
  display ← take_bytes;
  mret (mkLbFriendRank player_id rank rank_key display).

Definition encode_lb_result (r : LbResult) : bytes :=
  to_le 8 (lr_total r) ++ put_opt (to_le 8) (lr_player_rank r) ++ put_lb_entries (lr_top r) ++
  put_lb_entries (lr_bottom r) ++ put_lb_entries (lr_around r) ++
  put_list put_lb_friend (lr_friends r).

Definition take_lb_result : cur LbResult :=
  total ← take_u64;
  player_rank ← take_opt "lb result truncated at player_rank flag" take_u64;
  top ← take_lb_entries;
  bottom ← take_lb_entries;
  around ← take_lb_entries;
  friends ← take_list take_lb_friend;
  mret (mkLbResult total player_rank top bottom around friends).
Definition decode_lb_result (buf : bytes) : res LbResult :=
  run_cur (ended "lb result has trailing bytes" take_lb_result) buf 0.

(** ** Valid-time histories *)

Definition TK_OP_SET : Z := 0.
Definition TK_OP_CLEAR : Z := 1.

Definition encode_tk_op (op : TkOp) : bytes :=
  match op with
  | TkSet sub_key as_of value => u8 TK_OP_SET :: put_bytes sub_key ++ put_opt_i64 as_of ++ put_bytes value
  | TkClear sub_key as_of => u8 TK_OP_CLEAR :: put_bytes sub_key ++ put_opt_i64 as_of
  end.

Definition decode_tk_op : bytes -> res TkOp :=
  tagged "empty tk op" (λ tag, ended "tk op has trailing bytes"
    (if tag =? TK_OP_SET then
       sub_key ← take_bytes; as_of ← take_opt_i64; value ← take_bytes;
       mret (TkSet sub_key as_of value)
     else if tag =? TK_OP_CLEAR then
       sub_key ← take_bytes; as_of ← take_opt_i64;
       mret (TkClear sub_key as_of)
     else cur_err "unknown tk op tag")).

Definition TK_Q_AS_OF : Z := 0.
Definition TK_Q_CURRENT : Z := 1.
Definition TK_Q_HISTORY : Z := 2.
Definition TK_Q_RANGE : Z := 3.
Definition TK_Q_SNAPSHOT_AT : Z := 4.

Definition encode_tk_query_req (q : TkQueryReq) : bytes :=
  match q with
  | AsOf sub_key t => u8 TK_Q_AS_OF :: put_bytes sub_key ++ put_i64 t
  | Current sub_key => u8 TK_Q_CURRENT :: put_bytes sub_key
  | History sub_key => u8 TK_Q_HISTORY :: put_bytes sub_key
  | Range sub_key from to => u8 TK_Q_RANGE :: put_bytes sub_key ++ put_i64 from ++ put_i64 to
  | SnapshotAt t => u8 TK_Q_SNAPSHOT_AT :: put_i64 t
  end.

Definition decode_tk_query_req : bytes -> res TkQueryReq :=
  tagged "empty tk query" (λ tag, ended "tk query has trailing bytes"
    (if tag =? TK_Q_AS_OF then sub_key ← take_bytes; t ← take_i64; mret (AsOf sub_key t)
     else if tag =? TK_Q_CURRENT then sub_key ← take_bytes; mret (Current sub_key)
     else if tag =? TK_Q_HISTORY then sub_key ← take_bytes; mret (History sub_key)
     else if tag =? TK_Q_RANGE then
       sub_key ← take_bytes; from ← take_i64; to ← take_i64; mret (Range sub_key from to)
     else if tag =? TK_Q_SNAPSHOT_AT then t ← take_i64; mret (SnapshotAt t)
     else cur_err "unknown tk query tag")).

Definition put_tk_span (s : TkSpan) : bytes :=
  put_bytes (sp_sub_key s) ++ put_i64 (sp_lower s) ++ put_opt_i64 (sp_upper s) ++ put_bytes (sp_value s).
Definition take_tk_span : cur TkSpan :=
  sub_key ← take_bytes;
  lower ← take_i64;
  upper ← take_opt_i64;
  value ← take_bytes;
  mret (mkTkSpan sub_key lower upper value).

Definition encode_tk_result (r : TkResult) : bytes := put_list put_tk_span (tr_spans r).
Definition take_tk_result : cur TkResult := spans ← take_list take_tk_span; mret (mkTkResult spans).
Definition decode_tk_result (buf : bytes) : res TkResult :=
  run_cur (ended "tk result has trailing bytes" take_tk_result) buf 0.

(** ** Foreign keys and extents *)

Definition FK_PENDING_LIST : Z := 0.
Definition FK_PENDING_REMOVE : Z := 1.
Definition FK_PENDING_INSERT : Z := 2.

Definition encode_fk_pending_op (op : FkPendingOp) : bytes :=
  match op with
  | FkList => [u8 FK_PENDING_LIST]
  | FkRemove referencing_pk target => u8 FK_PENDING_REMOVE :: put_id referencing_pk ++ put_id target
  | FkInsert referencing_pk target => u8 FK_PENDING_INSERT :: put_id referencing_pk ++ put_id target
  end.

Definition decode_fk_pending_op : bytes -> res FkPendingOp :=
  tagged "empty fk pending op" (λ tag, ended "fk pending op has trailing bytes"
    (if tag =? FK_PENDING_LIST then mret FkList
     else if tag =? FK_PENDING_REMOVE then
       referencing_pk ← take_id; target ← take_id; mret (FkRemove referencing_pk target)
     else if tag =? FK_PENDING_INSERT then
       referencing_pk ← take_id; target ← take_id; mret (FkInsert referencing_pk target)
     else cur_err "unknown fk pending op tag")).

Definition put_fk_entry (e : DatumId * DatumId) : bytes := put_id e.1 ++ put_id e.2.
Definition take_fk_entry : cur (DatumId * DatumId) :=
  referencing_pk ← take_id; target ← take_id; mret (referencing_pk, target).
Definition encode_fk_entries (es : list (DatumId * DatumId)) : bytes := put_list put_fk_entry es.
Definition decode_fk_entries (buf : bytes) : res (list (DatumId * DatumId)) :=
  run_cur (ended "fk entries have trailing bytes" (take_list take_fk_entry)) buf 0.

Definition EXTENT_OP_INSERT : Z := 0.
Definition EXTENT_OP_REMOVE : Z := 1.

Definition encode_extent_op (op : ExtentOp) : bytes :=
  match op with
  | ExtentInsert pk => u8 EXTENT_OP_INSERT :: put_id pk
  | ExtentRemove pk => u8 EXTENT_OP_REMOVE :: put_id pk
  end.

Definition decode_extent_op : bytes -> res ExtentOp :=
  tagged "empty extent op" (λ tag, ended "extent op has trailing bytes"
    (if tag =? EXTENT_OP_INSERT then pk ← take_id; mret (ExtentInsert pk)
     else if tag =? EXTENT_OP_REMOVE then pk ← take_id; mret (ExtentRemove pk)
     else cur_err "unknown extent op tag")).

Definition encode_extent_page (offset limit : Z) : bytes := to_le 8 offset ++ to_le 4 limit.
Definition decode_extent_page (buf : bytes) : res (Z * Z) :=
  if negb (zlen buf =? 12) then Err "extent page query must be 12 bytes" else
  offset ← slice buf 0 8;
  limit ← slice buf 8 12;
  Ok (from_le offset, from_le limit).

Definition encode_extent_result (total : Z) (pks : list DatumId) : bytes :=
  to_le 8 total ++ put_list put_id pks.
Definition take_extent_result : cur (Z * list DatumId) :=
  total ← take_u64; pks ← take_list take_id; mret (total, pks).
Definition decode_extent_result (buf : bytes) : res (Z * list DatumId) :=
  run_cur (ended "extent result has trailing bytes" take_extent_result) buf 0.

Definition put_storage_member (m : StorageMember) : bytes :=
  to_le 8 (sm_node_id m) ++ to_le 4 (sm_weight m) ++ put_bytes (sm_store_address m) ++ put_id (sm_log_id m).
Definition take_storage_member : cur StorageMember :=
  node_id ← take_u64;
  weight ← take_u32;
  store_address ← take_string;
  log_id ← take_id;
  mret (mkStorageMember node_id weight store_address log_id).
Definition put_storage_members (ms : list StorageMember) : bytes := put_list put_storage_member ms.
Definition take_storage_members : cur (list StorageMember) := take_list take_storage_member.

(** ** What each codec carries faithfully *)

Definition rk_query_ok (q : RkQueryKind) : Prop :=
  match q with TopN n | BottomN n | PercentileSample n => u32_ok n end.
Definition rk_entry_ok (e : bytes * DatumId) : Prop := rank_key_ok e.1 /\ datum_ok e.2.
Definition lb_execute_ok (op : LbExecuteOp) : Prop :=
  match op with
  | LbUpdate p d k fs top w =>
      datum_ok p /\ field_ok d /\ rank_key_ok k /\ list_ok datum_ok fs /\ u32_ok top /\ u32_ok w
  | LbRemove p => datum_ok p
  end.
Definition lb_query_ok (q : LbQueryReq) : Prop :=
  u32_ok (lq_top q) /\ u32_ok (lq_bottom q) /\ opt_ok datum_ok (lq_around_player q) /\
  u32_ok (lq_window q) /\ list_ok datum_ok (lq_friend_ids q).
Definition lb_entry_ok (e : LbEntry) : Prop :=
  rank_key_ok (le_rank_key e) /\ datum_ok (le_player_id e) /\ field_ok (le_display e).
Definition lb_friend_ok (f : LbFriendRank) : Prop :=
  datum_ok (fr_player_id f) /\ u64_ok (fr_rank f) /\ rank_key_ok (fr_rank_key f) /\ field_ok (fr_display f).
Definition lb_result_ok (r : LbResult) : Prop :=
  u64_ok (lr_total r) /\ opt_ok u64_ok (lr_player_rank r) /\ list_ok lb_entry_ok (lr_top r) /\
  list_ok lb_entry_ok (lr_bottom r) /\ list_ok lb_entry_ok (lr_around r) /\
  list_ok lb_friend_ok (lr_friends r).
Definition tk_op_ok (op : TkOp) : Prop :=
  match op with
  | TkSet k t v => field_ok k /\ opt_ok i64_ok t /\ field_ok v
  | TkClear k t => field_ok k /\ opt_ok i64_ok t
  end.
Definition tk_query_ok (q : TkQueryReq) : Prop :=
  match q with
  | AsOf k t => field_ok k /\ i64_ok t
  | Current k | History k => field_ok k
  | Range k a b => field_ok k /\ i64_ok a /\ i64_ok b
  | SnapshotAt t => i64_ok t
  end.
Definition tk_span_ok (s : TkSpan) : Prop :=
  field_ok (sp_sub_key s) /\ i64_ok (sp_lower s) /\ opt_ok i64_ok (sp_upper s) /\ field_ok (sp_value s).
Definition fk_op_ok (op : FkPendingOp) : Prop :=
  match op with FkList => True | FkRemove a b | FkInsert a b => datum_ok a /\ datum_ok b end.
Definition fk_entry_ok (e : DatumId * DatumId) : Prop := datum_ok e.1 /\ datum_ok e.2.
Definition extent_op_ok (op : ExtentOp) : Prop :=
  match op with ExtentInsert pk | ExtentRemove pk => datum_ok pk end.
Definition storage_member_ok (m : StorageMember) : Prop :=
  u64_ok (sm_node_id m) /\ u32_ok (sm_weight m) /\ string_ok (sm_store_address m) /\ datum_ok (sm_log_id m).

(** ** Laws of the sub-codecs *)

(** A strict whole-slice codec: the decoder inverts the encoder, and accepts
    nothing but encodings. *)
Record exact_codec {A} (enc : A -> bytes) (dec : bytes -> res A) (ok : A -> Prop) : Prop := {
  codec_complete : forall x, ok x -> dec (enc x) = Ok x;
  codec_sound : decodes_all dec (λ buf x, buf = enc x /\ ok x)
}.

Lemma exact_of_ended {A} (enc : A -> bytes) (d : cur A) (ok : A -> Prop) msg :
  (forall x, ok x -> parses d (enc x) x) -> decodes d (λ b _ x, b = enc x /\ ok x) ->
  exact_codec enc (λ buf, run_cur (ended msg d) buf 0) ok.
Proof.
  intros Hp Hd. split.
  - intros x Hx. apply (run_cur_parses _ []). by apply parses_ended, Hp.
  - intros buf. pose proof (decodes_ended msg d _ (λ b r x, r = [] /\ b = enc x /\ ok x) Hd) as HE.
    specialize (HE ltac:(by intros)). pose proof (zlen_nonneg buf).
    pose proof (decodes_run _ _ buf 0 HE ltac:(lia)) as HR.
    destruct (run_cur _ _ _); [|done..]. destruct HR as (b & r & E & -> & -> & Hok).
    rewrite app_nil_r in E. done.
Qed.

Lemma exact_of_tagged {A} (enc : A -> bytes) (k : Z -> cur A) (ok : A -> Prop) msg msg' :
  (forall x, ok x -> exists t bs, enc x = u8 t :: bs /\ 0 <= t < 256 /\ parses (k t) bs x) ->
  (forall t, 0 <= t < 256 -> decodes (k t) (λ b _ x, u8 t :: b = enc x /\ ok x)) ->
  exact_codec enc (tagged msg (λ t, ended msg' (k t))) ok.
Proof.
  intros Hp Hd. split.
  - intros x Hx. destruct (Hp x Hx) as (t & bs & -> & Ht & HP).
    apply tagged_parses; [done|]. by apply parses_ended.
  - apply tagged_decodes. intros t Ht. eapply decodes_ended; [by apply Hd|].
    intros b x [HE Hok]. by rewrite app_nil_r.
Qed.

Ltac prove_tagged_parses :=
  intros ?x Hok; destruct x; simpl in Hok; destruct_and?;
  (eexists _, _; split; [reflexivity|]; split; [by vm_compute|]; eval_tags; parse).
Ltac prove_decodes := repeat decode_step; decoded; split_and?; done.
Ltac prove_tagged_decodes := intros t Ht; tag_cases t; prove_decodes.

Lemma lb_execute_codec : exact_codec encode_lb_execute_op decode_lb_execute_op lb_execute_ok.
Proof. apply exact_of_tagged; [prove_tagged_parses|prove_tagged_decodes]. Qed.
Lemma tk_op_codec : exact_codec encode_tk_op decode_tk_op tk_op_ok.
Proof. apply exact_of_tagged; [prove_tagged_parses|prove_tagged_decodes]. Qed.
Lemma tk_query_codec : exact_codec encode_tk_query_req decode_tk_query_req tk_query_ok.
Proof. apply exact_of_tagged; [prove_tagged_parses|prove_tagged_decodes]. Qed.
Lemma fk_op_codec : exact_codec encode_fk_pending_op decode_fk_pending_op fk_op_ok.
Proof. apply exact_of_tagged; [prove_tagged_parses|prove_tagged_decodes]. Qed.
Lemma extent_op_codec : exact_codec encode_extent_op decode_extent_op extent_op_ok.
Proof. apply exact_of_tagged; [prove_tagged_parses|prove_tagged_decodes]. Qed.

Lemma lb_query_codec : exact_codec encode_lb_query_req decode_lb_query_req lb_query_ok.
Proof.
  apply exact_of_ended; [|unfold take_lb_query_req; prove_decodes].
  intros q (? & ? & ? & ? & ?). destruct q. unfold take_lb_query_req, encode_lb_query_req. parse.
Qed.

(** The elements of the list-shaped messages. *)
Lemma parses_lb_entry e : lb_entry_ok e -> parses take_lb_entry (put_lb_entry e) e.
Proof. intros (? & ? & ?). destruct e. unfold take_lb_entry, put_lb_entry. parse. Qed.
Lemma decodes_lb_entry : decodes take_lb_entry (λ b _ e, b = put_lb_entry e /\ lb_entry_ok e).
Proof. unfold take_lb_entry. prove_decodes. Qed.
Lemma parses_lb_friend f : lb_friend_ok f -> parses take_lb_friend (put_lb_friend f) f.
Proof. intros (? & ? & ? & ?). destruct f. unfold take_lb_friend, put_lb_friend. parse. Qed.
Lemma decodes_lb_friend : decodes take_lb_friend (λ b _ f, b = put_lb_friend f /\ lb_friend_ok f).
Proof. unfold take_lb_friend. prove_decodes. Qed.
Lemma parses_tk_span s : tk_span_ok s -> parses take_tk_span (put_tk_span s) s.
Proof. intros (? & ? & ? & ?). destruct s. unfold take_tk_span, put_tk_span. parse. Qed.
Lemma decodes_tk_span : decodes take_tk_span (λ b _ s, b = put_tk_span s /\ tk_span_ok s).
Proof. unfold take_tk_span. prove_decodes. Qed.
Lemma parses_fk_entry e : fk_entry_ok e -> parses take_fk_entry (put_fk_entry e) e.
Proof. intros (? & ?). destruct e. unfold take_fk_entry, put_fk_entry. parse. Qed.
Lemma decodes_fk_entry : decodes take_fk_entry (λ b _ e, b = put_fk_entry e /\ fk_entry_ok e).
Proof. unfold take_fk_entry. prove_decodes. Qed.
Lemma parses_storage_member m : storage_member_ok m -> parses take_storage_member (put_storage_member m) m.
Proof. intros (? & ? & ? & ?). destruct m. unfold take_storage_member, put_storage_member. parse. Qed.
Lemma decodes_storage_member :
  decodes take_storage_member (λ b _ m, b = put_storage_member m /\ storage_member_ok m).
Proof. unfold take_storage_member. prove_decodes. Qed.

(** The lists themselves. *)
Lemma parses_lb_entries es :
  list_ok lb_entry_ok es -> parses take_lb_entries (put_lb_entries es) es.
Proof. apply parses_take_list, parses_lb_entry. Qed.
Lemma decodes_lb_entries :
  decodes take_lb_entries (λ b _ es, b = put_lb_entries es /\ list_ok lb_entry_ok es).
Proof. apply decodes_take_list, decodes_lb_entry. Qed.
Lemma parses_lb_friends fs :
  list_ok lb_friend_ok fs -> parses (take_list take_lb_friend) (put_list put_lb_friend fs) fs.
Proof. apply parses_take_list, parses_lb_friend. Qed.
Lemma decodes_lb_friends :
  decodes (take_list take_lb_friend) (λ b _ fs, b = put_list put_lb_friend fs /\ list_ok lb_friend_ok fs).
Proof. apply decodes_take_list, decodes_lb_friend. Qed.
Lemma parses_storage_members ms :
  list_ok storage_member_ok ms -> parses take_storage_members (put_storage_members ms) ms.
Proof. apply parses_take_list, parses_storage_member. Qed.
Lemma decodes_storage_members :
  decodes take_storage_members (λ b _ ms, b = put_storage_members ms /\ list_ok storage_member_ok ms).
Proof. apply decodes_take_list, decodes_storage_member. Qed.
Lemma parses_pks pks :
  list_ok datum_ok pks -> parses (take_list take_id) (put_list put_id pks) pks.
Proof. apply parses_take_list, parses_take_id. Qed.
Lemma decodes_pks :
  decodes (take_list take_id) (λ b _ pks, b = put_list put_id pks /\ list_ok datum_ok pks).
Proof. apply decodes_take_list, decodes_take_id. Qed.
#[export] Hint Resolve parses_lb_entries decodes_lb_entries parses_lb_friends decodes_lb_friends
  parses_storage_members decodes_storage_members parses_pks decodes_pks : codec.

Lemma lb_result_codec : exact_codec encode_lb_result decode_lb_result lb_result_ok.
Proof.
  apply exact_of_ended; [|unfold take_lb_result; prove_decodes].
  intros r (? & ? & ? & ? & ? & ?). destruct r. unfold take_lb_result, encode_lb_result. parse.
Qed.
Lemma tk_result_codec :
  exact_codec encode_tk_result decode_tk_result (λ r, list_ok tk_span_ok (tr_spans r)).
Proof.
  apply exact_of_ended; unfold take_tk_result.
  - intros [spans] Hs. eapply parses_bind_nil; [by apply (parses_take_list tk_span_ok), Hs; apply parses_tk_span|].
    apply parses_ret.
  - eapply decodes_bind; [apply decodes_take_list, decodes_tk_span|]. intros b spans _.
    apply decodes_ret. intros r [-> Hs]. by rewrite app_nil_r.
Qed.
Lemma fk_entries_codec : exact_codec encode_fk_entries decode_fk_entries (list_ok fk_entry_ok).
Proof.
  apply exact_of_ended; [|apply decodes_take_list, decodes_fk_entry].
  intros es. apply parses_take_list, parses_fk_entry.
Qed.
Lemma extent_result_codec :
  exact_codec (λ r, encode_extent_result r.1 r.2) decode_extent_result
    (λ r, u64_ok r.1 /\ list_ok datum_ok r.2).
Proof.
  apply exact_of_ended; unfold take_extent_result; [|prove_decodes].
  intros [total pks] [? ?]. unfold encode_extent_result. simpl in *. parse.
Qed.

Lemma extent_page_codec :
  exact_codec (λ p, encode_extent_page p.1 p.2) decode_extent_page (λ p, u64_ok p.1 /\ u32_ok p.2).
Proof.
  split.
  - intros [o l] [Ho Hl]. unfold decode_extent_page, encode_extent_page. simpl in *.
    autorewrite with zlen. simpl. fixed_read. rsimpl. by rewrite !from_le_to_le.
  - intros buf. unfold decode_extent_page. destruct (Z.eqb_spec (zlen buf) 12) as [E|]; [|done]. simpl.
    rewrite !slice_ok by lia. rsimpl. unfold encode_extent_page. simpl.
    destruct (to_le_sub 8 buf 0 8) as [F0 ?]; [lia..|].
    destruct (to_le_sub 4 buf 8 12) as [F8 ?]; [lia..|]. split; [|done].
    rewrite F0, F8, <- sub_bytes_split by lia. rewrite <- E. by rewrite sub_bytes_full.
Qed.

Lemma rk_query_codec : exact_codec encode_rk_query_kind decode_rk_query_kind rk_query_ok.
Proof.
  split.
  - intros q Hq. unfold decode_rk_query_kind, encode_rk_query_kind.
    destruct q as [n|n|n]; simpl in Hq; autorewrite with zlen; simpl;
      fixed_read; rsimpl;
      rewrite byte_val_u8_small by done; simpl; by rewrite from_le_to_le.
  - intros buf. unfold decode_rk_query_kind. destruct (Z.eqb_spec (zlen buf) 5) as [E|]; [|done]. simpl.
    rewrite !slice_ok by lia. destruct (index_ok buf 0 ltac:(lia)) as (tag & Et & _). rewrite Et. rsimpl.
    apply index_sub in Et. destruct (to_le_sub 4 buf 1 5) as [F1 ?]; [lia..|].
    assert (buf = tag :: to_le 4 (from_le (sub_bytes buf 1 5))) as Hb.
    { rewrite F1. change (tag :: sub_bytes buf 1 5) with ([tag] ++ sub_bytes buf 1 5).
      rewrite <- Et, <- sub_bytes_split by lia. rewrite <- E. by rewrite sub_bytes_full. }
    unfold encode_rk_query_kind.
    repeat match goal with |- context [byte_val tag =? ?c] =>
      destruct (Z.eqb_spec (byte_val tag) c) as [Eq%byte_val_eq|_]; [subst; by split|] end. done.
Qed.

Lemma zlen_encode_rk_entries es :
  Forall rk_entry_ok es -> zlen (flat_map encode_rk_entry es) = 24 * zlen es.
Proof.
  induction 1 as [|e es [He _] _ IH]; [done|]. simpl. unfold encode_rk_entry at 1.
  rewrite !zlen_app, zlen_cons, IH, He, zlen_as_bytes. unfold RK_RANK_KEY_LEN. lia.
Qed.

Lemma rk_entries_loop_encode pre es i :
  zlen pre = 4 + 24 * i -> 0 <= i -> Forall rk_entry_ok es ->
  rk_entries_loop (length es) (pre ++ flat_map encode_rk_entry es) i = Ok es.
Proof.
  intros Hp Hi HF. revert pre i Hp Hi. induction HF as [|[k id] es [Hk Hid] HF IH]; intros pre i Hp Hi;
    simpl length; cbn [rk_entries_loop]; [done|]. cbn [flat_map].
  change (encode_rk_entry (k, id)) with (k ++ as_bytes id).
  unfold rank_key_ok, RK_RANK_KEY_LEN, ID_LEN in *. simpl in Hk, Hid.
  rewrite !(slice_skip pre) by lia. rewrite Hp.
  replace (4 + i * (8 + 16) - (4 + 24 * i)) with 0 by lia.
  replace (4 + i * (8 + 16) + 8 - (4 + 24 * i)) with 8 by lia.
  replace (4 + i * (8 + 16) + (8 + 16) - (4 + 24 * i)) with 24 by lia.
  rewrite <- !app_assoc. rewrite slice_here by done. rsimpl.
  rewrite slice_skip by lia. rewrite Hk, slice_here by (rewrite zlen_as_bytes; lia). rsimpl.
  specialize (IH (pre ++ k ++ as_bytes id) (i + 1)). rewrite <- !app_assoc in IH.
  rewrite IH; [rsimpl; by rewrite from_bytes_as_bytes| |lia].
  rewrite !zlen_app, Hk, zlen_as_bytes. lia.
Qed.

Lemma rk_entries_loop_sound k buf i :
  0 <= i -> 4 + 24 * (i + Z.of_nat k) <= zlen buf ->
  exists es, rk_entries_loop k buf i = Ok es /\ length es = k /\ Forall rk_entry_ok es /\
    sub_bytes buf (4 + 24 * i) (4 + 24 * (i + Z.of_nat k)) = flat_map encode_rk_entry es.
Proof.
  revert i. induction k as [|k IH]; intros i Hi Hl; cbn [rk_entries_loop].
  { exists []. split_and!; [done..|]. rewrite Z.add_0_r. apply sub_bytes_nil. }
  unfold RK_RANK_KEY_LEN, ID_LEN. rewrite !slice_ok by lia. rsimpl.
  destruct (IH (i + 1)) as (es & -> & Hle & HF & HE); [lia..|]. rsimpl.
  eexists; split; [done|]. replace (4 + i * (8 + 16)) with (4 + 24 * i) by lia. split_and!.
  - simpl. by rewrite Hle.
  - constructor; [|done]. split; [unfold rank_key_ok; simpl; rewrite sub_bytes_len; unfold RK_RANK_KEY_LEN; lia|].
    apply from_bytes_ok. rewrite sub_bytes_len; lia.
  - simpl. rewrite <- HE. unfold encode_rk_entry. simpl.
    rewrite as_bytes_from_bytes by (rewrite sub_bytes_len; lia).
    replace (4 + 24 * i + (8 + 16)) with (4 + 24 * (i + 1)) by lia.
    rewrite <- app_assoc, <- !sub_bytes_split by lia. f_equal; lia.
Qed.

Lemma rk_entries_codec : exact_codec encode_rk_entries decode_rk_entries (list_ok rk_entry_ok).
Proof.
  split.
  - intros es [Hl HF]. unfold decode_rk_entries, encode_rk_entries. rewrite wrap_small by done.
    rewrite zlen_app, zlen_to_le, zlen_encode_rk_entries by done. pose proof (zlen_nonneg es).
    rewrite (proj2 (Z.ltb_ge _ _)) by lia. rewrite slice_here by (by rewrite zlen_to_le). rsimpl.
    rewrite from_le_to_le by done. unfold RK_RANK_KEY_LEN, ID_LEN.
    rewrite (proj2 (Z.eqb_eq _ _)) by lia. simpl.
    replace (Z.to_nat (zlen es)) with (length es) by (unfold zlen; lia).
    apply rk_entries_loop_encode; [by rewrite zlen_to_le|done|done].
  - intros buf. unfold decode_rk_entries. destruct (Z.ltb_spec (zlen buf) 4); [done|].
    rewrite slice_ok by lia. rsimpl. destruct (to_le_sub 4 buf 0 4) as [F0 F1]; [lia..|].
    unfold RK_RANK_KEY_LEN, ID_LEN. 
    destruct (Z.eqb_spec (zlen buf) (4 + from_le (sub_bytes buf 0 4) * (8 + 16))) as [E|]; [|done].
    simpl. set (n := from_le (sub_bytes buf 0 4)) in *. assert (0 <= n) by apply F1.
    destruct (rk_entries_loop_sound (Z.to_nat n) buf 0) as (es & -> & Hl & HF & HE); [lia..|].
    assert (zlen es = n) as Hn by (unfold zlen; lia). split; [|split; [by rewrite Hn|done]].
    unfold encode_rk_entries. rewrite Hn, wrap_small, F0, <- HE by done.
    rewrite <- sub_bytes_split by lia.
    replace (4 + 24 * (0 + Z.of_nat (Z.to_nat n))) with (zlen buf) by lia. by rewrite sub_bytes_full.
Qed.

(** ** Automation for the codecs above *)

Lemma parses_extent_page o l :
  u64_ok o -> u32_ok l -> parses_last (cur_sub decode_extent_page) (encode_extent_page o l) (o, l).
Proof. intros. by apply parses_last_sub, (codec_complete _ _ _ extent_page_codec (o, l)). Qed.
Lemma parses_extent_result n pks :
  u64_ok n -> list_ok datum_ok pks ->
  parses_last (cur_sub decode_extent_result) (encode_extent_result n pks) (n, pks).
Proof. intros. by apply parses_last_sub, (codec_complete _ _ _ extent_result_codec (n, pks)). Qed.
#[export] Hint Resolve parses_extent_page parses_extent_result | 0 : codec.

#[export] Hint Extern 1 (decode_lb_execute_op _ = Ok _) => apply (codec_complete _ _ _ lb_execute_codec) : codec.
#[export] Hint Extern 1 (decode_lb_query_req _ = Ok _) => apply (codec_complete _ _ _ lb_query_codec) : codec.
#[export] Hint Extern 1 (decode_tk_op _ = Ok _) => apply (codec_complete _ _ _ tk_op_codec) : codec.
#[export] Hint Extern 1 (decode_tk_query_req _ = Ok _) => apply (codec_complete _ _ _ tk_query_codec) : codec.
#[export] Hint Extern 1 (decode_fk_pending_op _ = Ok _) => apply (codec_complete _ _ _ fk_op_codec) : codec.
#[export] Hint Extern 1 (decode_extent_op _ = Ok _) => apply (codec_complete _ _ _ extent_op_codec) : codec.
#[export] Hint Extern 1 (decode_rk_entries _ = Ok _) => apply (codec_complete _ _ _ rk_entries_codec) : codec.
#[export] Hint Extern 1 (decode_lb_result _ = Ok _) => apply (codec_complete _ _ _ lb_result_codec) : codec.
#[export] Hint Extern 1 (decode_tk_result _ = Ok _) => apply (codec_complete _ _ _ tk_result_codec) : codec.
#[export] Hint Extern 1 (decode_fk_entries _ = Ok _) => apply (codec_complete _ _ _ fk_entries_codec) : codec.
#[export] Hint Extern 1 (decodes_all decode_lb_execute_op _) => apply (codec_sound _ _ _ lb_execute_codec) : codec.
#[export] Hint Extern 1 (decodes_all decode_lb_query_req _) => apply (codec_sound _ _ _ lb_query_codec) : codec.
#[export] Hint Extern 1 (decodes_all decode_tk_op _) => apply (codec_sound _ _ _ tk_op_codec) : codec.
#[export] Hint Extern 1 (decodes_all decode_tk_query_req _) => apply (codec_sound _ _ _ tk_query_codec) : codec.
#[export] Hint Extern 1 (decodes_all decode_fk_pending_op _) => apply (codec_sound _ _ _ fk_op_codec) : codec.
#[export] Hint Extern 1 (decodes_all decode_extent_op _) => apply (codec_sound _ _ _ extent_op_codec) : codec.
#[export] Hint Extern 1 (decodes_all decode_rk_entries _) => apply (codec_sound _ _ _ rk_entries_codec) : codec.
#[export] Hint Extern 1 (decodes_all decode_lb_result _) => apply (codec_sound _ _ _ lb_result_codec) : codec.
#[export] Hint Extern 1 (decodes_all decode_tk_result _) => apply (codec_sound _ _ _ tk_result_codec) : codec.
#[export] Hint Extern 1 (decodes_all decode_fk_entries _) => apply (codec_sound _ _ _ fk_entries_codec) : codec.
#[export] Hint Extern 1 (decodes_all decode_extent_page _) => apply (codec_sound _ _ _ extent_page_codec) : codec.
#[export] Hint Extern 1 (decodes_all decode_extent_result _) => apply (codec_sound _ _ _ extent_result_codec) : codec.
