(* ===== verification/Messages.v ===== *)
(** * seisin-protocol: requests, responses, envelopes and frames

    Models the top-level codecs of [crates/seisin-protocol/src/lib.rs] on top
    of the sub-codecs of [Protocol]. A decoder takes the whole payload, checks
    the version byte and dispatches on the opcode. *)

From S2P Require Import Prelude Core Codec Protocol.

Definition PROTOCOL_VERSION : Z := 2.

Module Request.
Inductive t :=
| Op (op_id : DatumId) (op_name : bytes) (datum_ids : list DatumId) (payload : bytes)
| Acquire (op_id datum_id : DatumId) (requester_node : NodeId) (requester_thread : ThreadId)
| Recall (datum_id : DatumId)
| Release (datum_id : DatumId)
| IndexUpdate (target op_id : DatumId) (index_kind payload : bytes)
| RkQuery (index_datum_id : DatumId) (query : RkQueryKind)
| LbExecute (board_id : DatumId) (class : bytes) (op : LbExecuteOp)
| LbQuery (board_id : DatumId) (class : bytes) (query : LbQueryReq)
| TkExecute (entity_datum_id : DatumId) (class : bytes) (op : TkOp)
| TkQuery (entity_datum_id : DatumId) (class : bytes) (query : TkQueryReq)
| ExistsCheck (datum_id : DatumId)
| FkPending (pending_datum_id : DatumId) (op : FkPendingOp)
| ExtentQuery (extent_datum_id : DatumId) (offset limit : Z)
| PartitionUpdate (partition_datum_id : DatumId) (op : ExtentOp)
| GetClusterConfig
| Pause (reason : bytes)
| Resume
| ClearHalt
| InstallStorageRing (members : list StorageMember).
End Request.

Definition OP_OP : Z := 1.
Definition OP_ACQUIRE : Z := 2.
Definition OP_RECALL : Z := 3.
Definition OP_RELEASE : Z := 4.
Definition OP_INDEX_UPDATE : Z := 5.
Definition OP_RK_QUERY : Z := 6.
Definition OP_LB_EXECUTE : Z := 7.
Definition OP_LB_QUERY : Z := 8.
Definition OP_TK_EXECUTE : Z := 9.
Definition OP_TK_QUERY : Z := 10.
Definition OP_EXISTS_CHECK : Z := 11.
Definition OP_FK_PENDING : Z := 12.
Definition OP_EXTENT_QUERY : Z := 13.
Definition OP_PARTITION_UPDATE : Z := 14.
Definition OP_GET_CLUSTER_CONFIG : Z := 15.
Definition OP_PAUSE : Z := 16.
Definition OP_RESUME : Z := 17.
Definition OP_CLEAR_HALT : Z := 18.
Definition OP_INSTALL_STORAGE_RING : Z := 19.

(** The opcode and what follows it. *)
Definition request_body (req : Request.t) : Z * bytes :=
  match req with
  | Request.Op op_id op_name datum_ids payload =>
      (OP_OP, as_bytes op_id ++ put_bytes op_name ++ put_id_list datum_ids ++ payload)
  | Request.Acquire op_id datum_id requester_node requester_thread =>
      (OP_ACQUIRE, as_bytes op_id ++ as_bytes datum_id ++ to_le 8 requester_node ++ to_le 4 requester_thread)
  | Request.Recall datum_id => (OP_RECALL, as_bytes datum_id)
  | Request.Release datum_id => (OP_RELEASE, as_bytes datum_id)
  | Request.IndexUpdate target op_id index_kind payload =>
      (OP_INDEX_UPDATE, as_bytes target ++ as_bytes op_id ++ put_bytes index_kind ++ payload)
  | Request.RkQuery index_datum_id query =>
      (OP_RK_QUERY, as_bytes index_datum_id ++ encode_rk_query_kind query)
  | Request.LbExecute board_id class op =>
      (OP_LB_EXECUTE, as_bytes board_id ++ put_bytes class ++ encode_lb_execute_op op)
  | Request.LbQuery board_id class query =>
      (OP_LB_QUERY, as_bytes board_id ++ put_bytes class ++ encode_lb_query_req query)
  | Request.TkExecute entity_datum_id class op =>
      (OP_TK_EXECUTE, as_bytes entity_datum_id ++ put_bytes class ++ encode_tk_op op)
  | Request.TkQuery entity_datum_id class query =>
      (OP_TK_QUERY, as_bytes entity_datum_id ++ put_bytes class ++ encode_tk_query_req query)
  | Request.ExistsCheck datum_id => (OP_EXISTS_CHECK, as_bytes datum_id)
  | Request.FkPending pending_datum_id op =>
      (OP_FK_PENDING, as_bytes pending_datum_id ++ encode_fk_pending_op op)
  | Request.ExtentQuery extent_datum_id offset limit =>
      (OP_EXTENT_QUERY, as_bytes extent_datum_id ++ encode_extent_page offset limit)
  | Request.PartitionUpdate partition_datum_id op =>
      (OP_PARTITION_UPDATE, as_bytes partition_datum_id ++ encode_extent_op op)
  | Request.GetClusterConfig => (OP_GET_CLUSTER_CONFIG, [])
  | Request.Pause reason => (OP_PAUSE, reason)
  | Request.Resume => (OP_RESUME, [])
  | Request.ClearHalt => (OP_CLEAR_HALT, [])
  | Request.InstallStorageRing members => (OP_INSTALL_STORAGE_RING, put_storage_members members)
  end.

Definition encode_request (req : Request.t) : bytes :=
  let '(tag, body) := request_body req in u8 PROTOCOL_VERSION :: u8 tag :: body.

(** *** One decoder per opcode; [buf] starts with the opcode *)

Definition decode_op_request (buf : bytes) : res Request.t :=
  run_cur (
    op_id ← take_id;
    op_name ← take_string;
    datum_ids ← take_id_list;
    payload ← take_rest;
    mret (Request.Op op_id op_name datum_ids payload)) buf 1.

Definition decode_acquire_request (buf : bytes) : res Request.t :=
  if negb (zlen buf =? 1 + ID_LEN + ID_LEN + 8 + 4) then Err "acquire request has the wrong length" else
  op_id ← slice buf 1 (1 + ID_LEN);
  datum_id ← slice buf (1 + ID_LEN) (1 + 2 * ID_LEN);
  let node_offset := 1 + 2 * ID_LEN in
  requester_node ← slice buf node_offset (node_offset + 8);
  let thread_offset := node_offset + 8 in
  requester_thread ← slice buf thread_offset (thread_offset + 4);
  Ok (Request.Acquire (from_bytes op_id) (from_bytes datum_id) (from_le requester_node)
        (from_le requester_thread)).

(** The three requests that are one id: [Recall], [Release], [ExistsCheck]. *)
Definition decode_id_request (msg : string) (mk : DatumId -> Request.t) (buf : bytes) : res Request.t :=
  if negb (zlen buf =? 1 + ID_LEN) then Err msg else
  datum_id ← slice buf 1 (1 + ID_LEN);
  Ok (mk (from_bytes datum_id)).
Definition decode_recall_request : bytes -> res Request.t :=
  decode_id_request "recall request has the wrong length" Request.Recall.
Definition decode_release_request : bytes -> res Request.t :=
  decode_id_request "release request has the wrong length" Request.Release.

Definition decode_index_update_request (buf : bytes) : res Request.t :=
  if zlen buf <? 1 + ID_LEN + ID_LEN + 4 then Err "index update request too short for its fixed fields" else
  target ← slice buf 1 (1 + ID_LEN);
  let op_id_offset := 1 + ID_LEN in
  op_id ← slice buf op_id_offset (op_id_offset + ID_LEN);
  let kind_len_offset := op_id_offset + ID_LEN in
  kind_len ← slice buf kind_len_offset (kind_len_offset + 4);
  let kind_len := from_le kind_len in
  let kind_offset := kind_len_offset + 4 in
  if zlen buf <? kind_offset + kind_len then Err "index update request too short for its index_kind" else
  kind ← slice buf kind_offset (kind_offset + kind_len);
  index_kind ← from_utf8 kind;
  payload ← slice buf (kind_offset + kind_len) (zlen buf);
  Ok (Request.IndexUpdate (from_bytes target) (from_bytes op_id) index_kind payload).

Definition decode_rk_query_request (buf : bytes) : res Request.t :=
  if negb (zlen buf =? 1 + ID_LEN + 5) then Err "rk query request has the wrong length" else
  index_datum_id ← slice buf 1 (1 + ID_LEN);
  q ← slice buf (1 + ID_LEN) (zlen buf);
  query ← decode_rk_query_kind q;
  Ok (Request.RkQuery (from_bytes index_datum_id) query).

Definition decode_lb_execute_request (buf : bytes) : res Request.t :=
  run_cur (board_id ← take_id; class ← take_string; op ← cur_sub decode_lb_execute_op;
           mret (Request.LbExecute board_id class op)) buf 1.
Definition decode_lb_query_request (buf : bytes) : res Request.t :=
  run_cur (board_id ← take_id; class ← take_string; query ← cur_sub decode_lb_query_req;
           mret (Request.LbQuery board_id class query)) buf 1.
Definition decode_tk_execute_request (buf : bytes) : res Request.t :=
  run_cur (entity ← take_id; class ← take_string; op ← cur_sub decode_tk_op;
           mret (Request.TkExecute entity class op)) buf 1.
Definition decode_tk_query_request (buf : bytes) : res Request.t :=
  run_cur (entity ← take_id; class ← take_string; query ← cur_sub decode_tk_query_req;
           mret (Request.TkQuery entity class query)) buf 1.

(** A request with no fields: [if buf.len() != 1 { bail! }]. *)
Definition decode_bare (msg : string) (r : Request.t) (buf : bytes) : res Request.t :=
  if negb (zlen buf =? 1) then Err msg else Ok r.

Definition decode_pause_request (buf : bytes) : res Request.t :=
  v ← slice buf 1 (zlen buf); reason ← from_utf8 v; Ok (Request.Pause reason).

Definition decode_request_op (tag : Z) (buf : bytes) : res Request.t :=
  if tag =? OP_OP then decode_op_request buf
  else if tag =? OP_ACQUIRE then decode_acquire_request buf
  else if tag =? OP_RECALL then decode_recall_request buf
  else if tag =? OP_RELEASE then decode_release_request buf
  else if tag =? OP_INDEX_UPDATE then decode_index_update_request buf
  else if tag =? OP_RK_QUERY then decode_rk_query_request buf
  else if tag =? OP_LB_EXECUTE then decode_lb_execute_request buf
  else if tag =? OP_LB_QUERY then decode_lb_query_request buf
  else if tag =? OP_TK_EXECUTE then decode_tk_execute_request buf
  else if tag =? OP_TK_QUERY then decode_tk_query_request buf
  else if tag =? OP_EXISTS_CHECK then
    decode_id_request "exists check request has the wrong length" Request.ExistsCheck buf
  else if tag =? OP_FK_PENDING then
    run_cur (pending ← take_id; op ← cur_sub decode_fk_pending_op;
             mret (Request.FkPending pending op)) buf 1
  else if tag =? OP_EXTENT_QUERY then
    run_cur (extent ← take_id; page ← cur_sub decode_extent_page;
             mret (Request.ExtentQuery extent page.1 page.2)) buf 1
  else if tag =? OP_PARTITION_UPDATE then
    run_cur (partition ← take_id; op ← cur_sub decode_extent_op;
             mret (Request.PartitionUpdate partition op)) buf 1
  else if tag =? OP_GET_CLUSTER_CONFIG then
    decode_bare "get cluster config has trailing bytes" Request.GetClusterConfig buf
  else if tag =? OP_PAUSE then decode_pause_request buf
  else if tag =? OP_RESUME then decode_bare "resume has trailing bytes" Request.Resume buf
  else if tag =? OP_CLEAR_HALT then decode_bare "clear halt has trailing bytes" Request.ClearHalt buf
  else if tag =? OP_INSTALL_STORAGE_RING then
    run_cur (members ← take_storage_members; mret (Request.InstallStorageRing members)) buf 1
  else Err "unknown request opcode".

Definition decode_request (payload : bytes) : res Request.t :=
  buf ← check_version PROTOCOL_VERSION payload;
  if bool_decide (buf = []) then Err "empty request payload" else
  tag ← index buf 0;
  decode_request_op (byte_val tag) buf.

Definition request_ok (req : Request.t) : Prop :=
  match req with
  | Request.Op op_id op_name datum_ids _ => datum_ok op_id /\ string_ok op_name /\ list_ok datum_ok datum_ids
  | Request.Acquire op_id datum_id n t => datum_ok op_id /\ datum_ok datum_id /\ u64_ok n /\ u32_ok t
  | Request.Recall id | Request.Release id | Request.ExistsCheck id => datum_ok id
  | Request.IndexUpdate target op_id kind _ => datum_ok target /\ datum_ok op_id /\ string_ok kind
  | Request.RkQuery id q => datum_ok id /\ rk_query_ok q
  | Request.LbExecute id class op => datum_ok id /\ string_ok class /\ lb_execute_ok op
  | Request.LbQuery id class q => datum_ok id /\ string_ok class /\ lb_query_ok q
  | Request.TkExecute id class op => datum_ok id /\ string_ok class /\ tk_op_ok op
  | Request.TkQuery id class q => datum_ok id /\ string_ok class /\ tk_query_ok q
  | Request.FkPending id op => datum_ok id /\ fk_op_ok op
  | Request.ExtentQuery id offset limit => datum_ok id /\ u64_ok offset /\ u32_ok limit
  | Request.PartitionUpdate id op => datum_ok id /\ extent_op_ok op
  | Request.Pause reason => utf8_valid reason = true
  | Request.GetClusterConfig | Request.Resume | Request.ClearHalt => True
  | Request.InstallStorageRing members => list_ok storage_member_ok members
  end.

(** ** Round trip *)

Lemma from_utf8_ok s : utf8_valid s = true -> from_utf8 s = Ok s.
Proof. intros H. unfold from_utf8. by rewrite H. Qed.

Lemma string_ok_field s : string_ok s -> field_ok s /\ utf8_valid s = true.
Proof. done. Qed.

Lemma decode_id_request_complete msg mk t id :
  datum_ok id -> decode_id_request msg mk (u8 t :: as_bytes id) = Ok (mk id).
Proof.
  intros H. unfold decode_id_request, ID_LEN. autorewrite with zlen. simpl. fixed_read. rsimpl.
  by rewrite from_bytes_as_bytes.
Qed.

Lemma decode_acquire_complete t op_id id n th :
  datum_ok op_id -> datum_ok id -> u64_ok n -> u32_ok th ->
  decode_acquire_request (u8 t :: as_bytes op_id ++ as_bytes id ++ to_le 8 n ++ to_le 4 th) =
    Ok (Request.Acquire op_id id n th).
Proof.
  intros. unfold decode_acquire_request, ID_LEN. autorewrite with zlen. simpl. fixed_read. rsimpl.
  by rewrite !from_bytes_as_bytes, !from_le_to_le.
Qed.

Lemma decode_index_update_complete t target op_id kind payload :
  datum_ok target -> datum_ok op_id -> string_ok kind ->
  decode_index_update_request (u8 t :: as_bytes target ++ as_bytes op_id ++ put_bytes kind ++ payload) =
    Ok (Request.IndexUpdate target op_id kind payload).
Proof.
  intros Ht Ho [Hk Hu]. unfold decode_index_update_request, ID_LEN, put_bytes.
  pose proof (zlen_nonneg kind). pose proof (zlen_nonneg payload).
  rewrite wrap_small, <- !app_assoc by done. autorewrite with zlen.
  rewrite (proj2 (Z.ltb_ge _ _)) by lia. fixed_read. rsimpl.
  rewrite from_le_to_le by done. rewrite (proj2 (Z.ltb_ge _ _)) by lia.
  repeat first [rewrite slice_cons by lia | rewrite slice_skip by (autorewrite with zlen; lia)].
  autorewrite with zlen.
  match goal with |- context [slice _ ?a ?b] => replace a with 0 by lia; replace b with (zlen kind) by lia end.
  rewrite slice_here by done. rsimpl. rewrite from_utf8_ok by done. rsimpl.
  match goal with |- context [slice _ ?a ?b] =>
    replace a with 0 by lia; replace b with (zlen payload) by lia end.
  rewrite slice_all by done. rsimpl. by rewrite !from_bytes_as_bytes.
Qed.

Lemma decode_rk_query_complete t id q :
  datum_ok id -> rk_query_ok q ->
  decode_rk_query_request (u8 t :: as_bytes id ++ encode_rk_query_kind q) = Ok (Request.RkQuery id q).
Proof.
  intros Hid Hq. unfold decode_rk_query_request, ID_LEN.
  assert (zlen (encode_rk_query_kind q) = 5) as Hl by (destruct q; simpl; by autorewrite with zlen).
  autorewrite with zlen. rewrite Hl. simpl. fixed_read. rsimpl.
  rewrite (codec_complete _ _ _ rk_query_codec q Hq). rsimpl. by rewrite from_bytes_as_bytes.
Qed.

Lemma decode_pause_complete t reason :
  utf8_valid reason = true -> decode_pause_request (u8 t :: reason) = Ok (Request.Pause reason).
Proof.
  intros H. unfold decode_pause_request. pose proof (zlen_nonneg reason).
  rewrite slice_cons, slice_all by (rewrite ?zlen_cons; lia). rsimpl. by rewrite from_utf8_ok.
Qed.

Lemma decode_request_op_complete req :
  request_ok req ->
  decode_request_op (request_body req).1 (u8 (request_body req).1 :: (request_body req).2) = Ok req.
Proof.
  destruct req; simpl; intros Hok; destruct_and?; unfold decode_request_op; eval_tags;
    unfold decode_recall_request, decode_release_request, decode_op_request,
      decode_lb_execute_request, decode_lb_query_request, decode_tk_execute_request,
      decode_tk_query_request;
    lazymatch goal with
    | |- decode_id_request _ _ _ = _ => by apply decode_id_request_complete
    | |- decode_acquire_request _ = _ => by apply decode_acquire_complete
    | |- decode_index_update_request _ = _ => by apply decode_index_update_complete
    | |- decode_rk_query_request _ = _ => by apply decode_rk_query_complete
    | |- decode_pause_request _ = _ => by apply decode_pause_complete
    | |- decode_bare _ _ _ = _ => reflexivity
    | |- run_cur _ (u8 ?t :: ?bs) 1 = Ok _ => apply (run_cur_parses _ [u8 t] bs); parse
    end.
Qed.

Lemma decode_encode_request req : request_ok req -> decode_request (encode_request req) = Ok req.
Proof.
  intros Hok. pose proof (decode_request_op_complete req Hok) as H.
  assert (0 <= (request_body req).1 < 256) as Ht by (by destruct req).
  unfold decode_request, encode_request. destruct (request_body req) as [t body]. simpl in *.
  unfold check_version. rewrite byte_val_u8_small by done. rewrite Z.eqb_refl. rsimpl.
  rewrite bool_decide_eq_false_2, index_0 by done. rsimpl. by rewrite byte_val_u8_small.
Qed.

(** C32: every request survives the wire: decoding the encoding of a
    well-formed request gives it back, for all nineteen kinds. *)
Theorem request_roundtrip (req : Request.t) :
  request_ok req -> decode_request (encode_request req) = Ok req.
Proof. apply decode_encode_request. Qed.

Lemma request_roundtrip_witness :
  let req := Request.Op 5 [u8 103] [1; 2] [u8 7] in
  request_ok req /\ decode_request (encode_request req) = Ok req.
Proof.
  intros req. assert (request_ok req) as H.
  { unfold req, request_ok, string_ok, list_ok. split_and!; repeat constructor; done. }
  split; [exact H|]. by apply (request_roundtrip req).
Defined.

(** ** Soundness of the request decoder *)


(** [r] is what the opcode [t] and [bs] encode; only the storage ring request
    lets bytes trail. *)
Definition request_of (t : Z) (bs : bytes) (r : Request.t) : Prop :=
  request_ok r /\ (request_body r).1 = t /\
  exists tail, bs = (request_body r).2 ++ tail /\
    (tail = [] \/ exists ms, r = Request.InstallStorageRing ms).

Definition op_sound (t : Z) (dec : bytes -> res Request.t) : Prop :=
  forall bs, match dec (u8 t :: bs) with Ok r => request_of t bs r | Err _ => True | Panic => False end.

Lemma request_of_exact t bs r : request_ok r -> request_body r = (t, bs) -> request_of t bs r.
Proof.
  intros Hok HE. split; [done|]. rewrite HE. split; [done|]. exists []. rewrite app_nil_r. auto.
Qed.

Lemma op_sound_cur t d :
  decodes d (λ b r x, request_of t (b ++ r) x) -> op_sound t (λ buf, run_cur d buf 1).
Proof.
  intros Hd bs. pose proof (zlen_nonneg bs).
  pose proof (decodes_run d _ (u8 t :: bs) 1 Hd ltac:(rewrite zlen_cons; lia)) as HR.
  destruct (run_cur d _ 1) as [x| |]; [|done..]. destruct HR as (b & r & E & HP).
  change (take (Z.to_nat 1) (u8 t :: bs)) with [u8 t] in E. injection E as ->. done.
Qed.

(** What the bytes after the opcode are, for the decoders that slice. *)
Lemma op_sound_slice t bs a :
  1 <= a -> a <= 1 + zlen bs -> sub_bytes (u8 t :: bs) 1 a ++ sub_bytes (u8 t :: bs) a (1 + zlen bs) = bs.
Proof.
  intros. rewrite <- sub_bytes_split by lia.
  unfold sub_bytes. replace (1 + zlen bs - 1) with (zlen bs) by lia.
  change (drop (Z.to_nat 1) (u8 t :: bs)) with (drop 0 bs). rewrite drop_0. apply take_ge.
  unfold zlen. lia.
Qed.

Lemma slice_id buf a :
  0 <= a -> a + 16 <= zlen buf ->
  datum_ok (from_bytes (sub_bytes buf a (a + 16))) /\
  as_bytes (from_bytes (sub_bytes buf a (a + 16))) = sub_bytes buf a (a + 16).
Proof.
  intros. assert (zlen (sub_bytes buf a (a + 16)) = 16) by (rewrite sub_bytes_len; lia).
  split; [by apply from_bytes_ok|by apply as_bytes_from_bytes].
Qed.

Lemma decode_id_request_sound msg mk t :
  (forall id, datum_ok id -> request_ok (mk id)) ->
  (forall id, request_body (mk id) = (t, as_bytes id)) ->
  op_sound t (decode_id_request msg mk).
Proof.
  intros Hok Hb bs. unfold decode_id_request, ID_LEN. rewrite zlen_cons.
  destruct (Z.eqb_spec (1 + zlen bs) (1 + 16)) as [E|]; [|done]. simpl negb. cbv iota.
  rewrite slice_ok by (rewrite ?zlen_cons; lia). rsimpl.
  destruct (slice_id (u8 t :: bs) 1) as [H1 H2]; [lia|rewrite zlen_cons; lia|].
  apply request_of_exact; [by apply Hok|]. rewrite Hb, H2. f_equal.
  pose proof (op_sound_slice t bs 1) as HS. rewrite sub_bytes_nil, E in HS. apply HS; lia.
Qed.

Lemma decode_acquire_sound : op_sound OP_ACQUIRE decode_acquire_request.
Proof.
  intros bs. unfold decode_acquire_request, ID_LEN. rewrite zlen_cons.
  destruct (Z.eqb_spec (1 + zlen bs) (1 + 16 + 16 + 8 + 4)) as [E|]; [|done]. simpl negb. cbv iota.
  rewrite !slice_ok by (rewrite ?zlen_cons; lia). rsimpl.
  set (buf := u8 OP_ACQUIRE :: bs).
  assert (zlen buf = 45) as Hl by (unfold buf; rewrite zlen_cons; lia).
  destruct (slice_id buf 1) as [A1 A2]; [lia..|]. destruct (slice_id buf 17) as [B1 B2]; [lia..|].
  destruct (to_le_sub 8 buf 33 41) as [C1 C2]; [lia..|].
  destruct (to_le_sub 4 buf 41 45) as [D1 D2]; [lia..|].
  apply request_of_exact; [done|]. simpl.
  change (1 + 16) with 17. change (1 + 2 * 16) with 33. change (33 + 8) with 41. change (41 + 4) with 45.
  change (1 + 16) with 17 in A1, A2. change (17 + 16) with 33 in B1, B2.
  rewrite A2, B2, C1, D1. f_equal.
  rewrite <- !sub_bytes_split by lia. pose proof (op_sound_slice OP_ACQUIRE bs 1) as HS.
  rewrite sub_bytes_nil in HS. fold buf in HS. replace (1 + zlen bs) with 45 in HS by lia.
  apply HS; lia.
Qed.

Lemma decode_index_update_sound : op_sound OP_INDEX_UPDATE decode_index_update_request.
Proof.
  intros bs. unfold decode_index_update_request, ID_LEN. rewrite zlen_cons.
  destruct (Z.ltb_spec (1 + zlen bs) (1 + 16 + 16 + 4)) as [|E]; [done|].
  set (buf := u8 OP_INDEX_UPDATE :: bs).
  assert (zlen buf = 1 + zlen bs) as Hl by (unfold buf; rewrite zlen_cons; lia).
  change (1 + 16 + 16 + 4) with 37. change (1 + 16 + 16) with 33. change (1 + 16) with 17.
  rewrite !slice_ok by lia. rsimpl.
  destruct (to_le_sub 4 buf 33 37) as [C1 C2]; [lia..|]. set (n := from_le (sub_bytes buf 33 37)) in *.
  assert (0 <= n) by apply C2.
  destruct (Z.ltb_spec (1 + zlen bs) (37 + n)) as [|E']; [done|]. rewrite !slice_ok by lia. rsimpl.
  pose proof (from_utf8_spec (sub_bytes buf 37 (37 + n))) as HU.
  destruct (from_utf8 _) as [kind| |]; [|done..]. destruct HU as [-> HU]. rsimpl.
  destruct (slice_id buf 1) as [A1 A2]; [lia..|]. destruct (slice_id buf 17) as [B1 B2]; [lia..|].
  change (1 + 16) with 17 in A1, A2. change (17 + 16) with 33 in B1, B2. 
  assert (zlen (sub_bytes buf 37 (37 + n)) = n) as Hn by (rewrite sub_bytes_len; lia).
  apply request_of_exact; simpl; [unfold string_ok, field_ok; by rewrite Hn|].
  unfold put_bytes. rewrite A2, B2, Hn, wrap_small, C1 by done. f_equal.
  rewrite <- app_assoc, <- !sub_bytes_split by lia. pose proof (op_sound_slice OP_INDEX_UPDATE bs 1) as HS.
  rewrite sub_bytes_nil in HS. fold buf in HS. apply HS; lia.
Qed.

Lemma decode_rk_query_sound : op_sound OP_RK_QUERY decode_rk_query_request.
Proof.
  intros bs. unfold decode_rk_query_request, ID_LEN. rewrite zlen_cons.
  destruct (Z.eqb_spec (1 + zlen bs) (1 + 16 + 5)) as [E|]; [|done]. simpl negb. cbv iota.
  rewrite !slice_ok by (rewrite ?zlen_cons; lia). rsimpl.
  pose proof (codec_sound _ _ _ rk_query_codec (sub_bytes (u8 OP_RK_QUERY :: bs) (1 + 16) (1 + zlen bs))) as HQ.
  destruct (decode_rk_query_kind _) as [q| |]; [|done..]. rsimpl. destruct HQ as [HQ Hok].
  destruct (slice_id (u8 OP_RK_QUERY :: bs) 1) as [A1 A2]; [lia|rewrite zlen_cons; lia|].
  apply request_of_exact; [done|]. simpl request_body. rewrite A2, <- HQ. f_equal.
  apply op_sound_slice; lia.
Qed.

Lemma decode_pause_sound : op_sound OP_PAUSE decode_pause_request.
Proof.
  intros bs. unfold decode_pause_request. pose proof (zlen_nonneg bs).
  rewrite slice_cons, slice_all by (rewrite ?zlen_cons; lia). rsimpl.
  pose proof (from_utf8_spec bs) as HU. destruct (from_utf8 bs) as [r| |]; [|done..].
  destruct HU as [-> HU]. rsimpl. by apply request_of_exact.
Qed.

Lemma decode_bare_sound msg t r :
  request_ok r -> request_body r = (t, []) -> op_sound t (decode_bare msg r).
Proof.
  intros Hok Hb bs. unfold decode_bare. rewrite zlen_cons.
  destruct (Z.eqb_spec (1 + zlen bs) 1); [|done]. simpl. apply request_of_exact; [done|].
  rewrite Hb. f_equal. symmetry. apply zlen_0. lia.
Qed.

(** Closes the cursor branches: the bytes read are the body of the request. *)
Ltac prove_op_cur :=
  apply op_sound_cur; repeat decode_step; decoded;
  apply request_of_exact; simpl in *; subst; rewrite ?app_nil_r, <- ?app_assoc; try done;
  split_and?; done.

Lemma decode_op_sound : op_sound OP_OP decode_op_request.
Proof. prove_op_cur. Qed.
Lemma decode_lb_execute_sound : op_sound OP_LB_EXECUTE decode_lb_execute_request.
Proof. prove_op_cur. Qed.
Lemma decode_lb_query_sound : op_sound OP_LB_QUERY decode_lb_query_request.
Proof. prove_op_cur. Qed.
Lemma decode_tk_execute_sound : op_sound OP_TK_EXECUTE decode_tk_execute_request.
Proof. prove_op_cur. Qed.
Lemma decode_tk_query_sound : op_sound OP_TK_QUERY decode_tk_query_request.
Proof. prove_op_cur. Qed.

Lemma decode_request_op_sound t : op_sound t (decode_request_op t).
Proof.
  intros bs. unfold decode_request_op.
  repeat lazymatch goal with
  | |- context [if t =? ?c then _ else _] => destruct (Z.eqb_spec t c) as [->|_]
  end; [..|done].
  - apply decode_op_sound.
  - apply decode_acquire_sound.
  - by apply decode_id_request_sound.
  - by apply decode_id_request_sound.
  - apply decode_index_update_sound.
  - apply decode_rk_query_sound.
  - apply decode_lb_execute_sound.
  - apply decode_lb_query_sound.
  - apply decode_tk_execute_sound.
  - apply decode_tk_query_sound.
  - by apply decode_id_request_sound.
  - revert bs. prove_op_cur.
  - revert bs. prove_op_cur.
  - revert bs. prove_op_cur.
  - by apply decode_bare_sound.
  - apply decode_pause_sound.
  - by apply decode_bare_sound.
  - by apply decode_bare_sound.
  - revert bs. apply op_sound_cur. eapply decodes_bind; [apply decodes_storage_members|].
    intros b ms _. apply decodes_ret. intros r [-> Hok]. split; [done|]. split; [done|].
    exists r. rewrite app_nil_r. eauto.
Qed.

(** No payload makes the request decoder panic, and it accepts only
    encodings of well-formed requests: two requests never share a frame, and
    nothing may trail a request except after [InstallStorageRing], whose
    decoder ignores the rest. *)
Theorem request_decode_safe (payload : bytes) :
  match decode_request payload with
  | Ok r => request_ok r /\ exists tail, payload = encode_request r ++ tail /\
      (tail = [] \/ exists ms, r = Request.InstallStorageRing ms)
  | Err _ => forall r, request_ok r -> payload <> encode_request r
  | Panic => False
  end.
Proof.
  destruct (decode_request payload) as [r| |] eqn:E.
  - unfold decode_request, check_version in E. destruct payload as [|v [|tag bs]]; simpl in E; [done| |].
    { by destruct (byte_val v =? PROTOCOL_VERSION). }
    destruct (Z.eqb_spec (byte_val v) PROTOCOL_VERSION) as [Ev|]; [|done]. rsimpl in E.
    rewrite bool_decide_eq_false_2, index_0 in E by done. rsimpl in E.
    pose proof (decode_request_op_sound (byte_val tag) bs) as HS. rewrite u8_byte_val, E in HS.
    destruct HS as (Hok & Ht & tail & Hb & Htail). split; [done|]. exists tail. split; [|done].
    unfold encode_request. destruct (request_body r) as [t body]. simpl in *. subst.
    by rewrite u8_byte_val, (byte_val_eq _ _ Ev).
  - intros r Hok ->. pose proof (decode_request_op_complete r Hok) as H.
    revert E. unfold decode_request, encode_request.
    assert (0 <= (request_body r).1 < 256) as Ht by (by destruct r).
    destruct (request_body r) as [t body]. simpl in *.
    unfold check_version. rewrite byte_val_u8_small by done. rewrite Z.eqb_refl. rsimpl.
    rewrite bool_decide_eq_false_2, index_0 by done. rsimpl. rewrite byte_val_u8_small by done.
    by rewrite H.
  - unfold decode_request, check_version in E. destruct payload as [|v [|tag bs]]; simpl in E; [done| |].
    { by destruct (byte_val v =? PROTOCOL_VERSION). }
    destruct (byte_val v =? PROTOCOL_VERSION); [|done]. rsimpl in E.
    rewrite bool_decide_eq_false_2, index_0 in E by done. rsimpl in E.
    pose proof (decode_request_op_sound (byte_val tag) bs) as HS. by rewrite u8_byte_val, E in HS.
Qed.
