(* ===== verification/Responses.v ===== *)
(** * seisin-protocol: responses, peer-link envelopes and frames

    Models the response codec, the envelope and the length-prefixed frame of
    [crates/seisin-protocol/src/lib.rs]. A frame reader is modelled on the
    bytes the stream still holds: [read_exact] fails when they run out. *)

From S2P Require Import Prelude Core Codec Protocol Messages.

Module Response.
Inductive t :=
| Redirect (address : bytes)
| OpResult (payload : bytes)
| OpError (message : bytes)
| Granted
| Released
| IndexUpdateResult (violation : option bytes)
| RkQueryResult (entries : list (bytes * DatumId))
| LbResult (result : Protocol.LbResult)
| TkResult (result : Protocol.TkResult)
| Exists (exists_ : bool)
| FkPendingResult (entries : list (DatumId * DatumId))
| ExtentResult (total : Z) (pks : list DatumId)
| ClusterConfig (members : list StorageMember)
| Ack.
End Response.

Definition RESP_REDIRECT : Z := 1.
Definition RESP_OP_RESULT : Z := 2.
Definition RESP_OP_ERROR : Z := 3.
Definition RESP_GRANTED : Z := 4.
Definition RESP_RELEASED : Z := 5.
Definition RESP_INDEX_UPDATE_RESULT : Z := 6.
Definition RESP_RK_QUERY_RESULT : Z := 7.
Definition RESP_LB_RESULT : Z := 8.
Definition RESP_TK_RESULT : Z := 9.
Definition RESP_EXISTS : Z := 10.
Definition RESP_FK_PENDING_RESULT : Z := 11.
Definition RESP_EXTENT_RESULT : Z := 12.
Definition RESP_CLUSTER_CONFIG : Z := 13.
Definition RESP_ACK : Z := 14.

Definition response_body (resp : Response.t) : Z * bytes :=
  match resp with
  | Response.Redirect address => (RESP_REDIRECT, to_le 4 (wrap 32 (zlen address)) ++ address)
  | Response.OpResult payload => (RESP_OP_RESULT, payload)
  | Response.OpError message => (RESP_OP_ERROR, message)
  | Response.Granted => (RESP_GRANTED, [])
  | Response.Released => (RESP_RELEASED, [])
  | Response.IndexUpdateResult None => (RESP_INDEX_UPDATE_RESULT, [u8 0])
  | Response.IndexUpdateResult (Some message) => (RESP_INDEX_UPDATE_RESULT, u8 1 :: message)
  | Response.RkQueryResult entries => (RESP_RK_QUERY_RESULT, encode_rk_entries entries)
  | Response.LbResult result => (RESP_LB_RESULT, encode_lb_result result)
  | Response.TkResult result => (RESP_TK_RESULT, encode_tk_result result)
  | Response.Exists e => (RESP_EXISTS, [put_bool e])
  | Response.FkPendingResult entries => (RESP_FK_PENDING_RESULT, encode_fk_entries entries)
  | Response.ExtentResult total pks => (RESP_EXTENT_RESULT, encode_extent_result total pks)
  | Response.ClusterConfig members => (RESP_CLUSTER_CONFIG, put_storage_members members)
  | Response.Ack => (RESP_ACK, [])
  end.

Definition encode_response (resp : Response.t) : bytes :=
  let '(tag, body) := response_body resp in u8 PROTOCOL_VERSION :: u8 tag :: body.

Definition decode_redirect (buf : bytes) : res Response.t :=
  if zlen buf <? 5 then Err "redirect response too short for an address length" else
  l ← slice buf 1 5;
  let addr_len := from_le l in
  if negb (zlen buf =? 5 + addr_len) then Err "redirect response length mismatch" else
  a ← slice buf 5 (zlen buf);
  address ← from_utf8 a;
  Ok (Response.Redirect address).

Definition take_violation : cur (option bytes) :=
  flag ← take_byte "index update result too short for its flag byte";
  if byte_val flag =? 0 then mret None
  else if byte_val flag =? 1 then v ← take_rest; m ← cur_lift (from_utf8 v); mret (Some m)
  else cur_err "unknown index update result flag".

Definition decode_exists (buf : bytes) : res Response.t :=
  if negb (zlen buf =? 2) then Err "exists response has the wrong length" else
  flag ← index buf 1;
  if byte_val flag =? 0 then Ok (Response.Exists false)
  else if byte_val flag =? 1 then Ok (Response.Exists true)
  else Err "unknown exists flag".

Definition decode_response_op (tag : Z) (buf : bytes) : res Response.t :=
  if tag =? RESP_REDIRECT then decode_redirect buf
  else if tag =? RESP_OP_RESULT then run_cur (payload ← take_rest; mret (Response.OpResult payload)) buf 1
  else if tag =? RESP_OP_ERROR then
    run_cur (v ← take_rest; message ← cur_lift (from_utf8 v); mret (Response.OpError message)) buf 1
  else if tag =? RESP_GRANTED then Ok Response.Granted
  else if tag =? RESP_RELEASED then Ok Response.Released
  else if tag =? RESP_INDEX_UPDATE_RESULT then
    run_cur (violation ← take_violation; mret (Response.IndexUpdateResult violation)) buf 1
  else if tag =? RESP_RK_QUERY_RESULT then
    run_cur (entries ← cur_sub decode_rk_entries; mret (Response.RkQueryResult entries)) buf 1
  else if tag =? RESP_LB_RESULT then
    run_cur (result ← cur_sub decode_lb_result; mret (Response.LbResult result)) buf 1
  else if tag =? RESP_TK_RESULT then
    run_cur (result ← cur_sub decode_tk_result; mret (Response.TkResult result)) buf 1
  else if tag =? RESP_EXISTS then decode_exists buf
  else if tag =? RESP_FK_PENDING_RESULT then
    run_cur (entries ← cur_sub decode_fk_entries; mret (Response.FkPendingResult entries)) buf 1
  else if tag =? RESP_EXTENT_RESULT then
    run_cur (r ← cur_sub decode_extent_result; mret (Response.ExtentResult r.1 r.2)) buf 1
  else if tag =? RESP_CLUSTER_CONFIG then
    run_cur (members ← take_storage_members; mret (Response.ClusterConfig members)) buf 1
  else if tag =? RESP_ACK then Ok Response.Ack
  else Err "unknown response opcode".

Definition decode_response (payload : bytes) : res Response.t :=
  buf ← check_version PROTOCOL_VERSION payload;
  if bool_decide (buf = []) then Err "empty response payload" else
  tag ← index buf 0;
  decode_response_op (byte_val tag) buf.

Definition response_ok (resp : Response.t) : Prop :=
  match resp with
  | Response.Redirect address => string_ok address
  | Response.OpError message => utf8_valid message = true
  | Response.IndexUpdateResult violation => opt_ok (λ m, utf8_valid m = true) violation
  | Response.RkQueryResult entries => list_ok rk_entry_ok entries
  | Response.LbResult result => lb_result_ok result
  | Response.TkResult result => list_ok tk_span_ok (tr_spans result)
  | Response.FkPendingResult entries => list_ok fk_entry_ok entries
  | Response.ExtentResult total pks => u64_ok total /\ list_ok datum_ok pks
  | Response.ClusterConfig members => list_ok storage_member_ok members
  | _ => True
  end.

(** The responses whose decoder does not look past what it needs. *)
Definition lax_response (resp : Response.t) : Prop :=
  match resp with
  | Response.Granted | Response.Released | Response.Ack
  | Response.IndexUpdateResult None | Response.ClusterConfig _ => True
  | _ => False
  end.

(** ** Envelopes *)

Inductive EnvelopeKind := KindRequest | KindResponse.

Record Envelope := mkEnvelope {
  correlation_id : Z;
  kind : EnvelopeKind;
  target_thread : ThreadId;
  body : bytes
}.

Definition ENVELOPE_KIND_REQUEST : Z := 0.
Definition ENVELOPE_KIND_RESPONSE : Z := 1.

Definition kind_tag (k : EnvelopeKind) : Z :=
  match k with KindRequest => ENVELOPE_KIND_REQUEST | KindResponse => ENVELOPE_KIND_RESPONSE end.

Definition encode_envelope (env : Envelope) : bytes :=
  to_le 8 (correlation_id env) ++ [u8 (kind_tag (kind env))] ++ to_le 4 (target_thread env) ++ body env.

Definition decode_envelope (buf : bytes) : res Envelope :=
  if zlen buf <? 13 then Err "envelope too short for its header" else
  correlation_id ← slice buf 0 8;
  tag ← index buf 8;
  kind ← (if byte_val tag =? ENVELOPE_KIND_REQUEST then Ok KindRequest
          else if byte_val tag =? ENVELOPE_KIND_RESPONSE then Ok KindResponse
          else Err "invalid envelope kind tag");
  target_thread ← slice buf 9 13;
  body ← slice buf 13 (zlen buf);
  Ok (mkEnvelope (from_le correlation_id) kind (from_le target_thread) body).

Definition envelope_ok (env : Envelope) : Prop :=
  u64_ok (correlation_id env) /\ u32_ok (target_thread env).

(** ** Frames *)

Definition MAX_FRAME_LEN : Z := 64 * 1024 * 1024.

(** [write_frame]: the bytes appended to the stream. *)
Definition write_frame (payload : bytes) : res bytes :=
  if 2 ^ 32 <=? zlen payload then Err "payload too large for a u32 frame length"
  else Ok (to_le 4 (zlen payload) ++ payload).

(** [read_exact]: the first [n] bytes of the stream, or an end of file. *)
Definition read_exact (n : Z) (stream : bytes) : res (bytes * bytes) :=
  if zlen stream <? n then Err "failed to fill whole buffer"
  else Ok (take (Z.to_nat n) stream, drop (Z.to_nat n) stream).

Definition read_frame (stream : bytes) : res (bytes * bytes) :=
  '(len_buf, rest) ← read_exact 4 stream;
  let len := from_le len_buf in
  if MAX_FRAME_LEN <? len then Err "frame length exceeds MAX_FRAME_LEN"
  else read_exact len rest.

(** ** Laws *)

Lemma parses_violation_none : parses take_violation [u8 0] None.
Proof.
  unfold take_violation. eapply parses_bind_nil; [apply parses_take_byte|].
  rewrite byte_val_u8_small by done. apply parses_ret.
Qed.
Lemma parses_violation_some m :
  utf8_valid m = true -> parses_last take_violation (u8 1 :: m) (Some m).
Proof.
  intros H. unfold take_violation. change (u8 1 :: m) with ([u8 1] ++ m).
  eapply parses_last_bind; [apply parses_take_byte|]. rewrite byte_val_u8_small by done. simpl.
  eapply parses_last_bind_end; [apply parses_last_take_rest|].
  eapply parses_last_bind_nil; [by apply parses_from_utf8|]. apply parses_parses_last, parses_ret.
Qed.
#[local] Hint Resolve parses_violation_none parses_violation_some : codec.

Lemma decode_redirect_complete t address :
  string_ok address ->
  decode_redirect (u8 t :: to_le 4 (wrap 32 (zlen address)) ++ address) = Ok (Response.Redirect address).
Proof.
  intros [Ha Hu]. unfold decode_redirect. pose proof (zlen_nonneg address). rewrite wrap_small by done.
  autorewrite with zlen. rewrite (proj2 (Z.ltb_ge _ _)) by lia. fixed_read. rsimpl.
  rewrite from_le_to_le by done. rewrite (proj2 (Z.eqb_eq _ _)) by lia. cbn [negb]. rsimpl.
  by rewrite from_utf8_ok.
Qed.

Lemma decode_exists_complete t b : decode_exists [u8 t; put_bool b] = Ok (Response.Exists b).
Proof.
  unfold decode_exists, put_bool. rewrite index_cons, index_0 by lia.
  destruct b; rsimpl; by rewrite byte_val_u8_small.
Qed.

Lemma decode_response_op_complete resp :
  response_ok resp ->
  decode_response_op (response_body resp).1 (u8 (response_body resp).1 :: (response_body resp).2) = Ok resp.
Proof.
  destruct resp as [| | | | |[m|]| | | | | | | |]; simpl; intros Hok; destruct_and?;
    unfold decode_response_op; eval_tags;
    lazymatch goal with
    | |- decode_redirect _ = _ => by apply decode_redirect_complete
    | |- decode_exists _ = _ => apply decode_exists_complete
    | |- Ok _ = _ => reflexivity
    | |- run_cur _ (u8 ?t :: ?bs) 1 = Ok _ => apply (run_cur_parses _ [u8 t] bs); parse
    end.
Qed.

(** Every response survives the wire. *)
Theorem response_roundtrip (resp : Response.t) :
  response_ok resp -> decode_response (encode_response resp) = Ok resp.
Proof.
  intros Hok. pose proof (decode_response_op_complete resp Hok) as H.
  assert (0 <= (response_body resp).1 < 256) as Ht by (by destruct resp as [| | | | |[m|]| | | | | | | |]).
  unfold decode_response, encode_response. destruct (response_body resp) as [t body]. simpl in *.
  unfold check_version. rewrite byte_val_u8_small by done. rewrite Z.eqb_refl. rsimpl.
  rewrite bool_decide_eq_false_2, index_0 by done. rsimpl. by rewrite byte_val_u8_small.
Qed.

Lemma response_roundtrip_witness :
  let resp := Response.FkPendingResult [(1, 2); (3, 4)] in
  response_ok resp /\ decode_response (encode_response resp) = Ok resp.
Proof.
  intros resp. assert (response_ok resp) as H.
  { unfold resp, response_ok, list_ok. split_and!; repeat constructor; done. }
  split; [exact H|]. by apply (response_roundtrip resp).
Defined.

(** *** Soundness *)

Definition response_of (t : Z) (bs : bytes) (r : Response.t) : Prop :=
  response_ok r /\ (response_body r).1 = t /\
  exists tail, bs = (response_body r).2 ++ tail /\ (tail = [] \/ lax_response r).

Definition resp_sound (t : Z) (dec : bytes -> res Response.t) : Prop :=
  forall bs, match dec (u8 t :: bs) with Ok r => response_of t bs r | Err _ => True | Panic => False end.

Lemma response_of_exact t bs r : response_ok r -> response_body r = (t, bs) -> response_of t bs r.
Proof.
  intros Hok HE. split; [done|]. rewrite HE. split; [done|]. exists []. rewrite app_nil_r. auto.
Qed.

Lemma response_of_lax t bs tail r :
  response_ok r -> response_body r = (t, bs) -> lax_response r -> response_of t (bs ++ tail) r.
Proof. intros Hok HE HL. split; [done|]. rewrite HE. split; [done|]. exists tail. auto. Qed.

Lemma resp_sound_cur t d :
  decodes d (λ b r x, response_of t (b ++ r) x) -> resp_sound t (λ buf, run_cur d buf 1).
Proof.
  intros Hd bs. pose proof (zlen_nonneg bs).
  pose proof (decodes_run d _ (u8 t :: bs) 1 Hd ltac:(rewrite zlen_cons; lia)) as HR.
  destruct (run_cur d _ 1) as [x| |]; [|done..]. destruct HR as (b & r & E & HP).
  change (take (Z.to_nat 1) (u8 t :: bs)) with [u8 t] in E. injection E as ->. done.
Qed.

Definition violation_bytes (v : option bytes) : bytes :=
  match v with None => [u8 0] | Some m => u8 1 :: m end.

Lemma decodes_violation :
  decodes take_violation (λ b r v, b = violation_bytes v /\ opt_ok (λ m, utf8_valid m = true) v /\
    (v = None \/ r = [])).
Proof.
  unfold take_violation. eapply decodes_bind; [apply decodes_take_byte|]. intros b flag _.
  destruct (Z.eqb_spec (byte_val flag) 0) as [E%byte_val_eq|_];
    [|destruct (Z.eqb_spec (byte_val flag) 1) as [E%byte_val_eq|_]; [|apply decodes_err]].
  - apply decodes_ret. intros r ->. subst. rewrite app_nil_r. split_and!; [done..|by left].
  - eapply decodes_bind; [apply decodes_take_rest|]. intros b' v _.
    eapply decodes_bind; [apply decodes_from_utf8|]. intros b'' m _. apply decodes_ret.
    intros r (-> & -> & Hu) [-> Hr] ->. simpl in *. subst. rewrite app_nil_r. auto.
Qed.

Lemma decode_redirect_sound : resp_sound RESP_REDIRECT decode_redirect.
Proof.
  intros bs. unfold decode_redirect. rewrite zlen_cons. set (buf := u8 RESP_REDIRECT :: bs).
  assert (zlen buf = 1 + zlen bs) as Hl by (unfold buf; rewrite zlen_cons; lia).
  destruct (Z.ltb_spec (1 + zlen bs) 5); [done|]. rewrite !slice_ok by lia. rsimpl.
  destruct (to_le_sub 4 buf 1 5) as [C1 C2]; [lia..|]. set (n := from_le (sub_bytes buf 1 5)) in *.
  destruct (Z.eqb_spec (1 + zlen bs) (5 + n)) as [E|]; [|done]. cbn [negb].
  pose proof (from_utf8_spec (sub_bytes buf 5 (1 + zlen bs))) as HU.
  destruct (from_utf8 _) as [a| |]; [|done..]. destruct HU as [-> HU]. rsimpl.
  assert (zlen (sub_bytes buf 5 (1 + zlen bs)) = n) as Hn by (rewrite sub_bytes_len; lia).
  apply response_of_exact; simpl; [unfold string_ok, field_ok; by rewrite Hn|].
  rewrite Hn, wrap_small, C1 by done. f_equal. apply op_sound_slice; lia.
Qed.

Lemma decode_exists_sound : resp_sound RESP_EXISTS decode_exists.
Proof.
  intros bs. unfold decode_exists. rewrite zlen_cons.
  destruct (Z.eqb_spec (1 + zlen bs) 2) as [E|]; [|done]. cbn [negb].
  destruct bs as [|flag [|]]; rewrite ?zlen_cons, ?zlen_nil in E; try (pose proof (zlen_nonneg l)); try lia.
  rewrite index_cons, index_0 by lia. rsimpl.
  destruct (Z.eqb_spec (byte_val flag) 0) as [Ef%byte_val_eq|_];
    [|destruct (Z.eqb_spec (byte_val flag) 1) as [Ef%byte_val_eq|_]; [|done]];
    subst; by apply response_of_exact.
Qed.

(** Closes the cursor branches of the exact responses. *)
Ltac prove_resp_cur :=
  apply resp_sound_cur; repeat decode_step; decoded;
  apply response_of_exact; simpl in *; subst; rewrite ?app_nil_r, <- ?app_assoc; try done;
  split_and?; done.

Lemma decode_response_op_sound t : resp_sound t (decode_response_op t).
Proof.
  intros bs. unfold decode_response_op.
  repeat lazymatch goal with
  | |- context [if t =? ?c then _ else _] => destruct (Z.eqb_spec t c) as [->|_]
  end; [..|done].
  - apply decode_redirect_sound.
  - revert bs. prove_resp_cur.
  - revert bs. prove_resp_cur.
  - by apply (response_of_lax _ []).
  - by apply (response_of_lax _ []).
  - revert bs. apply resp_sound_cur. eapply decodes_bind; [apply decodes_violation|].
    intros b v _. apply decodes_ret. intros r (-> & Hok & Hr). rewrite app_nil_r in *. simpl in Hr.
    destruct v as [m|]; [|by apply response_of_lax].
    destruct Hr as [|Hr]; [done|]. subst. rewrite app_nil_r. by apply response_of_exact.
  - revert bs. prove_resp_cur.
  - revert bs. prove_resp_cur.
  - revert bs. prove_resp_cur.
  - apply decode_exists_sound.
  - revert bs. prove_resp_cur.
  - revert bs. prove_resp_cur.
  - revert bs. apply resp_sound_cur. eapply decodes_bind; [apply decodes_storage_members|].
    intros b ms _. apply decodes_ret. intros r [-> Hok]. rewrite app_nil_r. by apply response_of_lax.
  - by apply (response_of_lax _ []).
Qed.

(** No payload makes the response decoder panic, and every response it
    accepts is well-formed and was encoded at the front of the payload; bytes
    may trail only the replies whose decoder stops early. *)
Theorem response_decode_safe (payload : bytes) :
  match decode_response payload with
  | Ok r => response_ok r /\ exists tail, payload = encode_response r ++ tail /\
      (tail = [] \/ lax_response r)
  | Err _ => True
  | Panic => False
  end.
Proof.
  unfold decode_response, check_version. destruct payload as [|v [|tag bs]]; simpl; [done| |].
  { by destruct (byte_val v =? PROTOCOL_VERSION). }
  destruct (Z.eqb_spec (byte_val v) PROTOCOL_VERSION) as [Ev%byte_val_eq|]; [|done]. rsimpl.
  rewrite bool_decide_eq_false_2, index_0 by done. rsimpl.
  pose proof (decode_response_op_sound (byte_val tag) bs) as HS. rewrite u8_byte_val in HS.
  destruct (decode_response_op _ _) as [r| |]; [|done..].
  destruct HS as (Hok & Ht & tail & Hb & Htail). split; [done|]. exists tail. split; [|done].
  unfold encode_response. destruct (response_body r) as [t body]. simpl in *. subst.
  by rewrite u8_byte_val.
Qed.

(** *** Envelopes *)

Lemma decode_encode_envelope env : envelope_ok env -> decode_envelope (encode_envelope env) = Ok env.
Proof.
  intros [Hc Ht]. destruct env as [c k t b]. simpl in *. unfold decode_envelope, encode_envelope. simpl.
  pose proof (zlen_nonneg b). autorewrite with zlen. rewrite (proj2 (Z.ltb_ge _ _)) by lia.
  fixed_read. rsimpl. rewrite !from_le_to_le by done.
  rewrite byte_val_u8_small by (by destruct k). by destruct k.
Qed.

Lemma decode_envelope_exact :
  decodes_all decode_envelope (λ buf env, buf = encode_envelope env /\ envelope_ok env).
Proof.
  intros buf. unfold decode_envelope. destruct (Z.ltb_spec (zlen buf) 13); [done|].
  rewrite !slice_ok by lia. destruct (index_ok buf 8 ltac:(lia)) as (tag & Et & _). rewrite Et. rsimpl.
  destruct (to_le_sub 8 buf 0 8) as [C1 C2]; [lia..|]. destruct (to_le_sub 4 buf 9 13) as [D1 D2]; [lia..|].
  assert (forall k, byte_val tag = kind_tag k ->
    buf = encode_envelope (mkEnvelope (from_le (sub_bytes buf 0 8)) k (from_le (sub_bytes buf 9 13))
            (sub_bytes buf 13 (zlen buf)))) as HE.
  { intros k Hk%byte_val_eq. unfold encode_envelope. simpl. rewrite C1, D1, <- Hk.
    apply index_sub in Et. change (8 + 1) with 9 in Et.
    change (tag :: sub_bytes buf 9 13 ++ ?x) with ([tag] ++ sub_bytes buf 9 13 ++ x). rewrite <- Et.
    rewrite <- !sub_bytes_split by lia. by rewrite sub_bytes_full. }
  destruct (Z.eqb_spec (byte_val tag) ENVELOPE_KIND_REQUEST) as [E|_]; rsimpl; [by split; [apply HE|]|].
  destruct (Z.eqb_spec (byte_val tag) ENVELOPE_KIND_RESPONSE) as [E|_]; rsimpl; [by split; [apply HE|]|].
  done.
Qed.

(** Envelopes round-trip, and the envelope decoder accepts nothing but
    encodings of envelopes and never panics, whatever bytes a peer sends. *)
Theorem envelope_wire (env : Envelope) (buf : bytes) :
  (envelope_ok env -> decode_envelope (encode_envelope env) = Ok env) /\
  match decode_envelope buf with
  | Ok e => buf = encode_envelope e /\ envelope_ok e
  | Err _ => True
  | Panic => False
  end.
Proof. split; [apply decode_encode_envelope|apply decode_envelope_exact]. Qed.

(** *** Frames *)

Lemma read_exact_app bs rest : read_exact (zlen bs) (bs ++ rest) = Ok (bs, rest).
Proof.
  unfold read_exact. pose proof (zlen_nonneg rest). rewrite zlen_app, (proj2 (Z.ltb_ge _ _)) by lia.
  unfold zlen. by rewrite Nat2Z.id, take_app_length, drop_app_length.
Qed.

Lemma read_frame_app payload rest :
  zlen payload < 2 ^ 32 ->
  read_frame (to_le 4 (zlen payload) ++ payload ++ rest) =
    if MAX_FRAME_LEN <? zlen payload then Err "frame length exceeds MAX_FRAME_LEN"
    else Ok (payload, rest).
Proof.
  intros Hl. pose proof (zlen_nonneg payload). unfold read_frame.
  pose proof (read_exact_app (to_le 4 (zlen payload)) (payload ++ rest)) as HR.
  rewrite zlen_to_le in HR. change (Z.of_nat 4) with 4 in HR. rewrite HR. rsimpl.
  rewrite from_le_to_le by (unfold uint_ok; lia). case_match; [done|]. apply read_exact_app.
Qed.

(** Reading every frame of a stream that holds exactly those frames. *)
Fixpoint read_frames (n : nat) (stream : bytes) : res (list bytes * bytes) :=
  match n with
  | O => Ok ([], stream)
  | S n =>
      '(payload, rest) ← read_frame stream;
      '(payloads, rest) ← read_frames n rest;
      Ok (payload :: payloads, rest)
  end.

Fixpoint write_frames (payloads : list bytes) : res bytes :=
  match payloads with
  | [] => Ok []
  | p :: ps => f ← write_frame p; fs ← write_frames ps; Ok (f ++ fs)
  end.

(** Frames delimit payloads: any sequence of payloads of at most
    [MAX_FRAME_LEN] bytes written back to back is read back in order, whatever
    follows on the stream. *)
Theorem frames_roundtrip (payloads : list bytes) (rest : bytes) :
  Forall (λ p, zlen p <= MAX_FRAME_LEN) payloads ->
  exists stream, write_frames payloads = Ok stream /\
    read_frames (length payloads) (stream ++ rest) = Ok (payloads, rest).
Proof.
  induction 1 as [|p ps Hp HF (stream & Hw & Hr)]; [by exists []|].
  unfold MAX_FRAME_LEN in Hp. cbn [write_frames length read_frames]. rewrite Hw. unfold write_frame.
  rewrite (proj2 (Z.leb_gt _ _)) by lia. rsimpl. eexists; split; [done|].
  rewrite <- !app_assoc, read_frame_app by lia. unfold MAX_FRAME_LEN.
  rewrite (proj2 (Z.ltb_ge _ _)) by lia. rsimpl. by rewrite Hr.
Qed.

Lemma frames_roundtrip_witness :
  exists stream, write_frames [[u8 1]; []; [u8 2; u8 3]] = Ok stream /\
    read_frames 3 (stream ++ [u8 9]) = Ok ([[u8 1]; []; [u8 2; u8 3]], [u8 9]).
Proof. apply (frames_roundtrip [[u8 1]; []; [u8 2; u8 3]] [u8 9]). repeat constructor; done. Defined.

(** The two ends of a frame disagree between [MAX_FRAME_LEN] and 4 GiB:
    [write_frame] sends such a payload and [read_frame] rejects it, so a value
    that large can be written to the wire but never received. *)
Theorem oversized_frame_is_written_but_never_read (payload rest : bytes) :
  MAX_FRAME_LEN < zlen payload < 2 ^ 32 ->
  exists f, write_frame payload = Ok f /\
    read_frame (f ++ rest) = Err "frame length exceeds MAX_FRAME_LEN".
Proof.
  intros [H1 H2]. unfold write_frame. rewrite (proj2 (Z.leb_gt _ _)) by lia.
  eexists; split; [done|]. rewrite <- app_assoc, read_frame_app by lia.
  by rewrite (proj2 (Z.ltb_lt _ _)).
Qed.

Lemma zlen_repeat_big : MAX_FRAME_LEN < zlen (replicate (Z.to_nat (MAX_FRAME_LEN + 1)) (u8 0)) < 2 ^ 32.
Proof. rewrite zlen_replicate, Z2Nat.id by done. done. Qed.

Lemma oversized_frame_is_written_but_never_read_witness :
  exists f, write_frame (replicate (Z.to_nat (MAX_FRAME_LEN + 1)) (u8 0)) = Ok f /\
    read_frame (f ++ []) = Err "frame length exceeds MAX_FRAME_LEN".
Proof. apply oversized_frame_is_written_but_never_read, zlen_repeat_big. Defined.
