(* ===== verification/StoreWire.v ===== *)
(** * seisin-protocol: the compute to storage wire protocol

    Models [crates/seisin-protocol/src/store_wire.rs] with the cursor helpers
    of [Codec] (the file's own [take_id], [take_bytes], ... are the same code
    as those of [lib.rs]) and the delta codec of [Delta]. *)

From S2P Require Import Prelude Core Codec Delta.

Definition STORE_PROTOCOL_VERSION : Z := 4.

Module StoreRequest.
Inductive t :=
| Put (id : DatumId) (content : bytes) (n : Z)
| Patch (id : DatumId) (delta : Delta) (n : Z)
| Get (id : DatumId)
| Delete (id : DatumId)
| ListIds (after : option DatumId) (limit : Z)
| Transfer (transfer_id : DatumId) (ids : list DatumId) (dest_address : bytes)
| TransferStatus (transfer_id : DatumId)
| FinishTransfer (transfer_id : DatumId)
| Retire (transfer_id : DatumId)
| Identify
| CollectionCreate (collection_id : DatumId) (key_size value_size : Z)
| CollectionInsert (collection_id : DatumId) (key value : bytes)
| CollectionRemove (collection_id : DatumId) (key : bytes)
| CollectionGet (collection_id : DatumId) (key : bytes)
| CollectionScanForward (collection_id : DatumId) (limit : Z)
| CollectionScanBackward (collection_id : DatumId) (limit : Z)
| CollectionSample (collection_id : DatumId) (k : Z)
| CollectionRankOfKey (collection_id : DatumId) (key : bytes)
| CollectionScanFromRank (collection_id : DatumId) (rank limit : Z)
| CollectionCount (collection_id : DatumId).
End StoreRequest.

Module StoreResponse.
Inductive t :=
| Ack
| NeedFull
| Value (content : option bytes)
| IdList (ids : list (DatumId * Z)) (done_ : bool)
| TransferProgress (copied dirty : Z) (done_ : bool)
| Identity (node_id : NodeId) (log_id : DatumId)
| Error (message : bytes)
| CollectionEntry (value : option bytes)
| CollectionEntries (entries : list (bytes * bytes))
| CollectionRank (rank : option Z)
| CollectionCount (total : Z).
End StoreResponse.

Definition REQ_PUT : Z := 1.
Definition REQ_PATCH : Z := 2.
Definition REQ_GET : Z := 3.
Definition REQ_DELETE : Z := 4.
Definition REQ_LIST_IDS : Z := 5.
Definition REQ_TRANSFER : Z := 6.
Definition REQ_TRANSFER_STATUS : Z := 7.
Definition REQ_FINISH_TRANSFER : Z := 8.
Definition REQ_RETIRE : Z := 9.
Definition REQ_IDENTIFY : Z := 10.
Definition REQ_COLLECTION_CREATE : Z := 11.
Definition REQ_COLLECTION_INSERT : Z := 12.
Definition REQ_COLLECTION_REMOVE : Z := 13.
Definition REQ_COLLECTION_GET : Z := 14.
Definition REQ_COLLECTION_SCAN_FORWARD : Z := 15.
Definition REQ_COLLECTION_SCAN_BACKWARD : Z := 16.
Definition REQ_COLLECTION_SAMPLE : Z := 17.
Definition REQ_COLLECTION_RANK_OF_KEY : Z := 18.
Definition REQ_COLLECTION_SCAN_FROM_RANK : Z := 19.
Definition REQ_COLLECTION_COUNT : Z := 20.

Definition RESP_ACK : Z := 1.
Definition RESP_NEED_FULL : Z := 2.
Definition RESP_VALUE : Z := 3.
Definition RESP_ID_LIST : Z := 4.
Definition RESP_TRANSFER_PROGRESS : Z := 5.
Definition RESP_IDENTITY : Z := 6.
Definition RESP_ERROR : Z := 7.
Definition RESP_COLLECTION_ENTRY : Z := 8.
Definition RESP_COLLECTION_ENTRIES : Z := 9.
Definition RESP_COLLECTION_RANK : Z := 10.
Definition RESP_COLLECTION_COUNT : Z := 11.

(** ** Requests *)

(** The tag and what follows it. *)
Definition store_request_body (req : StoreRequest.t) : Z * bytes :=
  match req with
  | StoreRequest.Put id content n => (REQ_PUT, put_id id ++ to_le 2 n ++ content)
  | StoreRequest.Patch id delta n => (REQ_PATCH, put_id id ++ to_le 2 n ++ encode_delta delta)
  | StoreRequest.Get id => (REQ_GET, put_id id)
  | StoreRequest.Delete id => (REQ_DELETE, put_id id)
  | StoreRequest.ListIds after limit => (REQ_LIST_IDS, put_opt put_id after ++ to_le 4 limit)
  | StoreRequest.Transfer transfer_id ids dest_address =>
      (REQ_TRANSFER, put_id transfer_id ++ put_id_list ids ++ put_bytes dest_address)
  | StoreRequest.TransferStatus transfer_id => (REQ_TRANSFER_STATUS, put_id transfer_id)
  | StoreRequest.FinishTransfer transfer_id => (REQ_FINISH_TRANSFER, put_id transfer_id)
  | StoreRequest.Retire transfer_id => (REQ_RETIRE, put_id transfer_id)
  | StoreRequest.Identify => (REQ_IDENTIFY, [])
  | StoreRequest.CollectionCreate collection_id key_size value_size =>
      (REQ_COLLECTION_CREATE, put_id collection_id ++ to_le 4 key_size ++ to_le 4 value_size)
  | StoreRequest.CollectionInsert collection_id key value =>
      (REQ_COLLECTION_INSERT, put_id collection_id ++ put_bytes key ++ put_bytes value)
  | StoreRequest.CollectionRemove collection_id key =>
      (REQ_COLLECTION_REMOVE, put_id collection_id ++ put_bytes key)
  | StoreRequest.CollectionGet collection_id key =>
      (REQ_COLLECTION_GET, put_id collection_id ++ put_bytes key)
  | StoreRequest.CollectionScanForward collection_id limit =>
      (REQ_COLLECTION_SCAN_FORWARD, put_id collection_id ++ to_le 4 limit)
  | StoreRequest.CollectionScanBackward collection_id limit =>
      (REQ_COLLECTION_SCAN_BACKWARD, put_id collection_id ++ to_le 4 limit)
  | StoreRequest.CollectionSample collection_id k =>
      (REQ_COLLECTION_SAMPLE, put_id collection_id ++ to_le 4 k)
  | StoreRequest.CollectionRankOfKey collection_id key =>
      (REQ_COLLECTION_RANK_OF_KEY, put_id collection_id ++ put_bytes key)
  | StoreRequest.CollectionScanFromRank collection_id rank limit =>
      (REQ_COLLECTION_SCAN_FROM_RANK, put_id collection_id ++ to_le 8 rank ++ to_le 4 limit)
  | StoreRequest.CollectionCount collection_id => (REQ_COLLECTION_COUNT, put_id collection_id)
  end.

Definition encode_store_request (req : StoreRequest.t) : bytes :=
  let '(tag, body) := store_request_body req in u8 STORE_PROTOCOL_VERSION :: u8 tag :: body.

(** The requests that are one id, and those that are an id and one field. *)
Definition take_one_id (what : string) (mk : DatumId -> StoreRequest.t) : cur StoreRequest.t :=
  ended what (id ← take_id; mret (mk id)).
Definition take_id_field {A} (what : string) (field : cur A) (mk : DatumId -> A -> StoreRequest.t)
    : cur StoreRequest.t :=
  ended what (id ← take_id; v ← field; mret (mk id v)).

(** The [match tag] of [decode_store_request], after the tag byte. *)
Definition take_store_request (tag : Z) : cur StoreRequest.t :=
  if tag =? REQ_PUT then
    id ← take_id; n ← take_u16; content ← take_rest; mret (StoreRequest.Put id content n)
  else if tag =? REQ_PATCH then
    id ← take_id; n ← take_u16; delta ← cur_sub decode_delta; mret (StoreRequest.Patch id delta n)
  else if tag =? REQ_GET then take_one_id "get" StoreRequest.Get
  else if tag =? REQ_DELETE then take_one_id "delete" StoreRequest.Delete
  else if tag =? REQ_LIST_IDS then
    ended "list ids" (
      after ← take_opt "list ids request truncated at the after flag" take_id;
      limit ← take_u32;
      mret (StoreRequest.ListIds after limit))
  else if tag =? REQ_TRANSFER then
    transfer_id ← take_id; ids ← take_id_list; dest_address ← take_string;
    mret (StoreRequest.Transfer transfer_id ids dest_address)
  else if tag =? REQ_TRANSFER_STATUS then take_one_id "transfer status" StoreRequest.TransferStatus
  else if tag =? REQ_FINISH_TRANSFER then take_one_id "finish transfer" StoreRequest.FinishTransfer
  else if tag =? REQ_RETIRE then take_one_id "retire" StoreRequest.Retire
  else if tag =? REQ_IDENTIFY then ended "identify" (mret StoreRequest.Identify)
  else if tag =? REQ_COLLECTION_CREATE then
    ended "collection create" (
      id ← take_id; key_size ← take_u32; value_size ← take_u32;
      mret (StoreRequest.CollectionCreate id key_size value_size))
  else if tag =? REQ_COLLECTION_INSERT then
    ended "collection insert" (
      id ← take_id; key ← take_bytes; value ← take_bytes;
      mret (StoreRequest.CollectionInsert id key value))
  else if tag =? REQ_COLLECTION_REMOVE then
    take_id_field "collection remove" take_bytes StoreRequest.CollectionRemove
  else if tag =? REQ_COLLECTION_GET then
    take_id_field "collection get" take_bytes StoreRequest.CollectionGet
  else if tag =? REQ_COLLECTION_SCAN_FORWARD then
    take_id_field "collection scan forward" take_u32 StoreRequest.CollectionScanForward
  else if tag =? REQ_COLLECTION_SCAN_BACKWARD then
    take_id_field "collection scan backward" take_u32 StoreRequest.CollectionScanBackward
  else if tag =? REQ_COLLECTION_SAMPLE then
    take_id_field "collection sample" take_u32 StoreRequest.CollectionSample
  else if tag =? REQ_COLLECTION_RANK_OF_KEY then
    take_id_field "collection rank of key" take_bytes StoreRequest.CollectionRankOfKey
  else if tag =? REQ_COLLECTION_SCAN_FROM_RANK then
    ended "collection scan from rank" (
      id ← take_id; rank ← take_u64; limit ← take_u32;
      mret (StoreRequest.CollectionScanFromRank id rank limit))
  else if tag =? REQ_COLLECTION_COUNT then take_one_id "collection count" StoreRequest.CollectionCount
  else cur_err "unknown store request tag".

Definition decode_store_request (payload : bytes) : res StoreRequest.t :=
  buf ← check_version STORE_PROTOCOL_VERSION payload;
  tagged "empty store request payload" take_store_request buf.

(** ** Responses *)

Definition put_id_n (e : DatumId * Z) : bytes := put_id e.1 ++ to_le 2 e.2.
Definition take_id_n : cur (DatumId * Z) := id ← take_id; n ← take_u16; mret (id, n).
Definition put_entry (e : bytes * bytes) : bytes := put_bytes e.1 ++ put_bytes e.2.
Definition take_entry : cur (bytes * bytes) := key ← take_bytes; value ← take_bytes; mret (key, value).

Definition store_response_body (resp : StoreResponse.t) : Z * bytes :=
  match resp with
  | StoreResponse.Ack => (RESP_ACK, [])
  | StoreResponse.NeedFull => (RESP_NEED_FULL, [])
  | StoreResponse.Value None => (RESP_VALUE, [u8 0])
  | StoreResponse.Value (Some content) => (RESP_VALUE, u8 1 :: content)
  | StoreResponse.IdList ids done_ => (RESP_ID_LIST, [put_bool done_] ++ put_list put_id_n ids)
  | StoreResponse.TransferProgress copied dirty done_ =>
      (RESP_TRANSFER_PROGRESS, to_le 8 copied ++ to_le 8 dirty ++ [put_bool done_])
  | StoreResponse.Identity node_id log_id => (RESP_IDENTITY, to_le 8 node_id ++ put_id log_id)
  | StoreResponse.Error message => (RESP_ERROR, message)
  | StoreResponse.CollectionEntry value => (RESP_COLLECTION_ENTRY, put_opt put_bytes value)
  | StoreResponse.CollectionEntries entries => (RESP_COLLECTION_ENTRIES, put_list put_entry entries)
  | StoreResponse.CollectionRank rank => (RESP_COLLECTION_RANK, put_opt (to_le 8) rank)
  | StoreResponse.CollectionCount total => (RESP_COLLECTION_COUNT, to_le 8 total)
  end.

Definition encode_store_response (resp : StoreResponse.t) : bytes :=
  let '(tag, body) := store_response_body resp in u8 STORE_PROTOCOL_VERSION :: u8 tag :: body.

(** [buf[offset] != 0] *)
Definition take_nonzero (msg : string) : cur bool :=
  b ← take_byte msg; mret (negb (byte_val b =? 0)).

Definition take_value : cur (option bytes) :=
  flag ← take_byte "store value response missing its presence flag";
  if byte_val flag =? 0 then mret None
  else if byte_val flag =? 1 then content ← take_rest; mret (Some content)
  else cur_err "unknown store value flag".

Definition take_store_response (tag : Z) : cur StoreResponse.t :=
  if tag =? RESP_ACK then mret StoreResponse.Ack
  else if tag =? RESP_NEED_FULL then mret StoreResponse.NeedFull
  else if tag =? RESP_VALUE then content ← take_value; mret (StoreResponse.Value content)
  else if tag =? RESP_ID_LIST then
    done_ ← take_nonzero "id list response truncated at the done flag";
    ids ← take_list take_id_n;
    mret (StoreResponse.IdList ids done_)
  else if tag =? RESP_TRANSFER_PROGRESS then
    copied ← take_u64; dirty ← take_u64;
    done_ ← take_nonzero "transfer progress truncated at the done flag";
    mret (StoreResponse.TransferProgress copied dirty done_)
  else if tag =? RESP_IDENTITY then
    node_id ← take_u64; log_id ← take_id; mret (StoreResponse.Identity node_id log_id)
  else if tag =? RESP_ERROR then
    v ← take_rest; message ← cur_lift (from_utf8 v); mret (StoreResponse.Error message)
  else if tag =? RESP_COLLECTION_ENTRY then
    ended "collection entry" (
      value ← take_opt "collection entry response missing its presence flag" take_bytes;
      mret (StoreResponse.CollectionEntry value))
  else if tag =? RESP_COLLECTION_ENTRIES then
    ended "collection entries" (
      entries ← take_list take_entry; mret (StoreResponse.CollectionEntries entries))
  else if tag =? RESP_COLLECTION_RANK then
    ended "collection rank" (
      rank ← take_opt "collection rank response missing its presence flag" take_u64;
      mret (StoreResponse.CollectionRank rank))
  else if tag =? RESP_COLLECTION_COUNT then
    ended "collection count" (total ← take_u64; mret (StoreResponse.CollectionCount total))
  else cur_err "unknown store response tag".

Definition decode_store_response (payload : bytes) : res StoreResponse.t :=
  buf ← check_version STORE_PROTOCOL_VERSION payload;
  tagged "empty store response payload" take_store_response buf.

(** ** Well-formedness *)

Definition store_request_ok (req : StoreRequest.t) : Prop :=
  match req with
  | StoreRequest.Put id _ n => datum_ok id /\ u16_ok n
  | StoreRequest.Patch id delta n => datum_ok id /\ delta_ok delta /\ u16_ok n
  | StoreRequest.Get id | StoreRequest.Delete id | StoreRequest.TransferStatus id
  | StoreRequest.FinishTransfer id | StoreRequest.Retire id | StoreRequest.CollectionCount id => datum_ok id
  | StoreRequest.ListIds after limit => opt_ok datum_ok after /\ u32_ok limit
  | StoreRequest.Transfer id ids dest => datum_ok id /\ list_ok datum_ok ids /\ string_ok dest
  | StoreRequest.Identify => True
  | StoreRequest.CollectionCreate id a b => datum_ok id /\ u32_ok a /\ u32_ok b
  | StoreRequest.CollectionInsert id k v => datum_ok id /\ field_ok k /\ field_ok v
  | StoreRequest.CollectionRemove id k | StoreRequest.CollectionGet id k
  | StoreRequest.CollectionRankOfKey id k => datum_ok id /\ field_ok k
  | StoreRequest.CollectionScanForward id n | StoreRequest.CollectionScanBackward id n
  | StoreRequest.CollectionSample id n => datum_ok id /\ u32_ok n
  | StoreRequest.CollectionScanFromRank id rank limit => datum_ok id /\ u64_ok rank /\ u32_ok limit
  end.

Definition id_n_ok (e : DatumId * Z) : Prop := datum_ok e.1 /\ u16_ok e.2.
Definition entry_ok (e : bytes * bytes) : Prop := field_ok e.1 /\ field_ok e.2.

Definition store_response_ok (resp : StoreResponse.t) : Prop :=
  match resp with
  | StoreResponse.Ack | StoreResponse.NeedFull | StoreResponse.Value _ => True
  | StoreResponse.IdList ids _ => list_ok id_n_ok ids
  | StoreResponse.TransferProgress a b _ => u64_ok a /\ u64_ok b
  | StoreResponse.Identity node_id log_id => u64_ok node_id /\ datum_ok log_id
  | StoreResponse.Error message => utf8_valid message = true
  | StoreResponse.CollectionEntry value => opt_ok field_ok value
  | StoreResponse.CollectionEntries entries => list_ok entry_ok entries
  | StoreResponse.CollectionRank rank => opt_ok u64_ok rank
  | StoreResponse.CollectionCount total => u64_ok total
  end.

(** ** Laws *)

#[export] Hint Extern 1 (decode_delta (encode_delta _) = Ok _) => apply decode_encode_delta : codec.
#[export] Hint Extern 1 (decodes_all decode_delta _) => apply decode_delta_exact : codec.

Lemma parses_one_id what mk id : datum_ok id -> parses_last (take_one_id what mk) (put_id id) (mk id).
Proof. intros H. apply parses_ended. parse. Qed.

Lemma parses_id_field {A} what (field : cur A) mk id bs v :
  datum_ok id -> parses field bs v -> parses_last (take_id_field what field mk) (put_id id ++ bs) (mk id v).
Proof.
  intros Hid Hf. apply parses_ended. eapply parses_bind; [by apply parses_take_id|].
  eapply parses_bind_nil; [exact Hf|]. apply parses_ret.
Qed.

Lemma store_request_complete req :
  store_request_ok req ->
  parses_last (take_store_request (store_request_body req).1) (store_request_body req).2 req.
Proof.
  destruct req; simpl; intros Hok; destruct_and?; unfold take_store_request; eval_tags;
    lazymatch goal with
    | |- parses_last (take_one_id _ _) _ _ => by apply parses_one_id
    | |- parses_last (take_id_field _ _ _) _ _ => apply parses_id_field; by eauto with codec
    | |- parses_last (ended _ _) _ _ => apply parses_ended; parse
    | |- _ => parse
    end.
Qed.

(** Every storage request survives the wire. *)
Theorem store_request_roundtrip (req : StoreRequest.t) :
  store_request_ok req -> decode_store_request (encode_store_request req) = Ok req.
Proof.
  intros Hok. pose proof (store_request_complete req Hok) as H.
  assert (0 <= (store_request_body req).1 < 256) as Ht by (by destruct req).
  unfold decode_store_request, encode_store_request, check_version.
  destruct (store_request_body req) as [t body]. simpl in *.
  rewrite byte_val_u8_small by done. rewrite Z.eqb_refl. rsimpl. by apply tagged_parses.
Qed.

Lemma store_request_roundtrip_witness :
  let req := StoreRequest.Transfer 9 [1; 2; 3] [u8 104; u8 111; u8 115; u8 116] in
  store_request_ok req /\ decode_store_request (encode_store_request req) = Ok req.
Proof.
  intros req. assert (store_request_ok req) as H.
  { unfold req, store_request_ok, list_ok, string_ok. split_and!; repeat constructor; done. }
  split; [exact H|]. by apply (store_request_roundtrip req).
Defined.

(** What the request decoder accepts after the tag [t]: the body of a
    well-formed request, to the end of the buffer except after [Transfer]. *)
Definition store_request_of (t : Z) (b r : bytes) (req : StoreRequest.t) : Prop :=
  store_request_ok req /\ store_request_body req = (t, b) /\
  (r = [] \/ exists id ids dest, req = StoreRequest.Transfer id ids dest).

Lemma decodes_one_id t what mk :
  (forall id, datum_ok id -> store_request_ok (mk id)) ->
  (forall id, store_request_body (mk id) = (t, put_id id)) ->
  decodes (take_one_id what mk) (store_request_of t).
Proof.
  intros Hok Hb. eapply (decodes_ended _ _ (λ b _ x, exists id, x = mk id /\ b = put_id id /\ datum_ok id)).
  - repeat decode_step. decoded. eexists; split_and!; [done|done|done].
  - intros b x (id & -> & -> & Hid). split_and!; [by apply Hok|apply Hb|by left].
Qed.

Lemma decodes_id_field {A} t what (field : cur A) (put : A -> bytes) (ok : A -> Prop) mk :
  decodes field (λ b _ v, b = put v /\ ok v) ->
  (forall id v, datum_ok id -> ok v -> store_request_ok (mk id v)) ->
  (forall id v, store_request_body (mk id v) = (t, put_id id ++ put v)) ->
  decodes (take_id_field what field mk) (store_request_of t).
Proof.
  intros Hf Hok Hb.
  eapply (decodes_ended _ _ (λ b _ x, exists id v, x = mk id v /\ b = put_id id ++ put v /\
    datum_ok id /\ ok v)).
  - eapply decodes_bind; [apply decodes_take_id|]. intros b id _.
    eapply decodes_bind; [exact Hf|]. intros b' v _. apply decodes_ret. intros r [-> Hv] [-> Hid].
    rewrite app_nil_r. eauto 10.
  - intros b x (id & v & -> & -> & Hid & Hv). split_and!; [by apply Hok|apply Hb|by left].
Qed.

Lemma decodes_ended_request t what d :
  decodes d (λ b _ x, store_request_ok x /\ store_request_body x = (t, b)) ->
  decodes (ended what d) (store_request_of t).
Proof.
  intros H. eapply decodes_ended; [exact H|]. intros b x [Hok Hb]. split_and!; [done..|by left].
Qed.

Ltac prove_store_request :=
  repeat decode_step; decoded; simpl in *; subst; rewrite ?app_nil_r; split_and?; try done; eauto.

Lemma store_request_sound t : decodes (take_store_request t) (store_request_of t).
Proof.
  unfold take_store_request.
  repeat lazymatch goal with
  | |- decodes (if t =? ?c then _ else _) _ => destruct (Z.eqb_spec t c) as [->|_]
  end; [..|apply decodes_err];
  lazymatch goal with
  | |- decodes (take_one_id _ _) _ => by apply decodes_one_id
  | |- decodes (take_id_field _ take_u32 _) _ => by eapply decodes_id_field; [apply decodes_take_u32|..]
  | |- decodes (take_id_field _ take_bytes _) _ => by eapply decodes_id_field; [apply decodes_take_bytes|..]
  | |- decodes (ended _ _) _ => apply decodes_ended_request; prove_store_request
  | |- _ => unfold store_request_of; prove_store_request
  end.
Qed.

(** A storage node never panics on a request frame, and what it executes is
    exactly what the frame encodes: only a [Transfer] may be followed by bytes
    the decoder ignores. *)
Theorem store_request_decode_safe (payload : bytes) :
  match decode_store_request payload with
  | Ok req => store_request_ok req /\ exists tail, payload = encode_store_request req ++ tail /\
      (tail = [] \/ exists id ids dest, req = StoreRequest.Transfer id ids dest)
  | Err _ => True
  | Panic => False
  end.
Proof.
  unfold decode_store_request, check_version. destruct payload as [|v bs]; [done|].
  destruct (Z.eqb_spec (byte_val v) STORE_PROTOCOL_VERSION) as [->%byte_val_eq|]; [|done]. rsimpl.
  pose proof (tagged_decodes "empty store request payload" take_store_request
    (λ buf req, store_request_ok req /\ exists tail, u8 STORE_PROTOCOL_VERSION :: buf =
       encode_store_request req ++ tail /\
       (tail = [] \/ exists id ids dest, req = StoreRequest.Transfer id ids dest))) as HT.
  apply HT. intros t Ht. eapply decodes_weaken; [apply store_request_sound|].
  intros b r req (Hok & Hb & Hr). split; [done|]. exists r. split; [|done].
  unfold encode_store_request. by rewrite Hb.
Qed.

(** *** Responses *)

Lemma parses_bool msg b : parses (take_nonzero msg) [put_bool b] b.
Proof.
  unfold take_nonzero, put_bool. eapply parses_bind_nil; [apply parses_take_byte|].
  rewrite byte_val_u8_small by (by destruct b). destruct b; apply parses_ret.
Qed.
Lemma parses_value_none : parses take_value [u8 0] None.
Proof.
  unfold take_value. eapply parses_bind_nil; [apply parses_take_byte|].
  rewrite byte_val_u8_small by done. apply parses_ret.
Qed.
Lemma parses_value_some content : parses_last take_value (u8 1 :: content) (Some content).
Proof.
  unfold take_value. change (u8 1 :: content) with ([u8 1] ++ content).
  eapply parses_last_bind; [apply parses_take_byte|]. rewrite byte_val_u8_small by done. simpl.
  eapply parses_last_bind_end; [apply parses_last_take_rest|]. apply parses_parses_last, parses_ret.
Qed.
Lemma parses_id_n e : id_n_ok e -> parses take_id_n (put_id_n e) e.
Proof. intros [? ?]. destruct e. unfold take_id_n, put_id_n. parse. Qed.
Lemma parses_entry e : entry_ok e -> parses take_entry (put_entry e) e.
Proof. intros [? ?]. destruct e. unfold take_entry, put_entry. parse. Qed.
Lemma parses_id_ns es : list_ok id_n_ok es -> parses (take_list take_id_n) (put_list put_id_n es) es.
Proof. apply parses_take_list, parses_id_n. Qed.
Lemma parses_entries es : list_ok entry_ok es -> parses (take_list take_entry) (put_list put_entry es) es.
Proof. apply parses_take_list, parses_entry. Qed.
#[local] Hint Resolve parses_bool parses_value_none parses_value_some parses_id_ns parses_entries : codec.

Lemma store_response_complete resp :
  store_response_ok resp ->
  parses_last (take_store_response (store_response_body resp).1) (store_response_body resp).2 resp.
Proof.
  destruct resp as [| |[c|]| | | | | | | |]; simpl; intros Hok; destruct_and?;
    unfold take_store_response; eval_tags;
    lazymatch goal with
    | |- parses_last (ended _ _) _ _ => apply parses_ended; parse
    | |- parses_last _ (?b :: ?l) _ =>
        first [ change (b :: l) with ([b] ++ l); by parse | by parse ]
    | |- _ => parse
    end.
Qed.

Lemma decodes_nonzero msg : decodes (take_nonzero msg) (λ _ _ _, True).
Proof. unfold take_nonzero. repeat decode_step. done. Qed.
Lemma decodes_value : decodes take_value (λ _ _ _, True).
Proof. unfold take_value. by repeat decode_step. Qed.
Lemma decodes_id_n : decodes take_id_n (λ b _ e, b = put_id_n e /\ id_n_ok e).
Proof. unfold take_id_n. repeat decode_step. decoded. by split_and!. Qed.
Lemma decodes_entry : decodes take_entry (λ b _ e, b = put_entry e /\ entry_ok e).
Proof. unfold take_entry. repeat decode_step. decoded. by split_and!. Qed.
Lemma decodes_id_ns :
  decodes (take_list take_id_n) (λ b _ es, b = put_list put_id_n es /\ list_ok id_n_ok es).
Proof. apply decodes_take_list, decodes_id_n. Qed.
Lemma decodes_entries :
  decodes (take_list take_entry) (λ b _ es, b = put_list put_entry es /\ list_ok entry_ok es).
Proof. apply decodes_take_list, decodes_entry. Qed.
#[local] Hint Resolve decodes_nonzero decodes_value decodes_id_ns decodes_entries : codec.

Lemma store_response_sound t : decodes (take_store_response t) (λ _ _ r, store_response_ok r).
Proof.
  unfold take_store_response.
  repeat lazymatch goal with
  | |- decodes (if t =? ?c then _ else _) _ => destruct (Z.eqb_spec t c) as [->|_]
  end; [..|apply decodes_err];
  lazymatch goal with
  | |- decodes (ended _ _) _ =>
      eapply (decodes_ended _ _ (λ _ _ r, store_response_ok r)); [|done]
  | |- _ => idtac
  end; repeat decode_step; decoded; simpl in *; split_and?; try done.
Qed.

(** Every storage reply survives the wire; no bytes make its decoder panic;
    and a reply it accepts is well-formed, so encoding it again and decoding
    that gives the same reply. *)
Theorem store_response_wire (resp : StoreResponse.t) (payload : bytes) :
  (store_response_ok resp -> decode_store_response (encode_store_response resp) = Ok resp) /\
  match decode_store_response payload with
  | Ok r => store_response_ok r /\ decode_store_response (encode_store_response r) = Ok r
  | Err _ => True
  | Panic => False
  end.
Proof.
  assert (forall r, store_response_ok r -> decode_store_response (encode_store_response r) = Ok r) as HR.
  { intros r Hok. pose proof (store_response_complete r Hok) as H.
    assert (0 <= (store_response_body r).1 < 256) as Ht by (by destruct r as [| |[c|]| | | | | | | |]).
    unfold decode_store_response, encode_store_response, check_version.
    destruct (store_response_body r) as [t body]. simpl in *.
    rewrite byte_val_u8_small by done. rewrite Z.eqb_refl. rsimpl. by apply tagged_parses. }
  split; [apply HR|]. unfold decode_store_response at 1. unfold check_version.
  destruct payload as [|v bs]; [done|].
  destruct (Z.eqb_spec (byte_val v) STORE_PROTOCOL_VERSION); [|done]. rsimpl.
  pose proof (tagged_decodes "empty store response payload" take_store_response
    (λ _ r, store_response_ok r)) as HT.
  specialize (HT ltac:(intros t Ht; eapply decodes_weaken; [apply store_response_sound|done]) bs).
  destruct (tagged _ _ bs) as [r| |]; [|done..]. split; [done|by apply HR].
Qed.
