(* ===== verification/GossipWire.v ===== *)
(** * seisin-gossip: the gossip wire format

    Models [crates/seisin-gossip/src/wire.rs]: member updates, epoch-tagged ring
    mutations and the three gossip messages. *)

From S2P Require Import Prelude Core Codec Membership Sequencer.

Definition STATUS_ALIVE : Z := 0.
Definition STATUS_SUSPECT : Z := 1.
Definition STATUS_DEAD : Z := 2.

Definition status_tag (s : MemberStatus) : Z :=
  match s with Alive => STATUS_ALIVE | Suspect => STATUS_SUSPECT | Dead => STATUS_DEAD end.
Definition role_tag (r : MemberRole) : Z := match r with Compute => 0 | Storage => 1 end.

Definition status_of_tag (t : Z) : res MemberStatus :=
  if t =? STATUS_ALIVE then Ok Alive
  else if t =? STATUS_SUSPECT then Ok Suspect
  else if t =? STATUS_DEAD then Ok Dead
  else Err "invalid member status tag byte".
Definition role_of_tag (t : Z) : res MemberRole :=
  if t =? 0 then Ok Compute else if t =? 1 then Ok Storage else Err "invalid member role tag byte".

(** The 26 bytes before the strings, and the rest. *)
Definition member_header (u : MemberUpdate) : bytes :=
  to_le 8 (u_node_id u) ++ to_le 8 (u_incarnation u) ++ [u8 (status_tag (u_status u))] ++
  to_le 4 (u_thread_count u) ++ [u8 (role_tag (u_role u))] ++ to_le 4 (u_capacity_weight u).

Definition encode_string (s : bytes) : bytes := put_bytes s.
Definition decode_string : cur bytes := take_string.

Definition encode_member_update (u : MemberUpdate) : bytes :=
  member_header u ++ encode_string (u_client_address u) ++ encode_string (u_gossip_address u) ++
  encode_string (u_store_address u) ++ u_log_id u.

(** The variable-length tail of a member update: three strings and a log id. *)
Definition take_member_tail : cur (bytes * bytes * bytes * bytes) :=
  client ← decode_string;
  gossip ← decode_string;
  store ← decode_string;
  log_id ← take_n 16 "member update payload too short for a log id";
  mret (client, gossip, store, log_id).

Definition decode_member_update (buf : bytes) : res MemberUpdate :=
  if zlen buf <? 21 then Err "member update payload too short" else
  node_id ← slice buf 0 8;
  incarnation ← slice buf 8 16;
  st ← index buf 16;
  status ← status_of_tag (byte_val st);
  thread_count ← slice buf 17 21;
  if zlen buf <? 26 then Err "member update payload too short for role/weight" else
  rl ← index buf 21;
  role ← role_of_tag (byte_val rl);
  capacity_weight ← slice buf 22 26;
  '(client, gossip, store, log_id) ← run_cur take_member_tail buf 26;
  Ok {| u_node_id := from_le node_id; u_incarnation := from_le incarnation; u_status := status;
        u_client_address := client; u_gossip_address := gossip;
        u_thread_count := from_le thread_count; u_role := role;
        u_capacity_weight := from_le capacity_weight; u_store_address := store;
        u_log_id := log_id |}.

Definition MUTATION_JOIN : Z := 0.
Definition MUTATION_LEAVE : Z := 1.

Definition encode_ring_mutation_record (r : Z * RingMutation) : bytes :=
  to_le 8 r.1 ++
  match r.2 with
  | Join node_id thread_count => [u8 MUTATION_JOIN] ++ to_le 8 node_id ++ to_le 4 thread_count
  | Leave node_id => [u8 MUTATION_LEAVE] ++ to_le 8 node_id
  end.

Definition decode_ring_mutation_record (buf : bytes) : res (Z * RingMutation) :=
  if zlen buf <? 17 then Err "ring mutation record too short" else
  epoch ← slice buf 0 8;
  node_id ← slice buf 9 17;
  tag ← index buf 8;
  if byte_val tag =? MUTATION_JOIN then
    if negb (zlen buf =? 21) then Err "join mutation record length mismatch" else
    thread_count ← slice buf 17 21;
    Ok (from_le epoch, Join (from_le node_id) (from_le thread_count))
  else if byte_val tag =? MUTATION_LEAVE then
    if negb (zlen buf =? 17) then Err "leave mutation record length mismatch" else
    Ok (from_le epoch, Leave (from_le node_id))
  else Err "invalid ring mutation tag byte".

Definition GOSSIP_PROTOCOL_VERSION : Z := 3.
Definition MSG_PING : Z := 0.
Definition MSG_PING_REQ : Z := 1.
Definition MSG_ACK : Z := 2.

Abbreviation mutation_record := (Z * RingMutation)%type (only parsing).

Inductive GossipMessage :=
| Ping (updates : list MemberUpdate) (mutations : list mutation_record)
| PingReq (target : NodeId) (updates : list MemberUpdate) (mutations : list mutation_record)
| Ack (updates : list MemberUpdate) (mutations : list mutation_record).

(** [encode_list] and [decode_list]: every item is length-prefixed and decoded
    from its own slice. *)
Definition encode_list {A} (encode_one : A -> bytes) (items : list A) : bytes :=
  put_list (λ item, put_bytes (encode_one item)) items.
Definition take_item {A} (decode_one : bytes -> res A) : cur A :=
  v ← take_bytes; cur_lift (decode_one v).
Definition decode_list {A} (decode_one : bytes -> res A) : cur (list A) :=
  take_list (take_item decode_one).

Definition put_facts (updates : list MemberUpdate) (mutations : list mutation_record) : bytes :=
  encode_list encode_member_update updates ++ encode_list encode_ring_mutation_record mutations.

Definition gossip_body (msg : GossipMessage) : Z * bytes :=
  match msg with
  | Ping updates mutations => (MSG_PING, put_facts updates mutations)
  | PingReq target updates mutations => (MSG_PING_REQ, to_le 8 target ++ put_facts updates mutations)
  | Ack updates mutations => (MSG_ACK, put_facts updates mutations)
  end.

Definition encode_gossip_message (msg : GossipMessage) : bytes :=
  let '(tag, body) := gossip_body msg in u8 GOSSIP_PROTOCOL_VERSION :: u8 tag :: body.

Definition take_gossip_message (tag : Z) : cur GossipMessage :=
  if tag =? MSG_PING then
    updates ← decode_list decode_member_update;
    mutations ← decode_list decode_ring_mutation_record;
    mret (Ping updates mutations)
  else if tag =? MSG_PING_REQ then
    target ← take_le 8 "ping_req payload too short for a target node_id";
    updates ← decode_list decode_member_update;
    mutations ← decode_list decode_ring_mutation_record;
    mret (PingReq target updates mutations)
  else if tag =? MSG_ACK then
    updates ← decode_list decode_member_update;
    mutations ← decode_list decode_ring_mutation_record;
    mret (Ack updates mutations)
  else cur_err "unknown gossip message tag".

Definition decode_gossip_message (payload : bytes) : res GossipMessage :=
  buf ← check_version GOSSIP_PROTOCOL_VERSION payload;
  tagged "empty gossip message payload" take_gossip_message buf.

(** ** Well-formedness *)

Definition member_update_ok (u : MemberUpdate) : Prop :=
  u64_ok (u_node_id u) /\ u64_ok (u_incarnation u) /\ u32_ok (u_thread_count u) /\
  u32_ok (u_capacity_weight u) /\ string_ok (u_client_address u) /\
  string_ok (u_gossip_address u) /\ string_ok (u_store_address u) /\ zlen (u_log_id u) = 16.
Definition mutation_ok (r : mutation_record) : Prop :=
  u64_ok r.1 /\
  match r.2 with Join n c => u64_ok n /\ u32_ok c | Leave n => u64_ok n end.
(** An item of a list must fit its own length prefix. *)
Definition update_item_ok (u : MemberUpdate) : Prop :=
  member_update_ok u /\ field_ok (encode_member_update u).
Definition gossip_ok (msg : GossipMessage) : Prop :=
  match msg with
  | Ping us ms | Ack us ms => list_ok update_item_ok us /\ list_ok mutation_ok ms
  | PingReq target us ms => u64_ok target /\ list_ok update_item_ok us /\ list_ok mutation_ok ms
  end.

(** ** Member updates *)

Lemma zlen_member_header u : zlen (member_header u) = 26.
Proof. unfold member_header. by autorewrite with zlen. Qed.
#[export] Hint Rewrite zlen_member_header : zlen.

Lemma status_roundtrip s : status_of_tag (status_tag s) = Ok s.
Proof. by destruct s. Qed.
Lemma role_roundtrip r : role_of_tag (role_tag r) = Ok r.
Proof. by destruct r. Qed.

Lemma decode_encode_member_update u :
  member_update_ok u -> decode_member_update (encode_member_update u) = Ok u.
Proof.
  intros (H1 & H2 & H3 & H4 & H5 & H6 & H7 & H8).
  set (tail := encode_string (u_client_address u) ++ encode_string (u_gossip_address u) ++
    encode_string (u_store_address u) ++ u_log_id u).
  assert (run_cur take_member_tail (member_header u ++ tail) 26 =
    Ok (u_client_address u, u_gossip_address u, u_store_address u, u_log_id u)) as HT.
  { pose proof (run_cur_parses take_member_tail (member_header u) tail
      (u_client_address u, u_gossip_address u, u_store_address u, u_log_id u)) as HR.
    rewrite zlen_member_header in HR. apply HR. unfold take_member_tail, tail, decode_string, encode_string.
    parse. }
  unfold decode_member_update, encode_member_update. fold tail. pose proof (zlen_nonneg tail).
  autorewrite with zlen. rewrite !(proj2 (Z.ltb_ge _ _)) by lia. rewrite HT.
  unfold member_header. rewrite <- !app_assoc. fixed_read. rsimpl.
  rewrite !byte_val_u8_small by (destruct (u_status u), (u_role u); done).
  rewrite status_roundtrip, role_roundtrip. rsimpl. rewrite !from_le_to_le by done. by destruct u.
Qed.

Lemma status_of_tag_spec b :
  match status_of_tag (byte_val b) with Ok s => b = u8 (status_tag s) | Err _ => True | Panic => False end.
Proof.
  unfold status_of_tag. repeat match goal with |- context [?x =? ?y] =>
    destruct (Z.eqb_spec x y) as [->%byte_val_eq|_]; [done|] end. done.
Qed.
Lemma role_of_tag_spec b :
  match role_of_tag (byte_val b) with Ok s => b = u8 (role_tag s) | Err _ => True | Panic => False end.
Proof.
  unfold role_of_tag. repeat match goal with |- context [?x =? ?y] =>
    destruct (Z.eqb_spec x y) as [->%byte_val_eq|_]; [done|] end. done.
Qed.

Lemma parses_member_tail c g st l :
  string_ok c -> string_ok g -> string_ok st -> zlen l = 16 ->
  parses take_member_tail (encode_string c ++ encode_string g ++ encode_string st ++ l) (c, g, st, l).
Proof. intros. unfold take_member_tail, decode_string, encode_string. parse. Qed.

Lemma decodes_member_tail :
  decodes take_member_tail (λ b _ x, let '(c, g, st, l) := x in
    b = encode_string c ++ encode_string g ++ encode_string st ++ l /\
    string_ok c /\ string_ok g /\ string_ok st /\ zlen l = 16).
Proof.
  unfold take_member_tail, decode_string. repeat decode_step. decoded. by split_and!.
Qed.

(** What the update decoder accepts starts with the update's encoding. *)
Lemma decode_member_update_sound :
  decodes_all decode_member_update (λ buf u, member_update_ok u /\
    exists tail, buf = encode_member_update u ++ tail).
Proof.
  intros buf. unfold decode_member_update. destruct (Z.ltb_spec (zlen buf) 21); [done|].
  rewrite (slice_ok buf 0 8), (slice_ok buf 8 16) by lia. destruct (index_ok buf 16 ltac:(lia)) as (st & Est & _). rewrite Est. rsimpl.
  pose proof (status_of_tag_spec st) as Hst. destruct (status_of_tag _) as [status| |]; [|done..]. rsimpl.
  rewrite (slice_ok buf 17 21) by lia. rsimpl.
  destruct (Z.ltb_spec (zlen buf) 26); [done|].
  destruct (index_ok buf 21 ltac:(lia)) as (rl & Erl & _). rewrite Erl. rsimpl.
  pose proof (role_of_tag_spec rl) as Hrl. destruct (role_of_tag _) as [role| |]; [|done..]. rsimpl.
  rewrite (slice_ok buf 22 26) by lia. rsimpl.
  pose proof (decodes_run _ _ buf 26 decodes_member_tail ltac:(lia)) as HT.
  destruct (run_cur take_member_tail buf 26) as [[[[c g] s] l]| |]; [|done..]. rsimpl.
  destruct HT as (b & tail & Hbuf & -> & Hc & Hg & Hs & Hl).
  destruct (to_le_sub 8 buf 0 8) as [A1 A2]; [lia..|]. destruct (to_le_sub 8 buf 8 16) as [B1 B2]; [lia..|].
  destruct (to_le_sub 4 buf 17 21) as [C1 C2]; [lia..|]. destruct (to_le_sub 4 buf 22 26) as [D1 D2]; [lia..|].
  split; [by split_and!|]. exists tail. unfold encode_member_update, member_header. simpl.
  rewrite A1, B1, C1, D1, <- Hst, <- Hrl. apply index_sub in Est, Erl.
  change (16 + 1) with 17 in Est. change (21 + 1) with 22 in Erl.
  change (st :: ?x) with ([st] ++ x). change (rl :: ?x) with ([rl] ++ x). rewrite <- Est, <- Erl.
  rewrite <- !sub_bytes_split by lia. rewrite Hbuf at 1. by rewrite <- !app_assoc.
Qed.

(** ** Ring mutations *)

Lemma decode_encode_mutation r :
  mutation_ok r -> decode_ring_mutation_record (encode_ring_mutation_record r) = Ok r.
Proof.
  destruct r as [e m]. intros [He Hm]. simpl in *. unfold decode_ring_mutation_record, encode_ring_mutation_record.
  destruct m as [n c|n]; simpl in *; destruct_and?; autorewrite with zlen; simpl; fixed_read; rsimpl;
    rewrite byte_val_u8_small by done; simpl; fixed_read; rsimpl; by rewrite !from_le_to_le.
Qed.

Lemma decode_mutation_exact :
  decodes_all decode_ring_mutation_record (λ buf r, buf = encode_ring_mutation_record r /\ mutation_ok r).
Proof.
  intros buf. unfold decode_ring_mutation_record. destruct (Z.ltb_spec (zlen buf) 17); [done|].
  destruct (index_ok buf 8 ltac:(lia)) as (tag & Et & _). rewrite Et, (slice_ok buf 0 8), (slice_ok buf 9 17) by lia. rsimpl.
  destruct (to_le_sub 8 buf 0 8) as [A1 A2]; [lia..|]. destruct (to_le_sub 8 buf 9 17) as [B1 B2]; [lia..|].
  apply index_sub in Et. change (8 + 1) with 9 in Et. unfold encode_ring_mutation_record, mutation_ok.
  destruct (Z.eqb_spec (byte_val tag) MUTATION_JOIN) as [->%byte_val_eq|_].
  - destruct (Z.eqb_spec (zlen buf) 21); [|done]. cbn [negb]. rewrite slice_ok by lia. rsimpl.
    destruct (to_le_sub 4 buf 17 21) as [C1 C2]; [lia..|]. cbn [fst snd]. split; [|done].
    rewrite A1, B1, C1, <- Et, <- !sub_bytes_split by lia. symmetry. rewrite <- e at 1. apply sub_bytes_full.
  - destruct (Z.eqb_spec (byte_val tag) MUTATION_LEAVE) as [->%byte_val_eq|_]; [|done].
    destruct (Z.eqb_spec (zlen buf) 17); [|done]. cbn [negb fst snd]. split; [|done].
    rewrite A1, B1, <- Et, <- !sub_bytes_split by lia. symmetry. rewrite <- e at 1. apply sub_bytes_full.
Qed.

(** ** Messages *)

Lemma zlen_encode_mutation r : zlen (encode_ring_mutation_record r) <= 21.
Proof. unfold encode_ring_mutation_record. destruct r as [e [n c|n]]; simpl; autorewrite with zlen; lia. Qed.

Lemma parses_item {A} (enc : A -> bytes) dec (x : A) :
  dec (enc x) = Ok x -> field_ok (enc x) -> parses (take_item dec) (put_bytes (enc x)) x.
Proof.
  intros Hd Hf. unfold take_item. eapply parses_bind_nil; [by apply parses_take_bytes|].
  rewrite Hd. apply parses_lift.
Qed.

Lemma decodes_item {A} (dec : bytes -> res A) (P : A -> Prop) :
  decodes_all dec (λ _ x, P x) -> decodes (take_item dec) (λ _ _ x, P x).
Proof.
  intros Hd. unfold take_item. eapply decodes_bind; [apply decodes_take_bytes|]. intros b v _.
  eapply decodes_weaken; [apply (decodes_lift (dec v) P (Hd v))|]. by intros ??? [_ ?] _.
Qed.

Lemma parses_updates us :
  list_ok update_item_ok us ->
  parses (decode_list decode_member_update) (encode_list encode_member_update us) us.
Proof.
  apply parses_take_list. intros u [Hu Hf]. apply parses_item; [by apply decode_encode_member_update|done].
Qed.
Lemma parses_mutations ms :
  list_ok mutation_ok ms ->
  parses (decode_list decode_ring_mutation_record) (encode_list encode_ring_mutation_record ms) ms.
Proof.
  apply parses_take_list. intros r Hr. apply parses_item; [by apply decode_encode_mutation|].
  pose proof (zlen_encode_mutation r). pose proof (zlen_nonneg (encode_ring_mutation_record r)).
  unfold field_ok, uint_ok. lia.
Qed.
#[local] Hint Resolve parses_updates parses_mutations : codec.

Lemma decodes_updates : decodes (decode_list decode_member_update) (λ _ _ us, Forall member_update_ok us).
Proof.
  unfold decode_list, take_list. eapply decodes_bind; [apply decodes_take_u32|]. intros b n _.
  eapply decodes_weaken; [apply decodes_repeat_all, decodes_item|intros b' r xs [HF _] _; exact HF].
  intros buf. pose proof (decode_member_update_sound buf). destruct (decode_member_update buf); naive_solver.
Qed.
Lemma decodes_mutations :
  decodes (decode_list decode_ring_mutation_record) (λ _ _ ms, Forall mutation_ok ms).
Proof.
  unfold decode_list, take_list. eapply decodes_bind; [apply decodes_take_u32|]. intros b n _.
  eapply decodes_weaken; [apply decodes_repeat_all, decodes_item|intros b' r xs [HF _] _; exact HF].
  intros buf. pose proof (decode_mutation_exact buf).
  destruct (decode_ring_mutation_record buf); naive_solver.
Qed.
#[local] Hint Resolve decodes_updates decodes_mutations : codec.

(** The facts a gossip message carries. *)
Definition gossip_facts_ok (msg : GossipMessage) : Prop :=
  match msg with
  | Ping us ms | Ack us ms | PingReq _ us ms => Forall member_update_ok us /\ Forall mutation_ok ms
  end.

Lemma gossip_complete msg :
  gossip_ok msg -> parses (take_gossip_message (gossip_body msg).1) (gossip_body msg).2 msg.
Proof.
  destruct msg; simpl; intros Hok; destruct_and?; unfold take_gossip_message, put_facts; eval_tags; parse.
Qed.

Lemma gossip_sound t : decodes (take_gossip_message t) (λ _ _ msg, gossip_facts_ok msg).
Proof.
  unfold take_gossip_message.
  repeat lazymatch goal with
  | |- decodes (if t =? ?c then _ else _) _ => destruct (Z.eqb_spec t c) as [->|_]
  end; [..|apply decodes_err]; repeat decode_step; done.
Qed.

(** Every gossip message survives the wire; no datagram makes the decoder
    panic; and the member updates and ring mutations it hands on have fields in
    range (node ids, incarnations, weights, valid address strings, 16-byte log
    ids). *)
Theorem gossip_wire (msg : GossipMessage) (payload : bytes) :
  (gossip_ok msg -> decode_gossip_message (encode_gossip_message msg) = Ok msg) /\
  match decode_gossip_message payload with
  | Ok m => gossip_facts_ok m
  | Err _ => True
  | Panic => False
  end.
Proof.
  split.
  - intros Hok. pose proof (parses_parses_last _ _ _ (gossip_complete msg Hok)) as H.
    assert (0 <= (gossip_body msg).1 < 256) as Ht by (by destruct msg).
    unfold decode_gossip_message, encode_gossip_message, check_version.
    destruct (gossip_body msg) as [t body]. simpl in *.
    rewrite byte_val_u8_small by done. rewrite Z.eqb_refl. rsimpl. by apply tagged_parses.
  - unfold decode_gossip_message, check_version. destruct payload as [|v bs]; [done|].
    destruct (Z.eqb_spec (byte_val v) GOSSIP_PROTOCOL_VERSION); [|done]. rsimpl.
    apply (tagged_decodes _ _ (λ _ m, gossip_facts_ok m)).
    intros t Ht. eapply decodes_weaken; [apply gossip_sound|done].
Qed.
