(* ===== verification/Crc.v ===== *)
(** * seisin-storage: CRC-32

    Models [crates/seisin-storage/src/crc.rs]: the 256-entry table and the
    byte-at-a-time checksum of the log records. *)

From S2P Require Import Prelude.

Definition POLY : Z := 0xEDB88320.

(** One turn of the inner [while bit < 8]. *)
Definition bit_step (crc : Z) : Z :=
  if negb (Z.land crc 1 =? 0) then Z.lxor POLY (Z.shiftr crc 1) else Z.shiftr crc 1.

Definition table_entry (i : Z) : Z := Nat.iter 8 bit_step i.
Definition table : list Z := map table_entry (seqZ 0 256).

Definition crc_step (crc : Z) (b : byte) : Z :=
  Z.lxor (nth (Z.to_nat (Z.land (Z.lxor crc (byte_val b)) 0xFF)) table 0) (Z.shiftr crc 8).

Definition crc32 (bs : bytes) : Z := Z.lxor (fold_left crc_step bs 0xFFFFFFFF) 0xFFFFFFFF.

(** The definition of the checksum, one bit at a time. *)
Definition bitwise_step (crc : Z) (b : byte) : Z := Nat.iter 8 bit_step (Z.lxor crc (byte_val b)).
Definition crc32_bitwise (bs : bytes) : Z :=
  Z.lxor (fold_left bitwise_step bs 0xFFFFFFFF) 0xFFFFFFFF.

(** The standard check value: the CRC of "123456789". *)
Example crc32_check :
  crc32 (map u8 [49; 50; 51; 52; 53; 54; 55; 56; 57]) = 0xCBF43926.
Proof. vm_compute. reflexivity. Qed.

(** ** Linearity *)

Lemma bit_step_odd c : bit_step c = Z.lxor (if Z.testbit c 0 then POLY else 0) (Z.shiftr c 1).
Proof.
  unfold bit_step. change 1 with (Z.ones 1) at 1. rewrite Z.land_ones by lia.
  rewrite Z.bit0_odd, Zmod_odd. destruct (Z.odd c); simpl; [done|]. by rewrite Z.lxor_0_l.
Qed.

Lemma bit_step_lxor a b : bit_step (Z.lxor a b) = Z.lxor (bit_step a) (bit_step b).
Proof.
  rewrite !bit_step_odd, Z.lxor_spec, Z.shiftr_lxor. apply Z.bits_inj'. intros i _.
  rewrite !Z.lxor_spec. destruct (Z.testbit a 0), (Z.testbit b 0); simpl; rewrite ?Z.testbit_0_l;
    destruct (Z.testbit POLY i), (Z.testbit (Z.shiftr a 1) i), (Z.testbit (Z.shiftr b 1) i); done.
Qed.

Lemma iter_bit_step_lxor n a b :
  Nat.iter n bit_step (Z.lxor a b) = Z.lxor (Nat.iter n bit_step a) (Nat.iter n bit_step b).
Proof. induction n as [|n IH]; simpl; [done|]. by rewrite IH, bit_step_lxor. Qed.

Lemma iter_bit_step_shift n y : Nat.iter n bit_step (Z.shiftl y (Z.of_nat n)) = y.
Proof.
  induction n as [|n IH]; [apply Z.shiftl_0_r|].
  rewrite Nat.iter_succ_r. rewrite bit_step_odd.
  rewrite Z.shiftl_spec_low by lia. rewrite Z.lxor_0_l.
  rewrite Z.shiftr_shiftl_l by lia. replace (Z.of_nat (S n) - 1) with (Z.of_nat n) by lia. exact IH.
Qed.

Lemma split_low_byte x : x = Z.lxor (Z.land x 0xFF) (Z.shiftl (Z.shiftr x 8) 8).
Proof.
  apply Z.bits_inj'. intros i Hi. change 0xFF with (Z.ones 8).
  rewrite Z.lxor_spec, Z.land_spec. destruct (Z.ltb_spec i 8).
  - rewrite Z.ones_spec_low, Z.shiftl_spec_low, andb_true_r, xorb_false_r by lia. done.
  - rewrite Z.ones_spec_high, Z.shiftl_spec, Z.shiftr_spec by lia. rewrite andb_false_r, xorb_false_l.
    f_equal. lia.
Qed.

Lemma table_lookup i : 0 <= i < 256 -> nth (Z.to_nat i) table 0 = table_entry i.
Proof.
  intros Hi. unfold table. rewrite nth_lookup.
  assert (map table_entry (seqZ 0 256) !! Z.to_nat i = Some (table_entry i)) as ->; [|done].
  change map with (fun A B => @fmap list _ A B). cbv beta. rewrite list_lookup_fmap.
  rewrite (lookup_seqZ_lt 0 256) by lia. simpl. do 2 f_equal. lia.
Qed.

Lemma land_byte x : 0 <= Z.land x 0xFF < 256.
Proof. change 0xFF with (Z.ones 8). rewrite Z.land_ones by lia. apply Z.mod_pos_bound. lia. Qed.

Lemma shiftr_lxor_byte crc b : Z.shiftr (Z.lxor crc (byte_val b)) 8 = Z.shiftr crc 8.
Proof.
  rewrite Z.shiftr_lxor. pose proof (byte_val_range b).
  rewrite (Z.shiftr_div_pow2 (byte_val b)), Z.div_small by lia. apply Z.lxor_0_r.
Qed.

Lemma crc_step_bitwise crc b : crc_step crc b = bitwise_step crc b.
Proof.
  unfold crc_step, bitwise_step. rewrite (split_low_byte (Z.lxor crc (byte_val b))) at 2.
  rewrite iter_bit_step_lxor, (iter_bit_step_shift 8), shiftr_lxor_byte.
  by rewrite table_lookup by apply land_byte.
Qed.

(** ** Range and injectivity of the steps *)

Lemma lxor_range a b w : 0 <= w -> uint_ok w a -> uint_ok w b -> uint_ok w (Z.lxor a b).
Proof.
  intros Hw [Ha Ha'] [Hb Hb']. assert (0 <= Z.lxor a b) as H0 by (apply Z.lxor_nonneg; lia).
  split; [done|]. destruct (decide (Z.lxor a b = 0)); [pose proof (Z.pow_pos_nonneg 2 w); lia|].
  apply Z.log2_lt_pow2; [lia|]. pose proof (Z.log2_lxor a b Ha Hb).
  destruct (decide (w = 0)) as [->|]; [assert (a = 0 /\ b = 0) as [-> ->] by lia; done|].
  assert (forall x, 0 <= x < 2 ^ w -> Z.log2 x < w) as Hl.
  { intros x Hx. destruct (decide (x = 0)) as [->|]; [simpl; lia|]. apply Z.log2_lt_pow2; lia. }
  pose proof (Hl a ltac:(lia)). pose proof (Hl b ltac:(lia)). lia.
Qed.

Lemma bit_step_range c : u32_ok c -> u32_ok (bit_step c).
Proof.
  intros Hc. rewrite bit_step_odd. apply lxor_range; [lia|by destruct (Z.testbit c 0)|].
  rewrite Z.shiftr_div_pow2 by lia. unfold uint_ok in *. split; [apply Z.div_pos; lia|].
  apply Z.div_lt_upper_bound; lia.
Qed.

(** The polynomial's top bit tells whether a bit was shifted out. *)
Lemma bit_step_top c : u32_ok c -> Z.testbit (bit_step c) 31 = Z.testbit c 0.
Proof.
  intros [H0 H1]. rewrite bit_step_odd, Z.lxor_spec, Z.shiftr_spec by lia.
  assert (Z.testbit c (31 + 1) = false) as ->.
  { destruct (decide (c = 0)) as [->|]; [done|]. apply Z.bits_above_log2; [done|].
    apply Z.log2_lt_pow2; lia. }
  rewrite xorb_false_r. by destruct (Z.testbit c 0).
Qed.

Lemma lxor_cancel_r a b c : Z.lxor a c = Z.lxor b c -> a = b.
Proof.
  intros H. apply (f_equal (λ x, Z.lxor x c)) in H.
  by rewrite !Z.lxor_assoc, Z.lxor_nilpotent, !Z.lxor_0_r in H.
Qed.

Lemma bit_step_inj a b : u32_ok a -> u32_ok b -> bit_step a = bit_step b -> a = b.
Proof.
  intros Ha Hb H. pose proof (bit_step_top a Ha) as Ta. pose proof (bit_step_top b Hb) as Tb.
  rewrite H, Tb in Ta. rewrite !bit_step_odd, Ta in H.
  assert (Z.shiftr a 1 = Z.shiftr b 1) as HS.
  { rewrite !(Z.lxor_comm (if Z.testbit a 0 then POLY else 0)) in H. by apply lxor_cancel_r in H. }
  apply Z.bits_inj'. intros i Hi. destruct (decide (i = 0)) as [->|]; [done|].
  replace i with ((i - 1) + 1) by lia. rewrite <- !Z.shiftr_spec by lia. by rewrite HS.
Qed.

Lemma iter_bit_step n c :
  u32_ok c -> u32_ok (Nat.iter n bit_step c) /\
  forall c', u32_ok c' -> Nat.iter n bit_step c = Nat.iter n bit_step c' -> c = c'.
Proof.
  intros Hc. assert (forall x, u32_ok x -> u32_ok (Nat.iter n bit_step x)) as HR.
  { intros x Hx. induction n; simpl; [done|]. by apply bit_step_range. }
  split; [by apply HR|]. intros c' Hc'. clear HR. induction n as [|n IH]; simpl; [done|].
  intros H. apply IH, bit_step_inj; [..|exact H].
  - clear -Hc. induction n; simpl; [done|]. by apply bit_step_range.
  - clear -Hc'. induction n; simpl; [done|]. by apply bit_step_range.
Qed.

Lemma byte_u32 b : u32_ok (byte_val b).
Proof. pose proof (byte_val_range b). unfold uint_ok. lia. Qed.

Lemma bitwise_step_range c b : u32_ok c -> u32_ok (bitwise_step c b).
Proof. intros Hc. apply iter_bit_step, lxor_range; [lia|done|apply byte_u32]. Qed.

Lemma bitwise_step_inj c c' b :
  u32_ok c -> u32_ok c' -> bitwise_step c b = bitwise_step c' b -> c = c'.
Proof.
  intros Hc Hc' H. apply (lxor_cancel_r _ _ (byte_val b)).
  apply (proj2 (iter_bit_step 8 (Z.lxor c (byte_val b)) ltac:(apply lxor_range; [lia|done|apply byte_u32])));
    [apply lxor_range; [lia|done|apply byte_u32]|exact H].
Qed.

Lemma bitwise_step_byte_inj c b b' :
  u32_ok c -> bitwise_step c b = bitwise_step c b' -> b = b'.
Proof.
  intros Hc H. apply byte_val_inj. apply (lxor_cancel_r _ _ c). rewrite !(Z.lxor_comm _ c).
  apply (proj2 (iter_bit_step 8 (Z.lxor c (byte_val b)) ltac:(apply lxor_range; [lia|done|apply byte_u32])));
    [apply lxor_range; [lia|done|apply byte_u32]|exact H].
Qed.

Lemma fold_crc_step bs c : fold_left crc_step bs c = fold_left bitwise_step bs c.
Proof. revert c. induction bs as [|b bs IH]; intros c; simpl; [done|]. by rewrite IH, crc_step_bitwise. Qed.

Lemma fold_bitwise_range bs c : u32_ok c -> u32_ok (fold_left bitwise_step bs c).
Proof. revert c. induction bs as [|b bs IH]; intros c Hc; simpl; [done|]. by apply IH, bitwise_step_range. Qed.

Lemma fold_bitwise_inj bs c c' :
  u32_ok c -> u32_ok c' -> fold_left bitwise_step bs c = fold_left bitwise_step bs c' -> c = c'.
Proof.
  revert c c'. induction bs as [|b bs IH]; intros c c' Hc Hc'; simpl; [done|]. intros H.
  apply (bitwise_step_inj c c' b); [done..|]. apply IH; [by apply bitwise_step_range..|done].
Qed.

Lemma crc32_range bs : u32_ok (crc32 bs).
Proof.
  unfold crc32. rewrite fold_crc_step. apply lxor_range; [lia| |done].
  by apply fold_bitwise_range.
Qed.

(** The table-driven checksum is the bit-by-bit CRC-32, it fits a [u32], and
    it catches every corruption confined to one byte: changing one byte of a
    record changes its checksum. *)
Theorem crc32_spec (bs : bytes) :
  crc32 bs = crc32_bitwise bs /\ u32_ok (crc32 bs) /\
  forall pre post b b', bs = pre ++ [b] ++ post -> b' <> b -> crc32 (pre ++ [b'] ++ post) <> crc32 bs.
Proof.
  split; [unfold crc32, crc32_bitwise; by rewrite fold_crc_step|]. split; [apply crc32_range|].
  intros pre post b b' -> Hb H. unfold crc32 in H. apply lxor_cancel_r in H.
  rewrite !fold_crc_step, !fold_left_app in H. simpl in H.
  assert (u32_ok (fold_left bitwise_step pre 0xFFFFFFFF)) as Hc by (by apply fold_bitwise_range).
  apply fold_bitwise_inj in H; [|by apply bitwise_step_range..].
  apply bitwise_step_byte_inj in H; [|done]. done.
Qed.

#[global] Opaque crc32.
