(* ===== verification/DatumLog.v ===== *)
(** * seisin-storage: the append-only delta log

    Models [crates/seisin-storage/src/datum_log.rs]: the record format, recovery
    by scanning, full and delta writes with self-rebasing, reads, deletes and
    the id enumeration. The file is the bytes on disk; ids are the 16-byte keys
    as numbers (their order is the byte order, [Core.as_bytes_cmp]). The
    [read]/[write]/[sync] calls succeed unless the file is too short; a crash is
    a file that stops inside the last record. *)

From S2P Require Import Prelude Core Codec Delta Crc.

Definition MAGIC : bytes := map u8 [83; 68; 76; 71].
Definition FORMAT_VERSION : Z := 3.
Definition HEADER_LEN : Z := 22.
Definition KIND_FULL : Z := 1.
Definition KIND_DELTA : Z := 2.
Definition KIND_TOMBSTONE : Z := 3.
Definition MAX_DELTA_CHAIN : Z := 8.

Record RawRecord := mkRaw {
  raw_kind : Z; raw_id : DatumId; raw_n : Z; raw_body : bytes; raw_next : Z }.

Inductive PatchOutcome := Applied | NeedFull.

Record LogRef := mkRef {
  base_offset : Z;
  deltas : list Z;
  materialized_len : Z;
  delta_bytes : Z;
  ref_n : Z
}.

Record DatumLog := mkDatumLog {
  file : bytes;
  index_ : gmap DatumId LogRef;
  end_offset : Z;
  log_id : bytes
}.

(** ** Records *)

(** [read_exact] after a [seek]. *)
Definition read_at (f : bytes) (off n : Z) : res bytes :=
  if zlen f <? off + n then Err "failed to fill whole buffer" else Ok (sub_bytes f off (off + n)).

(** [seek] and [write_all]. *)
Definition write_at (f : bytes) (off : Z) (bs : bytes) : bytes :=
  take (Z.to_nat off) f ++ bs ++ drop (Z.to_nat (off + zlen bs)) f.

Definition record_payload (kind : Z) (id : DatumId) (n : Z) (body : bytes) : bytes :=
  u8 kind :: as_bytes id ++ to_le 2 n ++ body.

Definition encode_record (kind : Z) (id : DatumId) (n : Z) (body : bytes) : bytes :=
  let payload := record_payload kind id n body in
  to_le 4 (wrap 32 (zlen payload)) ++ payload ++ to_le 4 (crc32 payload).

Definition read_record_at (f : bytes) (offset file_len : Z) : res (option RawRecord) :=
  if file_len <? offset + 4 then Ok None else
  len_buf ← read_at f offset 4;
  let payload_len := from_le len_buf in
  if (payload_len <? 19) || (file_len <? offset + 4 + payload_len + 4) then Ok None else
  payload ← read_at f (offset + 4) payload_len;
  crc_buf ← read_at f (offset + 4 + payload_len) 4;
  if negb (crc32 payload =? from_le crc_buf) then Ok None else
  kind ← index payload 0;
  id ← slice payload 1 17;
  n ← slice payload 17 19;
  body ← slice payload 19 (zlen payload);
  Ok (Some (mkRaw (byte_val kind) (from_bytes id) (from_le n) body (offset + 4 + payload_len + 4))).

(** ** Recovery *)

Definition full_ref (offset : Z) (body : bytes) (n : Z) : LogRef :=
  mkRef offset [] (wrap 32 (zlen body)) 0 n.

Definition push_delta (e : LogRef) (offset : Z) (body : bytes) (new_len n : Z) : LogRef :=
  mkRef (base_offset e) (deltas e ++ [offset]) new_len (wrap 32 (delta_bytes e + wrap 32 (zlen body))) n.

(** The [match kind] of [recover]: [None] is a [break]. *)
Definition recover_step (idx : gmap DatumId LogRef) (offset : Z) (r : RawRecord)
    : option (gmap DatumId LogRef) :=
  if raw_kind r =? KIND_FULL then
    Some (<[raw_id r := full_ref offset (raw_body r) (raw_n r)]> idx)
  else if raw_kind r =? KIND_DELTA then
    match idx !! raw_id r with
    | None => None
    | Some e =>
        match decode_delta (raw_body r) with
        | Ok d => Some (<[raw_id r := push_delta e offset (raw_body r) (new_total_len d) (raw_n r)]> idx)
        | _ => None
        end
    end
  else if raw_kind r =? KIND_TOMBSTONE then Some (delete (raw_id r) idx)
  else None.

(** The [while offset < file_len]; every turn moves at least 27 bytes on, so as
    many turns as the file has bytes are enough. *)
Fixpoint recover_loop (fuel : nat) (f : bytes) (file_len offset : Z) (idx : gmap DatumId LogRef)
    : option (gmap DatumId LogRef * Z) :=
  if file_len <=? offset then Some (idx, offset) else
  match fuel with
  | O => None
  | S fuel =>
      match read_record_at f offset file_len with
      | Ok (Some r) =>
          match recover_step idx offset r with
          | Some idx => recover_loop fuel f file_len (raw_next r) idx
          | None => Some (idx, offset)
          end
      | _ => Some (idx, offset)
      end
  end.

Definition recover (f : bytes) (file_len : Z) (id : bytes) : res DatumLog :=
  match recover_loop (length f) f file_len HEADER_LEN ∅ with
  | Some (idx, offset) => Ok (mkDatumLog (take (Z.to_nat offset) f) idx offset id)
  | None => Err "out of fuel"
  end.

Definition header (id : bytes) : bytes := MAGIC ++ to_le 2 FORMAT_VERSION ++ id.

(** [open]: [fresh] is the id stamped on a log created now. *)
Definition open (f fresh : bytes) : res DatumLog :=
  if zlen f =? 0 then recover (header fresh) HEADER_LEN fresh else
  h ← read_at f 0 HEADER_LEN;
  magic ← slice h 0 4;
  if negb (bool_decide (magic = MAGIC)) then Err "not a datum log (bad magic)" else
  version ← slice h 4 6;
  if negb (from_le version =? FORMAT_VERSION) then Err "datum log format version" else
  id ← slice h 6 22;
  recover f (Z.max (zlen f) HEADER_LEN) id.

(** ** Operations *)

Definition append (l : DatumLog) (kind : Z) (id : DatumId) (n : Z) (body : bytes) : Z * DatumLog :=
  let offset := end_offset l in
  let rec_ := encode_record kind id n body in
  (offset, mkDatumLog (write_at (file l) offset rec_) (index_ l)
             (offset + 4 + zlen (record_payload kind id n body) + 4) (log_id l)).

Definition set_index (l : DatumLog) (idx : gmap DatumId LogRef) : DatumLog :=
  mkDatumLog (file l) idx (end_offset l) (log_id l).

Definition put_full (l : DatumLog) (id : DatumId) (content : bytes) (n : Z) : DatumLog :=
  let '(offset, l) := append l KIND_FULL id n content in
  set_index l (<[id := full_ref offset content n]> (index_ l)).

(** The reading loop over the delta offsets. *)
Fixpoint replay_deltas (f : bytes) (end_ : Z) (offsets : list Z) (value : bytes) : res bytes :=
  match offsets with
  | [] => Ok value
  | off :: offsets =>
      r ← read_record_at f off end_;
      match r with
      | None => Err "indexed delta record unreadable"
      | Some r =>
          d ← decode_delta (raw_body r);
          value ← apply value d;
          replay_deltas f end_ offsets value
      end
  end.

Definition get (l : DatumLog) (id : DatumId) : res (option bytes) :=
  match index_ l !! id with
  | None => Ok None
  | Some e =>
      r ← read_record_at (file l) (base_offset e) (end_offset l);
      match r with
      | None => Err "indexed base record unreadable"
      | Some r => value ← replay_deltas (file l) (end_offset l) (deltas e) (raw_body r); Ok (Some value)
      end
  end.

(** Whether [put_delta] consolidates instead of appending. *)
Definition must_rebase (e : LogRef) (body : bytes) : bool :=
  (MAX_DELTA_CHAIN <? zlen (deltas e) + 1)
  || (Z.max (materialized_len e) 1 / 2 <? delta_bytes e + zlen body).

Definition put_delta (l : DatumLog) (id : DatumId) (d : Delta) (n : Z) : res (PatchOutcome * DatumLog) :=
  match index_ l !! id with
  | None => Ok (NeedFull, l)
  | Some e =>
      let body := encode_delta d in
      if must_rebase e body then
        current ← get l id;
        match current with
        | None => Panic
        | Some current => new_value ← apply current d; Ok (Applied, put_full l id new_value n)
        end
      else
        let '(offset, l) := append l KIND_DELTA id n body in
        match index_ l !! id with
        | None => Panic
        | Some e =>
            Ok (Applied, set_index l (<[id := push_delta e offset body (new_total_len d) n]> (index_ l)))
        end
  end.

Definition log_delete (l : DatumLog) (id : DatumId) : DatumLog :=
  let '(_, l) := append l KIND_TOMBSTONE id 0 [] in set_index l (delete id (index_ l)).

Definition n_of (l : DatumLog) (id : DatumId) : option Z :=
  match index_ l !! id with Some e => Some (ref_n e) | None => None end.
Definition log_len (l : DatumLog) : nat := size (index_ l).
Definition log_is_empty (l : DatumLog) : bool := bool_decide (index_ l = ∅).

(** [list_ids]: the ids after [after], ascending, at most [limit], with their
    replication factors. *)
Definition is_after (after : option DatumId) (id : DatumId) : bool :=
  match after with Some a => a <? id | None => true end.
Definition ids_after (l : DatumLog) (after : option DatumId) : list DatumId :=
  merge_sort Z.le (base.filter (λ id, is_after after id = true) (map fst (map_to_list (index_ l)))).
Definition list_ids (l : DatumLog) (after : option DatumId) (limit : nat) : list (DatumId * Z) :=
  map (λ id, (id, default 0 (n_of l id))) (take limit (ids_after l after)).

(** ** Reading records *)

(** A record that fits the format: its length is a [u32], its factor a [u16]. *)
Definition record_ok (kind : Z) (id : DatumId) (n : Z) (body : bytes) : Prop :=
  0 <= kind < 256 /\ datum_ok id /\ u16_ok n /\ zlen body + 19 < 2 ^ 32.

Lemma zlen_record_payload k id n b : zlen (record_payload k id n b) = 19 + zlen b.
Proof. unfold record_payload. autorewrite with zlen. lia. Qed.
Lemma zlen_encode_record k id n b : zlen (encode_record k id n b) = 27 + zlen b.
Proof. unfold encode_record. autorewrite with zlen. rewrite zlen_record_payload. lia. Qed.
#[export] Hint Rewrite zlen_record_payload zlen_encode_record : zlen.

Lemma read_at_app pre bs post n :
  zlen bs = n -> read_at (pre ++ bs ++ post) (zlen pre) n = Ok bs.
Proof.
  intros <-. unfold read_at. pose proof (zlen_nonneg post). autorewrite with zlen.
  rewrite (proj2 (Z.ltb_ge _ _)) by lia. f_equal. apply sub_bytes_app.
Qed.

Lemma read_record_encode pre k id n b post file_len :
  record_ok k id n b -> zlen pre + 27 + zlen b <= file_len ->
  read_record_at (pre ++ encode_record k id n b ++ post) (zlen pre) file_len =
    Ok (Some (mkRaw k id n b (zlen pre + 27 + zlen b))).
Proof.
  intros (Hk & Hid & Hn & Hb) Hfl. pose proof (zlen_nonneg b). pose proof (zlen_nonneg pre).
  unfold read_record_at. rewrite (proj2 (Z.ltb_ge _ _)) by lia.
  unfold encode_record. set (p := record_payload k id n b).
  assert (zlen p = 19 + zlen b) as Hp by apply zlen_record_payload.
  rewrite wrap_small by (unfold uint_ok; lia). rewrite <- !app_assoc.
  rewrite read_at_app by (by rewrite zlen_to_le). rsimpl. rewrite from_le_to_le by (unfold uint_ok; lia).
  rewrite (proj2 (Z.ltb_ge _ _)), (proj2 (Z.ltb_ge _ _)) by lia. cbn [orb].
  assert (forall bs' m, zlen bs' = m ->
    read_at (pre ++ to_le 4 (zlen p) ++ bs' ++ to_le 4 (crc32 p) ++ post) (zlen pre + 4) m = Ok bs') as HR1.
  { intros bs' m Hm. pose proof (read_at_app (pre ++ to_le 4 (zlen p)) bs' (to_le 4 (crc32 p) ++ post) m Hm) as HR.
    rewrite <- app_assoc, zlen_app, zlen_to_le in HR. exact HR. }
  rewrite HR1 by done. rsimpl.
  pose proof (read_at_app (pre ++ to_le 4 (zlen p) ++ p) (to_le 4 (crc32 p)) post 4) as HR2.
  rewrite <- !app_assoc, !zlen_app in HR2. rewrite (zlen_to_le 4 (zlen p)) in HR2.
  replace (zlen pre + 4 + zlen p) with (zlen pre + (Z.of_nat 4 + zlen p)) by lia.
  rewrite HR2 by (by rewrite zlen_to_le). rsimpl.
  rewrite from_le_to_le by apply crc32_range. rewrite Z.eqb_refl. cbn [negb].
  unfold p, record_payload. pose proof (zlen_nonneg b). fixed_read. rsimpl.
  rewrite byte_val_u8_small by done. fold (from_bytes (as_bytes id)).
  rewrite from_bytes_as_bytes, from_le_to_le by done. do 3 f_equal. 
  autorewrite with zlen. lia.
Qed.

(** A file that stops inside a record is read as the end of the log. *)
Lemma read_record_torn pre k id n b torn :
  record_ok k id n b -> torn `prefix_of` encode_record k id n b -> zlen torn < 27 + zlen b ->
  read_record_at (pre ++ torn) (zlen pre) (zlen pre + zlen torn) = Ok None.
Proof.
  intros (_ & _ & _ & Hb) [s Hs] Ht. pose proof (zlen_nonneg b). unfold read_record_at.
  destruct (Z.ltb_spec (zlen pre + zlen torn) (zlen pre + 4)) as [|H4]; [done|].
  assert (torn = to_le 4 (19 + zlen b) ++ drop 4 torn) as Hd.
  { rewrite <- (take_drop 4 torn) at 1. f_equal. unfold encode_record in Hs.
    rewrite zlen_record_payload, wrap_small in Hs by (unfold uint_ok; lia).
    rewrite <- (take_drop 4 torn), <- app_assoc in Hs. symmetry. eapply (proj1 (app_inj_1 _ _ _ _ _ Hs)).
    Unshelve. rewrite length_to_le, length_take. unfold zlen in *. lia. }
  rewrite Hd at 1. rewrite read_at_app by (by rewrite zlen_to_le). rsimpl.
  rewrite from_le_to_le by (unfold uint_ok; lia).
  rewrite (proj2 (Z.ltb_lt (zlen pre + zlen torn) _)) by lia. by rewrite orb_true_r.
Qed.

(** Records already written are read the same once the file has grown. *)
Lemma read_at_extend f x off n bs : 0 <= off -> 0 <= n -> read_at f off n = Ok bs -> read_at (f ++ x) off n = Ok bs.
Proof.
  intros Ho Hn. unfold read_at. destruct (Z.ltb_spec (zlen f) (off + n)) as [|H]; [done|].
  intros [= <-]. pose proof (zlen_nonneg x). rewrite zlen_app, (proj2 (Z.ltb_ge _ _)) by lia. f_equal.
  unfold sub_bytes, zlen in *. rewrite drop_app_le by lia. apply take_app_le. rewrite length_drop. lia.
Qed.

Lemma read_record_extend f x off fl fl' r :
  0 <= off -> fl <= fl' -> read_record_at f off fl = Ok (Some r) -> read_record_at (f ++ x) off fl' = Ok (Some r).
Proof.
  intros Ho Hfl. unfold read_record_at. destruct (Z.ltb_spec fl (off + 4)); [done|].
  rewrite (proj2 (Z.ltb_ge _ _)) by lia.
  destruct (read_at f off 4) as [lb| |] eqn:E1; [|done..]. rsimpl.
  rewrite (read_at_extend f x off 4 lb Ho ltac:(lia) E1). rsimpl. pose proof (from_le_range lb) as [H0 _].
  destruct (Z.ltb_spec (from_le lb) 19); [done|]. cbn [orb].
  destruct (Z.ltb_spec fl (off + 4 + from_le lb + 4)); [done|]. rewrite (proj2 (Z.ltb_ge _ _)) by lia.
  destruct (read_at f (off + 4) (from_le lb)) as [p| |] eqn:E2; [|done..].
  rewrite (read_at_extend f x (off + 4) (from_le lb) p ltac:(lia) H0 E2). rsimpl.
  destruct (read_at f (off + 4 + from_le lb) 4) as [c| |] eqn:E3; [|done..].
  by rewrite (read_at_extend f x (off + 4 + from_le lb) 4 c ltac:(lia) ltac:(lia) E3).
Qed.

(** ** The log as a sequence of records *)

Record Rec := mkRec { rec_kind : Z; rec_id : DatumId; rec_n : Z; rec_body : bytes }.
Definition rec_ok (r : Rec) : Prop := record_ok (rec_kind r) (rec_id r) (rec_n r) (rec_body r).
Definition enc_rec (r : Rec) : bytes := encode_record (rec_kind r) (rec_id r) (rec_n r) (rec_body r).
Definition rec_len (r : Rec) : Z := 27 + zlen (rec_body r).
Definition raw_of (r : Rec) (offset : Z) : RawRecord :=
  mkRaw (rec_kind r) (rec_id r) (rec_n r) (rec_body r) (offset + rec_len r).

Lemma zlen_enc_rec r : zlen (enc_rec r) = rec_len r.
Proof. unfold enc_rec, rec_len. by rewrite zlen_encode_record. Qed.
Lemma rec_len_pos r : 27 <= rec_len r.
Proof. unfold rec_len. pose proof (zlen_nonneg (rec_body r)). lia. Qed.

Lemma read_enc_rec pre r post fl :
  rec_ok r -> zlen pre + rec_len r <= fl ->
  read_record_at (pre ++ enc_rec r ++ post) (zlen pre) fl = Ok (Some (raw_of r (zlen pre))).
Proof.
  intros Hr Hfl. unfold enc_rec, raw_of, rec_len in *.
  rewrite read_record_encode; [|exact Hr|lia]. do 3 f_equal. lia.
Qed.

(** The index the records from [offset] on build. *)
Fixpoint replay (idx : gmap DatumId LogRef) (offset : Z) (recs : list Rec) : option (gmap DatumId LogRef) :=
  match recs with
  | [] => Some idx
  | r :: recs =>
      match recover_step idx offset (raw_of r offset) with
      | Some idx => replay idx (offset + rec_len r) recs
      | None => None
      end
  end.

Lemma replay_snoc idx offset recs r idx' :
  replay idx offset recs = Some idx' ->
  replay idx offset (recs ++ [r]) =
    recover_step idx' (offset + zlen (flat_map enc_rec recs)) (raw_of r (offset + zlen (flat_map enc_rec recs))).
Proof.
  revert idx offset. induction recs as [|x recs IH]; intros idx offset; simpl.
  - intros [= ->]. rewrite zlen_nil, Z.add_0_r. by destruct (recover_step _ _ _).
  - destruct (recover_step idx offset (raw_of x offset)) as [idx1|]; [|done]. intros H.
    rewrite (IH _ _ H), zlen_app, zlen_enc_rec. by rewrite Z.add_assoc.
Qed.

(** The scan over a well-formed log followed by a torn record. *)
Lemma recover_loop_replay recs pre tail idx idx' fuel fl :
  Forall rec_ok recs -> replay idx (zlen pre) recs = Some idx' ->
  fl = zlen pre + zlen (flat_map enc_rec recs) + zlen tail ->
  (tail = [] \/ read_record_at (pre ++ flat_map enc_rec recs ++ tail)
                  (zlen pre + zlen (flat_map enc_rec recs)) fl = Ok None) ->
  (length recs < fuel)%nat ->
  recover_loop fuel (pre ++ flat_map enc_rec recs ++ tail) fl (zlen pre) idx =
    Some (idx', zlen pre + zlen (flat_map enc_rec recs)).
Proof.
  intros HF. revert pre idx fuel. induction HF as [|r recs Hr HF IH]; intros pre idx fuel Hrep Hfl Htail Hfuel.
  - simpl in *. injection Hrep as ->. rewrite Z.add_0_r in *. destruct fuel as [|fuel]; [lia|]. cbn [recover_loop].
    destruct (Z.leb_spec fl (zlen pre)); [done|]. destruct Htail as [->|Ht]; [rewrite zlen_nil in Hfl; lia|].
    by rewrite Ht.
  - destruct fuel as [|fuel]; [lia|]. cbn [recover_loop flat_map] in *.
    rewrite zlen_app, zlen_enc_rec in *. pose proof (rec_len_pos r).
    pose proof (zlen_nonneg (flat_map enc_rec recs)). pose proof (zlen_nonneg tail).
    rewrite (proj2 (Z.leb_gt _ _)) by lia. rewrite <- app_assoc in *.
    rewrite read_enc_rec by (done || lia). simpl in Hrep.
    destruct (recover_step idx (zlen pre) (raw_of r (zlen pre))) as [idx1|]; [|done].
    change (raw_next (raw_of r (zlen pre))) with (zlen pre + rec_len r).
    specialize (IH (pre ++ enc_rec r) idx1 fuel). rewrite zlen_app, zlen_enc_rec, <- !app_assoc in IH.
    rewrite IH; [f_equal; f_equal; lia|done|lia| |simpl in Hfuel; lia].
    destruct Htail as [->|Ht]; [by left|right]. rewrite <- Ht. f_equal. lia.
Qed.

(** ** The invariant *)

(** The value a base and its deltas stand for. *)
Fixpoint chain_value (base : bytes) (ds : list Delta) : res bytes :=
  match ds with
  | [] => Ok base
  | d :: ds => v ← apply base d; chain_value v ds
  end.

Lemma chain_value_snoc base ds d : chain_value base (ds ++ [d]) = (v ← chain_value base ds; apply v d).
Proof.
  revert base. induction ds as [|x ds IH]; intros base; simpl.
  - by destruct (apply base d).
  - destruct (apply base x); simpl; [apply IH|done..].
Qed.

(** A record of the given kind and body can be read at [off]. *)
Definition holds (l : DatumLog) (off kind : Z) (id : DatumId) (body : bytes) : Prop :=
  0 <= off /\ exists n next, read_record_at (file l) off (end_offset l) = Ok (Some (mkRaw kind id n body next)).

Definition delta_at (l : DatumLog) (id : DatumId) (off : Z) (d : Delta) : Prop :=
  delta_ok d /\ holds l off KIND_DELTA id (encode_delta d).

(** The index entry [e] of [id] points at a base and the deltas on top of it. *)
Definition entry_rep (l : DatumLog) (id : DatumId) (e : LogRef) (base : bytes) (ds : list Delta) : Prop :=
  holds l (base_offset e) KIND_FULL id base /\ Forall2 (delta_at l id) (deltas e) ds.

Record log_inv (l : DatumLog) (recs : list Rec) : Prop := {
  inv_file : file l = header (log_id l) ++ flat_map enc_rec recs;
  inv_log_id : zlen (log_id l) = 16;
  inv_end : end_offset l = zlen (file l);
  inv_recs : Forall rec_ok recs;
  inv_replay : replay ∅ HEADER_LEN recs = Some (index_ l);
  inv_entries : forall id e, index_ l !! id = Some e -> exists base ds, entry_rep l id e base ds
}.

Definition log_ok (l : DatumLog) : Prop := exists recs, log_inv l recs.

Lemma replay_deltas_spec l id offs ds v :
  Forall2 (delta_at l id) offs ds ->
  replay_deltas (file l) (end_offset l) offs v = chain_value v ds.
Proof.
  intros HF. revert v. induction HF as [|off d offs ds [Hd [_ (n & nx & Hr)]] HF IH]; intros v; [done|].
  simpl. rewrite Hr. rsimpl. simpl raw_body. rewrite decode_encode_delta by done. rsimpl.
  destruct (apply v d); rsimpl; [apply IH|done..].
Qed.

Lemma get_entry l id e base ds :
  index_ l !! id = Some e -> entry_rep l id e base ds -> get l id = Some <$> chain_value base ds.
Proof.
  intros He [[_ (n & nx & Hr)] HF]. unfold get. rewrite He, Hr. rsimpl. simpl raw_body.
  rewrite (replay_deltas_spec l id _ _ _ HF). by destruct (chain_value base ds).
Qed.

Lemma get_absent l id : index_ l !! id = None -> get l id = Ok None.
Proof. intros H. unfold get. by rewrite H. Qed.

(** *** Appending a record *)

Lemma write_at_end f bs : write_at f (zlen f) bs = f ++ bs.
Proof.
  unfold write_at, zlen. rewrite Nat2Z.id, take_ge, drop_ge by lia. by rewrite app_nil_r.
Qed.

(** Appending [r] and moving the index to what [r] makes of it. *)
Definition appended (l : DatumLog) (r : Rec) (idx : gmap DatumId LogRef) : DatumLog :=
  mkDatumLog (file l ++ enc_rec r) idx (end_offset l + rec_len r) (log_id l).

Lemma append_set_index l r idx :
  end_offset l = zlen (file l) ->
  set_index (append l (rec_kind r) (rec_id r) (rec_n r) (rec_body r)).2 idx = appended l r idx.
Proof.
  intros He. unfold set_index, append, appended. simpl. rewrite He, write_at_end.
  rewrite zlen_record_payload. unfold rec_len. f_equal. lia.
Qed.

Lemma holds_appended l r idx off kind id body :
  holds l off kind id body -> holds (appended l r idx) off kind id body.
Proof.
  intros [H0 (n & nx & Hr)]. split; [done|]. exists n, nx. unfold appended. simpl.
  pose proof (rec_len_pos r). eapply read_record_extend; [done| |exact Hr]. lia.
Qed.

Lemma entry_rep_appended l r idx id e base ds :
  entry_rep l id e base ds -> entry_rep (appended l r idx) id e base ds.
Proof.
  intros [Hb HF]. split; [by apply holds_appended|]. eapply Forall2_impl; [exact HF|].
  intros off d [Hd Ho]. split; [done|by apply holds_appended].
Qed.

Lemma holds_new l r idx :
  rec_ok r -> end_offset l = zlen (file l) ->
  holds (appended l r idx) (end_offset l) (rec_kind r) (rec_id r) (rec_body r).
Proof.
  intros Hr He. pose proof (zlen_nonneg (file l)). split; [lia|]. eexists _, _. unfold appended. simpl.
  rewrite He. pose proof (read_enc_rec (file l) r [] (zlen (file l) + rec_len r) Hr) as HR.
  rewrite app_nil_r in HR. apply HR. lia.
Qed.

Lemma zlen_header id : zlen id = 16 -> zlen (header id) = HEADER_LEN.
Proof. intros H. unfold header, MAGIC. rewrite !zlen_app, zlen_to_le, H. done. Qed.

Lemma log_inv_appended l recs r idx :
  log_inv l recs -> rec_ok r ->
  recover_step (index_ l) (end_offset l) (raw_of r (end_offset l)) = Some idx ->
  (forall id e, idx !! id = Some e -> exists base ds, entry_rep (appended l r idx) id e base ds) ->
  log_inv (appended l r idx) (recs ++ [r]).
Proof.
  intros [Hf Hid He Hok Hrep Hent] Hr Hstep Hent'. split; simpl; try done.
  - rewrite Hf, flat_map_app, <- app_assoc. simpl. by rewrite app_nil_r.
  - rewrite zlen_app, zlen_enc_rec. lia.
  - apply Forall_app. by split; [|constructor].
  - rewrite (replay_snoc _ _ _ _ _ Hrep).
    assert (HEADER_LEN + zlen (flat_map enc_rec recs) = end_offset l) as ->; [|exact Hstep].
    rewrite He, Hf, zlen_app, zlen_header by done. done.
Qed.

(** An append leaves the ids whose entry it keeps as they were. *)
Lemma get_appended_ne l recs r idx id :
  log_inv l recs -> idx !! id = index_ l !! id -> get (appended l r idx) id = get l id.
Proof.
  intros HI Hidx. destruct (index_ l !! id) as [e|] eqn:E.
  - destruct (inv_entries l recs HI id e E) as (base & ds & HR).
    rewrite (get_entry l id e base ds E HR).
    by apply (get_entry (appended l r idx) id e), entry_rep_appended.
  - rewrite (get_absent l id E). by apply get_absent.
Qed.

(** The entries an append keeps are still represented. *)
Lemma kept_entries l recs r idx id e :
  log_inv l recs -> index_ l !! id = Some e ->
  exists base ds, entry_rep (appended l r idx) id e base ds.
Proof.
  intros HI He. destruct (inv_entries l recs HI id e He) as (base & ds & HR).
  exists base, ds. by apply entry_rep_appended.
Qed.

(** *** The three writes *)

Definition full_rec (id : DatumId) (content : bytes) (n : Z) : Rec := mkRec KIND_FULL id n content.
Definition delta_rec (id : DatumId) (d : Delta) (n : Z) : Rec := mkRec KIND_DELTA id n (encode_delta d).
Definition tombstone_rec (id : DatumId) : Rec := mkRec KIND_TOMBSTONE id 0 [].

Lemma put_full_inv l recs id content n :
  log_inv l recs -> rec_ok (full_rec id content n) ->
  log_inv (put_full l id content n) (recs ++ [full_rec id content n]) /\
  get (put_full l id content n) id = Ok (Some content) /\
  forall id', id' <> id -> get (put_full l id content n) id' = get l id'.
Proof.
  intros HI Hr. set (r := full_rec id content n) in *.
  set (idx := <[id := full_ref (end_offset l) content n]> (index_ l)).
  assert (put_full l id content n = appended l r idx) as ->.
  { apply (append_set_index l r idx), (inv_end l recs HI). }
  assert (entry_rep (appended l r idx) id (full_ref (end_offset l) content n) content []) as HE.
  { split; [|constructor]. apply (holds_new l r idx Hr), (inv_end l recs HI). }
  split; [|split].
  - apply log_inv_appended; [done..|]. intros id' e. unfold idx.
    rewrite lookup_insert_Some. intros [[<- <-]|[_ He]]; [by eexists _, _|by eapply kept_entries].
  - rewrite (get_entry _ id (full_ref (end_offset l) content n) content []); [done| |exact HE].
    unfold idx. simpl. by rewrite lookup_insert_eq.
  - intros id' Hne. apply (get_appended_ne l recs); [done|]. unfold idx. by rewrite lookup_insert_ne.
Qed.

Lemma delete_inv l recs id :
  log_inv l recs -> datum_ok id ->
  log_inv (log_delete l id) (recs ++ [tombstone_rec id]) /\
  get (log_delete l id) id = Ok None /\
  forall id', id' <> id -> get (log_delete l id) id' = get l id'.
Proof.
  intros HI Hid. set (r := tombstone_rec id).
  assert (log_delete l id = appended l r (delete id (index_ l))) as ->.
  { apply (append_set_index l r (delete id (index_ l))), (inv_end l recs HI). }
  split; [|split].
  - apply log_inv_appended; [done|by split_and!|done|]. intros id' e.
    rewrite lookup_delete_Some. intros [_ He]. by eapply kept_entries.
  - apply get_absent. unfold appended. simpl. apply lookup_delete_eq.
  - intros id' Hne. apply (get_appended_ne l recs); [done|]. by rewrite lookup_delete_ne.
Qed.

(** The delta appended without a rebase. *)
Lemma append_delta_inv l recs id d n e :
  log_inv l recs -> index_ l !! id = Some e -> delta_ok d -> rec_ok (delta_rec id d n) ->
  let idx := <[id := push_delta e (end_offset l) (encode_delta d) (new_total_len d) n]> (index_ l) in
  let l' := appended l (delta_rec id d n) idx in
  log_inv l' (recs ++ [delta_rec id d n]) /\
  get l' id = (v ← get l id; match v with Some v => Some <$> apply v d | None => Ok None end) /\
  forall id', id' <> id -> get l' id' = get l id'.
Proof.
  intros HI He Hd Hr idx l'.
  destruct (inv_entries l recs HI id e He) as (base & ds & HR).
  assert (entry_rep l' id (push_delta e (end_offset l) (encode_delta d) (new_total_len d) n) base (ds ++ [d]))
    as HE.
  { apply (entry_rep_appended l (delta_rec id d n) idx) in HR as [Hb HF]. split; [exact Hb|].
    apply Forall2_app; [exact HF|]. constructor; [|constructor]. split; [done|].
    apply (holds_new l (delta_rec id d n) idx Hr), (inv_end l recs HI). }
  split; [|split].
  - apply log_inv_appended; [done..| |].
    + unfold recover_step. simpl. rewrite He, decode_encode_delta by done. done.
    + intros id' e'. unfold idx. rewrite lookup_insert_Some.
      intros [[<- <-]|[_ He']]; [by eexists _, _|by eapply kept_entries].
  - rewrite (get_entry l' id (push_delta e (end_offset l) (encode_delta d) (new_total_len d) n) base (ds ++ [d]));
      [|unfold l', idx; simpl; by rewrite lookup_insert_eq|exact HE].
    rewrite (get_entry l id e base ds He HR), chain_value_snoc.
    by destruct (chain_value base ds).
  - intros id' Hne. apply (get_appended_ne l recs); [done|]. unfold idx. by rewrite lookup_insert_ne.
Qed.

(** What a patch may carry: it and the value it makes fit one record. *)
Definition patch_ok (id : DatumId) (d : Delta) (n : Z) : Prop :=
  datum_ok id /\ delta_ok d /\ u16_ok n /\ encoded_len d + 19 < 2 ^ 32 /\ new_total_len d + 19 < 2 ^ 32.

(** The specification of a patch on the value an id reads as. *)
Definition patched (v : res (option bytes)) (d : Delta) : res (option bytes) :=
  v ← v; match v with Some v => Some <$> apply v d | None => Ok None end.

Lemma put_delta_inv l recs id d n :
  log_inv l recs -> patch_ok id d n ->
  match put_delta l id d n with
  | Ok (NeedFull, l') => l' = l /\ get l id = Ok None
  | Ok (Applied, l') => (exists r, log_inv l' (recs ++ [r])) /\ log_id l' = log_id l /\
      get l' id = patched (get l id) d /\ forall id', id' <> id -> get l' id' = get l id'
  | Err m => patched (get l id) d = Err m
  | Panic => False
  end.
Proof.
  intros HI (Hid & Hd & Hn & Hlen & Hnew). unfold put_delta.
  destruct (index_ l !! id) as [e|] eqn:He; [|split; [done|by apply get_absent]].
  destruct (inv_entries l recs HI id e He) as (base & ds & HR).
  pose proof (get_entry l id e base ds He HR) as Hget.
  destruct (must_rebase e (encode_delta d)).
  - rewrite Hget. 
    assert (forall b ds, Forall delta_ok ds -> chain_value b ds <> Panic) as Hcp.
    { clear. intros b ds HF. revert b. induction HF as [|d ds Hd HF IH]; intros b; simpl; [done|].
      pose proof (apply_spec b d Hd). destruct (apply b d); simpl; [apply IH|done..]. }
    assert (Forall delta_ok ds) as HF.
    { destruct HR as [_ HF]. clear -HF. induction HF as [|??? ? [? _]]; by constructor. }
    specialize (Hcp base ds HF). destruct (chain_value base ds) as [v|m|]; simpl; [|done|done].
    pose proof (apply_spec v d Hd) as Ha. unfold patched. destruct (apply v d) as [v'| |] eqn:Ea; simpl; [|done..].
    assert (rec_ok (full_rec id v' n)) as Hr by (split_and!; simpl; [done..|lia]).
    destruct (put_full_inv l recs id v' n HI Hr) as (H1 & H2 & H3). by split_and!; [eauto|..].
  - assert (rec_ok (delta_rec id d n)) as Hr.
    { split_and!; simpl; [done..|]. rewrite zlen_encode_delta. lia. }
    destruct (append_delta_inv l recs id d n e HI He Hd Hr) as (H1 & H2 & H3).
    pose proof (append_set_index l (delta_rec id d n)
      (<[id := push_delta e (end_offset l) (encode_delta d) (new_total_len d) n]> (index_ l))
      (inv_end l recs HI)) as HA. unfold append, set_index in *. cbn in HA |- *. rewrite He.
    split_and!; [exists (delta_rec id d n)|done| |].
    + by rewrite HA.
    + rewrite HA. exact H2.
    + intros id' Hne. rewrite HA. by apply H3.
Qed.

(** ** Operations as one step *)

Inductive log_op :=
| LPut (id : DatumId) (content : bytes) (n : Z)
| LPatch (id : DatumId) (d : Delta) (n : Z)
| LDelete (id : DatumId).

Definition log_op_ok (o : log_op) : Prop :=
  match o with
  | LPut id content n => rec_ok (full_rec id content n)
  | LPatch id d n => patch_ok id d n
  | LDelete id => datum_ok id
  end.

Definition log_exec (l : DatumLog) (o : log_op) : res DatumLog :=
  match o with
  | LPut id content n => Ok (put_full l id content n)
  | LPatch id d n => snd <$> put_delta l id d n
  | LDelete id => Ok (log_delete l id)
  end.

(** The specification: what each id reads as. *)
Definition contents := DatumId -> res (option bytes).
Definition set_content (m : contents) (id : DatumId) (v : res (option bytes)) : contents :=
  λ id', if id' =? id then v else m id'.
Definition spec_exec (m : contents) (o : log_op) : contents :=
  match o with
  | LPut id content _ => set_content m id (Ok (Some content))
  | LPatch id d _ => set_content m id (patched (m id) d)
  | LDelete id => set_content m id (Ok None)
  end.

Lemma set_content_intro (g m : contents) id v :
  g id = v -> (forall id', id' <> id -> g id' = m id') -> forall id', g id' = set_content m id v id'.
Proof.
  intros H1 H2 id'. unfold set_content. destruct (Z.eqb_spec id' id) as [->|]; [done|by apply H2].
Qed.

Lemma log_exec_spec l recs o :
  log_inv l recs -> log_op_ok o ->
  match log_exec l o with
  | Ok l' => (exists tail, log_inv l' (recs ++ tail) /\ (length tail <= 1)%nat) /\
      log_id l' = log_id l /\ forall id, get l' id = spec_exec (get l) o id
  | Err m => exists id d n, o = LPatch id d n /\ patched (get l id) d = Err m
  | Panic => False
  end.
Proof.
  intros HI Hok. destruct o as [id content n|id d n|id]; simpl in *.
  - destruct (put_full_inv l recs id content n HI Hok) as (H1 & H2 & H3).
    split; [by eexists|]. split; [done|]. by apply set_content_intro.
  - pose proof (put_delta_inv l recs id d n HI Hok) as HP.
    destruct (put_delta l id d n) as [[[|] l']|m|]; simpl; [| |by exists id, d, n|done].
    + destruct HP as ((r & H1) & Hid & H2 & H3). split; [by exists [r]|].
      split; [done|]. by apply set_content_intro.
    + destruct HP as [-> H]. split; [exists []; rewrite app_nil_r; split; [done|simpl; lia]|].
      split; [done|]. apply set_content_intro; [|done]. unfold patched. by rewrite H.
  - destruct (delete_inv l recs id HI Hok) as (H1 & H2 & H3).
    split; [by eexists|]. split; [done|]. by apply set_content_intro.
Qed.

(** A fresh log. *)
Definition fresh_log (id : bytes) : DatumLog := mkDatumLog (header id) ∅ HEADER_LEN id.

Lemma fresh_inv id : zlen id = 16 -> log_inv (fresh_log id) [].
Proof.
  intros H. split; simpl; try done.
  - by rewrite app_nil_r.
  - by rewrite zlen_header.
Qed.

(** ** Reopening *)

Lemma length_records recs : (length recs <= length (flat_map enc_rec recs))%nat.
Proof.
  induction recs as [|r recs IH]; simpl; [lia|]. rewrite length_app.
  pose proof (zlen_enc_rec r) as Hz. pose proof (rec_len_pos r). unfold zlen in Hz. lia.
Qed.

(** A crash image of a log: its file and whatever part of one more record
    reached the disk. *)
Definition torn_record (torn : bytes) : Prop :=
  torn = [] \/ exists r, rec_ok r /\ torn `prefix_of` enc_rec r /\ zlen torn < rec_len r.

Lemma recover_torn l recs torn :
  log_inv l recs -> torn_record torn ->
  recover (file l ++ torn) (zlen (file l) + zlen torn) (log_id l) = Ok l.
Proof.
  intros HI Ht. destruct HI as [Hf Hid He Hok Hrep Hent]. unfold recover.
  pose proof (zlen_header (log_id l) Hid) as Hh. pose proof (zlen_nonneg torn).
  assert (zlen (file l) = HEADER_LEN + zlen (flat_map enc_rec recs)) as Hl by (rewrite Hf, zlen_app, Hh; lia).
  pose proof (recover_loop_replay recs (header (log_id l)) torn ∅ (index_ l)
    (length (file l ++ torn)) (zlen (file l) + zlen torn) Hok) as HR.
  rewrite Hh, app_assoc, <- Hf, <- Hl in HR. rewrite HR; [|done|lia| |].
  - f_equal. destruct l; simpl in *. rewrite He. unfold zlen. by rewrite Nat2Z.id, take_app_length.
  - destruct Ht as [->|(r & Hr & Hp & Hlt)]; [by left|right].
    unfold rec_len in Hlt. by eapply read_record_torn.
  - rewrite length_app. rewrite Hf, length_app. pose proof (length_records recs).
    assert (0 < length (header (log_id l)))%nat by (unfold zlen, HEADER_LEN in Hh; lia). lia.
Qed.

Lemma slice_header id :
  zlen id = 16 ->
  slice (header id) 0 4 = Ok MAGIC /\ slice (header id) 4 6 = Ok (to_le 2 FORMAT_VERSION) /\
  slice (header id) 6 22 = Ok id.
Proof.
  intros Hid. unfold header. assert (zlen MAGIC = 4) as Hm by done. split_and!.
  - by apply slice_here.
  - rewrite slice_skip by lia. rewrite Hm. apply slice_here. by rewrite zlen_to_le.
  - rewrite slice_skip, slice_skip by (rewrite ?Hm, ?zlen_to_le; lia). rewrite Hm, zlen_to_le.
    apply slice_all. rewrite Hid. lia.
Qed.

Lemma open_torn l recs torn fresh :
  log_inv l recs -> torn_record torn -> open (file l ++ torn) fresh = Ok l.
Proof.
  intros HI Ht. pose proof (recover_torn l recs torn HI Ht) as HR. destruct HI as [Hf Hid He _ _ _].
  pose proof (zlen_header (log_id l) Hid) as Hh. pose proof (zlen_nonneg torn).
  pose proof (zlen_nonneg (flat_map enc_rec recs)). unfold open.
  assert (zlen (file l ++ torn) = HEADER_LEN + zlen (flat_map enc_rec recs) + zlen torn) as Hz
    by (rewrite Hf, !zlen_app, Hh; lia).
  assert (read_at (file l ++ torn) 0 HEADER_LEN = Ok (header (log_id l))) as Hrd.
  { rewrite Hf, <- app_assoc. by apply (read_at_app [] (header (log_id l))). }
  unfold HEADER_LEN in *. rewrite (proj2 (Z.eqb_neq _ _)) by lia. rewrite Hrd. rsimpl.
  destruct (slice_header (log_id l) Hid) as (Hm & Hv & Hi). rewrite Hm. rsimpl.
  rewrite bool_decide_eq_true_2 by done. cbn [negb]. rewrite Hv. rsimpl.
  rewrite from_le_to_le by done. cbn [negb Z.eqb FORMAT_VERSION Pos.eqb]. rewrite Hi. rsimpl.
  rewrite Z.max_l by lia. rewrite Hz. rewrite <- HR. f_equal. rewrite Hf, !zlen_app, Hh. lia.
Qed.

Lemma open_fresh fresh : zlen fresh = 16 -> open [] fresh = Ok (fresh_log fresh).
Proof.
  intros H. unfold open. rewrite zlen_nil. simpl.
  pose proof (recover_torn (fresh_log fresh) [] [] (fresh_inv fresh H) (or_introl eq_refl)) as HR.
  rewrite app_nil_r in HR. simpl in HR. rewrite zlen_header, zlen_nil in HR by done. exact HR.
Qed.


(** C2: a crash loses at most the write that was not acknowledged. If the disk
    holds the log and any part of the next operation's record short of all of
    it, reopening gives exactly the log before that operation; once the record
    is whole, reopening gives the log after it. *)
Theorem crash_recovery_is_atomic (l l' : DatumLog) (o : log_op) (torn fresh : bytes) :
  log_ok l -> log_op_ok o -> log_exec l o = Ok l' ->
  (file l ++ torn) `prefix_of` file l' ->
  open (file l ++ torn) fresh = Ok (if bool_decide (file l ++ torn = file l') then l' else l).
Proof.
  intros [recs HI] Hok HE [rest Hp]. pose proof (log_exec_spec l recs o HI Hok) as HS. rewrite HE in HS.
  destruct HS as [(tail & HI' & Hlen) [Hid _]]. case_bool_decide as Heq.
  - rewrite Heq. pose proof (open_torn l' _ [] fresh HI' (or_introl eq_refl)) as HO.
    by rewrite app_nil_r in HO.
  - apply (open_torn l recs); [done|].
    rewrite (inv_file l' _ HI'), Hid, flat_map_app, app_assoc, <- (inv_file l recs HI), <- app_assoc in Hp.
    apply app_inv_head in Hp.
    destruct tail as [|r [|]]; simpl in Hp, Hlen; [| |lia].
    + left. by destruct torn.
    + right. rewrite app_nil_r in Hp. exists r.
      pose proof (inv_recs l' _ HI') as HF. apply Forall_app in HF as [_ HF]. apply Forall_inv in HF.
      split; [done|]. split; [by exists rest|]. rewrite <- zlen_enc_rec, Hp, zlen_app.
      destruct rest as [|]; [|rewrite zlen_cons; pose proof (zlen_nonneg rest); lia].
      exfalso. apply Heq. rewrite (inv_file l' _ HI'), Hid, flat_map_app, app_assoc, <- (inv_file l recs HI).
      simpl. by rewrite app_nil_r, Hp, app_nil_r.
Qed.

(** ** Sequences of operations *)

(** The log after a run; an operation that fails leaves the log as it was. *)
Fixpoint log_run (l : DatumLog) (ops : list log_op) : DatumLog :=
  match ops with
  | [] => l
  | o :: ops => log_run (match log_exec l o with Ok l' => l' | _ => l end) ops
  end.

Definition chain_ok (l : DatumLog) : Prop :=
  map_Forall (λ _ e, zlen (deltas e) <= MAX_DELTA_CHAIN) (index_ l).

Lemma put_full_chain l id content n : chain_ok l -> chain_ok (put_full l id content n).
Proof. intros H. apply map_Forall_insert_2; [done|exact H]. Qed.

Lemma put_delta_chain l id d n out l' : chain_ok l -> put_delta l id d n = Ok (out, l') -> chain_ok l'.
Proof.
  intros H. unfold put_delta. destruct (index_ l !! id) as [e|] eqn:He; [|by intros [= _ <-]].
  destruct (must_rebase e (encode_delta d)) eqn:Hm.
  - destruct (get l id) as [[v|]| |]; simpl; [|done..]. destruct (apply v d); simpl; [|done..].
    intros [= _ <-]. by apply put_full_chain.
  - unfold append. simpl. rewrite He. intros [= _ <-]. apply map_Forall_insert_2; [|exact H]. simpl.
    apply orb_false_iff in Hm as [Hm _]. apply Z.ltb_ge in Hm. rewrite zlen_app. exact Hm.
Qed.

Lemma log_exec_chain l o l' : chain_ok l -> log_exec l o = Ok l' -> chain_ok l'.
Proof.
  intros H. destruct o as [id c n|id d n|id]; simpl.
  - intros [= <-]. by apply put_full_chain.
  - destruct (put_delta l id d n) as [[out l1]| |] eqn:E; [|done..]. intros [= <-].
    by eapply put_delta_chain.
  - intros [= <-]. by apply map_Forall_delete.
Qed.

Lemma log_run_chain ops l : chain_ok l -> chain_ok (log_run l ops).
Proof.
  revert l. induction ops as [|o ops IH]; intros l H; simpl; [done|]. apply IH.
  destruct (log_exec l o) as [l'| |] eqn:E; [by eapply log_exec_chain|done..].
Qed.

Lemma log_run_ok ops l : log_ok l -> Forall log_op_ok ops -> log_ok (log_run l ops).
Proof.
  intros Hl HF. revert l Hl. induction HF as [|o ops Ho HF IH]; intros l Hl; simpl; [done|]. apply IH.
  destruct Hl as [recs HI]. pose proof (log_exec_spec l recs o HI Ho) as HE.
  destruct (log_exec l o) as [l'| |]; [|by eexists|by eexists].
  destruct HE as [(tail & H & _) _]. by eexists.
Qed.

(** C34: reading a datum replays a bounded chain. Whatever operations ran on a
    log since it was created, and after a crash and a reopen at any point of the
    next record too, no datum has more than [MAX_DELTA_CHAIN] deltas on top of
    its base, so [get] reads at most nine records. *)
Theorem delta_chains_stay_bounded (id fresh torn : bytes) (ops : list log_op) (l : DatumLog) :
  zlen id = 16 -> Forall log_op_ok ops -> torn_record torn ->
  open (file (log_run (fresh_log id) ops) ++ torn) fresh = Ok l ->
  l = log_run (fresh_log id) ops /\
  forall i e, index_ l !! i = Some e -> zlen (deltas e) <= MAX_DELTA_CHAIN.
Proof.
  intros Hid Hops Ht Ho.
  assert (log_ok (fresh_log id)) as H0 by (exists []; by apply fresh_inv).
  destruct (log_run_ok ops (fresh_log id) H0 Hops) as [recs HI].
  rewrite (open_torn _ recs torn fresh HI Ht) in Ho. injection Ho as <-. split; [done|].
  apply (log_run_chain ops (fresh_log id)), map_Forall_empty.
Qed.

(** ** Enumeration *)

Lemma elem_of_ids_after l after id :
  id ∈ ids_after l after <-> is_after after id = true /\ is_Some (index_ l !! id).
Proof.
  unfold ids_after. rewrite (merge_sort_Permutation Z.le _), list_elem_of_filter, list_elem_of_fmap. split.
  - intros [Ha ([i e] & -> & Hi)]. apply elem_of_map_to_list in Hi. by split; [|eexists].
  - intros [Ha [e He]]. split; [done|]. exists (id, e). by rewrite elem_of_map_to_list.
Qed.

Lemma ids_after_sorted l after : StronglySorted Z.lt (ids_after l after).
Proof.
  assert (NoDup (ids_after l after)) as Hnd.
  { unfold ids_after. rewrite (merge_sort_Permutation Z.le _).
    apply NoDup_filter, (NoDup_fst_map_to_list (index_ l)). }
  assert (StronglySorted Z.le (ids_after l after)) as Hs by apply (StronglySorted_merge_sort Z.le).
  induction Hs as [|x xs Hs IH HF]; constructor.
  - apply IH. by apply NoDup_cons in Hnd as [_ ?].
  - apply NoDup_cons in Hnd as [Hx _]. rewrite Forall_forall in HF |- *. intros y Hy.
    specialize (HF y Hy). assert (x <> y) by (by intros ->). lia.
Qed.

Lemma StronglySorted_app_lt (xs ys : list Z) :
  StronglySorted Z.lt (xs ++ ys) -> StronglySorted Z.lt xs /\ forall x y, x ∈ xs -> y ∈ ys -> x < y.
Proof.
  induction xs as [|a xs IH]; simpl; [split; [constructor|]; intros x y Hx; by apply elem_of_nil in Hx|].
  intros H. apply StronglySorted_inv in H as [H HF]. destruct (IH H) as [Hs Hlt].
  apply Forall_app in HF as [HF1 HF2]. split; [by constructor|].
  intros x y Hx Hy. apply elem_of_cons in Hx as [->|Hx]; [|by apply Hlt].
  rewrite Forall_forall in HF2. by apply HF2.
Qed.

(** The id enumeration pages through the whole log. A page is strictly
    ascending, holds only ids after the cursor that are in the index, each with
    the factor stored for it, and at most [limit] of them; an id after the cursor
    that is not on the page is greater than all that are, so the next page
    starts where this one ends; and a page shorter than [limit] is the last. *)
Theorem list_ids_pages (l : DatumLog) (after : option DatumId) (limit : nat) :
  let page := list_ids l after limit in
  StronglySorted Z.lt (map fst page) /\ (length page <= limit)%nat /\
  (forall id n, (id, n) ∈ page -> is_after after id = true /\ n_of l id = Some n) /\
  (forall id, is_after after id = true -> is_Some (index_ l !! id) ->
    id ∈ map fst page \/ (length page = limit /\ forall id', id' ∈ map fst page -> id' < id)).
Proof.
  intros page.
  assert (map fst page = take limit (ids_after l after)) as Hp.
  { unfold page, list_ids. rewrite map_map. simpl. by rewrite map_id. }
  assert (length page = length (take limit (ids_after l after))) as Hlen by (by rewrite <- Hp, length_map).
  pose proof (ids_after_sorted l after) as Hs. rewrite <- (take_drop limit (ids_after l after)) in Hs.
  apply StronglySorted_app_lt in Hs as [Hs Hlt]. rewrite Hp. split_and!.
  - done.
  - rewrite Hlen, length_take. lia.
  - intros id n. unfold page, list_ids. rewrite list_elem_of_fmap. intros (i & [= -> ->] & Hi).
    apply subseteq_take, elem_of_ids_after in Hi as [Ha [e He]]. split; [done|].
    unfold n_of. by rewrite He.
  - intros id Ha He. assert (id ∈ ids_after l after) as Hin by (by apply elem_of_ids_after).
    rewrite <- (take_drop limit (ids_after l after)) in Hin.
    apply elem_of_app in Hin as [Hin|Hin]; [by left|right]. split; [|intros id' Hi'; by apply Hlt].
    rewrite Hlen, length_take. assert (0 < length (drop limit (ids_after l after)))%nat as Hd.
    { destruct (drop limit _); [by apply elem_of_nil in Hin|simpl; lia]. }
    rewrite length_drop in Hd. lia.
Qed.

(** ** A patch that does not apply *)

(** Below the rebase thresholds a patch is acknowledged without being tried.
    If it does not apply to the datum's value, the write still reports [Applied]
    and appends it, and from then on reading the datum fails; over the
    thresholds the same patch is refused and the datum keeps its value. *)
Theorem inapplicable_patch_poisons_the_datum
    (l : DatumLog) (id : DatumId) (e : LogRef) (v : bytes) (d : Delta) (n : Z) (msg : string) :
  log_ok l -> patch_ok id d n -> index_ l !! id = Some e -> get l id = Ok (Some v) -> apply v d = Err msg ->
  if must_rebase e (encode_delta d) then put_delta l id d n = Err msg
  else exists l', put_delta l id d n = Ok (Applied, l') /\ get l' id = Err msg.
Proof.
  intros [recs HI] Hok He Hv Hd. pose proof (put_delta_inv l recs id d n HI Hok) as HP.
  unfold put_delta in *. rewrite He in *. destruct (must_rebase e (encode_delta d)).
  - rewrite Hv. simpl. by rewrite Hd.
  - unfold append in *. cbn in HP |- *. rewrite He in *. destruct HP as (_ & _ & Hget & _).
    eexists. split; [done|]. rewrite Hget, Hv. simpl. by rewrite Hd.
Qed.

(** ** Concrete runs *)

Definition demo_id : bytes := replicate 16 (u8 0).
Definition demo_value : bytes := replicate 40 (u8 1).
Definition demo_log : DatumLog := put_full (fresh_log demo_id) 7 demo_value 2.
Definition demo_patch : Delta := mkDelta 39 0 [u8 9] 40.
Definition bad_patch : Delta := mkDelta 40 1 [u8 9] 42.

Lemma demo_put_ok : log_op_ok (LPut 7 demo_value 2).
Proof. by split_and!. Qed.

Lemma demo_log_ok : log_ok demo_log.
Proof.
  assert (zlen demo_id = 16) as Hz by done.
  destruct (put_full_inv (fresh_log demo_id) [] 7 demo_value 2 (fresh_inv demo_id Hz)) as [H _];
    [apply demo_put_ok|]. by eexists.
Qed.

Lemma demo_patch_ok : patch_ok 7 demo_patch 3.
Proof. by split_and!. Qed.
Lemma bad_patch_ok : patch_ok 7 bad_patch 3.
Proof. by split_and!. Qed.

(** The image of a crash in the middle of the patch's record. *)
Definition demo_torn : bytes := take 11 (enc_rec (delta_rec 7 demo_patch 3)).

Lemma demo_torn_record : torn_record demo_torn.
Proof.
  right. exists (delta_rec 7 demo_patch 3). split; [by split_and!|]. split; [|done].
  apply prefix_take.
Qed.


Definition demo_patched : DatumLog :=
  match log_exec demo_log (LPatch 7 demo_patch 3) with Ok l => l | _ => demo_log end.

Lemma demo_exec : log_exec demo_log (LPatch 7 demo_patch 3) = Ok demo_patched.
Proof. by vm_compute. Qed.

Lemma crash_recovery_is_atomic_witness :
  (file demo_log ++ demo_torn) `prefix_of` file demo_patched /\
  open (file demo_log ++ demo_torn) demo_id = Ok demo_log.
Proof.
  assert ((file demo_log ++ demo_torn) `prefix_of` file demo_patched) as Hp.
  { exists (drop 11 (enc_rec (delta_rec 7 demo_patch 3))). by vm_compute. }
  split; [exact Hp|].
  pose proof (crash_recovery_is_atomic demo_log demo_patched (LPatch 7 demo_patch 3) demo_torn demo_id
    demo_log_ok demo_patch_ok demo_exec Hp) as H.
  rewrite bool_decide_eq_false_2 in H; [exact H|]. intros Heq. apply (f_equal length) in Heq.
  vm_compute in Heq. discriminate Heq.
Defined.

Definition demo_ops : list log_op := [LPut 7 demo_value 2; LPatch 7 demo_patch 3; LDelete 9].

Lemma demo_ops_ok : Forall log_op_ok demo_ops.
Proof. constructor; [apply demo_put_ok|constructor; [apply demo_patch_ok|constructor; [done|constructor]]]. Qed.

Lemma delta_chains_stay_bounded_witness :
  exists l, open (file (log_run (fresh_log demo_id) demo_ops) ++ demo_torn) demo_id = Ok l /\
    forall i e, index_ l !! i = Some e -> zlen (deltas e) <= MAX_DELTA_CHAIN.
Proof.
  assert (zlen demo_id = 16) as Hz by done.
  assert (log_ok (log_run (fresh_log demo_id) demo_ops)) as [recs HI].
  { apply log_run_ok; [exists []; by apply fresh_inv|apply demo_ops_ok]. }
  pose proof (open_torn _ recs demo_torn demo_id HI demo_torn_record) as Ho.
  eexists. split; [exact Ho|].
  apply (delta_chains_stay_bounded demo_id demo_id demo_torn demo_ops _ Hz demo_ops_ok demo_torn_record Ho).
Defined.

Lemma inapplicable_patch_poisons_the_datum_witness :
  exists l', put_delta demo_log 7 bad_patch 3 = Ok (Applied, l') /\
    get l' 7 = Err "delta prefix + suffix exceed the base".
Proof.
  assert (get demo_log 7 = Ok (Some demo_value)) as Hg by (by vm_compute).
  assert (apply demo_value bad_patch = Err "delta prefix + suffix exceed the base") as Ha by (by vm_compute).
  pose proof (inapplicable_patch_poisons_the_datum demo_log 7 (full_ref HEADER_LEN demo_value 2) demo_value
    bad_patch 3 "delta prefix + suffix exceed the base" demo_log_ok bad_patch_ok eq_refl Hg Ha) as H.
  change (must_rebase (full_ref HEADER_LEN demo_value 2) (encode_delta bad_patch)) with false in H. exact H.
Defined.
