(* ===== verification/Pages.v ===== *)
(** * seisin-storage: pages, nodes and the superblock

    Models [crates/seisin-storage/src/page_store.rs] (fixed-size pages of one
    file), [node.rs] (the leaf and internal page formats) and [superblock.rs]
    (page 0). The file is the list of its bytes; system calls do not fail.
    [usize] is 64 bits wide, and overflowing [u64] arithmetic is a panic. *)

From S2P Require Import Prelude.

Abbreviation PageId := Z (only parsing).
Definition NULL_PAGE : Z := 0.

(** ** Arithmetic and buffers *)

Definition add_u64 (a b : Z) : res Z := if a + b <? 2 ^ 64 then Ok (a + b) else Panic.
Definition sub_u64 (a b : Z) : res Z := if b <=? a then Ok (a - b) else Panic.
Definition mul_u64 (a b : Z) : res Z := if a * b <? 2 ^ 64 then Ok (a * b) else Panic.

Definition zeros (n : Z) : bytes := replicate (Z.to_nat n) (u8 0).

(** [buf[a..b].copy_from_slice(src)] *)
Definition copy_into (buf : bytes) (a b : Z) (src : bytes) : res bytes :=
  if (0 <=? a) && (a <=? b) && (b <=? zlen buf) && (zlen src =? b - a)
  then Ok (take (Z.to_nat a) buf ++ src ++ drop (Z.to_nat b) buf) else Panic.

(** [buf.first()] *)
Definition first_byte (buf : bytes) : option Z :=
  match buf with b :: _ => Some (byte_val b) | [] => None end.

(** ** page_store.rs *)

Record PageStore := mkPageStore { ps_file : bytes; ps_page_size : Z }.

Definition PageStore_create (page_size : Z) : PageStore := mkPageStore [] page_size.
Definition PageStore_open (f : bytes) (page_size : Z) : PageStore := mkPageStore f page_size.

Definition read_page (s : PageStore) (id : PageId) : res bytes :=
  offset ← mul_u64 id (ps_page_size s);
  let buf := zeros (ps_page_size s) in
  let file_len := zlen (ps_file s) in
  if file_len <=? offset then Ok buf else
  let to_read := ps_page_size s in
  last ← add_u64 offset to_read;
  if file_len <? last then
    let available := file_len - offset in
    got ← slice (ps_file s) offset file_len;
    copy_into buf 0 available got
  else slice (ps_file s) offset last.

(** [seek] and [write_all]; a gap past the end of the file fills with zeros. *)
Definition write_at_ext (f : bytes) (off : Z) (bs : bytes) : bytes :=
  let f := f ++ zeros (off - zlen f) in
  take (Z.to_nat off) f ++ bs ++ drop (Z.to_nat (off + zlen bs)) f.

Definition write_page (s : PageStore) (id : PageId) (bs : bytes) : res PageStore :=
  if negb (zlen bs =? ps_page_size s) then Err "write_page expected exactly one page" else
  offset ← mul_u64 id (ps_page_size s);
  Ok (mkPageStore (write_at_ext (ps_file s) offset bs) (ps_page_size s)).

Definition truncate (s : PageStore) : PageStore := mkPageStore [] (ps_page_size s).

(** ** node.rs *)

Definition NODE_HEADER_LEN : Z := 32.
Definition LEAF_PAGE_TYPE : Z := 0.
Definition INTERNAL_PAGE_TYPE : Z := 1.

(** [(page_size - NODE_HEADER_LEN) / record_len] on [usize]. *)
Definition capacity (page_size record_len : Z) : res Z :=
  room ← sub_u64 page_size NODE_HEADER_LEN;
  if record_len =? 0 then Panic else Ok (room / record_len).

Definition max_leaf_entries (page_size key_size value_size : Z) : res Z :=
  capacity page_size (key_size + value_size).
Definition max_internal_entries (page_size key_size : Z) : res Z :=
  capacity page_size (key_size + 16).

Record LeafNode := mkLeaf {
  prev : PageId;
  next : PageId;
  leaf_entries : list (bytes * bytes)
}.

Record InternalNode := mkInternal {
  int_entries : list (bytes * PageId * Z);
  rightmost_child : PageId;
  rightmost_count : Z
}.

(** The record loops both formats share. *)
Fixpoint put_records {A} (put : bytes -> Z -> A -> res bytes) (record_len : Z) (es : list A)
    (buf : bytes) (offset : Z) : res bytes :=
  match es with
  | [] => Ok buf
  | e :: es => buf ← put buf offset e; put_records put record_len es buf (offset + record_len)
  end.

Fixpoint take_records {A} (get : bytes -> Z -> res A) (record_len : Z) (n : nat)
    (buf : bytes) (offset : Z) : res (list A) :=
  match n with
  | O => Ok []
  | S n => e ← get buf offset; es ← take_records get record_len n buf (offset + record_len); Ok (e :: es)
  end.

(** The header: page type at 0, two ids at 8 and 16, the record count at 24. *)
Definition put_header (page_size page_type a b count : Z) : res bytes :=
  let buf := zeros page_size in
  buf ← copy_into buf 0 1 [u8 page_type];
  buf ← copy_into buf 8 16 (to_le 8 a);
  buf ← copy_into buf 16 24 (to_le 8 b);
  copy_into buf 24 28 (to_le 4 (wrap 32 count)).

Definition take_header (buf : bytes) : res (Z * Z * Z) :=
  a ← slice buf 8 16;
  b ← slice buf 16 24;
  count ← slice buf 24 28;
  Ok (from_le a, from_le b, from_le count).

Definition put_leaf_record (key_size value_size : Z) (buf : bytes) (offset : Z) (e : bytes * bytes) : res bytes :=
  buf ← copy_into buf offset (offset + key_size) e.1;
  copy_into buf (offset + key_size) (offset + (key_size + value_size)) e.2.

Definition take_leaf_record (key_size value_size : Z) (buf : bytes) (offset : Z) : res (bytes * bytes) :=
  key ← slice buf offset (offset + key_size);
  value ← slice buf (offset + key_size) (offset + (key_size + value_size));
  Ok (key, value).

Definition encode_leaf (node : LeafNode) (page_size key_size value_size : Z) : res bytes :=
  buf ← put_header page_size LEAF_PAGE_TYPE (prev node) (next node) (zlen (leaf_entries node));
  put_records (put_leaf_record key_size value_size) (key_size + value_size) (leaf_entries node) buf NODE_HEADER_LEN.

Definition decode_leaf (buf : bytes) (key_size value_size : Z) : res LeafNode :=
  if negb (bool_decide (first_byte buf = Some LEAF_PAGE_TYPE)) then Err "page is not a leaf page" else
  h ← take_header buf;
  let '(prev, next, entry_count) := h in
  entries ← take_records (take_leaf_record key_size value_size) (key_size + value_size)
              (Z.to_nat entry_count) buf NODE_HEADER_LEN;
  Ok (mkLeaf prev next entries).

Definition put_internal_record (key_size : Z) (buf : bytes) (offset : Z) (e : bytes * PageId * Z) : res bytes :=
  let '(key, child, count) := e in
  buf ← copy_into buf offset (offset + key_size) key;
  let child_offset := offset + key_size in
  buf ← copy_into buf child_offset (child_offset + 8) (to_le 8 child);
  copy_into buf (child_offset + 8) (child_offset + 16) (to_le 8 count).

Definition take_internal_record (key_size : Z) (buf : bytes) (offset : Z) : res (bytes * PageId * Z) :=
  key ← slice buf offset (offset + key_size);
  let child_offset := offset + key_size in
  child ← slice buf child_offset (child_offset + 8);
  count ← slice buf (child_offset + 8) (child_offset + 16);
  Ok (key, from_le child, from_le count).

Definition encode_internal (node : InternalNode) (page_size key_size : Z) : res bytes :=
  buf ← put_header page_size INTERNAL_PAGE_TYPE (rightmost_child node) (rightmost_count node)
          (zlen (int_entries node));
  put_records (put_internal_record key_size) (key_size + 16) (int_entries node) buf NODE_HEADER_LEN.

Definition decode_internal (buf : bytes) (key_size : Z) : res InternalNode :=
  if negb (bool_decide (first_byte buf = Some INTERNAL_PAGE_TYPE)) then Err "page is not an internal page" else
  h ← take_header buf;
  let '(rightmost_child, rightmost_count, entry_count) := h in
  entries ← take_records (take_internal_record key_size) (key_size + 16)
              (Z.to_nat entry_count) buf NODE_HEADER_LEN;
  Ok (mkInternal entries rightmost_child rightmost_count).

Inductive PageType := PtLeaf | PtInternal.

Definition page_type (buf : bytes) : res PageType :=
  match first_byte buf with
  | Some t =>
      if t =? LEAF_PAGE_TYPE then Ok PtLeaf
      else if t =? INTERNAL_PAGE_TYPE then Ok PtInternal
      else Err "unrecognized page type byte"
  | None => Err "unrecognized page type byte"
  end.

(** ** superblock.rs *)

Definition SB_MAGIC : bytes := map u8 [83; 69; 73; 83; 78; 66; 84; 49].
Definition SB_HEADER_LEN : Z := 44.

Record Superblock := mkSuperblock {
  sb_page_size : Z;
  sb_key_size : Z;
  sb_value_size : Z;
  sb_root_page_id : Z;
  sb_total_count : Z;
  sb_next_page_id : Z
}.

Definition is_power_of_two (n : Z) : bool := (0 <? n) && (Z.land n (n - 1) =? 0).

Definition validate_page_size (page_size : Z) : res () :=
  if page_size <? 4096 then Err "page_size must be at least 4096"
  else if negb (is_power_of_two page_size) then Err "page_size must be a power of 2"
  else Ok ().

Definition superblock_encode (sb : Superblock) (page_size : Z) : res bytes :=
  let buf := zeros page_size in
  buf ← copy_into buf 0 8 SB_MAGIC;
  buf ← copy_into buf 8 12 (to_le 4 (sb_page_size sb));
  buf ← copy_into buf 12 16 (to_le 4 (sb_key_size sb));
  buf ← copy_into buf 16 20 (to_le 4 (sb_value_size sb));
  buf ← copy_into buf 20 28 (to_le 8 (sb_root_page_id sb));
  buf ← copy_into buf 28 36 (to_le 8 (sb_total_count sb));
  copy_into buf 36 44 (to_le 8 (sb_next_page_id sb)).

Definition superblock_decode (buf : bytes) : res Superblock :=
  if zlen buf <? SB_HEADER_LEN then Err "superblock page is too short to contain a header" else
  magic ← slice buf 0 8;
  if negb (bool_decide (magic = SB_MAGIC)) then Err "not a seisin-storage B+Tree file (magic mismatch)" else
  page_size ← slice buf 8 12;
  key_size ← slice buf 12 16;
  value_size ← slice buf 16 20;
  root_page_id ← slice buf 20 28;
  total_count ← slice buf 28 36;
  next_page_id ← slice buf 36 44;
  _ ← validate_page_size (from_le page_size);
  Ok (mkSuperblock (from_le page_size) (from_le key_size) (from_le value_size)
        (from_le root_page_id) (from_le total_count) (from_le next_page_id)).

(** ** Lemmas on buffers *)

Lemma zlen_zeros n : 0 <= n -> zlen (zeros n) = n.
Proof. intros. unfold zeros. rewrite zlen_replicate. lia. Qed.
Lemma zeros_add a b : 0 <= a -> 0 <= b -> zeros (a + b) = zeros a ++ zeros b.
Proof. intros. unfold zeros. rewrite Z2Nat.inj_add by lia. apply replicate_add. Qed.

Lemma copy_into_app pre mid post a b src :
  zlen pre = a -> zlen mid = b - a -> zlen src = b - a ->
  copy_into (pre ++ mid ++ post) a b src = Ok (pre ++ src ++ post).
Proof.
  intros Hp Hm Hs. unfold copy_into. rewrite !zlen_app.
  pose proof (zlen_nonneg pre). pose proof (zlen_nonneg mid). pose proof (zlen_nonneg post).
  rewrite !(proj2 (Z.leb_le _ _)), (proj2 (Z.eqb_eq _ _)) by lia. cbn [andb]. f_equal. unfold zlen in *.
  rewrite take_app_length' by lia. f_equal. f_equal. rewrite app_assoc.
  apply drop_app_length'. rewrite length_app. lia.
Qed.

Lemma copy_into_0 mid post b src :
  zlen mid = b -> zlen src = b -> copy_into (mid ++ post) 0 b src = Ok (src ++ post).
Proof. intros Hm Hs. apply (copy_into_app [] mid post); [done|lia|lia]. Qed.

(** The record formats: what the loops need of one record. *)
Record record_codec {A} (put : bytes -> Z -> A -> res bytes) (get : bytes -> Z -> res A)
    (len : Z) (enc : A -> bytes) (ok : A -> Prop) : Prop := {
  rc_len e : ok e -> zlen (enc e) = len;
  rc_put e pre post : ok e -> put (pre ++ zeros len ++ post) (zlen pre) e = Ok (pre ++ enc e ++ post);
  rc_get e pre post : ok e -> get (pre ++ enc e ++ post) (zlen pre) = Ok e
}.

Section records.
Context {A : Type} {put : bytes -> Z -> A -> res bytes} {get : bytes -> Z -> res A}.
Context {len : Z} {enc : A -> bytes} {ok : A -> Prop}.
Hypothesis HC : record_codec put get len enc ok.
Hypothesis Hlen : 0 <= len.

Lemma zlen_records es : Forall ok es -> zlen (flat_map enc es) = zlen es * len.
Proof.
  induction 1 as [|e es He HF IH]; [done|]. simpl. rewrite zlen_app, (rc_len _ _ _ _ _ HC), IH, zlen_cons by done.
  lia.
Qed.

Lemma put_records_ok es pre rest :
  Forall ok es -> 0 <= rest ->
  put_records put len es (pre ++ zeros (zlen es * len + rest)) (zlen pre) =
    Ok (pre ++ flat_map enc es ++ zeros rest).
Proof.
  intros HF Hr. revert pre. induction HF as [|e es He HF IH]; intros pre; [done|].
  cbn [put_records flat_map]. pose proof (zlen_nonneg es).
  assert (0 <= zlen es * len) by nia. rewrite zlen_cons.
  replace ((1 + zlen es) * len + rest) with (len + (zlen es * len + rest)) by lia.
  rewrite zeros_add by lia. rewrite (rc_put _ _ _ _ _ HC) by done. rsimpl.
  replace (zlen pre + len) with (zlen (pre ++ enc e)) by (rewrite zlen_app, (rc_len _ _ _ _ _ HC) by done; lia).
  rewrite app_assoc, IH, <- !app_assoc. done.
Qed.

Lemma take_records_ok es pre post :
  Forall ok es ->
  take_records get len (length es) (pre ++ flat_map enc es ++ post) (zlen pre) = Ok es.
Proof.
  intros HF. revert pre. induction HF as [|e es He HF IH]; intros pre; [done|].
  cbn [length take_records flat_map]. rewrite <- app_assoc, (rc_get _ _ _ _ _ HC) by done. rsimpl.
  replace (zlen pre + len) with (zlen (pre ++ enc e)) by (rewrite zlen_app, (rc_len _ _ _ _ _ HC) by done; lia).
  rewrite app_assoc, IH. done.
Qed.
End records.

(** ** Node pages *)

Definition page_header (page_type a b count : Z) : bytes :=
  [u8 page_type] ++ zeros 7 ++ to_le 8 a ++ to_le 8 b ++ to_le 4 (wrap 32 count) ++ zeros 4.

Lemma zlen_page_header t a b n : zlen (page_header t a b n) = NODE_HEADER_LEN.
Proof. unfold page_header. autorewrite with zlen. rewrite !zlen_zeros by lia. done. Qed.

Lemma put_header_ok ps t a b n :
  NODE_HEADER_LEN <= ps ->
  put_header ps t a b n = Ok (page_header t a b n ++ zeros (ps - NODE_HEADER_LEN)).
Proof.
  unfold NODE_HEADER_LEN. intros Hps. unfold put_header, page_header.
  replace ps with (1 + (7 + (8 + (8 + (4 + (4 + (ps - 32))))))) at 1 by lia.
  rewrite !zeros_add by lia.
  rewrite copy_into_0 by (rewrite ?zlen_zeros by lia; done). rsimpl.
  rewrite (app_assoc [u8 t]), (copy_into_app ([u8 t] ++ zeros 7) (zeros 8))
    by (autorewrite with zlen; rewrite ?zlen_zeros by lia; done). rsimpl.
  rewrite (app_assoc (_ ++ _)), (copy_into_app (([u8 t] ++ zeros 7) ++ to_le 8 a) (zeros 8))
    by (autorewrite with zlen; rewrite ?zlen_zeros by lia; done). rsimpl.
  rewrite (app_assoc (_ ++ _)), (copy_into_app ((([u8 t] ++ zeros 7) ++ to_le 8 a) ++ to_le 8 b) (zeros 4))
    by (autorewrite with zlen; rewrite ?zlen_zeros by lia; done).
  by rewrite <- !app_assoc.
Qed.

Lemma take_header_ok t a b n post :
  u64_ok a -> u64_ok b -> u32_ok n -> take_header (page_header t a b n ++ post) = Ok (a, b, n).
Proof.
  intros Ha Hb Hn. unfold take_header, page_header. pose proof (zlen_zeros 7 ltac:(lia)) as H7.
  rewrite wrap_small by done. rewrite <- !app_assoc. 
  pose proof (zlen_nonneg post).
  rewrite !(slice_skip [u8 t]), !(slice_skip (zeros 7)) by (rewrite ?H7; fixed_len).
  rewrite H7. change (zlen [u8 t]) with 1. 
  change (8 - 1 - 7) with 0. change (16 - 1 - 7) with 8. change (24 - 1 - 7) with 16. change (28 - 1 - 7) with 20.
  fixed_read. rsimpl. by rewrite !from_le_to_le.
Qed.

Lemma first_byte_header t a b n post : 0 <= t < 256 -> first_byte (page_header t a b n ++ post) = Some t.
Proof. intros H. unfold page_header. simpl. by rewrite byte_val_u8_small. Qed.

(** *** Leaves *)

Definition leaf_record_ok (key_size value_size : Z) (e : bytes * bytes) : Prop :=
  zlen e.1 = key_size /\ zlen e.2 = value_size.
Definition enc_leaf_record (e : bytes * bytes) : bytes := e.1 ++ e.2.

(** What an encoded page needs of its records: they fit behind the header. *)
Definition leaf_fits (page_size key_size value_size : Z) (node : LeafNode) : Prop :=
  u64_ok (prev node) /\ u64_ok (next node) /\ u32_ok (zlen (leaf_entries node)) /\
  Forall (leaf_record_ok key_size value_size) (leaf_entries node) /\
  NODE_HEADER_LEN + zlen (leaf_entries node) * (key_size + value_size) <= page_size.

Lemma leaf_codec ks vs :
  0 <= ks -> 0 <= vs ->
  record_codec (put_leaf_record ks vs) (take_leaf_record ks vs) (ks + vs) enc_leaf_record (leaf_record_ok ks vs).
Proof.
  intros Hk Hv. split.
  - intros e [H1 H2]. unfold enc_leaf_record. rewrite zlen_app. lia.
  - intros [k v] pre post [H1 H2]. simpl in *. unfold put_leaf_record, enc_leaf_record. simpl.
    rewrite zeros_add, <- app_assoc by done.
    rewrite copy_into_app by (rewrite ?zlen_zeros by lia; lia). rsimpl.
    rewrite (app_assoc pre k), (copy_into_app (pre ++ k) (zeros vs))
      by (rewrite ?zlen_app, ?zlen_zeros by lia; lia).
    by rewrite <- !app_assoc.
  - intros [k v] pre post [H1 H2]. simpl in *. unfold take_leaf_record, enc_leaf_record. simpl.
    rewrite <- !app_assoc. rewrite !(slice_skip pre) by lia.
    replace (zlen pre - zlen pre) with 0 by lia.
    rewrite slice_here by lia. rsimpl. rewrite slice_skip by lia.
    replace (zlen pre + ks - zlen pre - zlen k) with 0 by lia. rewrite slice_here by lia. done.
Qed.

(** What the two ends of a page format promise each other. *)
Definition page_format {A} (enc : res bytes) (dec : bytes -> res A) (ty : PageType) (page_size : Z) (node : A) : Prop :=
  exists bs, enc = Ok bs /\ zlen bs = page_size /\ page_type bs = Ok ty /\ dec bs = Ok node.

Lemma leaf_page ps ks vs node :
  0 <= ks -> 0 <= vs -> leaf_fits ps ks vs node ->
  page_format (encode_leaf node ps ks vs) (λ bs, decode_leaf bs ks vs) PtLeaf ps node.
Proof.
  intros Hk Hv (Hp & Hn & Hc & HF & Hfit). pose proof (leaf_codec ks vs Hk Hv) as HC.
  pose proof (zlen_nonneg (leaf_entries node)). assert (0 <= zlen (leaf_entries node) * (ks + vs)) by nia.
  unfold NODE_HEADER_LEN in *.
  set (hdr := page_header LEAF_PAGE_TYPE (prev node) (next node) (zlen (leaf_entries node))).
  assert (zlen hdr = 32) as Hh by apply zlen_page_header.
  set (rest := ps - 32 - zlen (leaf_entries node) * (ks + vs)).
  exists (hdr ++ flat_map enc_leaf_record (leaf_entries node) ++ zeros rest). split_and!.
  - unfold encode_leaf. rewrite put_header_ok by (unfold NODE_HEADER_LEN; lia). rsimpl.
    pose proof (put_records_ok HC ltac:(lia) (leaf_entries node) hdr rest HF ltac:(lia)) as HP.
    rewrite Hh in HP. unfold NODE_HEADER_LEN.
    replace (ps - 32) with (zlen (leaf_entries node) * (ks + vs) + rest) by lia. exact HP.
  - rewrite !zlen_app, Hh, (zlen_records HC) by done. rewrite zlen_zeros by lia. lia.
  - unfold page_type, hdr. by rewrite first_byte_header by done.
  - unfold decode_leaf. rewrite bool_decide_eq_true_2 by (by apply first_byte_header). cbn [negb].
    rewrite (take_header_ok LEAF_PAGE_TYPE (prev node) (next node) (zlen (leaf_entries node))) by done. rsimpl.
    pose proof (take_records_ok HC (leaf_entries node) hdr (zeros rest) HF) as HT.
    rewrite Hh in HT. unfold NODE_HEADER_LEN, zlen. rewrite Nat2Z.id, HT. rsimpl. by destruct node.
Qed.

(** *** Internal nodes *)

Definition int_record_ok (key_size : Z) (e : bytes * PageId * Z) : Prop :=
  zlen e.1.1 = key_size /\ u64_ok e.1.2 /\ u64_ok e.2.
Definition enc_int_record (e : bytes * PageId * Z) : bytes := e.1.1 ++ to_le 8 e.1.2 ++ to_le 8 e.2.

Definition internal_fits (page_size key_size : Z) (node : InternalNode) : Prop :=
  u64_ok (rightmost_child node) /\ u64_ok (rightmost_count node) /\ u32_ok (zlen (int_entries node)) /\
  Forall (int_record_ok key_size) (int_entries node) /\
  NODE_HEADER_LEN + zlen (int_entries node) * (key_size + 16) <= page_size.

Lemma internal_codec ks :
  0 <= ks ->
  record_codec (put_internal_record ks) (take_internal_record ks) (ks + 16) enc_int_record (int_record_ok ks).
Proof.
  intros Hk. split.
  - intros [[k c] n] (H1 & H2 & H3). unfold enc_int_record. autorewrite with zlen. simpl in *. lia.
  - intros [[k c] n] pre post (H1 & H2 & H3). simpl in *. unfold put_internal_record, enc_int_record. simpl.
    replace (ks + 16) with (ks + (8 + 8)) by lia. rewrite !zeros_add, <- !app_assoc by lia.
    rewrite copy_into_app by (rewrite ?zlen_zeros by lia; lia). rsimpl.
    rewrite (app_assoc pre k), (copy_into_app (pre ++ k) (zeros 8))
      by (rewrite ?zlen_app, ?zlen_zeros, ?zlen_to_le by lia; lia). rsimpl.
    rewrite (app_assoc (pre ++ k)), (copy_into_app ((pre ++ k) ++ to_le 8 c) (zeros 8))
      by (rewrite ?zlen_app, ?zlen_zeros, ?zlen_to_le by lia; lia).
    by rewrite <- !app_assoc.
  - intros [[k c] n] pre post (H1 & H2 & H3). simpl in *. unfold take_internal_record, enc_int_record. simpl.
    rewrite <- !app_assoc. rewrite !(slice_skip pre) by lia.
    replace (zlen pre - zlen pre) with 0 by lia.
    rewrite slice_here by lia. rsimpl. rewrite !(slice_skip k) by lia.
    replace (zlen pre + ks - zlen pre - zlen k) with 0 by lia.
    rewrite slice_here by (rewrite zlen_to_le; lia). rsimpl.
    rewrite slice_skip by (rewrite zlen_to_le; lia). rewrite zlen_to_le.
    replace (zlen pre + ks + 8 - zlen pre - zlen k - Z.of_nat 8) with 0 by lia.
    rewrite slice_here by (rewrite zlen_to_le; lia). rsimpl. by rewrite !from_le_to_le.
Qed.

Lemma internal_page ps ks node :
  0 <= ks -> internal_fits ps ks node ->
  page_format (encode_internal node ps ks) (λ bs, decode_internal bs ks) PtInternal ps node.
Proof.
  intros Hk (Hp & Hn & Hc & HF & Hfit). pose proof (internal_codec ks Hk) as HC.
  pose proof (zlen_nonneg (int_entries node)). assert (0 <= zlen (int_entries node) * (ks + 16)) by nia.
  unfold NODE_HEADER_LEN in *.
  set (hdr := page_header INTERNAL_PAGE_TYPE (rightmost_child node) (rightmost_count node) (zlen (int_entries node))).
  assert (zlen hdr = 32) as Hh by apply zlen_page_header.
  set (rest := ps - 32 - zlen (int_entries node) * (ks + 16)).
  exists (hdr ++ flat_map enc_int_record (int_entries node) ++ zeros rest). split_and!.
  - unfold encode_internal. rewrite put_header_ok by (unfold NODE_HEADER_LEN; lia). rsimpl.
    pose proof (put_records_ok HC ltac:(lia) (int_entries node) hdr rest HF ltac:(lia)) as HP.
    rewrite Hh in HP. unfold NODE_HEADER_LEN.
    replace (ps - 32) with (zlen (int_entries node) * (ks + 16) + rest) by lia. exact HP.
  - rewrite !zlen_app, Hh, (zlen_records HC) by done. rewrite zlen_zeros by lia. lia.
  - unfold page_type, hdr. by rewrite first_byte_header by done.
  - unfold decode_internal. rewrite bool_decide_eq_true_2 by (by apply first_byte_header). cbn [negb].
    rewrite (take_header_ok INTERNAL_PAGE_TYPE (rightmost_child node) (rightmost_count node)
      (zlen (int_entries node))) by done. rsimpl.
    pose proof (take_records_ok HC (int_entries node) hdr (zeros rest) HF) as HT.
    rewrite Hh in HT. unfold NODE_HEADER_LEN, zlen. rewrite Nat2Z.id, HT. rsimpl. by destruct node.
Qed.

(** ** The page file

    A file reads as the infinite sequence of its bytes followed by zeros. *)

Definition byte_at (f : bytes) (i : nat) : byte := default (u8 0) (f !! i).
Definition view (f : bytes) (off n : nat) : bytes := map (λ i, byte_at f (off + i)) (seq 0 n).

Lemma view_intro f off n l :
  length l = n -> (forall j, (j < n)%nat -> l !! j = Some (byte_at f (off + j))) -> l = view f off n.
Proof.
  intros Hl Hj. apply list_eq_same_length with n; [|done|].
  - unfold view. by rewrite length_map, length_seq.
  - intros j x y Hlt Hx Hy. rewrite (Hj j Hlt) in Hx. injection Hx as <-.
    unfold view in Hy. rewrite list_lookup_fmap, lookup_seq_lt in Hy by done. by injection Hy as <-.
Qed.

Lemma length_view f off n : length (view f off n) = n.
Proof. unfold view. by rewrite length_map, length_seq. Qed.

Lemma lookup_zeros n i : (i < Z.to_nat n)%nat -> zeros n !! i = Some (u8 0).
Proof. intros. unfold zeros. by rewrite lookup_replicate_2. Qed.

(** Pages this store can address without overflow. *)
Definition page_ok (s : PageStore) (id : PageId) : Prop :=
  0 <= id /\ 0 <= ps_page_size s /\ (id + 1) * ps_page_size s < 2 ^ 64.

Lemma byte_at_ge f i : (length f <= i)%nat -> byte_at f i = u8 0.
Proof. intros. unfold byte_at. by rewrite lookup_ge_None_2. Qed.

Lemma read_page_view s id :
  page_ok s id ->
  read_page s id = Ok (view (ps_file s) (Z.to_nat (id * ps_page_size s)) (Z.to_nat (ps_page_size s))).
Proof.
  intros (Hid & Hps & Hroom). destruct s as [f ps]. simpl in *. assert (0 <= id * ps) by nia.
  unfold read_page, mul_u64, add_u64. simpl. rewrite (proj2 (Z.ltb_lt _ _)) by lia. rsimpl.
  destruct (Z.leb_spec (zlen f) (id * ps)) as [He|He]; [f_equal; apply view_intro|].
  - unfold zeros. by rewrite length_replicate.
  - intros j Hj. rewrite lookup_zeros by done. f_equal. symmetry. apply byte_at_ge. unfold zlen in He. lia.
  - rewrite (proj2 (Z.ltb_lt (id * ps + ps) _)) by lia. rsimpl.
    destruct (Z.ltb_spec (zlen f) (id * ps + ps)) as [Hp|Hp].
    + rewrite slice_ok by lia. rsimpl. pose proof (sub_bytes_len f (id * ps) (zlen f) ltac:(lia) ltac:(lia) ltac:(lia)) as Hg.
      unfold copy_into. rewrite Hg, zlen_zeros by lia.
      rewrite !(proj2 (Z.leb_le _ _)), (proj2 (Z.eqb_eq _ _)) by lia. cbn [andb]. f_equal. simpl.
      unfold zlen in *. apply view_intro.
      * rewrite length_app, length_drop. unfold zeros. rewrite length_replicate. lia.
      * intros j Hj. unfold byte_at.
        destruct (decide (j < length (sub_bytes f (id * ps) (Z.of_nat (length f))))%nat) as [Hl|Hl].
        -- rewrite lookup_app_l by done. unfold sub_bytes in *. rewrite length_take, length_drop in Hl.
           rewrite lookup_take_lt, lookup_drop by lia.
           destruct (lookup_lt_is_Some_2 f (Z.to_nat (id * ps) + j)) as [x Hx]; [lia|]. by rewrite Hx.
        -- rewrite lookup_app_r, lookup_drop by lia. rewrite lookup_zeros by lia.
           rewrite lookup_ge_None_2 by lia. done.
    + rewrite slice_ok by lia. f_equal. apply view_intro.
      * pose proof (sub_bytes_len f (id * ps) (id * ps + ps) ltac:(lia) ltac:(lia) ltac:(lia)). unfold zlen in *. lia.
      * intros j Hj. unfold sub_bytes, byte_at, zlen in *. rewrite lookup_take_lt, lookup_drop by lia.
        destruct (lookup_lt_is_Some_2 f (Z.to_nat (id * ps) + j)) as [x Hx]; [lia|]. by rewrite Hx.
Qed.

Lemma byte_at_app_zeros f n i : byte_at (f ++ zeros n) i = byte_at f i.
Proof.
  unfold byte_at. destruct (decide (i < length f)%nat) as [Hi|Hi]; [by rewrite lookup_app_l|].
  rewrite lookup_app_r by lia. rewrite (lookup_ge_None_2 f) by lia. unfold zeros.
  destruct (_ !! _) as [x|] eqn:E; [|done]. by apply lookup_replicate in E as [-> _].
Qed.

Lemma byte_at_write f off bs i :
  0 <= off ->
  byte_at (write_at_ext f off bs) i =
    if (Z.of_nat i <? off) || (off + zlen bs <=? Z.of_nat i) then byte_at f i
    else byte_at bs (i - Z.to_nat off).
Proof.
  intros Ho. unfold write_at_ext. rewrite <- (byte_at_app_zeros f (off - zlen f) i).
  set (g := f ++ zeros (off - zlen f)).
  assert (off <= zlen g) as Hg.
  { unfold g. rewrite zlen_app. destruct (Z.leb_spec off (zlen f)).
    - pose proof (zlen_nonneg (zeros (off - zlen f))). lia.
    - rewrite zlen_zeros by lia. lia. }
  unfold byte_at, zlen in *.
  assert (length (take (Z.to_nat off) g) = Z.to_nat off) as Hl by (rewrite length_take; lia).
  destruct (Z.ltb_spec (Z.of_nat i) off); [|destruct (Z.leb_spec (off + Z.of_nat (length bs)) (Z.of_nat i))]; simpl.
  - rewrite lookup_app_l by lia. by rewrite lookup_take_lt by lia.
  - rewrite lookup_app_r by lia. rewrite lookup_app_r, lookup_drop by lia. f_equal. f_equal. lia.
  - rewrite lookup_app_r by lia. rewrite lookup_app_l by lia. by rewrite Hl.
Qed.

Lemma write_page_ok s id bs :
  page_ok s id -> zlen bs = ps_page_size s ->
  exists s', write_page s id bs = Ok s' /\ ps_page_size s' = ps_page_size s /\
    read_page s' id = Ok bs /\
    forall id', page_ok s id' -> id' <> id -> read_page s' id' = read_page s id'.
Proof.
  intros Hok Hlen. unfold write_page. rewrite (proj2 (Z.eqb_eq _ _)) by done. cbn [negb].
  destruct Hok as (Hid & Hps & Hroom). unfold mul_u64. rewrite (proj2 (Z.ltb_lt _ _)) by nia. rsimpl.
  eexists. split; [done|]. split; [done|]. assert (0 <= id * ps_page_size s) by nia. split.
  - rewrite read_page_view by done. simpl. f_equal. symmetry. apply view_intro; [unfold zlen in Hlen; lia|].
    intros j Hj. rewrite byte_at_write by lia. unfold zlen in Hlen |- *.
    rewrite (proj2 (Z.ltb_ge _ _)), (proj2 (Z.leb_gt _ _)) by lia. simpl. unfold byte_at.
    replace (Z.to_nat (id * ps_page_size s) + j - Z.to_nat (id * ps_page_size s))%nat with j by lia.
    destruct (lookup_lt_is_Some_2 bs j) as [x Hx]; [lia|]. by rewrite Hx.
  - intros id' (Hid' & _ & Hroom') Hne. rewrite !read_page_view by done. simpl. f_equal.
    assert (0 <= id' * ps_page_size s) by nia. apply view_intro; [apply length_view|].
    intros j Hj. unfold view. rewrite list_lookup_fmap, lookup_seq_lt by done. simpl. f_equal.
    rewrite byte_at_write by lia. symmetry.
    assert (id' < id \/ id < id') as [Hlt|Hlt] by lia.
    + rewrite (proj2 (Z.ltb_lt _ _)); [done|]. nia.
    + rewrite (proj2 (Z.leb_le _ _)); [by rewrite orb_true_r|]. nia.
Qed.

Lemma write_page_length s id bs s' :
  page_ok s id -> write_page s id bs = Ok s' ->
  zlen (ps_file s) <= zlen (ps_file s') /\ (id + 1) * ps_page_size s <= zlen (ps_file s').
Proof.
  intros (Hid & Hps & Hroom). unfold write_page. destruct (Z.eqb_spec (zlen bs) (ps_page_size s)) as [Hb|]; [|done].
  cbn [negb]. unfold mul_u64. rewrite (proj2 (Z.ltb_lt _ _)) by nia. rsimpl. intros [= <-]. simpl.
  assert (0 <= id * ps_page_size s) by nia. unfold write_at_ext. rewrite !zlen_app, Hb.
  set (f := ps_file s) in *. set (off := id * ps_page_size s) in *.
  set (g := f ++ zeros (off - zlen f)).
  assert (off <= zlen g /\ zlen f <= zlen g) as [Hg1 Hg2].
  { unfold g. rewrite zlen_app. pose proof (zlen_nonneg (zeros (off - zlen f))).
    destruct (Z.leb_spec off (zlen f)); [lia|]. rewrite zlen_zeros by lia. lia. }
  unfold zlen in *. rewrite length_take, length_drop. lia.
Qed.

(** ** The superblock *)

Definition superblock_ok (sb : Superblock) : Prop :=
  u32_ok (sb_page_size sb) /\ u32_ok (sb_key_size sb) /\ u32_ok (sb_value_size sb) /\
  u64_ok (sb_root_page_id sb) /\ u64_ok (sb_total_count sb) /\ u64_ok (sb_next_page_id sb) /\
  validate_page_size (sb_page_size sb) = Ok ().

Definition superblock_bytes (sb : Superblock) : bytes :=
  SB_MAGIC ++ to_le 4 (sb_page_size sb) ++ to_le 4 (sb_key_size sb) ++ to_le 4 (sb_value_size sb) ++
  to_le 8 (sb_root_page_id sb) ++ to_le 8 (sb_total_count sb) ++ to_le 8 (sb_next_page_id sb).

Lemma zlen_magic : zlen SB_MAGIC = 8. Proof. done. Qed.
Lemma zlen_superblock_bytes sb : zlen (superblock_bytes sb) = SB_HEADER_LEN.
Proof. unfold superblock_bytes. autorewrite with zlen. by rewrite zlen_magic. Qed.

Lemma superblock_encode_ok sb ps :
  SB_HEADER_LEN <= ps -> superblock_encode sb ps = Ok (superblock_bytes sb ++ zeros (ps - SB_HEADER_LEN)).
Proof.
  unfold SB_HEADER_LEN. intros Hps. unfold superblock_encode, superblock_bytes.
  replace ps with (8 + (4 + (4 + (4 + (8 + (8 + (8 + (ps - 44)))))))) at 1 by lia.
  rewrite !zeros_add by lia. pose proof zlen_magic as HM. set (M := SB_MAGIC) in *. clearbody M.
  rewrite copy_into_0 by (rewrite ?zlen_zeros by lia; done). rsimpl.
  rewrite (copy_into_app M (zeros 4)) by (rewrite ?zlen_to_le, ?zlen_zeros by lia; lia). rsimpl.
  rewrite (app_assoc M), (copy_into_app (M ++ _) (zeros 4))
    by (autorewrite with zlen; rewrite ?zlen_zeros by lia; lia). rsimpl.
  rewrite (app_assoc (M ++ _)), (copy_into_app ((M ++ _) ++ _) (zeros 4))
    by (autorewrite with zlen; rewrite ?zlen_zeros by lia; lia). rsimpl.
  rewrite (app_assoc ((M ++ _) ++ _)), (copy_into_app (((M ++ _) ++ _) ++ _) (zeros 8))
    by (autorewrite with zlen; rewrite ?zlen_zeros by lia; lia). rsimpl.
  rewrite (app_assoc (((M ++ _) ++ _) ++ _)), (copy_into_app ((((M ++ _) ++ _) ++ _) ++ _) (zeros 8))
    by (autorewrite with zlen; rewrite ?zlen_zeros by lia; lia). rsimpl.
  rewrite (app_assoc ((((M ++ _) ++ _) ++ _) ++ _)), (copy_into_app (((((M ++ _) ++ _) ++ _) ++ _) ++ _) (zeros 8))
    by (autorewrite with zlen; rewrite ?zlen_zeros by lia; lia).
  by rewrite <- !app_assoc.
Qed.

Lemma superblock_decode_ok sb post :
  superblock_ok sb -> superblock_decode (superblock_bytes sb ++ post) = Ok sb.
Proof.
  intros (H1 & H2 & H3 & H4 & H5 & H6 & Hv). unfold superblock_decode. rewrite zlen_app, zlen_superblock_bytes.
  pose proof (zlen_nonneg post). rewrite (proj2 (Z.ltb_ge _ _)) by lia. unfold superblock_bytes.
  rewrite <- !app_assoc. pose proof zlen_magic as HM. 
  rewrite slice_here by done. rsimpl. rewrite bool_decide_eq_true_2 by done. cbn [negb].
  rewrite !(slice_skip SB_MAGIC) by lia. rewrite HM.
  change (8 - 8) with 0. change (12 - 8) with 4. change (16 - 8) with 8. change (20 - 8) with 12.
  change (28 - 8) with 20. change (36 - 8) with 28. change (44 - 8) with 36.
  fixed_read. rsimpl. rewrite !from_le_to_le by done. rewrite Hv. rsimpl. by destruct sb.
Qed.

(** The bytes at the front of the file are those of page 0. *)
Lemma page_zero_front s bs n :
  page_ok s 0 -> 0 <= n -> n <= zlen (ps_file s) -> n <= ps_page_size s -> read_page s 0 = Ok bs ->
  sub_bytes (ps_file s) 0 n = sub_bytes bs 0 n.
Proof.
  intros Hok Hn0 Hn Hps. rewrite read_page_view by done. intros [= <-]. simpl. unfold sub_bytes. rewrite Z.sub_0_r.
  simpl. rewrite !drop_0. apply list_eq. intros i.
  destruct (decide (i < Z.to_nat n)%nat) as [Hi|Hi].
  - rewrite !lookup_take_lt by done. unfold view. rewrite list_lookup_fmap, lookup_seq_lt by lia. simpl.
    unfold byte_at. destruct (lookup_lt_is_Some_2 (ps_file s) i) as [x Hx]; [unfold zlen in Hn; lia|].
    by rewrite Hx.
  - rewrite !lookup_take_ge by lia. done.
Qed.
