(* ===== verification/BTree.v ===== *)
(** * seisin-storage: the counted B+Tree

    Models [crates/seisin-storage/src/btree.rs] operation by operation over the
    page file of [Pages]. Methods that take [&mut self] only to seek return their
    answer; those that write return the new tree. A tree whose operation fails is
    not modelled further. Descents and sibling walks have a turn for every page
    of the file, more than a path or the leaf chain has. *)

From S2P Require Import Prelude Pages.

Record BPlusTree := mkTree {
  store : PageStore;
  page_size : Z;
  key_size : Z;
  value_size : Z;
  root_page_id : PageId;
  total_count : Z;
  next_page_id : PageId;
  t_max_leaf_entries : Z;
  t_max_internal_entries : Z
}.

Definition with_store (t : BPlusTree) (s : PageStore) : BPlusTree :=
  mkTree s (page_size t) (key_size t) (value_size t) (root_page_id t) (total_count t)
    (next_page_id t) (t_max_leaf_entries t) (t_max_internal_entries t).
Definition with_root (t : BPlusTree) (id : PageId) : BPlusTree :=
  mkTree (store t) (page_size t) (key_size t) (value_size t) id (total_count t)
    (next_page_id t) (t_max_leaf_entries t) (t_max_internal_entries t).
Definition with_total (t : BPlusTree) (n : Z) : BPlusTree :=
  mkTree (store t) (page_size t) (key_size t) (value_size t) (root_page_id t) n
    (next_page_id t) (t_max_leaf_entries t) (t_max_internal_entries t).
Definition with_next (t : BPlusTree) (id : PageId) : BPlusTree :=
  mkTree (store t) (page_size t) (key_size t) (value_size t) (root_page_id t) (total_count t)
    id (t_max_leaf_entries t) (t_max_internal_entries t).

(** ** Pages of the tree *)

Definition write_superblock (t : BPlusTree) : res BPlusTree :=
  bs ← superblock_encode (mkSuperblock (page_size t) (key_size t) (value_size t) (root_page_id t)
                            (total_count t) (next_page_id t)) (page_size t);
  s ← write_page (store t) 0 bs;
  Ok (with_store t s).

Definition allocate_page (t : BPlusTree) : res (PageId * BPlusTree) :=
  let id := next_page_id t in
  n ← add_u64 id 1;
  Ok (id, with_next t n).

Definition read_leaf (t : BPlusTree) (id : PageId) : res LeafNode :=
  bs ← read_page (store t) id; decode_leaf bs (key_size t) (value_size t).
Definition write_leaf (t : BPlusTree) (id : PageId) (node : LeafNode) : res BPlusTree :=
  bs ← encode_leaf node (page_size t) (key_size t) (value_size t);
  s ← write_page (store t) id bs;
  Ok (with_store t s).
Definition read_internal (t : BPlusTree) (id : PageId) : res InternalNode :=
  bs ← read_page (store t) id; decode_internal bs (key_size t).
Definition write_internal (t : BPlusTree) (id : PageId) (node : InternalNode) : res BPlusTree :=
  bs ← encode_internal node (page_size t) (key_size t);
  s ← write_page (store t) id bs;
  Ok (with_store t s).

Definition bt_len (t : BPlusTree) : Z := total_count t.
Definition bt_is_empty (t : BPlusTree) : bool := total_count t =? 0.

(** ** Creation and opening *)

Definition empty_leaf : LeafNode := mkLeaf NULL_PAGE NULL_PAGE [].

Definition create (key_size value_size page_size : Z) : res BPlusTree :=
  _ ← validate_page_size page_size;
  max_leaf ← max_leaf_entries page_size key_size value_size;
  max_internal ← max_internal_entries page_size key_size;
  if max_leaf =? 0 then Err "key_size + value_size too large for page_size" else
  if max_internal =? 0 then Err "key_size too large for page_size (internal node capacity)" else
  let root_id := 1 in
  bs ← encode_leaf empty_leaf page_size key_size value_size;
  s ← write_page (PageStore_create page_size) root_id bs;
  write_superblock (mkTree s page_size key_size value_size root_id 0 2 max_leaf max_internal).

Definition bt_open (f : bytes) : res BPlusTree :=
  if zlen f <? 44 then Err "failed to fill whole buffer" else
  header_buf ← slice f 0 44;
  sb ← superblock_decode header_buf;
  let s := PageStore_open f (sb_page_size sb) in
  max_leaf ← max_leaf_entries (sb_page_size sb) (sb_key_size sb) (sb_value_size sb);
  max_internal ← max_internal_entries (sb_page_size sb) (sb_key_size sb);
  Ok (mkTree s (sb_page_size sb) (sb_key_size sb) (sb_value_size sb) (sb_root_page_id sb)
        (sb_total_count sb) (sb_next_page_id sb) max_leaf max_internal).

(** ** Searching a node *)

(** [binary_search_by] on a slice sorted by key: [inl i] for a hit at [i],
    [inr i] for the place to insert. *)
Fixpoint binary_search (es : list (bytes * bytes)) (key : bytes) : nat + nat :=
  match es with
  | [] => inr 0%nat
  | (k, _) :: es =>
      match bytes_cmp k key with
      | Lt => match binary_search es key with inl i => inl (S i) | inr i => inr (S i) end
      | Eq => inl 0%nat
      | Gt => inr 0%nat
      end
  end.

(** [position(|(k, _, _)| key < k)] *)
Fixpoint position (es : list (bytes * PageId * Z)) (key : bytes) : option nat :=
  match es with
  | [] => None
  | (k, _, _) :: es => if bytes_ltb key k then Some 0%nat else S <$> position es key
  end.

Definition child_at (node : InternalNode) (idx : option nat) : res PageId :=
  match idx with
  | Some i => match int_entries node !! i with Some (_, c, _) => Ok c | None => Panic end
  | None => Ok (rightmost_child node)
  end.

Definition child_of (node : InternalNode) (key : bytes) : res PageId :=
  child_at node (position (int_entries node) key).

(** The loops that descend from a page to a leaf, returning the leaf's id and
    page; [next_of] picks the child and updates what the descent carries. *)
Fixpoint descend {A} (fuel : nat) (t : BPlusTree) (next_of : InternalNode -> A -> res (PageId * A))
    (page_id : PageId) (a : A) : res (PageId * bytes * A) :=
  match fuel with
  | O => Err "out of fuel"
  | S fuel =>
      bs ← read_page (store t) page_id;
      ty ← page_type bs;
      match ty with
      | PtLeaf => Ok (page_id, bs, a)
      | PtInternal =>
          node ← decode_internal bs (key_size t);
          r ← next_of node a;
          let '(page_id, a) := r in
          descend fuel t next_of page_id a
      end
  end.

Definition fuel_of (t : BPlusTree) : nat := Z.to_nat (next_page_id t).

Definition leftmost_leaf_id (t : BPlusTree) : res PageId :=
  r ← descend (fuel_of t) t
        (λ node _, match int_entries node with
                   | (_, child, _) :: _ => Ok (child, ())
                   | [] => Ok (rightmost_child node, ())
                   end) (root_page_id t) ();
  Ok r.1.1.

Definition rightmost_leaf_id (t : BPlusTree) : res PageId :=
  r ← descend (fuel_of t) t (λ node _, Ok (rightmost_child node, ())) (root_page_id t) ();
  Ok r.1.1.

Definition contains (t : BPlusTree) (key : bytes) : res bool :=
  r ← descend (fuel_of t) t (λ node _, c ← child_of node key; Ok (c, ())) (root_page_id t) ();
  node ← decode_leaf r.1.2 (key_size t) (value_size t);
  Ok (match binary_search (leaf_entries node) key with inl _ => true | inr _ => false end).

(** ** Scans *)

(** The sibling walks: the inner [for] takes what is still missing. *)
Fixpoint walk_forward (fuel : nat) (t : BPlusTree) (page_id : PageId) (skip n : nat)
    (results : list (bytes * bytes)) : res (list (bytes * bytes)) :=
  if negb (page_id =? NULL_PAGE) && (length results <? n)%nat then
    match fuel with
    | O => Err "out of fuel"
    | S fuel =>
        node ← read_leaf t page_id;
        walk_forward fuel t (next node) 0 n
          (results ++ take (n - length results) (drop skip (leaf_entries node)))
    end
  else Ok results.

Fixpoint walk_backward (fuel : nat) (t : BPlusTree) (page_id : PageId) (n : nat)
    (results : list (bytes * bytes)) : res (list (bytes * bytes)) :=
  if negb (page_id =? NULL_PAGE) && (length results <? n)%nat then
    match fuel with
    | O => Err "out of fuel"
    | S fuel =>
        node ← read_leaf t page_id;
        walk_backward fuel t (prev node) n
          (results ++ take (n - length results) (rev (leaf_entries node)))
    end
  else Ok results.

Definition scan_forward_bounded (t : BPlusTree) (n : nat) : res (list (bytes * bytes)) :=
  if (n =? 0)%nat then Ok [] else
  page_id ← leftmost_leaf_id t;
  walk_forward (fuel_of t) t page_id 0 n [].

Definition scan_backward_bounded (t : BPlusTree) (n : nat) : res (list (bytes * bytes)) :=
  if (n =? 0)%nat then Ok [] else
  page_id ← rightmost_leaf_id t;
  walk_backward (fuel_of t) t page_id n [].

(** ** Ranks *)

(** The rank descent's [for] over the counted children. *)
Fixpoint rank_child (es : list (bytes * PageId * Z)) (rightmost : PageId) (rank : Z) : res (PageId * Z) :=
  match es with
  | [] => Ok (rightmost, rank)
  | (_, child, count) :: es =>
      if rank <? count then Ok (child, rank)
      else rank ← sub_u64 rank count; rank_child es rightmost rank
  end.

Definition entry_at_rank (t : BPlusTree) (rank : Z) : res (bytes * bytes) :=
  r ← descend (fuel_of t) t (λ node rank, rank_child (int_entries node) (rightmost_child node) rank)
        (root_page_id t) rank;
  let '(_, bs, rank) := r in
  node ← decode_leaf bs (key_size t) (value_size t);
  match leaf_entries node !! Z.to_nat rank with
  | Some e => Ok e
  | None => Err "rank out of bounds for a leaf"
  end.

Fixpoint sample_loop (t : BPlusTree) (total k : Z) (is_ : list nat) : res (list (bytes * bytes)) :=
  match is_ with
  | [] => Ok []
  | i :: is_ =>
      p ← mul_u64 (Z.of_nat i) total;
      e ← entry_at_rank t (p / k);
      es ← sample_loop t total k is_;
      Ok (e :: es)
  end.

Definition sample_by_rank (t : BPlusTree) (k : nat) : res (list (bytes * bytes)) :=
  let total := total_count t in
  if (total =? 0) || (k =? 0)%nat then Ok [] else sample_loop t total (Z.of_nat k) (seq 0 k).

(** The key descent's [for], adding up the counts it passes. *)
Fixpoint passed_child (es : list (bytes * PageId * Z)) (rightmost : PageId) (key : bytes) (passed : Z)
    : res (PageId * Z) :=
  match es with
  | [] => Ok (rightmost, passed)
  | (separator, child, count) :: es =>
      if bytes_ltb key separator then Ok (child, passed)
      else passed ← add_u64 passed count; passed_child es rightmost key passed
  end.

Definition descend_passed (t : BPlusTree) (key : bytes) : res (PageId * bytes * Z) :=
  descend (fuel_of t) t (λ node passed, passed_child (int_entries node) (rightmost_child node) key passed)
    (root_page_id t) 0.

Definition rank_of_key (t : BPlusTree) (key : bytes) : res (option Z) :=
  if negb (zlen key =? key_size t) then Err "key has the wrong length" else
  r ← descend_passed t key;
  let '(_, bs, passed) := r in
  node ← decode_leaf bs (key_size t) (value_size t);
  match binary_search (leaf_entries node) key with
  | inl i => rank ← add_u64 passed (Z.of_nat i); Ok (Some rank)
  | inr _ => Ok None
  end.

Definition rank_of_floor (t : BPlusTree) (key : bytes) : res (option Z) :=
  if negb (zlen key =? key_size t) then Err "key has the wrong length" else
  r ← descend_passed t key;
  let '(_, bs, passed) := r in
  node ← decode_leaf bs (key_size t) (value_size t);
  match binary_search (leaf_entries node) key with
  | inl i => rank ← add_u64 passed (Z.of_nat i); Ok (Some rank)
  | inr 0%nat => if passed =? 0 then Ok None else Ok (Some (passed - 1))
  | inr i => rank ← add_u64 passed (Z.of_nat i); Ok (Some (rank - 1))
  end.

Definition scan_from_rank (t : BPlusTree) (rank : Z) (n : nat) : res (list (bytes * bytes)) :=
  if (n =? 0)%nat || (total_count t <=? rank) then Ok [] else
  r ← descend (fuel_of t) t (λ node rank, rank_child (int_entries node) (rightmost_child node) rank)
        (root_page_id t) rank;
  let '(page_id, _, remaining_rank) := r in
  walk_forward (fuel_of t) t page_id (Z.to_nat remaining_rank) n [].

(** ** Insertion *)

Inductive InsertOutcome :=
| NoSplit (is_new : bool)
| Split (is_new : bool) (separator_key : bytes) (new_page_id : PageId) (new_page_count : Z).

Definition one_if (b : bool) : Z := if b then 1 else 0.

(** [Vec::insert] *)
Definition vec_insert {A} (i : nat) (x : A) (l : list A) : list A := take i l ++ x :: drop i l.

(** The upsert of the leaf's entries. *)
Definition leaf_upsert (es : list (bytes * bytes)) (key value : bytes) : bool * list (bytes * bytes) :=
  match binary_search es key with
  | inl i => (false, alter (λ e, (e.1, value)) i es)
  | inr i => (true, vec_insert i (key, value) es)
  end.

Definition insert_into_leaf (t : BPlusTree) (page_id : PageId) (key value : bytes)
    : res (InsertOutcome * BPlusTree) :=
  node ← read_leaf t page_id;
  let '(is_new, es) := leaf_upsert (leaf_entries node) key value in
  if zlen es <=? t_max_leaf_entries t then
    t ← write_leaf t page_id (mkLeaf (prev node) (next node) es);
    Ok (NoSplit is_new, t)
  else
    let mid := (length es / 2)%nat in
    let right_entries := drop mid es in
    r ← allocate_page t;
    let '(new_page_id, t) := r in
    first ← index right_entries 0;
    let separator_key := first.1 in
    let new_page_count := zlen right_entries in
    let old_next := next node in
    let node := mkLeaf (prev node) new_page_id (take mid es) in
    let new_node := mkLeaf page_id old_next right_entries in
    t ← (if negb (old_next =? NULL_PAGE) then
           next_node ← read_leaf t old_next;
           write_leaf t old_next (mkLeaf new_page_id (next next_node) (leaf_entries next_node))
         else Ok t);
    t ← write_leaf t page_id node;
    t ← write_leaf t new_page_id new_node;
    Ok (Split is_new separator_key new_page_id new_page_count, t).

(** [node.entries[i].2 += 1] and [node.rightmost_count += 1] *)
Definition bump_count (node : InternalNode) (idx : option nat) : res InternalNode :=
  match idx with
  | Some i =>
      match int_entries node !! i with
      | Some (k, c, n) =>
          n ← add_u64 n 1;
          Ok (mkInternal (<[i:=(k, c, n)]> (int_entries node)) (rightmost_child node) (rightmost_count node))
      | None => Panic
      end
  | None => n ← add_u64 (rightmost_count node) 1; Ok (mkInternal (int_entries node) (rightmost_child node) n)
  end.

(** The node after its child at [idx] has split. *)
Definition absorb_split (node : InternalNode) (idx : option nat) (child_id : PageId) (is_new : bool)
    (separator_key : bytes) (new_page_id : PageId) (new_page_count : Z) : res InternalNode :=
  match idx with
  | Some i =>
      match int_entries node !! i with
      | Some (old_separator, _, n) =>
          n ← add_u64 n (one_if is_new);
          adjusted_count ← sub_u64 n new_page_count;
          Ok (mkInternal
                (vec_insert (S i) (old_separator, new_page_id, new_page_count)
                   (<[i:=(separator_key, child_id, adjusted_count)]> (int_entries node)))
                (rightmost_child node) (rightmost_count node))
      | None => Panic
      end
  | None =>
      n ← add_u64 (rightmost_count node) (one_if is_new);
      adjusted_count ← sub_u64 n new_page_count;
      Ok (mkInternal (int_entries node ++ [(separator_key, rightmost_child node, adjusted_count)])
            new_page_id new_page_count)
  end.

(** [iter().map(|(_, _, c)| *c).sum::<u64>() + last] *)
Fixpoint sum_counts {A} (es : list (A * Z)) (acc : Z) : res Z :=
  match es with
  | [] => Ok acc
  | (_, c) :: es => acc ← add_u64 acc c; sum_counts es acc
  end.

(** The split of an overfull internal node: the left half keeps the page. *)
Definition split_internal (t : BPlusTree) (page_id : PageId) (node : InternalNode) (is_new : bool)
    : res (InsertOutcome * BPlusTree) :=
  let mid := (length (int_entries node) / 2)%nat in
  match int_entries node !! mid with
  | None => Panic
  | Some (promoted_key, promoted_child, promoted_count) =>
      let right_entries := drop (S mid) (int_entries node) in
      r ← allocate_page t;
      let '(new_page_id2, t) := r in
      s ← sum_counts right_entries 0;
      new_internal_count ← add_u64 s (rightmost_count node);
      let new_node := mkInternal right_entries (rightmost_child node) (rightmost_count node) in
      let node := mkInternal (take mid (int_entries node)) promoted_child promoted_count in
      t ← write_internal t page_id node;
      t ← write_internal t new_page_id2 new_node;
      Ok (Split is_new promoted_key new_page_id2 new_internal_count, t)
  end.

Definition insert_into_internal
    (insert_into : BPlusTree -> PageId -> bytes -> bytes -> res (InsertOutcome * BPlusTree))
    (t : BPlusTree) (page_id : PageId) (key value : bytes) : res (InsertOutcome * BPlusTree) :=
  node ← read_internal t page_id;
  let child_idx := position (int_entries node) key in
  child_id ← child_at node child_idx;
  r ← insert_into t child_id key value;
  match r with
  | (NoSplit is_new, t) =>
      t ← (if is_new : bool then
             node ← bump_count node child_idx;
             write_internal t page_id node
           else Ok t);
      Ok (NoSplit is_new, t)
  | (Split is_new separator_key new_page_id new_page_count, t) =>
      node ← absorb_split node child_idx child_id is_new separator_key new_page_id new_page_count;
      if zlen (int_entries node) <=? t_max_internal_entries t then
        t ← write_internal t page_id node;
        Ok (NoSplit is_new, t)
      else split_internal t page_id node is_new
  end.

Fixpoint insert_into (fuel : nat) (t : BPlusTree) (page_id : PageId) (key value : bytes)
    : res (InsertOutcome * BPlusTree) :=
  match fuel with
  | O => Err "out of fuel"
  | S fuel =>
      bs ← read_page (store t) page_id;
      ty ← page_type bs;
      match ty with
      | PtLeaf => insert_into_leaf t page_id key value
      | PtInternal => insert_into_internal (insert_into fuel) t page_id key value
      end
  end.

Definition bt_insert (t : BPlusTree) (key value : bytes) : res BPlusTree :=
  if negb (zlen key =? key_size t) then Err "key has the wrong length" else
  if negb (zlen value =? value_size t) then Err "value has the wrong length" else
  let root := root_page_id t in
  r ← insert_into (fuel_of t) t root key value;
  t ← match r with
      | (NoSplit is_new, t) =>
          if is_new : bool then n ← add_u64 (total_count t) 1; Ok (with_total t n) else Ok t
      | (Split is_new separator_key new_page_id new_page_count, t) =>
          n ← add_u64 (total_count t) (one_if is_new);
          old_root_count ← sub_u64 n new_page_count;
          r ← allocate_page t;
          let '(new_root_id, t) := r in
          t ← write_internal t new_root_id
                (mkInternal [(separator_key, root, old_root_count)] new_page_id new_page_count);
          let t := with_root t new_root_id in
          if is_new : bool then n ← add_u64 (total_count t) 1; Ok (with_total t n) else Ok t
      end;
  write_superblock t.

(** ** Removal *)

(** The decrement of the chosen child's count. *)
Definition drop_count (node : InternalNode) (idx : option nat) : res InternalNode :=
  match idx with
  | Some i =>
      match int_entries node !! i with
      | Some (k, c, n) =>
          n ← sub_u64 n 1;
          Ok (mkInternal (<[i:=(k, c, n)]> (int_entries node)) (rightmost_child node) (rightmost_count node))
      | None => Panic
      end
  | None => n ← sub_u64 (rightmost_count node) 1; Ok (mkInternal (int_entries node) (rightmost_child node) n)
  end.

Fixpoint remove_loop (fuel : nat) (t : BPlusTree) (page_id : PageId) (key : bytes) : res BPlusTree :=
  match fuel with
  | O => Err "out of fuel"
  | S fuel =>
      bs ← read_page (store t) page_id;
      ty ← page_type bs;
      match ty with
      | PtLeaf =>
          node ← decode_leaf bs (key_size t) (value_size t);
          match binary_search (leaf_entries node) key with
          | inl i => write_leaf t page_id (mkLeaf (prev node) (next node) (delete i (leaf_entries node)))
          | inr _ => Ok t
          end
      | PtInternal =>
          node ← decode_internal bs (key_size t);
          let child_idx := position (int_entries node) key in
          next ← child_at node child_idx;
          node ← drop_count node child_idx;
          t ← write_internal t page_id node;
          remove_loop fuel t next key
      end
  end.

Definition bt_remove (t : BPlusTree) (key : bytes) : res (bool * BPlusTree) :=
  if negb (zlen key =? key_size t) then Err "key has the wrong length" else
  found ← contains t key;
  if negb found then Ok (false, t) else
  t ← remove_loop (fuel_of t) t (root_page_id t) key;
  n ← sub_u64 (total_count t) 1;
  t ← write_superblock (with_total t n);
  Ok (true, t).

(** ** Rebuilding *)

(** [sort_by] on the key is stable. *)
Fixpoint sort_insert (e : bytes * bytes) (es : list (bytes * bytes)) : list (bytes * bytes) :=
  match es with
  | [] => [e]
  | x :: es => if bytes_ltb x.1 e.1 then x :: sort_insert e es else e :: x :: es
  end.
Definition sort_entries (es : list (bytes * bytes)) : list (bytes * bytes) := foldr sort_insert [] es.

(** [chunks(n)], [n > 0]. *)
Fixpoint chunks {A} (fuel n : nat) (l : list A) : list (list A) :=
  match fuel, l with
  | S fuel, _ :: _ => take n l :: chunks fuel n (drop n l)
  | _, _ => []
  end.

(** Allocating one page per chunk. *)
Fixpoint allocate_leaves (t : BPlusTree) (cs : list (list (bytes * bytes)))
    : res (list (bytes * PageId * Z) * BPlusTree) :=
  match cs with
  | [] => Ok ([], t)
  | chunk :: cs =>
      r ← allocate_page t;
      let '(id, t) := r in
      first ← index chunk 0;
      r ← allocate_leaves t cs;
      let '(level, t) := r in
      Ok ((first.1, id, zlen chunk) :: level, t)
  end.

(** Writing the leaves, each linked to its neighbours. *)
Fixpoint write_leaves (t : BPlusTree) (prev_id : PageId) (ids : list PageId) (cs : list (list (bytes * bytes)))
    : res BPlusTree :=
  match ids, cs with
  | id :: ids, chunk :: cs =>
      t ← write_leaf t id (mkLeaf prev_id (match ids with n :: _ => n | [] => NULL_PAGE end) chunk);
      write_leaves t id ids cs
  | _, _ => Ok t
  end.

(** The node over one group: every child but the last is bounded by the next
    child's smallest key. *)
Fixpoint group_entries (group : list (bytes * PageId * Z)) : list (bytes * PageId * Z) :=
  match group with
  | (_, c, n) :: (((k, _, _) :: _) as group') => (k, c, n) :: group_entries group'
  | _ => []
  end.

Fixpoint build_level (t : BPlusTree) (groups : list (list (bytes * PageId * Z)))
    : res (list (bytes * PageId * Z) * BPlusTree) :=
  match groups with
  | [] => Ok ([], t)
  | group :: groups =>
      match head group, last group with
      | Some (smallest, _, _), Some (_, rc, rn) =>
          let entries := group_entries group in
          s ← sum_counts entries 0;
          count ← add_u64 s rn;
          r ← allocate_page t;
          let '(page_id, t) := r in
          t ← write_internal t page_id (mkInternal entries rc rn);
          r ← build_level t groups;
          let '(level, t) := r in
          Ok ((smallest, page_id, count) :: level, t)
      | _, _ => Panic
      end
  end.

(** [while level.len() > 1]: a turn shortens the level, so its length is enough
    turns. *)
Fixpoint build_internal_levels (fuel : nat) (t : BPlusTree) (level : list (bytes * PageId * Z))
    : res (PageId * BPlusTree) :=
  if (1 <? length level)%nat then
    match fuel with
    | O => Err "out of fuel"
    | S fuel =>
        let group_size := Z.to_nat (t_max_internal_entries t + 1) in
        r ← build_level t (chunks (length level) group_size level);
        let '(level, t) := r in
        build_internal_levels fuel t level
    end
  else
    first ← index level 0;
    Ok (first.1.2, t).

Definition rebuild_from (t : BPlusTree) (entries : list (bytes * bytes)) : res BPlusTree :=
  let sorted := sort_entries entries in
  let t := with_total (with_next (with_store t (truncate (store t))) 1) 0 in
  if bool_decide (sorted = []) then
    r ← allocate_page t;
    let '(root_id, t) := r in
    t ← write_leaf t root_id empty_leaf;
    write_superblock (with_root t root_id)
  else
    let leaf_chunk_size := Z.to_nat (Z.max (t_max_leaf_entries t) 1) in
    let leaf_chunks := chunks (length sorted) leaf_chunk_size sorted in
    r ← allocate_leaves t leaf_chunks;
    let '(level, t) := r in
    t ← write_leaves t NULL_PAGE (map (λ e, e.1.2) level) leaf_chunks;
    let t := with_total t (zlen sorted) in
    r ← (if (length level =? 1)%nat then first ← index level 0; Ok (first.1.2, t)
         else build_internal_levels (length level) t level);
    let '(root, t) := r in
    write_superblock (with_root t root).
