(* ===== verification/BTreeRep.v ===== *)
(** * The B+Tree as a sorted list: representation

    The specification of the tree is one list of entries in strict key order.
    This file says when a page file represents such a list: the pages a tree
    reaches decode to nodes, every subtree's keys lie between the separators
    around it, every counted child has the entries its count says, and the
    leaves are linked in order. Keys have one length, so their byte order is
    the order of their big-endian values ([Prelude.bytes_cmp_from_be]). *)

From S2P Require Import Prelude Pages BTree.

Abbreviation entry := (bytes * bytes)%type (only parsing).
Abbreviation leaf := (Z * list (bytes * bytes))%type (only parsing).

(** ** The list a tree stands for *)

Definition kz (e : entry) : Z := from_be e.1.

(** Lookup, upsert and removal on the list. *)
Definition has (k : Z) (es : list entry) : bool := existsb (λ e, kz e =? k) es.
Definition below (k : Z) (es : list entry) : list entry := filter (λ e, kz e < k) es.
Definition above (k : Z) (es : list entry) : list entry := filter (λ e, k < kz e) es.
Definition put_entry (e : entry) (es : list entry) : list entry :=
  below (kz e) es ++ e :: above (kz e) es.
Definition del_entry (k : Z) (es : list entry) : list entry := below k es ++ above k es.

Definition sorted_entries (es : list entry) : Prop := StronglySorted (λ a b, kz a < kz b) es.
Definition keys_in (lo hi : Z) (es : list entry) : Prop := Forall (λ e, lo <= kz e < hi) es.

(** ** Nodes and page maps *)

Inductive node := Leaf (n : LeafNode) | Internal (n : InternalNode).
Abbreviation pages := (gmap Z node) (only parsing).

Definition ents (ls : list leaf) : list entry := flat_map snd ls.
Definition leaf_ids (ls : list leaf) : list PageId := map fst ls.

(** The children of an internal node before the last: [P lo hi c ls ps] says the
    page [c] is a tree over the keys from [lo] to [hi] with leaves [ls] and
    pages [ps]. *)
Inductive seg (P : Z -> Z -> PageId -> list leaf -> list PageId -> Prop)
    : Z -> Z -> list (bytes * PageId * Z) -> list leaf -> list PageId -> Prop :=
| seg_nil lo : seg P lo lo [] [] []
| seg_cons lo m k c n es ls ps ls' ps' :
    lo < from_be k -> P lo (from_be k) c ls ps -> n = zlen (ents ls) ->
    seg P (from_be k) m es ls' ps' ->
    seg P lo m ((k, c, n) :: es) (ls ++ ls') (ps ++ ps').

Definition kids (P : Z -> Z -> PageId -> list leaf -> list PageId -> Prop) (lo hi : Z) (n : InternalNode)
    (ls : list leaf) (ps : list PageId) : Prop :=
  exists m ls1 ls2 ps1 ps2,
    seg P lo m (int_entries n) ls1 ps1 /\ m < hi /\
    P m hi (rightmost_child n) ls2 ps2 /\ rightmost_count n = zlen (ents ls2) /\
    ls = ls1 ++ ls2 /\ ps = ps1 ++ ps2.

(** Page [id] is the root of a tree of height [h] over the keys from [lo] to
    [hi], with these leaves in order and these pages. *)
Fixpoint tree_rep (G : pages) (h : nat) (lo hi : Z) (id : PageId) (ls : list leaf) (ps : list PageId) : Prop :=
  match h with
  | O => exists n, G !! id = Some (Leaf n) /\ sorted_entries (leaf_entries n) /\
           keys_in lo hi (leaf_entries n) /\ ls = [(id, leaf_entries n)] /\ ps = [id]
  | S h => exists n ps', G !! id = Some (Internal n) /\ kids (tree_rep G h) lo hi n ls ps' /\ ps = id :: ps'
  end.

(** The sibling links of a leaf page. *)
Definition links (G : pages) (id : PageId) : option (PageId * PageId) :=
  match G !! id with Some (Leaf n) => Some (prev n, next n) | _ => None end.

Fixpoint chain (L : PageId -> option (PageId * PageId)) (p : PageId) (ids : list PageId) : Prop :=
  match ids with
  | [] => True
  | id :: ids => L id = Some (p, match ids with i :: _ => i | [] => NULL_PAGE end) /\ chain L id ids
  end.

(** ** What the file holds *)

Definition geometry_ok (t : BPlusTree) : Prop :=
  ps_page_size (store t) = page_size t /\ u32_ok (page_size t) /\ validate_page_size (page_size t) = Ok () /\
  u32_ok (key_size t) /\ u32_ok (value_size t) /\
  max_leaf_entries (page_size t) (key_size t) (value_size t) = Ok (t_max_leaf_entries t) /\
  max_internal_entries (page_size t) (key_size t) = Ok (t_max_internal_entries t) /\
  0 < t_max_leaf_entries t /\ 0 < t_max_internal_entries t.

Definition node_fits (t : BPlusTree) (nd : node) : Prop :=
  match nd with
  | Leaf n => leaf_fits (page_size t) (key_size t) (value_size t) n
  | Internal n => internal_fits (page_size t) (key_size t) n
  end.

Definition page_holds (t : BPlusTree) (id : PageId) (nd : node) : Prop :=
  exists bs, read_page (store t) id = Ok bs /\
    match nd with
    | Leaf n => page_type bs = Ok PtLeaf /\ decode_leaf bs (key_size t) (value_size t) = Ok n
    | Internal n => page_type bs = Ok PtInternal /\ decode_internal bs (key_size t) = Ok n
    end.

(** The pages of [G] are on disk. *)
Record repr (t : BPlusTree) (G : pages) : Prop := {
  repr_geometry : geometry_ok t;
  repr_room : 1 <= next_page_id t /\ next_page_id t * page_size t < 2 ^ 64;
  repr_ids : forall id nd, G !! id = Some nd -> 1 <= id < next_page_id t;
  repr_fits : forall id nd, G !! id = Some nd -> node_fits t nd;
  repr_holds : forall id nd, G !! id = Some nd -> page_holds t id nd
}.

(** Page 0 is the tree's superblock. *)
Definition superblock_of (t : BPlusTree) : Superblock :=
  mkSuperblock (page_size t) (key_size t) (value_size t) (root_page_id t) (total_count t) (next_page_id t).
Definition header_ok (t : BPlusTree) : Prop :=
  SB_HEADER_LEN <= zlen (ps_file (store t)) /\
  exists bs, read_page (store t) 0 = Ok (superblock_bytes (superblock_of t) ++ bs).

Definition key_space (t : BPlusTree) : Z := 256 ^ key_size t.

(** [t] represents the sorted list [es]. *)
Definition tree_ok (t : BPlusTree) (es : list entry) : Prop :=
  header_ok t /\ total_count t = zlen es /\ total_count t < 2 ^ 64 /\
  exists G h ls ps,
    repr t G /\ tree_rep G h 0 (key_space t) (root_page_id t) ls ps /\ NoDup ps /\
    chain (links G) NULL_PAGE (leaf_ids ls) /\ es = ents ls.

(** ** The list *)

Lemma filter_none {A} (P : A -> Prop) `{forall x, Decision (P x)} l :
  Forall (λ x, ~ P x) l -> filter P l = [].
Proof. induction 1 as [|x l Hx Hl IH]; [done|]. by rewrite filter_cons_False. Qed.

Lemma below_all k es : Forall (λ e, kz e < k) es -> below k es = es /\ above k es = [] /\ has k es = false.
Proof.
  intros HF. split_and!.
  - by apply filter_all.
  - apply filter_none. eapply Forall_impl; [exact HF|]. intros e; simpl; lia.
  - induction HF as [|e es He HF IH]; [done|]. simpl. rewrite IH, orb_false_r. apply Z.eqb_neq. lia.
Qed.

Lemma above_all k es : Forall (λ e, k < kz e) es -> below k es = [] /\ above k es = es /\ has k es = false.
Proof.
  intros HF. split_and!.
  - apply filter_none. eapply Forall_impl; [exact HF|]. intros e; simpl; lia.
  - by apply filter_all.
  - induction HF as [|e es He HF IH]; [done|]. simpl. rewrite IH, orb_false_r. apply Z.eqb_neq. lia.
Qed.

(** The operations act inside the part of the list whose keys surround [k]. *)
Lemma local_below k as_ es bs :
  Forall (λ e, kz e < k) as_ -> Forall (λ e, k < kz e) bs ->
  below k (as_ ++ es ++ bs) = as_ ++ below k es /\
  above k (as_ ++ es ++ bs) = above k es ++ bs /\
  has k (as_ ++ es ++ bs) = has k es.
Proof.
  intros [Ha1 [Ha2 Ha3]]%below_all [Hb1 [Hb2 Hb3]]%above_all. unfold below, above, has in *.
  rewrite !filter_app, !existsb_app, Ha1, Ha2, Ha3, Hb1, Hb2, Hb3, app_nil_r. simpl.
  by rewrite orb_false_r.
Qed.

Lemma put_local e as_ es bs :
  Forall (λ x, kz x < kz e) as_ -> Forall (λ x, kz e < kz x) bs ->
  put_entry e (as_ ++ es ++ bs) = as_ ++ put_entry e es ++ bs.
Proof.
  intros Ha Hb. unfold put_entry. destruct (local_below (kz e) as_ es bs Ha Hb) as (-> & -> & _).
  by rewrite <- !app_assoc.
Qed.

Lemma del_local k as_ es bs :
  Forall (λ x, kz x < k) as_ -> Forall (λ x, k < kz x) bs ->
  del_entry k (as_ ++ es ++ bs) = as_ ++ del_entry k es ++ bs.
Proof.
  intros Ha Hb. unfold del_entry. destruct (local_below k as_ es bs Ha Hb) as (-> & -> & _).
  by rewrite <- !app_assoc.
Qed.

Lemma sorted_inv e es : sorted_entries (e :: es) -> sorted_entries es /\ Forall (λ x, kz e < kz x) es.
Proof. intros H. by apply StronglySorted_inv in H. Qed.

Lemma sorted_app as_ bs :
  sorted_entries (as_ ++ bs) <->
  sorted_entries as_ /\ sorted_entries bs /\ Forall (λ a, Forall (λ b, kz a < kz b) bs) as_.
Proof.
  induction as_ as [|a as_ IH]; simpl.
  - split; [intros H|intros (_ & H & _); exact H]. split_and!; [constructor|done|constructor].
  - split.
    + intros [H1 H2]%sorted_inv. apply IH in H1 as (H3 & H4 & H5). apply Forall_app in H2 as [H2 H2'].
      split_and!; [by constructor|done|by constructor].
    + intros (H1 & H2 & H3). apply sorted_inv in H1 as [H1 H1'].
      apply Forall_cons in H3 as [H3 H3']. constructor; [by apply IH|]. apply Forall_app. by split.
Qed.

Lemma sorted_app_at m as_ bs :
  sorted_entries as_ -> sorted_entries bs -> Forall (λ a, kz a < m) as_ -> Forall (λ b, m <= kz b) bs ->
  sorted_entries (as_ ++ bs).
Proof.
  intros Ha Hb Hla Hlb. apply sorted_app. split_and!; [done..|].
  eapply Forall_impl; [exact Hla|]. intros a Hma. eapply Forall_impl; [exact Hlb|]. simpl in *. lia.
Qed.

(** A sorted list around one key. *)
Lemma sorted_at k es :
  sorted_entries es ->
  (has k es = false /\ es = below k es ++ above k es) \/
  (exists e, has k es = true /\ kz e = k /\ es = below k es ++ e :: above k es).
Proof.
  induction es as [|x es IH]; intros Hs; [by left|]. apply sorted_inv in Hs as [Hs Hx].
  destruct (Z.compare_spec (kz x) k) as [E|E|E].
  - right. exists x. simpl. rewrite (proj2 (Z.eqb_eq _ _)) by done. split_and!; [done..|].
    rewrite E in Hx. apply above_all in Hx as (Hb & Ha & _). unfold below, above in *.
    rewrite !filter_cons_False by lia. by rewrite Hb, Ha.
  - simpl. rewrite (proj2 (Z.eqb_neq _ _)) by lia. unfold below, above in *.
    rewrite filter_cons_True, filter_cons_False by lia.
    destruct (IH Hs) as [[H1 H2]|(e & H1 & H2 & H3)]; [left|right].
    + split; [done|]. simpl. by f_equal.
    + exists e. split_and!; [done..|]. simpl. by f_equal.
  - left. assert (Forall (λ y, k < kz y) (x :: es)) as HF.
    { constructor; [done|]. eapply Forall_impl; [exact Hx|]. simpl. lia. }
    apply above_all in HF as (-> & -> & ->). done.
Qed.

Lemma below_lt k es : Forall (λ e, kz e < k) (below k es).
Proof. apply Forall_forall. intros e He. by apply list_elem_of_filter in He as [? _]. Qed.
Lemma above_gt k es : Forall (λ e, k < kz e) (above k es).
Proof. apply Forall_forall. intros e He. by apply list_elem_of_filter in He as [? _]. Qed.

Lemma sorted_filter (P : entry -> Prop) `{forall x, Decision (P x)} es :
  sorted_entries es -> sorted_entries (filter P es).
Proof.
  induction es as [|e es IH]; intros Hs; [done|]. apply sorted_inv in Hs as [Hs HF].
  destruct (decide (P e)); [rewrite filter_cons_True by done|rewrite filter_cons_False by done; by apply IH].
  constructor; [by apply IH|]. apply Forall_forall. intros x [_ Hx]%list_elem_of_filter.
  rewrite Forall_forall in HF. by apply HF.
Qed.

Lemma put_sorted e es : sorted_entries es -> sorted_entries (put_entry e es).
Proof.
  intros Hs. apply (sorted_app_at (kz e)); [by apply sorted_filter| |apply below_lt|].
  - constructor; [by apply sorted_filter|apply above_gt].
  - constructor; [lia|]. eapply Forall_impl; [apply above_gt|]. simpl. lia.
Qed.

Lemma del_sorted k es : sorted_entries es -> sorted_entries (del_entry k es).
Proof.
  intros Hs. apply (sorted_app_at k); [by apply sorted_filter..|apply below_lt|].
  eapply Forall_impl; [apply above_gt|]. simpl. lia.
Qed.

Lemma Forall_filtered {A} (P Q : A -> Prop) `{forall x, Decision (Q x)} l : Forall P l -> Forall P (filter Q l).
Proof. rewrite !Forall_forall. intros HF x [_ Hx]%list_elem_of_filter. by apply HF. Qed.

Lemma Forall_put (P : entry -> Prop) e es : P e -> Forall P es -> Forall P (put_entry e es).
Proof. intros He HF. apply Forall_app. split; [|constructor; [done|]]; by apply Forall_filtered. Qed.
Lemma Forall_del (P : entry -> Prop) k es : Forall P es -> Forall P (del_entry k es).
Proof. intros HF. apply Forall_app. split; by apply Forall_filtered. Qed.

Lemma zlen_put e es :
  sorted_entries es -> zlen (put_entry e es) = zlen es + one_if (negb (has (kz e) es)).
Proof.
  intros Hs. unfold put_entry.
  destruct (sorted_at (kz e) es Hs) as [[H1 H2]|(x & H1 & _ & H2)]; rewrite H1; apply (f_equal zlen) in H2;
    rewrite H2; rewrite !zlen_app, ?zlen_cons; simpl; lia.
Qed.

Lemma zlen_del k es : sorted_entries es -> zlen (del_entry k es) = zlen es - one_if (has k es).
Proof.
  intros Hs. unfold del_entry.
  destruct (sorted_at k es Hs) as [[H1 H2]|(x & H1 & _ & H2)]; rewrite H1; apply (f_equal zlen) in H2;
    rewrite H2; rewrite !zlen_app, ?zlen_cons; simpl; lia.
Qed.

(** *** The searches of one node *)

Lemma bytes_cmp_kz (k key : bytes) :
  zlen k = zlen key -> bytes_cmp k key = Z.compare (from_be k) (from_be key).
Proof. intros H. apply bytes_cmp_from_be. unfold zlen in H. lia. Qed.
Lemma bytes_ltb_kz (k key : bytes) :
  zlen k = zlen key -> bytes_ltb k key = (from_be k <? from_be key).
Proof. intros H. unfold bytes_ltb. by rewrite bytes_cmp_kz. Qed.

Lemma below_cons k e es :
  below k (e :: es) = if kz e <? k then e :: below k es else below k es.
Proof. unfold below. rewrite filter_cons. destruct (Z.ltb_spec (kz e) k); case_decide; done || lia. Qed.
Lemma above_cons k e es :
  above k (e :: es) = if k <? kz e then e :: above k es else above k es.
Proof. unfold above. rewrite filter_cons. destruct (Z.ltb_spec k (kz e)); case_decide; done || lia. Qed.

Lemma has_cons k e es : has k (e :: es) = (kz e =? k) || has k es.
Proof. done. Qed.

Lemma binary_search_spec es key :
  sorted_entries es -> Forall (λ e, zlen e.1 = zlen key) es ->
  match binary_search es key with
  | inl i => has (from_be key) es = true /\ i = length (below (from_be key) es)
  | inr i => has (from_be key) es = false /\ i = length (below (from_be key) es)
  end.
Proof.
  intros Hs HF. induction es as [|[x v] es IH]; [done|]. cbn [binary_search].
  apply sorted_inv in Hs as [Hs Hx]. apply Forall_cons in HF as [Hl HF]. simpl in Hl.
  rewrite bytes_cmp_kz, below_cons, has_cons by done. change (kz (x, v)) with (from_be x) in *.
  destruct (Z.compare_spec (from_be x) (from_be key)) as [E|E|E].
  - rewrite (proj2 (Z.eqb_eq _ _)), (proj2 (Z.ltb_ge _ _)) by lia. split; [done|].
    rewrite E in Hx. by apply above_all in Hx as (-> & _ & _).
  - rewrite (proj2 (Z.eqb_neq (from_be x) _)), (proj2 (Z.ltb_lt _ _)) by lia.
    specialize (IH Hs HF). destruct (binary_search es key); simpl; destruct IH as [? ->]; done.
  - rewrite (proj2 (Z.eqb_neq (from_be x) _)), (proj2 (Z.ltb_ge _ _)) by lia.
    assert (Forall (λ y, from_be key < kz y) es) as HF'.
    { eapply Forall_impl; [exact Hx|]. simpl. lia. }
    apply above_all in HF' as (-> & _ & ->). done.
Qed.

Lemma position_spec es key :
  Forall (λ e, zlen e.1.1 = zlen key) es ->
  match position es key with
  | Some i => exists es1 k c n es2, es = es1 ++ (k, c, n) :: es2 /\ i = length es1 /\
      Forall (λ e, from_be e.1.1 <= from_be key) es1 /\ from_be key < from_be k
  | None => Forall (λ e, from_be e.1.1 <= from_be key) es
  end.
Proof.
  induction 1 as [|[[k c] n] es Hl HF IH]; [constructor|]. simpl in *. rewrite bytes_ltb_kz by done.
  destruct (Z.ltb_spec (from_be key) (from_be k)) as [Hlt|Hge].
  - exists [], k, c, n, es. by split_and!.
  - destruct (position es key) as [i|]; simpl; [|by constructor].
    destruct IH as (es1 & k' & c' & n' & es2 & -> & -> & HF1 & Hlt).
    exists ((k, c, n) :: es1), k', c', n', es2. split_and!; [done..| |done]. by constructor.
Qed.

(** ** Segments of children *)

Lemma ents_app as_ bs : ents (as_ ++ bs) = ents as_ ++ ents bs.
Proof. apply flat_map_app. Qed.

Lemma keys_in_app lo m hi as_ bs :
  lo <= m -> m <= hi -> keys_in lo m as_ -> keys_in m hi bs -> keys_in lo hi (as_ ++ bs).
Proof.
  intros H1 H2 Ha Hb. apply Forall_app.
  split; [eapply Forall_impl; [exact Ha|]|eapply Forall_impl; [exact Hb|]]; simpl; lia.
Qed.

Lemma keys_in_lt lo hi es k : keys_in lo hi es -> hi <= k -> Forall (λ e, kz e < k) es.
Proof. intros HF Hk. eapply Forall_impl; [exact HF|]. simpl. lia. Qed.
Lemma keys_in_ge lo hi es k : keys_in lo hi es -> k < lo -> Forall (λ e, k < kz e) es.
Proof. intros HF Hk. eapply Forall_impl; [exact HF|]. simpl. lia. Qed.
Lemma keys_in_sorted_app lo m hi as_ bs :
  keys_in lo m as_ -> keys_in m hi bs -> sorted_entries as_ -> sorted_entries bs -> sorted_entries (as_ ++ bs).
Proof.
  intros Ha Hb Hsa Hsb. apply (sorted_app_at m); [done..| |].
  - eapply Forall_impl; [exact Ha|]. simpl. lia.
  - eapply Forall_impl; [exact Hb|]. simpl. lia.
Qed.

(** What a subtree's keys satisfy. *)
Definition good (P : Z -> Z -> PageId -> list leaf -> list PageId -> Prop) : Prop :=
  forall lo hi c ls ps, P lo hi c ls ps -> sorted_entries (ents ls) /\ keys_in lo hi (ents ls).

Section segments.
Context {P : Z -> Z -> PageId -> list leaf -> list PageId -> Prop}.

Lemma seg_app es1 es2 lo m ls ps :
  seg P lo m (es1 ++ es2) ls ps <->
  exists x ls1 ls2 ps1 ps2, seg P lo x es1 ls1 ps1 /\ seg P x m es2 ls2 ps2 /\ ls = ls1 ++ ls2 /\ ps = ps1 ++ ps2.
Proof.
  split.
  - revert lo ls ps. induction es1 as [|e es1 IH]; intros lo ls ps H; simpl in H.
    + exists lo, [], ls, [], ps. by split_and!; [constructor|..].
    + inversion H as [|? ? k c n es' ls1 ps1 ls2 ps2 Hk Hc Hn Hs]; subst.
      apply IH in Hs as (x & l1 & l2 & p1 & p2 & Hs1 & Hs2 & -> & ->).
      exists x, (ls1 ++ l1), l2, (ps1 ++ p1), p2. rewrite <- !app_assoc. by split_and!; [constructor|..].
  - intros (x & ls1 & ls2 & ps1 & ps2 & Hs1 & Hs2 & -> & ->).
    induction Hs1 as [lo|lo x k c n es l p l' p' Hk Hc Hn Hs1 IH]; [done|]. simpl. rewrite <- !app_assoc.
    constructor; [done..|]. by apply IH.
Qed.

Lemma seg_le lo m es ls ps : seg P lo m es ls ps -> lo <= m.
Proof. induction 1; lia. Qed.

Lemma seg_bound lo m es ls ps k :
  seg P lo m es ls ps -> lo <= k -> Forall (λ e, from_be e.1.1 <= k) es -> m <= k.
Proof.
  induction 1 as [|lo m x c n es l p l' p' Hx Hc Hn Hs IH]; intros Hlo HF; [done|].
  apply Forall_cons in HF as [HF1 HF2]. by apply IH.
Qed.

Lemma seg_mono P' lo m es ls ps :
  (forall lo hi c ls' ps', (forall i, i ∈ ps' -> i ∈ ps) -> P lo hi c ls' ps' -> P' lo hi c ls' ps') ->
  seg P lo m es ls ps -> seg P' lo m es ls ps.
Proof.
  intros HP Hs. induction Hs as [|lo m x c n es l p l' p' Hx Hc Hn Hs IH]; [constructor|].
  constructor; [done| |done|].
  - apply HP; [|done]. intros i Hi. apply elem_of_app. by left.
  - apply IH. intros ????? Hi. apply HP. intros i Hi'. apply elem_of_app. right. by apply Hi.
Qed.

Hypothesis HP : good P.

Lemma seg_good lo m es ls ps :
  seg P lo m es ls ps -> sorted_entries (ents ls) /\ keys_in lo m (ents ls).
Proof.
  induction 1 as [|lo m x c n es l p l' p' Hx Hc Hn Hs IH]; [split; constructor|].
  apply HP in Hc as [Hc1 Hc2]. destruct IH as [IH1 IH2]. pose proof (seg_le _ _ _ _ _ Hs). rewrite ents_app. split.
  - by eapply keys_in_sorted_app.
  - apply (keys_in_app _ (from_be x)); [lia|lia|done..].
Qed.

Lemma kids_good lo hi n ls ps :
  kids P lo hi n ls ps -> sorted_entries (ents ls) /\ keys_in lo hi (ents ls) /\ lo < hi.
Proof.
  intros (m & ls1 & ls2 & ps1 & ps2 & Hs & Hm & Hr & _ & -> & ->).
  pose proof (seg_le _ _ _ _ _ Hs). apply seg_good in Hs as [Hs1 Hs2]. apply HP in Hr as [Hr1 Hr2].
  rewrite ents_app. split_and!; [by eapply keys_in_sorted_app| |lia]. apply (keys_in_app _ m); [lia|lia|done..].
Qed.
End segments.

Lemma kids_mono P P' lo hi n ls ps :
  (forall lo hi c ls' ps', (forall i, i ∈ ps' -> i ∈ ps) -> P lo hi c ls' ps' -> P' lo hi c ls' ps') ->
  kids P lo hi n ls ps -> kids P' lo hi n ls ps.
Proof.
  intros HP (m & ls1 & ls2 & ps1 & ps2 & Hs & Hm & Hr & Hn & -> & ->).
  exists m, ls1, ls2, ps1, ps2. split_and!; try done.
  - eapply seg_mono; [|exact Hs]. intros ????? Hi. apply HP. intros i Hi'. apply elem_of_app. left. by apply Hi.
  - apply HP; [|done]. intros i Hi. apply elem_of_app. by right.
Qed.

(** ** The child a key belongs to *)

(** The node with the count, or the split, of the child at [idx] recorded. *)
Definition set_count (n : InternalNode) (idx : option nat) (v : Z) : InternalNode :=
  match idx with
  | Some i =>
      match int_entries n !! i with
      | Some (k, c, _) => mkInternal (<[i:=(k, c, v)]> (int_entries n)) (rightmost_child n) (rightmost_count n)
      | None => n
      end
  | None => mkInternal (int_entries n) (rightmost_child n) v
  end.

Definition set_split (n : InternalNode) (idx : option nat) (c : PageId) (sep : bytes) (v : Z)
    (nid : PageId) (nv : Z) : InternalNode :=
  match idx with
  | Some i =>
      match int_entries n !! i with
      | Some (k, _, _) =>
          mkInternal (vec_insert (S i) (k, nid, nv) (<[i:=(sep, c, v)]> (int_entries n)))
            (rightmost_child n) (rightmost_count n)
      | None => n
      end
  | None => mkInternal (int_entries n ++ [(sep, c, v)]) nid nv
  end.

Definition count_at (n : InternalNode) (idx : option nat) : option Z :=
  match idx with Some i => snd <$> int_entries n !! i | None => Some (rightmost_count n) end.

(** The place of the child [c] over keys from [lo'] to [hi'] among the children
    of [n]: its count, and what becomes of the node when the child changes or
    splits while the pages [psA] and [psB] of its siblings stay. *)
Record slot (P : Z -> Z -> PageId -> list leaf -> list PageId -> Prop) (lo hi : Z) (n : InternalNode) (ls : list leaf) (ps : list PageId) (idx : option nat)
    (c : PageId) (lo' hi' : Z) (lsA lsC lsB : list leaf) (psA psC psB : list PageId) : Prop := {
  slot_child : child_at n idx = Ok c;
  slot_rep : P lo' hi' c lsC psC;
  slot_bounds : lo <= lo' /\ hi' <= hi;
  slot_leaves : ls = lsA ++ lsC ++ lsB;
  slot_pages : ps = psA ++ psC ++ psB;
  slot_left : keys_in lo lo' (ents lsA);
  slot_right : keys_in hi' hi (ents lsB);
  slot_count : count_at n idx = Some (zlen (ents lsC));
  slot_set P' lsC' psC' :
    (forall lo hi c ls' ps', (forall i, i ∈ ps' -> i ∈ psA ++ psB) -> P lo hi c ls' ps' -> P' lo hi c ls' ps') ->
    P' lo' hi' c lsC' psC' ->
    kids P' lo hi (set_count n idx (zlen (ents lsC'))) (lsA ++ lsC' ++ lsB) (psA ++ psC' ++ psB);
  slot_split P' sep nid ls1 ps1 ls2 ps2 :
    (forall lo hi c ls' ps', (forall i, i ∈ ps' -> i ∈ psA ++ psB) -> P lo hi c ls' ps' -> P' lo hi c ls' ps') ->
    lo' < from_be sep < hi' -> P' lo' (from_be sep) c ls1 ps1 -> P' (from_be sep) hi' nid ls2 ps2 ->
    kids P' lo hi (set_split n idx c sep (zlen (ents ls1)) nid (zlen (ents ls2)))
      (lsA ++ (ls1 ++ ls2) ++ lsB) (psA ++ (ps1 ++ ps2) ++ psB)
}.

Lemma insert_middle {A} (l1 : list A) x y l2 : <[length l1:=y]> (l1 ++ x :: l2) = l1 ++ y :: l2.
Proof. rewrite <- (Nat.add_0_r (length l1)), insert_app_r. done. Qed.
Lemma vec_insert_middle {A} (l1 : list A) x y l2 : vec_insert (S (length l1)) y (l1 ++ x :: l2) = l1 ++ x :: y :: l2.
Proof.
  unfold vec_insert. replace (S (length l1)) with (length (l1 ++ [x])) by (rewrite length_app; simpl; lia).
  change (l1 ++ x :: l2) with (l1 ++ [x] ++ l2). rewrite app_assoc, take_app_length, drop_app_length.
  by rewrite <- app_assoc.
Qed.

Lemma slot_middle P lo hi n ls ps key es1 k c cnt es2 :
  good P -> kids P lo hi n ls ps -> lo <= from_be key ->
  int_entries n = es1 ++ (k, c, cnt) :: es2 ->
  Forall (λ e, from_be e.1.1 <= from_be key) es1 -> from_be key < from_be k ->
  exists lo' hi' lsA lsC lsB psA psC psB,
    slot P lo hi n ls ps (Some (length es1)) c lo' hi' lsA lsC lsB psA psC psB /\ lo' <= from_be key < hi'.
Proof.
  intros HG (m & ls1 & ls2 & ps1 & ps2 & Hs & Hm & Hr & Hn & -> & ->) Hk He HF1 Hlt. rewrite He in Hs.
  apply seg_app in Hs as (x & lsA & ls' & psA & ps' & Hs1 & Hs2 & -> & ->).
  inversion Hs2 as [|? ? ? ? ? ? lsC psC lsB psB Hxk Hc Hcnt Hs3]; subst.
  exists x, (from_be k), lsA, lsC, (lsB ++ ls2), psA, psC, (psB ++ ps2).
  pose proof (seg_le _ _ _ _ _ Hs1). pose proof (seg_le _ _ _ _ _ Hs3).
  pose proof (seg_bound _ _ _ _ _ (from_be key) Hs1 ltac:(lia) HF1).
  assert (int_entries n !! length es1 = Some (k, c, zlen (ents lsC))) as Hlk
    by (rewrite He; by apply list_lookup_middle).
  split; [|lia]. split; simpl.
  - by rewrite Hlk.
  - done.
  - lia.
  - by rewrite <- !app_assoc.
  - by rewrite <- !app_assoc.
  - apply (seg_good HG) in Hs1 as [_ Hs1]. done.
  - apply (seg_good HG) in Hs3 as [_ Hs3]. apply HG in Hr as [_ Hr]. rewrite ents_app.
    by apply (keys_in_app _ m); [lia|lia|..].
  - by rewrite Hlk.
  - intros P' lsC' psC' HP Hc'. rewrite Hlk.
    exists m, (lsA ++ lsC' ++ lsB), ls2, (psA ++ psC' ++ psB), ps2. simpl. split_and!; try done.
    + rewrite He, insert_middle. apply seg_app. eexists x, lsA, _, psA, _. split_and!; [| |done|done].
      * eapply seg_mono; [|exact Hs1]. intros ????? Hi. apply HP. set_solver.
      * constructor; [done..|]. eapply seg_mono; [|exact Hs3]. intros ????? Hi. apply HP. set_solver.
    + apply HP; [set_solver|done].
    + by rewrite <- !app_assoc.
    + by rewrite <- !app_assoc.
  - intros P' sep nid l1 p1 l2 p2 HP Hsep Hl Hr'. rewrite Hlk.
    exists m, (lsA ++ (l1 ++ l2) ++ lsB), ls2, (psA ++ (p1 ++ p2) ++ psB), ps2. simpl. split_and!; try done.
    + rewrite He, insert_middle, vec_insert_middle. apply seg_app. eexists x, lsA, _, psA, _.
      split_and!; [| |done|done].
      * eapply seg_mono; [|exact Hs1]. intros ????? Hi. apply HP. set_solver.
      * rewrite <- !app_assoc. constructor; [lia|done|done|]. constructor; [lia|done|done|].
         eapply seg_mono; [|exact Hs3]. intros ????? Hi. apply HP. set_solver.
    + apply HP; [set_solver|done].
    + by rewrite <- !app_assoc.
    + by rewrite <- !app_assoc.
Qed.

Lemma slot_last P lo hi n ls ps key :
  good P -> kids P lo hi n ls ps -> lo <= from_be key < hi ->
  Forall (λ e, from_be e.1.1 <= from_be key) (int_entries n) ->
  exists lo' hi' lsA lsC lsB psA psC psB,
    slot P lo hi n ls ps None (rightmost_child n) lo' hi' lsA lsC lsB psA psC psB /\ lo' <= from_be key < hi'.
Proof.
  intros HG (m & ls1 & ls2 & ps1 & ps2 & Hs & Hm & Hr & Hn & -> & ->) Hk HF.
  pose proof (seg_le _ _ _ _ _ Hs). pose proof (seg_bound _ _ _ _ _ (from_be key) Hs ltac:(lia) HF).
  exists m, hi, ls1, ls2, [], ps1, ps2, []. split; [|lia]. split; simpl.
  - done.
  - done.
  - lia.
  - by rewrite app_nil_r.
  - by rewrite app_nil_r.
  - by apply (seg_good HG) in Hs as [_ Hs].
  - constructor.
  - by rewrite Hn.
  - intros P' lsC' psC' HP Hc'. exists m, ls1, lsC', ps1, psC'. simpl. rewrite !app_nil_r.
    split_and!; try done. eapply seg_mono; [|exact Hs]. intros ????? Hi. apply HP. set_solver.
  - intros P' sep nid l1 p1 l2 p2 HP Hsep Hl Hr'. rewrite !app_nil_r.
    exists (from_be sep), (ls1 ++ l1), l2, (ps1 ++ p1), p2. simpl. rewrite <- !app_assoc. split_and!; try done; [|lia].
    apply seg_app. exists m, ls1, l1, ps1, p1. split_and!; [|  |done|done].
    + eapply seg_mono; [|exact Hs]. intros ????? Hi. apply HP. set_solver.
    + rewrite <- (app_nil_r l1), <- (app_nil_r p1). constructor; [lia|done| |constructor].
      by rewrite app_nil_r.
Qed.

Lemma kids_slot P lo hi n ls ps key :
  good P -> kids P lo hi n ls ps -> lo <= from_be key < hi ->
  Forall (λ e, zlen e.1.1 = zlen key) (int_entries n) ->
  exists c lo' hi' lsA lsC lsB psA psC psB,
    slot P lo hi n ls ps (position (int_entries n) key) c lo' hi' lsA lsC lsB psA psC psB /\
    lo' <= from_be key < hi'.
Proof.
  intros HG Hn Hk HF. pose proof (position_spec _ _ HF) as Hpos. destruct (position (int_entries n) key) as [i|].
  - destruct Hpos as (es1 & k & c & cnt & es2 & He & -> & HF1 & Hlt). exists c.
    by eapply slot_middle; [..|exact Hlt]; [| |lia| |].
  - exists (rightmost_child n). by apply slot_last.
Qed.
