(* ===== verification/BTreeDisk.v ===== *)
(** * The B+Tree as a sorted list: pages on disk

    Reading and writing nodes through the page file under [BTreeRep.repr], the
    frame property of [tree_rep], the leaf chain, and descents from the root. *)

From S2P Require Import Prelude Pages BTree BTreeRep.

(** ** Trees *)

Lemma seg_closed (Q : list leaf -> list PageId -> Prop) P lo m es ls ps :
  Q [] [] -> (forall l1 p1 l2 p2, Q l1 p1 -> Q l2 p2 -> Q (l1 ++ l2) (p1 ++ p2)) ->
  (forall lo hi c l p, P lo hi c l p -> Q l p) -> seg P lo m es ls ps -> Q ls ps.
Proof. intros H0 Happ HP Hs. induction Hs; eauto. Qed.

Lemma kids_closed (Q : list leaf -> list PageId -> Prop) P lo hi n ls ps :
  Q [] [] -> (forall l1 p1 l2 p2, Q l1 p1 -> Q l2 p2 -> Q (l1 ++ l2) (p1 ++ p2)) ->
  (forall lo hi c l p, P lo hi c l p -> Q l p) -> kids P lo hi n ls ps -> Q ls ps.
Proof.
  intros H0 Happ HP (m & ls1 & ls2 & ps1 & ps2 & Hs & _ & Hr & _ & -> & ->).
  apply Happ; [by eapply seg_closed|by eapply HP].
Qed.

Lemma ents_single id es : ents [(id, es)] = es.
Proof. apply app_nil_r. Qed.

Lemma tree_rep_good G h : good (tree_rep G h).
Proof.
  induction h as [|h IH]; intros lo hi c ls ps; simpl.
  - intros (n & _ & Hs & Hk & -> & _). by rewrite ents_single.
  - intros (n & ps' & _ & Hn & _). apply (kids_good IH) in Hn as (H1 & H2 & _). done.
Qed.

Lemma tree_rep_root G h lo hi id ls ps : tree_rep G h lo hi id ls ps -> exists ps', ps = id :: ps'.
Proof. destruct h; simpl; [intros (n & _ & _ & _ & _ & ->)|intros (n & ps' & _ & _ & ->)]; eauto. Qed.

Lemma tree_rep_pages G h lo hi id ls ps : tree_rep G h lo hi id ls ps -> Forall (λ i, is_Some (G !! i)) ps.
Proof.
  revert lo hi id ls ps. induction h as [|h IH]; intros lo hi id ls ps; simpl.
  - intros (n & Hn & _ & _ & _ & ->). constructor; [by eexists|constructor].
  - intros (n & ps' & Hn & Hk & ->). constructor; [by eexists|].
    eapply (kids_closed (λ _ ps, Forall (λ i, is_Some (G !! i)) ps)); [constructor| |exact IH|exact Hk].
    intros. by apply Forall_app.
Qed.

Lemma tree_rep_sublist G h lo hi id ls ps : tree_rep G h lo hi id ls ps -> sublist (leaf_ids ls) ps.
Proof.
  revert lo hi id ls ps. induction h as [|h IH]; intros lo hi id ls ps; simpl.
  - intros (n & _ & _ & _ & -> & ->). done.
  - intros (n & ps' & _ & Hk & ->). apply sublist_cons.
    eapply (kids_closed (λ ls ps, sublist (leaf_ids ls) ps)); [constructor| |exact IH|exact Hk].
    intros. unfold leaf_ids. rewrite map_app. by apply sublist_app.
Qed.

Lemma tree_rep_leaves G h lo hi id ls ps :
  tree_rep G h lo hi id ls ps ->
  Forall (λ l, exists n, G !! l.1 = Some (Leaf n) /\ leaf_entries n = l.2) ls.
Proof.
  revert lo hi id ls ps. induction h as [|h IH]; intros lo hi id ls ps; simpl.
  - intros (n & Hn & _ & _ & -> & _). constructor; [by eexists|constructor].
  - intros (n & ps' & _ & Hk & ->).
    eapply (kids_closed (λ ls _, Forall _ ls)); [constructor| |exact IH|exact Hk].
    intros. by apply Forall_app.
Qed.

Lemma tree_rep_height G h lo hi id ls ps : tree_rep G h lo hi id ls ps -> (h < length ps)%nat.
Proof.
  revert lo hi id ls ps. induction h as [|h IH]; intros lo hi id ls ps; simpl.
  - intros (n & _ & _ & _ & _ & ->). simpl. lia.
  - intros (n & ps' & _ & (m & l1 & l2 & p1 & p2 & _ & _ & Hr & _ & _ & ->) & ->).
    apply IH in Hr. simpl. rewrite length_app. lia.
Qed.

(** A tree only depends on the contents of its pages, not on sibling links. *)
Definition content (nd : node) : list entry + InternalNode :=
  match nd with Leaf n => inl (leaf_entries n) | Internal n => inr n end.
Definition same_on (ps : list PageId) (G G' : pages) : Prop :=
  forall i, i ∈ ps -> content <$> G !! i = content <$> G' !! i.

Lemma same_on_sub ps ps' G G' : (forall i, i ∈ ps' -> i ∈ ps) -> same_on ps G G' -> same_on ps' G G'.
Proof. intros Hs H i Hi. by apply H, Hs. Qed.

Lemma same_on_insert ps (G : pages) id nd : id ∉ ps -> same_on ps G (<[id:=nd]> G).
Proof. intros H i Hi. rewrite lookup_insert_ne; [done|]. by intros ->. Qed.

Lemma same_on_trans ps G1 G2 G3 : same_on ps G1 G2 -> same_on ps G2 G3 -> same_on ps G1 G3.
Proof. intros H1 H2 i Hi. by rewrite H1, H2. Qed.

Lemma same_leaf (G G' : pages) i n :
  content <$> G !! i = content <$> G' !! i -> G !! i = Some (Leaf n) ->
  exists n', G' !! i = Some (Leaf n') /\ leaf_entries n' = leaf_entries n.
Proof.
  intros H Hn. rewrite Hn in H. destruct (G' !! i) as [[n'|n']|]; simpl in H; [|done..].
  injection H as H. by exists n'.
Qed.

Lemma same_internal (G G' : pages) i n :
  content <$> G !! i = content <$> G' !! i -> G !! i = Some (Internal n) -> G' !! i = Some (Internal n).
Proof.
  intros H Hn. rewrite Hn in H. destruct (G' !! i) as [[n'|n']|]; simpl in H; [done| |done].
  by injection H as ->.
Qed.

Lemma tree_rep_frame G G' h lo hi id ls ps :
  same_on ps G G' -> tree_rep G h lo hi id ls ps -> tree_rep G' h lo hi id ls ps.
Proof.
  revert lo hi id ls ps. induction h as [|h IH]; intros lo hi id ls ps Hs; simpl.
  - intros (n & Hn & H1 & H2 & -> & ->).
    destruct (same_leaf G G' id n) as (n' & Hn' & He); [apply Hs, elem_of_cons; by left|done|].
    exists n'. by rewrite He.
  - intros (n & ps' & Hn & Hk & ->). exists n, ps'. split_and!; [|eapply kids_mono; [|exact Hk]|done].
    + apply (same_internal G); [apply Hs, elem_of_cons; by left|done].
    + intros ????? Hsub. apply IH. eapply same_on_sub; [|exact Hs].
      intros i Hi. apply elem_of_cons. right. by apply Hsub.
Qed.

(** ** Geometry *)

Lemma geometry_page t : geometry_ok t -> 4096 <= page_size t < 2 ^ 32.
Proof.
  intros (_ & H & Hv & _). unfold validate_page_size in Hv. unfold uint_ok in H.
  destruct (Z.ltb_spec (page_size t) 4096); [done|lia].
Qed.

Lemma capacity_spec ps len c n :
  0 <= len -> capacity ps len = Ok c -> n <= c -> NODE_HEADER_LEN + n * len <= ps.
Proof.
  unfold capacity, sub_u64. intros Hl. destruct (Z.leb_spec NODE_HEADER_LEN ps); [|done]. simpl.
  destruct (Z.eqb_spec len 0); [done|]. intros [= <-] Hn.
  pose proof (Z.mul_div_le (ps - NODE_HEADER_LEN) len ltac:(lia)).
  pose proof (Z.mul_le_mono_nonneg_r _ _ len Hl Hn). lia.
Qed.

Lemma capacity_bound ps len c : u32_ok ps -> 0 <= len -> capacity ps len = Ok c -> c < 2 ^ 32.
Proof.
  unfold capacity, sub_u64, uint_ok. intros Hps Hl. destruct (Z.leb_spec NODE_HEADER_LEN ps); [|done]. simpl.
  destruct (Z.eqb_spec len 0); [done|]. intros [= <-].
  pose proof (Z.div_le_upper_bound (ps - NODE_HEADER_LEN) len (ps - NODE_HEADER_LEN) ltac:(lia) ltac:(nia)).
  unfold NODE_HEADER_LEN in *. lia.
Qed.

Lemma leaf_fits_intro t p x es :
  geometry_ok t -> u64_ok p -> u64_ok x -> Forall (leaf_record_ok (key_size t) (value_size t)) es ->
  zlen es <= t_max_leaf_entries t -> leaf_fits (page_size t) (key_size t) (value_size t) (mkLeaf p x es).
Proof.
  intros (_ & Hps & _ & Hk & Hv & Hml & _) Hp Hx HF Hn. unfold max_leaf_entries in Hml. unfold uint_ok in Hk, Hv.
  pose proof (capacity_bound _ (key_size t + value_size t) _ Hps ltac:(lia) Hml). pose proof (zlen_nonneg es).
  split_and!; simpl; try done; [unfold uint_ok; lia|].
  by apply (capacity_spec _ (key_size t + value_size t) _ _ ltac:(lia) Hml).
Qed.

Lemma internal_fits_intro t es rc rn :
  geometry_ok t -> u64_ok rc -> u64_ok rn -> Forall (int_record_ok (key_size t)) es ->
  zlen es <= t_max_internal_entries t -> internal_fits (page_size t) (key_size t) (mkInternal es rc rn).
Proof.
  intros (_ & Hps & _ & Hk & Hv & _ & Hmi & _) Hrc Hrn HF Hn. unfold max_internal_entries in Hmi. unfold uint_ok in Hk, Hv.
  pose proof (capacity_bound _ (key_size t + 16) _ Hps ltac:(lia) Hmi). pose proof (zlen_nonneg es).
  split_and!; simpl; try done; [unfold uint_ok; lia|].
  by apply (capacity_spec _ (key_size t + 16) _ _ ltac:(lia) Hmi).
Qed.

(** ** Reading and writing nodes *)

(** [t'] is [t] after writes and allocations. *)
Definition evolves (t t' : BPlusTree) : Prop :=
  exists s n, t' = with_next (with_store t s) n /\ next_page_id t <= n.

Lemma evolves_refl t : evolves t t.
Proof. exists (store t), (next_page_id t). split; [by destruct t|lia]. Qed.
Lemma evolves_trans t1 t2 t3 : evolves t1 t2 -> evolves t2 t3 -> evolves t1 t3.
Proof. intros (s & n & -> & H1) (s' & n' & -> & H2). simpl in H2. exists s', n'. split; [done|lia]. Qed.

Section repr.
Context {t : BPlusTree} {G : pages}.
Hypothesis HR : repr t G.

Lemma repr_page_ok id : 0 <= id < next_page_id t -> page_ok (store t) id.
Proof.
  intros Hid. pose proof (repr_geometry _ _ HR) as HG. pose proof (geometry_page _ HG).
  destruct HG as (Hps & _). destruct (repr_room _ _ HR). split_and!; [lia|lia|]. rewrite Hps. nia.
Qed.

Lemma repr_u64 id : 0 <= id < next_page_id t -> u64_ok id.
Proof.
  intros Hid. pose proof (geometry_page _ (repr_geometry _ _ HR)). destruct (repr_room _ _ HR).
  unfold uint_ok. nia.
Qed.

Lemma repr_fresh id : next_page_id t <= id -> G !! id = None.
Proof. intros H. destruct (G !! id) eqn:E; [|done]. apply (repr_ids _ _ HR) in E. lia. Qed.

Lemma read_leaf_repr id n : G !! id = Some (Leaf n) -> read_leaf t id = Ok n.
Proof.
  intros H. destruct (repr_holds _ _ HR _ _ H) as (bs & Hr & _ & Hd). unfold read_leaf. by rewrite Hr.
Qed.
Lemma read_internal_repr id n : G !! id = Some (Internal n) -> read_internal t id = Ok n.
Proof.
  intros H. destruct (repr_holds _ _ HR _ _ H) as (bs & Hr & _ & Hd). unfold read_internal. by rewrite Hr.
Qed.

Lemma repr_write id nd bs :
  1 <= id < next_page_id t -> node_fits t nd -> zlen bs = page_size t ->
  match nd with
  | Leaf n => page_type bs = Ok PtLeaf /\ decode_leaf bs (key_size t) (value_size t) = Ok n
  | Internal n => page_type bs = Ok PtInternal /\ decode_internal bs (key_size t) = Ok n
  end ->
  exists s, write_page (store t) id bs = Ok s /\ repr (with_store t s) (<[id:=nd]> G).
Proof.
  intros Hid Hfit Hlen Hd. pose proof (repr_geometry _ _ HR) as HG.
  pose proof (repr_page_ok id ltac:(lia)) as Hok.
  destruct (write_page_ok (store t) id bs Hok) as (s & Hw & Hps & Hsame & Hother).
  { rewrite Hlen. symmetry. apply HG. }
  exists s. split; [done|]. split.
  - destruct HG as (H1 & H2). split; simpl; [by rewrite Hps|exact H2].
  - exact (repr_room _ _ HR).
  - intros i nd'. rewrite lookup_insert_Some. intros [[<- _]|[_ Hi]]; [done|]. by apply (repr_ids _ _ HR) in Hi.
  - intros i nd'. rewrite lookup_insert_Some. intros [[_ <-]|[_ Hi]]; [done|]. by apply (repr_fits _ _ HR) in Hi.
  - intros i nd'. rewrite lookup_insert_Some. intros [[<- <-]|[Hne Hi]]; [by exists bs|].
    pose proof (repr_ids _ _ HR _ _ Hi). destruct (repr_holds _ _ HR _ _ Hi) as (bs' & Hr & Hd').
    exists bs'. split; [|exact Hd']. simpl. rewrite Hother by (done || apply repr_page_ok; lia). done.
Qed.

Lemma write_leaf_repr id n :
  1 <= id < next_page_id t -> leaf_fits (page_size t) (key_size t) (value_size t) n ->
  exists s, write_leaf t id n = Ok (with_store t s) /\ repr (with_store t s) (<[id:=Leaf n]> G).
Proof.
  intros Hid Hfit. destruct (repr_geometry _ _ HR) as (_ & _ & _ & Hk & Hv & _). unfold uint_ok in Hk, Hv.
  destruct (leaf_page (page_size t) (key_size t) (value_size t) n ltac:(lia) ltac:(lia) Hfit) as (bs & He & Hl & Hty & Hd).
  destruct (repr_write id (Leaf n) bs Hid Hfit Hl (conj Hty Hd)) as (s & Hw & HR').
  exists s. split; [|done]. unfold write_leaf. rewrite He. simpl. by rewrite Hw.
Qed.

Lemma write_internal_repr id n :
  1 <= id < next_page_id t -> internal_fits (page_size t) (key_size t) n ->
  exists s, write_internal t id n = Ok (with_store t s) /\ repr (with_store t s) (<[id:=Internal n]> G).
Proof.
  intros Hid Hfit. destruct (repr_geometry _ _ HR) as (_ & _ & _ & Hk & _). unfold uint_ok in Hk.
  destruct (internal_page (page_size t) (key_size t) n ltac:(lia) Hfit) as (bs & He & Hl & Hty & Hd).
  destruct (repr_write id (Internal n) bs Hid Hfit Hl (conj Hty Hd)) as (s & Hw & HR').
  exists s. split; [|done]. unfold write_internal. rewrite He. simpl. by rewrite Hw.
Qed.

Lemma allocate_repr :
  (next_page_id t + 1) * page_size t < 2 ^ 64 ->
  allocate_page t = Ok (next_page_id t, with_next t (next_page_id t + 1)) /\
  repr (with_next t (next_page_id t + 1)) G.
Proof.
  intros Hroom. pose proof (geometry_page _ (repr_geometry _ _ HR)). destruct (repr_room _ _ HR) as [H1 _]. split.
  - unfold allocate_page, add_u64. rewrite (proj2 (Z.ltb_lt _ _)) by nia. done.
  - split; simpl; [exact (repr_geometry _ _ HR)|lia| |exact (repr_fits _ _ HR)|exact (repr_holds _ _ HR)].
    intros id nd H'. apply (repr_ids _ _ HR) in H'. lia.
Qed.

(** Fields that the records of a leaf and an internal page satisfy. *)
Lemma repr_leaf_records id n :
  G !! id = Some (Leaf n) -> Forall (leaf_record_ok (key_size t) (value_size t)) (leaf_entries n).
Proof. intros H. by apply (repr_fits _ _ HR) in H as (_ & _ & _ & HF & _). Qed.
Lemma repr_leaf_links id n : G !! id = Some (Leaf n) -> u64_ok (prev n) /\ u64_ok (next n).
Proof. intros H. by apply (repr_fits _ _ HR) in H as (H1 & H2 & _). Qed.
Lemma repr_int_records id n :
  G !! id = Some (Internal n) -> Forall (int_record_ok (key_size t)) (int_entries n).
Proof. intros H. by apply (repr_fits _ _ HR) in H as (_ & _ & _ & HF & _). Qed.
Lemma repr_int_last id n : G !! id = Some (Internal n) -> u64_ok (rightmost_child n) /\ u64_ok (rightmost_count n).
Proof. intros H. by apply (repr_fits _ _ HR) in H as (H1 & H2 & _). Qed.
End repr.

Lemma int_records_keys t n (key : bytes) :
  Forall (int_record_ok (key_size t)) (int_entries n) -> zlen key = key_size t ->
  Forall (λ e, zlen e.1.1 = zlen key) (int_entries n).
Proof. intros HF ->. eapply Forall_impl; [exact HF|]. by intros e [H _]. Qed.
Lemma leaf_records_keys t es (key : bytes) :
  Forall (leaf_record_ok (key_size t) (value_size t)) es -> zlen key = key_size t ->
  Forall (λ e, zlen e.1 = zlen key) es.
Proof. intros HF ->. eapply Forall_impl; [exact HF|]. by intros e [H _]. Qed.
