(* ===== verification/BTreeQuery.v ===== *)
(** * The B+Tree as a sorted list: reads

    Every read of the tree is the same read of the sorted list it represents:
    lookup, rank, the scans from either end or from a rank, and the rank
    sample. Nothing fails, nothing panics, and the fuel is enough. *)

From S2P Require Import Prelude Pages BTree BTreeRep BTreeDisk.

(** ** Descents *)

Section descend.
Context {A : Type} {t : BPlusTree} {G : pages} (next_of : InternalNode -> A -> res (PageId * A)).
(** [I a lo hi LA ls LB]: on the way down, with [a] carried, the subtree at hand
    has the leaves [ls] between [LA] and [LB]. *)
Context (I : A -> Z -> Z -> list leaf -> list leaf -> list leaf -> Prop).
Hypothesis HR : repr t G.
Hypothesis Hstep : forall h lo hi id n LA ls LB ps a,
  G !! id = Some (Internal n) -> kids (tree_rep G h) lo hi n ls ps -> I a lo hi LA ls LB ->
  exists c a' lo' hi' lsA lsC lsB psC,
    next_of n a = Ok (c, a') /\ tree_rep G h lo' hi' c lsC psC /\ ls = lsA ++ lsC ++ lsB /\
    I a' lo' hi' (LA ++ lsA) lsC (lsB ++ LB).

Lemma descend_spec h fuel lo hi id LA ls LB ps a :
  tree_rep G h lo hi id ls ps -> (h < fuel)%nat -> I a lo hi LA ls LB ->
  exists id' n bs a' LA' LB' lo' hi',
    descend fuel t next_of id a = Ok (id', bs, a') /\
    decode_leaf bs (key_size t) (value_size t) = Ok n /\ G !! id' = Some (Leaf n) /\
    LA ++ ls ++ LB = LA' ++ (id', leaf_entries n) :: LB' /\
    I a' lo' hi' LA' [(id', leaf_entries n)] LB' /\
    sorted_entries (leaf_entries n).
Proof.
  revert fuel lo hi id LA ls LB ps a. induction h as [|h IH]; intros fuel lo hi id LA ls LB ps a Ht Hf HI;
    destruct fuel as [|fuel]; try lia; simpl in Ht.
  - destruct Ht as (n & Hn & Hs & _ & -> & ->).
    destruct (repr_holds _ _ HR _ _ Hn) as (bs & Hrd & Hty & Hdec).
    exists id, n, bs, a, LA, LB, lo, hi. cbn [descend]. rewrite Hrd. rsimpl. rewrite Hty. by split_and!.
  - destruct Ht as (n & ps' & Hn & Hk & ->).
    destruct (repr_holds _ _ HR _ _ Hn) as (bs & Hrd & Hty & Hdec).
    destruct (Hstep _ _ _ _ _ _ _ _ _ _ Hn Hk HI) as (c & a' & lo' & hi' & lsA & lsC & lsB & psC & Hnx & Hc & -> & HI').
    destruct (IH fuel lo' hi' c (LA ++ lsA) lsC (lsB ++ LB) psC a' Hc ltac:(lia) HI')
      as (id' & n' & bs' & a'' & LA' & LB' & l' & h' & Hd & Hdec' & Hn' & He & HI'' & Hs).
    exists id', n', bs', a'', LA', LB', l', h'. cbn [descend]. rewrite Hrd. rsimpl. rewrite Hty. rsimpl.
    rewrite Hdec. rsimpl. rewrite Hnx. rsimpl. rewrite Hd. split_and!; try done.
    rewrite <- He. by rewrite <- !app_assoc.
Qed.
End descend.

(** ** The choices of a child *)

Lemma zlen_ents_app a b : zlen (ents (a ++ b)) = zlen (ents a) + zlen (ents b).
Proof. by rewrite ents_app, zlen_app. Qed.
Lemma zlen_ents_nil : zlen (ents []) = 0.
Proof. done. Qed.

Lemma rank_child_seg P lo m hi es rc ls1 ps1 ls2 ps2 r :
  seg P lo m es ls1 ps1 -> P m hi rc ls2 ps2 -> 0 <= r < zlen (ents (ls1 ++ ls2)) ->
  exists c r' lo' hi' lsA lsC lsB psC,
    rank_child es rc r = Ok (c, r') /\ P lo' hi' c lsC psC /\ ls1 ++ ls2 = lsA ++ lsC ++ lsB /\
    r = zlen (ents lsA) + r' /\ 0 <= r' < zlen (ents lsC).
Proof.
  intros Hs Hr. revert r. induction Hs as [m|lo m k c n es l1 p1 l2 p2 Hk Hc Hn Hs IH]; intros r Hin; cbn [rank_child].
  - exists rc, r, m, hi, [], ls2, [], ps2. rewrite app_nil_r. split_and!; try done; rewrite ?zlen_ents_nil; simpl in Hin; lia.
  - rewrite <- app_assoc in *. destruct (Z.ltb_spec r n) as [Hlt|Hge].
    + exists c, r, lo, (from_be k), [], l1, (l2 ++ ls2), p1. split_and!; try done; rewrite ?zlen_ents_nil; lia.
    + unfold sub_u64. rewrite (proj2 (Z.leb_le _ _)) by done. rsimpl. rewrite zlen_ents_app in Hin.
      destruct (IH Hr (r - n) ltac:(lia)) as (c' & r' & lo' & hi' & lsA & lsC & lsB & psC & H1 & H2 & H3 & H4 & H5).
      exists c', r', lo', hi', (l1 ++ lsA), lsC, lsB, psC. rewrite H3, <- app_assoc. split_and!; try done; try lia.
      rewrite zlen_ents_app. lia.
Qed.

Lemma passed_child_seg P lo m hi es rc ls1 ps1 ls2 ps2 key passed :
  good P -> seg P lo m es ls1 ps1 -> m < hi -> P m hi rc ls2 ps2 -> lo <= from_be key < hi ->
  Forall (λ e, zlen e.1.1 = zlen key) es -> 0 <= passed -> passed + zlen (ents (ls1 ++ ls2)) < 2 ^ 64 ->
  exists c lo' hi' lsA lsC lsB psC,
    passed_child es rc key passed = Ok (c, passed + zlen (ents lsA)) /\ P lo' hi' c lsC psC /\
    ls1 ++ ls2 = lsA ++ lsC ++ lsB /\ lo' <= from_be key < hi' /\
    Forall (λ e, kz e < from_be key) (ents lsA) /\ Forall (λ e, from_be key < kz e) (ents lsB).
Proof.
  intros HG Hs Hm Hr. revert passed. induction Hs as [m|lo m k c n es l1 p1 l2 p2 Hk Hc Hn Hs IH];
    intros passed Hin HF H0 Hb; cbn [passed_child].
  - exists rc, m, hi, [], ls2, [], ps2. rewrite app_nil_r. split_and!; try done; rewrite ?zlen_ents_nil; try lia; f_equal; f_equal; lia.
  - apply Forall_cons in HF as [Hlen HF]. simpl in Hlen. rewrite bytes_ltb_kz by done.
    rewrite <- app_assoc in *. rewrite zlen_ents_app in Hb.
    pose proof (zlen_nonneg (ents l1)). pose proof (zlen_nonneg (ents (l2 ++ ls2))). apply HG in Hc as Hc'.
    destruct (Z.ltb_spec (from_be key) (from_be k)) as [Hlt|Hge].
    + exists c, lo, (from_be k), [], l1, (l2 ++ ls2), p1. split_and!; try done; rewrite ?zlen_ents_nil; try lia; [f_equal; f_equal; lia|].
      apply (seg_good HG) in Hs as Hs'. apply HG in Hr as Hr'. pose proof (seg_le _ _ _ _ _ Hs). rewrite ents_app.
      apply Forall_app. split; [eapply keys_in_ge; [apply Hs'|lia]|eapply keys_in_ge; [apply Hr'|lia]].
    + unfold add_u64. rewrite (proj2 (Z.ltb_lt _ _)) by lia. rsimpl.
      destruct (IH Hm Hr (passed + n) ltac:(lia) HF ltac:(lia) ltac:(lia))
        as (c' & lo' & hi' & lsA & lsC & lsB & psC & Q1 & Q2 & Q3 & Q4 & Q5 & Q6).
      exists c', lo', hi', (l1 ++ lsA), lsC, lsB, psC. rewrite Q1, Q3, <- app_assoc, zlen_ents_app.
      split_and!; try done; try lia; [f_equal; f_equal; lia|].
      rewrite ents_app. apply Forall_app. split; [|done]. eapply keys_in_lt; [apply Hc'|lia].
Qed.

Lemma passed_child_of es rc rn key passed c p :
  passed_child es rc key passed = Ok (c, p) -> child_of (mkInternal es rc rn) key = Ok c.
Proof.
  unfold child_of, child_at. simpl. revert passed. induction es as [|[[k d] n] es IH]; intros passed; simpl.
  - by intros [= -> _].
  - destruct (bytes_ltb key k); simpl; [by intros [= -> _]|].
    destruct (add_u64 passed n) as [q| |]; simpl; [|done..]. intros H. apply IH in H.
    by destruct (position es key).
Qed.

(** ** Fuel *)

Lemma pages_bound t G ps :
  repr t G -> NoDup ps -> Forall (λ i, is_Some (G !! i)) ps -> (length ps < fuel_of t)%nat.
Proof.
  intros HR Hnd HF. pose proof (repr_room _ _ HR) as [H1 _].
  assert (length ps <= length (seqZ 1 (next_page_id t - 1)))%nat as Hl.
  { apply NoDup_incl_length; [by apply NoDup_ListNoDup|]. intros i Hi.
    apply list_elem_of_In in Hi. rewrite Forall_forall in HF. destruct (HF i Hi) as [nd Hnd'].
    apply (repr_ids _ _ HR) in Hnd'. apply list_elem_of_In, elem_of_seqZ. lia. }
  rewrite length_seqZ in Hl. unfold fuel_of. lia.
Qed.

Lemma tree_fuel t G h lo hi id ls ps :
  repr t G -> tree_rep G h lo hi id ls ps -> NoDup ps ->
  (h < fuel_of t)%nat /\ (length ls < fuel_of t)%nat.
Proof.
  intros HR Ht Hnd. pose proof (pages_bound t G ps HR Hnd (tree_rep_pages _ _ _ _ _ _ _ Ht)).
  pose proof (tree_rep_height _ _ _ _ _ _ _ Ht). pose proof (tree_rep_sublist _ _ _ _ _ _ _ Ht) as Hsub.
  apply sublist_length in Hsub. unfold leaf_ids in Hsub. rewrite length_map in Hsub. lia.
Qed.

(** ** Walks along the leaves *)

Lemma chain_app L p as_ bs :
  chain L p (as_ ++ bs) -> exists p', chain L p' bs.
Proof.
  revert p. induction as_ as [|a as_ IH]; intros p; simpl; [by exists p|]. intros [_ H]. by eapply IH.
Qed.

Lemma chain_mid L p as_ i bs :
  chain L p (as_ ++ i :: bs) -> L i = Some (default p (last as_), default NULL_PAGE (head bs)).
Proof.
  revert p. induction as_ as [|a as_ IH]; intros p; simpl.
  - intros [-> _]. by destruct bs.
  - intros [_ H]. rewrite (IH _ H), last_cons. by destruct (last as_).
Qed.

Lemma links_leaf G i p x n : links G i = Some (p, x) -> G !! i = Some (Leaf n) -> prev n = p /\ next n = x.
Proof. unfold links. intros H Hn. rewrite Hn in H. by injection H as <- <-. Qed.

Definition leaf_id (o : option leaf) : PageId := match o with Some (i, _) => i | None => NULL_PAGE end.

Definition skipped (k : nat) (ls : list leaf) : list entry :=
  match ls with [] => [] | l :: ls => drop k l.2 ++ ents ls end.

(** The leaves of a list are on disk. *)
Definition leaves_on (G : pages) (ls : list leaf) : Prop :=
  Forall (λ l, exists n, G !! l.1 = Some (Leaf n) /\ leaf_entries n = l.2) ls.

Lemma take_more {A} n (res xs ys : list A) :
  (res ++ take (n - length res) xs) ++ take (n - length (res ++ take (n - length res) xs)) ys =
  res ++ take (n - length res) (xs ++ ys).
Proof. rewrite <- app_assoc. f_equal. rewrite length_app, length_take, take_app. do 2 f_equal. lia. Qed.

Section walks.
Context {t : BPlusTree} {G : pages}.
Hypothesis HR : repr t G.

Lemma leaf_not_null i n : G !! i = Some (Leaf n) -> i =? NULL_PAGE = false.
Proof. intros H. apply (repr_ids _ _ HR) in H. apply Z.eqb_neq. unfold NULL_PAGE. lia. Qed.

Lemma walk_forward_spec fuel p ls k n res :
  leaves_on G ls -> chain (links G) p (leaf_ids ls) -> (length ls <= fuel)%nat ->
  walk_forward fuel t (leaf_id (head ls)) k n res = Ok (res ++ take (n - length res) (skipped k ls)).
Proof.
  intros HL. revert fuel p k res. induction HL as [|[i es] ls (nd & Hnd & He) HL IH]; intros fuel p k res Hc Hf.
  - simpl. rewrite take_nil, app_nil_r. by destruct fuel.
  - simpl in Hnd, He. simpl leaf_id. destruct fuel as [|fuel]; [simpl in Hf; lia|]. cbn [walk_forward].
    rewrite (leaf_not_null i nd Hnd). cbn [negb andb]. destruct (Nat.ltb_spec (length res) n) as [Hlt|Hge].
    + rewrite (read_leaf_repr HR _ _ Hnd). rsimpl. rewrite He. destruct Hc as [Hlk Hc].
      destruct (links_leaf _ _ _ _ _ Hlk Hnd) as [_ Hnx].
      replace (next nd) with (leaf_id (head ls)) by (rewrite Hnx; by destruct ls as [|[? ?] ?]).
      rewrite (IH fuel i 0%nat); [|exact Hc|simpl in Hf; lia]. f_equal.
      rewrite take_more. do 2 f_equal. simpl. f_equal. by destruct ls as [|[? ?] ?].
    + replace (n - length res)%nat with 0%nat by lia. rewrite take_0. by rewrite app_nil_r.
Qed.

Lemma walk_backward_spec fuel ls bs n res :
  leaves_on G (ls ++ bs) -> chain (links G) NULL_PAGE (leaf_ids (ls ++ bs)) -> (length ls <= fuel)%nat ->
  walk_backward fuel t (leaf_id (last ls)) n res = Ok (res ++ take (n - length res) (rev (ents ls))).
Proof.
  revert bs fuel res. induction ls as [|[i es] ls IH] using rev_ind; intros bs fuel res HL Hc Hf.
  - simpl. rewrite take_nil, app_nil_r. by destruct fuel.
  - rewrite last_snoc. rewrite <- app_assoc in HL, Hc. simpl in HL, Hc.
    assert (exists nd, G !! i = Some (Leaf nd) /\ leaf_entries nd = es) as (nd & Hnd & He).
    { apply Forall_app in HL as [_ HL]. by apply Forall_cons in HL as [HL _]. }
    rewrite length_app in Hf. simpl in Hf. destruct fuel as [|fuel]; [lia|].
    cbn [walk_backward leaf_id]. rewrite (leaf_not_null i nd Hnd). cbn [negb andb].
    rewrite ents_app, ents_single, rev_app_distr. destruct (Nat.ltb_spec (length res) n) as [Hlt|Hge].
    + rewrite (read_leaf_repr HR _ _ Hnd). rsimpl. rewrite He.
      assert (prev nd = leaf_id (last ls)) as ->.
      { pose proof Hc as Hc'. unfold leaf_ids in Hc'. rewrite map_app in Hc'. simpl in Hc'.
        apply chain_mid in Hc'. destruct (links_leaf _ _ _ _ _ Hc' Hnd) as [-> _].
        destruct ls as [|[j fs] ls _] using rev_ind; [done|].
        rewrite map_app. simpl. by rewrite !last_snoc. }
      rewrite (IH ((i, es) :: bs)); [|done|done|lia]. f_equal. apply take_more.
    + replace (n - length res)%nat with 0%nat by lia. rewrite take_0. by rewrite app_nil_r.
Qed.
End walks.

(** ** The reads *)

Section reads.
Context {t : BPlusTree} {G : pages} {h : nat} {ls : list leaf} {ps : list PageId}.
Hypothesis HR : repr t G.
Hypothesis HT : tree_rep G h 0 (key_space t) (root_page_id t) ls ps.
Hypothesis Hnd : NoDup ps.
Hypothesis Hch : chain (links G) NULL_PAGE (leaf_ids ls).
Hypothesis Htot : total_count t = zlen (ents ls).
Hypothesis Hbound : total_count t < 2 ^ 64.

Local Abbreviation key_inv key := (λ (passed lo hi : Z) (LA ls LB : list leaf),
  lo <= from_be key < hi /\ passed = zlen (ents LA) /\ passed + zlen (ents ls) < 2 ^ 64 /\
  Forall (λ e, kz e < from_be key) (ents LA) /\ Forall (λ e, from_be key < kz e) (ents LB)).

Lemma key_in_space (key : bytes) : zlen key = key_size t -> 0 <= from_be key < key_space t.
Proof.
  intros Hk. pose proof (from_be_range key) as [H0 H1]. unfold key_space. rewrite <- Hk.
  split; [done|]. replace (256 ^ zlen key) with (2 ^ (8 * zlen key)); [done|].
  rewrite Z.pow_mul_r by (pose proof (zlen_nonneg key); lia). done.
Qed.

Lemma passed_step key h' lo hi id n LA l LB p a :
  zlen key = key_size t ->
  G !! id = Some (Internal n) -> kids (tree_rep G h') lo hi n l p -> key_inv key a lo hi LA l LB ->
  exists c a' lo' hi' lsA lsC lsB psC,
    passed_child (int_entries n) (rightmost_child n) key a = Ok (c, a') /\ tree_rep G h' lo' hi' c lsC psC /\
    l = lsA ++ lsC ++ lsB /\ key_inv key a' lo' hi' (LA ++ lsA) lsC (lsB ++ LB).
Proof.
  intros Hk Hn (m & l1 & l2 & p1 & p2 & Hs & Hm & Hr & _ & -> & ->) (H1 & H2 & H3 & H4 & H5).
  pose proof (int_records_keys _ _ _ (repr_int_records HR _ _ Hn) Hk) as HF.
  pose proof (zlen_nonneg (ents LA)).
  destruct (passed_child_seg _ _ _ _ _ _ _ _ _ _ key a (tree_rep_good G h') Hs Hm Hr H1 HF ltac:(lia) H3)
    as (c & lo' & hi' & lsA & lsC & lsB & psC & Q1 & Q2 & Q3 & Q4 & Q5 & Q6).
  exists c, (a + zlen (ents lsA)), lo', hi', lsA, lsC, lsB, psC. rewrite Q3 in H3.
  rewrite !zlen_ents_app in H3. pose proof (zlen_nonneg (ents lsB)). split_and!; try done; try lia.
  - rewrite zlen_ents_app. lia.
  - rewrite ents_app. by apply Forall_app.
  - rewrite ents_app. by apply Forall_app.
Qed.

(** The leaf a key belongs to, and what lies on either side of it. *)
Lemma descend_passed_spec key :
  zlen key = key_size t ->
  exists id n bs LA LB,
    descend_passed t key = Ok (id, bs, zlen (ents LA)) /\ decode_leaf bs (key_size t) (value_size t) = Ok n /\
    G !! id = Some (Leaf n) /\ ls = LA ++ (id, leaf_entries n) :: LB /\ sorted_entries (leaf_entries n) /\
    Forall (λ e, kz e < from_be key) (ents LA) /\ Forall (λ e, from_be key < kz e) (ents LB).
Proof.
  intros Hk. destruct (tree_fuel _ _ _ _ _ _ _ _ HR HT Hnd) as [Hf _].
  destruct (descend_spec _ (key_inv key) HR
    (λ h' lo hi id n LA l LB p a, passed_step key h' lo hi id n LA l LB p a Hk)
    h (fuel_of t) 0 (key_space t) (root_page_id t) [] ls [] ps 0 HT Hf)
    as (id & n & bs & a & LA & LB & lo & hi & H1 & H2 & H3 & H4 & (_ & -> & _ & H5 & H6) & H7).
  - split_and!; [apply key_in_space, Hk|apply key_in_space, Hk|done| |constructor|constructor]. lia.
  - simpl in H4. rewrite app_nil_r in H4. exists id, n, bs, LA, LB. by split_and!.
Qed.

(** The whole list around the leaf of a key. *)
Lemma around_leaf key id (es : list entry) LA LB :
  ls = LA ++ (id, es) :: LB ->
  Forall (λ e, kz e < from_be key) (ents LA) -> Forall (λ e, from_be key < kz e) (ents LB) ->
  below (from_be key) (ents ls) = ents LA ++ below (from_be key) es /\
  has (from_be key) (ents ls) = has (from_be key) es /\ zlen (ents LA) + zlen es <= total_count t.
Proof.
  intros -> HA HB. rewrite Htot, ents_app. simpl.
  destruct (local_below (from_be key) (ents LA) es (ents LB) HA HB) as (-> & _ & ->).
  rewrite !zlen_app. pose proof (zlen_nonneg (ents LB)). split_and!; [done|done|lia].
Qed.

Lemma length_below k es : (length (below k es) <= length es)%nat.
Proof. apply length_filter. Qed.

Lemma rank_of_key_spec key :
  zlen key = key_size t ->
  rank_of_key t key =
    Ok (if has (from_be key) (ents ls) then Some (zlen (below (from_be key) (ents ls))) else None).
Proof.
  intros Hk. destruct (descend_passed_spec key Hk) as (id & n & bs & LA & LB & Hd & Hdec & Hn & He & Hs & HA & HB).
  destruct (around_leaf key id _ LA LB He HA HB) as (-> & -> & Hle).
  pose proof (binary_search_spec _ key Hs (leaf_records_keys _ _ _ (repr_leaf_records HR _ _ Hn) Hk)) as Hb.
  unfold rank_of_key. rewrite (proj2 (Z.eqb_eq _ _)) by done. cbn [negb]. rewrite Hd. rsimpl. rewrite Hdec. rsimpl.
  pose proof (length_below (from_be key) (leaf_entries n)).
  destruct (binary_search (leaf_entries n) key) as [i|i]; destruct Hb as [-> ->]; [|done].
  unfold add_u64. unfold zlen in *. rewrite (proj2 (Z.ltb_lt _ _)) by lia. rsimpl. do 2 f_equal.
  rewrite length_app. lia.
Qed.

(** The rank of the greatest key at most [k]. *)
Definition floor_rank (k : Z) (es : list entry) : option Z :=
  let c := zlen (below k es) + one_if (has k es) in if c =? 0 then None else Some (c - 1).

Lemma rank_of_floor_spec key :
  zlen key = key_size t -> rank_of_floor t key = Ok (floor_rank (from_be key) (ents ls)).
Proof.
  intros Hk. destruct (descend_passed_spec key Hk) as (id & n & bs & LA & LB & Hd & Hdec & Hn & He & Hs & HA & HB).
  destruct (around_leaf key id _ LA LB He HA HB) as (Hbl & Hh & Hle). unfold floor_rank. rewrite Hbl, Hh, zlen_app.
  pose proof (binary_search_spec _ key Hs (leaf_records_keys _ _ _ (repr_leaf_records HR _ _ Hn) Hk)) as Hb.
  unfold rank_of_floor. rewrite (proj2 (Z.eqb_eq (zlen key) _)) by done. cbn [negb]. rewrite Hd. rsimpl. rewrite Hdec. rsimpl.
  pose proof (length_below (from_be key) (leaf_entries n)).
  destruct (binary_search (leaf_entries n) key) as [i|i]; destruct Hb as [-> Hi]; cbn [one_if]; unfold add_u64.
  - subst i. unfold zlen in *. rewrite (proj2 (Z.ltb_lt _ _)) by lia. rsimpl.
    rewrite (proj2 (Z.eqb_neq _ _)) by lia. do 2 f_equal. lia.
  - unfold zlen in *. rewrite <- Hi. destruct i as [|i].
    + replace (Z.of_nat (length (ents LA)) + Z.of_nat 0 + 0) with (Z.of_nat (length (ents LA))) by lia.
      by destruct (_ =? 0).
    + rewrite (proj2 (Z.ltb_lt _ _)) by lia. rsimpl. rewrite (proj2 (Z.eqb_neq _ _)) by lia. do 2 f_equal. lia.
Qed.

Lemma contains_spec key : zlen key = key_size t -> contains t key = Ok (has (from_be key) (ents ls)).
Proof.
  intros Hk. destruct (tree_fuel _ _ _ _ _ _ _ _ HR HT Hnd) as [Hf _].
  destruct (descend_spec (λ node (_ : ()), c ← child_of node key; Ok (c, ()))
    (λ _ lo hi LA ls LB, exists a, key_inv key a lo hi LA ls LB) HR) with (a := ()) (h := h) (fuel := fuel_of t)
    (lo := 0) (hi := key_space t) (id := root_page_id t) (LA := @nil leaf) (ls := ls) (LB := @nil leaf) (ps := ps)
    as (id & n & bs & a & LA & LB & lo & hi & H1 & H2 & H3 & H4 & (p & _ & -> & _ & H5 & H6) & H7); [|done|done| |].
  - intros h' lo hi id n LA l LB p _ Hn Hki [a Ha].
    destruct (passed_step key h' lo hi id n LA l LB p a Hk Hn Hki Ha)
      as (c & a' & lo' & hi' & lsA & lsC & lsB & psC & Q1 & Q2 & Q3 & Q4).
    apply (passed_child_of _ _ (rightmost_count n)) in Q1. destruct n as [es rc rn]. simpl in Q1.
    exists c, (), lo', hi', lsA, lsC, lsB, psC. rewrite Q1. split_and!; [done..|by exists a'].
  - exists 0. split_and!; [apply key_in_space, Hk|apply key_in_space, Hk|done| |constructor|constructor]. lia.
  - simpl in H4. rewrite app_nil_r in H4. unfold contains. rewrite H1. rsimpl. rewrite H2. rsimpl.
    destruct (around_leaf key id _ LA LB H4 H5 H6) as (_ & -> & _).
    pose proof (binary_search_spec _ key H7 (leaf_records_keys _ _ _ (repr_leaf_records HR _ _ H3) Hk)) as Hb.
    destruct (binary_search _ _); destruct Hb as [-> _]; done.
Qed.

(** The leaf a rank falls in. *)
Lemma descend_rank_spec r :
  0 <= r < total_count t ->
  exists id n bs LA LB r',
    descend (fuel_of t) t (λ node rank, rank_child (int_entries node) (rightmost_child node) rank)
      (root_page_id t) r = Ok (id, bs, r') /\
    decode_leaf bs (key_size t) (value_size t) = Ok n /\ ls = LA ++ (id, leaf_entries n) :: LB /\
    r = zlen (ents LA) + r' /\ 0 <= r' < zlen (leaf_entries n).
Proof.
  intros Hr. destruct (tree_fuel _ _ _ _ _ _ _ _ HR HT Hnd) as [Hf _].
  destruct (descend_spec (λ node rank, rank_child (int_entries node) (rightmost_child node) rank)
    (λ a _ _ LA ls _, r = zlen (ents LA) + a /\ 0 <= a < zlen (ents ls)) HR) with (a := r) (h := h) (fuel := fuel_of t)
    (lo := 0) (hi := key_space t) (id := root_page_id t) (LA := @nil leaf) (ls := ls) (LB := @nil leaf) (ps := ps)
    as (id & n & bs & a & LA & LB & lo & hi & H1 & H2 & H3 & H4 & (H5 & H6) & H7); [|done|done| |].
  - intros h' lo hi id n LA l LB p a Hn (m & l1 & l2 & p1 & p2 & Hs & Hm & Hc & _ & -> & ->) [H1 H2].
    destruct (rank_child_seg _ _ _ _ _ _ _ _ _ _ a Hs Hc H2) as (c & r' & lo' & hi' & lsA & lsC & lsB & psC & Q1 & Q2 & Q3 & Q4 & Q5).
    exists c, r', lo', hi', lsA, lsC, lsB, psC. split_and!; try done; try lia. rewrite zlen_ents_app. lia.
  - rewrite zlen_ents_nil, <- Htot. lia.
  - simpl in H4. rewrite app_nil_r in H4. rewrite ents_single in H6. exists id, n, bs, LA, LB, a. split_and!; try done; lia.
Qed.

Lemma entry_at_rank_spec r e : ents ls !! r = Some e -> entry_at_rank t (Z.of_nat r) = Ok e.
Proof.
  intros He. pose proof (lookup_lt_Some _ _ _ He) as Hlt.
  destruct (descend_rank_spec (Z.of_nat r)) as (id & n & bs & LA & LB & r' & Hd & Hdec & Hl & Hr & Hr').
  { unfold zlen in Htot. lia. }
  unfold entry_at_rank. rewrite Hd. rsimpl. rewrite Hdec. rsimpl.
  rewrite Hl, ents_app in He. simpl in He. unfold zlen in Hr, Hr'.
  rewrite lookup_app_r, lookup_app_l in He by lia. by replace (Z.to_nat r') with (r - length (ents LA))%nat by lia; rewrite He.
Qed.

Lemma sample_loop_spec k is_ :
  0 < k -> 0 < total_count t -> Forall (λ i, Z.of_nat i < k) is_ -> k * total_count t < 2 ^ 64 ->
  exists es, sample_loop t (total_count t) k is_ = Ok es /\
    Forall2 (λ i e, ents ls !! Z.to_nat (Z.of_nat i * total_count t / k) = Some e) is_ es.
Proof.
  intros Hk Ht HF Hb. induction HF as [|i is_ Hi HF IH]; [by exists []|].
  cbn [sample_loop]. unfold mul_u64. rewrite (proj2 (Z.ltb_lt _ _)) by nia. rsimpl.
  destruct IH as (es & He & HF2). set (r := Z.of_nat i * total_count t / k).
  assert (0 <= r) as Hr0 by (apply Z.div_pos; nia).
  assert (r < total_count t) as Hr1 by (apply Z.div_lt_upper_bound; nia).
  destruct (lookup_lt_is_Some_2 (ents ls) (Z.to_nat r)) as [e Hle]; [unfold zlen in Htot; lia|].
  pose proof (entry_at_rank_spec _ _ Hle) as Hrank. rewrite Z2Nat.id in Hrank by done.
  rewrite Hrank. rsimpl. rewrite He. exists (e :: es). split; [done|]. by constructor.
Qed.

Lemma sample_by_rank_spec k :
  Z.of_nat k * total_count t < 2 ^ 64 ->
  exists es, sample_by_rank t k = Ok es /\
    length es = (if (total_count t =? 0)%Z then 0%nat else k) /\
    forall i e, es !! i = Some e -> ents ls !! Z.to_nat (Z.of_nat i * total_count t / Z.of_nat k) = Some e.
Proof.
  intros Hb. unfold sample_by_rank. pose proof (zlen_nonneg (ents ls)).
  destruct (Z.eqb_spec (total_count t) 0); [by exists []|]. destruct k as [|k]; [by exists []|]. cbn [orb Nat.eqb].
  destruct (sample_loop_spec (Z.of_nat (S k)) (seq 0 (S k))) as (es & He & HF); [lia|lia| |done|].
  { apply Forall_forall. intros i Hi. apply elem_of_seq in Hi. lia. }
  exists es. split; [done|]. split; [by rewrite <- (Forall2_length _ _ _ HF), length_seq|].
  intros i e Hi. destruct (Forall2_lookup_r _ _ _ _ _ HF Hi) as (j & Hj & Hlk).
  apply lookup_seq in Hj as [-> _]. exact Hlk.
Qed.

(** *** Scans *)

Lemma first_leaf_spec : leftmost_leaf_id t = Ok (leaf_id (head ls)).
Proof.
  destruct (tree_fuel _ _ _ _ _ _ _ _ HR HT Hnd) as [Hf _]. unfold leftmost_leaf_id.
  destruct (descend_spec
    (λ node (_ : ()), match int_entries node with (_, child, _) :: _ => Ok (child, ()) | [] => Ok (rightmost_child node, ()) end)
    (λ _ _ _ LA _ _, LA = []) HR) with (a := ()) (h := h) (fuel := fuel_of t)
    (lo := 0) (hi := key_space t) (id := root_page_id t) (LA := @nil leaf) (ls := ls) (LB := @nil leaf) (ps := ps)
    as (id & n & bs & a & LA & LB & lo & hi & H1 & H2 & H3 & H4 & -> & H7); [|done|done|done|].
  - intros h' lo hi id n LA l LB p _ Hn (m & l1 & l2 & p1 & p2 & Hs & Hm & Hc & _ & -> & ->) ->.
    destruct Hs as [m|lo m k c v es la pa lb pb Hk Hc' Hv Hs'].
    + exists (rightmost_child n), (), m, hi, [], l2, [], p2. by rewrite app_nil_r.
    + exists c, (), lo, (from_be k), [], la, (lb ++ l2), pa. by rewrite <- app_assoc.
  - simpl in H4. rewrite app_nil_r in H4. rewrite H1, H4. done.
Qed.

Lemma last_leaf_spec : rightmost_leaf_id t = Ok (leaf_id (last ls)).
Proof.
  destruct (tree_fuel _ _ _ _ _ _ _ _ HR HT Hnd) as [Hf _]. unfold rightmost_leaf_id.
  destruct (descend_spec (λ node (_ : ()), Ok (rightmost_child node, ()))
    (λ _ _ _ _ _ LB, LB = []) HR) with (a := ()) (h := h) (fuel := fuel_of t)
    (lo := 0) (hi := key_space t) (id := root_page_id t) (LA := @nil leaf) (ls := ls) (LB := @nil leaf) (ps := ps)
    as (id & n & bs & a & LA & LB & lo & hi & H1 & H2 & H3 & H4 & -> & H7); [|done|done|done|].
  - intros h' lo hi id n LA l LB p _ Hn (m & l1 & l2 & p1 & p2 & Hs & Hm & Hc & _ & -> & ->) ->.
    exists (rightmost_child n), (), m, hi, l1, l2, [], p2. by rewrite app_nil_r.
  - simpl in H4. rewrite app_nil_r in H4. rewrite H1, H4, last_snoc. done.
Qed.

Lemma scan_forward_spec n : scan_forward_bounded t n = Ok (take n (ents ls)).
Proof.
  unfold scan_forward_bounded. destruct (Nat.eqb_spec n 0) as [->|Hn]; [done|].
  rewrite first_leaf_spec. rsimpl. destruct (tree_fuel _ _ _ _ _ _ _ _ HR HT Hnd) as [_ Hf].
  rewrite (walk_forward_spec HR _ NULL_PAGE); [|by eapply tree_rep_leaves|done|lia]. simpl.
  rewrite Nat.sub_0_r. do 2 f_equal. by destruct ls as [|[? ?] ?].
Qed.

Lemma scan_backward_spec n : scan_backward_bounded t n = Ok (take n (rev (ents ls))).
Proof.
  unfold scan_backward_bounded. destruct (Nat.eqb_spec n 0) as [->|Hn]; [done|].
  rewrite last_leaf_spec. rsimpl. destruct (tree_fuel _ _ _ _ _ _ _ _ HR HT Hnd) as [_ Hf].
  rewrite (walk_backward_spec HR _ ls []); rewrite ?app_nil_r; [|by eapply tree_rep_leaves|done|lia]. simpl.
  by rewrite Nat.sub_0_r.
Qed.

Lemma scan_from_rank_spec r n : 0 <= r -> scan_from_rank t r n = Ok (take n (drop (Z.to_nat r) (ents ls))).
Proof.
  intros Hr0. unfold scan_from_rank. destruct (Nat.eqb_spec n 0) as [->|Hn]; [done|]. cbn [orb].
  destruct (Z.leb_spec (total_count t) r) as [Hge|Hlt].
  { rewrite drop_ge by (unfold zlen in Htot; lia). by rewrite take_nil. }
  destruct (descend_rank_spec r ltac:(lia)) as (id & nd & bs & LA & LB & r' & Hd & _ & Hl & Hr & Hr').
  rewrite Hd. rsimpl. destruct (tree_fuel _ _ _ _ _ _ _ _ HR HT Hnd) as [_ Hf].
  pose proof (tree_rep_leaves _ _ _ _ _ _ _ HT) as HL. pose proof Hch as Hc.
  rewrite Hl in HL, Hc, Hf. unfold leaf_ids in Hc. rewrite map_app in Hc. apply chain_app in Hc as [p' Hc].
  rewrite length_app in Hf. simpl in Hf. apply Forall_app in HL as [_ HL].
  change id with (leaf_id (head ((id, leaf_entries nd) :: LB))).
  rewrite (walk_forward_spec HR _ p'); [|done|done|simpl; lia]. simpl. rewrite Nat.sub_0_r. do 2 f_equal.
  rewrite Hl, ents_app. simpl. unfold zlen in Hr, Hr'.
  rewrite drop_app_ge by lia. rewrite drop_app_le by lia. do 2 f_equal. lia.
Qed.
End reads.
