(* ===== verification/BTreeInsert.v ===== *)
(** * The B+Tree as a sorted list: insertion

    One insertion, on every path: overwriting or adding in a leaf, splitting a
    leaf and relinking its neighbours, bumping counts, absorbing a child's
    split, splitting internal nodes and growing a root. *)

From S2P Require Import Prelude Pages BTree BTreeRep BTreeDisk BTreeQuery.

(** ** The leaf's list *)

Lemma from_be_inj (a b : bytes) : zlen a = zlen b -> from_be a = from_be b -> a = b.
Proof. intros Hl H. apply bytes_cmp_eq. rewrite bytes_cmp_kz by done. by apply Z.compare_eq_iff. Qed.

Lemma leaf_upsert_spec es key value :
  sorted_entries es -> Forall (λ e, zlen e.1 = zlen key) es ->
  leaf_upsert es key value = (negb (has (from_be key) es), put_entry (key, value) es).
Proof.
  intros Hs HF. pose proof (binary_search_spec es key Hs HF) as Hb. unfold leaf_upsert, put_entry.
  change (kz (key, value)) with (from_be key).
  destruct (sorted_at (from_be key) es Hs) as [[Hh He]|([k v] & Hh & Hk & He)];
    destruct (binary_search es key) as [i|i]; destruct Hb as [Hb ->]; rewrite Hb in Hh; try done; rewrite Hb; f_equal.
  - rewrite He at 2. unfold vec_insert. by rewrite take_app_length, drop_app_length.
  - rewrite He at 2. rewrite <- (Nat.add_0_r (length (below _ es))), alter_app_r. simpl. do 3 f_equal.
    apply from_be_inj; [|exact Hk]. rewrite He in HF. apply Forall_app in HF as [_ HF].
    by apply Forall_cons in HF as [HF _].
Qed.

Lemma put_keys lo hi e es : lo <= kz e < hi -> keys_in lo hi es -> keys_in lo hi (put_entry e es).
Proof. intros He HF. by apply (Forall_put (λ e, lo <= kz e < hi)). Qed.

(** ** Relinking *)

(** The leaves [ids] became [ids'] and the links [L] became [L']: nothing moved,
    or one leaf was given a new successor, spliced in before its old one. *)
Definition relink (L L' : PageId -> option (PageId * PageId)) (ids ids' : list PageId) : Prop :=
  (ids' = ids /\ forall i, L' i = L i) \/
  exists a l b new p x,
    ids = a ++ l :: b /\ ids' = a ++ l :: new :: b /\ L l = Some (p, x) /\ L new = None /\
    forall i, L' i =
      if bool_decide (i = l) then Some (p, new)
      else if bool_decide (i = new) then Some (l, x)
      else if bool_decide (i = x) then (λ q, (new, q.2)) <$> L i
      else L i.

Lemma relink_within L L' a ids ids' b :
  relink L L' ids ids' -> relink L L' (a ++ ids ++ b) (a ++ ids' ++ b).
Proof.
  intros [[-> H]|(a' & l & b' & new & p & x & -> & -> & H)]; [by left|right].
  exists (a ++ a'), l, (b' ++ b), new, p, x. rewrite <- !app_assoc. split; [done|]. by split.
Qed.

Lemma relink_ext L L' L'' ids ids' : (forall i, L'' i = L' i) -> relink L L' ids ids' -> relink L L'' ids ids'.
Proof.
  intros He [[-> H]|(a & l & b & new & p & x & H1 & H2 & H3 & H4 & H5)]; [left|right].
  - split; [done|]. intros i. by rewrite He, H.
  - exists a, l, b, new, p, x. split_and!; [done..|]. intros i. by rewrite He, H5.
Qed.

Lemma chain_ext L L' p ids : (forall i, i ∈ ids -> L' i = L i) -> chain L p ids -> chain L' p ids.
Proof.
  revert p. induction ids as [|i ids IH]; intros p He; [done|]. intros [H Hc]. split.
  - rewrite He; [done|]. apply elem_of_cons. by left.
  - apply IH; [|done]. intros j Hj. apply He, elem_of_cons. by right.
Qed.

Lemma chain_some L p ids : chain L p ids -> Forall (λ i, is_Some (L i)) ids.
Proof.
  revert p. induction ids as [|i ids IH]; intros p; simpl; [constructor|]. intros [Hi H].
  constructor; [by eexists|by eapply IH].
Qed.

Lemma chain_relink L L' p0 ids ids' :
  NoDup ids -> L NULL_PAGE = None -> relink L L' ids ids' -> chain L p0 ids -> chain L' p0 ids'.
Proof.
  intros Hnd H0 [[-> He]|(a & l & b & new & p & x & -> & -> & Hl & Hnew & He)] Hc.
  { eapply chain_ext; [|exact Hc]. intros i _. by rewrite He. }
  pose proof (chain_some _ _ _ Hc) as HS. pose proof (chain_mid _ _ _ _ _ Hc) as Hm. rewrite Hl in Hm.
  injection Hm as _ Hx.
  assert (forall i, i ∈ a ++ l :: b -> i <> new) as Hne.
  { intros i Hi ->. rewrite Forall_forall in HS. destruct (HS _ Hi) as [? Hs]. congruence. }
  assert (forall i, i ∈ a -> i <> l /\ i <> x) as Ha.
  { intros i Hi. apply NoDup_app in Hnd as (_ & Hd & _). split.
    - intros ->. apply (Hd l Hi). apply elem_of_cons. by left.
    - intros ->. destruct b as [|y b]; simpl in Hx; subst x.
      + rewrite Forall_forall in HS. destruct (HS NULL_PAGE) as [? Hs]; [apply elem_of_app; by left|congruence].
      + apply (Hd y Hi). set_solver. }
  assert (L' l = Some (p, new)) as Hl' by (rewrite He; by rewrite bool_decide_eq_true_2).
  assert (L' new = Some (l, x)) as Hn'.
  { rewrite He, bool_decide_eq_false_2, bool_decide_eq_true_2; [done..|]. intros ->. congruence. }
  assert (chain L' new b) as Hb.
  { clear Ha Hl' Hn'. apply chain_app in Hc as [p' [_ Hc]].
    apply NoDup_app in Hnd as (_ & _ & Hnd). apply NoDup_cons in Hnd as [Hlb Hnd].
    destruct b as [|y b]; [done|]. simpl in Hx. subst x. destruct Hc as [Hy Hc]. apply NoDup_cons in Hnd as [Hyb _]. split.
    - rewrite He, 2!bool_decide_eq_false_2, bool_decide_eq_true_2; [by rewrite Hy|done| |].
      + apply Hne. set_solver.
      + set_solver.
    - eapply chain_ext; [|exact Hc]. intros i Hi. rewrite He, !bool_decide_eq_false_2; [done|..].
      + by intros ->.
      + apply Hne. set_solver.
      + set_solver. }
  clear -Hc Ha Hne He Hl' Hn' Hb Hl Hx. revert p0 Hc.
  induction a as [|j a IH]; intros p0; simpl.
  - intros [Hl0 _]. rewrite Hl in Hl0. injection Hl0 as -> _. split_and!; [done| |done].
    rewrite Hn', Hx. by destruct b.
  - intros [Hj Hc]. split.
    + rewrite He, !bool_decide_eq_false_2; [|by apply Ha; set_solver|apply Hne; set_solver|by apply Ha; set_solver].
      rewrite Hj. by destruct a.
    + apply IH; [..|exact Hc]; intros i Hi; [apply Hne|apply Ha]; set_solver.
Qed.

(** ** What an insertion below a page achieves *)

(** Pages outside the subtree keep their content. *)
Definition untouched (ps : list PageId) (bound : Z) (G G' : pages) : Prop :=
  forall i, i ∉ ps -> i < bound -> content <$> G !! i = content <$> G' !! i.

(** The pages of the new subtree are the old ones and freshly allocated ones. *)
Definition grown (ps : list PageId) (bound bound' : Z) (ps' : list PageId) : Prop :=
  NoDup ps' /\ forall i, i ∈ ps' -> i ∈ ps \/ bound <= i < bound'.

Definition outcome_rep (t : BPlusTree) (G : pages) (h : nat) (lo hi : Z) (id : PageId)
    (ls : list leaf) (ps : list PageId) (is_new : bool) (out : InsertOutcome) : Prop :=
  match out with
  | NoSplit b => b = is_new /\ tree_rep G h lo hi id ls ps
  | Split b sep nid cnt =>
      b = is_new /\ zlen sep = key_size t /\ lo < from_be sep < hi /\
      exists ls1 ls2 ps1 ps2,
        ls = ls1 ++ ls2 /\ ps = ps1 ++ ps2 /\ tree_rep G h lo (from_be sep) id ls1 ps1 /\
        tree_rep G h (from_be sep) hi nid ls2 ps2 /\ cnt = zlen (ents ls2)
  end.

Record insert_post (t : BPlusTree) (G : pages) (h : nat) (lo hi : Z) (id : PageId) (ls : list leaf)
    (ps : list PageId) (e : entry) (out : InsertOutcome) (t' : BPlusTree) (G' : pages)
    (ls' : list leaf) (ps' : list PageId) : Prop := {
  ip_evolves : evolves t t';
  ip_next : next_page_id t' <= next_page_id t + Z.of_nat h + 1;
  ip_repr : repr t' G';
  ip_untouched : untouched ps (next_page_id t) G G';
  ip_ents : ents ls' = put_entry e (ents ls);
  ip_links : relink (links G) (links G') (leaf_ids ls) (leaf_ids ls');
  ip_pages : grown ps (next_page_id t) (next_page_id t') ps';
  ip_out : outcome_rep t G' h lo hi id ls' ps' (negb (has (kz e) (ents ls))) out
}.

(** The successor of every leaf of the subtree is a leaf on disk. *)
Definition next_on (G : pages) (ids : list PageId) : Prop :=
  forall i p x, i ∈ ids -> links G i = Some (p, x) -> x = NULL_PAGE \/ (x <> i /\ is_Some (links G x)).

Lemma links_insert_leaf (G : pages) id n i :
  links (<[id:=Leaf n]> G) i = if bool_decide (i = id) then Some (prev n, next n) else links G i.
Proof.
  unfold links. case_bool_decide as H; [subst; by rewrite lookup_insert_eq|by rewrite lookup_insert_ne].
Qed.
Lemma links_insert_internal (G : pages) id n i :
  (forall m, G !! id <> Some (Leaf m)) -> links (<[id:=Internal n]> G) i = links G i.
Proof.
  intros H. unfold links. destruct (decide (i = id)) as [->|Hne]; [|by rewrite lookup_insert_ne].
  rewrite lookup_insert_eq. destruct (G !! id) as [[m|m]|] eqn:E; [by destruct (H m)|done..].
Qed.

Lemma evolves_fields t t' :
  evolves t t' ->
  key_size t' = key_size t /\ value_size t' = value_size t /\ page_size t' = page_size t /\
  t_max_leaf_entries t' = t_max_leaf_entries t /\ t_max_internal_entries t' = t_max_internal_entries t /\
  root_page_id t' = root_page_id t /\ total_count t' = total_count t /\ next_page_id t <= next_page_id t'.
Proof. by intros (s & n & -> & H). Qed.

Lemma evolves_store t s : evolves t (with_store t s).
Proof. exists s, (next_page_id t). split; [by destruct t|lia]. Qed.
Lemma evolves_next t : evolves t (with_next t (next_page_id t + 1)).
Proof. exists (store t), (next_page_id t + 1). split; [by destruct t|lia]. Qed.

Lemma capacity_max ps len c n :
  0 < len -> capacity ps len = Ok c -> NODE_HEADER_LEN + n * len <= ps -> n <= c.
Proof.
  unfold capacity, sub_u64. intros Hl. destruct (Z.leb_spec NODE_HEADER_LEN ps); [|done]. simpl.
  destruct (Z.eqb_spec len 0); [done|]. intros [= <-] Hn. apply Z.div_le_lower_bound; lia.
Qed.

Lemma leaf_count_max t G id n :
  repr t G -> G !! id = Some (Leaf n) -> zlen (leaf_entries n) <= t_max_leaf_entries t.
Proof.
  intros HR Hn. destruct (repr_geometry _ _ HR) as (_ & _ & _ & Hk & Hv & Hml & _).
  destruct (repr_fits _ _ HR _ _ Hn) as (_ & _ & _ & _ & Hfit). unfold max_leaf_entries in Hml. unfold uint_ok in *.
  assert (key_size t + value_size t <> 0) as H0.
  { intros H0. rewrite H0 in Hml. unfold capacity in Hml. destruct (sub_u64 _ _); done. }
  by apply (capacity_max (page_size t) (key_size t + value_size t)); [lia|..].
Qed.

Lemma internal_count_max t G id n :
  repr t G -> G !! id = Some (Internal n) -> zlen (int_entries n) <= t_max_internal_entries t.
Proof.
  intros HR Hn. destruct (repr_geometry _ _ HR) as (_ & _ & _ & Hk & _ & _ & Hmi & _).
  destruct (repr_fits _ _ HR _ _ Hn) as (_ & _ & _ & _ & Hfit). unfold max_internal_entries in Hmi. unfold uint_ok in *.
  by apply (capacity_max (page_size t) (key_size t + 16)); [lia|..].
Qed.

(** *** A leaf *)

Section leaf_case.
Context {t : BPlusTree} {G : pages} (lo hi : Z) (id : PageId) (n : LeafNode) (key value : bytes).
Hypothesis HR : repr t G.
Hypothesis Hn : G !! id = Some (Leaf n).
Hypothesis Hs : sorted_entries (leaf_entries n).
Hypothesis Hin : keys_in lo hi (leaf_entries n).
Hypothesis Hkey : lo <= from_be key < hi.
Hypothesis Hkl : zlen key = key_size t.
Hypothesis Hvl : zlen value = value_size t.
Hypothesis Hroom : (next_page_id t + 1) * page_size t < 2 ^ 64.
Hypothesis Hnx : next_on G [id].

Local Abbreviation es' := (put_entry (key, value) (leaf_entries n)).
Local Abbreviation is_new := (negb (has (from_be key) (leaf_entries n))).

Lemma new_records : Forall (leaf_record_ok (key_size t) (value_size t)) es'.
Proof. apply Forall_put; [done|]. by eapply repr_leaf_records. Qed.

Lemma leaf_no_split :
  zlen es' <= t_max_leaf_entries t ->
  exists s, write_leaf t id (mkLeaf (prev n) (next n) es') = Ok (with_store t s) /\
    insert_post t G 0 lo hi id [(id, leaf_entries n)] [id] (key, value) (NoSplit is_new)
      (with_store t s) (<[id:=Leaf (mkLeaf (prev n) (next n) es')]> G) [(id, es')] [id].
Proof.
  intros Hle. destruct (repr_leaf_links HR _ _ Hn) as [Hp Hx]. pose proof (repr_ids _ _ HR _ _ Hn) as Hid.
  destruct (write_leaf_repr HR id (mkLeaf (prev n) (next n) es') Hid) as (s & Hw & HR').
  { apply leaf_fits_intro; [by eapply repr_geometry|done|done|apply new_records|done]. }
  exists s. split; [done|]. split.
  - apply evolves_store.
  - simpl. lia.
  - done.
  - intros i Hi _. rewrite lookup_insert_ne; [done|]. set_solver.
  - by rewrite !ents_single.
  - left. split; [done|]. intros i. rewrite links_insert_leaf. case_bool_decide as Hi; [|done]. subst i.
    unfold links. by rewrite Hn.
  - split; [apply NoDup_singleton|]. intros i Hi. by left.
  - rewrite ents_single. split; [done|]. eexists. rewrite lookup_insert_eq. split_and!; [done| | |done|done].
    + by apply put_sorted.
    + by apply put_keys.
Qed.

Lemma split_halves mid :
  (0 < mid < length es')%nat ->
  exists r, index (drop mid es') 0 = Ok r /\ zlen r.1 = key_size t /\ lo < from_be r.1 < hi /\
    sorted_entries (take mid es') /\ sorted_entries (drop mid es') /\
    keys_in lo (from_be r.1) (take mid es') /\ keys_in (from_be r.1) hi (drop mid es').
Proof.
  intros Hmid. pose proof (put_sorted (key, value) _ Hs) as Hs'. pose proof (put_keys lo hi (key, value) _ Hkey Hin) as Hk'.
  pose proof new_records as Hrec. revert Hs' Hk' Hrec Hmid. generalize es'. intros fs Hs' Hk' Hrec Hmid.
  rewrite <- (take_drop mid fs) in Hs', Hk', Hrec.
  apply sorted_app in Hs' as (HsL & HsR & Hlt). apply Forall_app in Hk' as [HkL HkR]. apply Forall_app in Hrec as [_ HrR].
  destruct (take mid fs) as [|l0 L] eqn:EL; [apply (f_equal length) in EL; rewrite length_take in EL; simpl in EL; lia|].
  destruct (drop mid fs) as [|r R] eqn:ER; [apply (f_equal length) in ER; rewrite length_drop in ER; simpl in ER; lia|].
  exists r. apply Forall_cons in HrR as [[Hr _] _]. apply Forall_cons in HkR as [HkR0 HkR].
  pose proof (Forall_inv HkL) as HkL0. simpl in HkL0. apply sorted_inv in HsR as HsR'. destruct HsR' as [_ HR0].
  assert (kz l0 < kz r) as Hl0 by exact (Forall_inv (Forall_inv Hlt)).
  change (from_be r.1) with (kz r). split_and!; try done; try lia.
  - unfold keys_in in *. rewrite Forall_forall in HkL, Hlt |- *. intros e He. specialize (HkL e He).
    pose proof (Forall_inv (Hlt e He)). simpl in *. lia.
  - constructor; [lia|]. unfold keys_in. rewrite Forall_forall in HkR, HR0 |- *. intros e He.
    specialize (HkR e He). specialize (HR0 e He). simpl in *. lia.
Qed.
(** The successor's back link. *)
Definition relink_next (G : pages) (x new : PageId) : pages :=
  match G !! x with
  | Some (Leaf m) => <[x:=Leaf (mkLeaf new (next m) (leaf_entries m))]> G
  | _ => G
  end.

Lemma relink_next_content i x new : content <$> relink_next G x new !! i = content <$> G !! i.
Proof.
  unfold relink_next. destruct (G !! x) as [[m|m]|] eqn:E; [|done..].
  destruct (decide (i = x)) as [->|Hne]; [by rewrite lookup_insert_eq, E|by rewrite lookup_insert_ne].
Qed.

Lemma relink_next_links i x new :
  links (relink_next G x new) i = if bool_decide (i = x) then (λ q, (new, q.2)) <$> links G i else links G i.
Proof.
  unfold relink_next. destruct (G !! x) as [[m|m]|] eqn:E.
  - rewrite links_insert_leaf. case_bool_decide as H; [|done]. subst i. unfold links. by rewrite E.
  - case_bool_decide as H; [|done]. subst i. unfold links. by rewrite E.
  - case_bool_decide as H; [|done]. subst i. unfold links. by rewrite E.
Qed.

Lemma write_next t1 :
  repr t1 G -> key_size t1 = key_size t -> value_size t1 = value_size t -> page_size t1 = page_size t ->
  next_page_id t1 = next_page_id t + 1 ->
  exists s, (if negb (next n =? NULL_PAGE) then
               next_node ← read_leaf t1 (next n);
               write_leaf t1 (next n) (mkLeaf (next_page_id t) (next next_node) (leaf_entries next_node))
             else Ok t1) = Ok (with_store t1 s) /\
    repr (with_store t1 s) (relink_next G (next n) (next_page_id t)).
Proof.
  intros HR1 Hk Hv Hps Hnext. pose proof (repr_room _ _ HR) as [Hr1 _]. unfold relink_next.
  destruct (Z.eqb_spec (next n) NULL_PAGE) as [He|Hne]; cbn [negb].
  - exists (store t1). assert (with_store t1 (store t1) = t1) as -> by (by destruct t1). split; [done|].
    destruct (G !! next n) as [nd|] eqn:E; [|done]. apply (repr_ids _ _ HR) in E. unfold NULL_PAGE in He. lia.
  - destruct (Hnx id (prev n) (next n)) as [|[_ [q Hq]]]; [set_solver|unfold links; by rewrite Hn|done|].
    unfold links in Hq. destruct (G !! next n) as [[m|m]|] eqn:E; [|done..].
    rewrite (read_leaf_repr HR1 _ _ E). rsimpl. pose proof (repr_ids _ _ HR _ _ E).
    destruct (repr_leaf_links HR _ _ E) as [_ Hx].
    apply write_leaf_repr; [done|lia|]. apply leaf_fits_intro; [by eapply repr_geometry| |done| |].
    + simpl. apply (repr_u64 HR1). lia.
    + simpl. eapply repr_leaf_records; [exact HR1|exact E].
    + simpl. by eapply leaf_count_max.
Qed.

Lemma leaf_split :
  t_max_leaf_entries t < zlen es' ->
  exists out t' G' ls' ps', insert_into_leaf t id key value = Ok (out, t') /\
    insert_post t G 0 lo hi id [(id, leaf_entries n)] [id] (key, value) out t' G' ls' ps'.
Proof.
  intros Hgt. unfold insert_into_leaf. rewrite (read_leaf_repr HR _ _ Hn). rsimpl.
  rewrite leaf_upsert_spec; [|done|by eapply leaf_records_keys; [eapply repr_leaf_records|]].
  rewrite (proj2 (Z.leb_gt _ _)) by done.
  pose proof (leaf_count_max _ _ _ _ HR Hn) as Hmax. pose proof (zlen_put (key, value) _ Hs) as Hlen.
  destruct (repr_geometry _ _ HR) as (_ & _ & _ & _ & _ & _ & _ & Hpos & _).
  assert (zlen es' <= t_max_leaf_entries t + 1) as Hle by (destruct (has _ _); simpl in Hlen; lia).
  set (mid := (length es' / 2)%nat).
  assert (0 < mid < length es')%nat as Hmid.
  { unfold zlen in Hgt. unfold mid. split; [apply Nat.div_str_pos; lia|apply Nat.div_lt; lia]. }
  destruct (split_halves mid Hmid) as (r & Hr & Hrl & Hrb & HsL & HsR & HkL & HkR).
  pose proof new_records as Hrec. rewrite <- (take_drop mid es') in Hrec. apply Forall_app in Hrec as [HrecL HrecR].
  assert (zlen (take mid es') <= t_max_leaf_entries t /\ zlen (drop mid es') <= t_max_leaf_entries t) as [HlL HlR].
  { unfold zlen in *. rewrite length_take, length_drop. lia. }
  destruct (allocate_repr HR Hroom) as [Hal HR1]. rewrite Hal. rsimpl. rewrite Hr. rsimpl.
  set (new := next_page_id t) in *. set (t1 := with_next t (new + 1)) in *.
  destruct (write_next t1 HR1) as (s1 & Hw1 & HR2); [done..|]. fold new in Hw1, HR2. rewrite Hw1. rsimpl.
  set (G1 := relink_next G (next n) new) in *. pose proof (repr_ids _ _ HR _ _ Hn) as Hid. fold new in Hid.
  destruct (repr_leaf_links HR _ _ Hn) as [Hp Hx].
  destruct (write_leaf_repr HR2 id (mkLeaf (prev n) new (take mid es'))) as (s2 & Hw2 & HR3); [simpl; lia| |].
  { apply leaf_fits_intro; [by eapply (repr_geometry _ _ HR2)|done|apply (repr_u64 HR2); simpl; lia|done|done]. }
  rewrite Hw2. rsimpl.
  destruct (write_leaf_repr HR3 new (mkLeaf id (next n) (drop mid es'))) as (s3 & Hw3 & HR4); [simpl; lia| |].
  { apply leaf_fits_intro; [by eapply (repr_geometry _ _ HR3)|apply (repr_u64 HR3); simpl; lia|done|done|done]. }
  rewrite Hw3. rsimpl.
  set (nL := mkLeaf (prev n) new (take mid es')) in *. set (nR := mkLeaf id (next n) (drop mid es')) in *.
  eexists _, _, _, [(id, take mid es'); (new, drop mid es')], [id; new]. split; [done|]. split.
  - exists s3, (new + 1). split; [by destruct t|]. unfold new. lia.
  - simpl. unfold new. lia.
  - exact HR4.
  - intros i Hi Hib. rewrite lookup_insert_ne by (unfold new; lia). rewrite lookup_insert_ne by (intros <-; apply Hi, elem_of_cons; by left).
    symmetry. apply relink_next_content.
  - simpl. rewrite app_nil_r, take_drop. by rewrite app_nil_r.
  - right. exists [], id, [], new, (prev n), (next n). split_and!; try done.
    + unfold links. by rewrite Hn.
    + unfold links. by rewrite (repr_fresh HR new) by (unfold new; lia).
    + intros i. rewrite !links_insert_leaf. unfold G1. rewrite relink_next_links.
      destruct (decide (i = new)) as [->|H1].
      * rewrite (bool_decide_eq_true_2 (new = new)), (bool_decide_eq_false_2 (new = id)) by (done || lia). done.
      * rewrite (bool_decide_eq_false_2 (i = new)) by done. done.
  - split; [|intros i Hi; simpl; unfold new; set_unfold; destruct Hi as [->|[->|[]]]; [by left; left|right; lia]].
    apply NoDup_cons. split; [|apply NoDup_singleton]. set_unfold. lia.
  - cbn [outcome_rep]. rewrite ents_single. change (kz (key, value)) with (from_be key).
    split_and!; [done|done|lia|lia|].
    exists [(id, take mid es')], [(new, drop mid es')], [id], [new]. split_and!; [done|done| | |by rewrite ents_single].
    + exists nL. rewrite lookup_insert_ne, lookup_insert_eq by (unfold new; lia). done.
    + exists nR. rewrite lookup_insert_eq. done.
Qed.

Lemma insert_into_leaf_spec :
  exists out t' G' ls' ps', insert_into_leaf t id key value = Ok (out, t') /\
    insert_post t G 0 lo hi id [(id, leaf_entries n)] [id] (key, value) out t' G' ls' ps'.
Proof.
  destruct (Z.leb_spec (zlen es') (t_max_leaf_entries t)) as [Hle|Hgt]; [|by apply leaf_split].
  destruct (leaf_no_split Hle) as (s & Hw & HP).
  eexists _, _, _, _, _. split; [|exact HP]. unfold insert_into_leaf. rewrite (read_leaf_repr HR _ _ Hn). rsimpl.
  rewrite leaf_upsert_spec; [|done|by eapply leaf_records_keys; [eapply repr_leaf_records|]].
  rewrite (proj2 (Z.leb_le _ _)) by done. by rewrite Hw.
Qed.
End leaf_case.

(** ** Internal nodes *)

Definition int_node_ok (ks : Z) (n : InternalNode) : Prop :=
  Forall (int_record_ok ks) (int_entries n) /\ u64_ok (rightmost_child n) /\ u64_ok (rightmost_count n).

Lemma repr_int_node t G id n : repr t G -> G !! id = Some (Internal n) -> int_node_ok (key_size t) n.
Proof.
  intros HR Hn. split; [by eapply repr_int_records|]. by eapply repr_int_last.
Qed.

Lemma fits_of_int_node t n :
  geometry_ok t -> int_node_ok (key_size t) n -> zlen (int_entries n) <= t_max_internal_entries t ->
  internal_fits (page_size t) (key_size t) n.
Proof. destruct n. intros HG (H1 & H2 & H3) Hle. by apply internal_fits_intro. Qed.

Lemma count_lookup n i v : count_at n (Some i) = Some v -> exists k c, int_entries n !! i = Some (k, c, v).
Proof.
  simpl. intros Hc. destruct (int_entries n !! i) as [[[k c] w]|]; [|done]. simpl in Hc.
  injection Hc as ->. by eexists _, _.
Qed.

Lemma bump_count_ok n idx v :
  count_at n idx = Some v -> v + 1 < 2 ^ 64 -> bump_count n idx = Ok (set_count n idx (v + 1)).
Proof.
  intros Hc Hv. unfold bump_count, set_count, add_u64. destruct idx as [i|].
  - destruct (count_lookup n i v Hc) as (k & c & ->). by rewrite (proj2 (Z.ltb_lt _ _)).
  - injection Hc as ->. by rewrite (proj2 (Z.ltb_lt _ _)).
Qed.

Lemma drop_count_ok n idx v :
  count_at n idx = Some v -> 1 <= v -> drop_count n idx = Ok (set_count n idx (v - 1)).
Proof.
  intros Hc Hv. unfold drop_count, set_count, sub_u64. destruct idx as [i|].
  - destruct (count_lookup n i v Hc) as (k & c & ->). by rewrite (proj2 (Z.leb_le _ _)).
  - injection Hc as ->. by rewrite (proj2 (Z.leb_le _ _)).
Qed.

Lemma set_count_same n idx v :
  count_at n idx = Some v -> set_count n idx v = n.
Proof.
  intros Hc. unfold set_count. destruct idx as [i|].
  - destruct (count_lookup n i v Hc) as (k & c & H). rewrite H, list_insert_id by done. by destruct n.
  - injection Hc as <-. by destruct n.
Qed.

Lemma set_count_ok n idx v ks w :
  count_at n idx = Some v -> u64_ok w -> int_node_ok ks n -> int_node_ok ks (set_count n idx w).
Proof.
  intros Hc Hw (H1 & H2 & H3). unfold set_count. destruct idx as [i|]; [|by split_and!].
  destruct (count_lookup n i v Hc) as (k & c & H). rewrite H. split_and!; try done. simpl.
  apply Forall_insert; [done|]. apply (Forall_lookup_1 _ _ _ _ H1) in H as (Q1 & Q2 & Q3). by split_and!.
Qed.

Lemma set_count_length n idx w : zlen (int_entries (set_count n idx w)) = zlen (int_entries n).
Proof.
  unfold set_count. destruct idx as [i|]; [|done]. destruct (int_entries n !! i) as [[[k c] x]|]; [|done].
  simpl. unfold zlen. by rewrite length_insert.
Qed.

Lemma absorb_split_ok n idx v c b sep nid nv :
  count_at n idx = Some v ->
  child_at n idx = Ok c -> v + one_if b < 2 ^ 64 -> nv <= v + one_if b ->
  absorb_split n idx c b sep nid nv = Ok (set_split n idx c sep (v + one_if b - nv) nid nv).
Proof.
  intros Hc Hch Hb Hn. unfold absorb_split, set_split, add_u64, sub_u64. destruct idx as [i|].
  - destruct (count_lookup n i v Hc) as (k & d & ->). rewrite (proj2 (Z.ltb_lt _ _)) by done. rsimpl.
    by rewrite (proj2 (Z.leb_le _ _)) by done.
  - injection Hc as ->. injection Hch as <-. rewrite (proj2 (Z.ltb_lt _ _)) by done. rsimpl.
    by rewrite (proj2 (Z.leb_le _ _)) by done.
Qed.

Lemma set_split_ok n idx v ks c sep w nid nv :
  count_at n idx = Some v ->
  zlen sep = ks -> u64_ok c -> u64_ok w -> u64_ok nid -> u64_ok nv -> int_node_ok ks n ->
  int_node_ok ks (set_split n idx c sep w nid nv).
Proof.
  intros Hc Hs Hcc Hw Hni Hnv (H1 & H2 & H3). unfold set_split. destruct idx as [i|].
  - destruct (count_lookup n i v Hc) as (k & d & H). rewrite H. split_and!; try done. simpl.
    apply (Forall_lookup_1 _ _ _ _ H1) in H as (Q1 & Q2 & Q3). simpl in Q1.
    assert (Forall (int_record_ok ks) (<[i:=(sep, c, w)]> (int_entries n))) as HF
      by (apply Forall_insert; [done|by split_and!]).
    unfold vec_insert. apply Forall_app. split; [by apply Forall_take|]. constructor; [by split_and!|by apply Forall_drop].
  - split_and!; try done. simpl. apply Forall_app. split; [done|]. constructor; [by split_and!|constructor].
Qed.

Lemma set_split_length n idx v c sep w nid nv :
  count_at n idx = Some v ->
  zlen (int_entries (set_split n idx c sep w nid nv)) = zlen (int_entries n) + 1.
Proof.
  intros Hc. unfold set_split, zlen. destruct idx as [i|].
  - destruct (count_lookup n i v Hc) as (k & d & H). rewrite H. apply lookup_lt_Some in H. simpl. unfold vec_insert.
    rewrite length_app, length_cons, length_take, length_drop, length_insert. lia.
  - simpl. rewrite length_app. simpl. lia.
Qed.

Lemma sum_counts_seg P lo m es ls ps acc :
  seg P lo m es ls ps -> 0 <= acc -> acc + zlen (ents ls) < 2 ^ 64 -> sum_counts es acc = Ok (acc + zlen (ents ls)).
Proof.
  intros Hs. revert acc. induction Hs as [lo|lo m k c n es l p l' p' Hk Hc Hn Hs IH]; intros acc H0 Hb; simpl.
  - f_equal. rewrite zlen_nil. lia.
  - rewrite zlen_ents_app in *. pose proof (zlen_nonneg (ents l)). pose proof (zlen_nonneg (ents l')).
    unfold add_u64. rewrite (proj2 (Z.ltb_lt _ _)) by lia. rsimpl. rewrite IH by lia. f_equal. lia.
Qed.

(** Cutting a node at one of its entries. *)
Lemma kids_cut P lo hi n ls ps mid pk pc pn :
  kids P lo hi n ls ps -> int_entries n !! mid = Some (pk, pc, pn) ->
  exists lsL lsR psL psR,
    kids P lo (from_be pk) (mkInternal (take mid (int_entries n)) pc pn) lsL psL /\
    kids P (from_be pk) hi (mkInternal (drop (S mid) (int_entries n)) (rightmost_child n) (rightmost_count n)) lsR psR /\
    ls = lsL ++ lsR /\ ps = psL ++ psR /\ lo < from_be pk < hi.
Proof.
  intros (m & ls1 & ls2 & ps1 & ps2 & Hs & Hm & Hr & Hn & -> & ->) Hl.
  rewrite <- (take_drop_middle _ _ _ Hl) in Hs.
  apply seg_app in Hs as (x & l1 & l' & p1 & p' & Hs1 & Hs2 & -> & ->).
  inversion Hs2 as [|? ? ? ? ? ? l2 p2 l3 p3 Hx Hc Hcnt Hs3]; subst.
  pose proof (seg_le _ _ _ _ _ Hs1). pose proof (seg_le _ _ _ _ _ Hs3).
  exists (l1 ++ l2), (l3 ++ ls2), (p1 ++ p2), (p3 ++ ps2). rewrite <- !app_assoc. split_and!; try done; try lia.
  - exists x, l1, l2, p1, p2. by split_and!.
  - exists m, l3, ls2, p3, ps2. by split_and!.
Qed.

Lemma kids_sum P lo hi n ls ps :
  kids P lo hi n ls ps -> zlen (ents ls) < 2 ^ 64 ->
  exists s, sum_counts (int_entries n) 0 = Ok s /\ add_u64 s (rightmost_count n) = Ok (zlen (ents ls)).
Proof.
  intros (m & ls1 & ls2 & ps1 & ps2 & Hs & Hm & Hr & Hn & -> & ->) Hb. rewrite zlen_ents_app in *.
  pose proof (zlen_nonneg (ents ls1)). pose proof (zlen_nonneg (ents ls2)).
  rewrite (sum_counts_seg _ _ _ _ _ _ 0 Hs) by lia. eexists. split; [done|].
  unfold add_u64. rewrite Hn, (proj2 (Z.ltb_lt _ _)) by lia. f_equal.
Qed.

(** The children's frame: a node's trees survive writes to other pages. *)
Lemma kids_frame G G' h lo hi n ls ps :
  same_on ps G G' -> kids (tree_rep G h) lo hi n ls ps -> kids (tree_rep G' h) lo hi n ls ps.
Proof.
  intros Hs. apply kids_mono. intros ????? Hsub. apply tree_rep_frame. by eapply same_on_sub.
Qed.

Lemma split_internal_spec t G h lo hi id old n ls ps is_new :
  repr t G -> G !! id = Some (Internal old) -> kids (tree_rep G h) lo hi n ls ps ->
  NoDup (id :: ps) -> Forall (λ i, i < next_page_id t) ps -> int_node_ok (key_size t) n ->
  zlen (int_entries n) = t_max_internal_entries t + 1 -> zlen (ents ls) < 2 ^ 64 ->
  (next_page_id t + 1) * page_size t < 2 ^ 64 ->
  exists sep cnt t' nL nR, let new := next_page_id t in
    let G' := <[new:=Internal nR]> (<[id:=Internal nL]> G) in
    split_internal t id n is_new = Ok (Split is_new sep new cnt, t') /\ evolves t t' /\
    next_page_id t' = new + 1 /\ repr t' G' /\
    exists ps', NoDup ps' /\ (forall i, i ∈ ps' -> i ∈ id :: ps \/ i = new) /\
      outcome_rep t G' (S h) lo hi id ls ps' is_new (Split is_new sep new cnt).
Proof.
  intros HR Hold Hk Hnd Hps Hok Hlen Hb Hroom. destruct (repr_geometry _ _ HR) as (_ & _ & _ & _ & _ & _ & _ & _ & Hpos).
  unfold split_internal. set (mid := (length (int_entries n) / 2)%nat).
  assert (mid < length (int_entries n))%nat as Hmid by (apply Nat.div_lt; unfold zlen in Hlen; lia).
  assert (0 < mid)%nat as Hmid0 by (apply Nat.div_str_pos; unfold zlen in Hlen; lia).
  destruct (lookup_lt_is_Some_2 _ _ Hmid) as [[[pk pc] pn] Hl]. rewrite Hl.
  destruct (allocate_repr HR Hroom) as [Hal HR1]. rewrite Hal. rsimpl.
  destruct (kids_cut _ _ _ _ _ _ _ _ _ _ Hk Hl) as (lsL & lsR & psL & psR & HkL & HkR & -> & -> & Hpk).
  rewrite zlen_ents_app in Hb. pose proof (zlen_nonneg (ents lsL)).
  destruct (kids_sum _ _ _ _ _ _ HkR ltac:(lia)) as (s & Hsum & Hadd). simpl in Hsum, Hadd.
  rewrite Hsum. rsimpl. rewrite Hadd. rsimpl.
  destruct Hok as (HF & Hrc & Hrn). pose proof (Forall_lookup_1 _ _ _ _ HF Hl) as (Q1 & Q2 & Q3). simpl in Q1, Q2, Q3.
  set (nL := mkInternal (take mid (int_entries n)) pc pn) in *.
  set (nR := mkInternal (drop (S mid) (int_entries n)) (rightmost_child n) (rightmost_count n)) in *.
  set (new := next_page_id t) in *. pose proof (repr_ids _ _ HR _ _ Hold) as Hid.
  destruct (write_internal_repr HR1 id nL) as (s1 & Hw1 & HR2); [simpl; lia| |].
  { apply fits_of_int_node; [by eapply (repr_geometry _ _ HR1)|split_and!; [by apply Forall_take|done..]|].
    simpl. unfold zlen in *. rewrite length_take. lia. }
  rewrite Hw1. rsimpl.
  destruct (write_internal_repr HR2 new nR) as (s2 & Hw2 & HR3); [simpl; lia| |].
  { apply fits_of_int_node; [by eapply (repr_geometry _ _ HR2)|split_and!; [by apply Forall_drop|done..]|].
    simpl. unfold zlen in *. rewrite length_drop. lia. }
  rewrite Hw2. rsimpl. eexists pk, _, _, nL, nR. split; [done|]. split; [|split; [done|split; [exact HR3|]]].
  { exists s2, (new + 1). split; [by destruct t|]. unfold new. lia. }
  apply NoDup_cons in Hnd as [Hni Hnd]. rewrite Forall_forall in Hps.
  assert (new ∉ psL ++ psR) as Hnew by (intros Hi; specialize (Hps _ Hi); unfold new in Hps; lia).
  assert (same_on (psL ++ psR) G (<[new:=Internal nR]> (<[id:=Internal nL]> G))) as Hsame.
  { apply (same_on_trans _ _ (<[id:=Internal nL]> G)); by apply same_on_insert. }
  exists ((id :: psL) ++ (new :: psR)). split_and!.
  - simpl. apply NoDup_cons. split; [set_unfold; unfold new in *; naive_solver lia|].
    rewrite <- Permutation_middle. apply NoDup_cons. by split.
  - intros i Hi. set_unfold. naive_solver.
  - split_and!; [done|done|lia|lia|]. exists lsL, lsR, (id :: psL), (new :: psR). split_and!; [done|done| | |done].
    + exists nL, psL. rewrite lookup_insert_ne, lookup_insert_eq by (unfold new; lia). split_and!; [done| |done].
      eapply kids_frame; [|exact HkL]. eapply same_on_sub; [|exact Hsame]. set_solver.
    + exists nR, psR. rewrite lookup_insert_eq. split_and!; [done| |done].
      eapply kids_frame; [|exact HkR]. eapply same_on_sub; [|exact Hsame]. set_solver.
Qed.

(** *** A node whose child has been inserted into *)

Section internal_case.
Context {t : BPlusTree} {G : pages} {h : nat} {lo hi : Z} {id : PageId} {n : InternalNode}.
Context {ls : list leaf} {ps : list PageId} {key value : bytes} {idx : option nat}.
Context {c : PageId} {lo' hi' : Z} {lsA lsC lsB : list leaf} {psA psC psB : list PageId}.
Context {out1 : InsertOutcome} {t1 : BPlusTree} {G1 : pages} {lsC' : list leaf} {psC' : list PageId}.
Hypothesis HR : repr t G.
Hypothesis Hn : G !! id = Some (Internal n).
Hypothesis Hk : kids (tree_rep G h) lo hi n ls ps.
Hypothesis Hnd : NoDup (id :: ps).
Hypothesis HS : slot (tree_rep G h) lo hi n ls ps idx c lo' hi' lsA lsC lsB psA psC psB.
Hypothesis Hkey : lo' <= from_be key < hi'.
Hypothesis HP : insert_post t G h lo' hi' c lsC psC (key, value) out1 t1 G1 lsC' psC'.

Local Abbreviation is_new := (negb (has (from_be key) (ents lsC))).
Local Abbreviation ls2 := (lsA ++ lsC' ++ lsB).

Lemma ps_in_range i : i ∈ ps -> 1 <= i < next_page_id t.
Proof using HR Hn Hk Hnd HS Hkey HP.
  intros Hi. assert (tree_rep G (S h) lo hi id ls (id :: ps)) as Ht by (by exists n, ps).
  apply tree_rep_pages in Ht. rewrite Forall_forall in Ht.
  destruct (Ht i) as [nd Hnd']; [apply elem_of_cons; by right|]. by eapply repr_ids.
Qed.

Lemma nodup_parts :
  id ∉ psA ++ psC ++ psB /\ NoDup (psA ++ psC ++ psB) /\
  forall i, i ∈ psA ++ psB -> i ∉ psC.
Proof using HR Hn Hk Hnd HS Hkey HP.
  rewrite (slot_pages _ _ _ _ _ _ _ _ _ _ _ _ _ _ _ _ HS) in Hnd. apply NoDup_cons in Hnd as [H1 H2].
  split_and!; [done|done|]. intros i Hi Hc. apply NoDup_app in H2 as (_ & Hd & H2). apply NoDup_app in H2 as (_ & Hd' & _).
  set_unfold. destruct Hi as [Hi|Hi]; [by apply (Hd i Hi); left|by apply (Hd' i Hc)].
Qed.

Lemma node_kept : G1 !! id = Some (Internal n).
Proof using HR Hn Hk Hnd HS Hkey HP.
  destruct nodup_parts as (Hid & _ & _). apply (same_internal G); [|done].
  apply (ip_untouched _ _ _ _ _ _ _ _ _ _ _ _ _ _ HP); [set_solver|]. by eapply repr_ids.
Qed.

Lemma siblings_kept : same_on (psA ++ psB) G G1.
Proof using HR Hn Hk Hnd HS Hkey HP.
  destruct nodup_parts as (_ & _ & Hd). intros i Hi.
  apply (ip_untouched _ _ _ _ _ _ _ _ _ _ _ _ _ _ HP); [by apply Hd|].
  apply ps_in_range. rewrite (slot_pages _ _ _ _ _ _ _ _ _ _ _ _ _ _ _ _ HS). set_solver.
Qed.

Lemma siblings_rep lo0 hi0 d l p :
  (forall i, i ∈ p -> i ∈ psA ++ psB) -> tree_rep G h lo0 hi0 d l p -> tree_rep G1 h lo0 hi0 d l p.
Proof using HR Hn Hk Hnd HS Hkey HP. intros Hsub. apply tree_rep_frame. eapply same_on_sub; [exact Hsub|apply siblings_kept]. Qed.

Lemma new_pages_nodup : NoDup (id :: psA ++ psC' ++ psB).
Proof using HR Hn Hk Hnd HS Hkey HP.
  destruct nodup_parts as (Hid & Hnd' & Hd). destruct (ip_pages _ _ _ _ _ _ _ _ _ _ _ _ _ _ HP) as [Hc Hin].
  pose proof (repr_ids _ _ HR _ _ Hn) as Hidr.
  assert (forall i, i ∈ psA ++ psB -> 1 <= i < next_page_id t) as Hr.
  { intros i Hi. apply ps_in_range. rewrite (slot_pages _ _ _ _ _ _ _ _ _ _ _ _ _ _ _ _ HS). set_solver. }
  apply NoDup_app in Hnd' as (H1 & H2 & H3). apply NoDup_app in H3 as (_ & H3 & H4).
  apply NoDup_cons. split.
  - intros Hi. set_unfold. destruct Hi as [Hi|[Hi|Hi]]; [naive_solver| |naive_solver].
    destruct (Hin _ Hi) as [|]; [naive_solver|lia].
  - apply NoDup_app. split; [done|]. split; [|apply NoDup_app; split; [done|split; [|done]]].
    + intros i Hi. pose proof (Hr i ltac:(set_solver)). set_unfold. intros [Hi'|Hi']; [|naive_solver].
      destruct (Hin _ Hi') as [|]; [naive_solver|lia].
    + intros i Hi Hi'. pose proof (Hr i ltac:(set_solver)). destruct (Hin _ Hi) as [|]; [naive_solver|lia].
Qed.

Lemma ents_after : ents ls2 = put_entry (key, value) (ents ls).
Proof using HR Hn Hk Hnd HS Hkey HP.
  rewrite (slot_leaves _ _ _ _ _ _ _ _ _ _ _ _ _ _ _ _ HS), !ents_app, (ip_ents _ _ _ _ _ _ _ _ _ _ _ _ _ _ HP).
  symmetry. apply put_local; change (kz (key, value)) with (from_be key).
  - eapply keys_in_lt; [by eapply slot_left|lia].
  - eapply keys_in_ge; [by eapply slot_right|lia].
Qed.

Lemma has_child : has (from_be key) (ents ls) = has (from_be key) (ents lsC).
Proof using HR Hn Hk Hnd HS Hkey HP.
  rewrite (slot_leaves _ _ _ _ _ _ _ _ _ _ _ _ _ _ _ _ HS), !ents_app. apply local_below.
  - eapply keys_in_lt; [by eapply slot_left|lia].
  - eapply keys_in_ge; [by eapply slot_right|lia].
Qed.

Lemma child_sorted : sorted_entries (ents lsC).
Proof using HR Hn Hk Hnd HS Hkey HP. eapply tree_rep_good. by eapply slot_rep. Qed.

Lemma child_count : zlen (ents lsC') = zlen (ents lsC) + one_if is_new.
Proof using HR Hn Hk Hnd HS Hkey HP.
  rewrite (ip_ents _ _ _ _ _ _ _ _ _ _ _ _ _ _ HP), zlen_put by apply child_sorted. done.
Qed.

Lemma child_bound : zlen (ents lsC) <= zlen (ents ls).
Proof using HR Hn Hk Hnd HS Hkey HP.
  rewrite (slot_leaves _ _ _ _ _ _ _ _ _ _ _ _ _ _ _ _ HS), !zlen_ents_app.
  pose proof (zlen_nonneg (ents lsA)). pose proof (zlen_nonneg (ents lsB)). lia.
Qed.

(** The node's part of the work is done in [G2], reached from [G1] by writing
    internal pages. *)
Lemma internal_finish t2 G2 ps2 out :
  evolves t1 t2 -> next_page_id t2 <= next_page_id t1 + 1 -> repr t2 G2 ->
  (forall i, i <> id -> i < next_page_id t1 -> G2 !! i = G1 !! i) ->
  (forall i, links G2 i = links G1 i) ->
  NoDup ps2 -> (forall i, i ∈ ps2 -> i ∈ id :: psA ++ psC' ++ psB \/ next_page_id t1 <= i < next_page_id t2) ->
  outcome_rep t G2 (S h) lo hi id ls2 ps2 is_new out ->
  insert_post t G (S h) lo hi id ls (id :: ps) (key, value) out t2 G2 ls2 ps2.
Proof using HR Hn Hk Hnd HS Hkey HP.
  intros He Hnx HR2 HG2 HL2 Hnd2 Hin2 Hout.
  pose proof (ip_evolves _ _ _ _ _ _ _ _ _ _ _ _ _ _ HP) as He1.
  destruct (evolves_fields _ _ He1) as (_ & _ & _ & _ & _ & _ & _ & Hle1).
  destruct (evolves_fields _ _ He) as (_ & _ & _ & _ & _ & _ & _ & Hle2).
  pose proof (ip_next _ _ _ _ _ _ _ _ _ _ _ _ _ _ HP). split.
  - by eapply evolves_trans.
  - lia.
  - done.
  - intros i Hi Hib. rewrite HG2; [|intros ->; apply Hi, elem_of_cons; by left|lia].
    apply (ip_untouched _ _ _ _ _ _ _ _ _ _ _ _ _ _ HP); [|done].
    rewrite (slot_pages _ _ _ _ _ _ _ _ _ _ _ _ _ _ _ _ HS) in Hi. set_solver.
  - apply ents_after.
  - rewrite (slot_leaves _ _ _ _ _ _ _ _ _ _ _ _ _ _ _ _ HS). unfold leaf_ids. rewrite !map_app.
    apply relink_within. eapply relink_ext; [exact HL2|]. by eapply ip_links.
  - split; [done|]. intros i Hi. rewrite (slot_pages _ _ _ _ _ _ _ _ _ _ _ _ _ _ _ _ HS).
    destruct (ip_pages _ _ _ _ _ _ _ _ _ _ _ _ _ _ HP) as [_ Hin1].
    destruct (Hin2 i Hi) as [Hi'|]; [|right; lia]. set_unfold.
    destruct Hi' as [->|[Hi'|[Hi'|Hi']]]; [naive_solver..| |naive_solver].
    destruct (Hin1 i Hi') as [|]; [naive_solver|right; lia].
  - change (kz (key, value)) with (from_be key). by rewrite has_child.
Qed.
End internal_case.

Section internal_step.
Context {t : BPlusTree} {G : pages} {h : nat} {lo hi : Z} {id : PageId} {n : InternalNode}.
Context {ls : list leaf} {ps : list PageId} {key value : bytes} {idx : option nat}.
Context {c : PageId} {lo' hi' : Z} {lsA lsC lsB : list leaf} {psA psC psB : list PageId}.
Context {out1 : InsertOutcome} {t1 : BPlusTree} {G1 : pages} {lsC' : list leaf} {psC' : list PageId}.
Hypothesis HR : repr t G.
Hypothesis Hn : G !! id = Some (Internal n).
Hypothesis Hk : kids (tree_rep G h) lo hi n ls ps.
Hypothesis Hnd : NoDup (id :: ps).
Hypothesis HS : slot (tree_rep G h) lo hi n ls ps idx c lo' hi' lsA lsC lsB psA psC psB.
Hypothesis Hkey : lo' <= from_be key < hi'.
Hypothesis HP : insert_post t G h lo' hi' c lsC psC (key, value) out1 t1 G1 lsC' psC'.
Hypothesis Hroom : (next_page_id t + Z.of_nat (S h) + 1) * page_size t < 2 ^ 64.
Hypothesis Hbound : zlen (ents ls) + 1 < 2 ^ 64.

Local Abbreviation is_new := (negb (has (from_be key) (ents lsC))).

(** What the node does once its child's insertion has returned. *)
Definition after_child : res (InsertOutcome * BPlusTree) :=
  match out1 with
  | NoSplit b =>
      t ← (if b : bool then node ← bump_count n idx; write_internal t1 id node else Ok t1);
      Ok (NoSplit b, t)
  | Split b sep nid cnt =>
      node ← absorb_split n idx c b sep nid cnt;
      if zlen (int_entries node) <=? t_max_internal_entries t1 then
        t ← write_internal t1 id node; Ok (NoSplit b, t)
      else split_internal t1 id node b
  end.

Local Abbreviation goal_post :=
  (exists out t' G' ls' ps', after_child = Ok (out, t') /\
     insert_post t G (S h) lo hi id ls (id :: ps) (key, value) out t' G' ls' ps').

Lemma id_range : 1 <= id < next_page_id t1 /\ int_node_ok (key_size t1) n /\
  zlen (int_entries n) <= t_max_internal_entries t1.
Proof.
  pose proof (ip_evolves _ _ _ _ _ _ _ _ _ _ _ _ _ _ HP) as He.
  destruct (evolves_fields _ _ He) as (-> & _ & _ & _ & -> & _ & _ & Hle).
  pose proof (repr_ids _ _ HR _ _ Hn). split_and!; [lia|lia|by eapply repr_int_node|by eapply internal_count_max].
Qed.

(** Writing back a node [n'] over the changed child. *)
Lemma write_back n' b :
  int_node_ok (key_size t1) n' -> zlen (int_entries n') <= t_max_internal_entries t1 ->
  kids (tree_rep G1 h) lo hi n' (lsA ++ lsC' ++ lsB) (psA ++ psC' ++ psB) -> b = is_new ->
  exists s, write_internal t1 id n' = Ok (with_store t1 s) /\
    insert_post t G (S h) lo hi id ls (id :: ps) (key, value) (NoSplit b) (with_store t1 s)
      (<[id:=Internal n']> G1) (lsA ++ lsC' ++ lsB) (id :: psA ++ psC' ++ psB).
Proof.
  intros Hok Hlen Hk' ->. destruct id_range as (Hid & _ & _). pose proof (ip_repr _ _ _ _ _ _ _ _ _ _ _ _ _ _ HP) as HR1.
  destruct (write_internal_repr HR1 id n' Hid) as (s & Hw & HR2).
  { apply fits_of_int_node; [by eapply repr_geometry|done|done]. }
  pose proof (new_pages_nodup HR Hn Hk Hnd HS Hkey HP) as Hnd2. pose proof (node_kept HR Hn Hk Hnd HS Hkey HP) as Hid1.
  exists s. split; [done|].
  eapply (internal_finish HR Hn Hk Hnd HS Hkey HP); [apply evolves_store|simpl; lia|done| | |done| |].
  - intros i Hi _. by rewrite lookup_insert_ne.
  - intros i. apply links_insert_internal. intros m. by rewrite Hid1.
  - intros i Hi. by left.
  - split; [done|]. exists n', (psA ++ psC' ++ psB). rewrite lookup_insert_eq. split_and!; [done| |done].
    eapply kids_frame; [|exact Hk']. apply same_on_insert. by apply NoDup_cons in Hnd2 as [? _].
Qed.

Lemma after_no_split b : out1 = NoSplit b -> goal_post.
Proof.
  intros Ho. unfold after_child. rewrite Ho. pose proof (ip_out _ _ _ _ _ _ _ _ _ _ _ _ _ _ HP) as Hout.
  rewrite Ho in Hout. destruct Hout as [Hb Hc]. change (kz (key, value)) with (from_be key) in Hb.
  destruct id_range as (Hid & Hok & Hlen). pose proof (slot_count _ _ _ _ _ _ _ _ _ _ _ _ _ _ _ _ HS) as Hcnt.
  pose proof (child_count HR Hn Hk Hnd HS Hkey HP) as Hcc. pose proof (child_bound HR Hn Hk Hnd HS Hkey HP) as Hcb. pose proof (zlen_nonneg (ents lsC)).
  pose proof (slot_set _ _ _ _ _ _ _ _ _ _ _ _ _ _ _ _ HS (tree_rep G1 h) lsC' psC'
    (λ lo0 hi0 d l p, siblings_rep HR Hn Hk Hnd HS Hkey HP lo0 hi0 d l p) Hc) as Hk'.
  destruct b; rewrite <- Hb in Hcc; simpl in Hcc.
  - rewrite (bump_count_ok _ _ _ Hcnt) by lia. rsimpl. rewrite <- Hcc.
    destruct (write_back (set_count n idx (zlen (ents lsC'))) true) as (s & Hw & Hpost); [..|done|done|].
    + eapply set_count_ok; [exact Hcnt|unfold uint_ok; lia|done].
    + by rewrite set_count_length.
    + rewrite Hw. rsimpl. by eexists _, _, _, _, _.
  - rewrite Hcc, Z.add_0_r, (set_count_same _ _ _ Hcnt) in Hk'. rsimpl.
    eexists _, _, _, _, _. split; [done|]. pose proof (ip_repr _ _ _ _ _ _ _ _ _ _ _ _ _ _ HP) as HR1.
    eapply (internal_finish HR Hn Hk Hnd HS Hkey HP); [apply evolves_refl|lia|exact HR1|done|done| | |].
    + apply (new_pages_nodup HR Hn Hk Hnd HS Hkey HP).
    + intros i Hi. by left.
    + split; [done|]. exists n, (psA ++ psC' ++ psB). split_and!; [by apply (node_kept HR Hn Hk Hnd HS Hkey HP)|done|done].
Qed.

Lemma after_split b sep nid cnt : out1 = Split b sep nid cnt -> goal_post.
Proof.
  intros Ho. unfold after_child. rewrite Ho. pose proof (ip_out _ _ _ _ _ _ _ _ _ _ _ _ _ _ HP) as Hout.
  rewrite Ho in Hout. destruct Hout as (Hb & Hsl & Hsb & l1 & l2 & p1 & p2 & Hl & Hp & H1 & H2 & Hcnt').
  change (kz (key, value)) with (from_be key) in Hb.
  destruct id_range as (Hid & Hok & Hlen). pose proof (slot_count _ _ _ _ _ _ _ _ _ _ _ _ _ _ _ _ HS) as Hcnt.
  pose proof (child_count HR Hn Hk Hnd HS Hkey HP) as Hcc. pose proof (child_bound HR Hn Hk Hnd HS Hkey HP) as Hcb.
  pose proof (ip_repr _ _ _ _ _ _ _ _ _ _ _ _ _ _ HP) as HR1.
  pose proof (slot_child _ _ _ _ _ _ _ _ _ _ _ _ _ _ _ _ HS) as Hch.
  pose proof (evolves_fields _ _ (ip_evolves _ _ _ _ _ _ _ _ _ _ _ _ _ _ HP)) as (Hks & _ & Hps & _ & _ & _ & _ & Hle).
  rewrite Hl, zlen_ents_app in Hcc. rewrite <- Hb in Hcc.
  pose proof (zlen_nonneg (ents l1)). pose proof (zlen_nonneg (ents l2)). pose proof (zlen_nonneg (ents lsC)).
  assert (one_if b <= 1) as Hb1 by (by destruct b).
  rewrite (absorb_split_ok _ _ _ _ _ _ _ _ Hcnt Hch) by lia. rsimpl.
  replace (zlen (ents lsC) + one_if b - cnt) with (zlen (ents l1)) by lia. rewrite Hcnt'.
  pose proof (slot_split _ _ _ _ _ _ _ _ _ _ _ _ _ _ _ _ HS (tree_rep G1 h) sep nid l1 p1 l2 p2
    (λ lo0 hi0 d l p, siblings_rep HR Hn Hk Hnd HS Hkey HP lo0 hi0 d l p) Hsb H1 H2) as Hk'.
  rewrite <- Hl, <- Hp in Hk'. set (n2 := set_split _ _ _ _ _ _ _) in *.
  assert (u64_ok c /\ u64_ok nid) as [Hcu Hnu].
  { destruct (tree_rep_root _ _ _ _ _ _ _ H1) as [? Hr1]. destruct (tree_rep_root _ _ _ _ _ _ _ H2) as [? Hr2].
    apply tree_rep_pages in H1, H2. rewrite Hr1 in H1. rewrite Hr2 in H2.
    destruct (Forall_inv H1) as [? Hi1]. destruct (Forall_inv H2) as [? Hi2].
    apply (repr_ids _ _ HR1) in Hi1, Hi2. split; apply (repr_u64 HR1); lia. }
  assert (int_node_ok (key_size t1) n2) as Hok2.
  { eapply set_split_ok; [exact Hcnt|by rewrite Hks|done|unfold uint_ok; lia|done|unfold uint_ok; lia|done]. }
  assert (zlen (int_entries n2) = zlen (int_entries n) + 1) as Hlen2 by (by eapply set_split_length).
  destruct (Z.leb_spec (zlen (int_entries n2)) (t_max_internal_entries t1)) as [Hfit|Hover].
  - destruct (write_back n2 b Hok2 Hfit Hk' Hb) as (s & Hw & Hpost). rewrite Hw. rsimpl. by eexists _, _, _, _, _.
  - pose proof (new_pages_nodup HR Hn Hk Hnd HS Hkey HP) as Hnd2. pose proof (node_kept HR Hn Hk Hnd HS Hkey HP) as Hid1.
    pose proof (ip_next _ _ _ _ _ _ _ _ _ _ _ _ _ _ HP) as Hnext1.
    pose proof (geometry_page _ (repr_geometry _ _ HR)) as Hgp.
    destruct (split_internal_spec t1 G1 h lo hi id n n2 _ _ b HR1 Hid1 Hk' Hnd2) as (sep2 & cnt2 & t2 & nL & nR & Hsp);
      [|done|lia| | |].
    + apply kids_closed with (Q := λ _ ps, Forall (λ i, i < next_page_id t1) ps) in Hk'; [done|constructor| |].
      * intros. by apply Forall_app.
      * intros ????? Ht. apply tree_rep_pages in Ht. eapply Forall_impl; [exact Ht|]. simpl.
        intros i [nd Hi]. apply (repr_ids _ _ HR1) in Hi. lia.
    + rewrite (ents_after HR Hn Hk Hnd HS Hkey HP), zlen_put;
        [destruct (has (kz (key, value)) (ents ls)); cbn [negb one_if]; lia|].
      apply (kids_good (tree_rep_good G h)) in Hk as (Hks' & _). done.
    + rewrite Hps. eapply Z.le_lt_trans; [|exact Hroom]. apply Z.mul_le_mono_nonneg_r; lia.
    + simpl in Hsp. destruct Hsp as (Hsp & He2 & Hnx2 & HR2 & ps' & Hnd' & Hin' & Hout').
      eexists _, _, _, _, ps'. split; [exact Hsp|].
      eapply (internal_finish HR Hn Hk Hnd HS Hkey HP); [done|lia|exact HR2| | |done| |].
      * intros i Hi Hib. by rewrite !lookup_insert_ne by lia.
      * intros i. rewrite links_insert_internal, links_insert_internal; [done|by rewrite Hid1|].
        intros m. rewrite lookup_insert_ne, (repr_fresh HR1) by lia. done.
      * intros i Hi. destruct (Hin' i Hi) as [|]; [by left|right; lia].
      * unfold outcome_rep in Hout' |- *. rewrite <- Hb, <- Hks. exact Hout'.
Qed.

Lemma after_child_spec : goal_post.
Proof.
  assert ((exists b, out1 = NoSplit b) \/ exists b sep nid cnt, out1 = Split b sep nid cnt) as [[b Ho]|(b & sep & nid & cnt & Ho)].
  { clear. destruct out1; [by left; eexists|by right; eexists _, _, _, _]. }
  - by eapply after_no_split.
  - by eapply after_split.
Qed.
End internal_step.

(** ** The insertion *)

Lemma insert_into_spec h fuel t G lo hi id ls ps key value :
  repr t G -> tree_rep G h lo hi id ls ps -> NoDup ps -> lo <= from_be key < hi ->
  zlen key = key_size t -> zlen value = value_size t -> (h < fuel)%nat ->
  (next_page_id t + Z.of_nat h + 1) * page_size t < 2 ^ 64 -> zlen (ents ls) + 1 < 2 ^ 64 ->
  next_on G (leaf_ids ls) ->
  exists out t' G' ls' ps', insert_into fuel t id key value = Ok (out, t') /\
    insert_post t G h lo hi id ls ps (key, value) out t' G' ls' ps'.
Proof.
  revert fuel lo hi id ls ps. induction h as [|h IH]; intros fuel lo hi id ls ps HR Ht Hnd Hkey Hkl Hvl Hf Hroom Hb Hnx;
    destruct fuel as [|fuel]; try lia; simpl in Ht.
  - destruct Ht as (n & Hn & Hs & Hin & -> & ->).
    destruct (repr_holds _ _ HR _ _ Hn) as (bs & Hrd & Hty & _). cbn [insert_into].
    rewrite Hrd. rsimpl. rewrite Hty. rsimpl. apply insert_into_leaf_spec; try done. by rewrite Z.add_0_r in Hroom.
  - destruct Ht as (n & ps' & Hn & Hk & ->).
    destruct (repr_holds _ _ HR _ _ Hn) as (bs & Hrd & Hty & _). cbn [insert_into].
    rewrite Hrd. rsimpl. rewrite Hty. rsimpl. unfold insert_into_internal. rewrite (read_internal_repr HR _ _ Hn). rsimpl.
    destruct (kids_slot _ _ _ _ _ _ key (tree_rep_good G h) Hk Hkey)
      as (c & lo' & hi' & lsA & lsC & lsB & psA & psC & psB & HS & Hkey').
    { eapply int_records_keys; [by eapply repr_int_records|done]. }
    rewrite (slot_child _ _ _ _ _ _ _ _ _ _ _ _ _ _ _ _ HS). rsimpl.
    pose proof (slot_leaves _ _ _ _ _ _ _ _ _ _ _ _ _ _ _ _ HS) as Hls.
    pose proof (slot_pages _ _ _ _ _ _ _ _ _ _ _ _ _ _ _ _ HS) as Hps.
    pose proof (geometry_page _ (repr_geometry _ _ HR)).
    destruct (IH fuel lo' hi' c lsC psC HR (slot_rep _ _ _ _ _ _ _ _ _ _ _ _ _ _ _ _ HS))
      as (out1 & t1 & G1 & lsC' & psC' & Hins & HP); try done; try lia.
    + apply NoDup_cons in Hnd as [_ Hnd]. rewrite Hps in Hnd. apply NoDup_app in Hnd as (_ & _ & Hnd).
      by apply NoDup_app in Hnd as (Hnd & _).
    + rewrite Hls, !zlen_ents_app in Hb. pose proof (zlen_nonneg (ents lsA)). pose proof (zlen_nonneg (ents lsB)). lia.
    + intros i p x Hi. apply Hnx. rewrite Hls. unfold leaf_ids. rewrite !map_app. set_solver.
    + rewrite Hins. rsimpl.
      destruct (after_child_spec HR Hn Hk Hnd HS Hkey' HP Hroom Hb) as (out & t' & G' & ls' & ps2 & Ha & Hpost).
      exists out, t', G', ls', ps2. split; [|done]. rewrite <- Ha. unfold after_child. by destruct out1.
Qed.
