(* ===== verification/BTreeRemove.v ===== *)
(** * The B+Tree as a sorted list: removal

    The decrementing descent, once the presence check has found the key. *)

From S2P Require Import Prelude Pages BTree BTreeRep BTreeDisk BTreeQuery BTreeInsert.

Lemma delete_at_below k es e :
  es = below k es ++ e :: above k es -> delete (length (below k es)) es = del_entry k es.
Proof. intros He. rewrite He at 2. rewrite delete_middle. done. Qed.

Section remove.
Context (key : bytes).

Lemma remove_leaf t G lo hi id n :
  repr t G -> G !! id = Some (Leaf n) -> sorted_entries (leaf_entries n) -> keys_in lo hi (leaf_entries n) ->
  zlen key = key_size t -> has (from_be key) (leaf_entries n) = true ->
  let n' := mkLeaf (prev n) (next n) (del_entry (from_be key) (leaf_entries n)) in
  exists i s, binary_search (leaf_entries n) key = inl i /\
    delete i (leaf_entries n) = leaf_entries n' /\
    write_leaf t id n' = Ok (with_store t s) /\ repr (with_store t s) (<[id:=Leaf n']> G) /\
    tree_rep (<[id:=Leaf n']> G) 0 lo hi id [(id, leaf_entries n')] [id].
Proof.
  intros HR Hn Hs Hin Hkl Hh n'. pose proof (repr_leaf_records HR _ _ Hn) as Hrec.
  pose proof (binary_search_spec _ key Hs (leaf_records_keys _ _ _ Hrec Hkl)) as Hb.
  destruct (binary_search (leaf_entries n) key) as [i|i]; destruct Hb as [Hb ->]; [|congruence].
  destruct (sorted_at (from_be key) _ Hs) as [[Hf _]|(e & _ & _ & He)]; [congruence|].
  destruct (repr_leaf_links HR _ _ Hn) as [Hp Hx]. pose proof (repr_ids _ _ HR _ _ Hn) as Hid.
  pose proof (leaf_count_max _ _ _ _ HR Hn) as Hmax.
  destruct (write_leaf_repr HR id n' Hid) as (s & Hw & HR').
  { apply leaf_fits_intro; [by eapply repr_geometry|done|done|by apply Forall_del|].
    rewrite zlen_del by done. rewrite Hb. simpl. lia. }
  exists (length (below (from_be key) (leaf_entries n))), s.
  split; [done|]. split; [by apply (delete_at_below _ _ e)|]. split; [done|]. split; [done|].
  exists n'. rewrite lookup_insert_eq. split_and!; [done|by apply del_sorted|by apply (Forall_del (λ e, lo <= kz e < hi))|done|done].
Qed.

Lemma remove_loop_spec h fuel t G lo hi id ls ps :
  repr t G -> tree_rep G h lo hi id ls ps -> NoDup ps -> lo <= from_be key < hi ->
  zlen key = key_size t -> has (from_be key) (ents ls) = true -> (h < fuel)%nat -> zlen (ents ls) < 2 ^ 64 ->
  exists s G' ls',
    remove_loop fuel t id key = Ok (with_store t s) /\ repr (with_store t s) G' /\
    (forall i, i ∉ ps -> G' !! i = G !! i) /\ (forall i, links G' i = links G i) /\
    leaf_ids ls' = leaf_ids ls /\ ents ls' = del_entry (from_be key) (ents ls) /\
    tree_rep G' h lo hi id ls' ps.
Proof.
  revert fuel t G lo hi id ls ps. induction h as [|h IH]; intros fuel t G lo hi id ls ps HR Ht Hnd Hkey Hkl Hh Hf Hb;
    destruct fuel as [|fuel]; try lia; simpl in Ht.
  - destruct Ht as (n & Hn & Hs & Hin & -> & ->). rewrite ents_single in *.
    destruct (remove_leaf t G lo hi id n HR Hn Hs Hin Hkl Hh) as (i & s & Hbs & Hd & Hw & HR' & Ht').
    destruct (repr_holds _ _ HR _ _ Hn) as (bs & Hrd & Hty & Hdec).
    eexists s, _, _. split_and!; [|exact HR'| | | | |exact Ht'].
    + cbn [remove_loop]. rewrite Hrd. rsimpl. rewrite Hty. rsimpl. rewrite Hdec. rsimpl. rewrite Hbs, Hd. exact Hw.
    + intros j Hj. rewrite lookup_insert_ne; [done|]. set_solver.
    + intros j. rewrite links_insert_leaf. case_bool_decide as Hj; [|done]. subst j. unfold links. by rewrite Hn.
    + done.
    + by rewrite ents_single.
  - destruct Ht as (n & ps' & Hn & Hk & ->).
    destruct (repr_holds _ _ HR _ _ Hn) as (bs & Hrd & Hty & Hdec).
    destruct (kids_slot _ _ _ _ _ _ key (tree_rep_good G h) Hk Hkey)
      as (c & lo' & hi' & lsA & lsC & lsB & psA & psC & psB & HS & Hkey').
    { eapply int_records_keys; [by eapply repr_int_records|done]. }
    pose proof (slot_child _ _ _ _ _ _ _ _ _ _ _ _ _ _ _ _ HS) as Hch.
    pose proof (slot_count _ _ _ _ _ _ _ _ _ _ _ _ _ _ _ _ HS) as Hcnt.
    pose proof (slot_rep _ _ _ _ _ _ _ _ _ _ _ _ _ _ _ _ HS) as Hc.
    destruct (local_below (from_be key) (ents lsA) (ents lsC) (ents lsB)) as (_ & _ & Hhas).
    { eapply keys_in_lt; [by eapply slot_left|lia]. }
    { eapply keys_in_ge; [by eapply slot_right|lia]. }
    rewrite (slot_leaves _ _ _ _ _ _ _ _ _ _ _ _ _ _ _ _ HS), !ents_app in Hh, Hb. rewrite Hhas in Hh.
    destruct (tree_rep_good _ _ _ _ _ _ _ Hc) as [HsC _]. pose proof (zlen_del (from_be key) _ HsC) as Hlen.
    rewrite Hh in Hlen. simpl in Hlen. pose proof (zlen_nonneg (del_entry (from_be key) (ents lsC))).
    rewrite !zlen_app in Hb. pose proof (zlen_nonneg (ents lsA)). pose proof (zlen_nonneg (ents lsB)).
    set (idx := position (int_entries n) key) in *. set (n' := set_count n idx (zlen (ents lsC) - 1)).
    pose proof (repr_ids _ _ HR _ _ Hn) as Hid. rewrite (slot_pages _ _ _ _ _ _ _ _ _ _ _ _ _ _ _ _ HS) in Hnd.
    apply NoDup_cons in Hnd as [Hni Hnd].
    destruct (write_internal_repr HR id n' Hid) as (s1 & Hw1 & HR1).
    { apply fits_of_int_node; [by eapply repr_geometry| |].
      - eapply set_count_ok; [exact Hcnt|unfold uint_ok; lia|by eapply repr_int_node].
      - unfold n'. rewrite set_count_length. by eapply internal_count_max. }
    destruct (IH fuel (with_store t s1) (<[id:=Internal n']> G) lo' hi' c lsC psC)
      as (s2 & G2 & lsC' & Hrm & HR2 & Hkeep & Hlk & Hids & Hents & HtC); try done; try lia.
    + eapply tree_rep_frame; [|exact Hc]. apply same_on_insert. set_solver.
    + apply NoDup_app in Hnd as (_ & _ & Hnd). by apply NoDup_app in Hnd as (Hnd & _).
    + exists s2, G2, (lsA ++ lsC' ++ lsB). rewrite (slot_leaves _ _ _ _ _ _ _ _ _ _ _ _ _ _ _ _ HS).
      rewrite (slot_pages _ _ _ _ _ _ _ _ _ _ _ _ _ _ _ _ HS). unfold leaf_ids in *. rewrite !map_app, Hids.
      assert (forall i, i ∈ psA ++ psB -> i ∉ psC) as Hdis.
      { apply NoDup_app in Hnd as (_ & Hd & Hnd). apply NoDup_app in Hnd as (_ & Hd' & _). set_solver. }
      split_and!; [|exact HR2| | |done| |].
      * cbn [remove_loop]. rewrite Hrd. rsimpl. rewrite Hty. rsimpl. rewrite Hdec. rsimpl. fold idx. rewrite Hch. rsimpl.
        rewrite (drop_count_ok _ _ _ Hcnt) by lia. rsimpl. fold n'. rewrite Hw1. rsimpl. exact Hrm.
      * intros i Hi. rewrite Hkeep by set_solver. rewrite lookup_insert_ne; [done|]. set_solver.
      * intros i. rewrite Hlk. apply links_insert_internal. intros m. by rewrite Hn.
      * rewrite !ents_app, Hents. symmetry. apply del_local.
        -- eapply keys_in_lt; [by eapply slot_left|lia].
        -- eapply keys_in_ge; [by eapply slot_right|lia].
      * exists n', (psA ++ psC ++ psB). split_and!; [rewrite Hkeep by set_solver; by rewrite lookup_insert_eq| |done].
        unfold n'. rewrite <- Hlen, <- Hents. eapply slot_set; [exact HS| |exact HtC].
        intros ????? Hsub. apply tree_rep_frame. intros i Hi. apply Hsub in Hi. rewrite Hkeep by (by apply Hdis).
        rewrite lookup_insert_ne; [done|]. set_solver.
Qed.
End remove.
