(* ===== verification/BTreeSpec.v ===== *)
(** * The B+Tree as a sorted list: the operations

    The whole operations from any file that represents a list: the root's
    growth, the superblock, creation and reopening, and the theorems of the
    component. *)

From S2P Require Import Prelude Pages BTree BTreeRep BTreeDisk BTreeQuery BTreeInsert BTreeRemove.

(** Room for the pages one insertion can allocate, in 64-bit file offsets. *)
Definition has_room (t : BPlusTree) : Prop := 2 * next_page_id t * page_size t < 2 ^ 64.

(** The height of the tree in the file: one number, since a page is one node. *)
Definition tree_height (t : BPlusTree) (h : nat) : Prop :=
  exists G ls ps, repr t G /\ tree_rep G h 0 (key_space t) (root_page_id t) ls ps.

Lemma repr_same t G G' id nd nd' : repr t G -> repr t G' -> G !! id = Some nd -> G' !! id = Some nd' -> nd = nd'.
Proof.
  intros HR HR' Hi Hi'. destruct (repr_holds _ _ HR _ _ Hi) as (bs & Hb & H). destruct (repr_holds _ _ HR' _ _ Hi') as (bs' & Hb' & H').
  destruct nd, nd'; destruct H, H'; congruence.
Qed.

Lemma tree_rep_one_height t G G' : repr t G -> repr t G' -> forall h h' lo hi lo' hi' id ls ps ls' ps',
  tree_rep G h lo hi id ls ps -> tree_rep G' h' lo' hi' id ls' ps' -> h = h'.
Proof.
  intros HR HR'. induction h as [|h IH]; intros [|h'] *; simpl; [done| | |].
  - intros (n & Hn & _) (n' & ps0 & Hn' & _). by pose proof (repr_same _ _ _ _ _ _ HR HR' Hn Hn').
  - intros (n & ps0 & Hn & _) (n' & Hn' & _). by pose proof (repr_same _ _ _ _ _ _ HR HR' Hn Hn').
  - intros (n & ps0 & Hn & (m & l1 & l2 & p1 & p2 & _ & _ & H & _) & _)
      (n' & ps0' & Hn' & (m' & l1' & l2' & p1' & p2' & _ & _ & H' & _) & _).
    pose proof (repr_same _ _ _ _ _ _ HR HR' Hn Hn') as [= <-]. f_equal. by eapply IH.
Qed.

Lemma tree_height_unique t h h' : tree_height t h -> tree_height t h' -> h = h'.
Proof. intros (G & ls & ps & HR & HT) (G' & ls' & ps' & HR' & HT'). by eapply (tree_rep_one_height t G G'). Qed.

(** The pages an insertion into a tree of height [h] may allocate: one a level,
    one more below the root and a new root. *)
Definition split_room (t : BPlusTree) (h : nat) : Z := next_page_id t + Z.of_nat h + 2.

Definition same_geometry (t t' : BPlusTree) : Prop :=
  key_size t' = key_size t /\ value_size t' = value_size t /\ page_size t' = page_size t.

(** ** The superblock *)

Lemma repr_ext t t' G :
  store t' = store t -> page_size t' = page_size t -> key_size t' = key_size t -> value_size t' = value_size t ->
  t_max_leaf_entries t' = t_max_leaf_entries t -> t_max_internal_entries t' = t_max_internal_entries t ->
  next_page_id t' = next_page_id t -> repr t G -> repr t' G.
Proof.
  destruct t, t'. simpl. intros -> -> -> -> -> -> -> [H1 H2 H3 H4 H5]. by split.
Qed.

Lemma superblock_of_ok t G :
  repr t G -> u64_ok (root_page_id t) -> u64_ok (total_count t) -> superblock_ok (superblock_of t).
Proof.
  intros HR Hr Ht. destruct (repr_geometry _ _ HR) as (_ & Hps & Hv & Hk & Hvs & _). pose proof (repr_room _ _ HR) as [H1 H2].
  pose proof (geometry_page _ (repr_geometry _ _ HR)). split_and!; simpl; try done. unfold uint_ok. nia.
Qed.

Lemma write_superblock_ok t G :
  repr t G -> exists s, write_superblock t = Ok (with_store t s) /\ repr (with_store t s) G /\ header_ok (with_store t s).
Proof.
  intros HR. pose proof (geometry_page _ (repr_geometry _ _ HR)) as Hgp. pose proof (repr_room _ _ HR) as [H1 _].
  assert (page_ok (store t) 0) as Hok by (apply (repr_page_ok HR); lia).
  assert (ps_page_size (store t) = page_size t) as Hps by apply (repr_geometry _ _ HR).
  set (sb := superblock_of t). set (bs := superblock_bytes sb ++ zeros (page_size t - SB_HEADER_LEN)).
  assert (superblock_encode sb (page_size t) = Ok bs) as Henc
    by (apply superblock_encode_ok; unfold SB_HEADER_LEN; lia).
  assert (zlen bs = page_size t) as Hlen.
  { unfold bs. rewrite zlen_app, zlen_superblock_bytes, zlen_zeros; unfold SB_HEADER_LEN; lia. }
  destruct (write_page_ok (store t) 0 bs Hok) as (s & Hw & Hps' & Hsame & Hother); [by rewrite Hps|].
  exists s. split; [|split].
  - unfold write_superblock. fold (superblock_of t). fold sb. rewrite Henc. rsimpl. by rewrite Hw.
  - destruct (repr_geometry _ _ HR) as (_ & Hg). split; simpl.
    + split; simpl; [by rewrite Hps', Hps|exact Hg].
    + exact (repr_room _ _ HR).
    + exact (repr_ids _ _ HR).
    + exact (repr_fits _ _ HR).
    + intros id nd Hi. pose proof (repr_ids _ _ HR _ _ Hi). destruct (repr_holds _ _ HR _ _ Hi) as (b & Hr & Hd).
      exists b. split; [|exact Hd]. simpl. rewrite Hother by (lia || (apply (repr_page_ok HR); lia)). done.
  - split; simpl.
    + destruct (write_page_length _ _ _ _ Hok Hw) as [_ Hl]. rewrite Hps in Hl. unfold SB_HEADER_LEN. lia.
    + by exists (zeros (page_size t - SB_HEADER_LEN)).
Qed.

(** ** Insertion *)

Lemma chain_next_on t G ids :
  repr t G -> NoDup ids -> chain (links G) NULL_PAGE ids -> next_on G ids.
Proof.
  intros HR Hnd Hc i p x Hi Hl. apply list_elem_of_split in Hi as (a & b & ->).
  rewrite (chain_mid _ _ _ _ _ Hc) in Hl. injection Hl as _ <-. pose proof (chain_some _ _ _ Hc) as HS.
  destruct b as [|y b]; [by left|right]. simpl. split.
  - intros ->. apply NoDup_app in Hnd as (_ & _ & Hnd). apply NoDup_cons in Hnd as [Hn _]. set_solver.
  - rewrite Forall_forall in HS. apply HS. set_solver.
Qed.

Lemma links_null t G : repr t G -> links G NULL_PAGE = None.
Proof.
  intros HR. unfold links. destruct (G !! NULL_PAGE) eqn:E; [|done]. apply (repr_ids _ _ HR) in E. unfold NULL_PAGE in E. lia.
Qed.

(** The tree below the root after an insertion that did not split it. *)
Lemma insert_finish t G h t1 G1 ls ls1 ps1 es e total :
  repr t1 G1 -> tree_rep G1 h 0 (key_space t1) (root_page_id t1) ls1 ps1 -> NoDup ps1 ->
  repr t G -> NoDup (leaf_ids ls) -> chain (links G) NULL_PAGE (leaf_ids ls) ->
  relink (links G) (links G1) (leaf_ids ls) (leaf_ids ls1) ->
  es = ents ls -> ents ls1 = put_entry e es -> total = zlen (ents ls1) -> total < 2 ^ 64 ->
  exists t', write_superblock (with_total t1 total) = Ok t' /\ tree_ok t' (put_entry e es) /\
    tree_height t' h /\ t' = with_store (with_total t1 total) (store t').
Proof.
  intros HR1 Ht1 Hnd1 HR Hnd Hc Hrl -> He -> Hb. 
  assert (repr (with_total t1 (zlen (ents ls1))) G1) as HR2 by (eapply repr_ext; [..|exact HR1]; done).
  destruct (write_superblock_ok _ _ HR2) as (s & Hw & HR3 & Hh).
  exists (with_store (with_total t1 (zlen (ents ls1))) s). split; [exact Hw|]. split; [|split; [by exists G1, ls1, ps1|done]].
  split_and!; [exact Hh|simpl; by rewrite He|done|].
  exists G1, h, ls1, ps1. split_and!; [done|exact Ht1|done| |by rewrite He].
  eapply (chain_relink (links G)); [exact Hnd|by eapply links_null|exact Hrl|done].
Qed.

Lemma bt_insert_ok t es key value :
  tree_ok t es -> zlen key = key_size t -> zlen value = value_size t -> zlen es + 1 < 2 ^ 64 ->
  (forall h, tree_height t h -> split_room t h * page_size t < 2 ^ 64) ->
  exists t' h h', bt_insert t key value = Ok t' /\ tree_ok t' (put_entry (key, value) es) /\ same_geometry t t' /\
    tree_height t h /\ tree_height t' h' /\ (h' <= S h)%nat /\ next_page_id t <= next_page_id t' <= split_room t h.
Proof.
  intros (Hh & Htot & Hb & G & h & ls & ps & HR & HT & Hnd & Hc & ->) Hkl Hvl Hb1 Hroom.
  assert (tree_height t h) as Hhe by (by exists G, ls, ps). specialize (Hroom _ Hhe) as Hr2. unfold split_room in *.
  pose proof (tree_fuel _ _ _ _ _ _ _ _ HR HT Hnd) as [Hf _].
  pose proof (repr_room _ _ HR) as [Hn1 _]. pose proof (geometry_page _ (repr_geometry _ _ HR)) as Hgp.
  assert (NoDup (leaf_ids ls)) as Hndl by (eapply sublist_NoDup; [done|by eapply tree_rep_sublist]).
  destruct (tree_rep_good _ _ _ _ _ _ _ HT) as [Hsrt _].
  destruct (insert_into_spec h (fuel_of t) t G 0 (key_space t) (root_page_id t) ls ps key value)
    as (out & t1 & G1 & ls1 & ps1 & Hins & HP); try done;
    [by eapply key_in_space|eapply Z.le_lt_trans; [|exact Hr2]; apply Z.mul_le_mono_nonneg_r; lia|by eapply chain_next_on|].
  destruct HP as [He1 Hnx1 HR1 Hun Hents Hrl [Hnd1 Hgr] Hout].
  destruct (evolves_fields _ _ He1) as (Hk1 & Hv1 & Hp1 & Hml1 & Hmi1 & Hrt1 & Htot1 & Hle1).
  pose proof (zlen_put (key, value) _ Hsrt) as Hlen. change (kz (key, value)) with (from_be key) in *.
  unfold bt_insert. rewrite (proj2 (Z.eqb_eq (zlen key) _)), (proj2 (Z.eqb_eq (zlen value) _)) by done. cbn [negb].
  rewrite Hins. rsimpl. set (is_new := negb (has (from_be key) (ents ls))) in *.
  assert (0 <= one_if is_new <= 1) as Hone by (destruct is_new; simpl; lia).
  destruct out as [b|b sep nid cnt]; simpl in Hout.
  - destruct Hout as [-> Ht1].
    destruct (insert_finish t G h t1 G1 ls ls1 ps1 (ents ls) (key, value) (total_count t + one_if is_new))
      as (t' & Hw & Hok' & Hhe' & Ht'); try done; [unfold key_space; by rewrite Hk1, Hrt1|rewrite Hents; lia|lia|].
    exists t', h, h. split; [|split; [done|split; [rewrite Ht'; split_and!; simpl; congruence|
      split_and!; [done|done|lia|rewrite Ht'; simpl; lia..]]]].
    rewrite <- Hw, <- Htot1. destruct is_new; simpl.
    + unfold add_u64. simpl in Hlen. rewrite (proj2 (Z.ltb_lt _ _)) by lia. done.
    + rewrite Z.add_0_r. rsimpl. by destruct t1.
  - destruct Hout as (-> & Hsl & Hsb & l1 & l2 & p1 & p2 & -> & -> & H1 & H2 & Hcnt).
    rewrite ents_app in Hents. apply (f_equal zlen) in Hents as Hze. rewrite zlen_app in Hze.
    pose proof (zlen_nonneg (ents l1)). pose proof (zlen_nonneg (ents l2)).
    unfold add_u64. rewrite (proj2 (Z.ltb_lt (total_count t1 + one_if is_new) _)) by lia. rsimpl.
    unfold sub_u64. rewrite (proj2 (Z.leb_le cnt _)) by lia. rsimpl.
    destruct (allocate_repr HR1) as [Hal HR2].
    { rewrite Hp1. eapply Z.le_lt_trans; [|exact Hr2]. apply Z.mul_le_mono_nonneg_r; lia. }
    rewrite Hal. rsimpl. set (nr := next_page_id t1) in *.
    set (root := mkInternal [(sep, root_page_id t, total_count t1 + one_if is_new - cnt)] nid cnt).
    assert (Forall (λ i, i < nr) (p1 ++ p2)) as Hlt.
    { apply Forall_forall. intros i Hi. destruct (Hgr i Hi) as [Hi'|]; [|lia].
      apply tree_rep_pages in HT. rewrite Forall_forall in HT. destruct (HT i Hi') as [nd Hi''].
      apply (repr_ids _ _ HR) in Hi''. lia. }
    assert (1 <= root_page_id t < nr /\ 1 <= nid < nr) as [Hrr Hnr].
    { destruct (tree_rep_root _ _ _ _ _ _ _ H1) as [? Q1]. destruct (tree_rep_root _ _ _ _ _ _ _ H2) as [? Q2].
      apply tree_rep_pages in H1, H2. rewrite Q1 in H1. rewrite Q2 in H2.
      destruct (Forall_inv H1) as [? Hi1]. destruct (Forall_inv H2) as [? Hi2].
      apply (repr_ids _ _ HR1) in Hi1, Hi2. done. }
    destruct (write_internal_repr HR2 nr root) as (s & Hw & HR3); [simpl; lia| |].
    { apply fits_of_int_node; [by eapply (repr_geometry _ _ HR2)| |].
      - split_and!; simpl; [|apply (repr_u64 HR2); simpl; lia|unfold uint_ok; lia].
        constructor; [|constructor]. split_and!; simpl; [congruence|apply (repr_u64 HR2); simpl; lia|unfold uint_ok; lia].
      - destruct (repr_geometry _ _ HR2) as (_ & _ & _ & _ & _ & _ & _ & _ & Hpos). change (zlen (int_entries root)) with 1. simpl in Hpos |- *. lia. }
    rewrite Hw. rsimpl.
    set (t2 := with_root (with_store (with_next t1 (nr + 1)) s) nr).
    assert (repr t2 (<[nr:=Internal root]> G1)) as HR4 by (eapply repr_ext; [..|exact HR3]; done).
    assert (nr ∉ p1 ++ p2) as Hnin by (intros Hi; rewrite Forall_forall in Hlt; specialize (Hlt _ Hi); lia).
    destruct (insert_finish t G (S h) t2 (<[nr:=Internal root]> G1) ls (l1 ++ l2) (nr :: p1 ++ p2) (ents ls) (key, value)
      (total_count t + one_if is_new)) as (t' & Hw' & Hok' & Hhe' & Ht'); try done.
    + exists root, (p1 ++ p2). simpl. rewrite lookup_insert_eq. split_and!; [done| |done].
      assert (key_space t2 = key_space t) as -> by (unfold key_space; simpl; by rewrite Hk1).
      apply (kids_frame G1); [by apply same_on_insert|].
      exists (from_be sep), l1, l2, p1, p2. simpl. split_and!; try done; [|lia].
      rewrite <- (app_nil_r l1), <- (app_nil_r p1). constructor; [lia|done|lia|constructor].
    + apply NoDup_cons. by split.
    + eapply relink_ext; [|exact Hrl]. intros i. apply links_insert_internal.
      intros m. by rewrite (repr_fresh HR1) by (unfold nr; lia).
    + by rewrite ents_app.
    + rewrite ents_app, zlen_app. lia.
    + lia.
    + exists t', h, (S h). split; [|split; [done|split; [rewrite Ht'; split_and!; simpl; congruence|
        split_and!; [done|done|lia|rewrite Ht'; simpl; lia..]]]].
      rewrite <- Hw'. destruct is_new; simpl; simpl in Hlen.
      * unfold add_u64. simpl. rewrite Htot1, (proj2 (Z.ltb_lt _ _)) by lia. rsimpl. f_equal.
      * rsimpl. f_equal. unfold t2, with_total. simpl. by rewrite Z.add_0_r, <- Htot1.
Qed.

(** A tree is less high than it has pages, so a file below half the offsets has room. *)
Lemma has_room_splits t es h : tree_ok t es -> has_room t -> tree_height t h -> split_room t h * page_size t < 2 ^ 64.
Proof.
  intros (_ & _ & _ & G & h' & ls & ps & HR & HT & Hnd & _) Hr Hh. unfold has_room, split_room in *.
  assert (tree_height t h') as Hh' by (by exists G, ls, ps). rewrite (tree_height_unique _ _ _ Hh Hh').
  pose proof (pages_bound _ _ _ HR Hnd (tree_rep_pages _ _ _ _ _ _ _ HT)) as Hpb. unfold fuel_of in Hpb.
  pose proof (tree_rep_height _ _ _ _ _ _ _ HT). pose proof (repr_room _ _ HR) as [Hn1 _].
  pose proof (geometry_page _ (repr_geometry _ _ HR)).
  eapply Z.le_lt_trans; [|exact Hr]. apply Z.mul_le_mono_nonneg_r; lia.
Qed.

(** ** Removal *)

Lemma bt_remove_ok t es key :
  tree_ok t es -> zlen key = key_size t ->
  exists t', bt_remove t key = Ok (has (from_be key) es, t') /\
    tree_ok t' (if has (from_be key) es then del_entry (from_be key) es else es) /\ same_geometry t t' /\
    next_page_id t' = next_page_id t /\ (forall h, tree_height t h -> tree_height t' h).
Proof.
  intros HO Hkl. destruct (HO) as (Hh & Htot & Hb & G & h & ls & ps & HR & HT & Hnd & Hc & ->).
  unfold bt_remove. rewrite (proj2 (Z.eqb_eq _ _)) by done. cbn [negb].
  rewrite (contains_spec HR HT Hnd Hc Htot Hb key Hkl). rsimpl.
  destruct (has (from_be key) (ents ls)) eqn:Hhas; cbn [negb]; [|by exists t].
  pose proof (tree_fuel _ _ _ _ _ _ _ _ HR HT Hnd) as [Hf _].
  destruct (remove_loop_spec key h (fuel_of t) t G 0 (key_space t) (root_page_id t) ls ps)
    as (s & G' & ls' & Hrm & HR' & _ & Hlk & Hids & Hents & HT'); try done; [by eapply key_in_space|lia|].
  destruct (tree_rep_good _ _ _ _ _ _ _ HT) as [Hsrt _]. pose proof (zlen_del (from_be key) _ Hsrt) as Hlen.
  rewrite Hhas in Hlen. simpl in Hlen. pose proof (zlen_nonneg (del_entry (from_be key) (ents ls))).
  rewrite Hrm. rsimpl. simpl total_count. unfold sub_u64. rewrite (proj2 (Z.leb_le _ _)) by lia. rsimpl.
  assert (repr (with_total (with_store t s) (total_count t - 1)) G') as HR2 by (eapply repr_ext; [..|exact HR']; done).
  destruct (write_superblock_ok _ _ HR2) as (s' & Hw & HR3 & Hh'). rewrite Hw. rsimpl.
  eexists. split; [done|]. split; [|split_and!; [done..|]].
  2: { intros h2 Hh2. assert (tree_height t h) as Hh1 by (by exists G, ls, ps). rewrite (tree_height_unique _ _ _ Hh2 Hh1).
    by exists G', ls', ps. }
  split_and!; [exact Hh'|simpl; lia|simpl; lia|].
  exists G', h, ls', ps. split_and!; [done|exact HT'|done| |done].
  rewrite Hids. eapply chain_ext; [|exact Hc]. intros i _. apply Hlk.
Qed.

(** ** Creation and reopening *)

Lemma tree_ok_empty t root :
  repr t {[root := Leaf empty_leaf]} -> root_page_id t = root -> total_count t = 0 -> header_ok t -> tree_ok t [].
Proof.
  intros HR Hr Ht Hh. split_and!; [done|by rewrite Ht|by rewrite Ht|].
  exists {[root := Leaf empty_leaf]}, 0%nat, [(root, [])], [root]. split_and!; [done| |apply NoDup_singleton| |done].
  - exists empty_leaf. rewrite Hr, lookup_singleton_eq. split_and!; [done|constructor|constructor|done|done].
  - simpl. unfold links. by rewrite lookup_singleton_eq.
Qed.

Lemma empty_leaf_fits t : geometry_ok t -> leaf_fits (page_size t) (key_size t) (value_size t) empty_leaf.
Proof.
  intros HG. apply leaf_fits_intro; [done|done|done|constructor|].
  destruct HG as (_ & _ & _ & _ & _ & _ & _ & Hpos & _). rewrite zlen_nil. lia.
Qed.

Lemma repr_empty t : geometry_ok t -> 1 <= next_page_id t -> next_page_id t * page_size t < 2 ^ 64 -> repr t ∅.
Proof. intros HG H1 H2. split; [done|done|..]; intros id nd; by rewrite lookup_empty. Qed.

Lemma create_geometry_ok t :
  geometry_ok t -> root_page_id t = 1 -> total_count t = 0 -> next_page_id t = 2 ->
  exists s s',
    (bs ← encode_leaf empty_leaf (page_size t) (key_size t) (value_size t); write_page (store t) 1 bs) = Ok s /\
    write_superblock (with_store t s) = Ok (with_store t s') /\ tree_ok (with_store t s') [].
Proof.
  intros HG Hr Htot Hn. pose proof (geometry_page _ HG).
  assert (repr t ∅) as H0 by (apply repr_empty; [done|lia|nia]).
  destruct (write_leaf_repr H0 1 empty_leaf) as (s & Hw & HR); [lia|by apply empty_leaf_fits|].
  destruct (write_superblock_ok _ _ HR) as (s' & Hw' & HR' & Hh). exists s, s'. split_and!; [|done|].
  - unfold write_leaf in Hw. destruct (encode_leaf _ _ _ _); [|done..]. rsimpl. simpl in Hw.
    destruct (write_page _ _ _) as [x| |]; [|done..]. injection Hw as Hs. by rewrite Hs.
  - apply (tree_ok_empty _ 1); [exact HR'|done|done|done].
Qed.

Lemma capacity_zero ps len :
  4096 <= ps -> 0 < len -> exists c, capacity ps len = Ok c /\ (c = 0 /\ ~ NODE_HEADER_LEN + len <= ps \/ 0 < c).
Proof.
  intros Hps Hl. exists ((ps - 32) / len). unfold capacity, sub_u64, NODE_HEADER_LEN.
  rewrite (proj2 (Z.leb_le _ _)) by lia. rsimpl. rewrite (proj2 (Z.eqb_neq _ _)) by lia. split; [done|].
  destruct (Z.le_gt_cases len (ps - 32)); [right; by apply Z.div_str_pos; lia|left; split; [by apply Z.div_small; lia|lia]].
Qed.

Lemma validate_page_size_cases ps :
  validate_page_size ps = Ok () /\ 4096 <= ps \/ exists m, validate_page_size ps = Err m.
Proof.
  unfold validate_page_size. destruct (Z.ltb_spec ps 4096); [by right; eexists|].
  destruct (negb _); [by right; eexists|by left].
Qed.

(** The record sizes one page can hold at least one of, in both formats. *)
Definition fits_page (ks vs ps : Z) : Prop :=
  validate_page_size ps = Ok () /\ NODE_HEADER_LEN + (ks + vs) <= ps /\ NODE_HEADER_LEN + (ks + 16) <= ps.

Lemma create_ok ks vs ps :
  u32_ok ks -> u32_ok vs -> u32_ok ps -> 0 < ks + vs ->
  match create ks vs ps with
  | Ok t => tree_ok t [] /\ key_size t = ks /\ value_size t = vs /\ page_size t = ps /\ next_page_id t = 2
  | Err _ => ~ fits_page ks vs ps
  | Panic => False
  end.
Proof.
  intros Hk Hv Hps Hkv. unfold create, fits_page.
  destruct (validate_page_size_cases ps) as [[Ev Hps1]|[m Ev]]; rewrite Ev; rsimpl; [|by intros [? _]].
  unfold max_leaf_entries, max_internal_entries.
  assert (0 < ks + 16) as Hk16 by (unfold uint_ok in Hk; lia).
  destruct (capacity_zero ps _ Hps1 Hkv) as (ml & El & Hml), (capacity_zero ps _ Hps1 Hk16) as (mi & Ei & Hmi).
  rewrite El, Ei. rsimpl.
  destruct (Z.eqb_spec ml 0); [intros (_ & ? & _); destruct Hml as [[_ ?]|]; [done|lia]|].
  destruct (Z.eqb_spec mi 0); [intros (_ & _ & ?); destruct Hmi as [[_ ?]|]; [done|lia]|].
  destruct (create_geometry_ok (mkTree (PageStore_create ps) ps ks vs 1 0 2 ml mi)) as (s & s' & Hw & Hsb & Hok); try done.
  { split_and!; simpl; try done; [by destruct Hml as [[]|]|by destruct Hmi as [[]|]]. }
  simpl in Hw. destruct (encode_leaf _ _ _ _); [|done..]. simpl in Hw |- *. rewrite Hw. simpl.
  unfold with_store in Hsb. simpl in Hsb. by rewrite Hsb.
Qed.

Lemma bt_open_ok t es : tree_ok t es -> bt_open (ps_file (store t)) = Ok t.
Proof.
  intros ((Hlen & bs & Hpage) & Htot & Hb & G & h & ls & ps & HR & HT & _).
  pose proof (repr_geometry _ _ HR) as HG. pose proof (geometry_page _ HG). pose proof (repr_room _ _ HR) as [Hn _].
  assert (u64_ok (root_page_id t)) as Hroot.
  { destruct (tree_rep_root _ _ _ _ _ _ _ HT) as [? Q]. apply tree_rep_pages in HT. rewrite Q in HT.
    destruct (Forall_inv HT) as [? Hi]. apply (repr_ids _ _ HR) in Hi. apply (repr_u64 HR). lia. }
  assert (superblock_ok (superblock_of t)) as Hsb.
  { apply (superblock_of_ok _ G); [done..|]. pose proof (zlen_nonneg es). unfold uint_ok. lia. }
  assert (page_ok (store t) 0) as Hok by (apply (repr_page_ok HR); lia).
  destruct HG as (Hps & _ & _ & _ & _ & Hml & Hmi & _).
  unfold SB_HEADER_LEN in *. unfold bt_open. rewrite (proj2 (Z.ltb_ge _ _)) by lia.
  rewrite slice_ok by lia. rewrite (page_zero_front _ _ 44 Hok) by (done || lia). rsimpl.
  replace (sub_bytes _ 0 44) with (superblock_bytes (superblock_of t) ++ []).
  2: { pose proof (zlen_superblock_bytes (superblock_of t)) as HL. unfold SB_HEADER_LEN, zlen in HL. rewrite app_nil_r.
       unfold sub_bytes. rewrite Z.sub_0_r, drop_0. rewrite take_app_length'; [done|lia]. }
  rewrite superblock_decode_ok by done. rsimpl. cbn [superblock_of sb_page_size sb_key_size sb_value_size sb_root_page_id
    sb_total_count sb_next_page_id]. rewrite Hml, Hmi. rsimpl. unfold PageStore_open. destruct t as [[f p] ps' ks vs r tot n ml mi]. simpl in *. by subst p.
Qed.
