(* ===== verification/BTreeRebuild.v ===== *)
(** * The B+Tree as a sorted list: rebuilding

    [rebuild_from] builds the file bottom up: the leaves of the sorted entries,
    then one level of internal pages after another. A level under construction is
    a [row] of trees of one height over adjacent key ranges. *)

From S2P Require Import Prelude Pages BTree BTreeRep BTreeDisk BTreeQuery BTreeInsert BTreeSpec.

(** ** Sorting *)

Lemma sort_insert_perm e es : sort_insert e es ≡ₚ e :: es.
Proof.
  induction es as [|x es IH]; [done|]. simpl. destruct (bytes_ltb x.1 e.1); [|done]. rewrite IH. apply Permutation_swap.
Qed.

Lemma sort_entries_perm es : sort_entries es ≡ₚ es.
Proof. induction es as [|e es IH]; [done|]. simpl. by rewrite sort_insert_perm, IH. Qed.

Lemma sort_insert_sorted (n : Z) e es :
  Forall (λ x : entry, zlen x.1 = n) (e :: es) -> sorted_entries es -> kz e ∉ map kz es ->
  sorted_entries (sort_insert e es).
Proof.
  intros HF Hs Hn. apply Forall_cons in HF as [He HF]. induction es as [|x es IH]; [repeat constructor|]. simpl.
  apply Forall_cons in HF as [Hx HF]. destruct (sorted_inv _ _ Hs) as [Hs' Hlt].
  apply not_elem_of_cons in Hn as [Hne Hn].
  rewrite (bytes_ltb_kz x.1 e.1) by congruence. fold (kz x) (kz e). destruct (Z.ltb_spec (kz x) (kz e)).
  - constructor; [by apply IH|]. rewrite sort_insert_perm. by constructor.
  - constructor; [done|]. constructor; [lia|]. eapply Forall_impl; [exact Hlt|]. simpl. lia.
Qed.

Lemma sort_entries_sorted (n : Z) es :
  Forall (λ x : entry, zlen x.1 = n) es -> NoDup (map kz es) -> sorted_entries (sort_entries es).
Proof.
  induction es as [|e es IH]; [constructor|]. intros HF Hnd. apply NoDup_cons in Hnd as [Hn Hnd]. simpl.
  apply (sort_insert_sorted n).
  - rewrite sort_entries_perm. done.
  - apply IH; [by apply Forall_cons in HF as [_ ?]|done].
  - by rewrite sort_entries_perm.
Qed.

(** ** Chunks *)

Lemma chunks_concat {A} fuel n (l : list A) : (0 < n)%nat -> (length l <= fuel)%nat -> concat (chunks fuel n l) = l.
Proof.
  intros Hn. revert l. induction fuel as [|fuel IH]; intros l Hf; destruct l as [|x l]; try done; [simpl in Hf; lia|].
  cbn [chunks concat]. rewrite IH; [apply take_drop|]. rewrite length_drop. simpl in *. lia.
Qed.

Lemma chunks_sizes {A} fuel n (l : list A) :
  (0 < n)%nat -> Forall (λ c, c <> [] /\ (length c <= n)%nat) (chunks fuel n l).
Proof.
  intros Hn. revert l. induction fuel as [|fuel IH]; intros [|x l]; [constructor..|]. cbn [chunks]. constructor; [|apply IH].
  split; [by destruct n; [lia|]|]. rewrite length_take. lia.
Qed.

(** Every chunk but the last is full. *)
Lemma chunks_length {A} fuel n (l : list A) :
  (0 < n)%nat -> (n * length (chunks fuel n l) < length l + n)%nat.
Proof.
  intros Hn. revert l. induction fuel as [|fuel IH]; intros [|x l]; try (simpl; lia).
  cbn [chunks length]. specialize (IH (drop n (x :: l))). rewrite length_drop in IH.
  destruct (decide (length (x :: l) <= n)%nat) as [Hle|Hgt].
  - rewrite (drop_ge (x :: l) n Hle). replace (chunks fuel n []) with (@nil (list A)) by (by destruct fuel). simpl. lia.
  - simpl in *. lia.
Qed.

Lemma chunks_nonempty {A} fuel n (l : list A) : l <> [] -> (length l <= fuel)%nat -> chunks fuel n l <> [].
Proof. destruct l, fuel; simpl; [done..|lia|done]. Qed.

(** ** Rows of trees *)

Abbreviation level_entry := (bytes * PageId * Z)%type (only parsing).

Inductive row (ks : Z) (P : Z -> Z -> PageId -> list leaf -> list PageId -> Prop)
    : Z -> Z -> list level_entry -> list leaf -> list PageId -> Prop :=
| row_nil hi : row ks P hi hi [] [] []
| row_cons k m hi c n es ls ps ls' ps' :
    zlen k = ks -> from_be k < m -> P (from_be k) m c ls ps -> n = zlen (ents ls) ->
    row ks P m hi es ls' ps' ->
    row ks P (from_be k) hi ((k, c, n) :: es) (ls ++ ls') (ps ++ ps').

Section rows.
Context {ks : Z} {P : Z -> Z -> PageId -> list leaf -> list PageId -> Prop}.

Lemma row_app_inv es1 es2 lo hi ls ps :
  row ks P lo hi (es1 ++ es2) ls ps ->
  exists x ls1 ls2 ps1 ps2, row ks P lo x es1 ls1 ps1 /\ row ks P x hi es2 ls2 ps2 /\ ls = ls1 ++ ls2 /\ ps = ps1 ++ ps2.
Proof.
  revert lo ls ps. induction es1 as [|e es1 IH]; intros lo ls ps H; simpl in H.
  - exists lo, [], ls, [], ps. by split_and!; [constructor|..].
  - inversion H as [|k m ? c n es' ls1 ps1 ls2 ps2 Hk Hm Hc Hn Hs]; subst.
    apply IH in Hs as (x & l1 & l2 & p1 & p2 & Hs1 & Hs2 & -> & ->).
    exists x, (ls1 ++ l1), l2, (ps1 ++ p1), p2. rewrite <- !app_assoc. split_and!; [|done..]. by apply (row_cons _ _ _ m).
Qed.

Lemma row_single_inv k c n lo hi ls ps :
  row ks P lo hi [(k, c, n)] ls ps -> lo = from_be k /\ lo < hi /\ P lo hi c ls ps /\ n = zlen (ents ls).
Proof.
  inversion 1 as [|? m ? ? ? ? ls1 ps1 ls2 ps2 Hk Hm Hc Hn Hs]; subst. inversion Hs; subst. rewrite !app_nil_r. done.
Qed.

Lemma row_mono P' lo hi es ls ps :
  (forall lo hi c ls' ps', (forall i, i ∈ ps' -> i ∈ ps) -> P lo hi c ls' ps' -> P' lo hi c ls' ps') ->
  row ks P lo hi es ls ps -> row ks P' lo hi es ls ps.
Proof.
  intros HP Hs. induction Hs as [|k m hi c n es l p l' p' Hk Hm Hc Hn Hs IH]; [constructor|].
  apply (row_cons _ _ _ m); [done..| |done|].
  - apply HP; [|done]. intros i Hi. apply elem_of_app. by left.
  - apply IH. intros ????? Hi. apply HP. intros i Hi'. apply elem_of_app. right. by apply Hi.
Qed.

(** The smallest key of a row's first tree is its lower bound. *)
Lemma row_head k c n es lo hi ls ps : row ks P lo hi ((k, c, n) :: es) ls ps -> lo = from_be k /\ zlen k = ks.
Proof. by inversion 1. Qed.

(** One internal page over a group. *)
Lemma group_kids group lo hi ls ps :
  group <> [] -> row ks P lo hi group ls ps ->
  exists k c n rk rc rn,
    head group = Some (k, c, n) /\ last group = Some (rk, rc, rn) /\ lo = from_be k /\ zlen k = ks /\ lo < hi /\
    kids P lo hi (mkInternal (group_entries group) rc rn) ls ps /\
    S (length (group_entries group)) = length group /\
    Forall (λ e, zlen e.1.1 = ks /\ e.1.2 ∈ map (λ g : level_entry, g.1.2) group /\ 0 <= e.2 <= zlen (ents ls))
      (group_entries group) /\
    rc ∈ map (λ g : level_entry, g.1.2) group /\ 0 <= rn <= zlen (ents ls).
Proof.
  revert lo ls ps. induction group as [|[[k c] n] group IH]; intros lo ls ps Hne Hr; [done|].
  destruct group as [|g2 group].
  - destruct (row_head _ _ _ _ _ _ _ _ Hr) as [-> Hk]. apply row_single_inv in Hr as (_ & Hlt & Hc & ->).
    pose proof (zlen_nonneg (ents ls)). exists k, c, (zlen (ents ls)), k, c, (zlen (ents ls)).
    split_and!; try done; [|simpl; set_solver].
    exists (from_be k), [], ls, [], ps. simpl. by split_and!; [constructor|..].
  - inversion Hr as [|? m ? ? ? ? l1 p1 l2 p2 Hk Hm Hc Hn Hs]; subst.
    destruct (IH m l2 p2) as (k2 & c2 & n2 & rk & rc & rn & Hh & Hl & Hm2 & Hk2 & Hhi & Hkids & Hlen & HF & Hrc & Hrn); [done|done|].
    destruct g2 as [[k2' c2'] n2']. injection Hh as -> -> ->.
    exists k, c, (zlen (ents l1)), rk, rc, rn. cbn [group_entries head]. pose proof (zlen_nonneg (ents l1)). rewrite ents_app, zlen_app.
    split_and!; try done; [lia| |by simpl in *; lia| |set_solver|lia|lia].
    + destruct Hkids as (x & a & b & a' & b' & Hs' & Hx & Hb & Hbn & -> & ->). simpl in *.
      exists x, (l1 ++ a), b, (p1 ++ a'), b'. simpl. rewrite !app_assoc. split_and!; try done.
      apply seg_cons; [by rewrite <- Hm2|by rewrite <- Hm2|done|by rewrite <- Hm2].
    + pose proof (zlen_nonneg (ents l2)). constructor; [simpl; split_and!; [done|set_solver|lia|lia]|].
      eapply Forall_impl; [exact HF|]. intros e (? & ? & ?). split_and!; [done|set_solver|lia|lia].
Qed.
End rows.

(** ** One level of internal pages *)

Lemma row_roots ks G h lo hi es ls ps :
  row ks (tree_rep G h) lo hi es ls ps -> Forall (λ i, i ∈ ps) (map (λ g : level_entry, g.1.2) es).
Proof.
  induction 1 as [|k m hi c n es l p l' p' Hk Hm Hc Hn Hs IH]; [constructor|]. simpl. constructor.
  - apply tree_rep_root in Hc as [q ->]. set_solver.
  - eapply Forall_impl; [exact IH|]. set_solver.
Qed.

Lemma row_pages ks G h lo hi es ls ps :
  row ks (tree_rep G h) lo hi es ls ps -> Forall (λ i, is_Some (G !! i)) ps.
Proof.
  induction 1 as [|k m hi c n es l p l' p' Hk Hm Hc Hn Hs IH]; [constructor|].
  apply Forall_app. split; [by eapply tree_rep_pages|done].
Qed.

Lemma row_range t G ks h lo hi es ls ps :
  repr t G -> row ks (tree_rep G h) lo hi es ls ps -> Forall (λ i, 1 <= i < next_page_id t) ps.
Proof.
  intros HR Hr. eapply Forall_impl; [by eapply row_pages|]. intros i [nd Hi]. by apply (repr_ids _ _ HR) in Hi.
Qed.

Lemma row_frame ks G G' h lo hi es ls ps :
  same_on ps G G' -> row ks (tree_rep G h) lo hi es ls ps -> row ks (tree_rep G' h) lo hi es ls ps.
Proof. intros Hs. apply row_mono. intros ????? Hsub. apply tree_rep_frame. by eapply same_on_sub. Qed.

Lemma group_node_ok t G h lo hi group ls ps rc rn :
  repr t G -> row (key_size t) (tree_rep G h) lo hi group ls ps -> zlen (ents ls) < 2 ^ 64 ->
  Forall (λ e, zlen e.1.1 = key_size t /\ e.1.2 ∈ map (λ g : level_entry, g.1.2) group /\ 0 <= e.2 <= zlen (ents ls))
    (group_entries group) ->
  rc ∈ map (λ g : level_entry, g.1.2) group -> 0 <= rn <= zlen (ents ls) ->
  int_node_ok (key_size t) (mkInternal (group_entries group) rc rn).
Proof.
  intros HR Hr Hb HF Hrc Hrn. pose proof (row_roots _ _ _ _ _ _ _ _ Hr) as Hroots.
  pose proof (row_range _ _ _ _ _ _ _ _ _ HR Hr) as Hrange. rewrite Forall_forall in Hroots, Hrange.
  assert (forall i, i ∈ map (λ g : level_entry, g.1.2) group -> u64_ok i) as Hid.
  { intros i Hi. apply (repr_u64 HR). specialize (Hrange i (Hroots i Hi)). lia. }
  split_and!; simpl; [|by apply Hid|unfold uint_ok; lia]. eapply Forall_impl; [exact HF|].
  intros [[k c] n] (? & ? & ?). split_and!; simpl in *; [done|by apply Hid|unfold uint_ok; lia].
Qed.

Lemma build_group_spec t G h lo hi group ls ps :
  repr t G -> group <> [] -> zlen group <= t_max_internal_entries t + 1 ->
  row (key_size t) (tree_rep G h) lo hi group ls ps -> zlen (ents ls) < 2 ^ 64 ->
  (next_page_id t + 1) * page_size t < 2 ^ 64 ->
  exists k c n rk rc rn s t1 t2,
    head group = Some (k, c, n) /\ last group = Some (rk, rc, rn) /\
    sum_counts (group_entries group) 0 = Ok s /\ add_u64 s rn = Ok (zlen (ents ls)) /\
    allocate_page t = Ok (next_page_id t, t1) /\
    write_internal t1 (next_page_id t) (mkInternal (group_entries group) rc rn) = Ok t2 /\
    evolves t t2 /\ next_page_id t2 = next_page_id t + 1 /\
    repr t2 (<[next_page_id t:=Internal (mkInternal (group_entries group) rc rn)]> G) /\
    lo = from_be k /\ zlen k = key_size t /\ lo < hi /\
    tree_rep (<[next_page_id t:=Internal (mkInternal (group_entries group) rc rn)]> G) (S h) lo hi
      (next_page_id t) ls (next_page_id t :: ps).
Proof.
  intros HR Hne Hlen Hr Hb Hroom.
  destruct (group_kids _ _ _ _ _ Hne Hr) as (k & c & n & rk & rc & rn & Hh & Hl & Hlo & Hk & Hlt & Hkids & Hsz & HF & Hrc & Hrn).
  destruct (kids_sum _ _ _ _ _ _ Hkids Hb) as (s & Hs & Hadd). simpl in Hs, Hadd.
  destruct (allocate_repr HR Hroom) as [Hal HR1]. pose proof (repr_room _ _ HR) as [Hn1 _].
  destruct (write_internal_repr HR1 (next_page_id t) (mkInternal (group_entries group) rc rn)) as (st & Hw & HR2);
    [simpl; lia| |].
  { apply fits_of_int_node; [by eapply repr_geometry|by eapply group_node_ok|]. simpl. unfold zlen in *. lia. }
  eexists k, c, n, rk, rc, rn, s, _, _. split_and!; try done; [eapply evolves_trans; [apply evolves_next|apply evolves_store]|].
  eexists _, ps. split_and!; [by rewrite lookup_insert_eq| |done].
  apply (kids_frame G); [|done]. apply same_on_insert. intros Hi.
  pose proof (row_range _ _ _ _ _ _ _ _ _ HR Hr) as Hrange. rewrite Forall_forall in Hrange. specialize (Hrange _ Hi). lia.
Qed.

(** A page written beyond every page of [G] changes nothing below. *)
Lemma fresh_insert_same t G nd : repr t G -> forall i, i < next_page_id t -> (<[next_page_id t:=nd]> G) !! i = G !! i.
Proof. intros HR i Hi. rewrite lookup_insert_ne; [done|lia]. Qed.

Lemma same_below t G G' ps :
  (forall i, i < next_page_id t -> G' !! i = G !! i) -> Forall (λ i, 1 <= i < next_page_id t) ps -> same_on ps G G'.
Proof. intros H HF i Hi. rewrite Forall_forall in HF. specialize (HF i Hi). by rewrite H by lia. Qed.

(** The pages [a], [a+1], ... of a level. *)
Definition ids_from (a : Z) (n : nat) : list Z := map (λ i, a + Z.of_nat i) (seq 0 n).

Lemma ids_from_S a n : ids_from a (S n) = a :: ids_from (a + 1) n.
Proof.
  unfold ids_from. simpl. rewrite Z.add_0_r. f_equal. rewrite <- seq_shift, map_map. apply map_ext. intros i. lia.
Qed.
Lemma length_ids_from a n : length (ids_from a n) = n.
Proof. unfold ids_from. by rewrite length_map, length_seq. Qed.
Lemma elem_of_ids_from a n i : i ∈ ids_from a n <-> a <= i < a + Z.of_nat n.
Proof.
  unfold ids_from. rewrite list_elem_of_fmap. split.
  - intros (j & -> & Hj). apply elem_of_seq in Hj. lia.
  - intros Hi. exists (Z.to_nat (i - a)). rewrite elem_of_seq. lia.
Qed.
Lemma NoDup_ids_from a n : NoDup (ids_from a n).
Proof.
  revert a. induction n as [|n IH]; intros a; [constructor|]. rewrite ids_from_S. constructor; [|apply IH].
  rewrite elem_of_ids_from. lia.
Qed.

Lemma build_level_spec t G h lo hi groups ls ps :
  repr t G -> Forall (λ g, g <> [] /\ zlen g <= t_max_internal_entries t + 1) groups ->
  row (key_size t) (tree_rep G h) lo hi (concat groups) ls ps -> zlen (ents ls) < 2 ^ 64 ->
  (next_page_id t + Z.of_nat (length groups)) * page_size t < 2 ^ 64 ->
  exists level t' G' ps',
    build_level t groups = Ok (level, t') /\ evolves t t' /\
    next_page_id t' = next_page_id t + Z.of_nat (length groups) /\ repr t' G' /\
    (forall i, i < next_page_id t -> G' !! i = G !! i) /\ (forall i, links G' i = links G i) /\
    row (key_size t) (tree_rep G' (S h)) lo hi level ls ps' /\
    ps' ≡ₚ ids_from (next_page_id t) (length groups) ++ ps /\ length level = length groups.
Proof.
  revert t G lo ls ps. induction groups as [|group groups IH]; intros t G lo ls ps HR HF Hr Hb Hroom.
  { inversion Hr; subst. exists [], t, G, []. simpl. split_and!; try done; [apply evolves_refl|lia|constructor]. }
  apply Forall_cons in HF as [[Hne Hlen] HF]. simpl in Hr. cbn [length] in Hroom. rewrite Nat2Z.inj_succ in Hroom.
  apply row_app_inv in Hr as (x & l1 & l2 & p1 & p2 & Hr1 & Hr2 & -> & ->). rewrite ents_app, zlen_app in Hb.
  pose proof (zlen_nonneg (ents l1)). pose proof (zlen_nonneg (ents l2)).
  pose proof (geometry_page _ (repr_geometry _ _ HR)) as Hgp.
  destruct (build_group_spec t G h lo x group l1 p1) as
    (k & c & n & rk & rc & rn & s & t1 & t2 & Hh & Hl & Hs & Hadd & Hal & Hw & He & Hn & HR2 & -> & Hk & Hlt & HT); try done; [lia|nia|].
  set (nd := Internal (mkInternal (group_entries group) rc rn)) in *.
  destruct (evolves_fields _ _ He) as (Hks & _ & Hps & _ & Hmi & _).
  pose proof (row_range _ _ _ _ _ _ _ _ _ HR Hr1) as Hg1. pose proof (row_range _ _ _ _ _ _ _ _ _ HR Hr2) as Hg2.
  destruct (IH t2 (<[next_page_id t:=nd]> G) x l2 p2) as (level & t' & G' & ps' & Hb' & He' & Hn' & HR' & Hsame & Hlk & Hrow & Hperm & Hlen');
    [done|by rewrite Hmi| |lia|rewrite Hps, Hn; lia|].
  { rewrite Hks. apply (row_frame _ G); [|done]. apply (same_below t); [by apply fresh_insert_same|done]. }
  exists ((k, next_page_id t, zlen (ents l1)) :: level), t', G', ((next_page_id t :: p1) ++ ps').
  cbn [build_level]. rewrite Hh, Hl, Hs. rsimpl. rewrite Hadd. rsimpl. rewrite Hal. rsimpl. rewrite Hw. rsimpl. rewrite Hb'. rsimpl.
  split_and!; try done; [by eapply evolves_trans|simpl; lia| | | | |simpl; lia].
  - intros i Hi. rewrite Hsame by lia. by apply (fresh_insert_same t).
  - intros i. rewrite Hlk. apply links_insert_internal. intros m. by rewrite (repr_fresh HR) by lia.
  - apply (row_cons _ _ _ x); [done..| |done|by rewrite <- Hks].
    apply (tree_rep_frame (<[next_page_id t:=nd]> G)); [|done]. apply (same_below t2); [done|].
    rewrite Hn. constructor; [pose proof (repr_room _ _ HR); lia|]. eapply Forall_impl; [exact Hg1|]. simpl. lia.
  - cbn [length]. rewrite ids_from_S, Hperm, Hn. simpl. solve_Permutation.
Qed.

(** ** All the levels *)

(** Groups of two or more at least halve a level. *)
Lemma groups_halve {A} n (l : list A) :
  (2 <= n)%nat -> (2 <= length l)%nat -> (2 * length (chunks (length l) n l) <= length l + 1)%nat.
Proof.
  intros Hn Hl. pose proof (chunks_length (length l) n l ltac:(lia)).
  assert (chunks (length l) n l <> []) as Hne by (apply chunks_nonempty; [by destruct l; simpl in *; [lia|]|done]).
  destruct (chunks (length l) n l) as [|c cs]; [done|]. simpl length in *. nia.
Qed.

Lemma group_sizes t G (level : list level_entry) :
  repr t G ->
  Forall (λ g, g <> [] /\ zlen g <= t_max_internal_entries t + 1)
    (chunks (length level) (Z.to_nat (t_max_internal_entries t + 1)) level).
Proof.
  intros HR. destruct (repr_geometry _ _ HR) as (_ & _ & _ & _ & _ & _ & _ & _ & Hpos).
  eapply Forall_impl; [apply chunks_sizes; lia|]. intros g [? ?]. split; [done|]. unfold zlen. lia.
Qed.

Lemma build_internal_levels_spec fuel t G h lo hi level ls ps :
  (length level <= fuel)%nat -> level <> [] -> repr t G ->
  row (key_size t) (tree_rep G h) lo hi level ls ps -> NoDup ps -> zlen (ents ls) < 2 ^ 64 ->
  (next_page_id t + 2 * zlen level) * page_size t < 2 ^ 64 ->
  exists root t' G' h' ps',
    build_internal_levels fuel t level = Ok (root, t') /\ evolves t t' /\ repr t' G' /\
    (forall i, links G' i = links G i) /\ tree_rep G' h' lo hi root ls ps' /\ NoDup ps'.
Proof.
  revert t G h level ps. induction fuel as [|fuel IH]; intros t G h level ps Hf Hne HR Hr Hnd Hb Hroom.
  { destruct level; simpl in Hf; [done|lia]. }
  cbn [build_internal_levels]. destruct (Nat.ltb_spec 1 (length level)) as [Hlt|Hge].
  2: { destruct level as [|[[k c] n] [|]]; [done| |simpl in Hge; lia]. apply row_single_inv in Hr as (_ & _ & HT & _).
       exists c, t, G, h, ps. rsimpl. split_and!; try done. apply evolves_refl. }
  destruct (repr_geometry _ _ HR) as (_ & _ & _ & _ & _ & _ & _ & _ & Hpos). pose proof (geometry_page _ (repr_geometry _ _ HR)).
  set (gs := Z.to_nat (t_max_internal_entries t + 1)) in *. set (groups := chunks (length level) gs level).
  assert (2 * length groups <= length level + 1)%nat as Hhalf by (apply groups_halve; lia).
  destruct (build_level_spec t G h lo hi groups ls ps) as
    (level' & t' & G' & ps' & Hbl & He & Hn & HR' & Hsame & Hlk & Hrow & Hperm & Hlen); try done.
  { by eapply group_sizes. }
  { unfold groups. by rewrite chunks_concat by lia. }
  { unfold zlen in Hroom. nia. }
  rewrite Hbl. rsimpl. destruct (evolves_fields _ _ He) as (Hks & _ & Hps & _ & _ & _).
  assert (groups <> []) as Hgne by (by apply chunks_nonempty).
  destruct (IH t' G' (S h) level' ps') as (root & t'' & G'' & h' & ps'' & Hl & He' & HR'' & Hlk' & HT & Hnd'').
  - lia.
  - intros ->. by destruct groups.
  - done.
  - by rewrite Hks.
  - rewrite Hperm. apply NoDup_app. split_and!; [apply NoDup_ids_from| |done]. intros i Hi Hi'.
    apply elem_of_ids_from in Hi. pose proof (row_range _ _ _ _ _ _ _ _ _ HR Hr) as HF. rewrite Forall_forall in HF.
    specialize (HF i Hi'). lia.
  - done.
  - rewrite Hps, Hn. unfold zlen in *. eapply Z.le_lt_trans; [|exact Hroom]. apply Z.mul_le_mono_nonneg_r; lia.
  - exists root, t'', G'', h', ps''. split_and!; try done; [by eapply evolves_trans|]. intros i. by rewrite Hlk', Hlk.
Qed.

(** ** The leaves *)

Definition leaf_level (a : Z) (cs : list (list entry)) : list level_entry :=
  zip_with (λ i c, (default [] (fst <$> head c), i, zlen c)) (ids_from a (length cs)) cs.

Lemma leaf_level_ids a cs : map (λ e : level_entry, e.1.2) (leaf_level a cs) = ids_from a (length cs).
Proof.
  revert a. induction cs as [|c cs IH]; intros a; [done|]. unfold leaf_level. cbn [length]. rewrite ids_from_S. simpl.
  f_equal. apply IH.
Qed.
Lemma length_leaf_level a cs : length (leaf_level a cs) = length cs.
Proof. unfold leaf_level. rewrite length_zip_with, length_ids_from. lia. Qed.

Lemma allocate_leaves_spec t G cs :
  repr t G -> Forall (λ c, c <> []) cs -> (next_page_id t + Z.of_nat (length cs)) * page_size t < 2 ^ 64 ->
  exists t', allocate_leaves t cs = Ok (leaf_level (next_page_id t) cs, t') /\ evolves t t' /\
    next_page_id t' = next_page_id t + Z.of_nat (length cs) /\ repr t' G.
Proof.
  revert t. induction cs as [|c cs IH]; intros t HR HF Hroom.
  { exists t. split_and!; [done|apply evolves_refl|simpl; lia|done]. }
  apply Forall_cons in HF as [Hc HF]. cbn [length] in *. rewrite Nat2Z.inj_succ in *.
  pose proof (geometry_page _ (repr_geometry _ _ HR)). destruct (allocate_repr HR) as [Hal HR1]; [nia|].
  destruct (IH _ HR1 HF) as (t' & Ha & He & Hn & HR'); [simpl; nia|]. exists t'.
  cbn [allocate_leaves]. rewrite Hal. rsimpl. destruct c as [|[k v] c]; [done|].
  unfold index at 1. cbn [Z.ltb Z.compare]. rsimpl. rewrite Ha. rsimpl. split_and!; [|by eapply evolves_trans; [apply evolves_next|]|simpl in *; lia|done].
  unfold leaf_level at 2. cbn [length]. rewrite ids_from_S. done.
Qed.

Lemma write_leaves_spec t G p a cs :
  repr t G -> u64_ok p -> 1 <= a -> a + Z.of_nat (length cs) <= next_page_id t ->
  Forall (λ c, Forall (leaf_record_ok (key_size t) (value_size t)) c /\ zlen c <= t_max_leaf_entries t) cs ->
  exists t' G', write_leaves t p (ids_from a (length cs)) cs = Ok t' /\ evolves t t' /\
    next_page_id t' = next_page_id t /\ repr t' G' /\ (forall i, i < a -> G' !! i = G !! i) /\
    chain (links G') p (ids_from a (length cs)) /\
    (forall j c, cs !! j = Some c -> exists n, G' !! (a + Z.of_nat j) = Some (Leaf n) /\ leaf_entries n = c).
Proof.
  revert t G p a. induction cs as [|c cs IH]; intros t G p a HR Hp Ha Hn HF.
  { exists t, G. simpl. split_and!; try done. apply evolves_refl. }
  apply Forall_cons in HF as [[Hrec Hlen] HF]. cbn [length] in *. rewrite Nat2Z.inj_succ in Hn. rewrite ids_from_S.
  set (nxt := match ids_from (a + 1) (length cs) with n :: _ => n | [] => NULL_PAGE end).
  assert (u64_ok nxt) as Hnx.
  { unfold nxt. destruct cs; [done|]. cbn [length]. rewrite ids_from_S. apply (repr_u64 HR). simpl length in Hn. lia. }
  destruct (write_leaf_repr HR a (mkLeaf p nxt c)) as (s & Hw & HR1); [lia| |].
  { apply leaf_fits_intro; [by eapply repr_geometry|done..]. }
  destruct (IH _ _ a (a + 1) HR1) as (t' & G' & Hws & He & Hn' & HR' & Hsame & Hch & Hleaf);
    [apply (repr_u64 HR); lia|lia|simpl; lia|done|].
  assert (G' !! a = Some (Leaf (mkLeaf p nxt c))) as Hla by (rewrite Hsame by lia; apply lookup_insert_eq).
  exists t', G'. cbn [write_leaves]. fold nxt. rewrite Hw. rsimpl. split_and!; try done.
  - intros i Hi. rewrite Hsame by lia. apply lookup_insert_ne. lia.
  - split; [|done]. unfold links. by rewrite Hla.
  - intros [|j] c' Hc'; simpl in Hc'.
    + injection Hc' as <-. rewrite Z.add_0_r. by eexists.
    + replace (a + Z.of_nat (S j)) with (a + 1 + Z.of_nat j) by lia. by apply Hleaf.
Qed.

(** The leaves of the chunks of a sorted list are a row. *)
Definition first_key (hi : Z) (cs : list (list entry)) : Z :=
  match cs with (e :: _) :: _ => kz e | _ => hi end.

Lemma leaf_row G ks hi a cs :
  Forall (λ c, c <> []) cs -> sorted_entries (concat cs) ->
  Forall (λ e : entry, zlen e.1 = ks /\ kz e < hi) (concat cs) ->
  (forall j c, cs !! j = Some c -> exists n, G !! (a + Z.of_nat j) = Some (Leaf n) /\ leaf_entries n = c) ->
  row ks (tree_rep G 0) (first_key hi cs) hi (leaf_level a cs) (zip (ids_from a (length cs)) cs) (ids_from a (length cs)).
Proof.
  revert a. induction cs as [|c cs IH]; intros a Hne Hs HF HG; [constructor|].
  apply Forall_cons in Hne as [Hc Hne]. simpl concat in *.
  destruct (proj1 (sorted_app c (concat cs)) Hs) as (Hsc & Hscs & Hcross). apply Forall_app in HF as [HFc HFcs].
  cbn [length]. unfold leaf_level. cbn [length]. rewrite !ids_from_S. cbn [zip zip_with]. fold (leaf_level (a + 1) cs).
  destruct c as [|[k v] c]; [done|]. simpl default. change (first_key hi (((k, v) :: c) :: cs)) with (from_be k).
  destruct (HG 0%nat _ eq_refl) as (n & Hn & Hen). rewrite Z.add_0_r in Hn.
  assert (Forall (λ e, kz e < first_key hi cs) ((k, v) :: c)) as Hup.
  { destruct cs as [|[|e es] cs]; simpl; [|by apply Forall_cons in Hne as [? _]|].
    - eapply Forall_impl; [exact HFc|]. by intros ? [_ ?].
    - eapply Forall_impl; [exact Hcross|]. intros x Hx. by apply Forall_cons in Hx as [? _]. }
  assert (zlen k = ks) as Hk by (apply Forall_cons in HFc as [[? _] _]; done).
  apply (row_cons ks (tree_rep G 0) k (first_key hi cs) hi a _ _ [(a, (k, v) :: c)] [a]); [done| | | |].
  - by apply Forall_cons in Hup as [? _].
  - simpl. exists n. rewrite Hen. split_and!; try done. apply Forall_cons. split.
    + apply Forall_cons in Hup as [? _]. unfold kz in *. simpl in *. lia.
    + apply sorted_inv in Hsc as [_ Hlt]. apply Forall_cons in Hup as [_ Hup].
      apply Forall_forall. intros e He. rewrite Forall_forall in Hlt, Hup. specialize (Hlt e He). specialize (Hup e He).
      unfold kz in *. simpl in *. lia.
  - by rewrite ents_single.
  - apply IH; [done..|]. intros j c' Hj. replace (a + 1 + Z.of_nat j) with (a + Z.of_nat (S j)) by lia. by apply HG.
Qed.

(** ** The whole file *)

Lemma tree_rep_weaken G h lo lo' hi id ls ps : lo' <= lo -> tree_rep G h lo hi id ls ps -> tree_rep G h lo' hi id ls ps.
Proof.
  revert lo lo' hi id ls ps. induction h as [|h IH]; intros lo lo' hi id ls ps Hle; simpl.
  - intros (n & Hn & Hs & Hk & ?). exists n. split_and!; [done..| |tauto|tauto].
    eapply Forall_impl; [exact Hk|]. simpl. lia.
  - intros ([es rc rn] & ps' & Hn & (m & l1 & l2 & p1 & p2 & Hs & Hm & Hr & Hc & Hl & Hp) & ->).
    exists (mkInternal es rc rn), ps'. simpl in *. split_and!; [done| |done].
    inversion Hs as [|x y k c cn es' a b a' b' Hk HP Hcn Hs']; subst.
    + exists lo', [], l2, [], p2. split_and!; try done; [constructor|simpl; lia|by eapply IH].
    + eexists m, _, l2, _, p2. split_and!; try done. apply seg_cons; [lia|by eapply IH|done|done].
Qed.

Lemma ents_zip ids (cs : list (list entry)) : length ids = length cs -> ents (zip ids cs) = concat cs.
Proof.
  revert ids. induction cs as [|c cs IH]; intros [|i ids] H; try done. simpl. unfold ents in IH. by rewrite IH by (by injection H).
Qed.
Lemma leaf_ids_zip ids (cs : list (list entry)) : length ids = length cs -> leaf_ids (zip ids cs) = ids.
Proof.
  revert ids. induction cs as [|c cs IH]; intros [|i ids] H; try done. simpl. unfold leaf_ids in IH. by rewrite IH by (by injection H).
Qed.

(** The truncated file a rebuild starts from. *)
Definition truncated (t : BPlusTree) : BPlusTree := with_total (with_next (with_store t (truncate (store t))) 1) 0.

Lemma truncated_ok t : geometry_ok t -> repr (truncated t) ∅.
Proof.
  intros HG. pose proof (geometry_page _ HG). apply repr_empty; simpl; [|lia|lia].
  destruct HG as (H1 & H2). by split.
Qed.

Lemma rebuild_empty t :
  geometry_ok t -> exists t', rebuild_from t [] = Ok t' /\ tree_ok t' [] /\ same_geometry t t'.
Proof.
  intros HG. pose proof (geometry_page _ HG). pose proof (truncated_ok t HG) as HR.
  destruct (allocate_repr HR) as [Hal HR1]; [simpl; lia|].
  destruct (write_leaf_repr HR1 1 empty_leaf) as (s & Hw & HR2); [simpl; lia|by apply (empty_leaf_fits t)|].
  set (t2 := with_root (with_store (with_next (truncated t) 2) s) 1).
  assert (repr t2 {[1 := Leaf empty_leaf]}) as HR3 by (eapply repr_ext; [..|exact HR2]; done).
  destruct (write_superblock_ok _ _ HR3) as (s' & Hw' & HR4 & Hh). exists (with_store t2 s').
  split_and!; [|by apply (tree_ok_empty _ 1)|done..].
  unfold rebuild_from. rewrite bool_decide_true by done. fold (truncated t). rewrite Hal. rsimpl.
  change (next_page_id (truncated t) + 1) with 2 in *. change (next_page_id (truncated t)) with 1.
  rewrite Hw. rsimpl. exact Hw'.
Qed.

(** Writing a root over a tree of pages ends the rebuild. *)
Lemma rebuild_finish t G h root ls ps :
  repr t G -> tree_rep G h 0 (key_space t) root ls ps -> NoDup ps -> chain (links G) NULL_PAGE (leaf_ids ls) ->
  total_count t = zlen (ents ls) -> total_count t < 2 ^ 64 ->
  exists t', write_superblock (with_root t root) = Ok t' /\ tree_ok t' (ents ls) /\ same_geometry t t'.
Proof.
  intros HR HT Hnd Hc Htot Hb. assert (repr (with_root t root) G) as HR1 by (eapply repr_ext; [..|exact HR]; done).
  destruct (write_superblock_ok _ _ HR1) as (s & Hw & HR2 & Hh). exists (with_store (with_root t root) s).
  split_and!; [done| |done..]. split_and!; [done..|]. exists G, h, ls, ps. by split_and!.
Qed.

Lemma sorted_first_key (es : list entry) cs hi :
  concat cs = es -> Forall (λ c, c <> []) cs -> es <> [] -> exists e, head es = Some e /\ first_key hi cs = kz e.
Proof.
  intros <- HF Hne. destruct cs as [|[|e c] cs]; [done|by apply Forall_cons in HF as [? _]|]. by exists e.
Qed.

Lemma kz_range t (es : list entry) :
  Forall (leaf_record_ok (key_size t) (value_size t)) es ->
  Forall (λ e : entry, zlen e.1 = key_size t /\ kz e < key_space t) es.
Proof.
  intros HF. eapply Forall_impl; [exact HF|]. intros e [Hk _]. split; [done|].
  unfold kz, key_space. pose proof (from_be_range e.1) as Hr. pose proof (zlen_nonneg e.1). unfold uint_ok in Hr.
  rewrite Hk, Z.pow_mul_r in Hr by lia. change (2 ^ 8) with 256 in Hr. lia.
Qed.

(** The leaves: allocated from page 1, then written with their links. *)
Lemma rebuild_leaves t es cs :
  geometry_ok t -> Forall (leaf_record_ok (key_size t) (value_size t)) es -> concat cs = es ->
  Forall (λ c, c <> [] /\ zlen c <= t_max_leaf_entries t) cs -> (1 + zlen cs) * page_size t < 2 ^ 64 ->
  exists t1 t2 G,
    allocate_leaves (truncated t) cs = Ok (leaf_level 1 cs, t1) /\
    write_leaves t1 NULL_PAGE (ids_from 1 (length cs)) cs = Ok t2 /\ evolves (truncated t) t2 /\
    next_page_id t2 = 1 + zlen cs /\ repr t2 G /\ chain (links G) NULL_PAGE (ids_from 1 (length cs)) /\
    (forall j c, cs !! j = Some c -> exists n, G !! (1 + Z.of_nat j) = Some (Leaf n) /\ leaf_entries n = c).
Proof.
  intros HG HF Hcs Hsz Hroom.
  destruct (allocate_leaves_spec (truncated t) ∅ cs (truncated_ok t HG)) as (t1 & Ha & He1 & Hn1 & HR1); [|done|].
  { eapply Forall_impl; [exact Hsz|]. by intros ? [? _]. }
  change (next_page_id (truncated t)) with 1 in *. destruct (evolves_fields _ _ He1) as (Hk1 & Hv1 & Hp1 & Hml1 & _).
  destruct (write_leaves_spec t1 ∅ NULL_PAGE 1 cs HR1) as (t2 & G2 & Hw & He2 & Hn2 & HR2 & _ & Hch & Hleaf); [done|lia|lia| |].
  { rewrite Hk1, Hv1, Hml1. apply Forall_forall. intros c Hc. rewrite Forall_forall in Hsz. destruct (Hsz c Hc). split; [|done].
    rewrite <- Hcs in HF. apply Forall_concat in HF. rewrite Forall_forall in HF. by apply HF. }
  exists t1, t2, G2. split_and!; try done; [by eapply evolves_trans|]. by rewrite Hn2, Hn1.
Qed.

(** The root over a level of leaves, whatever its height. *)
Lemma build_root t G lo hi level ls ps :
  repr t G -> level <> [] -> row (key_size t) (tree_rep G 0) lo hi level ls ps -> NoDup ps ->
  0 <= lo -> zlen (ents ls) < 2 ^ 64 -> (next_page_id t + 2 * zlen level) * page_size t < 2 ^ 64 ->
  exists root t' G' h ps',
    (if (length level =? 1)%nat then first ← index level 0; Ok (first.1.2, t)
     else build_internal_levels (length level) t level) = Ok (root, t') /\ evolves t t' /\ repr t' G' /\
    (forall i, links G' i = links G i) /\ tree_rep G' h 0 hi root ls ps' /\ NoDup ps'.
Proof.
  intros HR Hne Hrow Hnd Hlo Hb Hroom. destruct (Nat.eqb_spec (length level) 1) as [H1|H1].
  - destruct level as [|[[k c] n] [|]]; [done| |done]. apply row_single_inv in Hrow as (_ & _ & HT & _).
    exists c, t, G, 0%nat, ps. split_and!; try done; [apply evolves_refl|]. by eapply tree_rep_weaken.
  - destruct (build_internal_levels_spec (length level) t G 0 lo hi level ls ps)
      as (root & t' & G' & h & ps' & Hl & He & HR' & Hlk & HT & Hnd'); try done.
    exists root, t', G', h, ps'. split_and!; try done. by eapply tree_rep_weaken.
Qed.

Lemma first_key_nonneg hi (cs : list (list entry)) : 0 <= hi -> 0 <= first_key hi cs.
Proof.
  intros Hhi. destruct cs as [|[|e c] cs]; [done..|]. simpl. unfold kz.
  pose proof (from_be_range e.1) as Hq. unfold uint_ok in Hq. lia.
Qed.

Lemma rebuild_from_ok t entries :
  geometry_ok t -> Forall (leaf_record_ok (key_size t) (value_size t)) entries -> NoDup (map kz entries) ->
  (3 * zlen entries + 2) * page_size t < 2 ^ 64 ->
  exists t', rebuild_from t entries = Ok t' /\ tree_ok t' (sort_entries entries) /\ same_geometry t t'.
Proof.
  intros HG HF Hnd Hroom. set (es := sort_entries entries).
  assert (es ≡ₚ entries) as Hperm by apply sort_entries_perm.
  assert (zlen es = zlen entries) as Hze by (unfold zlen; by rewrite Hperm). rewrite <- Hze in Hroom.
  destruct (decide (entries = [])) as [->|Hne]; [by apply rebuild_empty|].
  assert (es <> []) as Hes by (intros E; rewrite E in Hperm; by apply Permutation_nil_l in Hperm).
  assert (Forall (leaf_record_ok (key_size t) (value_size t)) es) as HFs by (by rewrite Hperm).
  assert (sorted_entries es) as Hs.
  { apply (sort_entries_sorted (key_size t)); [|done]. eapply Forall_impl; [exact HF|]. by intros ? [? _]. }
  pose proof (geometry_page _ HG) as Hgp. assert (0 < t_max_leaf_entries t) as Hml by apply HG.
  unfold rebuild_from. fold es. fold (truncated t). rewrite bool_decide_false by done.
  change (t_max_leaf_entries (truncated t)) with (t_max_leaf_entries t). rewrite Z.max_l by lia.
  set (cn := Z.to_nat (t_max_leaf_entries t)). set (cs := chunks (length es) cn es).
  assert (concat cs = es) as Hcs by (apply chunks_concat; lia).
  assert (Forall (λ c, c <> [] /\ zlen c <= t_max_leaf_entries t) cs) as Hsz.
  { eapply Forall_impl; [apply chunks_sizes; lia|]. intros c [? ?]. split; [done|]. unfold zlen. lia. }
  assert (Forall (λ c, c <> []) cs) as Hcne by (eapply Forall_impl; [exact Hsz|]; by intros ? [? _]).
  assert (length cs <= length es)%nat as Hcl.
  { pose proof (chunks_length (length es) cn es ltac:(lia)) as Hq. fold cs in Hq. destruct es; [done|]. simpl length in *. nia. }
  destruct (rebuild_leaves t es cs HG HFs Hcs Hsz) as (t1 & t2 & G & Ha & Hw & He & Hn & HR & Hch & Hleaf); [unfold zlen in *; nia|].
  rewrite Ha. rsimpl. rewrite leaf_level_ids, Hw. rsimpl. destruct (evolves_fields _ _ He) as (Hk & Hv & Hp & _).
  change (key_size (truncated t)) with (key_size t) in Hk. change (page_size (truncated t)) with (page_size t) in Hp.
  change (value_size (truncated t)) with (value_size t) in Hv.
  set (t3 := with_total t2 (zlen es)). assert (repr t3 G) as HR3 by (eapply repr_ext; [..|exact HR]; done).
  set (ids := ids_from 1 (length cs)) in *. set (ls := zip ids cs).
  assert (ents ls = es) as Hents by (unfold ls; by rewrite ents_zip by apply length_ids_from).
  pose proof (leaf_row G (key_size t) (key_space t) 1 cs Hcne) as Hrow. rewrite Hcs in Hrow.
  specialize (Hrow Hs (kz_range t _ HFs) Hleaf). fold ids ls in Hrow.
  destruct (build_root t3 G (first_key (key_space t) cs) (key_space t) (leaf_level 1 cs) ls ids)
    as (root & t4 & G4 & h & ps & Hb & He4 & HR4 & Hlk & HT & Hnd4); try done.
  { intros E. apply (f_equal length) in E. rewrite length_leaf_level in E. by destruct cs, es. }
  { change (key_size t3) with (key_size t2). by rewrite Hk. }
  { apply NoDup_ids_from. }
  { apply first_key_nonneg. apply Z.pow_nonneg. lia. }
  { rewrite Hents. unfold zlen in *. nia. }
  { change (page_size t3) with (page_size t2). change (next_page_id t3) with (next_page_id t2).
    rewrite Hp, Hn. unfold zlen in *. rewrite length_leaf_level. nia. }
  rewrite Hb. rsimpl. destruct (evolves_fields _ _ He4) as (Hk4 & Hv4 & Hp4 & _ & _ & _ & Htot4 & _).
  simpl in Hk4, Hv4, Hp4, Htot4. rewrite Hk in Hk4. rewrite Hv in Hv4. rewrite Hp in Hp4.
  destruct (rebuild_finish t4 G4 h root ls ps) as (t' & Hsb & Hok & S1 & S2 & S3); try done.
  - unfold key_space. by rewrite Hk4.
  - unfold ls. rewrite leaf_ids_zip by apply length_ids_from. eapply chain_ext; [|exact Hch]. intros i _. apply Hlk.
  - by rewrite Htot4, Hents.
  - rewrite Htot4. unfold zlen in *. nia.
  - exists t'. rewrite Hents in Hok. split_and!; [done|done|split_and!; congruence].
Qed.
