(* ===== verification/BTreeTheorems.v ===== *)
(** * The B+Tree as a sorted list: the theorems

    What [btree.rs] promises: a tree file represents a list of entries sorted by
    key, insertion and removal are the list operations, the reads are list
    lookups by key and by rank, and creation, reopening and rebuilding give files
    that represent what they should. The fuel of a descent or a sibling walk is
    the number of pages, which no tree and no chain of leaves exceeds. *)

From S2P Require Import Prelude Pages BTree BTreeRep BTreeQuery BTreeSpec BTreeRebuild.

(** A fresh tree for the witnesses: one-byte keys and values. *)
Lemma small_tree : exists t, create 1 1 4096 = Ok t /\ tree_ok t [] /\ key_size t = 1 /\ value_size t = 1 /\ page_size t = 4096 /\ has_room t.
Proof.
  pose proof (create_ok 1 1 4096 ltac:(done) ltac:(done) ltac:(done) ltac:(done)) as H.
  destruct (create 1 1 4096) as [t|m|]; [|exfalso; apply H; by vm_compute|destruct H].
  destruct H as (H & Hk & Hv & Hp & Hn). exists t. unfold has_room. by rewrite Hn, Hp.
Defined.

Definition byte_entry (k v : Z) : entry := ([u8 k], [u8 v]).

(** C3: insertion refines the sorted list: in a file that represents [es], with
    room for the pages it may allocate, [insert] of a key and a value of the
    tree's sizes succeeds and the new file represents [es] with the key's entry
    put in place or replaced; the order, the counts of every internal page, the
    sibling links and the superblock are again those of a tree. A key or a value
    of another size is refused. *)
Theorem btree_insert_refines t es key value :
  tree_ok t es -> has_room t -> zlen es + 1 < 2 ^ 64 ->
  if (zlen key =? key_size t) && (zlen value =? value_size t) then
    exists t', bt_insert t key value = Ok t' /\ tree_ok t' (put_entry (key, value) es) /\ same_geometry t t'
  else exists m, bt_insert t key value = Err m.
Proof.
  intros Ht Hr Hb. destruct (Z.eqb_spec (zlen key) (key_size t)) as [Hk|Hk]; simpl.
  - destruct (Z.eqb_spec (zlen value) (value_size t)) as [Hv|Hv]; [destruct (bt_insert_ok t es key value) as (t' & _ & _ & ? & ? & ? & _); [done..|intros h Hh; by apply (has_room_splits t es)|by exists t']|].
    unfold bt_insert. rewrite (proj2 (Z.eqb_eq _ _) Hk), (proj2 (Z.eqb_neq _ _) Hv). by eexists.
  - unfold bt_insert. rewrite (proj2 (Z.eqb_neq _ _) Hk). by eexists.
Qed.

Lemma btree_insert_refines_witness :
  exists t t', create 1 1 4096 = Ok t /\ bt_insert t [u8 7] [u8 1] = Ok t' /\ tree_ok t' [byte_entry 7 1].
Proof.
  destruct small_tree as (t & Hc & Ht & Hk & Hv & Hp & Hr).
  pose proof (btree_insert_refines t [] [u8 7] [u8 1] Ht Hr ltac:(done)) as H. rewrite Hk, Hv in H. simpl in H.
  destruct H as (t' & Hi & Ht' & _). exists t, t'. split; [exact Hc|by split].
Defined.

(** C4: removal refines the sorted list: it answers whether the key was there,
    and the file then represents the list without it; a key of another size is
    refused. *)
Theorem btree_remove_refines t es key :
  tree_ok t es ->
  if zlen key =? key_size t then
    exists t', bt_remove t key = Ok (has (from_be key) es, t') /\
      tree_ok t' (if has (from_be key) es then del_entry (from_be key) es else es) /\ same_geometry t t'
  else exists m, bt_remove t key = Err m.
Proof.
  intros Ht. destruct (Z.eqb_spec (zlen key) (key_size t)) as [Hk|Hk]; [destruct (bt_remove_ok t es key Ht Hk) as (t' & ? & ? & ? & _); by exists t'|].
  unfold bt_remove. rewrite (proj2 (Z.eqb_neq _ _) Hk). by eexists.
Qed.

Lemma btree_remove_refines_witness :
  exists t t', create 1 1 4096 = Ok t /\ bt_remove t [u8 7] = Ok (false, t') /\ tree_ok t' [].
Proof.
  destruct small_tree as (t & Hc & Ht & Hk & Hv & Hp & Hr). pose proof (btree_remove_refines t [] [u8 7] Ht) as H.
  rewrite Hk in H. simpl in H. destruct H as (t' & Hi & Ht' & _). exists t, t'. split; [exact Hc|by split].
Defined.

(** C5: the reads of a tree that represents [es] are reads of the list: membership,
    the rank of a key and the rank of the largest key not above one, the entry at
    a rank, [k] samples at evenly spread ranks, and the first [n] entries from
    either end or from a rank. *)
Theorem btree_reads_refine t es key (rank n k : nat) :
  tree_ok t es -> zlen key = key_size t -> Z.of_nat k * zlen es < 2 ^ 64 ->
  contains t key = Ok (has (from_be key) es) /\
  rank_of_key t key = Ok (if has (from_be key) es then Some (zlen (below (from_be key) es)) else None) /\
  rank_of_floor t key = Ok (floor_rank (from_be key) es) /\
  (forall e, es !! rank = Some e -> entry_at_rank t (Z.of_nat rank) = Ok e) /\
  (exists samples, sample_by_rank t k = Ok samples /\ length samples = (if zlen es =? 0 then 0%nat else k) /\
     forall i e, samples !! i = Some e -> es !! Z.to_nat (Z.of_nat i * zlen es / Z.of_nat k) = Some e) /\
  scan_forward_bounded t n = Ok (take n es) /\
  scan_backward_bounded t n = Ok (take n (rev es)) /\
  scan_from_rank t (Z.of_nat rank) n = Ok (take n (drop rank es)).
Proof.
  intros (Hh & Htot & Hb & G & h & ls & ps & HR & HT & Hnd & Hc & ->) Hk Hs. rewrite <- Htot in Hs |- *. split_and!.
  - by apply (contains_spec HR HT Hnd Hc Htot Hb).
  - by apply (rank_of_key_spec HR HT Hnd Hc Htot Hb).
  - by apply (rank_of_floor_spec HR HT Hnd Hc Htot Hb).
  - intros e He. by apply (entry_at_rank_spec HR HT Hnd Htot).
  - by apply (sample_by_rank_spec HR HT Hnd Htot).
  - apply (scan_forward_spec HR HT Hnd Hc Htot).
  - apply (scan_backward_spec HR HT Hnd Hc).
  - rewrite (scan_from_rank_spec HR HT Hnd Hc Htot) by lia. by rewrite Nat2Z.id.
Qed.

Lemma btree_reads_refine_witness :
  exists t, (t ← create 1 1 4096; bt_insert t [u8 7] [u8 1]) = Ok t /\
    rank_of_key t [u8 7] = Ok (Some 0) /\ scan_forward_bounded t 5 = Ok [byte_entry 7 1].
Proof.
  destruct small_tree as (t & Hc & Ht & Hk & Hv & Hp & Hr).
  destruct (bt_insert_ok t [] [u8 7] [u8 1] Ht) as (t1 & _ & _ & Hi1 & Ht1 & (Hk1 & Hv1 & Hp1) & _); [done|done|done|intros h Hh; by apply (has_room_splits t [])|].
  exists t1. rewrite Hc. rsimpl. rewrite Hi1.
  destruct (btree_reads_refine t1 _ [u8 7] 0 5 1 Ht1) as (_ & Hrk & _ & _ & _ & Hs & _); [by rewrite Hk1|done|].
  rewrite Hrk, Hs. by split_and!.
Defined.

(** Creation checks the sizes and reopening is exact: [create] either refuses a
    page size that is not a power of two from 4096 up, or a page that cannot hold
    a record of each format, or gives a file that represents the empty list; and
    [open] on the bytes of any tree file gives back the very tree. *)
Theorem btree_create_reopen ks vs ps t es :
  u32_ok ks -> u32_ok vs -> u32_ok ps -> 0 < ks + vs -> tree_ok t es ->
  match create ks vs ps with
  | Ok t => tree_ok t [] /\ bt_open (ps_file (store t)) = Ok t /\ key_size t = ks /\ value_size t = vs /\ page_size t = ps
  | Err _ => ~ fits_page ks vs ps
  | Panic => False
  end /\ bt_open (ps_file (store t)) = Ok t.
Proof.
  intros Hk Hv Hp Hkv Ht. split; [|by apply (bt_open_ok _ es)]. pose proof (create_ok ks vs ps Hk Hv Hp Hkv) as H.
  destruct (create ks vs ps); [|done..]. destruct H as (H & ? & ? & ? & _). split_and!; try done. by apply (bt_open_ok _ []).
Qed.

Lemma btree_create_reopen_witness : exists t, create 1 1 4096 = Ok t /\ bt_open (ps_file (store t)) = Ok t.
Proof.
  pose proof (λ t, btree_create_reopen 1 1 4096 t [] ltac:(done) ltac:(done) ltac:(done) ltac:(done)) as H.
  destruct small_tree as (t & Hc & Ht & _). exists t. split; [exact Hc|]. exact (proj2 (H t Ht)).
Defined.

(** Rebuilding sorts: whatever the file held, [rebuild_from] on entries of the
    tree's sizes with distinct keys gives a file that represents those entries in
    key order, built bottom up with every page but the last of a level full. *)
Theorem btree_rebuild_sorts t entries :
  geometry_ok t -> Forall (leaf_record_ok (key_size t) (value_size t)) entries -> NoDup (map kz entries) ->
  (3 * zlen entries + 2) * page_size t < 2 ^ 64 ->
  exists t' es, rebuild_from t entries = Ok t' /\ tree_ok t' es /\ sorted_entries es /\ es ≡ₚ entries /\ same_geometry t t'.
Proof.
  intros HG HF Hnd Hroom. destruct (rebuild_from_ok t entries HG HF Hnd Hroom) as (t' & Hr & Ht & Hs).
  exists t', (sort_entries entries). split_and!; try done; [|apply sort_entries_perm].
  apply (sort_entries_sorted (key_size t)); [|done]. eapply Forall_impl; [exact HF|]. by intros ? [? _].
Qed.

Lemma btree_rebuild_sorts_witness :
  exists t t' es, create 1 1 4096 = Ok t /\ rebuild_from t [byte_entry 9 1; byte_entry 4 2] = Ok t' /\ tree_ok t' es /\
    es ≡ₚ [byte_entry 9 1; byte_entry 4 2] /\ sorted_entries es.
Proof.
  destruct small_tree as (t & Hc & Ht & Hk & Hv & Hp & Hr). destruct Ht as (_ & _ & _ & G & h & ls & ps & HR & _).
  destruct (btree_rebuild_sorts t [byte_entry 9 1; byte_entry 4 2]) as (t' & es & H1 & H2 & H3 & H4 & _).
  - apply HR.
  - rewrite Hk, Hv. by repeat constructor.
  - by apply (bool_decide_unpack _).
  - by rewrite Hp.
  - exists t, t', es. split; [exact Hc|by split_and!].
Defined.
