(* ===== verification/RankedTree.v ===== *)
(** * The ordered file its clients see

    Ranked indexes, partitions and histories each keep one page file of
    [crates/seisin-storage/src/btree.rs] and use it through a few calls. This file
    states those calls and their laws as an interface, a list of entries in key
    order, and gives the B+Tree as its implementation, from the lemmas of
    [BTreeSpec.v] and [BTreeQuery.v]. *)

From S2P Require Import Prelude Pages BTree BTreeRep BTreeDisk BTreeQuery BTreeInsert BTreeSpec.

(** The calls. A read leaves the tree alone, although it seeks the file. *)
Class RankedTree (T : Type) := {
  rt_insert : T -> bytes -> bytes -> res T;
  rt_remove : T -> bytes -> res (bool * T);
  rt_len : T -> Z;
  rt_rank_of_key : T -> bytes -> res (option Z);
  rt_rank_of_floor : T -> bytes -> res (option Z);
  rt_scan_from_rank : T -> Z -> nat -> res (list (bytes * bytes));
  rt_scan_forward : T -> nat -> res (list (bytes * bytes));
  rt_scan_backward : T -> nat -> res (list (bytes * bytes));
  rt_sample : T -> nat -> res (list (bytes * bytes))
}.

(** An entry of a file with these sizes. *)
Definition sized (ks vs : Z) (e : bytes * bytes) : Prop := zlen e.1 = ks /\ zlen e.2 = vs.

(** [holds t es]: the file is the list [es]. [room n t]: it can grow by [n]
    insertions. *)
Class RankedTreeLaws (T : Type) `{!RankedTree T} (ks vs : Z)
    (holds : T -> list (bytes * bytes) -> Prop) (room : nat -> T -> Prop) : Prop := {
  rt_sorted t es : holds t es -> sorted_entries es;
  rt_sized t es : holds t es -> Forall (sized ks vs) es;
  rt_insert_law t es key value n : holds t es -> sized ks vs (key, value) -> room (S n) t ->
    exists t', rt_insert t key value = Ok t' /\ holds t' (put_entry (key, value) es) /\ room n t';
  rt_insert_size t es key value : holds t es -> ~ sized ks vs (key, value) -> exists m, rt_insert t key value = Err m;
  rt_remove_law t es key : holds t es -> zlen key = ks ->
    exists t', rt_remove t key = Ok (has (from_be key) es, t') /\ holds t' (del_entry (from_be key) es) /\
      forall n, room n t -> room n t';
  rt_remove_size t es key : holds t es -> zlen key <> ks -> exists m, rt_remove t key = Err m;
  rt_len_law t es : holds t es -> rt_len t = zlen es;
  rt_rank_of_key_law t es key : holds t es -> zlen key = ks ->
    rt_rank_of_key t key = Ok (if has (from_be key) es then Some (zlen (below (from_be key) es)) else None);
  rt_rank_of_floor_law t es key : holds t es -> zlen key = ks ->
    rt_rank_of_floor t key = Ok (floor_rank (from_be key) es);
  rt_scan_law t es (rank : Z) n : holds t es -> 0 <= rank ->
    rt_scan_from_rank t rank n = Ok (take n (drop (Z.to_nat rank) es));
  rt_forward_law t es n : holds t es -> rt_scan_forward t n = Ok (take n es);
  rt_backward_law t es n : holds t es -> rt_scan_backward t n = Ok (take n (rev es));
  rt_sample_law t es k : holds t es -> Z.of_nat k * zlen es < 2 ^ 64 ->
    exists samples, rt_sample t k = Ok samples /\ length samples = (if zlen es =? 0 then 0%nat else k) /\
      forall i e, samples !! i = Some e -> es !! Z.to_nat (Z.of_nat i * zlen es / Z.of_nat k) = Some e
}.

(** ** Composite keys

    A key of two parts orders by the first, then the second. *)

Lemma kz_pair_lt (a b a' b' v v' : bytes) :
  zlen b = zlen b' ->
  kz (a ++ b, v) < kz (a' ++ b', v') <-> from_be a < from_be a' \/ (from_be a = from_be a' /\ from_be b < from_be b').
Proof.
  intros Hb. unfold kz. simpl. rewrite !from_be_app, Hb.
  pose proof (from_be_range b) as [B1 B2]. pose proof (from_be_range b') as [B1' B2']. rewrite Hb in B2.
  set (p := 2 ^ (8 * zlen b')) in *. split; [|nia].
  intros H. destruct (Z.lt_total (from_be a) (from_be a')) as [|[E|]]; [by left|right; split; [done|]; rewrite E in H; lia|nia].
Qed.

Lemma kz_pair_eq (a b a' b' v v' : bytes) :
  zlen a = zlen a' -> zlen b = zlen b' -> kz (a ++ b, v) = kz (a' ++ b', v') -> a = a' /\ b = b'.
Proof.
  intros Ha Hb H. unfold kz in H. simpl in H. apply from_be_inj in H; [|rewrite !zlen_app; lia].
  apply app_inj_1 in H; [done|]. unfold zlen in Ha. lia.
Qed.

(** ** The list around a key *)

Lemma below_app k as_ bs : below k (as_ ++ bs) = below k as_ ++ below k bs.
Proof. apply filter_app. Qed.
Lemma above_app k as_ bs : above k (as_ ++ bs) = above k as_ ++ above k bs.
Proof. apply filter_app. Qed.

(** Putting an entry between smaller and greater keys, with or without one there. *)
Lemma put_between e as_ bs :
  Forall (λ x, kz x < kz e) as_ -> Forall (λ x, kz e < kz x) bs -> put_entry e (as_ ++ bs) = as_ ++ e :: bs.
Proof.
  intros (Ha & Ha' & _)%below_all (Hb & Hb' & _)%above_all. unfold put_entry.
  by rewrite below_app, above_app, Ha, Ha', Hb, Hb', app_nil_r.
Qed.

Lemma put_over e x as_ bs :
  sorted_entries (as_ ++ x :: bs) -> kz x = kz e -> put_entry e (as_ ++ x :: bs) = as_ ++ e :: bs.
Proof.
  intros Hs E. apply sorted_app in Hs as (_ & Hs & Hab). apply sorted_inv in Hs as [_ Hx].
  assert (put_entry e (as_ ++ bs) = as_ ++ e :: bs) as <-.
  { apply put_between; [|by rewrite <- E]. eapply Forall_impl; [exact Hab|]. intros y Hy%Forall_inv. by rewrite <- E. }
  unfold put_entry. rewrite !below_app, !above_app. unfold below, above. by rewrite !filter_cons_False by lia.
Qed.

Lemma del_between x as_ bs :
  sorted_entries (as_ ++ x :: bs) -> del_entry (kz x) (as_ ++ x :: bs) = as_ ++ bs.
Proof.
  intros Hs. apply sorted_app in Hs as (_ & Hs & Hab). apply sorted_inv in Hs as [_ Hx].
  assert (Forall (λ y, kz y < kz x) as_) as Ha by (eapply Forall_impl; [exact Hab|]; by intros y Hy%Forall_inv).
  apply below_all in Ha as (Ha & Ha' & _). apply above_all in Hx as (Hb & Hb' & _).
  unfold del_entry. rewrite below_app, above_app, Ha, Ha'. unfold below, above in *.
  by rewrite !filter_cons_False, Hb, Hb', app_nil_r by lia.
Qed.

(** The entry of the greatest key at most [k], and what lies around it. *)
Lemma floor_split k es :
  sorted_entries es ->
  (floor_rank k es = None /\ Forall (λ e, k < kz e) es) \/
  (exists as_ e bs, es = as_ ++ e :: bs /\ kz e <= k /\ Forall (λ x, k < kz x) bs /\ floor_rank k es = Some (zlen as_)).
Proof.
  intros Hs. unfold floor_rank. destruct (sorted_at k es Hs) as [[Hh E]|(e & Hh & He & E)]; rewrite Hh; simpl.
  - pose proof (below_lt k es) as Hb. destruct (last (below k es)) as [e|] eqn:E0; [apply last_Some in E0 as [as_ E0]|apply last_None in E0].
    2: { left. rewrite E0 in *. split; [done|]. rewrite E. apply above_gt. }
    right. exists as_, e, (above k es). rewrite E0 in Hb. apply Forall_app in Hb as [_ Hb%Forall_inv].
    split; [by rewrite E at 1; rewrite E0, <- app_assoc|]. split; [lia|]. split; [apply above_gt|].
    rewrite E0, zlen_app. pose proof (zlen_nonneg as_). rewrite zlen_cons, zlen_nil.
    rewrite (proj2 (Z.eqb_neq _ _)) by lia. f_equal. lia.
  - right. exists (below k es), e, (above k es). split; [done|]. split; [lia|]. split; [apply above_gt|].
    pose proof (zlen_nonneg (below k es)). rewrite (proj2 (Z.eqb_neq _ _)) by lia. f_equal. lia.
Qed.

(** ** A file as a set

    What the entries of a client stand for: [f] writes an element as an entry, the
    keys of different elements differ. *)

Lemma elem_of_put e es x : x ∈ put_entry e es <-> x = e \/ (x ∈ es /\ kz x <> kz e).
Proof.
  unfold put_entry, below, above. rewrite elem_of_app, elem_of_cons, !list_elem_of_filter.
  destruct (Z.lt_total (kz x) (kz e)) as [|[E|]]; naive_solver lia.
Qed.

Lemma elem_of_del k es x : x ∈ del_entry k es <-> x ∈ es /\ kz x <> k.
Proof.
  unfold del_entry, below, above. rewrite elem_of_app, !list_elem_of_filter.
  destruct (Z.lt_total (kz x) k) as [|[E|]]; naive_solver lia.
Qed.

Lemma has_spec k es : has k es = true <-> exists e, e ∈ es /\ kz e = k.
Proof.
  unfold has. rewrite existsb_exists. setoid_rewrite Z.eqb_eq. by setoid_rewrite <- list_elem_of_In.
Qed.

Lemma sorted_unique es es' : sorted_entries es -> sorted_entries es' -> (forall x, x ∈ es <-> x ∈ es') -> es = es'.
Proof.
  revert es'. induction es as [|e es IH]; intros es' Hs Hs' Heq.
  { destruct es' as [|e' es']; [done|]. exfalso. eapply elem_of_nil, Heq. left. }
  destruct es' as [|e' es']; [exfalso; eapply elem_of_nil, Heq; left|].
  apply sorted_inv in Hs as [Hs HF], Hs' as [Hs' HF']. rewrite Forall_forall in HF, HF'.
  assert (e = e') as <-.
  { pose proof (proj1 (Heq e) ltac:(left)) as He. pose proof (proj2 (Heq e') ltac:(left)) as He'.
    apply elem_of_cons in He as [|He]; [done|]. apply elem_of_cons in He' as [|He']; [done|].
    specialize (HF _ He'). specialize (HF' _ He). lia. }
  f_equal. apply IH; [done..|]. intros x. specialize (Heq x). rewrite !elem_of_cons in Heq. split; intros Hx.
  - destruct (proj1 Heq (or_intror Hx)) as [->|]; [specialize (HF _ Hx); lia|done].
  - destruct (proj2 Heq (or_intror Hx)) as [->|]; [specialize (HF' _ Hx); lia|done].
Qed.

Lemma map_preimage {X Y} (f : X -> Y) (P : X -> Prop) ys :
  Forall (λ y, exists x, P x /\ y = f x) ys -> exists xs, ys = map f xs /\ Forall P xs.
Proof. induction 1 as [|y ys (x & Hx & ->) _ (xs & -> & IH)]; [by exists []|]. exists (x :: xs). by split; [|constructor]. Qed.

Section set.
Context {X : Type} `{Countable X} (f : X -> bytes * bytes) (dom : X -> Prop).
Hypothesis f_key : forall x y, dom x -> dom y -> kz (f x) = kz (f y) -> x = y.

(** [es] is the set [B], [xs] its elements in the order of their keys. *)
Definition lists (xs : list X) (B : gset X) (es : list (bytes * bytes)) : Prop :=
  es = map f xs /\ sorted_entries es /\ (forall x, x ∈ xs <-> x ∈ B) /\ forall x, x ∈ B -> dom x.

Lemma lists_of B es :
  sorted_entries es -> (forall x, x ∈ B -> dom x) -> (forall e, e ∈ es <-> exists x, x ∈ B /\ e = f x) ->
  exists xs, lists xs B es.
Proof.
  intros Hs Hd He. destruct (map_preimage f (.∈ B) es) as (xs & -> & Hx); [apply Forall_forall; intros e; apply He|].
  rewrite Forall_forall in Hx.
  exists xs. split; [done|]. split; [done|]. split; [|done]. intros x. split; [by apply Hx|]. intros HB.
  assert (f x ∈ map f xs) as (y & Ey & Hy)%list_elem_of_fmap by (apply He; by exists x).
  rewrite (f_key x y); [done|by apply Hd|by apply Hd, Hx|by rewrite Ey].
Qed.

Lemma lists_elem xs B es e : lists xs B es -> e ∈ es <-> exists x, x ∈ B /\ e = f x.
Proof.
  intros (-> & _ & Hx & _). rewrite list_elem_of_fmap. split; intros (x & H1 & H2); exists x; [|by rewrite Hx].
  by rewrite <- Hx.
Qed.

Lemma lists_put xs B es x : lists xs B es -> dom x -> exists xs', lists xs' ({[x]} ∪ B) (put_entry (f x) es).
Proof.
  intros HL Hx. pose proof HL as (_ & Hs & _ & Hd). apply lists_of; [by apply put_sorted|set_solver|].
  intros e. rewrite elem_of_put, (lists_elem _ _ _ _ HL). split.
  - intros [->|[(y & Hy & ->) _]]; [exists x|exists y]; set_solver.
  - intros (y & [->%elem_of_singleton|Hy]%elem_of_union & ->); [by left|].
    destruct (decide (x = y)) as [->|Hne]; [by left|right]. split; [by exists y|]. intros E. apply Hne. symmetry. by apply f_key; [apply Hd|..].
Qed.

Lemma lists_del xs B es x : lists xs B es -> dom x -> exists xs', lists xs' (B ∖ {[x]}) (del_entry (kz (f x)) es).
Proof.
  intros HL Hx. pose proof HL as (_ & Hs & _ & Hd). apply lists_of; [by apply del_sorted|set_solver|].
  intros e. rewrite elem_of_del, (lists_elem _ _ _ _ HL). split.
  - intros [(y & Hy & ->) Hne]. exists y. split; [|done]. apply elem_of_difference. split; [done|].
    intros ->%elem_of_singleton. done.
  - intros (y & [Hy Hne]%elem_of_difference & ->). split; [by exists y|]. intros E. apply Hne, elem_of_singleton.
    by apply f_key; [apply Hd|..].
Qed.
End set.

(** ** The B+Tree implements it *)

#[export] Instance btree_ranked : RankedTree BPlusTree := {
  rt_insert := bt_insert;
  rt_remove := bt_remove;
  rt_len := total_count;
  rt_rank_of_key := rank_of_key;
  rt_rank_of_floor := rank_of_floor;
  rt_scan_from_rank := scan_from_rank;
  rt_scan_forward := scan_forward_bounded;
  rt_scan_backward := scan_backward_bounded;
  rt_sample := sample_by_rank
}.

Definition bt_holds (ks vs : Z) (t : BPlusTree) (es : list (bytes * bytes)) : Prop :=
  tree_ok t es /\ key_size t = ks /\ value_size t = vs.

(** Room for [n] insertions: each allocates at most two pages more than the
    tree is high, and makes it at most one level higher. *)
Definition bt_room (n : nat) (t : BPlusTree) : Prop :=
  (exists h, tree_height t h /\ (next_page_id t + Z.of_nat n * (Z.of_nat h + Z.of_nat n + 2)) * page_size t < 2 ^ 64) /\
  total_count t + Z.of_nat n < 2 ^ 64 /\ 0 <= page_size t.

Lemma bt_room_less n t : bt_room (S n) t -> bt_room n t.
Proof.
  intros ((h & Hh & H1) & H2 & H3). split; [|lia]. exists h. split; [done|].
  eapply Z.le_lt_trans; [|exact H1]. apply Z.mul_le_mono_nonneg_r; nia.
Qed.

Lemma del_absent k es : has k es = false -> sorted_entries es -> del_entry k es = es.
Proof. intros Hh Hs. destruct (sorted_at k es Hs) as [[_ E]|(e & He & _)]; [by symmetry|congruence]. Qed.

Lemma tree_ok_list t es : tree_ok t es -> sorted_entries es /\ Forall (sized (key_size t) (value_size t)) es.
Proof.
  intros (_ & _ & _ & G & h & ls & ps & HR & HT & _ & _ & ->). split; [by destruct (tree_rep_good _ _ _ _ _ _ _ HT)|].
  pose proof (tree_rep_leaves _ _ _ _ _ _ _ HT) as HL. unfold ents. apply Forall_flat_map. eapply Forall_impl; [exact HL|].
  intros l (n & Hn & <-). eapply Forall_impl; [exact (repr_leaf_records HR _ _ Hn)|]. by intros e [? ?].
Qed.

#[export] Instance btree_laws ks vs : RankedTreeLaws BPlusTree ks vs (bt_holds ks vs) bt_room.
Proof.
  split.
  - intros t es (Ht & _). exact (proj1 (tree_ok_list _ _ Ht)).
  - intros t es (Ht & <- & <-). exact (proj2 (tree_ok_list _ _ Ht)).
  - intros t es key value n (Ht & <- & <-) [Hk Hv] (H1 & H2 & H3). simpl in Hk, Hv.
    destruct H1 as (h & Hh & H1). pose proof (proj1 (proj2 Ht)) as Htot. rewrite Nat2Z.inj_succ in *.
    destruct (bt_insert_ok t es key value Ht Hk Hv) as (t' & h1 & h' & Hi & Ht' & (Ek & Ev & Ep) & Hh1 & Hh' & Hle & Hn); [lia| |].
    { intros h1 Hh1. rewrite (tree_height_unique _ _ _ Hh1 Hh). eapply Z.le_lt_trans; [|exact H1]. apply Z.mul_le_mono_nonneg_r; [done|].
      unfold split_room. nia. }
    rewrite (tree_height_unique _ _ _ Hh1 Hh) in *. unfold split_room in Hn.
    exists t'. split; [exact Hi|]. split; [done|]. pose proof (proj1 (proj2 Ht')) as Htot'.
    pose proof (zlen_put (key, value) es (proj1 (tree_ok_list _ _ Ht))) as Hl. split; [|destruct (has _ es); simpl in Hl; lia].
    exists h'. split; [done|]. rewrite Ep. eapply Z.le_lt_trans; [|exact H1]. apply Z.mul_le_mono_nonneg_r; nia.
  - intros t es key value (Ht & <- & <-) Hn. unfold rt_insert, btree_ranked, bt_insert.
    destruct (Z.eqb_spec (zlen key) (key_size t)); [|by eexists]. destruct (Z.eqb_spec (zlen value) (value_size t)); [|by eexists].
    by destruct Hn.
  - intros t es key (Ht & <- & <-) Hk. destruct (bt_remove_ok t es key Ht Hk) as (t' & Hr & Ht' & (Ek & Ev & Ep) & Hn & Hhe).
    exists t'. split; [exact Hr|]. pose proof (proj1 (tree_ok_list _ _ Ht)) as Hs.
    destruct (has (from_be key) es) eqn:Hh; [|rewrite del_absent by done]; (split; [done|]); intros n ((h & Hht & H1) & H2 & H3);
      (split; [exists h; rewrite Ep, Hn; by auto|]); rewrite Ep; pose proof (proj1 (proj2 Ht)); pose proof (proj1 (proj2 Ht'));
      pose proof (zlen_del (from_be key) es Hs) as Hd; rewrite Hh in Hd; simpl in Hd; lia.
  - intros t es key (Ht & <- & <-) Hk. unfold rt_remove, btree_ranked, bt_remove. rewrite (proj2 (Z.eqb_neq _ _)) by done. by eexists.
  - intros t es (Ht & _). apply Ht.
  - intros t es key (Ht & <- & _) Hk. destruct Ht as (_ & Htot & Hb & G & h & ls & ps & HR & HT & Hnd & Hc & ->).
    by apply (rank_of_key_spec HR HT Hnd Hc Htot Hb).
  - intros t es key (Ht & <- & _) Hk. destruct Ht as (_ & Htot & Hb & G & h & ls & ps & HR & HT & Hnd & Hc & ->).
    by apply (rank_of_floor_spec HR HT Hnd Hc Htot Hb).
  - intros t es rank n (Ht & _) Hr. destruct Ht as (_ & Htot & Hb & G & h & ls & ps & HR & HT & Hnd & Hc & ->).
    by apply (scan_from_rank_spec HR HT Hnd Hc Htot).
  - intros t es n (Ht & _). destruct Ht as (_ & Htot & Hb & G & h & ls & ps & HR & HT & Hnd & Hc & ->).
    apply (scan_forward_spec HR HT Hnd Hc Htot).
  - intros t es n (Ht & _). destruct Ht as (_ & Htot & Hb & G & h & ls & ps & HR & HT & Hnd & Hc & ->).
    apply (scan_backward_spec HR HT Hnd Hc).
  - intros t es k (Ht & _) Hk. destruct Ht as (_ & Htot & Hb & G & h & ls & ps & HR & HT & Hnd & Hc & ->).
    rewrite <- Htot in *. by apply (sample_by_rank_spec HR HT Hnd Htot).
Qed.

(** A fresh file holds nothing and has room. *)
Lemma create_holds ks vs ps n :
  u32_ok ks -> u32_ok vs -> u32_ok ps -> 0 < ks + vs -> fits_page ks vs ps -> Z.of_nat n <= 2 ^ 15 ->
  exists t, create ks vs ps = Ok t /\ bt_holds ks vs t [] /\ bt_room n t.
Proof.
  intros Hk Hv Hp Hkv Hf Hn. pose proof (create_ok ks vs ps Hk Hv Hp Hkv) as H. destruct (create ks vs ps) as [t| |]; [|done..].
  destruct H as (Ht & Ek & Ev & Ep & En). exists t. split; [done|]. split; [done|]. pose proof (proj1 (proj2 Ht)) as Htot.
  rewrite zlen_nil in Htot. unfold uint_ok in Hp. split; [|lia].
  pose proof Ht as (_ & _ & _ & G & h & ls & pgs & HR & HT & Hnd & _). exists h. split; [by exists G, ls, pgs|].
  pose proof (pages_bound _ _ _ HR Hnd (tree_rep_pages _ _ _ _ _ _ _ HT)) as Hpb. unfold fuel_of in Hpb.
  pose proof (tree_rep_height _ _ _ _ _ _ _ HT). rewrite Ep, En in *. nia.
Qed.
