(* ===== verification/Fields.v ===== *)
(** * seisin-types: field shapes, values and their encoding

    Models [crates/seisin-types/src/field.rs] and [encoding.rs]. An [i64] is its
    value, an [f64] its 64 bits (the encoding moves the bits, [PartialEq] and the
    comparisons are those of IEEE 754), a [String] its UTF-8 bytes. *)

From S2P Require Import Prelude Codec.

(** ** field.rs *)

Inductive PrimitiveFieldType := PrimBool | PrimI64 | PrimF64 | PrimString | PrimBytes.

Inductive FieldType :=
| TyBool
| TyI64
| TyF64
| TyString
| TyBytes
| TyArray (inner : FieldType)
| TyDict (key : PrimitiveFieldType) (value : FieldType).

#[global] Instance PrimitiveFieldType_eq_dec : EqDecision PrimitiveFieldType.
Proof. solve_decision. Defined.
#[global] Instance FieldType_eq_dec : EqDecision FieldType.
Proof. solve_decision. Defined.

Definition of_primitive (p : PrimitiveFieldType) : FieldType :=
  match p with
  | PrimBool => TyBool
  | PrimI64 => TyI64
  | PrimF64 => TyF64
  | PrimString => TyString
  | PrimBytes => TyBytes
  end.

Inductive FieldValue :=
| FBool (b : bool)
| FI64 (i : Z)
| FF64 (bits : Z)
| FString (s : bytes)
| FBytes (b : bytes)
| FArray (items : list FieldValue)
| FDict (entries : list (FieldValue * FieldValue)).

(** *** [f64]: the order and equality of the values behind the bits *)

Definition f64_magnitude (bits : Z) : Z := bits mod 2 ^ 63.
Definition f64_is_nan (bits : Z) : bool := 9218868437227405312 <? f64_magnitude bits.
(** Both zeros are 0; elsewhere the magnitudes order as their bit patterns. *)
Definition f64_order (bits : Z) : Z := if bits <? 2 ^ 63 then f64_magnitude bits else - f64_magnitude bits.

Definition f64_eqb (a b : Z) : bool := negb (f64_is_nan a) && negb (f64_is_nan b) && (f64_order a =? f64_order b).
Definition f64_ltb (a b : Z) : bool := negb (f64_is_nan a) && negb (f64_is_nan b) && (f64_order a <? f64_order b).
Definition f64_leb (a b : Z) : bool := negb (f64_is_nan a) && negb (f64_is_nan b) && (f64_order a <=? f64_order b).

(** The derived [PartialEq]. *)
Fixpoint value_eqb (a b : FieldValue) : bool :=
  match a, b with
  | FBool a, FBool b => eqb a b
  | FI64 a, FI64 b => a =? b
  | FF64 a, FF64 b => f64_eqb a b
  | FString a, FString b => bool_decide (a = b)
  | FBytes a, FBytes b => bool_decide (a = b)
  | FArray a, FArray b =>
      (fix go a b := match a, b with
                     | [], [] => true
                     | x :: a, y :: b => value_eqb x y && go a b
                     | _, _ => false
                     end) a b
  | FDict a, FDict b =>
      (fix go a b := match a, b with
                     | [], [] => true
                     | (k, v) :: a, (k', v') :: b => value_eqb k k' && value_eqb v v' && go a b
                     | _, _ => false
                     end) a b
  | _, _ => false
  end.

Fixpoint value_matches_type (value : FieldValue) (ty : FieldType) : bool :=
  match value, ty with
  | FBool _, TyBool => true
  | FI64 _, TyI64 => true
  | FF64 _, TyF64 => true
  | FString _, TyString => true
  | FBytes _, TyBytes => true
  | FArray items, TyArray inner => forallb (λ item, value_matches_type item inner) items
  | FDict entries, TyDict key_ty val_ty =>
      forallb (λ '(k, v), value_matches_type k (of_primitive key_ty) && value_matches_type v val_ty) entries
  | _, _ => false
  end.

(** ** encoding.rs *)

Definition encode_len_prefixed (bs : bytes) : bytes := to_le 4 (wrap 32 (zlen bs)) ++ bs.

Fixpoint encode_field_value (value : FieldValue) : bytes :=
  match value with
  | FBool b => [put_bool b]
  | FI64 i => to_le 8 (as_u64 i)
  | FF64 bits => to_le 8 bits
  | FString s => encode_len_prefixed s
  | FBytes b => encode_len_prefixed b
  | FArray items => to_le 4 (wrap 32 (zlen items)) ++ flat_map encode_field_value items
  | FDict entries =>
      to_le 4 (wrap 32 (zlen entries)) ++ flat_map (λ '(k, v), encode_field_value k ++ encode_field_value v) entries
  end.

Definition read_bytes (len : Z) : cur bytes := take_n len "buffer truncated".
Definition read_u32 : cur Z := v ← read_bytes 4; mret (from_le v).
Definition decode_len_prefixed : cur bytes := len ← read_u32; read_bytes len.

(** The arms of [decode_field_value] without a nested type. *)
Definition decode_primitive (ty : PrimitiveFieldType) : cur FieldValue :=
  match ty with
  | PrimBool =>
      v ← read_bytes 1; b ← cur_lift (index v 0); mret (FBool (negb (byte_val b =? 0)))
  | PrimI64 => v ← read_bytes 8; mret (FI64 (as_i64 (from_le v)))
  | PrimF64 => v ← read_bytes 8; mret (FF64 (from_le v))
  | PrimString => v ← decode_len_prefixed; s ← cur_lift (from_utf8 v); mret (FString s)
  | PrimBytes => v ← decode_len_prefixed; mret (FBytes v)
  end.

Fixpoint decode_field_value (ty : FieldType) : cur FieldValue :=
  match ty with
  | TyBool => decode_primitive PrimBool
  | TyI64 => decode_primitive PrimI64
  | TyF64 => decode_primitive PrimF64
  | TyString => decode_primitive PrimString
  | TyBytes => decode_primitive PrimBytes
  | TyArray inner =>
      count ← read_u32;
      items ← cur_repeat (Z.to_nat count) (decode_field_value inner);
      mret (FArray items)
  | TyDict key_ty val_ty =>
      count ← read_u32;
      entries ← cur_repeat (Z.to_nat count)
        (key ← decode_primitive key_ty; value ← decode_field_value val_ty; mret (key, value));
      mret (FDict entries)
  end.

Lemma decode_of_primitive p : decode_field_value (of_primitive p) = decode_primitive p.
Proof. by destruct p. Qed.

(** ** Values the encoding carries *)

Section all_of.
Context {A : Type}.
Variable P : A -> Prop.

Fixpoint all_of (l : list A) : Prop := match l with [] => True | x :: l => P x /\ all_of l end.

Lemma all_of_Forall l : all_of l <-> Forall P l.
Proof.
  induction l as [|x l IH]; simpl; [by split; [constructor|]|]. rewrite Forall_cons. by rewrite IH.
Qed.
End all_of.

(** Integers and floats in range, strings well formed, every length in a [u32]. *)
Fixpoint value_ok (v : FieldValue) : Prop :=
  match v with
  | FBool _ => True
  | FI64 i => i64_ok i
  | FF64 bits => u64_ok bits
  | FString s => string_ok s
  | FBytes b => field_ok b
  | FArray items => u32_ok (zlen items) /\ all_of value_ok items
  | FDict entries => u32_ok (zlen entries) /\ all_of (λ '(k, v), value_ok k /\ value_ok v) entries
  end.

Section value_induction.
Variable P : FieldValue -> Prop.
Hypothesis Hbool : forall b, P (FBool b).
Hypothesis Hi64 : forall i, P (FI64 i).
Hypothesis Hf64 : forall b, P (FF64 b).
Hypothesis Hstring : forall s, P (FString s).
Hypothesis Hbytes : forall b, P (FBytes b).
Hypothesis Harray : forall items, Forall P items -> P (FArray items).
Hypothesis Hdict : forall entries, Forall (λ '(k, v), P k /\ P v) entries -> P (FDict entries).

Fixpoint FieldValue_nested_ind (v : FieldValue) : P v :=
  match v with
  | FBool b => Hbool b
  | FI64 i => Hi64 i
  | FF64 b => Hf64 b
  | FString s => Hstring s
  | FBytes b => Hbytes b
  | FArray items =>
      Harray items ((fix go l : Forall P l :=
        match l with [] => Forall_nil_2 _ | x :: l => Forall_cons_2 _ _ _ (FieldValue_nested_ind x) (go l) end) items)
  | FDict entries =>
      Hdict entries ((fix go l : Forall (λ '(k, v), P k /\ P v) l :=
        match l with
        | [] => Forall_nil_2 _
        | (k, v) :: l =>
            Forall_cons_2 (λ '(k, v), P k /\ P v) (k, v) l
              (conj (FieldValue_nested_ind k) (FieldValue_nested_ind v)) (go l)
        end) entries)
  end.
End value_induction.

(** ** The decoder inverts the encoder on well-typed values *)

Lemma parses_read_u32 z : u32_ok z -> parses read_u32 (to_le 4 z) z.
Proof. apply (parses_take_le 4). Qed.
Lemma decodes_read_u32 : decodes read_u32 (λ b _ z, b = to_le 4 z /\ u32_ok z).
Proof. apply (decodes_take_le 4). Qed.

Lemma parses_len_prefixed bs : field_ok bs -> parses decode_len_prefixed (encode_len_prefixed bs) bs.
Proof.
  intros H. unfold decode_len_prefixed, encode_len_prefixed. rewrite wrap_small by done.
  eapply parses_bind; [by apply parses_read_u32|]. by apply parses_take_n.
Qed.
Lemma decodes_len_prefixed : decodes decode_len_prefixed (λ b _ bs, b = encode_len_prefixed bs /\ field_ok bs).
Proof.
  unfold decode_len_prefixed. eapply decodes_bind; [apply decodes_read_u32|]. intros b n [r [-> Hn]].
  eapply decodes_weaken; [apply decodes_take_n; apply Hn|]. intros b' r' bs [-> Hl] [_ Hn'].
  unfold encode_len_prefixed, field_ok. rewrite Hl, wrap_small by done. done.
Qed.

#[export] Hint Resolve parses_read_u32 decodes_read_u32 parses_len_prefixed decodes_len_prefixed : codec.

Lemma parses_primitive p v :
  value_ok v -> value_matches_type v (of_primitive p) = true -> parses (decode_primitive p) (encode_field_value v) v.
Proof.
  intros Hv Ht. destruct p, v; try done; simpl in Hv |- *.
  - unfold read_bytes. eapply parses_bind_nil; [by apply parses_take_n|]. rewrite index_0.
    eapply parses_bind_nil; [apply parses_lift|]. unfold put_bool.
    replace (negb _) with b by (destruct b; by rewrite byte_val_u8_small). apply parses_ret.
  - unfold read_bytes. eapply parses_bind_nil; [by apply parses_take_n, zlen_to_le|].
    rewrite from_le_to_le by (by apply wrap_ok). rewrite as_i64_as_u64 by done. apply parses_ret.
  - unfold read_bytes. eapply parses_bind_nil; [by apply parses_take_n, zlen_to_le|].
    rewrite from_le_to_le by done. apply parses_ret.
  - destruct Hv as [Hf Hu]. eapply parses_bind_nil; [by apply parses_len_prefixed|].
    eapply parses_bind_nil; [by apply parses_from_utf8|]. apply parses_ret.
  - eapply parses_bind_nil; [by apply parses_len_prefixed|]. apply parses_ret.
Qed.

Lemma parses_field_value v ty :
  value_ok v -> value_matches_type v ty = true -> parses (decode_field_value ty) (encode_field_value v) v.
Proof.
  revert ty. induction v using FieldValue_nested_ind; intros ty Hv Ht; destruct ty as [| | | | |inner|key_ty val_ty]; try done;
    try (by apply (parses_primitive PrimBool)); try (by apply (parses_primitive PrimI64));
    try (by apply (parses_primitive PrimF64)); try (by apply (parses_primitive PrimString));
    try (by apply (parses_primitive PrimBytes)).
  - simpl in Hv, Ht |- *. destruct Hv as [Hl HF]. rewrite wrap_small by done. rewrite all_of_Forall in HF.
    eapply parses_bind; [by apply parses_read_u32|]. eapply parses_bind_nil; [|apply parses_ret].
    apply parses_repeat; [|unfold zlen; lia]. intros x Hx. rewrite Forall_forall in H, HF.
    apply H; [done|by apply HF|]. rewrite forallb_forall in Ht. by apply Ht, list_elem_of_In.
  - simpl in Hv, Ht |- *. destruct Hv as [Hl HF]. rewrite wrap_small by done. rewrite all_of_Forall in HF.
    eapply parses_bind; [by apply parses_read_u32|]. eapply parses_bind_nil; [|apply parses_ret].
    apply parses_repeat; [|unfold zlen; lia]. intros [k v] Hx. rewrite Forall_forall in H, HF.
    rewrite forallb_forall in Ht. specialize (H _ Hx). specialize (HF _ Hx). simpl in H, HF.
    specialize (Ht (k, v) ltac:(by apply list_elem_of_In)). apply andb_prop in Ht as [Ht1 Ht2].
    destruct HF as [HF1 HF2], H as [_ H2]. eapply parses_bind; [by apply parses_primitive|]. eapply parses_bind_nil; [by apply H2|]. apply parses_ret.
Qed.

(** ** What decoding gives is well typed *)

Definition typed (ty : FieldType) (v : FieldValue) : Prop := value_ok v /\ value_matches_type v ty = true.

Lemma decodes_primitive p : decodes (decode_primitive p) (λ _ _ v, typed (of_primitive p) v).
Proof.
  unfold typed. destruct p; simpl.
  - eapply decodes_bind; [by apply decodes_take_n|]. intros b v [r [_ Hl]].
    destruct v as [|x [|y l]]; [done| |by rewrite !zlen_cons in Hl; pose proof (zlen_nonneg l); lia].
    rewrite index_0. eapply decodes_bind; [by apply (decodes_lift _ (λ _, True))|]. intros ? ? _. by apply decodes_ret.
  - eapply decodes_bind; [by apply decodes_take_n|]. intros b v [r [_ Hl]]. apply decodes_ret. intros _ _. split; [|done].
    apply as_i64_ok. pose proof (from_le_range v) as HR. by rewrite Hl in HR.
  - eapply decodes_bind; [by apply decodes_take_n|]. intros b v [r [_ Hl]]. apply decodes_ret. intros _ _. split; [|done].
    pose proof (from_le_range v) as HR. by rewrite Hl in HR.
  - eapply decodes_bind; [apply decodes_len_prefixed|]. intros b v [r [_ Hf]].
    eapply decodes_bind; [apply decodes_from_utf8|]. intros b' s [r' (_ & -> & Hu)]. apply decodes_ret. intros _ _ _.
    by split.
  - eapply decodes_bind; [apply decodes_len_prefixed|]. intros b v [r [_ Hf]]. apply decodes_ret. intros _ _. by split.
Qed.

Lemma decodes_field_value ty : decodes (decode_field_value ty) (λ _ _ v, typed ty v).
Proof.
  induction ty as [| | | | |inner IH|key_ty val_ty IH]; try (by apply (decodes_primitive PrimBool));
    try (by apply (decodes_primitive PrimI64)); try (by apply (decodes_primitive PrimF64));
    try (by apply (decodes_primitive PrimString)); try (by apply (decodes_primitive PrimBytes)); simpl.
  - eapply decodes_bind; [apply decodes_read_u32|]. intros b n [r [_ Hn]].
    eapply decodes_bind; [by apply decodes_repeat_all|]. intros b' xs [r' [HF Hl]]. apply decodes_ret. intros _ _ _.
    split; simpl; [split|].
    + unfold zlen. rewrite Hl. unfold uint_ok in *. lia.
    + apply all_of_Forall. eapply Forall_impl; [exact HF|]. by intros x [? _].
    + apply forallb_forall. intros x Hx%list_elem_of_In. rewrite Forall_forall in HF. by apply HF.
  - eapply decodes_bind; [apply decodes_read_u32|]. intros b n [r [_ Hn]].
    eapply decodes_bind; [apply (decodes_repeat_all _ (λ e : FieldValue * FieldValue, typed (of_primitive key_ty) e.1 /\ typed val_ty e.2))|].
    { eapply decodes_bind; [apply decodes_primitive|]. intros b' k [r' Hk].
      eapply decodes_bind; [apply IH|]. intros b'' v [r'' Hv]. by apply decodes_ret. }
    intros b' xs [r' [HF Hl]]. apply decodes_ret. intros _ _ _. split; simpl; [split|].
    + unfold zlen. rewrite Hl. unfold uint_ok in *. lia.
    + apply all_of_Forall. eapply Forall_impl; [exact HF|]. intros [k v] [[? _] [? _]]. done.
    + apply forallb_forall. intros [k v] Hx%list_elem_of_In. rewrite Forall_forall in HF. specialize (HF _ Hx).
      destruct HF as [[_ H1] [_ H2]]. simpl in H1, H2. by rewrite H1, H2.
Qed.
