(* ===== verification/Names.v ===== *)
(** * Derived datum ids

    Every framework datum (a secondary-key entry list, a ranked index, a board, a
    history, a partition, a pending list, an enum key) is found by an id derived
    from a name: [sk_key] and [derived_id_namespace] of
    [crates/seisin-types/src/sk_index.rs], [rk_key] of [rk_index.rs],
    [lb_board_key] of [lb.rs], [tk_entity_key] of [tk.rs], [partition_key] of
    [partition.rs], [fk_pending_key] of [fk.rs], [enum_pk_id] of [schema.rs].
    The hash from a namespace and a name to an id is the uuid library's
    ([DatumId::from_name], version-5 UUIDs): a parameter here. *)

From S2P Require Import Prelude Core Codec Fields.

(** The UTF-8 bytes of a literal. *)
Definition lit (s : string) : bytes := String.list_byte_of_string s.

Definition derived_id_namespace : DatumId :=
  from_bytes (map u8 [94; 21; 26; 0; 209; 213; 78; 29; 154; 83; 0; 0; 0; 0; 0; 1]).

(** [format!("{b:02x}")] over the bytes of an id. *)
Definition hex_digit (n : Z) : byte := u8 (if n <? 10 then 48 + n else 87 + n).
Definition hex (bs : bytes) : bytes := flat_map (λ b, [hex_digit (byte_val b / 16); hex_digit (byte_val b mod 16)]) bs.

(** ** The names *)

(** The canonical bytes of a secondary-key value; nested values have none. *)
Definition sk_value_bytes (value : FieldValue) : option bytes :=
  match value with
  | FBool b => Some [put_bool b]
  | FI64 i => Some (to_le 8 (as_u64 i))
  | FF64 bits => Some (to_le 8 bits)
  | FString s => Some s
  | FBytes b => Some b
  | FArray _ | FDict _ => None
  end.

Definition sk_name (type_name field_name value : bytes) : bytes :=
  lit "sk:" ++ type_name ++ lit "." ++ field_name ++ lit ":" ++ value.
Definition rk_name (type_name field_name : bytes) : bytes := lit "rk:" ++ type_name ++ lit "." ++ field_name.
Definition lb_name (class leaderboard_id area_config_id : bytes) : bytes :=
  lit "lb:" ++ class ++ lit ":" ++ leaderboard_id ++ lit ":" ++ area_config_id.
Definition tk_name (class : bytes) (entity : DatumId) : bytes :=
  lit "tk:" ++ class ++ lit ":" ++ hex (as_bytes entity).
Definition partition_name (type_name partition : bytes) : bytes :=
  lit "partition:" ++ type_name ++ lit ":" ++ partition.
Definition fk_pending_name (type_name field : bytes) : bytes := lit "fk_pending:" ++ type_name ++ lit "." ++ field.
Definition fk_deleted_name (type_name field : bytes) : bytes := lit "deleted_refs:" ++ type_name ++ lit "." ++ field.
Definition pk_name (type_name mnemonic : bytes) : bytes := lit "pk:" ++ type_name ++ lit ":" ++ mnemonic.
Definition type_name_of (name : bytes) : bytes := lit "type:" ++ name.

(** ** The ids *)

Section ids.
(** [DatumId::from_name(&namespace, name)] *)
Variable from_name : DatumId -> bytes -> DatumId.

Definition derive (name : bytes) : DatumId := from_name derived_id_namespace name.

Definition sk_key (type_name field_name : bytes) (value : FieldValue) : res DatumId :=
  match sk_value_bytes value with
  | Some v => Ok (derive (sk_name type_name field_name v))
  | None => Err "sk index values must be primitive"
  end.
Definition rk_key (type_name field_name : bytes) : DatumId := derive (rk_name type_name field_name).
Definition lb_board_key (class leaderboard_id area_config_id : bytes) : DatumId :=
  derive (lb_name class leaderboard_id area_config_id).
Definition tk_entity_key (class : bytes) (entity : DatumId) : DatumId := derive (tk_name class entity).
Definition partition_key (type_name partition : bytes) : DatumId := derive (partition_name type_name partition).
Definition extent_key (type_name : bytes) : DatumId := partition_key type_name (lit "all").
Definition invalid_key (type_name : bytes) : DatumId := partition_key type_name (lit "invalid").
Definition fk_pending_key (type_name field : bytes) : DatumId := derive (fk_pending_name type_name field).
Definition fk_deleted_key (type_name field : bytes) : DatumId := derive (fk_deleted_name type_name field).
Definition enum_pk_id (type_name mnemonic : bytes) : DatumId := derive (pk_name type_name mnemonic).
End ids.

(** ** Names do not collide

    Identifiers are free of the separators ['.'] and [':']; what comes last in a
    name (a value, an area, a partition, a mnemonic) is free text. *)

Definition plain (bs : bytes) : Prop := u8 46 ∉ bs /\ u8 58 ∉ bs.

(** A name and what it was built from. *)
Inductive derived :=
| DSk (type_name field_name value : bytes)
| DRk (type_name field_name : bytes)
| DLb (class leaderboard_id area : bytes)
| DTk (class : bytes) (entity : DatumId)
| DPartition (type_name partition : bytes)
| DFkPending (type_name field : bytes)
| DFkDeleted (type_name field : bytes)
| DPk (type_name mnemonic : bytes)
| DType (type_name : bytes).

Definition derived_name (d : derived) : bytes :=
  match d with
  | DSk t f v => sk_name t f v
  | DRk t f => rk_name t f
  | DLb c l a => lb_name c l a
  | DTk c e => tk_name c e
  | DPartition t p => partition_name t p
  | DFkPending t f => fk_pending_name t f
  | DFkDeleted t f => fk_deleted_name t f
  | DPk t m => pk_name t m
  | DType t => type_name_of t
  end.

Definition derived_ok (d : derived) : Prop :=
  match d with
  | DSk t f _ | DRk t f | DFkPending t f | DFkDeleted t f => plain t /\ plain f
  | DLb c l _ => plain c /\ plain l
  | DTk c e => plain c /\ datum_ok e
  | DPartition t _ | DPk t _ | DType t => plain t
  end.

Lemma split_at (sep : byte) (a b c d : bytes) :
  sep ∉ a -> sep ∉ b -> a ++ sep :: c = b ++ sep :: d -> a = b /\ c = d.
Proof.
  revert b. induction a as [|x a IH]; intros [|y b] Ha Hb H; simpl in H.
  - by injection H.
  - injection H as -> _. set_solver.
  - injection H as -> _. set_solver.
  - injection H as -> H. apply not_elem_of_cons in Ha as [_ Ha]. apply not_elem_of_cons in Hb as [_ Hb].
    destruct (IH b Ha Hb H) as [-> ->]. done.
Qed.

Lemma byte_of_digit n : 0 <= n < 16 -> byte_val (hex_digit n) = if n <? 10 then 48 + n else 87 + n.
Proof. intros H. unfold hex_digit. apply byte_val_u8_small. destruct (Z.ltb_spec n 10); lia. Qed.

Lemma hex_digit_inj a b : 0 <= a < 16 -> 0 <= b < 16 -> hex_digit a = hex_digit b -> a = b.
Proof.
  intros Ha Hb H. apply (f_equal byte_val) in H. rewrite !byte_of_digit in H by done.
  destruct (Z.ltb_spec a 10), (Z.ltb_spec b 10); lia.
Qed.

Lemma hex_inj a b : hex a = hex b -> a = b.
Proof.
  revert b. induction a as [|x a IH]; intros [|y b] H; [done..|]. cbn in H. injection H as H1 H2 H.
  pose proof (byte_val_range x). pose proof (byte_val_range y).
  apply hex_digit_inj in H1; [|split; [apply Z.div_pos|apply Z.div_lt_upper_bound]; lia..].
  apply hex_digit_inj in H2; [|apply Z.mod_pos_bound; lia..]. f_equal; [|by apply IH].
  apply byte_val_inj. rewrite (Z.div_mod (byte_val x) 16), (Z.div_mod (byte_val y) 16) by lia. lia.
Qed.

Definition kind_tag (d : derived) : bytes :=
  match d with
  | DSk _ _ _ => lit "sk"
  | DRk _ _ => lit "rk"
  | DLb _ _ _ => lit "lb"
  | DTk _ _ => lit "tk"
  | DPartition _ _ => lit "partition"
  | DFkPending _ _ => lit "fk_pending"
  | DFkDeleted _ _ => lit "deleted_refs"
  | DPk _ _ => lit "pk"
  | DType _ => lit "type"
  end.

Definition after_tag (d : derived) : bytes :=
  match d with
  | DSk t f v => t ++ u8 46 :: f ++ u8 58 :: v
  | DRk t f | DFkPending t f | DFkDeleted t f => t ++ u8 46 :: f
  | DLb c l a => c ++ u8 58 :: l ++ u8 58 :: a
  | DTk c e => c ++ u8 58 :: hex (as_bytes e)
  | DPartition t p => t ++ u8 58 :: p
  | DPk t m => t ++ u8 58 :: m
  | DType t => t
  end.

Lemma lit_dot : lit "." = [u8 46]. Proof. by vm_compute. Qed.
Lemma lit_colon : lit ":" = [u8 58]. Proof. by vm_compute. Qed.

Ltac name_tag full tag :=
  change (lit full) with (lit tag ++ lit ":"); rewrite lit_colon, <- ?app_assoc; done.

Lemma derived_name_split d : derived_name d = kind_tag d ++ u8 58 :: after_tag d.
Proof.
  destruct d; unfold derived_name, sk_name, rk_name, lb_name, tk_name, partition_name, fk_pending_name, fk_deleted_name,
    pk_name, type_name_of, kind_tag, after_tag; rewrite ?lit_dot, ?lit_colon.
  - name_tag "sk:" "sk".
  - name_tag "rk:" "rk".
  - name_tag "lb:" "lb".
  - name_tag "tk:" "tk".
  - name_tag "partition:" "partition".
  - name_tag "fk_pending:" "fk_pending".
  - name_tag "deleted_refs:" "deleted_refs".
  - name_tag "pk:" "pk".
  - name_tag "type:" "type".
Qed.

Lemma kind_tag_plain d : u8 58 ∉ kind_tag d.
Proof. destruct d; by apply (bool_decide_unpack _). Qed.

Lemma derived_name_inj d d' : derived_ok d -> derived_ok d' -> derived_name d = derived_name d' -> d = d'.
Proof.
  intros Hd Hd'. rewrite !derived_name_split. intros H.
  apply split_at in H as [Htag H]; [|apply kind_tag_plain..].
  destruct d, d'; try (by apply (f_equal (map Byte.to_N)) in Htag); clear Htag; cbn in Hd, Hd', H;
    unfold plain in *; destruct_and?;
    repeat match goal with H : _ ++ ?s :: _ = _ ++ _ :: _ |- _ => apply (split_at s) in H as [? H]; [|done..] end;
    subst; try done.
  apply hex_inj, as_bytes_inj in H; [by subst|done..].
Qed.

(** Derived names do not collide: for type, field, class and board names free
    of the separators, the name hashed for a framework datum determines its kind
    and its parts, so two different secondary keys, ranked indexes, boards,
    histories, partitions, pending lists, deletion markers, enum keys or types
    never share one. The condition is needed: a dot moved from a type name to a
    field name gives the same ranked index. *)
Theorem derived_names_injective d d' :
  derived_ok d -> derived_ok d' ->
  (derived_name d = derived_name d' -> d = d') /\
  rk_name (lit "a.b") (lit "c") = rk_name (lit "a") (lit "b.c").
Proof. intros Hd Hd'. split; [by apply derived_name_inj|by vm_compute]. Qed.

Lemma derived_names_injective_witness :
  derived_name (DSk (lit "user") (lit "name") (lit "a:b")) <> derived_name (DSk (lit "user") (lit "name") (lit "c")).
Proof.
  intros H. eapply (proj1 (derived_names_injective _ _ _ _)) in H; [by injection H|..].
  Unshelve. all: split; split; by apply (bool_decide_unpack _).
Defined.
