(* ===== verification/Schema.v ===== *)
(** * seisin-types: datum type definitions

    Models [crates/seisin-types/src/schema.rs] and the field checks of
    [typed_context.rs] ([run_field_checks]). A builder method that panics on a
    declaration bug is [Panic]. *)

From S2P Require Import Prelude Core Codec Fields Names.

(** ** Definitions *)

Inductive PkKind := PkUuid | PkEnum (mnemonics : list bytes).

Inductive FieldCheck :=
| CkGt (bound : FieldValue)
| CkGe (bound : FieldValue)
| CkLt (bound : FieldValue)
| CkLe (bound : FieldValue)
| MinLen (n : Z)
| MaxLen (n : Z).

Record FieldCheckDef := mkCheck { ck_field : bytes; ck_check : FieldCheck }.

Inductive FkTarget :=
| FkPkUuid (type_name : bytes)
| FkPkEnum (type_name : bytes) (mnemonics : list bytes)
| FkSkUnique (type_name field : bytes).

Inductive OnDelete := Restrict | Track.

Record GuardRef := mkGuard { gr_type_name : bytes; gr_field : bytes; gr_on_delete : OnDelete }.

Abbreviation ConflictOp := bytes (only parsing).

Record RelationalConstraintDef := mkConstraint {
  rc_field : bytes; rc_references : FkTarget; rc_resolution : option ConflictOp }.

Inductive IndexDef :=
| IxSk (field : bytes) (unique : option ConflictOp)
| IxRk (field : bytes).

Record DatumTypeDef := mkType {
  td_name : bytes;
  td_version : Z;
  td_pk : PkKind;
  td_fields : list (bytes * FieldType);
  td_indexes : list IndexDef;
  td_constraints : list RelationalConstraintDef;
  td_guards : list GuardRef;
  td_checks : list FieldCheckDef;
  td_track_extent : bool;
  td_rescan_every_millis : option Z;
  td_replication_factor : Z
}.

(** [fields.iter().find(..)] and [fields.iter().position(..)] by name. *)
Definition find_field (fields : list (bytes * FieldType)) (name : bytes) : option FieldType :=
  (λ p, p.2.2) <$> list_find (λ f : bytes * FieldType, f.1 = name) fields.
Definition field_position (fields : list (bytes * FieldType)) (name : bytes) : option nat :=
  fst <$> list_find (λ f : bytes * FieldType, f.1 = name) fields.

(** ** The builder *)

Definition DatumTypeDef_new (name : bytes) : DatumTypeDef :=
  mkType name 1 PkUuid [] [] [] [] [] false None 1.

Definition set_track_extent (d : DatumTypeDef) : DatumTypeDef :=
  mkType (td_name d) (td_version d) (td_pk d) (td_fields d) (td_indexes d) (td_constraints d) (td_guards d)
    (td_checks d) true (td_rescan_every_millis d) (td_replication_factor d).
Definition replicated (d : DatumTypeDef) (factor : Z) : DatumTypeDef :=
  mkType (td_name d) (td_version d) (td_pk d) (td_fields d) (td_indexes d) (td_constraints d) (td_guards d)
    (td_checks d) (td_track_extent d) (td_rescan_every_millis d) factor.
Definition rescan_every_millis (d : DatumTypeDef) (millis : Z) : DatumTypeDef :=
  mkType (td_name d) (td_version d) (td_pk d) (td_fields d) (td_indexes d) (td_constraints d) (td_guards d)
    (td_checks d) (td_track_extent d) (Some millis) (td_replication_factor d).
Definition set_pk (d : DatumTypeDef) (pk : PkKind) : DatumTypeDef :=
  mkType (td_name d) (td_version d) pk (td_fields d) (td_indexes d) (td_constraints d) (td_guards d)
    (td_checks d) (td_track_extent d) (td_rescan_every_millis d) (td_replication_factor d).
Definition set_version (d : DatumTypeDef) (version : Z) : DatumTypeDef :=
  mkType (td_name d) version (td_pk d) (td_fields d) (td_indexes d) (td_constraints d) (td_guards d)
    (td_checks d) (td_track_extent d) (td_rescan_every_millis d) (td_replication_factor d).
Definition add_field (d : DatumTypeDef) (name : bytes) (ty : FieldType) : DatumTypeDef :=
  mkType (td_name d) (td_version d) (td_pk d) (td_fields d ++ [(name, ty)]) (td_indexes d) (td_constraints d)
    (td_guards d) (td_checks d) (td_track_extent d) (td_rescan_every_millis d) (td_replication_factor d).

(** Both [I64] or both [F64]. *)
Definition comparable (ty : FieldType) (bound : FieldValue) : bool :=
  match ty, bound with TyI64, FI64 _ | TyF64, FF64 _ => true | _, _ => false end.

Definition check_compatible (ty : FieldType) (c : FieldCheck) : bool :=
  match c with
  | CkGt bound | CkGe bound | CkLt bound | CkLe bound => comparable ty bound
  | MinLen _ | MaxLen _ => match ty with TyString | TyBytes => true | _ => false end
  end.

Definition add_check (d : DatumTypeDef) (field : bytes) (c : FieldCheck) : res DatumTypeDef :=
  match find_field (td_fields d) field with
  | None => Panic
  | Some ty =>
      if check_compatible ty c then
        Ok (mkType (td_name d) (td_version d) (td_pk d) (td_fields d) (td_indexes d) (td_constraints d) (td_guards d)
              (td_checks d ++ [mkCheck field c]) (td_track_extent d) (td_rescan_every_millis d) (td_replication_factor d))
      else Panic
  end.

Definition add_guard (d : DatumTypeDef) (g : GuardRef) : res DatumTypeDef :=
  if bool_decide (gr_type_name g = []) || bool_decide (gr_field g = []) then Panic
  else Ok (mkType (td_name d) (td_version d) (td_pk d) (td_fields d) (td_indexes d) (td_constraints d)
             (td_guards d ++ [g]) (td_checks d) (td_track_extent d) (td_rescan_every_millis d) (td_replication_factor d)).

Definition target_compatible (t : FkTarget) (ty : FieldType) : bool :=
  match t, ty with
  | FkPkEnum _ _, TyString => true
  | FkPkEnum _ _, _ => false
  | FkPkUuid _, TyBytes => true
  | FkPkUuid _, _ => false
  | FkSkUnique _ _, (TyArray _ | TyDict _ _) => false
  | FkSkUnique _ _, _ => true
  end.

Definition add_constraint (d : DatumTypeDef) (c : RelationalConstraintDef) : res DatumTypeDef :=
  match find_field (td_fields d) (rc_field c) with
  | None => Panic
  | Some ty =>
      if target_compatible (rc_references c) ty then
        Ok (mkType (td_name d) (td_version d) (td_pk d) (td_fields d) (td_indexes d) (td_constraints d ++ [c])
              (td_guards d) (td_checks d) (td_track_extent d) (td_rescan_every_millis d) (td_replication_factor d))
      else Panic
  end.

Definition index_compatible (fields : list (bytes * FieldType)) (ix : IndexDef) : bool :=
  match ix with
  | IxRk field => match find_field fields field with Some TyI64 | Some TyF64 => true | _ => false end
  | IxSk _ _ => true
  end.

Definition add_index (d : DatumTypeDef) (ix : IndexDef) : res DatumTypeDef :=
  if index_compatible (td_fields d) ix then
    Ok (mkType (td_name d) (td_version d) (td_pk d) (td_fields d) (td_indexes d ++ [ix]) (td_constraints d)
          (td_guards d) (td_checks d) (td_track_extent d) (td_rescan_every_millis d) (td_replication_factor d))
  else Panic.

(** ** Identity *)

Section pk.
Variable from_name : DatumId -> bytes -> DatumId.

Definition check_pk (pk_id : DatumId) (d : DatumTypeDef) : res () :=
  match td_pk d with
  | PkUuid =>
      b ← index (as_bytes pk_id) 6;
      if negb (Z.shiftr (byte_val b) 4 =? 7) then Err "id is not a version-7 uuid" else Ok ()
  | PkEnum mnemonics =>
      if negb (existsb (λ m, enum_pk_id from_name (td_name d) m =? pk_id) mnemonics)
      then Err "id matches none of its mnemonics" else Ok ()
  end.
End pk.

(** ** Encoding a datum *)

Fixpoint encode_fields (fields : list (bytes * FieldType)) (values : list FieldValue) (buf : bytes) : res bytes :=
  match fields, values with
  | (_, ty) :: fields, value :: values =>
      if negb (value_matches_type value ty) then Err "value does not match its declared type"
      else encode_fields fields values (buf ++ encode_field_value value)
  | _, _ => Ok buf
  end.

Definition encode_datum (d : DatumTypeDef) (values : list FieldValue) : res bytes :=
  if negb (zlen values =? zlen (td_fields d)) then Err "datum type has another number of fields"
  else encode_fields (td_fields d) values (to_le 2 (td_version d)).

Fixpoint decode_fields (fields : list (bytes * FieldType)) : cur (list FieldValue) :=
  match fields with
  | [] => mret []
  | (_, ty) :: fields => v ← decode_field_value ty; vs ← decode_fields fields; mret (v :: vs)
  end.

Definition decode_datum (d : DatumTypeDef) (bs : bytes) : res (list FieldValue) :=
  if zlen bs <? 2 then Err "datum bytes too short for a schema version prefix" else
  v ← slice bs 0 2;
  if negb (from_le v =? td_version d) then Err "datum was encoded at another schema version" else
  run_cur (ended "datum has trailing bytes" (decode_fields (td_fields d))) bs 2.

(** ** Field checks (typed_context.rs) *)

Definition constraint_passes (c : RelationalConstraintDef) (value : FieldValue) : bool :=
  match rc_references c, value with
  | FkPkEnum _ mnemonics, FString s => bool_decide (s ∈ mnemonics)
  | FkPkUuid _, FBytes b => zlen b =? 16
  | _, _ => true
  end.

Definition check_passes (c : FieldCheck) (value : FieldValue) : bool :=
  match c, value with
  | CkGt (FI64 b), FI64 v => b <? v
  | CkGe (FI64 b), FI64 v => b <=? v
  | CkLt (FI64 b), FI64 v => v <? b
  | CkLe (FI64 b), FI64 v => v <=? b
  | CkGt (FF64 b), FF64 v => f64_ltb b v
  | CkGe (FF64 b), FF64 v => f64_leb b v
  | CkLt (FF64 b), FF64 v => f64_ltb v b
  | CkLe (FF64 b), FF64 v => f64_leb v b
  | MinLen n, FString s => n <=? zlen s
  | MaxLen n, FString s => zlen s <=? n
  | MinLen n, FBytes s => n <=? zlen s
  | MaxLen n, FBytes s => zlen s <=? n
  | _, _ => false
  end.

(** One of the two [for] loops: fields not declared and values not given are
    skipped. *)
Fixpoint checks_loop {A} (field : A -> bytes) (passes : A -> FieldValue -> bool) (msg : string)
    (fields : list (bytes * FieldType)) (values : list FieldValue) (cs : list A) : res () :=
  match cs with
  | [] => Ok ()
  | c :: cs =>
      let ok := match field_position fields (field c) ≫= λ i, values !! i with
                | Some v => passes c v
                | None => true
                end in
      if ok then checks_loop field passes msg fields values cs else Err msg
  end.

Definition run_field_checks (d : DatumTypeDef) (values : list FieldValue) : res () :=
  _ ← checks_loop rc_field constraint_passes "field references no declared key" (td_fields d) values (td_constraints d);
  checks_loop ck_field (λ c, check_passes (ck_check c)) "field failed its declared check" (td_fields d) values (td_checks d).

(** ** Encoding and decoding a datum *)

Definition well_typed (d : DatumTypeDef) (values : list FieldValue) : Prop :=
  Forall2 (λ (f : bytes * FieldType) v, value_matches_type v f.2 = true) (td_fields d) values.

#[global] Instance well_typed_dec d values : Decision (well_typed d values).
Proof. unfold well_typed. apply _. Defined.

Lemma encode_fields_typed fields values buf :
  Forall2 (λ (f : bytes * FieldType) v, value_matches_type v f.2 = true) fields values ->
  encode_fields fields values buf = Ok (buf ++ flat_map encode_field_value values).
Proof.
  intros H. revert buf. induction H as [|[name ty] v fields values Hv H IH]; intros buf; simpl; [by rewrite app_nil_r|].
  simpl in Hv. rewrite Hv. cbn [negb]. by rewrite IH, <- app_assoc.
Qed.

Lemma encode_fields_untyped fields values buf :
  length fields = length values ->
  ~ Forall2 (λ (f : bytes * FieldType) v, value_matches_type v f.2 = true) fields values ->
  exists m, encode_fields fields values buf = Err m.
Proof.
  revert values buf. induction fields as [|[name ty] fields IH]; intros [|v values] buf Hl Hn; try done; simpl.
  - by destruct Hn.
  - destruct (value_matches_type v ty) eqn:E; cbn [negb]; [|by eexists]. apply IH; [by injection Hl|].
    intros HF. apply Hn. by constructor.
Qed.

Lemma parses_fields fields values :
  Forall2 (λ (f : bytes * FieldType) v, value_matches_type v f.2 = true) fields values -> Forall value_ok values ->
  parses (decode_fields fields) (flat_map encode_field_value values) values.
Proof.
  induction 1 as [|[name ty] v fields values Hv H IH]; intros HF; simpl; [apply parses_ret|].
  apply Forall_cons in HF as [Hok HF]. eapply parses_bind; [by apply parses_field_value|].
  eapply parses_bind_nil; [by apply IH|]. apply parses_ret.
Qed.

Lemma decodes_fields fields :
  decodes (decode_fields fields) (λ _ _ vs, Forall2 (λ (f : bytes * FieldType) v, typed f.2 v) fields vs).
Proof.
  induction fields as [|[name ty] fields IH]; simpl; [by apply decodes_ret|].
  eapply decodes_bind; [apply decodes_field_value|]. intros b v [r Hv].
  eapply decodes_bind; [exact IH|]. intros b' vs [r' HF]. apply decodes_ret. intros _ _ _. by constructor.
Qed.

Lemma decode_datum_encoded d values :
  u16_ok (td_version d) -> well_typed d values -> Forall value_ok values ->
  decode_datum d (to_le 2 (td_version d) ++ flat_map encode_field_value values) = Ok values.
Proof.
  intros Hv Ht Hok. unfold decode_datum. set (tl := flat_map encode_field_value values). pose proof (zlen_nonneg tl).
  rewrite (proj2 (Z.ltb_ge _ _)) by (autorewrite with zlen; lia). rewrite slice_here by fixed_len. rsimpl.
  rewrite from_le_to_le, Z.eqb_refl by done. cbn [negb].
  change 2 with (zlen (to_le 2 (td_version d))). apply run_cur_parses. apply parses_ended. by apply parses_fields.
Qed.

Lemma encode_datum_ok d values bs :
  u16_ok (td_version d) -> Forall value_ok values -> encode_datum d values = Ok bs ->
  well_typed d values /\ decode_datum d bs = Ok values.
Proof.
  intros Hv Hok. unfold encode_datum. destruct (Z.eqb_spec (zlen values) (zlen (td_fields d))) as [Hl|Hl]; cbn [negb]; [|done].
  destruct (decide (well_typed d values)) as [Ht|Ht].
  - rewrite encode_fields_typed by done. intros [= <-]. split; [done|by apply decode_datum_encoded].
  - destruct (encode_fields_untyped (td_fields d) values (to_le 2 (td_version d))) as [m ->]; [unfold zlen in Hl; lia|done|done].
Qed.

(** C35: a typed write encodes exactly the values that fit the declared fields, and
    reading gives them back: encoding succeeds if and only if there is one value of
    the declared type per field; decoding the result at the same definition gives
    the values, and at a definition of another version is an error, never a
    misreading. *)
Theorem datum_roundtrip d d' values :
  u16_ok (td_version d) -> u16_ok (td_version d') -> td_version d' <> td_version d -> Forall value_ok values ->
  match encode_datum d values with
  | Ok bs => well_typed d values /\ decode_datum d bs = Ok values /\ exists m, decode_datum d' bs = Err m
  | Err _ => ~ well_typed d values
  | Panic => False
  end.
Proof.
  intros Hv Hv' Hne Hok. unfold encode_datum. destruct (Z.eqb_spec (zlen values) (zlen (td_fields d))) as [Hl|Hl]; cbn [negb].
  2: { intros HF. apply Forall2_length in HF. unfold zlen in Hl. lia. }
  destruct (decide (well_typed d values)) as [Ht|Ht].
  - rewrite encode_fields_typed by done. split_and!; [done|by apply decode_datum_encoded|].
    unfold decode_datum. set (tl := flat_map encode_field_value values). pose proof (zlen_nonneg tl).
    rewrite (proj2 (Z.ltb_ge _ _)) by (autorewrite with zlen; lia). rewrite slice_here by fixed_len. rsimpl.
    rewrite from_le_to_le by done. rewrite (proj2 (Z.eqb_neq _ _)) by congruence. by eexists.
  - destruct (encode_fields_untyped (td_fields d) values (to_le 2 (td_version d))) as [m ->]; [unfold zlen in Hl; lia|done|done].
Qed.

Definition player_type : DatumTypeDef :=
  add_field (add_field (DatumTypeDef_new (lit "player")) (lit "name") TyString) (lit "scores") (TyArray TyI64).

Lemma datum_roundtrip_witness :
  decode_datum player_type (to_le 2 1 ++ encode_field_value (FString (lit "ann")) ++ encode_field_value (FArray [FI64 (-5); FI64 7])) =
    Ok [FString (lit "ann"); FArray [FI64 (-5); FI64 7]].
Proof.
  pose proof (datum_roundtrip player_type (set_version player_type 2) [FString (lit "ann"); FArray [FI64 (-5); FI64 7]]) as H.
  specialize (H ltac:(done) ltac:(done) ltac:(done)).
  specialize (H ltac:(repeat constructor; simpl; unfold string_ok, field_ok, uint_ok, i64_ok; try done; by vm_compute)).
  by destruct (encode_datum player_type _) as [bs|m|] eqn:E; [|done..]; destruct H as (_ & H & _); injection E as <-.
Defined.

Lemma decode_datum_typed d bs :
  match decode_datum d bs with
  | Ok values => well_typed d values /\ Forall value_ok values
  | Err _ => True
  | Panic => False
  end.
Proof.
  unfold decode_datum. destruct (Z.ltb_spec (zlen bs) 2); [done|]. rewrite slice_ok by lia. rsimpl.
  destruct (negb _); [done|].
  pose proof (decodes_ended "datum has trailing bytes" _ _ (λ _ _ vs, Forall2 (λ (f : bytes * FieldType) v, typed f.2 v) (td_fields d) vs)
    (decodes_fields (td_fields d)) ltac:(done)) as HE.
  pose proof (decodes_run _ _ bs 2 HE ltac:(lia)) as HR.
  destruct (run_cur _ _ _) as [values| |]; [|done..]. destruct HR as (_ & _ & _ & HF).
  split; [eapply Forall2_impl; [exact HF|]; by intros ? ? [_ ?]|].
  clear -HF. induction HF as [|f v fs vs [Hv _] HF IH]; [by apply Forall_nil|by apply Forall_cons].
Qed.

(** C36: decoding is type sound: on any bytes it does not panic, and when it
    succeeds every value has the declared type of its field and is in range, so
    that the values can be written back at the same definition. *)
Theorem decoded_datum_is_well_typed d bs :
  u16_ok (td_version d) ->
  match decode_datum d bs with
  | Ok values => well_typed d values /\ Forall value_ok values /\
      exists bs', encode_datum d values = Ok bs' /\ decode_datum d bs' = Ok values
  | Err _ => True
  | Panic => False
  end.
Proof.
  intros Hver. pose proof (decode_datum_typed d bs) as HD. destruct (decode_datum d bs) as [values| |]; [|done..].
  destruct HD as [Ht Hok]. split_and!; [done..|]. exists (to_le 2 (td_version d) ++ flat_map encode_field_value values). split.
  - unfold encode_datum. rewrite (proj2 (Z.eqb_eq _ _)) by (apply Forall2_length in Ht; unfold zlen; lia). cbn [negb].
    by apply encode_fields_typed.
  - by apply decode_datum_encoded.
Qed.

Lemma decoded_datum_is_well_typed_witness :
  match decode_datum player_type [u8 1; u8 0; u8 0; u8 0; u8 0; u8 0; u8 0; u8 0; u8 0; u8 0] with
  | Ok values => well_typed player_type values
  | _ => False
  end.
Proof.
  pose proof (decoded_datum_is_well_typed player_type [u8 1; u8 0; u8 0; u8 0; u8 0; u8 0; u8 0; u8 0; u8 0; u8 0] ltac:(done)) as H.
  destruct (decode_datum _ _) as [v|m|] eqn:E; [apply H|by vm_compute in E|done].
Defined.

(** ** Built definitions *)

(** The definitions a program can declare: each builder call that does not
    panic. *)
Inductive built : DatumTypeDef -> Prop :=
| built_new name : built (DatumTypeDef_new name)
| built_track d : built d -> built (set_track_extent d)
| built_replicated d n : built d -> built (replicated d n)
| built_rescan d n : built d -> built (rescan_every_millis d n)
| built_pk d pk : built d -> built (set_pk d pk)
| built_version d v : built d -> built (set_version d v)
| built_field d name ty : built d -> built (add_field d name ty)
| built_check d d' field c : built d -> add_check d field c = Ok d' -> built d'
| built_guard d d' g : built d -> add_guard d g = Ok d' -> built d'
| built_constraint d d' c : built d -> add_constraint d c = Ok d' -> built d'
| built_index d d' ix : built d -> add_index d ix = Ok d' -> built d'.

Definition declares (fields : list (bytes * FieldType)) (name : bytes) (ok : FieldType -> bool) : Prop :=
  exists ty, find_field fields name = Some ty /\ ok ty = true.

Definition numeric_type (ty : FieldType) : bool := match ty with TyI64 | TyF64 => true | _ => false end.

Definition index_wf (fields : list (bytes * FieldType)) (ix : IndexDef) : Prop :=
  match ix with IxRk field => declares fields field numeric_type | IxSk _ _ => True end.

Record def_wf (d : DatumTypeDef) : Prop := {
  wf_checks : Forall (λ c, declares (td_fields d) (ck_field c) (λ ty, check_compatible ty (ck_check c))) (td_checks d);
  wf_constraints : Forall (λ c, declares (td_fields d) (rc_field c) (target_compatible (rc_references c))) (td_constraints d);
  wf_indexes : Forall (index_wf (td_fields d)) (td_indexes d)
}.

Lemma list_find_app {A} (P : A -> Prop) `{forall x, Decision (P x)} l1 l2 p :
  list_find P l1 = Some p -> list_find P (l1 ++ l2) = Some p.
Proof. destruct p as [i x]. intros Hf. rewrite list_find_app_Some. by left. Qed.

Lemma declares_app fields f name ok : declares fields name ok -> declares (fields ++ [f]) name ok.
Proof.
  intros (ty & Hf & Hok). exists ty. split; [|done]. unfold find_field in *.
  destruct (list_find _ fields) as [[i x]|] eqn:E; [|done]. erewrite list_find_app by exact E. done.
Qed.

Lemma index_compatible_wf fields ix : index_compatible fields ix = true -> index_wf fields ix.
Proof.
  destruct ix as [|field]; [done|]. simpl. unfold declares. destruct (find_field fields field) as [[]|]; try done; eauto.
Qed.

Lemma built_wf d : built d -> def_wf d.
Proof.
  induction 1 as [name|d _ []|d n _ []|d n _ []|d pk _ []|d v _ []|d name ty _ [H1 H2 H3]
    |d d' field c _ [H1 H2 H3] E|d d' g _ [] E|d d' c _ [H1 H2 H3] E|d d' ix _ [H1 H2 H3] E]; try (by split).
  - split; simpl; eapply Forall_impl; try exact H1; try exact H2; try exact H3; intros x Hx; try (by apply declares_app).
    destruct x; [done|by apply declares_app].
  - unfold add_check in E. destruct (find_field _ _) as [ty|] eqn:Hf; [|done].
    destruct (check_compatible ty c) eqn:Hc; [|done]. injection E as <-. split; simpl; [|done..].
    apply Forall_app. split; [done|]. repeat constructor. by exists ty.
  - unfold add_guard in E. destruct (_ || _); [done|]. injection E as <-. by split.
  - unfold add_constraint in E. destruct (find_field _ _) as [ty|] eqn:Hf; [|done].
    destruct (target_compatible _ ty) eqn:Hc; [|done]. injection E as <-. split; simpl; [done| |done].
    apply Forall_app. split; [done|]. repeat constructor. by exists ty.
  - unfold add_index in E. destruct (index_compatible _ ix) eqn:Hc; [|done]. injection E as <-. split; simpl; [done..|].
    apply Forall_app. split; [done|]. repeat constructor. by apply index_compatible_wf.
Qed.

(** ** The checks of a built definition *)

Definition field_value (d : DatumTypeDef) (values : list FieldValue) (name : bytes) : option FieldValue :=
  field_position (td_fields d) name ≫= λ i, values !! i.

(** What a check says, with no case for values of another shape. *)
Definition check_means (c : FieldCheck) (v : FieldValue) : Prop :=
  match c, v with
  | CkGt (FI64 b), FI64 x => b < x
  | CkGe (FI64 b), FI64 x => b <= x
  | CkLt (FI64 b), FI64 x => x < b
  | CkLe (FI64 b), FI64 x => x <= b
  | CkGt (FF64 b), FF64 x => f64_ltb b x = true
  | CkGe (FF64 b), FF64 x => f64_leb b x = true
  | CkLt (FF64 b), FF64 x => f64_ltb x b = true
  | CkLe (FF64 b), FF64 x => f64_leb x b = true
  | MinLen n, (FString s | FBytes s) => n <= zlen s
  | MaxLen n, (FString s | FBytes s) => zlen s <= n
  | _, _ => False
  end.

Definition reference_means (t : FkTarget) (v : FieldValue) : Prop :=
  match t, v with
  | FkPkEnum _ mnemonics, FString s => s ∈ mnemonics
  | FkPkUuid _, FBytes b => zlen b = 16
  | FkSkUnique _ _, v => is_Some (sk_value_bytes v)
  | _, _ => False
  end.

Lemma declared_value d values name ok :
  well_typed d values -> declares (td_fields d) name ok ->
  exists ty v, field_value d values name = Some v /\ value_matches_type v ty = true /\ ok ty = true.
Proof.
  intros Ht (ty & Hf & Hok). unfold find_field, field_value, field_position in *.
  destruct (list_find _ (td_fields d)) as [[i [n ty']]|] eqn:E; [|done]. injection Hf as ->.
  apply list_find_Some in E as (Hi & _). destruct (Forall2_lookup_l _ _ _ _ _ Ht Hi) as (v & Hv & Hm).
  by exists ty, v.
Qed.

Lemma check_passes_means ty c v :
  value_matches_type v ty = true -> check_compatible ty c = true -> check_passes c v = true <-> check_means c v.
Proof.
  destruct c as [b|b|b|b|n|n], ty; try done; try (destruct b; try done); destruct v; try done; intros _ _; simpl;
    rewrite ?Z.ltb_lt, ?Z.leb_le; done.
Qed.

Lemma constraint_passes_means ty c v :
  value_matches_type v ty = true -> target_compatible (rc_references c) ty = true ->
  constraint_passes c v = true <-> reference_means (rc_references c) v.
Proof.
  unfold constraint_passes. destruct (rc_references c), ty; try done; destruct v; try done; intros _ _; simpl;
    rewrite ?Z.eqb_eq, ?bool_decide_eq_true; naive_solver.
Qed.

Lemma checks_loop_spec {A} field passes msg d values (cs : list A) (means : A -> FieldValue -> Prop) :
  Forall (λ c, exists v, field_value d values (field c) = Some v /\ (passes c v = true <-> means c v)) cs ->
  checks_loop field passes msg (td_fields d) values cs = Ok () /\
    Forall (λ c, exists v, field_value d values (field c) = Some v /\ means c v) cs \/
  checks_loop field passes msg (td_fields d) values cs = Err msg /\
    ~ Forall (λ c, exists v, field_value d values (field c) = Some v /\ means c v) cs.
Proof.
  induction 1 as [|c cs (v & Hv & Hp) HF IH]; simpl; [left; by split; [|constructor]|].
  fold (field_value d values (field c)). rewrite Hv. destruct (passes c v) eqn:E.
  - destruct IH as [[-> H]|[-> H]]; [left|right]; (split; [done|]).
    + constructor; [exists v; by rewrite <- Hp|done].
    + intros HF'. by apply Forall_cons in HF' as [_ ?].
  - right. split; [done|]. intros HF'. apply Forall_cons in HF' as [(v' & Hv' & Hm) _].
    rewrite Hv in Hv'. injection Hv' as <-. apply Hp in Hm. congruence.
Qed.

Lemma declared_all {A} (field : A -> bytes) (ok : A -> FieldType -> bool) passes (means : A -> FieldValue -> Prop) d values (cs : list A) :
  well_typed d values -> Forall (λ c, declares (td_fields d) (field c) (ok c)) cs ->
  (forall c ty v, value_matches_type v ty = true -> ok c ty = true -> passes c v = true <-> means c v) ->
  Forall (λ c, exists v, field_value d values (field c) = Some v /\ (passes c v = true <-> means c v)) cs.
Proof.
  intros Ht HF Hpm. eapply Forall_impl; [exact HF|]. intros c Hc.
  destruct (declared_value _ _ _ _ Ht Hc) as (ty & v & Hv & Hm & Hok). exists v. split; [done|by eapply Hpm].
Qed.

Definition numeric_value (v : FieldValue) : Prop := match v with FI64 _ | FF64 _ => True | _ => False end.

Lemma ranked_fields_numeric d values field :
  def_wf d -> well_typed d values -> IxRk field ∈ td_indexes d ->
  exists v, field_value d values field = Some v /\ numeric_value v.
Proof.
  intros [_ _ H3] Ht Hf. rewrite Forall_forall in H3. specialize (H3 _ Hf). simpl in H3.
  destruct (declared_value _ _ _ _ Ht H3) as (ty & v & Hv & Hm & Hn). exists v. split; [done|].
  by destruct ty; try done; destruct v.
Qed.

Lemma checks_loop_safe {A} field passes msg fields values (cs : list A) :
  checks_loop field passes msg fields values cs <> Panic.
Proof. induction cs as [|c cs IH]; simpl; [done|]. by destruct (match _ with Some _ => _ | None => _ end). Qed.

(** Declarations are checked once and for all: of a definition that the
    builder accepted, on values that fit its fields, the synchronous checks pass
    exactly when every constrained field holds a declared mnemonic, a 16-byte id or
    a natural key, and every checked field satisfies its bound, the comparisons
    being those of the numbers; no check is passed or failed because of a missing
    field or a shape mismatch, and every ranked field holds a number. *)
Theorem built_schema_checks d values :
  built d -> well_typed d values ->
  (run_field_checks d values = Ok () <->
   Forall (λ c, exists v, field_value d values (rc_field c) = Some v /\ reference_means (rc_references c) v) (td_constraints d) /\
   Forall (λ c, exists v, field_value d values (ck_field c) = Some v /\ check_means (ck_check c) v) (td_checks d)) /\
  run_field_checks d values <> Panic /\
  (forall field, IxRk field ∈ td_indexes d -> exists v, field_value d values field = Some v /\ numeric_value v).
Proof.
  intros Hb Ht. pose proof (built_wf _ Hb) as Hwf. split; [|split; [|by eauto using ranked_fields_numeric]].
  2: { unfold run_field_checks. pose proof (checks_loop_safe rc_field constraint_passes "field references no declared key" (td_fields d) values
         (td_constraints d)). destruct (checks_loop _ _ _ _ _ _); rsimpl; [|done..]. apply checks_loop_safe. }
  destruct Hwf as [H1 H2 _]. unfold run_field_checks.
  destruct (checks_loop_spec rc_field constraint_passes "field references no declared key" d values (td_constraints d)
    (λ c v, reference_means (rc_references c) v)) as [[-> HC]|[-> HC]]; rsimpl; [| |split; [done|by intros [? _]]].
  { eapply declared_all; [done|exact H2|]. intros c ty v. apply constraint_passes_means. }
  destruct (checks_loop_spec ck_field (λ c, check_passes (ck_check c)) "field failed its declared check" d values (td_checks d)
    (λ c v, check_means (ck_check c) v)) as [[-> HK]|[-> HK]]; [|by split|by split; [|intros [_ ?]]].
  eapply declared_all; [done|exact H1|]. intros c ty v. apply check_passes_means.
Qed.

Definition account_type : res DatumTypeDef :=
  add_check (add_field (DatumTypeDef_new (lit "account")) (lit "balance") TyI64) (lit "balance") (CkGe (FI64 0)).

Lemma built_schema_checks_witness :
  exists d, account_type = Ok d /\ run_field_checks d [FI64 3] = Ok () /\ run_field_checks d [FI64 (-3)] <> Ok ().
Proof.
  eexists. split; [reflexivity|]. set (d := mkType _ _ _ _ _ _ _ _ _ _ _).
  assert (built d) as Hb.
  { eapply (built_check (add_field (DatumTypeDef_new (lit "account")) (lit "balance") TyI64) _ (lit "balance") (CkGe (FI64 0)));
      [apply built_field, built_new|reflexivity]. }
  pose proof (λ v, built_schema_checks d [FI64 v] Hb ltac:(by repeat constructor)) as H. split.
  - apply (H 3). split; [constructor|]. repeat constructor. by exists (FI64 3).
  - rewrite (proj1 (H (-3))). intros [_ HK]. apply Forall_cons in HK as [(v & Hv & Hm) _].
    vm_compute in Hv. injection Hv as <-. by apply Hm.
Defined.
