(* ===== verification/RankKeys.v ===== *)
(** * Order-preserving keys

    Models [crates/seisin-types/src/rk_index.rs] (rank keys and the ranked index's
    update), [lb.rs] (leaderboard classes) and [tk.rs] (timestamps): numbers as
    eight bytes whose lexicographic order, the order of the B+Tree, is the order
    of the numbers. *)

From S2P Require Import Prelude Core Codec Fields Protocol.

Definition SIGN : Z := 9223372036854775808.

(** ** rk_index.rs *)

Definition encode_rank_key (value : FieldValue) : res bytes :=
  match value with
  | FI64 v => Ok (to_be 8 (Z.lxor (as_u64 v) SIGN))
  | FF64 bits =>
      let mask := Z.lor (as_u64 (Z.shiftr (as_i64 bits) 63)) SIGN in
      Ok (to_be 8 (Z.lxor bits mask))
  | _ => Err "rk rank_key must be I64 or F64"
  end.

Record RkIndexOp := mkRkIndexOp {
  ri_pk_id : DatumId; ri_old_rank_key : option bytes; ri_new_rank_key : option bytes }.

Definition push_optional_key (key : option bytes) : bytes :=
  match key with None => [u8 0] | Some k => u8 1 :: k end.

Definition read_optional_key : cur (option bytes) :=
  flag ← take_byte "rk index op truncated at an option flag";
  if byte_val flag =? 0 then mret None
  else if byte_val flag =? 1 then k ← take_n 8 "rk index op truncated inside a rank key"; mret (Some k)
  else cur_err "unknown rk index op option flag".

Definition encode_rk_index_op (op : RkIndexOp) : bytes :=
  as_bytes (ri_pk_id op) ++ push_optional_key (ri_old_rank_key op) ++ push_optional_key (ri_new_rank_key op).

Definition take_rk_index_op : cur RkIndexOp :=
  pk ← take_n 16 "rk index op payload too short for a pk_id";
  old_rank_key ← read_optional_key;
  new_rank_key ← read_optional_key;
  mret (mkRkIndexOp (from_bytes pk) old_rank_key new_rank_key).
Definition decode_rk_index_op (buf : bytes) : res RkIndexOp :=
  run_cur (ended "rk index op has trailing bytes" take_rk_index_op) buf 0.

(** ** lb.rs *)

Inductive LbScoreType := ScoreI64 | ScoreF64.
Inductive LbRule := RuleMax | RuleMin | RuleReplace.

Record LbClassDef := mkLbClass {
  lc_name : bytes; lc_score_type : LbScoreType; lc_display_len : Z; lc_rule : LbRule }.

Definition encode_score (d : LbClassDef) (value : FieldValue) : res bytes :=
  match lc_score_type d, value with
  | ScoreI64, FI64 _ | ScoreF64, FF64 _ => encode_rank_key value
  | _, _ => Err "lb class declares another score type"
  end.

Definition decode_rank_key (score_type : LbScoreType) (key : bytes) : FieldValue :=
  let enc := from_be key in
  match score_type with
  | ScoreI64 => FI64 (as_i64 (Z.lxor enc SIGN))
  | ScoreF64 =>
      FF64 (if negb (Z.land enc SIGN =? 0) then Z.lxor enc SIGN else Z.lxor enc (2 ^ 64 - 1))
  end.

(** ** tk.rs *)

Record TkClassDef := mkTkClass {
  tc_name : bytes; tc_value_type : FieldType; tc_value_width : Z; tc_sub_key_width : Z }.

Definition encode_ts (t : Z) : bytes := to_be 8 (Z.lxor (as_u64 t) SIGN).
Definition decode_ts (key : bytes) : Z := as_i64 (Z.lxor (from_be key) SIGN).

(** ** Flipping the sign bit *)

Lemma land_sign_small u : 0 <= u < SIGN -> Z.land u SIGN = 0.
Proof.
  intros Hu. change SIGN with (2 ^ 63) in *. apply Z.bits_inj'. intros i Hi.
  rewrite Z.land_spec, Z.pow2_bits_eqb, Z.bits_0 by lia. destruct (Z.eqb_spec 63 i) as [<-|]; [|by rewrite andb_false_r].
  rewrite andb_true_r. destruct (decide (u = 0)) as [->|]; [apply Z.bits_0|]. apply Z.bits_above_log2; [lia|]. apply Z.log2_lt_pow2; lia.
Qed.

Lemma flip_sign u : u64_ok u -> Z.lxor u SIGN = if u <? SIGN then u + SIGN else u - SIGN.
Proof.
  unfold uint_ok. intros Hu. destruct (Z.ltb_spec u SIGN) as [H|H].
  - symmetry. apply Z.add_nocarry_lxor, land_sign_small. lia.
  - assert (2 ^ 64 = 2 * SIGN) as E by done. pose proof (land_sign_small (u - SIGN) ltac:(lia)) as HL.
    pose proof (Z.add_nocarry_lxor _ _ HL) as HX. rewrite Z.sub_add in HX. rewrite HX at 1.
    by rewrite Z.lxor_assoc, Z.lxor_nilpotent, Z.lxor_0_r.
Qed.

Lemma sign_bit u : u64_ok u -> (Z.land u SIGN =? 0) = (u <? SIGN).
Proof.
  unfold uint_ok. intros Hu. destruct (Z.ltb_spec u SIGN) as [H|H]; [by rewrite land_sign_small by lia|].
  apply Z.eqb_neq. intros E. assert (Z.testbit u 63 = true) as Hb.
  { apply Z.testbit_true; [lia|]. replace (u / 2 ^ 63) with 1; [done|].
    apply (Z.div_unique u (2 ^ 63) 1 (u - 2 ^ 63)); [left|]; change SIGN with (2 ^ 63) in H; lia. }
  apply (f_equal (λ z, Z.testbit z 63)) in E. rewrite Z.land_spec, Hb in E. by vm_compute in E.
Qed.

Lemma flip_all u : u64_ok u -> Z.lxor u (2 ^ 64 - 1) = 2 ^ 64 - 1 - u.
Proof.
  unfold uint_ok. intros Hu. change (2 ^ 64 - 1) with (Z.ones 64).
  assert (forall i, 64 <= i -> Z.testbit u i = false) as Hhi.
  { intros i Hi. destruct (decide (u = 0)) as [->|]; [apply Z.bits_0|]. apply Z.bits_above_log2; [lia|].
    eapply Z.lt_le_trans; [|exact Hi]. apply Z.log2_lt_pow2; lia. }
  rewrite Z.sub_nocarry_ldiff.
  - apply Z.bits_inj'. intros i Hi. rewrite Z.lxor_spec, Z.ldiff_spec. destruct (Z.lt_ge_cases i 64) as [H|H].
    + rewrite Z.ones_spec_low by lia. by destruct (Z.testbit u i).
    + by rewrite Z.ones_spec_high, Hhi by lia.
  - apply Z.bits_inj'. intros i Hi. rewrite Z.ldiff_spec, Z.bits_0. destruct (Z.lt_ge_cases i 64) as [H|H].
    + rewrite Z.ones_spec_low by lia. apply andb_false_r.
    + by rewrite Hhi.
Qed.

(** ** The numbers behind the keys *)

(** [f64::total_cmp]: negative values in reverse below the positive ones, -0
    below 0, NaNs at the ends. *)
Definition f64_total (bits : Z) : Z := if bits <? SIGN then bits else SIGN - 1 - bits.

Lemma as_u64_flip v : i64_ok v -> Z.lxor (as_u64 v) SIGN = v + SIGN.
Proof.
  intros Hv. rewrite flip_sign by (by apply wrap_ok). unfold i64_ok, as_u64, wrap in *. change SIGN with (2 ^ 63).
  destruct (Z.ltb_spec v 0).
  - rewrite <- (Z_mod_plus_full v 1), Z.mod_small by lia. rewrite (proj2 (Z.ltb_ge _ _)); lia.
  - rewrite Z.mod_small by lia. rewrite (proj2 (Z.ltb_lt _ _)); lia.
Qed.

Lemma flip_as_i64 u : u64_ok u -> as_i64 (Z.lxor u SIGN) = u - SIGN.
Proof.
  intros Hu. rewrite flip_sign by done. unfold uint_ok, as_i64 in *. change SIGN with (2 ^ 63) in *.
  destruct (Z.ltb_spec u (2 ^ 63)); [rewrite (proj2 (Z.ltb_ge _ _)); lia|rewrite (proj2 (Z.ltb_lt _ _)); lia].
Qed.

Lemma f64_key bits :
  u64_ok bits -> Z.lxor bits (Z.lor (as_u64 (Z.shiftr (as_i64 bits) 63)) SIGN) = f64_total bits + SIGN.
Proof.
  intros Hb. unfold f64_total, as_i64. change (2 ^ 63) with SIGN. destruct (Z.ltb_spec bits SIGN) as [H|H].
  - assert (Z.shiftr bits 63 = 0) as ->.
    { unfold uint_ok in Hb. rewrite Z.shiftr_div_pow2 by lia. apply Z.div_small. change (2 ^ 63) with SIGN. lia. }
    rewrite Z.lor_0_l, flip_sign by done. by rewrite (proj2 (Z.ltb_lt _ _)).
  - assert (Z.shiftr (bits - 2 ^ 64) 63 = -1) as ->.
    { unfold uint_ok in Hb. rewrite Z.shiftr_div_pow2 by lia. symmetry. apply (Z.div_unique _ _ _ (bits - SIGN)).
      - left. change SIGN with (2 ^ 63) in *. lia.
      - change SIGN with (2 ^ 63). lia. }
    change (Z.lor (as_u64 (-1)) SIGN) with (2 ^ 64 - 1). rewrite flip_all by done. unfold SIGN. lia.
Qed.

Lemma f64_total_range bits : u64_ok bits -> i64_ok (f64_total bits).
Proof. unfold uint_ok, i64_ok, f64_total, SIGN. intros. destruct (Z.ltb_spec bits 9223372036854775808); lia. Qed.

Lemma to_be_order a b : u64_ok a -> u64_ok b -> bytes_cmp (to_be 8 a) (to_be 8 b) = Z.compare a b.
Proof.
  intros Ha Hb. rewrite bytes_cmp_from_be; [by rewrite !from_be_to_be|].
  pose proof (zlen_to_be 8 a). pose proof (zlen_to_be 8 b). unfold zlen in *. lia.
Qed.

Lemma compare_shift a b c : Z.compare (a + c) (b + c) = Z.compare a b.
Proof. by rewrite (Z.add_comm a), (Z.add_comm b), Z.add_compare_mono_l. Qed.

(** The number a rank key stands for. *)
Definition rank_number (v : FieldValue) : Z :=
  match v with FI64 i => i | FF64 bits => f64_total bits | _ => 0 end.

Definition is_score (ty : LbScoreType) (v : FieldValue) : Prop :=
  match ty, v with ScoreI64, FI64 i => i64_ok i | ScoreF64, FF64 bits => u64_ok bits | _, _ => False end.

Lemma rank_number_ok ty v : is_score ty v -> i64_ok (rank_number v).
Proof. destruct ty, v; try done. apply f64_total_range. Qed.

Lemma encode_rank_key_spec ty v : is_score ty v -> encode_rank_key v = Ok (to_be 8 (rank_number v + SIGN)).
Proof.
  destruct ty, v; try done; simpl; intros H; [by rewrite as_u64_flip|]. by rewrite f64_key.
Qed.

Lemma key_number_ok n : i64_ok n -> u64_ok (n + SIGN).
Proof. unfold i64_ok, uint_ok, SIGN. lia. Qed.

Lemma decode_rank_key_spec ty v : is_score ty v -> decode_rank_key ty (to_be 8 (rank_number v + SIGN)) = v.
Proof.
  intros Hv. pose proof (rank_number_ok _ _ Hv) as Hn. pose proof (key_number_ok _ Hn) as Hu.
  unfold decode_rank_key. rewrite from_be_to_be by done. destruct ty, v; try done; simpl in *.
  - rewrite flip_as_i64 by done. f_equal. lia.
  - rewrite sign_bit by done. f_equal. unfold f64_total in *. destruct (Z.ltb_spec bits SIGN) as [H|H].
    + unfold uint_ok in Hv. rewrite (proj2 (Z.ltb_ge _ _)) by lia. cbn [negb]. rewrite flip_sign by done.
      rewrite (proj2 (Z.ltb_ge _ _)) by lia. lia.
    + rewrite (proj2 (Z.ltb_lt _ _)) by lia. cbn [negb]. rewrite flip_all by done. unfold SIGN. lia.
Qed.

Lemma rank_key_len ty v k : is_score ty v -> encode_rank_key v = Ok k -> rank_key_ok k.
Proof. intros Hv. rewrite (encode_rank_key_spec ty) by done. intros [= <-]. by apply (zlen_to_be 8). Qed.

Lemma encode_ts_spec t : i64_ok t -> encode_ts t = to_be 8 (t + SIGN).
Proof. intros Ht. unfold encode_ts. by rewrite as_u64_flip. Qed.
Lemma zlen_encode_ts t : zlen (encode_ts t) = 8.
Proof. apply zlen_to_be. Qed.
#[export] Hint Rewrite zlen_encode_ts : zlen.
Lemma decode_encode_ts t : i64_ok t -> decode_ts (encode_ts t) = t.
Proof.
  intros Ht. unfold decode_ts. rewrite encode_ts_spec by done. pose proof (key_number_ok _ Ht) as Hu.
  rewrite from_be_to_be, flip_as_i64 by done. lia.
Qed.
Lemma encode_ts_order a b : i64_ok a -> i64_ok b -> bytes_cmp (encode_ts a) (encode_ts b) = Z.compare a b.
Proof.
  intros Ha Hb. rewrite !encode_ts_spec, to_be_order by (done || by apply key_number_ok). apply compare_shift.
Qed.

Lemma f64_order_spec a : u64_ok a -> f64_order a = if a <? SIGN then a else SIGN - a.
Proof.
  unfold uint_ok, f64_order, f64_magnitude. intros Ha. change (2 ^ 63) with SIGN. destruct (Z.ltb_spec a SIGN) as [H|H].
  - apply Z.mod_small. lia.
  - rewrite <- (Z.mod_unique a SIGN 1 (a - SIGN)); [lia|left; change SIGN with (2 ^ 63) in *; lia|lia].
Qed.

(** The total order refines the numeric one. *)
Lemma f64_total_ltb a b : u64_ok a -> u64_ok b -> f64_ltb a b = true -> f64_total a < f64_total b.
Proof.
  unfold f64_ltb, f64_total. intros Ha Hb [_ H]%andb_prop. apply Z.ltb_lt in H.
  rewrite !f64_order_spec in H by done. unfold uint_ok in *. destruct (Z.ltb_spec a SIGN), (Z.ltb_spec b SIGN); lia.
Qed.

(** Rank keys order as scores do: for two [i64] scores or two [f64] scores, the
    byte order of their eight-byte keys, which is the order of the ranked trees, is
    the order of the integers or the total order of the floats (which extends the
    numeric order and separates the two zeros and the NaNs), and decoding a key
    gives back the very score; timestamps are encoded the same way. *)
Theorem rank_keys_ordered ty v w t t' :
  is_score ty v -> is_score ty w -> i64_ok t -> i64_ok t' ->
  (exists k l, encode_rank_key v = Ok k /\ encode_rank_key w = Ok l /\
     bytes_cmp k l = Z.compare (rank_number v) (rank_number w) /\ rank_key_ok k /\ decode_rank_key ty k = v) /\
  (forall a b, v = FF64 a -> w = FF64 b -> f64_ltb a b = true -> rank_number v < rank_number w) /\
  bytes_cmp (encode_ts t) (encode_ts t') = Z.compare t t' /\ decode_ts (encode_ts t) = t.
Proof.
  intros Hv Hw Ht Ht'. pose proof (rank_number_ok _ _ Hv) as Hnv. pose proof (rank_number_ok _ _ Hw) as Hnw. split_and!.
  - exists (to_be 8 (rank_number v + SIGN)), (to_be 8 (rank_number w + SIGN)).
    rewrite (encode_rank_key_spec ty v), (encode_rank_key_spec ty w) by done. split_and!; try done.
    + rewrite to_be_order by (by apply key_number_ok). apply compare_shift.
    + by apply decode_rank_key_spec.
  - intros a b -> -> H. destruct ty; try done. by apply f64_total_ltb.
  - by apply encode_ts_order.
  - by apply decode_encode_ts.
Qed.

Lemma rank_keys_ordered_witness :
  exists k l, encode_rank_key (FI64 (-5)) = Ok k /\ encode_rank_key (FI64 3) = Ok l /\ bytes_cmp k l = Lt.
Proof.
  destruct (rank_keys_ordered ScoreI64 (FI64 (-5)) (FI64 3) 0 1) as ((k & l & Hk & Hl & Hc & _) & _);
    [split; done..|]. exists k, l. by rewrite Hc.
Defined.

(** ** The ranked index's update *)

Definition rk_index_op_ok (op : RkIndexOp) : Prop :=
  datum_ok (ri_pk_id op) /\ opt_ok rank_key_ok (ri_old_rank_key op) /\ opt_ok rank_key_ok (ri_new_rank_key op).

Lemma parses_optional_key k : opt_ok rank_key_ok k -> parses read_optional_key (push_optional_key k) k.
Proof.
  intros Hk. destruct k as [k|]; unfold read_optional_key, push_optional_key.
  - change (u8 1 :: k) with ([u8 1] ++ k). eapply parses_bind; [apply parses_take_byte|].
    rewrite byte_val_u8_small by done. simpl. eapply parses_bind_nil; [by apply parses_take_n|]. apply parses_ret.
  - change [u8 0] with ([u8 0] ++ @nil byte). eapply parses_bind; [apply parses_take_byte|].
    rewrite byte_val_u8_small by done. apply parses_ret.
Qed.

Lemma decodes_optional_key :
  decodes read_optional_key (λ b _ k, b = push_optional_key k /\ opt_ok rank_key_ok k).
Proof.
  unfold read_optional_key. eapply decodes_bind; [apply decodes_take_byte|]. intros b flag _.
  destruct (Z.eqb_spec (byte_val flag) 0) as [E|_]; [|destruct (Z.eqb_spec (byte_val flag) 1) as [E|_]].
  - apply decodes_ret. intros r ->. by rewrite (byte_val_eq _ _ E).
  - eapply decodes_bind; [by apply decodes_take_n|]. intros b' v _. apply decodes_ret. intros r [-> Hv] ->.
    by rewrite (byte_val_eq _ _ E), app_nil_r.
  - apply decodes_err.
Qed.

Lemma rk_index_codec : exact_codec encode_rk_index_op decode_rk_index_op rk_index_op_ok.
Proof.
  apply exact_of_ended.
  - intros [pk o n] (Hp & Ho & Hn). unfold take_rk_index_op, encode_rk_index_op. simpl in *.
    eapply parses_bind; [apply parses_take_n, zlen_as_bytes|]. eapply parses_bind; [by apply parses_optional_key|].
    eapply parses_bind_nil; [by apply parses_optional_key|]. rewrite from_bytes_as_bytes by done. apply parses_ret.
  - unfold take_rk_index_op. eapply decodes_bind; [by apply decodes_take_n|]. intros b pk _.
    eapply decodes_bind; [apply decodes_optional_key|]. intros b1 o _.
    eapply decodes_bind; [apply decodes_optional_key|]. intros b2 n _. apply decodes_ret.
    intros r [-> Hn] [-> Ho] [-> Hp]. unfold encode_rk_index_op. simpl. rewrite as_bytes_from_bytes, app_nil_r by done.
    split; [done|]. split_and!; [by apply from_bytes_ok|done..].
Qed.
