(* ===== verification/Indexes.v ===== *)
(** * Resident indexes and the two blob kinds

    Models the interface of [crates/seisin-node/src/index_handler.rs] and its two
    implementations whose state is a stored blob: the secondary-key index of
    [crates/seisin-types/src/sk_index.rs] and the pending-reference list of
    [fk.rs]. The text of a message built with [format!] is its constant part. *)

From S2P Require Import Prelude Core Codec Protocol Names.

(** ** index_handler.rs *)

Inductive WriteThrough := WtNone | WtPut (content : bytes) | WtDelete.

Record IndexApplyOutcome := mkOutcome { violation : option bytes; write_through : WriteThrough }.

Definition rejected (msg : bytes) : IndexApplyOutcome := mkOutcome (Some msg) WtNone.

(** The trait: a method that mutates gives the new state; [query] takes [&self]
    but a kind may refresh what it caches. *)
Class ResidentIndex (S : Type) := {
  ix_apply : S -> bytes -> S * res IndexApplyOutcome;
  ix_query : S -> bytes -> S * res bytes;
  ix_execute : S -> bytes -> S * res bytes
}.

(** The trait's defaults. *)
Definition no_query {S} (s : S) (_ : bytes) : S * res bytes := (s, Err "this index kind supports no queries").
Definition no_execute {S} (s : S) (_ : bytes) : S * res bytes := (s, Err "this index kind supports no execute ops").

(** A query or an execute call does not panic and keeps the state well formed. *)
Definition call_ok {S} (ok : S -> Prop) (f : S -> bytes -> S * res bytes) : Prop :=
  forall s payload, ok s -> ok (f s payload).1 /\ (f s payload).2 <> Panic.

(** What the worker relies on: no call panics, each keeps the state well formed,
    and an apply that rejects the update leaves the state alone and writes
    nothing. *)
Class ResidentIndexLaws (S : Type) `{!ResidentIndex S} (ok : S -> Prop) : Prop := {
  ix_apply_contract : forall s payload, ok s ->
    exists s' o, ix_apply s payload = (s', Ok o) /\ ok s' /\ (is_Some (violation o) -> s' = s /\ write_through o = WtNone);
  ix_query_contract : call_ok ok ix_query;
  ix_execute_contract : call_ok ok ix_execute
}.

(** ** sk_index.rs *)

Inductive SkIndexOp :=
| SkInsert (pk_id : DatumId) (unique_conflict_op : option bytes)
| SkRemove (pk_id : DatumId).

Definition SK_OP_INSERT : Z := 0.
Definition SK_OP_REMOVE : Z := 1.

Definition encode_sk_index_op (op : SkIndexOp) : bytes :=
  match op with
  | SkInsert pk_id unique_conflict_op =>
      u8 SK_OP_INSERT :: as_bytes pk_id ++
      match unique_conflict_op with
      | None => [u8 0]
      | Some name => u8 1 :: to_le 4 (wrap 32 (zlen name)) ++ name
      end
  | SkRemove pk_id => u8 SK_OP_REMOVE :: as_bytes pk_id
  end.

Definition decode_conflict_op (buf : bytes) : res (option bytes) :=
  flag ← index buf 17;
  if byte_val flag =? 0 then Ok None
  else if byte_val flag =? 1 then
    if zlen buf <? 22 then Err "sk insert op payload too short for its conflict_op length" else
    len ← slice buf 18 22;
    let name_len := from_le len in
    if negb (zlen buf =? 22 + name_len) then Err "sk insert op payload length mismatch for its conflict_op name" else
    name ← slice buf 22 (22 + name_len);
    name ← from_utf8 name;
    Ok (Some name)
  else Err "unknown sk insert op conflict_op flag".

Definition decode_sk_index_op (buf : bytes) : res SkIndexOp :=
  if zlen buf =? 0 then Err "sk index op payload is empty" else
  if zlen buf <? 17 then Err "sk index op payload too short for a pk_id" else
  pk ← slice buf 1 17;
  tag ← index buf 0;
  if byte_val tag =? SK_OP_REMOVE then Ok (SkRemove (from_bytes pk))
  else if byte_val tag =? SK_OP_INSERT then
    if zlen buf <? 18 then Err "sk insert op payload too short for its conflict_op flag" else
    unique_conflict_op ← decode_conflict_op buf;
    Ok (SkInsert (from_bytes pk) unique_conflict_op)
  else Err "unknown sk index op tag".

Record SkResidentIndex := mkSk { sk_entries : list (DatumId * AuthorityIdx) }.

(** [outcome] of both blob kinds: an emptied list deletes the stored datum. *)
Definition blob_outcome {A} (encode : list A -> bytes) (entries : list A) : IndexApplyOutcome :=
  mkOutcome None (match entries with [] => WtDelete | _ :: _ => WtPut (encode entries) end).

Definition sk_apply_op (s : SkResidentIndex) (op : SkIndexOp) : SkResidentIndex * IndexApplyOutcome :=
  match op with
  | SkRemove pk_id =>
      let s := mkSk (filter (λ e : DatumId * AuthorityIdx, e.1 <> pk_id) (sk_entries s)) in
      (s, blob_outcome encode_sk_entries (sk_entries s))
  | SkInsert pk_id unique_conflict_op =>
      let insert :=
        let s := if existsb (λ e, e.1 =? pk_id) (sk_entries s) then s
                 else mkSk (sk_entries s ++ [(pk_id, Native)]) in
        (s, blob_outcome encode_sk_entries (sk_entries s)) in
      match unique_conflict_op with
      | Some conflict_op =>
          if existsb (λ e, negb (e.1 =? pk_id)) (sk_entries s) then (s, rejected conflict_op) else insert
      | None => insert
      end
  end.

Definition sk_apply (s : SkResidentIndex) (payload : bytes) : SkResidentIndex * res IndexApplyOutcome :=
  match decode_sk_index_op payload with
  | Ok op => let '(s, o) := sk_apply_op s op in (s, Ok o)
  | Err _ => (s, Ok (rejected (lit "malformed sk index payload")))
  | Panic => (s, Panic)
  end.

(** [SkIndexKind::open] *)
Definition sk_open (stored : option bytes) : res SkResidentIndex :=
  match stored with
  | Some bs => entries ← decode_sk_entries bs; Ok (mkSk entries)
  | None => Ok (mkSk [])
  end.

#[export] Instance sk_resident : ResidentIndex SkResidentIndex :=
  { ix_apply := sk_apply; ix_query := no_query; ix_execute := no_execute }.

(** ** fk.rs *)

Record FkPendingResident := mkFk { fk_entries : list (DatumId * DatumId) }.

Definition fk_remove (s : FkPendingResident) (referencing_pk target : DatumId) : FkPendingResident :=
  mkFk (filter (λ pair, pair <> (referencing_pk, target)) (fk_entries s)).

Definition fk_apply (s : FkPendingResident) (payload : bytes) : FkPendingResident * res IndexApplyOutcome :=
  match decode_fk_pending_op payload with
  | Ok (FkInsert referencing_pk target) =>
      let pair := (referencing_pk, target) in
      let s := if bool_decide (pair ∈ fk_entries s) then s else mkFk (fk_entries s ++ [pair]) in
      (s, Ok (blob_outcome encode_fk_entries (fk_entries s)))
  | Ok (FkRemove referencing_pk target) =>
      let s := fk_remove s referencing_pk target in
      (s, Ok (blob_outcome encode_fk_entries (fk_entries s)))
  | Ok FkList => (s, Ok (rejected (lit "fk_pending List is a query, not an apply")))
  | Err _ => (s, Ok (rejected (lit "malformed fk_pending payload")))
  | Panic => (s, Panic)
  end.

Definition fk_query (s : FkPendingResident) (query : bytes) : FkPendingResident * res bytes :=
  (s, op ← decode_fk_pending_op query;
      match op with
      | FkList => Ok (encode_fk_entries (fk_entries s))
      | _ => Err "fk_pending query supports only List"
      end).

Definition fk_execute (s : FkPendingResident) (payload : bytes) : FkPendingResident * res bytes :=
  match decode_fk_pending_op payload with
  | Ok (FkRemove referencing_pk target) =>
      let s := fk_remove s referencing_pk target in (s, Ok (encode_fk_entries (fk_entries s)))
  | Ok _ => (s, Err "fk_pending execute supports only Remove")
  | Err e => (s, Err e)
  | Panic => (s, Panic)
  end.

(** [FkPendingKind::open] *)
Definition fk_open (stored : option bytes) : res FkPendingResident :=
  match stored with
  | Some bs => entries ← decode_fk_entries bs; Ok (mkFk entries)
  | None => Ok (mkFk [])
  end.

#[export] Instance fk_resident : ResidentIndex FkPendingResident :=
  { ix_apply := fk_apply; ix_query := fk_query; ix_execute := fk_execute }.

(** What the stored datum holds after a write-through. *)
Definition stored_after (stored : option bytes) (w : WriteThrough) : option bytes :=
  match w with WtNone => stored | WtPut bs => Some bs | WtDelete => None end.

(** ** Secondary-key updates on the wire *)

Definition sk_op_ok (op : SkIndexOp) : Prop :=
  match op with SkInsert pk u => datum_ok pk /\ opt_ok string_ok u | SkRemove pk => datum_ok pk end.

Lemma decode_sk_op_prefix tag pk rest :
  0 <= tag < 256 -> datum_ok pk ->
  decode_sk_index_op (u8 tag :: as_bytes pk ++ rest) =
    if tag =? SK_OP_REMOVE then Ok (SkRemove pk)
    else if tag =? SK_OP_INSERT then
      if 17 + zlen rest <? 18 then Err "sk insert op payload too short for its conflict_op flag" else
      u ← decode_conflict_op (u8 tag :: as_bytes pk ++ rest); Ok (SkInsert pk u)
    else Err "unknown sk index op tag".
Proof.
  intros Ht Hpk. pose proof (zlen_nonneg rest). unfold decode_sk_index_op. set (buf := u8 tag :: as_bytes pk ++ rest).
  assert (zlen buf = 17 + zlen rest) as Hl by (unfold buf; fixed_len). rewrite Hl.
  rewrite (proj2 (Z.eqb_neq (17 + zlen rest) 0)), (proj2 (Z.ltb_ge (17 + zlen rest) 17)) by lia.
  assert (slice buf 1 17 = Ok (as_bytes pk)) as -> by (unfold buf; by fixed_read).
  change (index buf 0) with (Ok (u8 tag)). rsimpl. by rewrite byte_val_u8_small, from_bytes_as_bytes by done.
Qed.

Lemma decode_encode_sk_op op : sk_op_ok op -> decode_sk_index_op (encode_sk_index_op op) = Ok op.
Proof.
  destruct op as [pk u|pk]; simpl; unfold encode_sk_index_op.
  - intros [Hpk Hu]. rewrite decode_sk_op_prefix by done. simpl. destruct u as [name|].
    + destruct Hu as [Hf Hu]. pose proof (zlen_nonneg name). rewrite wrap_small by done.
      rewrite (proj2 (Z.ltb_ge _ 18)) by fixed_len. unfold decode_conflict_op. set (buf := u8 SK_OP_INSERT :: _).
      assert (zlen buf = 22 + zlen name) as Hl by (unfold buf; fixed_len). rewrite Hl.
      rewrite (proj2 (Z.ltb_ge (22 + zlen name) 22)) by lia. unfold buf. fixed_read. rsimpl.
      rewrite byte_val_u8_small by done. simpl. rewrite from_le_to_le, Z.eqb_refl by done. cbn [negb].
      replace (22 + zlen name) with (zlen buf) by lia. unfold buf. fixed_read. rsimpl. unfold from_utf8. by rewrite Hu.
    + unfold decode_conflict_op. fixed_read. rsimpl. by rewrite byte_val_u8_small.
  - intros Hpk. rewrite <- (app_nil_r (as_bytes pk)). by rewrite decode_sk_op_prefix.
Qed.

Lemma decode_conflict_op_spec buf :
  18 <= zlen buf ->
  match decode_conflict_op buf with Ok u => opt_ok string_ok u | Err _ => True | Panic => False end.
Proof.
  intros Hl. unfold decode_conflict_op. destruct (index_ok buf 17 ltac:(lia)) as (flag & -> & _). rsimpl.
  destruct (_ =? 0); [done|]. destruct (_ =? 1); [|done]. destruct (Z.ltb_spec (zlen buf) 22); [done|].
  rewrite slice_ok by lia. rsimpl. pose proof (from_le_range (sub_bytes buf 18 22)) as HR.
  rewrite sub_bytes_len in HR by lia. destruct (Z.eqb_spec (zlen buf) (22 + from_le (sub_bytes buf 18 22))) as [E|]; [|done].
  cbn [negb]. unfold uint_ok in HR. rewrite slice_ok by lia. rsimpl. unfold from_utf8.
  destruct (utf8_valid _) eqn:Hu; rsimpl; [|done]. split; [|done]. unfold field_ok, uint_ok. rewrite sub_bytes_len by lia.
  change (8 * (22 - 18)) with 32 in HR. lia.
Qed.

Lemma decode_sk_op_spec buf :
  match decode_sk_index_op buf with Ok op => sk_op_ok op | Err _ => True | Panic => False end.
Proof.
  unfold decode_sk_index_op. pose proof (zlen_nonneg buf). destruct (Z.eqb_spec (zlen buf) 0); [done|].
  destruct (Z.ltb_spec (zlen buf) 17); [done|]. rewrite slice_ok by lia. rsimpl.
  destruct (index_ok buf 0 ltac:(lia)) as (tag & -> & _). rsimpl.
  assert (datum_ok (from_bytes (sub_bytes buf 1 17))) as Hpk by (apply from_bytes_ok; rewrite sub_bytes_len; lia).
  destruct (_ =? SK_OP_REMOVE); [done|]. destruct (_ =? SK_OP_INSERT); [|done].
  destruct (Z.ltb_spec (zlen buf) 18); [done|]. pose proof (decode_conflict_op_spec buf ltac:(lia)) as Hs.
  by destruct (decode_conflict_op buf); rsimpl.
Qed.

(** ** The entry list is a set *)

Definition sk_ids (s : SkResidentIndex) : list DatumId := map fst (sk_entries s).

Definition sk_ok (s : SkResidentIndex) : Prop := NoDup (sk_ids s) /\ Forall sk_entry_ok (sk_entries s).

Lemma has_entry pk (es : list (DatumId * AuthorityIdx)) :
  existsb (λ e, e.1 =? pk) es = bool_decide (pk ∈ map fst es).
Proof.
  apply eq_bool_prop_intro. rewrite bool_decide_spec. split.
  - intros H%Is_true_eq_true. apply existsb_exists in H as (e & He & E). apply Z.eqb_eq in E. subst.
    apply list_elem_of_fmap. exists e. by rewrite list_elem_of_In.
  - intros (e & -> & He)%list_elem_of_fmap. apply Is_true_eq_left, existsb_exists. exists e.
    split; [by apply list_elem_of_In|apply Z.eqb_refl].
Qed.

Lemma has_other_entry pk (es : list (DatumId * AuthorityIdx)) :
  existsb (λ e, negb (e.1 =? pk)) es = negb (bool_decide (Forall (λ y, y = pk) (map fst es))).
Proof.
  induction es as [|e es IH]; [done|]. simpl. rewrite IH. destruct (Z.eqb_spec e.1 pk) as [He|Hne]; simpl.
  - f_equal. apply bool_decide_ext. rewrite Forall_cons. naive_solver.
  - rewrite bool_decide_eq_false_2; [done|]. intros HF. by apply Forall_cons in HF as [? _].
Qed.

Lemma sk_apply_op_ok s op : sk_ok s -> sk_op_ok op -> sk_ok (sk_apply_op s op).1.
Proof.
  intros [Hnd HF] Hop. destruct op as [pk u|pk]; simpl.
  - rewrite has_entry. assert (sk_ok (if bool_decide (pk ∈ map fst (sk_entries s)) then s else mkSk (sk_entries s ++ [(pk, Native)]))).
    { case_bool_decide as H; [done|]. split.
      - unfold sk_ids. simpl. rewrite map_app. apply NoDup_app. split_and!; [done| |apply NoDup_singleton]. set_solver.
      - simpl. apply Forall_app. split; [done|]. apply Forall_singleton. by destruct Hop. }
    destruct u as [c|]; [|done]. by destruct (existsb _ (sk_entries s)).
  - split.
    + unfold sk_ids in *. simpl. eapply sublist_NoDup; [exact Hnd|]. apply (fmap_sublist fst), sublist_filter.
    + simpl. apply Forall_forall. intros e He. apply list_elem_of_filter in He as [_ He]. rewrite Forall_forall in HF. by apply HF.
Qed.

Lemma sk_apply_contract s payload :
  exists s' o, sk_apply s payload = (s', Ok o) /\ (sk_ok s -> sk_ok s') /\
    (is_Some (violation o) -> s' = s /\ write_through o = WtNone).
Proof.
  unfold sk_apply. pose proof (decode_sk_op_spec payload) as Hd.
  destruct (decode_sk_index_op payload) as [op|m|]; [|by exists s, (rejected (lit "malformed sk index payload"))|done].
  pose proof (λ Hs, sk_apply_op_ok s op Hs Hd) as Hs'. destruct (sk_apply_op s op) as [s' o] eqn:E.
  exists s', o. split_and!; [done|done|]. intros Hv. destruct op as [pk u|pk]; simpl in E.
  - destruct u as [c|]; [destruct (existsb _ _)|]; injection E as <- <-; [done|by destruct Hv..].
  - injection E as <- <-. by destruct Hv.
Qed.

#[export] Instance sk_laws : ResidentIndexLaws SkResidentIndex sk_ok.
Proof.
  split; [|done..]. intros s payload Hs. destruct (sk_apply_contract s payload) as (s' & o & E & Hok & Hv).
  exists s', o. auto.
Qed.

(** The worker may open an index whose stored list repeats a key. *)
Lemma sk_laws_any : ResidentIndexLaws SkResidentIndex (λ _, True).
Proof.
  split; [|done..]. intros s payload _. destruct (sk_apply_contract s payload) as (s' & o & E & _ & Hv). by exists s', o.
Qed.

Lemma blob_outcome_reopens {A S} (encode : list A -> bytes) (decode : bytes -> res (list A)) (mk : list A -> S) es stored :
  decode (encode es) = Ok es ->
  match stored_after stored (write_through (blob_outcome encode es)) with
  | Some bs => entries ← decode bs; Ok (mk entries)
  | None => Ok (mk [])
  end = Ok (mk es).
Proof. intros H. destruct es as [|e es]; [done|]. simpl. by rewrite H. Qed.

(** A set of ids, one of them wished to be the only one. *)
Definition conflicts (s : SkResidentIndex) (op : SkIndexOp) : option bytes :=
  match op with
  | SkInsert pk (Some c) => if bool_decide (Forall (λ y, y = pk) (sk_ids s)) then None else Some c
  | _ => None
  end.

Definition sk_ids_after (ids : list DatumId) (op : SkIndexOp) : gset DatumId :=
  match op with
  | SkInsert pk _ => {[pk]} ∪ list_to_set ids
  | SkRemove pk => list_to_set ids ∖ {[pk]}
  end.

Lemma sk_apply_op_accepts s op :
  conflicts s op = None ->
  let s' := (sk_apply_op s op).1 in
  (sk_apply_op s op).2 = blob_outcome encode_sk_entries (sk_entries s') /\
  list_to_set (sk_ids s') = sk_ids_after (sk_ids s) op.
Proof.
  intros Hc. destruct op as [pk u|pk]; simpl in *.
  - assert (sk_apply_op s (SkInsert pk u) =
      let s' := if bool_decide (pk ∈ sk_ids s) then s else mkSk (sk_entries s ++ [(pk, Native)]) in
      (s', blob_outcome encode_sk_entries (sk_entries s'))) as E.
    { simpl. rewrite has_entry. destruct u as [c|]; [|done]. rewrite has_other_entry. fold (sk_ids s).
      by destruct (bool_decide (Forall _ _)). }
    simpl in E. rewrite E. simpl. split; [done|]. case_bool_decide as H; [set_solver|].
    unfold sk_ids. simpl. rewrite map_app. simpl. set_solver.
  - split; [done|]. unfold sk_ids. simpl. apply set_eq. intros x.
    rewrite elem_of_difference, !elem_of_list_to_set, elem_of_singleton, !list_elem_of_fmap.
    split.
    + intros (e & -> & [Hne He]%list_elem_of_filter). split; [by exists e|done].
    + intros [(e & -> & He) Hne]. exists e. split; [done|]. by apply list_elem_of_filter.
Qed.

Lemma sk_apply_op_rejects s op c : conflicts s op = Some c -> sk_apply_op s op = (s, rejected c).
Proof.
  destruct op as [pk [u|]|pk]; simpl; [|done..]. rewrite has_other_entry. fold (sk_ids s).
  destruct (bool_decide _); [done|]. by intros [= ->].
Qed.

Lemma sk_ids_after_size s op :
  NoDup (sk_ids s) -> (size (sk_ids_after (sk_ids s) op) <= S (length (sk_ids s)))%nat.
Proof.
  intros Hnd. pose proof (λ pk, subseteq_size (list_to_set (sk_ids s) ∖ {[pk]}) (list_to_set (sk_ids s) : gset Z) ltac:(set_solver)) as HS.
  rewrite size_list_to_set in HS by done. destruct op as [pk u|pk]; simpl; specialize (HS pk); [|lia].
  rewrite (size_union_alt {[pk]} (list_to_set (sk_ids s) : gset Z)), size_singleton. lia.
Qed.

Lemma sk_ids_after_unique s op :
  conflicts s op = None -> (forall pk u, op = SkInsert pk u -> is_Some u) -> NoDup (sk_ids s) ->
  (length (sk_ids s) <= 1)%nat -> (size (sk_ids_after (sk_ids s) op) <= 1)%nat.
Proof.
  intros Hc Hu Hnd H1. destruct op as [pk u|pk]; simpl.
  - destruct (Hu pk u eq_refl) as [c ->]. simpl in Hc. case_bool_decide as HA; [|done].
    assert ({[pk]} ∪ list_to_set (sk_ids s) = ({[pk]} : gset Z)) as ->; [|by rewrite size_singleton].
    rewrite Forall_forall in HA. set_solver.
  - etrans; [|exact H1]. rewrite <- (size_list_to_set (C := gset Z)) by done. apply subseteq_size. set_solver.
Qed.

(** A secondary-key index is a set with an optional uniqueness rule: the update
    of a well-formed operation either, when the operation demands uniqueness and
    another key is present, is rejected with the declared conflict operation's name
    and changes nothing, or adds or removes exactly its key; what is then stored
    reopens to exactly the resident list, an emptied list being deleted from
    storage; and under operations that demand uniqueness an index never comes to
    hold two keys. *)
Theorem sk_index_is_a_set s op stored :
  sk_ok s -> sk_op_ok op -> sk_open stored = Ok s -> zlen (sk_entries s) + 1 < 2 ^ 32 ->
  exists s' o, sk_apply s (encode_sk_index_op op) = (s', Ok o) /\ sk_ok s' /\
    sk_open (stored_after stored (write_through o)) = Ok s' /\
    violation o = conflicts s op /\
    (is_Some (conflicts s op) -> s' = s) /\
    (conflicts s op = None -> list_to_set (sk_ids s') = sk_ids_after (sk_ids s) op) /\
    ((forall pk u, op = SkInsert pk u -> is_Some u) -> (length (sk_ids s) <= 1)%nat -> (length (sk_ids s') <= 1)%nat).
Proof.
  intros Hs Hop Hopen Hlen. unfold sk_apply. rewrite decode_encode_sk_op by done.
  pose proof (sk_apply_op_ok s op Hs Hop) as Hs'. destruct (conflicts s op) as [c|] eqn:Hc.
  { rewrite (sk_apply_op_rejects s op c) in * by done. exists s, (rejected c). by split_and!. }
  destruct (sk_apply_op_accepts s op Hc) as [Ho Hids]. destruct (sk_apply_op s op) as [[es'] o]. simpl in *. subst o.
  exists (mkSk es'), (blob_outcome encode_sk_entries es'). destruct Hs as [Hnd _]. destruct (Hs') as [Hnd' HF'].
  assert (length (sk_ids (mkSk es')) = size (sk_ids_after (sk_ids s) op)) as Hsz by (by rewrite <- Hids, size_list_to_set).
  pose proof (sk_ids_after_size s op Hnd) as Hsz'. split_and!; try done.
  - apply (blob_outcome_reopens encode_sk_entries decode_sk_entries mkSk es' stored).
    apply decode_sk_entries_encode; [done|]. unfold zlen, sk_ids in *. rewrite !length_map in *. simpl in *. lia.
  - intros Hu H1. rewrite Hsz. by apply sk_ids_after_unique.
Qed.

Lemma sk_index_is_a_set_witness :
  exists s', sk_apply (mkSk [(5, Native)]) (encode_sk_index_op (SkInsert 9 (Some (lit "merge")))) =
    (s', Ok (rejected (lit "merge"))) /\ s' = mkSk [(5, Native)].
Proof.
  destruct (sk_index_is_a_set (mkSk [(5, Native)]) (SkInsert 9 (Some (lit "merge"))) (Some (encode_sk_entries [(5, Native)])))
    as (s' & o & E & _ & _ & Hv & Hs & _).
  - split; [apply NoDup_singleton|by apply Forall_singleton].
  - done.
  - by vm_compute.
  - done.
  - exists s'. rewrite E. rewrite Hs by (by eexists). split; [|done]. clear -E. vm_compute in E. by injection E as <- <-.
Defined.

(** ** Pending references *)

Definition fk_ok (s : FkPendingResident) : Prop := NoDup (fk_entries s) /\ Forall fk_entry_ok (fk_entries s).

Lemma fk_remove_ok s a b : fk_ok s -> fk_ok (fk_remove s a b).
Proof.
  intros [Hnd HF]. split; simpl; [eapply sublist_NoDup; [exact Hnd|apply sublist_filter]|].
  apply Forall_forall. intros e He. apply list_elem_of_filter in He as [_ He]. rewrite Forall_forall in HF. by apply HF.
Qed.

Lemma fk_insert_ok s a b :
  fk_ok s -> datum_ok a -> datum_ok b ->
  fk_ok (if bool_decide ((a, b) ∈ fk_entries s) then s else mkFk (fk_entries s ++ [(a, b)])).
Proof.
  intros [Hnd HF] Ha Hb. case_bool_decide as H; [done|]. split; simpl.
  - apply NoDup_app. split_and!; [done| |apply NoDup_singleton]. set_solver.
  - apply Forall_app. split; [done|]. by apply Forall_singleton.
Qed.

Lemma fk_query_contract : call_ok fk_ok fk_query.
Proof.
  intros s q Hs. split; [done|]. simpl. pose proof (codec_sound _ _ _ fk_op_codec q) as Hd.
  by destruct (decode_fk_pending_op q) as [[| |]|m|].
Qed.

Lemma fk_execute_contract : call_ok fk_ok fk_execute.
Proof.
  intros s q Hs. unfold fk_execute. pose proof (codec_sound _ _ _ fk_op_codec q) as Hd.
  destruct (decode_fk_pending_op q) as [[|a b|a b]|m|]; try done. split; [by apply fk_remove_ok|done].
Qed.

#[export] Instance fk_laws : ResidentIndexLaws FkPendingResident fk_ok.
Proof.
  split; [|exact fk_query_contract|exact fk_execute_contract].
  intros s payload Hs. simpl. unfold fk_apply. pose proof (codec_sound _ _ _ fk_op_codec payload) as Hd.
  destruct (decode_fk_pending_op payload) as [[|a b|a b]|m|]; [..|done].
  - by exists s, (rejected (lit "fk_pending List is a query, not an apply")).
  - eexists _, _. split; [done|]. split; [by apply fk_remove_ok|by intros []].
  - eexists _, _. split; [done|]. destruct Hd as [_ [Ha Hb]]. split; [by apply fk_insert_ok|by intros []].
  - by exists s, (rejected (lit "malformed fk_pending payload")).
Qed.

(** The pending list is a set of references that survives a restart: inserting
    a reference again changes nothing, removing drops exactly it, both write
    through a blob (or a deletion, once drained) that reopens to the resident list,
    and the listing answers its content; the scan driver's removal through
    [execute] changes the resident list alone, so the stored blob still reopens to
    the list as it was. *)
Theorem fk_pending_is_a_set s a b stored :
  fk_ok s -> datum_ok a -> datum_ok b -> fk_open stored = Ok s -> zlen (fk_entries s) + 1 < 2 ^ 32 ->
  (exists s1 o, fk_apply s (encode_fk_pending_op (FkInsert a b)) = (s1, Ok o) /\ fk_ok s1 /\ violation o = None /\
     fk_open (stored_after stored (write_through o)) = Ok s1 /\
     list_to_set (fk_entries s1) = ({[(a, b)]} ∪ list_to_set (fk_entries s) : gset (Z * Z))) /\
  (exists s2 o, fk_apply s (encode_fk_pending_op (FkRemove a b)) = (s2, Ok o) /\ fk_ok s2 /\ violation o = None /\
     fk_open (stored_after stored (write_through o)) = Ok s2 /\
     list_to_set (fk_entries s2) = (list_to_set (fk_entries s) ∖ {[(a, b)]} : gset (Z * Z)) /\
     fk_execute s (encode_fk_pending_op (FkRemove a b)) = (s2, Ok (encode_fk_entries (fk_entries s2)))) /\
  (exists bs, fk_query s (encode_fk_pending_op FkList) = (s, Ok bs) /\ decode_fk_entries bs = Ok (fk_entries s)).
Proof.
  intros Hs Ha Hb Hopen Hlen. unfold fk_apply, fk_execute, fk_query.
  rewrite !(codec_complete _ _ _ fk_op_codec) by done.
  assert (forall s', fk_ok s' -> (length (fk_entries s') <= S (length (fk_entries s)))%nat ->
    decode_fk_entries (encode_fk_entries (fk_entries s')) = Ok (fk_entries s')) as Hdec.
  { intros s' [_ HF] Hl. apply (codec_complete _ _ _ fk_entries_codec). split; [|done]. unfold uint_ok, zlen in *. lia. }
  assert (forall s', fk_ok s' -> (length (fk_entries s') <= S (length (fk_entries s)))%nat ->
    fk_open (stored_after stored (write_through (blob_outcome encode_fk_entries (fk_entries s')))) = Ok s') as Hre.
  { intros [es'] Hs' Hl. apply (blob_outcome_reopens encode_fk_entries decode_fk_entries mkFk es' stored). by apply (Hdec (mkFk es')). }
  split_and!.
  - pose proof (fk_insert_ok s a b Hs Ha Hb) as Hi. eexists _, _. split; [done|]. split_and!; [done|done| |].
    + apply Hre; [done|]. case_bool_decide; [lia|]. simpl. rewrite length_app. simpl. lia.
    + case_bool_decide; simpl; set_solver.
  - pose proof (fk_remove_ok s a b Hs) as Hi. eexists _, _. split; [done|]. split_and!; [done|done| | |done].
    + apply Hre; [done|]. simpl. etrans; [apply length_filter|lia].
    + simpl. apply set_eq. intros x. rewrite elem_of_difference, !elem_of_list_to_set, elem_of_singleton, list_elem_of_filter. tauto.
  - eexists. split; [done|]. apply Hdec; [done|lia].
Qed.

Lemma fk_pending_is_a_set_witness :
  exists bs, fk_query (mkFk [(1, 2)]) (encode_fk_pending_op FkList) = (mkFk [(1, 2)], Ok bs) /\ decode_fk_entries bs = Ok [(1, 2)].
Proof.
  destruct (fk_pending_is_a_set (mkFk [(1, 2)]) 3 4 (Some (encode_fk_entries [(1, 2)]))) as (_ & _ & H); [..|exact H].
  - split; [apply NoDup_singleton|by apply Forall_singleton].
  - done.
  - done.
  - by vm_compute.
  - done.
Defined.
