(* ===== verification/TreeKinds.v ===== *)
(** * Ranked indexes and partitions

    Models the two index kinds that keep a plain ordered file:
    [crates/seisin-types/src/rk_kind.rs] (a ranked index, keyed by rank key and id)
    and [partition.rs] (a partition of a type, keyed by id). They are written
    against the interface of [RankedTree.v], and each is shown to be an ordered
    set. *)

From S2P Require Import Prelude Core Codec Protocol Names Pages BTree BTreeRep BTreeQuery BTreeInsert BTreeSpec RankKeys Indexes RankedTree.

(** A data directory: the files by name. *)
Abbreviation directory := (gmap bytes bytes) (only parsing).

(** [file_name_for] of each kind. *)
Definition file_name (prefix : string) (target : DatumId) : bytes :=
  lit prefix ++ lit "_" ++ hex (as_bytes target) ++ lit ".btree".

(** [open] of the kinds that persist in a page file: the file, or a fresh one. *)
Definition open_file (dir : directory) (name : bytes) (key_size value_size page_size : Z) : res BPlusTree :=
  match dir !! name with
  | Some file => bt_open file
  | None => create key_size value_size page_size
  end.

Section kinds.
Context {T : Type} `{RankedTree T}.

(** ** rk_kind.rs *)

Definition RK_KEY_SIZE : Z := 24.
Definition RK_VALUE_SIZE : Z := 16.
Definition RK_PAGE_SIZE : Z := 4096.

Definition composite_key (rank_key : bytes) (pk_id : DatumId) : bytes := rank_key ++ as_bytes pk_id.

Record RkResidentIndex := mkRkResident { rk_tree : T }.

Definition rk_apply_op (s : RkResidentIndex) (op : RkIndexOp) : RkResidentIndex * res IndexApplyOutcome :=
  let insert s :=
    match ri_new_rank_key op with
    | None => (s, Ok (mkOutcome None WtNone))
    | Some new =>
        match rt_insert (rk_tree s) (composite_key new (ri_pk_id op)) (as_bytes (ri_pk_id op)) with
        | Ok t => (mkRkResident t, Ok (mkOutcome None WtNone))
        | Err _ => (s, Ok (rejected (lit "rk insert failed")))
        | Panic => (s, Panic)
        end
    end in
  match ri_old_rank_key op with
  | None => insert s
  | Some old =>
      match rt_remove (rk_tree s) (composite_key old (ri_pk_id op)) with
      | Ok (_, t) => insert (mkRkResident t)
      | Err _ => (s, Ok (rejected (lit "rk remove failed")))
      | Panic => (s, Panic)
      end
  end.

Definition rk_apply (s : RkResidentIndex) (payload : bytes) : RkResidentIndex * res IndexApplyOutcome :=
  match decode_rk_index_op payload with
  | Ok op => rk_apply_op s op
  | Err _ => (s, Ok (rejected (lit "malformed rk index payload")))
  | Panic => (s, Panic)
  end.

(** One raw entry of a scan: [value.try_into().expect(..)], then [key[0..8]]. *)
Definition rk_entry_of (e : bytes * bytes) : res (bytes * DatumId) :=
  if negb (zlen e.2 =? 16) then Panic else k ← slice e.1 0 8; Ok (k, from_bytes e.2).

Definition rk_query (s : RkResidentIndex) (query : bytes) : RkResidentIndex * res bytes :=
  (s, kind ← decode_rk_query_kind query;
      raw ← match kind with
            | TopN n => rt_scan_backward (rk_tree s) (Z.to_nat n)
            | BottomN n => rt_scan_forward (rk_tree s) (Z.to_nat n)
            | PercentileSample k => rt_sample (rk_tree s) (Z.to_nat k)
            end;
      entries ← mapM rk_entry_of raw;
      Ok (encode_rk_entries entries)).

#[export] Instance rk_resident : ResidentIndex RkResidentIndex :=
  { ix_apply := rk_apply; ix_query := rk_query; ix_execute := no_execute }.

(** ** partition.rs *)

Definition PARTITION_PAGE_SIZE : Z := 4096.

Record PartitionResident := mkPartition { partition_tree : T }.

(** The change of the file that [apply] and [execute] share. *)
Definition extent_change (t : T) (op : ExtentOp) : res T :=
  match op with
  | ExtentInsert pk => rt_insert t (as_bytes pk) [u8 0]
  | ExtentRemove pk => '(_, t) ← rt_remove t (as_bytes pk); Ok t
  end.

Definition partition_apply (s : PartitionResident) (payload : bytes) : PartitionResident * res IndexApplyOutcome :=
  match decode_extent_op payload with
  | Ok op =>
      match extent_change (partition_tree s) op with
      | Ok t => (mkPartition t, Ok (mkOutcome None WtNone))
      | Err _ => (s, Ok (rejected (lit "partition apply failed")))
      | Panic => (s, Panic)
      end
  | Err _ => (s, Ok (rejected (lit "malformed partition payload")))
  | Panic => (s, Panic)
  end.

Definition partition_pk_of (e : bytes * bytes) : res DatumId := if zlen e.1 =? 16 then Ok (from_bytes e.1) else Panic.

Definition partition_query (s : PartitionResident) (query : bytes) : PartitionResident * res bytes :=
  (s, '(offset, limit) ← decode_extent_page query;
      raw ← rt_scan_from_rank (partition_tree s) offset (Z.to_nat limit);
      pks ← mapM partition_pk_of raw;
      Ok (encode_extent_result (rt_len (partition_tree s)) pks)).

Definition partition_execute (s : PartitionResident) (payload : bytes) : PartitionResident * res bytes :=
  match (op ← decode_extent_op payload; extent_change (partition_tree s) op) with
  | Ok t => (mkPartition t, Ok (encode_extent_result (rt_len t) []))
  | Err m => (s, Err m)
  | Panic => (s, Panic)
  end.

#[export] Instance partition_resident : ResidentIndex PartitionResident :=
  { ix_apply := partition_apply; ix_query := partition_query; ix_execute := partition_execute }.
End kinds.
Arguments RkResidentIndex : clear implicits.
Arguments PartitionResident : clear implicits.

Definition rk_open (dir : directory) (target : DatumId) (stored : option bytes) : res (RkResidentIndex BPlusTree) :=
  t ← open_file dir (file_name "rk" target) RK_KEY_SIZE RK_VALUE_SIZE RK_PAGE_SIZE; Ok (mkRkResident t).

Definition partition_open (dir : directory) (target : DatumId) (stored : option bytes) : res (PartitionResident BPlusTree) :=
  t ← open_file dir (file_name "partition" target) 16 1 PARTITION_PAGE_SIZE; Ok (mkPartition t).

(** ** What they promise *)

(** The ranking order: by rank key, ties by id. *)
Definition rank_before (a b : bytes * DatumId) : Prop := bytes_cmp a.1 b.1 = Lt \/ (a.1 = b.1 /\ a.2 < b.2).

Definition rk_item (x : bytes * DatumId) : bytes * bytes := (composite_key x.1 x.2, as_bytes x.2).
Definition rk_dom (x : bytes * DatumId) : Prop := rank_key_ok x.1 /\ datum_ok x.2.

Lemma rk_item_key x y : rk_dom x -> rk_dom y -> kz (rk_item x) = kz (rk_item y) -> x = y.
Proof.
  intros [Hk Hp] [Hk' Hp'] [E1 E2]%kz_pair_eq; [|by rewrite Hk, Hk'|by rewrite !zlen_as_bytes].
  destruct x, y. simpl in *. f_equal; [done|]. by apply as_bytes_inj.
Qed.

Lemma rk_item_order x y : rk_dom x -> rk_dom y -> kz (rk_item x) < kz (rk_item y) -> rank_before x y.
Proof.
  intros [Hk Hp] [Hk' Hp'] [H|[E H]]%kz_pair_lt; [| |by rewrite !zlen_as_bytes].
  - left. rewrite bytes_cmp_from_be; [by apply Z.compare_lt_iff|]. unfold rank_key_ok, zlen in *. lia.
  - right. split; [apply from_be_inj; [by rewrite Hk, Hk'|done]|].
    unfold as_bytes in H. by rewrite !from_be_to_be in H.
Qed.

Definition pk_item (pk : DatumId) : bytes * bytes := (as_bytes pk, [u8 0]).

Lemma pk_item_lt a b : datum_ok a -> datum_ok b -> kz (pk_item a) < kz (pk_item b) <-> a < b.
Proof. intros Ha Hb. unfold kz, pk_item, as_bytes. simpl. by rewrite !from_be_to_be. Qed.
Lemma pk_item_key a b : datum_ok a -> datum_ok b -> kz (pk_item a) = kz (pk_item b) -> a = b.
Proof. intros Ha Hb. unfold kz, pk_item, as_bytes. simpl. by rewrite !from_be_to_be. Qed.

Lemma sorted_map {X} (f : X -> bytes * bytes) (R : X -> X -> Prop) xs :
  sorted_entries (map f xs) -> (forall x y, x ∈ xs -> y ∈ xs -> kz (f x) < kz (f y) -> R x y) -> StronglySorted R xs.
Proof.
  induction xs as [|x xs IH]; intros Hs HR; [constructor|]. apply sorted_inv in Hs as [Hs HF].
  constructor; [apply IH; [done|]; intros; apply HR; [by right..|done]|].
  apply Forall_forall. intros y Hy. apply HR; [left|by right|]. rewrite Forall_forall in HF.
  apply HF, list_elem_of_fmap. by exists y.
Qed.

Section ranking.
Context {T : Type} {holds : T -> list (bytes * bytes) -> Prop} {room : nat -> T -> Prop}
  `{RankedTreeLaws T RK_KEY_SIZE RK_VALUE_SIZE holds room}.
Implicit Types s : RkResidentIndex T.

(** The file of [s] is the ranking [xs]. *)
Definition ranking s (xs : list (bytes * DatumId)) : Prop :=
  holds (rk_tree s) (map rk_item xs) /\ Forall rk_dom xs.

Lemma ranking_lists s xs : ranking s xs -> lists rk_item rk_dom xs (list_to_set xs) (map rk_item xs).
Proof.
  intros [Hh HF]. split; [done|]. split; [by apply (rt_sorted _ _ Hh)|]. rewrite Forall_forall in HF. set_solver.
Qed.

Lemma ranking_of s xs B es : holds (rk_tree s) es -> lists rk_item rk_dom xs B es -> ranking s xs.
Proof. intros Hh (-> & _ & Hx & Hd). split; [done|]. apply Forall_forall. intros x Hin. by apply Hd, Hx. Qed.

Lemma rk_item_sized x : rk_dom x -> sized RK_KEY_SIZE RK_VALUE_SIZE (rk_item x).
Proof. intros [Hk _]. unfold sized, rk_item, composite_key. simpl. by rewrite zlen_app, !zlen_as_bytes, Hk. Qed.

Lemma rk_insert_ok s xs x n :
  ranking s xs -> rk_dom x -> room (S n) (rk_tree s) ->
  exists t xs', rt_insert (rk_tree s) (composite_key x.1 x.2) (as_bytes x.2) = Ok t /\
    ranking (mkRkResident t) xs' /\ room n t /\ forall y, y ∈ xs' <-> y = x \/ y ∈ xs.
Proof.
  intros HR Hx Hroom. pose proof (ranking_lists _ _ HR) as HL. destruct HR as [Hh _].
  destruct (rt_insert_law _ _ _ _ n Hh (rk_item_sized x Hx) Hroom) as (t & Hi & Hh' & Hr).
  destruct (lists_put rk_item rk_dom rk_item_key _ _ _ x HL Hx) as (xs' & HL'). exists t, xs'.
  split; [exact Hi|]. split; [by eapply (ranking_of (mkRkResident t))|]. split; [done|].
  intros y. destruct HL' as (_ & _ & -> & _). set_solver.
Qed.

Lemma rk_remove_ok s xs x :
  ranking s xs -> rk_dom x ->
  exists b t xs', rt_remove (rk_tree s) (composite_key x.1 x.2) = Ok (b, t) /\
    ranking (mkRkResident t) xs' /\ (forall n, room n (rk_tree s) -> room n t) /\ forall y, y ∈ xs' <-> y ∈ xs /\ y <> x.
Proof.
  intros HR Hx. pose proof (ranking_lists _ _ HR) as HL. destruct HR as [Hh _].
  destruct (rt_remove_law _ _ _ Hh (proj1 (rk_item_sized x Hx))) as (t & Hi & Hh' & Hr).
  destruct (lists_del rk_item rk_dom rk_item_key _ _ _ x HL Hx) as (xs' & HL'). eexists _, t, xs'.
  split; [exact Hi|]. split; [by eapply (ranking_of (mkRkResident t))|]. split; [done|].
  intros y. destruct HL' as (_ & _ & -> & _). set_solver.
Qed.

(** A scan that reads a piece of the ranking answers with it. *)
Lemma rk_entries_of xs : Forall rk_dom xs -> mapM rk_entry_of (map rk_item xs) = Ok xs.
Proof.
  intros HF. apply mapM_map_Ok. eapply Forall_impl; [exact HF|]. intros [k pk] [Hk Hp]. unfold rk_entry_of, rk_item.
  cbn [fst snd]. rewrite zlen_as_bytes. unfold composite_key. rewrite slice_here by exact Hk. simpl.
  by rewrite from_bytes_as_bytes.
Qed.

Lemma rk_query_of s q xs raw :
  rk_query_ok q ->
  match q with
  | TopN n => rt_scan_backward (rk_tree s) (Z.to_nat n)
  | BottomN n => rt_scan_forward (rk_tree s) (Z.to_nat n)
  | PercentileSample k => rt_sample (rk_tree s) (Z.to_nat k)
  end = Ok raw -> raw = map rk_item xs -> Forall rk_dom xs ->
  rk_query s (encode_rk_query_kind q) = (s, Ok (encode_rk_entries xs)).
Proof.
  intros Hq Hr -> HF. unfold rk_query. rewrite (codec_complete _ _ _ rk_query_codec) by done. rsimpl.
  rewrite Hr. rsimpl. by rewrite rk_entries_of.
Qed.

Lemma rk_apply_spec s xs op n :
  ranking s xs -> room (S n) (rk_tree s) -> rk_index_op_ok op ->
  exists s' xs', rk_apply s (encode_rk_index_op op) = (s', Ok (mkOutcome None WtNone)) /\ ranking s' xs' /\
     room (match ri_new_rank_key op with Some _ => n | None => S n end) (rk_tree s') /\
     forall k pk, (k, pk) ∈ xs' <->
       (ri_new_rank_key op = Some k /\ pk = ri_pk_id op) \/
       ((k, pk) ∈ xs /\ ~ (ri_old_rank_key op = Some k /\ pk = ri_pk_id op)).
Proof.
  intros HR Hroom Hop. unfold rk_apply. rewrite (codec_complete _ _ _ rk_index_codec) by done.
  destruct op as [p old new], Hop as (Hp & Hold & Hnew). unfold rk_apply_op. cbn [ri_pk_id ri_old_rank_key ri_new_rank_key] in *.
  assert (exists b t xs0, match old with
      | None => Ok (b, rk_tree s)
      | Some old => rt_remove (rk_tree s) (composite_key old p)
      end = Ok (b, t) /\ ranking (mkRkResident t) xs0 /\ room (S n) t /\
      forall k q, (k, q) ∈ xs0 <-> (k, q) ∈ xs /\ ~ (old = Some k /\ q = p)) as (b & t & xs0 & Er & HR0 & Hroom0 & Hx0).
  { destruct old as [old|].
    - destruct (rk_remove_ok s xs (old, p) HR) as (b & t & xs0 & Er & HR0 & Hr0 & Hx0); [by split|].
      exists b, t, xs0. split; [exact Er|]. split; [done|]. split; [by apply Hr0|]. intros k q. rewrite Hx0.
      split; intros [? Hne]; (split; [done|]); [by intros [[= ->] ->]|by intros [= -> ->]; apply Hne].
    - exists true, (rk_tree s), xs. destruct s. split_and!; [done..|]. intros k q. split; [intros ?; split; [done|by intros [? _]]|by intros [? _]]. }
  assert (exists s' xs', (match new with
      | None => (mkRkResident t, Ok (mkOutcome None WtNone))
      | Some new => match rt_insert t (composite_key new p) (as_bytes p) with
          | Ok t => (mkRkResident t, Ok (mkOutcome None WtNone))
          | Err _ => (mkRkResident t, Ok (rejected (lit "rk insert failed")))
          | Panic => (mkRkResident t, Panic)
          end
      end) = (s', Ok (mkOutcome None WtNone)) /\ ranking s' xs' /\
      room (match new with Some _ => n | None => S n end) (rk_tree s') /\
      forall k q, (k, q) ∈ xs' <-> (new = Some k /\ q = p) \/ (k, q) ∈ xs0) as (s' & xs' & Ei & HR' & Hroom' & Hx').
  { destruct new as [new|]; [|exists (mkRkResident t), xs0; split_and!; [done..|]; intros; split; [by right|by intros [[? _]|]]].
    destruct (rk_insert_ok (mkRkResident t) xs0 (new, p) n HR0) as (t' & xs' & Ei & HR' & Hroom' & Hx'); [by split|done|].
    exists (mkRkResident t'), xs'. cbn [fst snd rk_tree] in Ei. rewrite Ei. split_and!; [done..|].
    intros k q. rewrite Hx'. split; intros [E|?]; [left|by right|left|by right].
    - by simplify_eq.
    - destruct E as [E ->]. by simplify_eq. }
  exists s', xs'. split; [|split; [done|split; [done|]]].
  - destruct old as [old|]; [by rewrite Er|]. injection Er as <-. by destruct s.
  - intros k q. by rewrite Hx', Hx0.
Qed.

Lemma ranking_sorted s xs : ranking s xs -> StronglySorted rank_before xs.
Proof.
  intros [Hh HF]. pose proof (rt_sorted _ _ Hh) as Hs. rewrite Forall_forall in HF.
  apply (sorted_map rk_item); [done|]. intros x y Hx Hy. by apply rk_item_order; apply HF.
Qed.

(** What a query is to answer. *)
Definition rk_answers (q : RkQueryKind) (xs out : list (bytes * DatumId)) : Prop :=
  match q with
  | TopN n => out = take (Z.to_nat n) (rev xs)
  | BottomN n => out = take (Z.to_nat n) xs
  | PercentileSample n =>
      length out = (if zlen xs =? 0 then 0%nat else Z.to_nat n) /\
      forall i x, out !! i = Some x -> xs !! Z.to_nat (Z.of_nat i * zlen xs / n) = Some x
  end.

Lemma rk_answers_in q xs out x : rk_answers q xs out -> x ∈ out -> x ∈ xs.
Proof.
  destruct q as [n|n|n]; cbn [rk_answers]; [intros -> Hx%subseteq_take; by apply list_elem_of_In, in_rev, list_elem_of_In in Hx|intros ->; apply subseteq_take|].
  intros [_ Hi] [i Hx]%list_elem_of_lookup. by eapply list_elem_of_lookup_2, Hi.
Qed.

Lemma rk_query_spec s xs q :
  ranking s xs -> rk_query_ok q -> zlen xs < 2 ^ 32 ->
  exists out, rk_query s (encode_rk_query_kind q) = (s, Ok (encode_rk_entries out)) /\ rk_answers q xs out.
Proof.
  intros HR Hq Hlen. pose proof HR as [Hh HF]. rewrite Forall_forall in HF.
  assert (forall ys, (forall x, x ∈ ys -> x ∈ xs) -> Forall rk_dom ys) as Hsub by (intros ys Hys; apply Forall_forall; auto).
  destruct q as [n|n|n]; cbn [rk_query_ok rk_answers] in *.
  - eexists. split; [|done]. eapply (rk_query_of s (TopN n)); [done|by apply rt_backward_law|by rewrite <- map_rev, <- firstn_map|].
    apply Hsub. intros x Hx%subseteq_take. by apply list_elem_of_In, in_rev, list_elem_of_In in Hx.
  - eexists. split; [|done]. eapply (rk_query_of s (BottomN n)); [done|by apply rt_forward_law|by rewrite <- firstn_map|].
    apply Hsub. intros x. apply subseteq_take.
  - destruct (rt_sample_law _ _ (Z.to_nat n) Hh) as (raw & Hr & Hlr & Hi); [rewrite zlen_map; unfold uint_ok in Hq; nia|].
    destruct (map_preimage rk_item (.∈ xs) raw) as (samples & -> & HFs).
    { apply Forall_lookup. intros i e He. apply Hi in He. apply list_elem_of_lookup_2, list_elem_of_fmap in He as (x & -> & Hx).
      by exists x. }
    exists samples. rewrite length_map, zlen_map in Hlr. rewrite Forall_forall in HFs. split; [|split; [done|]].
    + eapply (rk_query_of s (PercentileSample n)); [done|exact Hr|done|by apply Hsub].
    + intros i x Hx. pose proof (Hi i (rk_item x)) as He. rewrite !list_lookup_fmap, Hx in He. specialize (He eq_refl).
      rewrite zlen_map, Z2Nat.id in He by (unfold uint_ok in Hq; lia).
      apply fmap_Some in He as (y & Hy & Ey). rewrite Hy. f_equal. symmetry.
      apply rk_item_key; [apply HF, HFs; by eapply list_elem_of_lookup_2|apply HF; by eapply list_elem_of_lookup_2|by rewrite Ey].
Qed.

(** A ranked index is its ranking. On a file that is the ranking [xs], in strict
    order of rank key and, among ties, id, an update takes the old entry of a datum
    out and puts the new one in; it never fails nor rejects while the file has room.
    A query answers with the best, the worst, or evenly spread entries of the
    ranking. *)
Theorem ranked_index_is_a_ranking s xs op n :
  ranking s xs -> room 1 (rk_tree s) -> rk_index_op_ok op -> u32_ok n -> zlen xs < 2 ^ 32 ->
  StronglySorted rank_before xs /\
  (exists s' xs', rk_apply s (encode_rk_index_op op) = (s', Ok (mkOutcome None WtNone)) /\ ranking s' xs' /\
     forall k pk, (k, pk) ∈ xs' <->
       (ri_new_rank_key op = Some k /\ pk = ri_pk_id op) \/
       ((k, pk) ∈ xs /\ ~ (ri_old_rank_key op = Some k /\ pk = ri_pk_id op))) /\
  rk_query s (encode_rk_query_kind (TopN n)) = (s, Ok (encode_rk_entries (take (Z.to_nat n) (rev xs)))) /\
  rk_query s (encode_rk_query_kind (BottomN n)) = (s, Ok (encode_rk_entries (take (Z.to_nat n) xs))) /\
  exists samples, rk_query s (encode_rk_query_kind (PercentileSample n)) = (s, Ok (encode_rk_entries samples)) /\
    length samples = (if zlen xs =? 0 then 0%nat else Z.to_nat n) /\
    forall i x, samples !! i = Some x -> xs !! Z.to_nat (Z.of_nat i * zlen xs / n) = Some x.
Proof.
  intros HR Hroom Hop Hn Hlen. split_and!.
  - by eapply ranking_sorted.
  - destruct (rk_apply_spec s xs op 0 HR Hroom Hop) as (s' & xs' & E & HR' & _ & Hx). by exists s', xs'.
  - by destruct (rk_query_spec s xs (TopN n) HR Hn Hlen) as (out & E & ->).
  - by destruct (rk_query_spec s xs (BottomN n) HR Hn Hlen) as (out & E & ->).
  - exact (rk_query_spec s xs (PercentileSample n) HR Hn Hlen).
Qed.
End ranking.

Lemma demo_update_ok : rk_index_op_ok (mkRkIndexOp 7 None (Some (to_be 8 5))).
Proof. split; [by vm_compute|split; [done|]]. by vm_compute. Qed.

(** The first entry of a fresh ranked index file. *)
Lemma ranked_index_is_a_ranking_witness :
  exists t s' (xs' : list (bytes * DatumId)), create RK_KEY_SIZE RK_VALUE_SIZE RK_PAGE_SIZE = Ok t /\
    rk_apply (mkRkResident t) (encode_rk_index_op (mkRkIndexOp 7 None (Some (to_be 8 5)))) = (s', Ok (mkOutcome None WtNone)) /\
    (to_be 8 5, 7) ∈ xs'.
Proof.
  destruct (create_holds RK_KEY_SIZE RK_VALUE_SIZE RK_PAGE_SIZE 1) as (t & Ht & Hh & Hr); [done..|by split_and!|lia|].
  destruct (ranked_index_is_a_ranking (mkRkResident t) [] (mkRkIndexOp 7 None (Some (to_be 8 5))) 3)
    as (_ & (s' & xs' & Ea & _ & Hx) & _);
    [exact (conj Hh (List.Forall_nil _))|exact Hr|exact demo_update_ok|by unfold uint_ok; lia|by vm_compute|].
  exists t, s', xs'. split; [exact Ht|]. split; [exact Ea|]. apply Hx. left.
  split; reflexivity.
Defined.

Section membership.
Context {T : Type} {holds : T -> list (bytes * bytes) -> Prop} {room : nat -> T -> Prop}
  `{RankedTreeLaws T 16 1 holds room}.
Implicit Types s : PartitionResident T.

(** The file of [s] is the ids [xs]. *)
Definition partition_of s (xs : list DatumId) : Prop := holds (partition_tree s) (map pk_item xs) /\ Forall datum_ok xs.

Lemma partition_lists s xs : partition_of s xs -> lists pk_item datum_ok xs (list_to_set xs) (map pk_item xs).
Proof.
  intros [Hh HF]. split; [done|]. split; [by apply (rt_sorted _ _ Hh)|]. rewrite Forall_forall in HF. set_solver.
Qed.

Lemma extent_change_spec s xs op n :
  partition_of s xs -> (match op with ExtentInsert _ => room (S n) | ExtentRemove _ => room n end) (partition_tree s) ->
  extent_op_ok op ->
  exists t xs', extent_change (partition_tree s) op = Ok t /\ partition_of (mkPartition t) xs' /\ room n t /\
    forall pk, pk ∈ xs' <-> match op with ExtentInsert p => pk = p \/ pk ∈ xs | ExtentRemove p => pk ∈ xs /\ pk <> p end.
Proof.
  intros HP Hroom Hop. pose proof (partition_lists _ _ HP) as HL. destruct HP as [Hh _].
  assert (forall t es xs' B, holds t es -> lists pk_item datum_ok xs' B es -> partition_of (mkPartition t) xs') as Hof.
  { intros t es xs' B Hh' (-> & _ & Hx & Hd). split; [done|]. apply Forall_forall. intros x Hin. by apply Hd, Hx. }
  destruct op as [p|p]; simpl in Hop; unfold extent_change.
  - destruct (rt_insert_law _ _ (as_bytes p) [u8 0] n Hh) as (t & Hi & Hh' & Hr); [by split; [apply zlen_as_bytes|]|done|].
    destruct (lists_put pk_item datum_ok pk_item_key _ _ _ p HL Hop) as (xs' & HL'). exists t, xs'.
    split; [exact Hi|]. split; [by eapply Hof|]. split; [exact Hr|]. intros y. destruct HL' as (_ & _ & -> & _). set_solver.
  - destruct (rt_remove_law _ _ (as_bytes p) Hh) as (t & Hi & Hh' & Hr); [apply zlen_as_bytes|].
    destruct (lists_del pk_item datum_ok pk_item_key _ _ _ p HL Hop) as (xs' & HL'). exists t, xs'.
    rewrite Hi. split; [done|]. split; [by eapply Hof|]. split; [by apply Hr|]. intros y. destruct HL' as (_ & _ & -> & _). set_solver.
Qed.

(** An execute call answers the new size; a page query the size and the ids from the
    offset on, as many as the limit allows. *)
Lemma partition_execute_spec s xs op n :
  partition_of s xs -> (match op with ExtentInsert _ => room (S n) | ExtentRemove _ => room n end) (partition_tree s) ->
  extent_op_ok op ->
  exists t xs', partition_execute s (encode_extent_op op) = (mkPartition t, Ok (encode_extent_result (zlen xs') [])) /\
    partition_apply s (encode_extent_op op) = (mkPartition t, Ok (mkOutcome None WtNone)) /\
    partition_of (mkPartition t) xs' /\ room n t /\
    forall pk, pk ∈ xs' <-> match op with ExtentInsert p => pk = p \/ pk ∈ xs | ExtentRemove p => pk ∈ xs /\ pk <> p end.
Proof.
  intros HP Hroom Hop. destruct (extent_change_spec s xs op n HP Hroom Hop) as (t & xs' & E & HP' & Hr & Hx).
  exists t, xs'. unfold partition_apply, partition_execute. rewrite (codec_complete _ _ _ extent_op_codec) by done. rsimpl. rewrite E.
  split_and!; try done. rewrite (rt_len_law _ _ (proj1 HP')). by rewrite zlen_map.
Qed.

Lemma partition_query_spec s xs offset limit :
  partition_of s xs -> u64_ok offset -> u32_ok limit ->
  partition_query s (encode_extent_page offset limit) =
    (s, Ok (encode_extent_result (zlen xs) (take (Z.to_nat limit) (drop (Z.to_nat offset) xs)))).
Proof.
  intros [Hh HF] Ho Hl. rewrite Forall_forall in HF.
  pose proof (codec_complete _ _ _ extent_page_codec (offset, limit) (conj Ho Hl)) as E. cbn [fst snd] in E.
  unfold partition_query. rewrite E. rsimpl.
  rewrite (rt_scan_law _ _ _ _ Hh) by (unfold uint_ok in Ho; lia). rsimpl.
  rewrite skipn_map, firstn_map, mapM_map_Ok.
  - rsimpl. by rewrite (rt_len_law _ _ Hh), zlen_map.
  - apply Forall_take, Forall_drop, Forall_forall. intros x Hx. unfold partition_pk_of, pk_item. cbn [fst].
    by rewrite zlen_as_bytes, from_bytes_as_bytes by auto.
Qed.

Lemma partition_sorted s xs : partition_of s xs -> StronglySorted Z.lt xs.
Proof.
  intros [Hh HF]. rewrite Forall_forall in HF. apply (sorted_map pk_item); [by apply (rt_sorted _ _ Hh)|].
  intros x y Hx Hy. by apply pk_item_lt; apply HF.
Qed.

(** A partition is an ordered set of ids. On a file that is the ids [xs], in
    increasing order, an insertion or a removal, by an index update or by an execute
    call, is that of the set and answers the new size; a page query answers the size
    and the ids from the offset on, as many as the limit allows. *)
Theorem partition_is_an_ordered_set s xs op offset limit :
  partition_of s xs -> room 1 (partition_tree s) -> extent_op_ok op -> u64_ok offset -> u32_ok limit ->
  StronglySorted Z.lt xs /\
  (exists s' xs', partition_apply s (encode_extent_op op) = (s', Ok (mkOutcome None WtNone)) /\
     partition_execute s (encode_extent_op op) = (s', Ok (encode_extent_result (zlen xs') [])) /\ partition_of s' xs' /\
     forall pk, pk ∈ xs' <-> match op with ExtentInsert p => pk = p \/ pk ∈ xs | ExtentRemove p => pk ∈ xs /\ pk <> p end) /\
  partition_query s (encode_extent_page offset limit) =
    (s, Ok (encode_extent_result (zlen xs) (take (Z.to_nat limit) (drop (Z.to_nat offset) xs)))).
Proof.
  intros HP Hroom Hop Ho Hl. split; [by eapply partition_sorted|]. split; [|by apply partition_query_spec].
  assert (exists n, (match op with ExtentInsert _ => room (S n) | ExtentRemove _ => room n end) (partition_tree s)) as [n Hn].
  { destruct op; [by exists 0%nat|by exists 1%nat]. }
  destruct (partition_execute_spec s xs op n HP Hn Hop) as (t & xs' & E & E' & HP' & _ & Hx). by exists (mkPartition t), xs'.
Qed.
End membership.

Lemma partition_is_an_ordered_set_witness :
  exists t s', create 16 1 PARTITION_PAGE_SIZE = Ok t /\
    partition_apply (mkPartition t) (encode_extent_op (ExtentInsert 7)) = (s', Ok (mkOutcome None WtNone)).
Proof.
  destruct (create_holds 16 1 PARTITION_PAGE_SIZE 1) as (t & Ht & Hh & Hr); [done..|by split_and!|lia|].
  destruct (partition_is_an_ordered_set (mkPartition t) [] (ExtentInsert 7) 0 5) as (_ & (s' & xs' & Ea & _) & _);
    [exact (conj Hh (List.Forall_nil _))|exact Hr|by simpl; unfold datum_ok, uint_ok; lia|by unfold uint_ok; lia..|].
  exists t, s'. by split.
Defined.
