(* ===== verification/TkKind.v ===== *)
(** * Valid-time histories

    Models [crates/seisin-types/src/tk_kind.rs]: one ordered file per entity, keyed
    by sub-key and the start of a range, holds the ranges of time a value was in
    force. Written against the interface of [RankedTree.v]. The clock is what it
    reads at the call. *)

From S2P Require Import Prelude Core Codec Fields Protocol Names Pages BTree BTreeRep BTreeSpec RankKeys Indexes RankedTree TreeKinds.

Definition TK_PAGE_SIZE : Z := 4096.

Record TkResidentHistory (T : Type) := mkTk { tk_def : TkClassDef; tk_clock : Z; tk_tree : T }.
Arguments mkTk {T} _ _ _.
Arguments tk_def {T} _.
Arguments tk_clock {T} _.
Arguments tk_tree {T} _.

Section layout.
Variable def : TkClassDef.

Definition sub_w : Z := tc_sub_key_width def.

Definition composite (sub_key : bytes) (t : Z) : bytes := sub_key ++ encode_ts t.

(** The copy of a value wider than the record panics. *)
Definition record (upper : option Z) (value : bytes) : res bytes :=
  if tc_value_width def <? zlen value then Panic else
  Ok (match upper with
      | Some upper => u8 1 :: encode_ts upper
      | None => replicate 9 (u8 0)
      end ++ to_le 2 (wrap 16 (zlen value)) ++ value ++ replicate (Z.to_nat (tc_value_width def - zlen value)) (u8 0)).

Definition span_from (key rec : bytes) : res TkSpan :=
  ts ← slice key sub_w (sub_w + 8);
  flag ← index rec 0;
  upper ← (if byte_val flag =? 1 then ts ← slice rec 1 9; Ok (Some (decode_ts ts)) else Ok None);
  len ← slice rec 9 11;
  sub_key ← slice key 0 sub_w;
  value ← slice rec 11 (11 + from_le len);
  Ok (mkTkSpan sub_key (decode_ts ts) upper value).

Definition check_sub_key (sub_key : bytes) : res () :=
  if negb (zlen sub_key =? sub_w) then Err "sub_key has the wrong width for its class" else Ok ().

Definition validate_set (sub_key value : bytes) : res () :=
  _ ← check_sub_key sub_key;
  match decode_field_value (tc_value_type def) value 0 with
  | Err _ => Err "value does not decode as the type of its class"
  | Panic => Panic
  | Ok (_, offset) =>
      if negb (offset =? zlen value) then Err "value has trailing bytes" else
      if tc_value_width def <? zlen value then Err "encoded value is wider than its class allows" else Ok ()
  end.
End layout.

Definition is_some_above (upper : option Z) (t : Z) : bool := match upper with None => true | Some u => t <? u end.

Section tk.
Context {T : Type} `{RankedTree T}.
Implicit Types (tree : T) (def : TkClassDef).

Definition entry_at tree (rank : Z) : res (option (bytes * bytes)) :=
  es ← rt_scan_from_rank tree rank 1; Ok (head es).

(** Rank and entry of the greatest key at most that of [(sub_key, t)]. *)
Definition raw_floor tree (sub_key : bytes) (t : Z) : res (option (Z * (bytes * bytes))) :=
  r ← rt_rank_of_floor tree (composite sub_key t);
  match r with
  | None => Ok None
  | Some rank =>
      e ← entry_at tree rank;
      match e with
      | Some e => Ok (Some (rank, e))
      | None => Err "floor rank out of range"
      end
  end.

(** [&k[..sub_w] == sub_key] *)
Definition in_sub_key def (k sub_key : bytes) : res bool := p ← slice k 0 (sub_w def); Ok (bool_decide (p = sub_key)).

Definition covering def tree (sub_key : bytes) (t : Z) : res (option (Z * TkSpan)) :=
  r ← raw_floor tree sub_key t;
  match r with
  | Some (rank, (k, v)) =>
      same ← in_sub_key def k sub_key;
      if same : bool then
        span ← span_from def k v;
        Ok (if is_some_above (sp_upper span) t then Some (rank, span) else None)
      else Ok None
  | None => Ok None
  end.

(** [tree.insert(&self.composite(..), &self.record(..))] *)
Definition put_record def tree (sub_key : bytes) (lower : Z) (upper : option Z) (value : bytes) : res T :=
  rec ← record def upper value; rt_insert tree (composite sub_key lower) rec.

(** The [?] of a method that changes the file: [r] is the outcome of a call on
    [tree]. *)
Definition attempt {A B} tree (r : res A) (k : A -> T * res B) : T * res B :=
  match r with Ok x => k x | Err m => (tree, Err m) | Panic => (tree, Panic) end.

(** The end of a range set in a gap: the start of the sub-key's next range. *)
Definition gap_end def tree (sub_key : bytes) (as_of : Z) : res (option Z) :=
  floor ← raw_floor tree sub_key as_of;
  let successor_rank := match floor with Some (rank, _) => rank + 1 | None => 0 end in
  next ← entry_at tree successor_rank;
  match next with
  | Some (k, _) =>
      same ← in_sub_key def k sub_key;
      if same : bool then ts ← slice k (sub_w def) (sub_w def + 8); Ok (Some (decode_ts ts)) else Ok None
  | None => Ok None
  end.

Definition do_set def tree (sub_key : bytes) (as_of : Z) (value : bytes) : T * res (list TkSpan) :=
  attempt tree (covering def tree sub_key as_of) (λ c,
    match c with
    | Some (_, span) =>
        if sp_lower span =? as_of then
          attempt tree (put_record def tree sub_key as_of (sp_upper span) value) (λ tree,
            (tree, Ok [mkTkSpan (sp_sub_key span) (sp_lower span) (sp_upper span) value]))
        else
          attempt tree (put_record def tree sub_key (sp_lower span) (Some as_of) (sp_value span)) (λ tree,
            attempt tree (put_record def tree sub_key as_of (sp_upper span) value) (λ tree,
              (tree, Ok [mkTkSpan sub_key as_of (sp_upper span) value])))
    | None =>
        attempt tree (gap_end def tree sub_key as_of) (λ upper,
          attempt tree (put_record def tree sub_key as_of upper value) (λ tree,
            (tree, Ok [mkTkSpan sub_key as_of upper value])))
    end).

Definition do_clear def tree (sub_key : bytes) (as_of : Z) : T * res (list TkSpan) :=
  attempt tree (covering def tree sub_key as_of) (λ c,
    match c with
    | None => (tree, Ok [])
    | Some (_, span) =>
        if sp_lower span =? as_of then
          attempt tree (rt_remove tree (composite sub_key (sp_lower span))) (λ '(_, tree), (tree, Ok []))
        else
          attempt tree (put_record def tree sub_key (sp_lower span) (Some as_of) (sp_value span)) (λ tree,
            (tree, Ok [mkTkSpan (sp_sub_key span) (sp_lower span) (Some as_of) (sp_value span)]))
    end).

Definition I64_MIN : Z := - 2 ^ 63.
Definition I64_MAX : Z := 2 ^ 63 - 1.

Definition first_rank_of tree (sub_key : bytes) : res Z :=
  floor ← raw_floor tree sub_key I64_MIN;
  Ok (match floor with
      | Some (rank, (k, _)) => if bool_decide (k = composite sub_key I64_MIN) then rank else rank + 1
      | None => 0
      end).

(** The walk over consecutive ranks ends at the last one: the fuel is the number of
    entries and one more. *)
Definition walk_fuel tree : nat := S (Z.to_nat (rt_len tree)).

Fixpoint collect_while (fuel : nat) def tree (rank : Z) (keep : TkSpan -> bool) : res (list TkSpan) :=
  match fuel with
  | O => Err "out of fuel"
  | S fuel =>
      e ← entry_at tree rank;
      match e with
      | Some (k, v) =>
          span ← span_from def k v;
          if keep span then rest ← collect_while fuel def tree (rank + 1) keep; Ok (span :: rest) else Ok []
      | None => Ok []
      end
  end.

(** [SnapshotAt]: one probe per sub-key, jumping from one to the next. *)
Fixpoint snapshot_loop (fuel : nat) def tree (rank t : Z) : res (list TkSpan) :=
  match fuel with
  | O => Err "out of fuel"
  | S fuel =>
      e ← entry_at tree rank;
      match e with
      | Some (k, _) =>
          sub ← slice k 0 (sub_w def);
          c ← covering def tree sub t;
          last ← rt_rank_of_floor tree (composite sub I64_MAX);
          match last with
          | None => Err "snapshot: sub-key vanished mid-walk"
          | Some last =>
              rest ← snapshot_loop fuel def tree (last + 1) t;
              Ok (match c with Some (_, span) => [span] | None => [] end ++ rest)
          end
      | None => Ok []
      end
  end.

Definition run_query def tree (q : TkQueryReq) : res (list TkSpan) :=
  match q with
  | AsOf sub_key t =>
      _ ← check_sub_key def sub_key;
      c ← covering def tree sub_key t;
      Ok (match c with Some (_, span) => [span] | None => [] end)
  | Current sub_key =>
      _ ← check_sub_key def sub_key;
      floor ← raw_floor tree sub_key I64_MAX;
      match floor with
      | Some (_, (k, v)) =>
          same ← in_sub_key def k sub_key;
          if same : bool then
            span ← span_from def k v;
            Ok (match sp_upper span with None => [span] | Some _ => [] end)
          else Ok []
      | None => Ok []
      end
  | History sub_key =>
      _ ← check_sub_key def sub_key;
      start ← first_rank_of tree sub_key;
      collect_while (walk_fuel tree) def tree start (λ s, bool_decide (sp_sub_key s = sub_key))
  | Range sub_key from to =>
      _ ← check_sub_key def sub_key;
      if to <=? from then Ok [] else
      c ← covering def tree sub_key from;
      start ← match c with
              | Some (rank, _) => Ok rank
              | None =>
                  floor ← raw_floor tree sub_key from;
                  Ok (match floor with Some (rank, _) => rank + 1 | None => 0 end)
              end;
      collect_while (walk_fuel tree) def tree start (λ s, bool_decide (sp_sub_key s = sub_key) && (sp_lower s <? to))
  | SnapshotAt t => snapshot_loop (walk_fuel tree) def tree 0 t
  end.

Definition tk_query (s : TkResidentHistory T) (query : bytes) : TkResidentHistory T * res bytes :=
  (s, q ← decode_tk_query_req query;
      spans ← run_query (tk_def s) (tk_tree s) q;
      Ok (encode_tk_result (mkTkResult spans))).

Definition run_op (s : TkResidentHistory T) (op : TkOp) : T * res (list TkSpan) :=
  let as_of_or_now (as_of : option Z) := match as_of with Some t => t | None => tk_clock s end in
  match op with
  | TkSet sub_key as_of value =>
      attempt (tk_tree s) (validate_set (tk_def s) sub_key value) (λ _,
        do_set (tk_def s) (tk_tree s) sub_key (as_of_or_now as_of) value)
  | TkClear sub_key as_of =>
      attempt (tk_tree s) (check_sub_key (tk_def s) sub_key) (λ _,
        do_clear (tk_def s) (tk_tree s) sub_key (as_of_or_now as_of))
  end.

Definition tk_execute (s : TkResidentHistory T) (payload : bytes) : TkResidentHistory T * res bytes :=
  let '(tree, spans) := attempt (tk_tree s) (decode_tk_op payload) (run_op s) in
  (mkTk (tk_def s) (tk_clock s) tree, spans ← spans; Ok (encode_tk_result (mkTkResult spans))).

Definition tk_apply (s : TkResidentHistory T) (_ : bytes) : TkResidentHistory T * res IndexApplyOutcome :=
  (s, Ok (rejected (lit "tk histories are maintained via execute ops, not framework index updates"))).

#[export] Instance tk_resident : ResidentIndex (TkResidentHistory T) :=
  { ix_apply := tk_apply; ix_query := tk_query; ix_execute := tk_execute }.
End tk.

Definition tk_open (def : TkClassDef) (now : Z) (dir : gmap bytes bytes) (target : DatumId) (stored : option bytes) :
    res (TkResidentHistory BPlusTree) :=
  t ← open_file dir (file_name "tk" target) (tc_sub_key_width def + 8) (1 + 8 + 2 + tc_value_width def) TK_PAGE_SIZE;
  Ok (mkTk def now t).
