(* ===== verification/TkTheorems.v ===== *)
(** * Valid-time histories: what the ranges say

    The theorems about [TkKind.v]: a history is a list of ranges that do not
    overlap, every query is a filter of that list, and a set or a clear changes
    exactly the instants it is meant to. *)

From S2P Require Import Prelude Core Codec Fields Protocol Names Pages BTree BTreeRep BTreeQuery BTreeInsert BTreeSpec RankKeys Indexes RankedTree TreeKinds TkKind.

(** ** Ranges *)

Definition covers (s : TkSpan) (t : Z) : Prop := sp_lower s <= t /\ is_some_above (sp_upper s) t = true.
#[export] Instance covers_dec s t : Decision (covers s t).
Proof. unfold covers. apply _. Defined.

Lemma above_spec upper t : is_some_above upper t = true <-> forall u, upper = Some u -> t < u.
Proof. destruct upper as [u|]; simpl; [rewrite Z.ltb_lt|]; naive_solver. Qed.

(** The value a list of ranges gives to a sub-key at an instant. *)
Definition in_force (hs : list TkSpan) (sub_key : bytes) (t : Z) (value : bytes) : Prop :=
  exists s, s ∈ hs /\ sp_sub_key s = sub_key /\ covers s t /\ sp_value s = value.

(** The ranges a query asks for. *)
Definition selects (q : TkQueryReq) (s : TkSpan) : Prop :=
  match q with
  | AsOf k t => sp_sub_key s = k /\ covers s t
  | Current k => sp_sub_key s = k /\ sp_upper s = None
  | History k => sp_sub_key s = k
  | Range k from to => sp_sub_key s = k /\ from < to /\ sp_lower s < to /\ is_some_above (sp_upper s) from = true
  | SnapshotAt t => covers s t
  end.
#[export] Instance selects_dec q s : Decision (selects q s).
Proof. destruct q; unfold selects; apply _. Defined.

Definition asked_sub_key (q : TkQueryReq) : option bytes :=
  match q with AsOf k _ | Current k | History k | Range k _ _ => Some k | SnapshotAt _ => None end.

Section history.
Variable def : TkClassDef.
Hypothesis Hsub : u16_ok (tc_sub_key_width def).
Hypothesis Hval : u16_ok (tc_value_width def).

Definition span_ok (s : TkSpan) : Prop :=
  zlen (sp_sub_key s) = sub_w def /\ i64_ok (sp_lower s) /\ opt_ok i64_ok (sp_upper s) /\
  zlen (sp_value s) <= tc_value_width def /\ forall u, sp_upper s = Some u -> sp_lower s < u.

Definition record_bytes (upper : option Z) (value : bytes) : bytes :=
  match upper with
  | Some upper => u8 1 :: encode_ts upper
  | None => replicate 9 (u8 0)
  end ++ to_le 2 (wrap 16 (zlen value)) ++ value ++ replicate (Z.to_nat (tc_value_width def - zlen value)) (u8 0).

(** The entry of a range. *)
Definition item (s : TkSpan) : bytes * bytes :=
  (composite (sp_sub_key s) (sp_lower s), record_bytes (sp_upper s) (sp_value s)).

(** The place of an instant of a sub-key in the key order. *)
Definition pos (sub_key : bytes) (t : Z) : Z := from_be (composite sub_key t).
Definition at_pos (s : TkSpan) : Z := pos (sp_sub_key s) (sp_lower s).

(** [a] is before [b], and over before [b] starts when they share the sub-key. *)
Definition before (a b : TkSpan) : Prop :=
  at_pos a < at_pos b /\ (sp_sub_key a = sp_sub_key b -> exists u, sp_upper a = Some u /\ u <= sp_lower b).

Definition history (hs : list TkSpan) : Prop := Forall span_ok hs /\ StronglySorted before hs.

Lemma record_bytes_ok upper value : zlen value <= tc_value_width def -> record def upper value = Ok (record_bytes upper value).
Proof. intros Hv. unfold record. by rewrite (proj2 (Z.ltb_ge _ _)). Qed.

Lemma zlen_record_bytes upper value : zlen value <= tc_value_width def -> zlen (record_bytes upper value) = 1 + 8 + 2 + tc_value_width def.
Proof.
  intros Hv. unfold record_bytes. pose proof (zlen_nonneg value).
  destruct upper; autorewrite with zlen; lia.
Qed.

Lemma span_from_item s : span_ok s -> span_from def (item s).1 (item s).2 = Ok s.
Proof.
  intros (Hk & Hl & Hu & Hv & _). unfold span_from, item, composite. cbn [fst snd].
  rewrite (slice_skip _ _ (sub_w def)) by lia. rewrite Hk, Z.sub_diag. replace (sub_w def + 8 - sub_w def) with 8 by lia.
  rewrite (slice_all (encode_ts _)) by apply zlen_encode_ts. rsimpl. rewrite decode_encode_ts by done.
  rewrite (slice_here (sp_sub_key s)) by done. unfold record_bytes. pose proof (zlen_nonneg (sp_value s)).
  set (rest := replicate (Z.to_nat _) _). rewrite wrap_small by (unfold uint_ok in *; lia).
  assert (forall p : bytes, zlen p = 9 ->
    slice (p ++ to_le 2 (zlen (sp_value s)) ++ sp_value s ++ rest) 9 11 = Ok (to_le 2 (zlen (sp_value s))) /\
    slice (p ++ to_le 2 (zlen (sp_value s)) ++ sp_value s ++ rest) 11 (11 + zlen (sp_value s)) = Ok (sp_value s)) as HS.
  { intros p Hp. set (l := to_le 2 _). assert (zlen l = 2) as Hl2 by apply zlen_to_le.
    rewrite (slice_skip p _ 9), (slice_skip p _ 11), Hp by lia. split; [by rewrite slice_here|].
    rewrite (slice_skip l), Hl2 by lia. by rewrite slice_here by lia. }
  assert (from_le (to_le 2 (zlen (sp_value s))) = zlen (sp_value s)) as Hlen by (apply from_le_to_le; unfold uint_ok in *; simpl; lia).
  destruct (sp_upper s) as [u|] eqn:Eu.
  - destruct (HS (u8 1 :: encode_ts u)) as [H1 H2]; [by rewrite zlen_cons, zlen_encode_ts|]. rewrite <- app_comm_cons in H1, H2 |- *.
    rewrite index_0. rsimpl. change (byte_val (u8 1) =? 1) with true. rewrite (slice_cons _ _ 1 9) by lia.
    change (1 - 1) with 0. change (9 - 1) with 8. rewrite slice_here by apply zlen_encode_ts. rsimpl.
    rewrite decode_encode_ts by done. rewrite H1. rsimpl. rewrite Hlen, H2. rsimpl. destruct s. simpl in *. by subst.
  - destruct (HS (replicate 9 (u8 0))) as [H1 H2]; [done|]. rewrite H1. simpl index. rsimpl.
    change (byte_val (u8 0) =? 1) with false. rsimpl. rewrite Hlen, H2. rsimpl. destruct s. simpl in *. by subst.
Qed.

Lemma pos_lt k t k' t' :
  zlen k = sub_w def -> zlen k' = sub_w def -> i64_ok t -> i64_ok t' ->
  pos k t < pos k' t' <-> from_be k < from_be k' \/ (k = k' /\ t < t').
Proof.
  intros Hk Hk' Ht Ht'. unfold pos, composite.
  rewrite (kz_pair_lt k (encode_ts t) k' (encode_ts t') [] []) by (by rewrite !zlen_encode_ts).
  rewrite !encode_ts_spec, !from_be_to_be by (done || by apply key_number_ok).
  split; (intros [H|[E H]]; [by left|right]); (split; [|lia]); [apply from_be_inj; congruence|by rewrite E].
Qed.

Lemma pos_le k t k' t' :
  zlen k = sub_w def -> zlen k' = sub_w def -> i64_ok t -> i64_ok t' ->
  pos k t <= pos k' t' <-> from_be k < from_be k' \/ (k = k' /\ t <= t').
Proof.
  intros Hk Hk' Ht Ht'. rewrite <- Z.nlt_ge, pos_lt by done. split.
  - intros H. destruct (Z.lt_total (from_be k) (from_be k')) as [|[E|]]; [by left|right|naive_solver].
    apply from_be_inj in E; [|congruence]. split; [done|]. destruct (Z.le_gt_cases t t'); naive_solver.
  - intros [H|[-> H]]; [|lia]. intros [H'|[-> ?]]; lia.
Qed.

(** ** Reading the file *)

Context {T : Type} {holds : T -> list (bytes * bytes) -> Prop} {room : nat -> T -> Prop}
  `{RankedTreeLaws T (tc_sub_key_width def + 8) (1 + 8 + 2 + tc_value_width def) holds room}.

Section reads.
Variables (tree : T) (hs : list TkSpan).
Hypothesis Hholds : holds tree (map item hs).
Hypothesis Hhist : history hs.

Lemma span_in s : s ∈ hs -> span_ok s.
Proof. destruct Hhist as [HF _]. rewrite Forall_forall in HF. apply HF. Qed.

Lemma in_sub_key_spec s k : span_ok s -> in_sub_key def (item s).1 k = Ok (bool_decide (sp_sub_key s = k)).
Proof. intros (Hk & _). unfold in_sub_key, item, composite. cbn [fst]. by rewrite slice_here. Qed.

Lemma entry_at_spec pre l : hs = pre ++ l -> entry_at tree (zlen pre) = Ok (item <$> head l).
Proof.
  intros E. unfold entry_at. rewrite (rt_scan_law _ _ _ _ Hholds) by apply zlen_nonneg. rsimpl.
  unfold zlen. rewrite Nat2Z.id, E, map_app, drop_app_length' by by rewrite length_map. by destruct l.
Qed.

(** The ranges up to an instant of a sub-key, and the ones after. *)
Definition floor_view (k : bytes) (t : Z) (L R : list TkSpan) : Prop :=
  hs = L ++ R /\ Forall (λ s, at_pos s <= pos k t) L /\ Forall (λ s, pos k t < at_pos s) R.

Lemma raw_floor_spec k t :
  zlen k = sub_w def -> exists L R, floor_view k t L R /\
    rt_rank_of_floor tree (composite k t) = Ok ((λ _, zlen L - 1) <$> last L) /\
    raw_floor tree k t = Ok ((λ s, (zlen L - 1, item s)) <$> last L).
Proof.
  intros Hk. unfold raw_floor. pose proof (rt_sorted _ _ Hholds) as Hs.
  assert (zlen (composite k t) = tc_sub_key_width def + 8) as Hlen
    by (unfold composite; by rewrite zlen_app, zlen_encode_ts, Hk).
  rewrite (rt_rank_of_floor_law _ _ _ Hholds Hlen). rsimpl. change (from_be (composite k t)) with (pos k t).
  destruct (floor_split (pos k t) _ Hs) as [[E HF]|(as_ & e & bs & E & He & HF & Er)].
  - exists [], hs. split; [|by rewrite E]. split; [done|]. split; [constructor|]. rewrite List.Forall_map in HF. exact HF.
  - apply map_eq_app in E as (L & R & Ehs & <- & E). apply map_eq_cons in E as (s & R' & -> & <- & <-).
    exists (L ++ [s]), R'. rewrite Er, last_snoc, zlen_map, zlen_app. cbn [fmap option_fmap option_map].
    replace (zlen L + zlen [s] - 1) with (zlen L) by (rewrite zlen_cons, zlen_nil; lia). split; [|split; [done|]].
    + split; [by rewrite Ehs, <- app_assoc|]. split; [|rewrite List.Forall_map in HF; exact HF]. apply Forall_app. split; [|by constructor].
      rewrite Ehs, map_app in Hs. apply sorted_app in Hs as (_ & _ & Hab). rewrite List.Forall_map in Hab.
      eapply Forall_impl; [exact Hab|]. intros x Hx%Forall_inv. unfold at_pos, pos in *. simpl in Hx. unfold kz in *. simpl in *. lia.
    + rewrite (entry_at_spec L (s :: R') Ehs). rsimpl. done.
Qed.

Lemma last_in k t L R s : floor_view k t L R -> last L = Some s -> s ∈ hs /\ at_pos s <= pos k t.
Proof.
  intros (-> & HL & _) [L' ->]%last_Some. split; [set_solver|]. by apply Forall_app in HL as [_ HL%Forall_inv].
Qed.

(** A range in force at [(k, t)] is the last one up to it. *)
Lemma covering_is_last k t L R s :
  floor_view k t L R -> zlen k = sub_w def -> i64_ok t ->
  s ∈ hs -> sp_sub_key s = k -> covers s t -> last L = Some s.
Proof.
  intros HV Hk Ht Hin Es [Hl Ha]. pose proof (span_in s Hin) as (Hks & Hls & _).
  destruct HV as (E & HL & HR). rewrite Forall_forall in HL, HR. rewrite E in Hin.
  apply elem_of_app in Hin as [Hin|Hin]; [|apply HR in Hin; unfold at_pos in Hin; rewrite pos_lt in Hin by (done || congruence); subst; naive_solver lia].
  apply list_elem_of_lookup in Hin as [i Hi].
  destruct (last L) as [x|] eqn:Ex; [|apply last_None in Ex; by subst L]. apply last_Some in Ex as [L' ->].
  apply lookup_app_Some in Hi as [Hi|[_ Hi]]; [|by apply list_elem_of_lookup_2, list_elem_of_singleton in Hi as ->].
  exfalso. apply list_elem_of_lookup_2 in Hi. destruct Hhist as [_ HS]. rewrite E, <- app_assoc in HS.
  apply StronglySorted_app_1_elem_of with (x1 := s) (x2 := x) in HS as [Hp Hov]; [|done|set_solver].
  assert (x ∈ hs) as (Hkx & Hlx & _)%span_in by (rewrite E; set_solver).
  pose proof (HL x ltac:(set_solver)) as Hx. unfold at_pos in *. rewrite pos_lt in Hp by done. rewrite pos_le in Hx by done.
  rewrite above_spec in Ha. destruct Hx as [Hx|[Exk Hx]]; [destruct Hp as [Hp|[Hp _]]; [subst; lia|]|].
  - subst k. rewrite Hp in Hx. lia.
  - destruct (Hov ltac:(congruence)) as (u & Eu & Hu). specialize (Ha u Eu). lia.
Qed.

(** The last range up to [(k, t)], if it is in force there. *)
Definition cover (k : bytes) (t : Z) (L : list TkSpan) : option (Z * TkSpan) :=
  match last L with
  | Some s => if decide (sp_sub_key s = k /\ covers s t) then Some (zlen L - 1, s) else None
  | None => None
  end.

Lemma covering_spec k t :
  zlen k = sub_w def -> i64_ok t -> exists L R, floor_view k t L R /\
    raw_floor tree k t = Ok ((λ s, (zlen L - 1, item s)) <$> last L) /\ covering def tree k t = Ok (cover k t L).
Proof.
  intros Hk Ht. destruct (raw_floor_spec k t Hk) as (L & R & HV & _ & Hf). exists L, R. split; [done|]. split; [done|].
  unfold covering, cover. rewrite Hf. destruct (last L) as [s|] eqn:El; [|done]. rsimpl. cbn [fmap option_fmap option_map].
  destruct (last_in _ _ _ _ _ HV El) as [Hin Hp]. pose proof (span_in s Hin) as Hok. destruct (item s) as [ki vi] eqn:Ei.
  pose proof (in_sub_key_spec s k Hok) as Hi. pose proof (span_from_item s Hok) as Hsp. rewrite Ei in Hi, Hsp. cbn [fst snd] in *.
  rewrite Hi. rsimpl. case_bool_decide as Ek; [rewrite Hsp; rsimpl|by rewrite decide_False by naive_solver].
  destruct Hok as (Hks & Hls & _). unfold at_pos in Hp. rewrite pos_le in Hp by done. f_equal.
  assert (sp_lower s <= t) by (destruct Hp as [Hp|[_ ?]]; [subst; lia|done]).
  destruct (is_some_above (sp_upper s) t) eqn:Ea; [by rewrite decide_True|rewrite decide_False; [done|]].
  intros [_ [_ Ea']]. congruence.
Qed.

Lemma filter_cover k t L R :
  floor_view k t L R -> zlen k = sub_w def -> i64_ok t ->
  filter (λ s, sp_sub_key s = k /\ covers s t) hs = match cover k t L with Some (_, s) => [s] | None => [] end.
Proof.
  intros HV Hk Ht. set (P := λ s, sp_sub_key s = k /\ covers s t).
  assert (forall s, s ∈ hs -> P s -> last L = Some s) as Hlast by (intros s Hin [? ?]; by eapply covering_is_last).
  assert (NoDup hs) as Hnd.
  { destruct Hhist as [_ HS]. clear -HS. induction HS as [|s l HS IH HF]; constructor; [|done].
    intros Hin. rewrite Forall_forall in HF. specialize (HF s Hin) as [? _]. lia. }
  destruct HV as (E & _). unfold cover. destruct (last L) as [x|] eqn:Ex.
  - apply last_Some in Ex as [L' ->]. assert (filter P L' = [] /\ filter P R = []) as [EL ER].
    { split; apply filter_none, Forall_forall; intros s Hs HP; pose proof (Hlast s ltac:(rewrite E; set_solver) HP) as Hx;
        injection Hx as <-; rewrite E in Hnd; apply NoDup_app in Hnd as (Hnd1 & Hnd2 & _).
      - apply NoDup_app in Hnd1 as (_ & Hnd1 & _). set_solver.
      - set_solver. }
    rewrite E, !filter_app, EL, ER, app_nil_r. rewrite app_nil_l. fold (P x).
    destruct (decide (P x)) as [HP|HP]; [by rewrite filter_cons_True|by rewrite filter_cons_False].
  - apply filter_none, Forall_forall. intros s Hs HP. by specialize (Hlast s Hs HP).
Qed.

Lemma before_in pre l : hs = pre ++ l -> StronglySorted before l.
Proof. intros E. destruct Hhist as [_ HS]. rewrite E in HS. by apply StronglySorted_app_1_r in HS. Qed.

(** ** Walks *)

Lemma collect_while_spec fuel pre l keep :
  hs = pre ++ l -> (length l < fuel)%nat -> StronglySorted (λ a b, keep b = true -> keep a = true) l ->
  collect_while fuel def tree (zlen pre) keep = Ok (filter (λ s, keep s = true) l).
Proof.
  revert fuel pre. induction l as [|s l IH]; intros [|fuel] pre E Hf HS; simpl in Hf; try lia; simpl;
    rewrite (entry_at_spec pre _ E); rsimpl; [done|].
  pose proof (span_from_item s (span_in s ltac:(rewrite E; set_solver))) as Hsp. simpl in Hsp. simpl. rewrite Hsp. rsimpl.
  inversion_clear HS as [|? ? HS' HF]. destruct (keep s) eqn:Ek.
  - specialize (IH fuel (pre ++ [s])). rewrite <- app_assoc, zlen_app in IH. change (zlen [s]) with 1 in IH. rewrite IH by (done || lia). rsimpl.
    by rewrite filter_cons_True.
  - rewrite filter_cons_False by (simpl; congruence). rewrite filter_none; [done|].
    eapply Forall_impl; [exact HF|]. simpl. intros x Hx Hkx. specialize (Hx Hkx). congruence.
Qed.

(** The same, where [keep] holds of a beginning of [l]. *)
Lemma collect_sorted pre l keep :
  hs = pre ++ l -> (forall a b, a ∈ l -> b ∈ l -> before a b -> keep b = true -> keep a = true) ->
  collect_while (walk_fuel tree) def tree (zlen pre) keep = Ok (filter (λ s, keep s = true) l).
Proof.
  intros E HK. apply collect_while_spec; [done| |].
  - unfold walk_fuel. rewrite (rt_len_law _ _ Hholds), zlen_map, E, zlen_app. unfold zlen. lia.
  - pose proof (before_in pre l E) as HS. clear E. induction HS as [|a l HS IH HF]; constructor.
    + apply IH. intros x y Hx Hy. apply HK; by right.
    + rewrite Forall_forall in HF |- *. intros b Hb. apply HK; [left|by right|by apply HF].
Qed.

Lemma first_rank_spec k :
  zlen k = sub_w def -> exists pre l, hs = pre ++ l /\ Forall (λ s, at_pos s < pos k I64_MIN) pre /\
    Forall (λ s, pos k I64_MIN <= at_pos s) l /\ first_rank_of tree k = Ok (zlen pre).
Proof.
  intros Hk. unfold first_rank_of. destruct (raw_floor_spec k I64_MIN Hk) as (L & R & (E & HL & HR) & _ & ->).
  rsimpl. destruct (last L) as [s|] eqn:El; cbn [fmap option_fmap option_map].
  2: { apply last_None in El as ->. exists [], R. split_and!; [done..| |done]. eapply Forall_impl; [exact HR|]. simpl. lia. }
  apply last_Some in El as [L' ->]. rewrite <- app_assoc in E. apply Forall_app in HL as [HL Hs%Forall_inv].
  pose proof Hhist as [_ HS]. rewrite E in HS.
  assert (Forall (λ a, at_pos a < at_pos s) L') as HL'.
  { apply Forall_forall. intros a Ha. apply (StronglySorted_app_1_elem_of _ _ _ a s HS); [done|left]. }
  pose proof (span_in s ltac:(rewrite E; set_solver)) as (Hks & Hls & _). destruct (item s) as [ki vi] eqn:Ei.
  assert (ki = composite (sp_sub_key s) (sp_lower s)) as -> by (unfold item in Ei; congruence).
  case_bool_decide as Ec.
  - exists L', (s :: R). split_and!; [done| | |by rewrite zlen_app, zlen_cons, zlen_nil; f_equal; lia].
    + eapply Forall_impl; [exact HL'|]. intros a Ha. simpl in *. lia.
    + assert (at_pos s = pos k I64_MIN) as Es by (unfold at_pos, pos; by rewrite Ec). constructor; [lia|].
      eapply Forall_impl; [exact HR|]. simpl. lia.
  - assert (at_pos s < pos k I64_MIN) as Hlt.
    { assert (at_pos s <> pos k I64_MIN); [|lia]. intros Eq. apply Ec, from_be_inj; [|exact Eq].
      unfold composite. by rewrite !zlen_app, !zlen_encode_ts, Hk, Hks. }
    exists (L' ++ [s]), R. split_and!; [by rewrite <- app_assoc| | |by f_equal; lia].
    + apply Forall_app. split; [|by constructor]. eapply Forall_impl; [exact HL'|]. intros a Ha. simpl in *. lia.
    + eapply Forall_impl; [exact HR|]. simpl. lia.
Qed.

(** ** The queries *)

Lemma check_ok k : zlen k = sub_w def -> check_sub_key def k = Ok ().
Proof. intros Hk. unfold check_sub_key. by rewrite (proj2 (Z.eqb_eq _ _) Hk). Qed.

Lemma i64_bounds : i64_ok I64_MIN /\ i64_ok I64_MAX.
Proof. split; by vm_compute. Qed.

Lemma run_as_of k t : zlen k = sub_w def -> i64_ok t -> run_query def tree (AsOf k t) = Ok (filter (selects (AsOf k t)) hs).
Proof.
  intros Hk Ht. simpl. rewrite check_ok by done. rsimpl. destruct (covering_spec k t Hk Ht) as (L & R & HV & _ & ->). rsimpl.
  f_equal. symmetry. exact (filter_cover k t L R HV Hk Ht).
Qed.

Lemma run_current k : zlen k = sub_w def -> run_query def tree (Current k) = Ok (filter (selects (Current k)) hs).
Proof.
  intros Hk. pose proof (proj2 i64_bounds) as Hmax. simpl. rewrite check_ok by done. rsimpl.
  destruct (raw_floor_spec k I64_MAX Hk) as (L & R & HV & _ & ->). rsimpl.
  assert (filter (selects (Current k)) hs = filter (λ s, sp_upper s = None) (match cover k I64_MAX L with Some (_, s) => [s] | None => [] end)) as ->.
  { rewrite <- (filter_cover k I64_MAX L R HV Hk Hmax), list_filter_filter. apply filter_iff_in.
    intros s Hin. simpl. destruct (span_in s Hin) as (_ & Hl & _). split; [|by intros [? [? _]]].
    intros [? Hu]. split; [done|]. split; [done|]. split; [unfold i64_ok, I64_MAX in *; lia|by rewrite Hu]. }
  unfold cover. destruct (last L) as [s|] eqn:El; [|done]. cbn [fmap option_fmap option_map].
  destruct (last_in _ _ _ _ _ HV El) as [Hin Hp]. pose proof (span_in s Hin) as Hok.
  pose proof (in_sub_key_spec s k Hok) as Hi. pose proof (span_from_item s Hok) as Hsp. destruct (item s) as [ki vi]. cbn [fst snd] in *.
  rewrite Hi. rsimpl. destruct Hok as (Hks & Hl & Hu & _). case_bool_decide as Ek; [|rewrite decide_False; [done|naive_solver]].
  rewrite Hsp. rsimpl. destruct (sp_upper s) as [u|] eqn:Eu.
  - case_decide; [rewrite filter_cons_False by (rewrite Eu; done)|]; done.
  - rewrite decide_True; [by rewrite filter_cons_True|]. split; [done|]. split; [unfold i64_ok, I64_MAX in *; lia|by rewrite Eu].
Qed.

Lemma after_sub k t s : zlen k = sub_w def -> i64_ok t -> s ∈ hs -> pos k t <= at_pos s -> from_be k <= from_be (sp_sub_key s).
Proof.
  intros Hk Ht Hin Hp. destruct (span_in s Hin) as (Hks & Hls & _). unfold at_pos in Hp. rewrite pos_le in Hp by done.
  destruct Hp as [|[-> _]]; lia.
Qed.

(** Two ranges in order, the later in [k] and the earlier not before it. *)
Lemma between_sub k a b :
  zlen k = sub_w def -> a ∈ hs -> b ∈ hs -> before a b -> sp_sub_key b = k -> from_be k <= from_be (sp_sub_key a) ->
  sp_sub_key a = k /\ sp_lower a < sp_lower b.
Proof.
  intros Hk Ha Hb [Hp _] Eb Hle. destruct (span_in a Ha) as (Hka & Hla & _), (span_in b Hb) as (Hkb & Hlb & _).
  unfold at_pos in Hp. rewrite pos_lt in Hp by done. subst k. destruct Hp as [|[E H']]; [lia|done].
Qed.

Lemma run_history k : zlen k = sub_w def -> run_query def tree (History k) = Ok (filter (selects (History k)) hs).
Proof.
  intros Hk. pose proof (proj1 i64_bounds) as Hmin. cbn [run_query]. rewrite check_ok by done. rsimpl.
  destruct (first_rank_spec k Hk) as (pre & l & E & Hpre & Hl & ->). rsimpl. rewrite Forall_forall in Hpre, Hl.
  rewrite (collect_sorted pre l _ E).
  - rewrite E, filter_app, (filter_none _ pre); [f_equal; apply list_filter_iff; intros s; apply bool_decide_eq_true|].
    apply Forall_forall. intros s Hs Ek. specialize (Hpre s Hs). simpl in Ek.
    destruct (span_in s ltac:(rewrite E; set_solver)) as (Hks & Hls & _). unfold at_pos in Hpre.
    rewrite pos_lt in Hpre by done. subst k. unfold i64_ok, I64_MIN in *. destruct Hpre as [|[_ ?]]; lia.
  - intros a b Ha Hb Hab. rewrite !bool_decide_eq_true. intros Eb.
    apply (between_sub k a b); [done|rewrite E; set_solver..|done|done|].
    eapply after_sub; [done|exact Hmin|rewrite E; set_solver|by apply Hl].
Qed.

Lemma run_range k from to :
  zlen k = sub_w def -> i64_ok from -> i64_ok to ->
  run_query def tree (Range k from to) = Ok (filter (selects (Range k from to)) hs).
Proof.
  intros Hk Hf Ht. cbn [run_query]. rewrite check_ok by done. rsimpl. destruct (Z.leb_spec to from) as [Hle|Hlt].
  { f_equal. symmetry. apply filter_none, Forall_forall. intros s _ (_ & ? & _). lia. }
  destruct (covering_spec k from Hk Hf) as (L & R & HV & Hfl & ->). rsimpl.
  pose proof HV as (E & HL & HR). rewrite Forall_forall in HL, HR.
  assert (forall s, s ∈ hs -> selects (Range k from to) s -> sp_lower s <= from -> last L = Some s) as Hlast.
  { intros s Hin (? & _ & _ & ?) ?. by eapply covering_is_last. }
  assert (exists pre l, hs = pre ++ l /\ (forall s, s ∈ l -> s ∈ R \/ selects (AsOf k from) s) /\
    (forall s, s ∈ pre -> ~ selects (Range k from to) s) /\
    match cover k from L with
    | Some (rank, _) => Ok rank
    | None => raw_floor tree k from ≫= λ floor, Ok (match floor with Some (rank, _) => rank + 1 | None => 0 end)
    end = Ok (zlen pre)) as (pre & l & E' & Hl & Hpre & ->).
  { assert (forall s, s ∈ L -> selects (Range k from to) s -> sp_lower s <= from) as Hlow.
    { intros s Hs (Es & _). specialize (HL s Hs). destruct (span_in s ltac:(rewrite E; set_solver)) as (Hks & Hls & _).
      unfold at_pos in HL. rewrite pos_le in HL by done. subst k. destruct HL as [|[_ ?]]; lia. }
    unfold cover. destruct (last L) as [x|] eqn:El.
    - pose proof El as [L' ->]%last_Some. destruct (decide _) as [Hx|Hx].
      + exists L', (x :: R). split; [by rewrite E, <- app_assoc|]. split; [|split].
        * intros s [->|?]%elem_of_cons; [by right|by left].
        * intros s Hs Hsel. pose proof (Hlast s ltac:(rewrite E; set_solver) Hsel (Hlow s ltac:(set_solver) Hsel)) as Hx'.
          injection Hx' as <-. destruct Hhist as [_ HS]. rewrite E, <- app_assoc in HS.
          apply (StronglySorted_app_1_elem_of _ _ _ x x) in HS as [? _]; [lia|done|left].
        * rewrite zlen_app. change (zlen [x]) with 1. f_equal. lia.
      + exists (L' ++ [x]), R. split; [done|]. split; [by left|]. split.
        * intros s Hs Hsel. pose proof (Hlow s Hs Hsel) as Hls.
          pose proof (Hlast s ltac:(rewrite E; set_solver) Hsel Hls) as Hx'.
          injection Hx' as <-. apply Hx. destruct Hsel as (? & _ & _ & ?). done.
        * rewrite Hfl. rsimpl. cbn [fmap option_fmap option_map]. f_equal. lia.
    - apply last_None in El as ->. exists [], R. split; [done|]. split; [by left|]. split; [by intros s ?%elem_of_nil|].
      by rewrite Hfl. }
  rsimpl. assert (forall s, s ∈ l -> s ∈ hs) as Hin by (intros s Hs; rewrite E'; set_solver).
  assert (forall s, s ∈ l -> from_be k <= from_be (sp_sub_key s)) as Hge.
  { intros s Hs. destruct (Hl s Hs) as [Hr|[-> _]]; [|lia]. eapply after_sub; [done|exact Hf|by apply Hin|]. specialize (HR s Hr). lia. }
  rewrite (collect_sorted pre l _ E').
  - rewrite E', filter_app, (filter_none _ pre) by by apply Forall_forall. f_equal. apply filter_iff_in. intros s Hs.
    rewrite andb_true_iff, bool_decide_eq_true, Z.ltb_lt. simpl. split; [|tauto]. intros [Es Hto]. split_and!; [done..|].
    destruct (Hl s Hs) as [Hr|[_ [_ ?]]]; [|done]. specialize (HR s Hr). destruct (span_in s (Hin s Hs)) as (Hks & Hls & _ & _ & Hu).
    unfold at_pos in HR. rewrite pos_lt in HR by done. apply above_spec. intros u Eu. specialize (Hu u Eu). subst k.
    destruct HR as [|[_ ?]]; lia.
  - intros a b Ha Hb Hab. rewrite !andb_true_iff, !bool_decide_eq_true, !Z.ltb_lt. intros [Eb Hto].
    destruct (between_sub k a b Hk (Hin a Ha) (Hin b Hb) Hab Eb (Hge a Ha)) as [-> ?]. split; [done|lia].
Qed.

Lemma snapshot_loop_spec t fuel pre l :
  i64_ok t -> hs = pre ++ l -> (length l < fuel)%nat ->
  (forall a b, a ∈ pre -> b ∈ l -> sp_sub_key a <> sp_sub_key b) ->
  snapshot_loop fuel def tree (zlen pre) t = Ok (filter (selects (SnapshotAt t)) l).
Proof.
  intros Ht. revert pre l. induction fuel as [|fuel IH]; intros pre l E Hf Hd; [lia|].
  cbn [snapshot_loop]. rewrite (entry_at_spec pre l E). rsimpl. destruct l as [|s l]; [done|]. cbn [head fmap option_fmap option_map].
  assert (forall x, x ∈ s :: l -> x ∈ hs) as Hin by (intros x Hx; rewrite E; set_solver).
  pose proof (Hin s ltac:(left)) as Hs. destruct (span_in s Hs) as (Hk & Hls & _). set (k := sp_sub_key s) in *.
  assert (slice (item s).1 0 (sub_w def) = Ok k) as Esl by (unfold item, composite; cbn [fst]; by apply slice_here).
  destruct (item s) as [ki vi]. cbn [fst] in Esl. rewrite Esl. rsimpl.
  pose proof (proj2 i64_bounds) as Hmax.
  destruct (covering_spec k t Hk Ht) as (L0 & R0 & HV0 & _ & ->). rsimpl.
  pose proof (filter_cover k t L0 R0 HV0 Hk Ht) as Hcov.
  destruct (raw_floor_spec k I64_MAX Hk) as (L & R & (E' & HL & HR) & -> & _). rsimpl. rewrite Forall_forall in HL, HR.
  assert (forall x, x ∈ hs -> at_pos x <= pos k I64_MAX <-> from_be (sp_sub_key x) <= from_be k) as Hpos.
  { intros x Hx. destruct (span_in x Hx) as (Hkx & Hlx & _). unfold at_pos. rewrite pos_le by done. split; [intros [|[-> _]]; lia|].
    intros Hle. destruct (Z.eq_dec (from_be (sp_sub_key x)) (from_be k)) as [Eq|]; [|left; lia].
    right. split; [apply from_be_inj; congruence|unfold i64_ok, I64_MAX in *; lia]. }
  assert (exists G, L = pre ++ G /\ s :: l = G ++ R) as (G & -> & El).
  { rewrite E in E'. apply app_eq_inv in E' as [(G & _ & El)|(G & -> & El)]; [|by exists G].
    exfalso. assert (at_pos s <= pos k I64_MAX) by (apply (proj2 (Hpos s Hs)), Z.le_refl).
    assert (s ∈ R) as Hr%HR by (rewrite El; set_solver). lia. }
  assert (s ∈ G) as HsG.
  { assert (s ∈ G ++ R) as [?|Hr%HR]%elem_of_app by (rewrite <- El; left); [done|]. assert (at_pos s <= pos k I64_MAX) by (apply (proj2 (Hpos s Hs)), Z.le_refl). lia. }
  assert (forall g, g ∈ G -> sp_sub_key g = k) as HG.
  { intros g Hg. pose proof (Hin g ltac:(rewrite El; set_solver)) as Hgi. destruct (span_in g Hgi) as (Hkg & Hlg & _).
    assert (from_be (sp_sub_key g) <= from_be k) by (apply (proj1 (Hpos g Hgi)), HL; set_solver).
    assert (g ∈ s :: l) as [->|Hgl]%elem_of_cons by (rewrite El; set_solver); [done|].
    pose proof (before_in pre _ E) as HS. inversion_clear HS as [|? ? _ HF]. rewrite Forall_forall in HF.
    destruct (HF g Hgl) as [Hp _]. unfold at_pos in Hp. fold k in Hp. rewrite pos_lt in Hp by done.
    destruct Hp as [|[-> _]]; [lia|done]. }
  assert (forall a, a ∈ pre -> sp_sub_key a <> k) as Hpre by (intros a Ha; apply (Hd a s Ha); left).
  assert (forall b, b ∈ R -> from_be k < from_be (sp_sub_key b)) as HRk.
  { intros b Hb. pose proof (HR b Hb). pose proof (Hpos b ltac:(rewrite E, El; set_solver)) as Hpb. lia. }
  assert (exists y, last (pre ++ G) = Some y) as [y ->].
  { destruct (last (pre ++ G)) as [y|] eqn:Ey; [by exists y|]. apply last_None in Ey. apply app_eq_nil in Ey as [_ ->]. by apply elem_of_nil in HsG. }
  cbn [fmap option_fmap option_map]. replace (zlen (pre ++ G) - 1 + 1) with (zlen (pre ++ G)) by lia.
  rewrite (IH (pre ++ G) R E'); [rsimpl| |].
  - f_equal. rewrite <- Hcov, El, E, El, !filter_app. rewrite (filter_none _ pre), (filter_none _ R), app_nil_r.
    + cbn [app]. f_equal. apply filter_iff_in. intros g Hg. simpl. pose proof (HG g Hg). tauto.
    + apply Forall_forall. intros b Hb [Eb _]. specialize (HRk b Hb). rewrite Eb in HRk. lia.
    + apply Forall_forall. intros b Hb [Eb _]. by apply (Hpre b Hb).
  - apply (f_equal length) in El. rewrite length_app in El. simpl in *. destruct G; [by apply elem_of_nil in HsG|]. simpl in El. lia.
  - intros a b [Ha|Ha]%elem_of_app Hb Eab; pose proof (HRk b Hb) as Hb'.
    + apply (Hd a b Ha); [rewrite El; apply elem_of_app; by right|done].
    + rewrite <- Eab, (HG a Ha) in Hb'. lia.
Qed.

Lemma run_snapshot t : i64_ok t -> run_query def tree (SnapshotAt t) = Ok (filter (selects (SnapshotAt t)) hs).
Proof.
  intros Ht. cbn [run_query]. apply (snapshot_loop_spec t _ [] hs Ht); [done| |by intros a b ?%elem_of_nil].
  unfold walk_fuel. rewrite (rt_len_law _ _ Hholds), zlen_map. unfold zlen. lia.
Qed.

Lemma run_query_spec q :
  tk_query_ok q -> opt_ok (λ k, zlen k = sub_w def) (asked_sub_key q) -> run_query def tree q = Ok (filter (selects q) hs).
Proof.
  destruct q; simpl; intros Hq Hk.
  - destruct Hq. by apply run_as_of.
  - by apply run_current.
  - by apply run_history.
  - destruct Hq as (_ & ? & ?). by apply run_range.
  - by apply run_snapshot.
Qed.
End reads.

(** ** Changes *)

Lemma put_record_spec tree hs s n :
  holds tree hs -> span_ok s -> room (S n) tree ->
  exists tree', put_record def tree (sp_sub_key s) (sp_lower s) (sp_upper s) (sp_value s) = Ok tree' /\
    holds tree' (put_entry (item s) hs) /\ room n tree'.
Proof.
  intros Hh (Hk & _ & _ & Hv & _) Hr. unfold put_record. rewrite record_bytes_ok by done. rsimpl.
  apply (rt_insert_law _ _ _ _ _ Hh); [|done]. split; simpl.
  - unfold composite. by rewrite zlen_app, zlen_encode_ts, Hk.
  - by apply zlen_record_bytes.
Qed.

Lemma history_app L M R :
  history (L ++ M ++ R) <-> history (L ++ R) /\ history M /\
    (forall a b, a ∈ L -> b ∈ M -> before a b) /\ (forall a b, a ∈ M -> b ∈ R -> before a b).
Proof.
  unfold history. rewrite !Forall_app, !StronglySorted_app. setoid_rewrite elem_of_app. naive_solver.
Qed.

Lemma history_single s : span_ok s -> history [s].
Proof. intros Hs. split; [by apply Forall_singleton|]. constructor; constructor. Qed.

(** Two ranges of a history in force at one instant of one sub-key are one range. *)
Lemma in_force_unique hs a b t :
  history hs -> a ∈ hs -> b ∈ hs -> sp_sub_key a = sp_sub_key b -> covers a t -> covers b t -> a = b.
Proof.
  intros [_ HS]. induction HS as [|x l HS IH HF]; intros Ha Hb E Ca Cb; [by apply elem_of_nil in Ha|].
  rewrite Forall_forall in HF.
  assert (forall y, y ∈ l -> sp_sub_key x = sp_sub_key y -> covers x t -> covers y t -> False) as Hno.
  { intros y Hy Exy [_ Hx] [Hy' _]. destruct (HF y Hy) as [_ Ho]. destruct (Ho Exy) as (u & Eu & Hu).
    rewrite above_spec in Hx. specialize (Hx u Eu). lia. }
  apply elem_of_cons in Ha as [->|Ha], Hb as [->|Hb]; [done|exfalso; eauto|exfalso; eauto|by apply IH].
Qed.

Lemma in_force_value hs k t v v' : history hs -> in_force hs k t v -> in_force hs k t v' -> v = v'.
Proof.
  intros Hh (s & Hs & Es & Cs & <-) (s' & Hs' & Es' & Cs' & <-). f_equal. eapply in_force_unique; [done..| |done|done]. congruence.
Qed.

Lemma before_same l s s1 : before l s -> sp_sub_key s1 = sp_sub_key s -> sp_lower s1 = sp_lower s -> before l s1.
Proof. unfold before, at_pos. by intros [? ?] -> ->. Qed.

(** The end of what a set at [a] of [k] puts in force: the end of the range in
    force there, or the start of the next range of [k] when there is none. *)
Definition set_end (hs : list TkSpan) (k : bytes) (a : Z) (upper : option Z) : Prop :=
  (exists s, s ∈ hs /\ sp_sub_key s = k /\ covers s a /\ upper = sp_upper s) \/
  ((forall s, s ∈ hs -> sp_sub_key s = k -> ~ covers s a) /\
   (forall u, upper = Some u -> a < u /\ exists s, s ∈ hs /\ sp_sub_key s = k /\ sp_lower s = u) /\
   forall s, s ∈ hs -> sp_sub_key s = k -> a < sp_lower s -> exists u, upper = Some u /\ u <= sp_lower s).

(** The history [hs'] is [hs] with [value] in force on [k] from [a] to [upper]. *)
Definition is_set (hs hs' : list TkSpan) (k : bytes) (a : Z) (upper : option Z) (value : bytes) : Prop :=
  let over k' t := k' = k /\ a <= t /\ is_some_above upper t = true in
  forall k' t v, in_force hs' k' t v <-> (over k' t /\ v = value) \/ (~ over k' t /\ in_force hs k' t v).

(** The old ranges give way: a list [hs'] that holds the new range, whose other
    ranges only keep old ones in force, and that keeps every old one outside. *)
Lemma is_set_intro hs hs' k a upper value :
  let s2 := mkTkSpan k a upper value in
  history hs' -> s2 ∈ hs' ->
  (forall x, x ∈ hs' -> x = s2 \/ exists y, y ∈ hs /\ sp_sub_key y = sp_sub_key x /\ sp_value y = sp_value x /\ forall t, covers x t -> covers y t) ->
  (forall y t, y ∈ hs -> covers y t -> (sp_sub_key y = k /\ covers s2 t) \/
     exists x, x ∈ hs' /\ sp_sub_key x = sp_sub_key y /\ sp_value x = sp_value y /\ covers x t) ->
  is_set hs hs' k a upper value.
Proof.
  intros s2 Hh H2 Hnew Hold k' t v. split.
  - intros (x & Hx & Ex & Cx & Ev). destruct (decide (k' = k /\ a <= t /\ is_some_above upper t = true)) as [Ho|Ho].
    + left. split; [done|]. assert (x = s2) as ->; [|done]. destruct Ho as (-> & ? & ?). by eapply in_force_unique.
    + right. split; [done|]. destruct (Hnew x Hx) as [->|(y & Hy & Eks & Evs & Hc)].
      * exfalso. apply Ho. destruct Cx. by subst.
      * exists y. split_and!; [done|congruence|by apply Hc|congruence].
  - intros [[(-> & ? & ?) ->]|[Ho (y & Hy & Ey & Cy & Ev)]]; [by exists s2|].
    destruct (Hold y t Hy Cy) as [[Ek [? ?]]|(x & Hx & Eks & Evs & Cx)]; [exfalso; apply Ho; split; [congruence|done]|].
    exists x. split_and!; [done|congruence|done|congruence].
Qed.

Lemma gap_end_spec tree hs k a L R :
  holds tree (map item hs) -> history hs -> floor_view hs k a L R ->
  raw_floor tree k a = Ok ((λ s, (zlen L - 1, item s)) <$> last L) ->
  gap_end def tree k a =
    Ok (match head R with Some r => if decide (sp_sub_key r = k) then Some (sp_lower r) else None | None => None end).
Proof.
  intros Hh Hhist (E & _) Hf. unfold gap_end. rewrite Hf. rsimpl.
  assert (match (λ s, (zlen L - 1, item s)) <$> last L with Some (rank, _) => rank + 1 | None => 0 end = zlen L) as ->.
  { destruct (last L) eqn:El; simpl; [lia|]. apply last_None in El. by subst. }
  rewrite (entry_at_spec _ _ Hh L R E). rsimpl. destruct R as [|r R]; [done|]. cbn [head fmap option_fmap option_map].
  assert (span_ok r) as Hok by (apply (span_in hs Hhist); rewrite E; set_solver).
  pose proof (in_sub_key_spec r k Hok) as Hi.
  assert (slice (item r).1 (sub_w def) (sub_w def + 8) = Ok (encode_ts (sp_lower r))) as Hs.
  { destruct Hok as (Hk & _). unfold item, composite. cbn [fst]. rewrite slice_skip by lia. rewrite Hk, Z.sub_diag.
    replace (sub_w def + 8 - sub_w def) with 8 by lia. by apply slice_all, zlen_encode_ts. }
  destruct (item r) as [ki vi]. cbn [fst] in *. rewrite Hi. rsimpl. destruct Hok as (_ & Hl & _).
  case_bool_decide; [rewrite Hs; rsimpl; rewrite decode_encode_ts by done; by rewrite decide_True|by rewrite decide_False].
Qed.

Lemma set_over tree hs k a value L s R :
  holds tree (map item hs) -> history hs -> hs = L ++ s :: R -> sp_sub_key s = k -> sp_lower s = a ->
  zlen value <= tc_value_width def -> room 1 tree ->
  exists tree' hs', put_record def tree k a (sp_upper s) value = Ok tree' /\ holds tree' (map item hs') /\ history hs' /\
    is_set hs hs' k a (sp_upper s) value.
Proof.
  intros Hh Hhist -> Ek Ea Hv Hr. set (s2 := mkTkSpan k a (sp_upper s) value).
  assert (span_ok s2) as Hok2.
  { destruct (span_in _ Hhist s ltac:(set_solver)) as (H1 & H2 & H3 & _ & H5). subst. by split_and!. }
  destruct (put_record_spec tree _ s2 0 Hh Hok2 Hr) as (tree' & Hp & Hh' & _). exists tree', (L ++ s2 :: R).
  assert (history (L ++ s2 :: R)) as Hhist'.
  { apply (history_app L [s]) in Hhist as (HLR & _ & HL & HR). apply (history_app L [s2]).
    split; [done|]. split; [by apply history_single|]. split.
    - intros x b Hx ->%list_elem_of_singleton. apply (before_same x s); [|done|done]. apply HL; [done|left].
    - intros x b ->%list_elem_of_singleton Hb. destruct (HR s b ltac:(left) Hb) as [Hp1 Ho].
      unfold before, at_pos in *. simpl. subst. done. }
  split; [exact Hp|]. split; [|split; [done|]].
  - rewrite map_app in Hh' |- *. simpl in Hh'. rewrite put_over in Hh'; [done| |].
    + pose proof (rt_sorted _ _ Hh) as Hs. by rewrite map_app in Hs.
    + unfold kz, item. simpl. by rewrite Ek, Ea.
  - apply is_set_intro; [done|set_solver| |].
    + intros x Hx. assert (x = s2 \/ x ∈ L ++ s :: R) as [|?] by set_solver; [by left|]. right. by exists x.
    + intros y t Hy Cy. assert (y = s \/ y ∈ L ++ s2 :: R) as [->|?] by set_solver; [left|right; by exists y].
      split; [done|]. split; [|apply Cy]. simpl. destruct Cy. lia.
Qed.

Lemma set_split tree hs k a value L s R :
  holds tree (map item hs) -> history hs -> floor_view hs k a (L ++ [s]) R -> sp_sub_key s = k -> zlen k = sub_w def -> i64_ok a -> covers s a -> sp_lower s <> a ->
  zlen value <= tc_value_width def -> room 2 tree ->
  exists tree1 tree' hs', put_record def tree k (sp_lower s) (Some a) (sp_value s) = Ok tree1 /\
    put_record def tree1 k a (sp_upper s) value = Ok tree' /\ holds tree' (map item hs') /\ history hs' /\
    is_set hs hs' k a (sp_upper s) value.
Proof.
  intros Hh Hhist (E & HL & HR) Ek Hk Ha Cs Hne Hv Hr. rewrite <- app_assoc in E. simpl in E. subst hs.
  set (s1 := mkTkSpan k (sp_lower s) (Some a) (sp_value s)). set (s2 := mkTkSpan k a (sp_upper s) value).
  pose proof Cs as [Hla Hua]. rewrite above_spec in Hua.
  destruct (span_in _ Hhist s ltac:(set_solver)) as (H1 & H2 & H3 & H4 & H5).
  assert (span_ok s1) as Hok1 by (subst; split_and!; simpl; try done; intros u [= <-]; lia).
  assert (span_ok s2) as Hok2 by (subst; by split_and!).
  destruct (put_record_spec tree _ s1 1 Hh Hok1 Hr) as (tree1 & Hp1 & Hh1 & Hr1).
  destruct (put_record_spec tree1 _ s2 0 Hh1 Hok2 Hr1) as (tree' & Hp2 & Hh2 & _).
  exists tree1, tree', (L ++ s1 :: s2 :: R).
  assert (forall r, r ∈ R -> at_pos s2 < at_pos r) as HR2.
  { intros r Hrr. rewrite Forall_forall in HR. specialize (HR r Hrr). exact HR. }
  assert (at_pos s < at_pos s2) as Hs12 by (unfold at_pos; simpl; rewrite Ek; apply pos_lt; [done..|right; split; [done|lia]]).
  assert (at_pos s1 = at_pos s) as Es1 by (unfold at_pos; simpl; by rewrite Ek).
  assert (history (L ++ [s1; s2] ++ R)) as Hhist'.
  { apply (history_app L [s]) in Hhist as (HLR & _ & HbL & HbR). apply history_app. split; [done|]. split_and!.
    - split; [constructor; [done|by constructor]|]. constructor; [constructor; constructor|]. constructor; [|constructor].
      split; [lia|]. intros _. by exists a.
    - intros x b Hx Hb. pose proof (HbL x s Hx ltac:(left)) as Hb0.
      apply elem_of_cons in Hb as [->|Hb]; [by apply (before_same x s)|]. apply list_elem_of_singleton in Hb as ->.
      destruct Hb0 as [Hp0 Ho0]. split; [lia|]. simpl. intros Exk. destruct (Ho0 ltac:(congruence)) as (u & Eu & Hu).
      exists u. split; [done|lia].
    - intros x b Hx Hb. pose proof (HR2 b Hb) as Hb2. destruct (HbR s b ltac:(left) Hb) as [Hp0 Ho0].
      apply elem_of_cons in Hx as [->|Hx].
      + split; [lia|]. simpl. intros Exk. exists a. split; [done|].
        destruct (Ho0 ltac:(congruence)) as (u & Eu & Hu). specialize (Hua u Eu). lia.
      + apply list_elem_of_singleton in Hx as ->. split; [done|]. simpl. intros Exk. apply Ho0. congruence. }
  split; [exact Hp1|]. split; [exact Hp2|]. split; [|split; [done|]].
  - pose proof (rt_sorted _ _ Hh) as Hsrt. rewrite map_app in Hsrt, Hh2 |- *. simpl in Hsrt, Hh2 |- *.
    rewrite put_over in Hh2; [|done|unfold kz, item; simpl; by rewrite Ek].
    change (item s1 :: map item R) with ([item s1] ++ map item R) in Hh2. rewrite app_assoc in Hh2.
    rewrite put_between in Hh2; [by rewrite <- app_assoc in Hh2| |].
    + apply sorted_app in Hsrt as (_ & _ & HLs). apply Forall_app. split.
      * eapply Forall_impl; [exact HLs|]. intros e He%Forall_inv. change (kz (item s)) with (at_pos s) in He.
        change (kz (item s2)) with (at_pos s2). lia.
      * constructor; [|done]. change (kz (item s1)) with (at_pos s1). change (kz (item s2)) with (at_pos s2). lia.
    + apply List.Forall_map, Forall_forall. intros r Hrr. by apply HR2.
  - apply is_set_intro; [done|set_solver| |].
    + intros x Hx. assert (x = s1 \/ x = s2 \/ x ∈ L ++ s :: R) as [->|[->|?]] by set_solver; [right|by left|right; by exists x].
      exists s. split_and!; [set_solver|done|done|]. intros t [Hc1 Hc2]. simpl in Hc1, Hc2. apply Z.ltb_lt in Hc2. split; [done|].
      apply above_spec. intros u Eu. specialize (Hua u Eu). lia.
    + intros y t Hy Cy. assert (y = s \/ y ∈ L ++ s1 :: s2 :: R) as [->|?] by set_solver; [|right; by exists y].
      destruct Cy as [Cy1 Cy2]. destruct (Z.le_gt_cases a t); [left; by split_and!|right].
      exists s1. split_and!; [set_solver|done|done|]. split; [done|]. simpl. by apply Z.ltb_lt.
Qed.

Definition gap_upper (k : bytes) (R : list TkSpan) : option Z :=
  match head R with Some r => if decide (sp_sub_key r = k) then Some (sp_lower r) else None | None => None end.

(** The next range of [k] after an instant bounds what is set there. *)
Lemma gap_upper_spec hs k a L R :
  history hs -> floor_view hs k a L R -> zlen k = sub_w def -> i64_ok a ->
  (forall u, gap_upper k R = Some u -> a < u /\ i64_ok u /\ exists s, s ∈ hs /\ sp_sub_key s = k /\ sp_lower s = u) /\
  forall b, b ∈ R -> sp_sub_key b = k -> exists u, gap_upper k R = Some u /\ u <= sp_lower b.
Proof.
  intros Hhist (E & HL & HR) Hk Ha. rewrite Forall_forall in HR. unfold gap_upper. destruct R as [|r R]; simpl.
  { split; [done|]. by intros b ?%elem_of_nil. }
  assert (forall x, x ∈ r :: R -> x ∈ hs) as Hin by (intros x Hx; rewrite E; set_solver).
  pose proof (span_in hs Hhist r (Hin r ltac:(left))) as (Hkr & Hlr & _). pose proof (HR r ltac:(left)) as Hp.
  unfold at_pos in Hp. rewrite pos_lt in Hp by done. split.
  - intros u. case_decide as Er; [|done]. intros [= <-]. subst k. destruct Hp as [|[_ ?]]; [lia|]. split_and!; [done..|].
    exists r. split_and!; [|done..]. apply Hin. left.
  - intros b [->|Hb]%elem_of_cons Eb; [rewrite decide_True by done; by eexists|].
    assert (before r b) as Hrb.
    { destruct Hhist as [_ HS]. rewrite E in HS. apply StronglySorted_app_1_r in HS. inversion_clear HS as [|? ? _ HF].
      rewrite Forall_forall in HF. by apply HF. }
    destruct (between_sub hs Hhist k r b Hk) as [Er Hlt]; [apply Hin; left|apply Hin; by right|done|done| |].
    + destruct Hp as [|[-> _]]; lia.
    + rewrite decide_True by done. eexists. split; [done|lia].
Qed.

Lemma set_gap tree hs k a value L R :
  holds tree (map item hs) -> history hs -> floor_view hs k a L R -> zlen k = sub_w def -> i64_ok a ->
  (forall s, s ∈ hs -> sp_sub_key s = k -> ~ covers s a) -> zlen value <= tc_value_width def -> room 1 tree ->
  exists tree' hs', put_record def tree k a (gap_upper k R) value = Ok tree' /\ holds tree' (map item hs') /\ history hs' /\
    set_end hs k a (gap_upper k R) /\ is_set hs hs' k a (gap_upper k R) value.
Proof.
  intros Hh Hhist HV Hk Ha Hgap Hv Hr. destruct (gap_upper_spec hs k a L R Hhist HV Hk Ha) as [Hup Hnext].
  destruct HV as (E & HL & HR). rewrite Forall_forall in HL, HR. set (upper := gap_upper k R) in *.
  set (s2 := mkTkSpan k a upper value).
  assert (span_ok s2) as Hok2.
  { split_and!; simpl; try done.
    - destruct upper as [u|]; [|done]. by apply (Hup u eq_refl).
    - intros u Eu. by apply Hup. }
  assert (forall x, x ∈ L -> sp_sub_key x = k -> sp_lower x <= a /\ exists u, sp_upper x = Some u /\ u <= a) as HLk.
  { intros x Hx Ex. assert (x ∈ hs) as Hin by (rewrite E; set_solver). destruct (span_in hs Hhist x Hin) as (Hkx & Hlx & _).
    specialize (HL x Hx). unfold at_pos in HL. rewrite pos_le in HL by done.
    assert (sp_lower x <= a) as Hle by (destruct HL as [|[_ ?]]; [subst; lia|done]). split; [done|].
    pose proof (Hgap x Hin Ex) as Hn. unfold covers in Hn. destruct (sp_upper x) as [u|]; simpl in Hn; [|tauto].
    exists u. split; [done|]. destruct (Z.ltb_spec a u); [tauto|lia]. }
  assert (forall x, x ∈ L -> at_pos x < at_pos s2) as HLp.
  { intros x Hx. assert (x ∈ hs) as Hin by (rewrite E; set_solver). destruct (span_in hs Hhist x Hin) as (Hkx & Hlx & _ & _ & Hu).
    pose proof (HL x Hx) as Hp. unfold at_pos in *. simpl. rewrite pos_le in Hp by done. apply pos_lt; [done..|].
    destruct Hp as [|[Ex Hle]]; [by left|right]. split; [done|]. destruct (HLk x Hx Ex) as (_ & u & Eu & Hua). specialize (Hu u Eu). lia. }
  destruct (put_record_spec tree _ s2 0 Hh Hok2 Hr) as (tree' & Hp & Hh' & _). exists tree', (L ++ s2 :: R).
  assert (history (L ++ [s2] ++ R)) as Hhist'.
  { apply history_app. split; [by rewrite <- E|]. split; [by apply history_single|]. split.
    - intros x b Hx ->%list_elem_of_singleton. split; [by apply HLp|]. simpl. intros Ex. by apply HLk.
    - intros x b ->%list_elem_of_singleton Hb. split; [by apply HR|]. simpl. intros Eb. by apply Hnext. }
  split; [exact Hp|]. split; [|split; [done|split]].
  - rewrite E, map_app in Hh'. rewrite map_app. rewrite put_between in Hh'; [done| |]; apply List.Forall_map, Forall_forall;
      intros x Hx; [by apply HLp|by apply HR].
  - right. split; [done|]. split; [intros u Eu; by destruct (Hup u Eu) as (? & _ & ?)|].
    intros x Hx Ex Hlt. rewrite E in Hx. apply elem_of_app in Hx as [Hx|Hx]; [|by apply Hnext].
    destruct (HLk x Hx Ex). lia.
  - apply is_set_intro; [done|set_solver| |].
    + intros x Hx. assert (x = s2 \/ x ∈ hs) as [|?] by (rewrite E; set_solver); [by left|right]. by exists x.
    + intros y t Hy Cy. right. exists y. split_and!; [|done..]. rewrite E in Hy. set_solver.
Qed.

Lemma do_set_spec tree hs k a value :
  holds tree (map item hs) -> history hs -> zlen k = sub_w def -> i64_ok a -> zlen value <= tc_value_width def ->
  room 2 tree -> room 1 tree ->
  exists tree' hs' upper, do_set def tree k a value = (tree', Ok [mkTkSpan k a upper value]) /\
    holds tree' (map item hs') /\ history hs' /\ set_end hs k a upper /\ is_set hs hs' k a upper value.
Proof.
  intros Hh Hhist Hk Ha Hv Hr2 Hr1. unfold do_set.
  destruct (covering_spec tree hs Hh Hhist k a Hk Ha) as (L & R & HV & Hf & ->). cbn [attempt].
  pose proof (gap_end_spec tree hs k a _ R Hh Hhist HV Hf) as Hge. fold (gap_upper k R) in Hge.
  unfold cover. destruct (last L) as [s|] eqn:El; [pose proof El as [L' ->]%last_Some; case_decide as Hc|].
  - destruct Hc as [Ek Cs]. destruct HV as (E & HV). assert (s ∈ hs) as Hin by (rewrite E; set_solver).
    assert (set_end hs k a (sp_upper s)) as Hend by (left; by exists s).
    destruct (Z.eqb_spec (sp_lower s) a) as [Ea|Ea].
    + rewrite <- app_assoc in E.
      destruct (set_over tree hs k a value L' s R Hh Hhist E Ek Ea Hv Hr1) as (tree' & hs' & Hp & Hh' & Hhist' & Hset).
      rewrite Hp. cbn [attempt]. exists tree', hs', (sp_upper s). rewrite Ek, Ea. by split_and!.
    + destruct (set_split tree hs k a value L' s R Hh Hhist (conj E HV) Ek Hk Ha Cs Ea Hv Hr2)
        as (tree1 & tree' & hs' & Hp1 & Hp2 & Hh' & Hhist' & Hset).
      rewrite Hp1. cbn [attempt]. rewrite Hp2. cbn [attempt]. exists tree', hs', (sp_upper s). by split_and!.
  - rewrite Hge. cbn [attempt].
    destruct (set_gap tree hs k a value _ R Hh Hhist HV Hk Ha) as (tree' & hs' & Hp & Hh' & Hhist' & Hend & Hset); [|done..|].
    + intros x Hx Ex Cx. pose proof (covering_is_last tree hs Hh Hhist k a _ R x HV Hk Ha Hx Ex Cx) as Hl. rewrite El in Hl.
      injection Hl as ->. tauto.
    + rewrite Hp. cbn [attempt]. exists tree', hs', (gap_upper k R). by split_and!.
  - rewrite Hge. cbn [attempt].
    destruct (set_gap tree hs k a value _ R Hh Hhist HV Hk Ha) as (tree' & hs' & Hp & Hh' & Hhist' & Hend & Hset); [|done..|].
    + intros x Hx Ex Cx. pose proof (covering_is_last tree hs Hh Hhist k a _ R x HV Hk Ha Hx Ex Cx) as Hl. by rewrite El in Hl.
    + rewrite Hp. cbn [attempt]. exists tree', hs', (gap_upper k R). by split_and!.
Qed.

(** The history [hs'] is [hs] with what is in force on [k] at [a] cut there. *)
Definition is_clear (hs hs' : list TkSpan) (k : bytes) (a : Z) : Prop :=
  forall k' t v, in_force hs' k' t v <->
    in_force hs k' t v /\ ~ (k' = k /\ a <= t /\ exists s, s ∈ hs /\ sp_sub_key s = k /\ covers s a /\ covers s t).

(** Shrinking or dropping the range in force at [a]. *)
Lemma is_clear_intro hs hs' k a s :
  history hs -> s ∈ hs -> sp_sub_key s = k -> covers s a ->
  (forall x t, x ∈ hs' -> covers x t -> exists y, y ∈ hs /\ sp_sub_key y = sp_sub_key x /\ sp_value y = sp_value x /\ covers y t /\ (y = s -> t < a)) ->
  (forall y t, y ∈ hs -> covers y t -> (y = s /\ a <= t) \/
     exists x, x ∈ hs' /\ sp_sub_key x = sp_sub_key y /\ sp_value x = sp_value y /\ covers x t) ->
  is_clear hs hs' k a.
Proof.
  intros Hh Hs Ek Cs Hnew Hold k' t v. split.
  - intros (x & Hx & Ex & Cx & Ev). destruct (Hnew x t Hx Cx) as (y & Hy & Eks & Evs & Cy & Hys).
    split; [exists y; split_and!; [done|congruence|done|congruence]|]. intros (-> & Hat & s' & Hs' & Ek' & Cs' & Ct).
    assert (s' = s) as -> by (apply (in_force_unique hs s' s a); (done || congruence)).
    assert (y = s) as E by (apply (in_force_unique hs y s t); (done || congruence)). specialize (Hys E). lia.
  - intros [(y & Hy & Ey & Cy & Ev) Hno]. destruct (Hold y t Hy Cy) as [[-> Hat]|(x & Hx & Eks & Evs & Cx)].
    + exfalso. apply Hno. split; [congruence|]. split; [done|]. by exists s.
    + exists x. split_and!; [done|congruence|done|congruence].
Qed.

Lemma do_clear_spec tree hs k a :
  holds tree (map item hs) -> history hs -> zlen k = sub_w def -> i64_ok a -> room 1 tree ->
  exists tree' hs' spans, do_clear def tree k a = (tree', Ok spans) /\ holds tree' (map item hs') /\ history hs' /\
    is_clear hs hs' k a /\
    spans = map (λ s, mkTkSpan k (sp_lower s) (Some a) (sp_value s))
      (filter (λ s, (sp_sub_key s = k /\ covers s a) /\ sp_lower s <> a) hs).
Proof.
  intros Hh Hhist Hk Ha Hr. unfold do_clear.
  destruct (covering_spec tree hs Hh Hhist k a Hk Ha) as (L & R & HV & _ & ->). cbn [attempt].
  pose proof (filter_cover tree hs Hh Hhist k a L R HV Hk Ha) as Hcov.
  assert (filter (λ s, (sp_sub_key s = k /\ covers s a) /\ sp_lower s <> a) hs =
          filter (λ s, sp_lower s <> a) (match cover k a L with Some (_, s) => [s] | None => [] end)) as ->.
  { rewrite <- Hcov, list_filter_filter. apply list_filter_iff. tauto. }
  unfold cover in *. destruct (last L) as [s|] eqn:El; [pose proof El as [L' ->]%last_Some; case_decide as Hc|].
  2,3: exists tree, hs, []; split_and!; try done; intros k' t v; split; [|by intros [? _]];
    intros Hf; split; [done|]; intros (_ & _ & x & Hx & Ex & Cx & _);
    assert (x ∈ filter (λ s, sp_sub_key s = k /\ covers s a) hs) as Hin by (by apply list_elem_of_filter);
    rewrite Hcov in Hin; by apply elem_of_nil in Hin.
  destruct Hc as [Ek Cs]. destruct HV as (E & HL & HR). rewrite <- app_assoc in E. simpl in E. subst hs.
  pose proof (rt_sorted _ _ Hh) as Hsrt. rewrite map_app in Hsrt. simpl in Hsrt.
  assert (s ∈ L' ++ s :: R) as Hin by set_solver. pose proof Hhist as Hparts. apply (history_app L' [s]) in Hparts as (HLR & _ & HbL & HbR).
  destruct (span_in _ Hhist s Hin) as (H1 & H2 & H3 & H4 & H5). pose proof Cs as [Hla Hua]. rewrite above_spec in Hua.
  destruct (Z.eqb_spec (sp_lower s) a) as [Ea|Ea].
  - rewrite filter_cons_False by tauto. rewrite filter_nil.
    destruct (rt_remove_law _ _ (composite k (sp_lower s)) Hh) as (tree' & Hrm & Hh' & _).
    { unfold composite. by rewrite zlen_app, zlen_encode_ts, Hk. }
    rewrite Hrm. cbn [attempt]. exists tree', (L' ++ R), []. split_and!; [done| |done| |done].
    + rewrite map_app in Hh' |- *. simpl in Hh'. change (from_be (composite k (sp_lower s))) with (pos k (sp_lower s)) in Hh'.
      replace (pos k (sp_lower s)) with (kz (item s)) in Hh' by (rewrite <- Ek; done). by rewrite del_between in Hh'.
    + apply (is_clear_intro _ _ k a s); [done..| |].
      * intros x t Hx Cx. exists x. split_and!; [set_solver|done..|]. intros ->. exfalso.
        apply elem_of_app in Hx as [Hx|Hx]; [destruct (HbL s s Hx ltac:(left))|destruct (HbR s s ltac:(left) Hx)]; lia.
      * intros y t Hy Cy. assert (y = s \/ y ∈ L' ++ R) as [->|?] by set_solver; [left|right; by exists y].
        split; [done|]. destruct Cy. lia.
  - rewrite filter_cons_True, filter_nil by done. set (s1 := mkTkSpan k (sp_lower s) (Some a) (sp_value s)).
    assert (span_ok s1) as Hok1 by (subst; split_and!; simpl; try done; intros u [= <-]; lia).
    destruct (put_record_spec tree _ s1 0 Hh Hok1 Hr) as (tree' & Hp & Hh' & _). simpl in Hp. rewrite Hp. cbn [attempt].
    assert (at_pos s1 = at_pos s) as Es1 by (unfold at_pos; simpl; by rewrite Ek).
    exists tree', (L' ++ s1 :: R), [s1]. split_and!; [by subst|..|done].
    + rewrite map_app in Hh' |- *. simpl in Hh'. by rewrite put_over in Hh'.
    + apply (history_app L' [s1]). split; [done|]. split; [by apply history_single|]. split.
      * intros x b Hx ->%list_elem_of_singleton. apply (before_same x s); [|done..]. apply HbL; [done|left].
      * intros x b ->%list_elem_of_singleton Hb. destruct (HbR s b ltac:(left) Hb) as [Hp0 Ho0]. split; [lia|].
        simpl. intros Eb. exists a. split; [done|]. destruct (Ho0 ltac:(congruence)) as (u & Eu & Hu). specialize (Hua u Eu). lia.
    + assert (forall x t, covers x t -> x = s1 -> covers s t /\ t < a) as Hs1.
      { intros x t [Hc1 Hc2] ->. simpl in Hc1, Hc2. apply Z.ltb_lt in Hc2. split; [|done]. split; [done|].
        apply above_spec. intros u Eu. specialize (Hua u Eu). lia. }
      apply (is_clear_intro _ _ k a s); [done..| |].
      * intros x t Hx Cx. assert (x = s1 \/ x ∈ L' ++ R) as [Ex|Hx'] by set_solver.
        -- destruct (Hs1 x t Cx Ex). exists s. subst x. by split_and!.
        -- exists x. split_and!; [set_solver|done..|]. intros ->. exfalso.
           apply elem_of_app in Hx' as [Hx'|Hx']; [destruct (HbL s s Hx' ltac:(left))|destruct (HbR s s ltac:(left) Hx')]; lia.
      * intros y t Hy Cy. assert (y = s \/ y ∈ L' ++ s1 :: R) as [->|?] by set_solver; [|right; by exists y].
        destruct (Z.le_gt_cases a t); [by left|right]. exists s1. split_and!; [set_solver|done|done|].
        destruct Cy. split; [done|]. simpl. by apply Z.ltb_lt.
Qed.
End history.

(** ** A resident history *)

(** The updates a class takes: the width of its sub-keys, and a value of its type,
    with nothing after it, that fits the record. *)
Definition valid_op (def : TkClassDef) (op : TkOp) : Prop :=
  match op with
  | TkSet k _ v =>
      zlen k = tc_sub_key_width def /\ (exists x, decode_field_value (tc_value_type def) v 0 = Ok (x, zlen v)) /\
      zlen v <= tc_value_width def
  | TkClear k _ => zlen k = tc_sub_key_width def
  end.

Definition effective (clock : Z) (as_of : option Z) : Z := match as_of with Some t => t | None => clock end.

(** What a valid update does: the history after it and the ranges it answers. *)
Definition op_effect (clock : Z) (op : TkOp) (hs hs' : list TkSpan) (spans : list TkSpan) : Prop :=
  match op with
  | TkSet k as_of v =>
      let a := effective clock as_of in
      exists upper, set_end hs k a upper /\ is_set hs hs' k a upper v /\ spans = [mkTkSpan k a upper v]
  | TkClear k as_of =>
      let a := effective clock as_of in
      is_clear hs hs' k a /\
      spans = map (λ s, mkTkSpan k (sp_lower s) (Some a) (sp_value s))
        (filter (λ s, (sp_sub_key s = k /\ covers s a) /\ sp_lower s <> a) hs)
  end.

Lemma validate_set_spec def k v :
  (zlen k = tc_sub_key_width def /\ (exists x, decode_field_value (tc_value_type def) v 0 = Ok (x, zlen v)) /\
     zlen v <= tc_value_width def /\ validate_set def k v = Ok ()) \/
  (~ valid_op def (TkSet k None v) /\ exists e, validate_set def k v = Err e).
Proof.
  unfold validate_set, check_sub_key, valid_op, sub_w.
  destruct (Z.eqb_spec (zlen k) (tc_sub_key_width def)) as [Ek|Ek]; rsimpl; [|right; split; [tauto|by eexists]].
  pose proof (decodes_field_value (tc_value_type def) v 0 (conj (Z.le_refl 0) (zlen_nonneg v))) as Hd.
  destruct (decode_field_value _ v 0) as [[x off]|e|]; [|right; split; [naive_solver|by eexists]|done].
  destruct (Z.eqb_spec off (zlen v)) as [->|Eo]; simpl; [|right; split; [naive_solver|by eexists]].
  destruct (Z.ltb_spec (tc_value_width def) (zlen v)); [right; split; [naive_solver lia|by eexists]|left; by eauto].
Qed.

Section resident.
Context {T : Type} (def : TkClassDef) {holds : T -> list (bytes * bytes) -> Prop} {room : nat -> T -> Prop}
  `{RankedTreeLaws T (tc_sub_key_width def + 8) (1 + 8 + 2 + tc_value_width def) holds room}.
Hypothesis Hsub : u16_ok (tc_sub_key_width def).
Hypothesis Hval : u16_ok (tc_value_width def).

(** The resident [s] keeps the history [hs] of a class. *)
Record keeps (s : TkResidentHistory T) (hs : list TkSpan) : Prop := {
  kp_def : tk_def s = def;
  kp_clock : i64_ok (tk_clock s);
  kp_holds : holds (tk_tree s) (map (item def) hs);
  kp_history : history def hs }.

Lemma effective_ok clock as_of : i64_ok clock -> opt_ok i64_ok as_of -> i64_ok (effective clock as_of).
Proof. by destruct as_of. Qed.

(** C24: the queries of a history filter its ranges. On a file that keeps the ranges
    [hs], which do not overlap and are in the order of sub-key and start, a query
    answers, in that order, with exactly the ranges it selects: the one in force at an
    instant, the open one, all of a sub-key, those that meet an interval, or those of
    every sub-key in force at an instant. A sub-key of the wrong width is an error. *)
Theorem history_queries_are_filters s hs q :
  keeps s hs -> tk_query_ok q ->
  tk_query s (encode_tk_query_req q) =
    (s, if from_option (λ k, zlen k =? tc_sub_key_width def) true (asked_sub_key q)
        then Ok (encode_tk_result (mkTkResult (filter (selects q) hs)))
        else Err "sub_key has the wrong width for its class").
Proof.
  intros [Ed _ Hh Hhist] Hq. unfold tk_query. rewrite (codec_complete _ _ _ tk_query_codec q Hq). rsimpl. rewrite Ed.
  destruct (from_option _ _ _) eqn:Hk.
  - rewrite (run_query_spec def Hsub Hval _ hs Hh Hhist q Hq); [done|]. by destruct q; [apply Z.eqb_eq in Hk..|].
  - destruct q; simpl in Hk |- *; [unfold check_sub_key, sub_w; by rewrite Hk..|done].
Qed.

(** C23: an update of a history changes the instants it says. A set puts its value in
    force from its instant (the clock's when it gives none) to the end of the range it
    cuts, or else to the start of the sub-key's next range, and leaves every other
    instant of every sub-key as it was; a clear ends the range in force at its instant
    there. What they leave is again a history, and they answer with the ranges they
    made. An update the class does not take is an error that changes nothing. *)
Theorem history_updates_change_the_timeline s hs op :
  keeps s hs -> room 2 (tk_tree s) -> room 1 (tk_tree s) -> tk_op_ok op ->
  (valid_op def op -> exists s' hs' spans,
     tk_execute s (encode_tk_op op) = (s', Ok (encode_tk_result (mkTkResult spans))) /\ keeps s' hs' /\
     op_effect (tk_clock s) op hs hs' spans) /\
  (~ valid_op def op -> exists e, tk_execute s (encode_tk_op op) = (s, Err e)).
Proof.
  intros [Ed Hc Hh Hhist] Hr2 Hr1 Hop. unfold tk_execute. rewrite (codec_complete _ _ _ tk_op_codec op Hop). cbn [attempt].
  destruct s as [d clock tree]. simpl in *. subst d. destruct op as [k as_of v|k as_of]; simpl in *.
  - destruct Hop as (_ & Ha & _). pose proof (effective_ok _ _ Hc Ha) as Hea. fold (effective clock as_of).
    destruct (validate_set_spec def k v) as [(Hk & Hx & Hw & ->)|[Hn [e ->]]]; cbn [attempt].
    + split; [|tauto]. intros _. destruct (do_set_spec def Hsub Hval tree hs k (effective clock as_of) v Hh Hhist Hk Hea Hw Hr2 Hr1)
        as (tree' & hs' & upper & -> & Hh' & Hhist' & Hend & Hset).
      exists (mkTk def clock tree'), hs', [mkTkSpan k (effective clock as_of) upper v]. split; [done|]. split; [done|]. by exists upper.
    + split; [intros Hno; destruct (Hn Hno)|]. intros _. by exists e.
  - destruct Hop as (_ & Ha). pose proof (effective_ok _ _ Hc Ha) as Hea. fold (effective clock as_of). unfold check_sub_key, sub_w.
    destruct (Z.eqb_spec (zlen k) (tc_sub_key_width def)) as [Hk|Hk]; cbn [negb attempt].
    + split; [|done]. intros _. destruct (do_clear_spec def Hsub Hval tree hs k (effective clock as_of) Hh Hhist Hk Hea Hr1)
        as (tree' & hs' & spans & -> & Hh' & Hhist' & Hclr & Hsp).
      by exists (mkTk def clock tree'), hs', spans.
    + split; [done|]. intros _. by eexists.
Qed.
End resident.

(** A class of 64-bit integers kept per one-byte sub-key. *)
Definition demo_class : TkClassDef := mkTkClass (lit "price") TyI64 8 1.

Definition demo_file (t : BPlusTree) : Prop :=
  create (1 + 8) (1 + 8 + 2 + 8) TK_PAGE_SIZE = Ok t /\ keeps (holds := bt_holds (1 + 8) (1 + 8 + 2 + 8)) demo_class (mkTk demo_class 100 t) [] /\
  bt_room 2 t /\ bt_room 1 t.

Lemma demo_file_created : exists t, demo_file t.
Proof.
  destruct (create_holds (1 + 8) (1 + 8 + 2 + 8) TK_PAGE_SIZE 2) as (t & Ht & Hh & Hr2); [done..|by split_and!|lia|].
  exists t. split; [exact Ht|]. clear Ht. split; [split; [reflexivity|split; reflexivity || discriminate|exact Hh|split; constructor]|].
  split; [exact Hr2|by apply bt_room_less].
Qed.

Lemma history_queries_are_filters_witness :
  exists t, demo_file t /\
    tk_query (mkTk demo_class 100 t) (encode_tk_query_req (SnapshotAt 7)) =
      (mkTk demo_class 100 t, Ok (encode_tk_result (mkTkResult []))).
Proof.
  destruct demo_file_created as [t Ht]. exists t. split; [exact Ht|].
  exact (history_queries_are_filters demo_class ltac:(by split) ltac:(by split) _ _ (SnapshotAt 7) (proj1 (proj2 Ht)) ltac:(by split)).
Defined.

Lemma history_updates_change_the_timeline_witness :
  exists t s' hs' upper, demo_file t /\
    tk_execute (mkTk demo_class 100 t) (encode_tk_op (TkSet [u8 1] None (to_le 8 5))) =
      (s', Ok (encode_tk_result (mkTkResult [mkTkSpan [u8 1] 100 upper (to_le 8 5)]))) /\
    keeps (holds := bt_holds (1 + 8) (1 + 8 + 2 + 8)) demo_class s' hs' /\ set_end [] [u8 1] 100 upper.
Proof.
  destruct demo_file_created as [t Ht]. pose proof Ht as (_ & Hk & Hr2 & Hr1).
  destruct (history_updates_change_the_timeline (room := bt_room) demo_class ltac:(by split) ltac:(by split) _ _ (TkSet [u8 1] None (to_le 8 5))
    Hk Hr2 Hr1) as [Hv _]; [clear; by vm_compute|].
  destruct Hv as (s' & hs' & spans & Ex & Hk' & upper & Hend & _ & Es); [clear; split; [done|split; [by eexists|done]]|].
  exists t, s', hs', upper. split; [exact Ht|]. split; [|split; [exact Hk'|exact Hend]]. rewrite Ex, Es. reflexivity.
Defined.
