(* ===== verification/StoreNode.v ===== *)
(** * The storage node

    Models [crates/seisin-node/src/transfer.rs], [heartbeat.rs] and
    [store_server.rs]: the requests a storage node serves over its datum log and
    its collections, and the copies it makes for a live migration. A request is
    served in one step (the log lock is held through a write and its
    [note_write]); a copy is a thread of its own, whose reads and deliveries
    interleave with requests. A call to another storage node is a value, the
    address and the request; the text of error replies is not modelled beyond a
    name. Instants are milliseconds. *)

From S2P Require Import Prelude Core Codec Delta DatumLog StoreWire Pages BTree BTreeRep BTreeQuery BTreeInsert BTreeSpec Names RankedTree TreeKinds.

(** ** transfer.rs *)

Record TransferState := mkTransfer {
  tf_ids : gset DatumId; tf_dest : bytes; tf_copied : Z; tf_dirty : gset DatumId; tf_done : bool }.

Abbreviation TransferManager := (gmap DatumId TransferState) (only parsing).

Definition tm_start (m : TransferManager) (tid : DatumId) (ids : list DatumId) (dest : bytes) : TransferManager :=
  <[tid := mkTransfer (list_to_set ids) dest 0 ∅ false]> m.

Definition mark_dirty (id : DatumId) (s : TransferState) : TransferState :=
  if bool_decide (id ∈ tf_ids s)
  then mkTransfer (tf_ids s) (tf_dest s) (tf_copied s) ({[id]} ∪ tf_dirty s) (tf_done s)
  else s.

Definition note_write (m : TransferManager) (id : DatumId) : TransferManager := mark_dirty id <$> m.

Definition tm_dest (m : TransferManager) (tid : DatumId) : option bytes := tf_dest <$> m !! tid.

Definition tm_ids (m : TransferManager) (tid : DatumId) : list DatumId :=
  match m !! tid with Some s => elements (tf_ids s) | None => [] end.

Definition bump_copied (m : TransferManager) (tid : DatumId) (n : Z) : TransferManager :=
  alter (λ s, mkTransfer (tf_ids s) (tf_dest s) (wrap 64 (tf_copied s + n)) (tf_dirty s) (tf_done s)) tid m.

Definition mark_done (m : TransferManager) (tid : DatumId) : TransferManager :=
  alter (λ s, mkTransfer (tf_ids s) (tf_dest s) (tf_copied s) (tf_dirty s) true) tid m.

Definition tm_status (m : TransferManager) (tid : DatumId) : option (Z * Z * bool) :=
  (λ s, (tf_copied s, Z.of_nat (size (tf_dirty s)), tf_done s)) <$> m !! tid.

Definition take_dirty (m : TransferManager) (tid : DatumId) : list DatumId * TransferManager :=
  match m !! tid with
  | Some s => (elements (tf_dirty s), <[tid := mkTransfer (tf_ids s) (tf_dest s) (tf_copied s) ∅ (tf_done s)]> m)
  | None => ([], m)
  end.

Definition tm_retire (m : TransferManager) (tid : DatumId) : list DatumId * TransferManager := (tm_ids m tid, delete tid m).

(** ** heartbeat.rs *)

Definition stale (last now threshold : Z) : bool := threshold <? Z.max 0 (now - last).

(** ** store_server.rs *)

Record StoreNode := mkNode {
  sn_log : DatumLog; sn_node_id : NodeId; sn_last_heard : Z; sn_self_halt_threshold : Z;
  sn_transfers : TransferManager; sn_data_dir : directory; sn_collections : gmap DatumId BPlusTree }.

Definition with_log (node : StoreNode) (l : DatumLog) : StoreNode :=
  mkNode l (sn_node_id node) (sn_last_heard node) (sn_self_halt_threshold node) (sn_transfers node) (sn_data_dir node)
    (sn_collections node).
Definition with_transfers (node : StoreNode) (m : TransferManager) : StoreNode :=
  mkNode (sn_log node) (sn_node_id node) (sn_last_heard node) (sn_self_halt_threshold node) m (sn_data_dir node)
    (sn_collections node).
Definition with_tree (node : StoreNode) (id : DatumId) (t : BPlusTree) : StoreNode :=
  mkNode (sn_log node) (sn_node_id node) (sn_last_heard node) (sn_self_halt_threshold node) (sn_transfers node)
    (sn_data_dir node) (<[id := t]> (sn_collections node)).

Definition COLLECTION_PAGE_SIZE : Z := 4096.

(** [with_collection]: [f] answers the tree it leaves. A file that is opened stays
    resident, so the directory is read at most once for each. *)
Definition with_collection {A} (node : StoreNode) (collection_id : DatumId) (create_ : option (Z * Z))
    (f : BPlusTree -> res (A * BPlusTree)) : StoreNode * res A :=
  let opened :=
    match sn_collections node !! collection_id with
    | Some tree => Ok tree
    | None =>
        match sn_data_dir node !! file_name "collection" collection_id with
        | Some file => bt_open file
        | None =>
            match create_ with
            | Some (key_size, value_size) => create key_size value_size COLLECTION_PAGE_SIZE
            | None => Err "collection does not exist"
            end
        end
    end in
  match opened with
  | Ok tree =>
      match f tree with
      | Ok (x, tree) => (with_tree node collection_id tree, Ok x)
      | Err m => (with_tree node collection_id tree, Err m)
      | Panic => (node, Panic)
      end
  | Err m => (node, Err m)
  | Panic => (node, Panic)
  end.

(** A call on the tree that only reads it. *)
Definition reading {A} (f : BPlusTree -> res A) (tree : BPlusTree) : res (A * BPlusTree) := x ← f tree; Ok (x, tree).

(** The value of [id] and its replication factor; an unreadable value is as an
    absent one. *)
Definition read_value (l : DatumLog) (id : DatumId) : option (bytes * Z) :=
  match get l id with
  | Ok (Some content) => Some (content, default 1 (n_of l id))
  | _ => None
  end.

(** What serving a request ends in: a reply, the connection dropped, or a panic. *)
Inductive served := Reply (r : StoreResponse.t) | Dropped | Crashed.

(** The reply to a collection request. *)
Definition collection_reply {A} (r : StoreNode * res A) (ok : A -> StoreResponse.t) : StoreNode * served :=
  (r.1, match r.2 with Ok x => Reply (ok x) | Err m => Reply (StoreResponse.Error (lit m)) | Panic => Crashed end).

(** A write of [id] that succeeded. *)
Definition written (node : StoreNode) (l : DatumLog) (id : DatumId) : StoreNode :=
  with_transfers (with_log node l) (note_write (sn_transfers node) id).

Definition store_calls := list (bytes * StoreRequest.t).

(** [finish_transfer] on what the log holds of one dirty id. *)
Definition resend (l : DatumLog) (id : DatumId) : StoreRequest.t :=
  match read_value l id with
  | Some (content, n) => StoreRequest.Put id content n
  | None => StoreRequest.Delete id
  end.

Definition finish_transfer (node : StoreNode) (tid : DatumId) : StoreNode * StoreResponse.t * store_calls :=
  match tm_dest (sn_transfers node) tid with
  | None => (node, StoreResponse.Error (lit "unknown transfer"), [])
  | Some dest =>
      let '(dirty, m) := take_dirty (sn_transfers node) tid in
      (with_transfers node m, StoreResponse.Ack, map (λ id, (dest, resend (sn_log node) id)) dirty)
  end.

(** The deletions of [Retire], which are not noted as writes. *)
Definition retire_ids (node : StoreNode) (tid : DatumId) : StoreNode :=
  let '(ids, m) := tm_retire (sn_transfers node) tid in
  with_transfers (with_log node (fold_left log_delete ids (sn_log node))) m.

(** The match of [handle_connection] over a request of the data plane. *)
Definition serve_data (node : StoreNode) (request : StoreRequest.t) : StoreNode * served :=
  match request with
  | StoreRequest.Put id content n => (written node (put_full (sn_log node) id content n) id, Reply StoreResponse.Ack)
  | StoreRequest.Patch id delta n =>
      match put_delta (sn_log node) id delta n with
      | Ok (Applied, l) => (written node l id, Reply StoreResponse.Ack)
      | Ok (NeedFull, l) => (with_log node l, Reply StoreResponse.NeedFull)
      | Err _ => (node, Dropped)
      | Panic => (node, Crashed)
      end
  | StoreRequest.Get id =>
      match get (sn_log node) id with
      | Ok content => (node, Reply (StoreResponse.Value content))
      | Err _ => (node, Dropped)
      | Panic => (node, Crashed)
      end
  | StoreRequest.Delete id => (written node (log_delete (sn_log node) id) id, Reply StoreResponse.Ack)
  | StoreRequest.Identify => (node, Reply (StoreResponse.Identity (sn_node_id node) (from_bytes (log_id (sn_log node)))))
  | StoreRequest.ListIds after limit =>
      let ids := list_ids (sn_log node) after (Z.to_nat limit) in
      (node, Reply (StoreResponse.IdList ids (zlen ids <? limit)))
  | StoreRequest.Transfer tid ids dest =>
      (with_transfers node (tm_start (sn_transfers node) tid ids dest), Reply StoreResponse.Ack)
  | StoreRequest.TransferStatus tid =>
      (node, Reply match tm_status (sn_transfers node) tid with
                   | Some (copied, dirty, done_) => StoreResponse.TransferProgress copied dirty done_
                   | None => StoreResponse.Error (lit "unknown transfer")
                   end)
  | StoreRequest.Retire tid => (retire_ids node tid, Reply StoreResponse.Ack)
  | _ => (node, Dropped)
  end.

(** The same over a request on a collection. *)
Definition serve_collection (node : StoreNode) (request : StoreRequest.t) : StoreNode * served :=
  match request with
  | StoreRequest.CollectionCreate id key_size value_size =>
      collection_reply (with_collection node id (Some (key_size, value_size)) (λ tree, Ok ((), tree))) (λ _, StoreResponse.Ack)
  | StoreRequest.CollectionInsert id key value =>
      collection_reply (with_collection node id None (λ tree, tree ← bt_insert tree key value; Ok ((), tree))) (λ _, StoreResponse.Ack)
  | StoreRequest.CollectionRemove id key =>
      collection_reply (with_collection node id None (λ tree, bt_remove tree key)) (λ _, StoreResponse.Ack)
  | StoreRequest.CollectionGet id key =>
      collection_reply
        (with_collection node id None (reading (λ tree,
           entries ← scan_from_rank tree 0 (Z.to_nat (total_count tree));
           Ok (snd <$> head (base.filter (λ e, e.1 = key) entries)))))
        StoreResponse.CollectionEntry
  | StoreRequest.CollectionScanForward id limit =>
      collection_reply (with_collection node id None (reading (λ tree, scan_backward_bounded tree (Z.to_nat limit))))
        StoreResponse.CollectionEntries
  | StoreRequest.CollectionScanBackward id limit =>
      collection_reply (with_collection node id None (reading (λ tree, scan_forward_bounded tree (Z.to_nat limit))))
        StoreResponse.CollectionEntries
  | StoreRequest.CollectionSample id k =>
      collection_reply (with_collection node id None (reading (λ tree, sample_by_rank tree (Z.to_nat k))))
        StoreResponse.CollectionEntries
  | StoreRequest.CollectionRankOfKey id key =>
      collection_reply (with_collection node id None (reading (λ tree, rank_of_key tree key))) StoreResponse.CollectionRank
  | StoreRequest.CollectionScanFromRank id rank limit =>
      collection_reply (with_collection node id None (reading (λ tree, scan_from_rank tree rank (Z.to_nat limit))))
        StoreResponse.CollectionEntries
  | StoreRequest.CollectionCount id =>
      collection_reply (with_collection node id None (reading (λ tree, Ok (total_count tree)))) StoreResponse.CollectionCount
  | _ => (node, Dropped)
  end.

Definition on_collection (request : StoreRequest.t) : bool :=
  match request with
  | StoreRequest.CollectionCreate _ _ _ | StoreRequest.CollectionInsert _ _ _ | StoreRequest.CollectionRemove _ _
  | StoreRequest.CollectionGet _ _ | StoreRequest.CollectionScanForward _ _ | StoreRequest.CollectionScanBackward _ _
  | StoreRequest.CollectionSample _ _ | StoreRequest.CollectionRankOfKey _ _ | StoreRequest.CollectionScanFromRank _ _ _
  | StoreRequest.CollectionCount _ => true
  | _ => false
  end.

(** A turn of [handle_connection] past the staleness check: the node after it, how
    the request ended, the calls it made to other nodes and, for a [Transfer], the
    copy thread it starts. *)
Definition serve (node : StoreNode) (request : StoreRequest.t) : StoreNode * served * store_calls * option DatumId :=
  match request with
  | StoreRequest.FinishTransfer tid =>
      let '(node, reply, calls) := finish_transfer node tid in (node, Reply reply, calls, None)
  | StoreRequest.Transfer tid _ _ => (serve_data node request, [], Some tid)
  | _ => (if on_collection request then serve_collection node request else serve_data node request, [], None)
  end.

(** A turn of [handle_connection]. *)
Definition handle_connection (node : StoreNode) (now : Z) (payload : bytes) : StoreNode * served * store_calls * option DatumId :=
  match decode_store_request payload with
  | Ok request =>
      if stale (sn_last_heard node) now (sn_self_halt_threshold node)
      then (node, Reply (StoreResponse.Error (lit "storage node self-halted")), [], None)
      else serve node request
  | Err _ => (node, Dropped, [], None)
  | Panic => (node, Crashed, [], None)
  end.

(** *** The copy thread *)

(** Where [run_transfer_copy] stands: the ids it has yet to copy and, between a read
    and the end of its call, the call it is making. *)
Record CopyThread := mkCopy { ct_transfer : DatumId; ct_dest : bytes; ct_left : list DatumId; ct_call : option StoreRequest.t }.

Definition copy_begin (node : StoreNode) (tid : DatumId) : option CopyThread :=
  match tm_dest (sn_transfers node) tid with
  | Some dest => Some (mkCopy tid dest (tm_ids (sn_transfers node) tid) None)
  | None => None
  end.

(** The read of the next id. *)
Definition copy_read (node : StoreNode) (t : CopyThread) : CopyThread :=
  match ct_left t with
  | [] => t
  | id :: _ =>
      mkCopy (ct_transfer t) (ct_dest t) (ct_left t)
        (match read_value (sn_log node) id with Some (content, n) => Some (StoreRequest.Put id content n) | None => None end)
  end.

(** The end of a turn, the call made if there was one: the count, and the flag after
    the last id. *)
Definition copy_next (node : StoreNode) (t : CopyThread) : StoreNode * CopyThread :=
  (with_transfers node (bump_copied (sn_transfers node) (ct_transfer t) 1),
   mkCopy (ct_transfer t) (ct_dest t) (tail (ct_left t)) None).

Definition copy_done (node : StoreNode) (t : CopyThread) : StoreNode :=
  with_transfers node (mark_done (sn_transfers node) (ct_transfer t)).
