(* ===== verification/Transfer.v ===== *)
(** * Live migration of stored data

    Theorems about [StoreNode.v]: while a storage node copies a set of ids to
    another and clients keep writing to it, the ids written are remembered, and
    re-sending them at the end leaves the destination with the source's values. *)

From S2P Require Import Prelude Core Codec Delta DatumLog StoreWire Pages BTree Names RankedTree TreeKinds StoreNode.

(** ** What the log holds of an id *)

(** Every value fits a record and every factor the wire. *)
Record log_fits (l : DatumLog) : Prop := {
  lf_ok : log_ok l;
  lf_factor : forall id n, n_of l id = Some n -> u16_ok n;
  lf_value : forall id v, get l id = Ok (Some v) -> zlen v + 19 < 2 ^ 32 }.

Definition op_id (o : log_op) : DatumId := match o with LPut id _ _ | LPatch id _ _ | LDelete id => id end.

Lemma n_of_put l id content n id' : n_of (put_full l id content n) id' = if id' =? id then Some n else n_of l id'.
Proof.
  unfold n_of, put_full. cbn [append set_index index_]. destruct (Z.eqb_spec id' id) as [->|Hne].
  - by rewrite lookup_insert_eq.
  - by rewrite lookup_insert_ne by done.
Qed.

Lemma n_of_delete l id id' : n_of (log_delete l id) id' = if id' =? id then None else n_of l id'.
Proof.
  unfold n_of, log_delete. cbn [append set_index index_]. destruct (Z.eqb_spec id' id) as [->|Hne].
  - by rewrite lookup_delete_eq.
  - by rewrite lookup_delete_ne by done.
Qed.

#[export] Instance PatchOutcome_eq_dec : EqDecision PatchOutcome.
Proof. solve_decision. Defined.

Lemma n_of_patch l id d n out l' id' : put_delta l id d n = Ok (out, l') ->
  n_of l' id' = if (id' =? id) && bool_decide (out = Applied) then Some n else n_of l id'.
Proof.
  unfold put_delta. destruct (index_ l !! id) as [e|] eqn:He.
  2: { intros [= <- <-]. rewrite andb_comm. by case_bool_decide. }
  destruct (must_rebase _ _).
  - destruct (get l id) as [[v|]| |]; [|done..]. rsimpl. destruct (apply v d); [|done..]. intros [= <- <-].
    rewrite bool_decide_eq_true_2, andb_true_r by done. apply n_of_put.
  - unfold append. cbn [index_]. rewrite He. intros [= <- <-]. rewrite bool_decide_eq_true_2, andb_true_r by done.
    unfold n_of, set_index. cbn [index_]. destruct (Z.eqb_spec id' id) as [->|Hne]; [by rewrite lookup_insert_eq|by rewrite lookup_insert_ne].
Qed.

(** A value the log reads back fits a put. *)
Lemma read_value_ok l id content n : log_fits l -> read_value l id = Some (content, n) -> zlen content + 19 < 2 ^ 32 /\ u16_ok n.
Proof.
  intros HF. unfold read_value. destruct (get l id) as [[v|]| |] eqn:Hg; [|done..]. intros [= <- <-]. split; [by apply (lf_value l HF id)|].
  destruct (n_of l id) as [n|] eqn:Hn; [by apply (lf_factor l HF id)|]. unfold uint_ok; simpl; lia.
Qed.

Lemma read_value_put l id content n : get (put_full l id content n) id = Ok (Some content) ->
  read_value (put_full l id content n) id = Some (content, n).
Proof. intros Hg. unfold read_value. by rewrite Hg, n_of_put, Z.eqb_refl. Qed.

(** The factor of each id after an operation. *)
Lemma n_of_exec l o l' id : log_exec l o = Ok l' ->
  n_of l' id = n_of l id \/
  (id = op_id o /\ match o with LPut _ _ n | LPatch _ _ n => n_of l' id = Some n | LDelete _ => n_of l' id = None end).
Proof.
  destruct o as [i c n|i d n|i]; simpl.
  - intros [= <-]. rewrite n_of_put. destruct (Z.eqb_spec id i); [by right|by left].
  - destruct (put_delta l i d n) as [[out l1]| |] eqn:E; [|done..]. intros [= <-]. simpl. rewrite (n_of_patch _ _ _ _ _ _ id E).
    destruct (Z.eqb_spec id i); [|by left]. case_bool_decide; [by right|by left].
  - intros [= <-]. rewrite n_of_delete. destruct (Z.eqb_spec id i); [by right|by left].
Qed.

(** What an operation leaves an id reading as is a value that was there or one it made. *)
Lemma spec_value_ok l o id v : log_fits l -> log_op_ok o -> spec_exec (get l) o id = Ok (Some v) -> zlen v + 19 < 2 ^ 32.
Proof.
  intros HF. pose proof (lf_value l HF) as HV. destruct o as [i c n|i d n|i]; simpl; unfold set_content; intros Hok; case_match; try by eauto.
  - intros [= <-]. by destruct Hok as (_ & _ & _ & ?).
  - destruct Hok as (_ & Hd & _ & _ & Hn). unfold patched. destruct (get l i) as [[w|]| |]; rsimpl; [|done..].
    pose proof (apply_spec w d Hd) as Ha. destruct (apply w d); [|done..]. intros [= <-]. lia.
Qed.

(** The effect of a log operation on what is read back. *)
Lemma log_exec_reads l o l' : log_fits l -> log_op_ok o -> log_exec l o = Ok l' ->
  log_fits l' /\ (forall id, id <> op_id o -> read_value l' id = read_value l id) /\
  match o with LPut id content n => read_value l' id = Some (content, n) | LDelete id => read_value l' id = None | _ => True end.
Proof.
  intros HF Hok HE. destruct (lf_ok l HF) as [recs HI]. pose proof (log_exec_spec l recs o HI Hok) as HS. rewrite HE in HS.
  destruct HS as ((tail & HI' & _) & _ & Hget). split_and!.
  - split; [by eexists| |].
    + intros id n Hn. destruct (n_of_exec l o l' id HE) as [E|[-> E]]; [rewrite E in Hn; by apply (lf_factor l HF id)|].
      destruct o; [|rewrite E in Hn; injection Hn as <-; by destruct Hok as (_ & _ & ? & _)|congruence].
      rewrite E in Hn. injection Hn as <-. by destruct Hok as (_ & _ & ? & _).
    + intros id v. rewrite Hget. by apply spec_value_ok.
  - intros id Hne. unfold read_value. rewrite Hget.
    destruct (n_of_exec l o l' id HE) as [->|[? _]]; [|done].
    destruct o; simpl in *; unfold set_content; by rewrite (proj2 (Z.eqb_neq _ _) Hne).
  - destruct o as [i c n|i d n|i]; [|done|]; simpl in HE; injection HE as <-; simpl in Hget; specialize (Hget i);
      unfold set_content in Hget; rewrite Z.eqb_refl in Hget.
    + by apply read_value_put.
    + unfold read_value. by rewrite Hget.
Qed.

(** ** Serving beside a copy *)

(** The log operation of a write. *)
Definition write_of (req : StoreRequest.t) : option log_op :=
  match req with
  | StoreRequest.Put id content n => Some (LPut id content n)
  | StoreRequest.Patch id d n => Some (LPatch id d n)
  | StoreRequest.Delete id => Some (LDelete id)
  | _ => None
  end.

(** What a write of a client carries fits the log. *)
Definition request_fits (req : StoreRequest.t) : Prop := match write_of req with Some o => log_op_ok o | None => True end.

(** The requests that leave the transfer [tid] to its driver. Retiring another transfer
    would delete data without noting it. *)
Definition leaves_alone (tid : DatumId) (req : StoreRequest.t) : Prop :=
  match req with
  | StoreRequest.Transfer tid' _ _ | StoreRequest.FinishTransfer tid' => tid' <> tid
  | StoreRequest.Retire _ => False
  | _ => True
  end.

Definition node_after (r : StoreNode * served * store_calls * option DatumId) : StoreNode := r.1.1.1.

Lemma with_collection_log {A} node id c (f : BPlusTree -> res (A * BPlusTree)) :
  sn_log (with_collection node id c f).1 = sn_log node /\ sn_transfers (with_collection node id c f).1 = sn_transfers node.
Proof. unfold with_collection. by repeat (case_match; subst; simpl). Qed.

Lemma serve_collection_log node req :
  sn_log (serve_collection node req).1 = sn_log node /\ sn_transfers (serve_collection node req).1 = sn_transfers node.
Proof. destruct req; simpl; try done; apply with_collection_log. Qed.

(** A request that is not a write leaves the log alone; a write that succeeds is noted. *)
Lemma serve_write node req o : write_of req = Some o ->
  node_after (serve node req) = node \/
  exists l', log_exec (sn_log node) o = Ok l' /\
    (node_after (serve node req) = written node l' (op_id o) \/ l' = sn_log node /\ node_after (serve node req) = with_log node l').
Proof.
  destruct req; simpl; try done; intros [= <-]; simpl; [right; eexists; eauto| |right; eexists; eauto].
  destruct (put_delta (sn_log node) id delta n) as [[[|] l']| |] eqn:E; unfold node_after; simpl; [right..|by left|by left].
  - exists l'. split; [done|by left].
  - exists l'. split; [done|]. right. split; [|done]. revert E. unfold put_delta.
    destruct (index_ (sn_log node) !! id); [|congruence]. destruct (must_rebase _ _).
    + destruct (get _ _) as [[v|]| |]; [|done..]. rsimpl. by destruct (apply v delta).
    + cbn [append index_]. by case_match.
Qed.

Lemma serve_other_log node req : write_of req = None -> (forall tid, req <> StoreRequest.Retire tid) ->
  sn_log (node_after (serve node req)) = sn_log node.
Proof.
  intros Hw Hr. destruct req; try done; unfold node_after, serve; simpl; try apply with_collection_log.
  - by destruct (get (sn_log node) id).
  - unfold finish_transfer. destruct (tm_dest _ _); [|done]. by destruct (take_dirty _ _).
  - by destruct (Hr transfer_id).
Qed.

Lemma serve_other node tid req : write_of req = None -> leaves_alone tid req ->
  sn_transfers (node_after (serve node req)) !! tid = sn_transfers node !! tid.
Proof.
  intros Hw Hl. destruct req; try done; unfold node_after, serve; simpl; try (f_equal; apply with_collection_log).
  - by destruct (get (sn_log node) id).
  - unfold tm_start. by rewrite lookup_insert_ne.
  - unfold finish_transfer. destruct (tm_dest _ _); [|done]. unfold take_dirty. destruct (sn_transfers node !! transfer_id); [|done].
    simpl. by rewrite lookup_insert_ne.
Qed.

Lemma alone_keeps tid req : leaves_alone tid req -> forall tid', req <> StoreRequest.Retire tid'.
Proof. by intros Hl tid' ->. Qed.

(** A state of a transfer that has advanced: more ids are dirty. *)
Definition advanced (s s' : TransferState) : Prop :=
  tf_ids s' = tf_ids s /\ tf_dest s' = tf_dest s /\ tf_done s' = tf_done s /\ tf_dirty s ⊆ tf_dirty s' /\
  (tf_dirty s ⊆ tf_ids s -> tf_dirty s' ⊆ tf_ids s).

Lemma advanced_refl s : advanced s s.
Proof. by split_and!. Qed.

(** A client request at the source: what it changes among the ids moved becomes dirty. *)
Lemma serve_source node tid s req :
  log_fits (sn_log node) -> request_fits req -> leaves_alone tid req -> sn_transfers node !! tid = Some s ->
  let node' := node_after (serve node req) in
  log_fits (sn_log node') /\
  exists s', sn_transfers node' !! tid = Some s' /\ advanced s s' /\
    forall id, id ∈ tf_ids s -> id ∈ tf_dirty s' \/ read_value (sn_log node') id = read_value (sn_log node) id.
Proof.
  intros HF Hok Hl Hs node'. unfold request_fits in Hok. destruct (write_of req) as [o|] eqn:Hw.
  - destruct (serve_write node req o Hw) as [E|(l' & HE & [E|[El E]])]; subst node'; rewrite E.
    1, 3: split; [by subst|]; exists s; split; [done|]; split; [apply advanced_refl|]; intros; right; by subst.
    destruct (log_exec_reads _ _ _ HF Hok HE) as (HF' & Hr & _). split; [done|].
    exists (mark_dirty (op_id o) s). split; [by unfold written, note_write; simpl; rewrite lookup_fmap, Hs|].
    unfold mark_dirty. case_bool_decide as Hin; simpl; (split; [split_and!; simpl; set_solver|]); intros id Hid.
    + destruct (decide (id = op_id o)); [left; set_solver|right; by apply Hr].
    + right. apply Hr. by intros ->.
  - subst node'. rewrite (serve_other_log node req Hw (alone_keeps tid req Hl)), (serve_other node tid req Hw Hl). split; [done|].
    exists s. split; [done|]. split; [apply advanced_refl|]. by right.
Qed.

(** A client request at the destination, away from the ids moved. *)
Lemma serve_dest node req :
  log_fits (sn_log node) -> request_fits req -> (forall tid, req <> StoreRequest.Retire tid) ->
  let node' := node_after (serve node req) in
  log_fits (sn_log node') /\
  forall id, (forall o, write_of req = Some o -> op_id o <> id) -> read_value (sn_log node') id = read_value (sn_log node) id.
Proof.
  intros HF Hok Hl node'. unfold request_fits in Hok. destruct (write_of req) as [o|] eqn:Hw.
  - destruct (serve_write node req o Hw) as [E|(l' & HE & [E|[El E]])]; subst node'; rewrite E; [done| |by subst].
    destruct (log_exec_reads _ _ _ HF Hok HE) as (HF' & Hr & _). split; [done|]. intros id Hne. apply Hr. intros ->. by eapply Hne.
  - subst node'. by rewrite (serve_other_log node req Hw Hl).
Qed.

(** The deliveries: what a copy or a re-send makes of the destination. *)
Lemma serve_put node id content n : log_fits (sn_log node) -> datum_ok id -> u16_ok n -> zlen content + 19 < 2 ^ 32 ->
  let node' := node_after (serve node (StoreRequest.Put id content n)) in
  log_fits (sn_log node') /\ read_value (sn_log node') id = Some (content, n) /\
  forall id', id' <> id -> read_value (sn_log node') id' = read_value (sn_log node) id'.
Proof.
  intros HF Hid Hn Hc node'. destruct (log_exec_reads (sn_log node) (LPut id content n) _ HF ltac:(by split_and!) eq_refl) as (H1 & H2 & H3).
  by split_and!.
Qed.

Lemma serve_resend node l id : log_fits (sn_log node) -> log_fits l -> datum_ok id ->
  let node' := node_after (serve node (resend l id)) in
  log_fits (sn_log node') /\ read_value (sn_log node') id = read_value l id /\
  forall id', id' <> id -> read_value (sn_log node') id' = read_value (sn_log node) id'.
Proof.
  intros HF Hl Hid. unfold resend. destruct (read_value l id) as [[content n]|] eqn:Hr.
  - destruct (read_value_ok l id content n Hl Hr). by apply serve_put.
  - destruct (log_exec_reads (sn_log node) (LDelete id) _ HF Hid eq_refl) as (H1 & H2 & H3). by split_and!.
Qed.

(** ** The copy beside the clients *)

(** Source, destination, and the copy thread until it ends. *)
Record copying := mkCopying { cp_source : StoreNode; cp_dest : StoreNode; cp_thread : option CopyThread }.

Section copy.
Variables (tid : DatumId) (ids : list DatumId) (addr : bytes).

(** A step: a client request at the source; one at the destination, away from the ids
    moved; the thread's read of the next id, passing on when there is nothing to copy;
    the delivery of what it read, to a destination that serves; the end of the thread. *)
Inductive copy_step : copying -> copying -> Prop :=
| step_source src dst t req :
    request_fits req -> leaves_alone tid req ->
    copy_step (mkCopying src dst t) (mkCopying (node_after (serve src req)) dst t)
| step_dest src dst t req :
    request_fits req -> (forall tid', req <> StoreRequest.Retire tid') ->
    (forall o, write_of req = Some o -> op_id o ∉ ids) ->
    copy_step (mkCopying src dst t) (mkCopying src (node_after (serve dst req)) t)
| step_read src dst t :
    ct_left t <> [] -> ct_call t = None ->
    copy_step (mkCopying src dst (Some t))
      (match ct_call (copy_read src t) with
       | Some _ => mkCopying src dst (Some (copy_read src t))
       | None => mkCopying (copy_next src t).1 dst (Some (copy_next src t).2)
       end)
| step_deliver src dst t req :
    ct_call t = Some req ->
    copy_step (mkCopying src dst (Some t))
      (mkCopying (copy_next src t).1 (node_after (serve dst req)) (Some (copy_next src t).2))
| step_end src dst t :
    ct_left t = [] ->
    copy_step (mkCopying src dst (Some t)) (mkCopying (copy_done src t) dst None).

(** What is left to do about an id: it is dirty, or to be copied, or the destination
    has it. *)
Record copy_inv (c : copying) (s : TransferState) : Prop := {
  ci_source : log_fits (sn_log (cp_source c));
  ci_dest : log_fits (sn_log (cp_dest c));
  ci_transfer : sn_transfers (cp_source c) !! tid = Some s;
  ci_state : tf_ids s = list_to_set ids /\ tf_dest s = addr /\ tf_dirty s ⊆ tf_ids s /\ (tf_done s = true <-> cp_thread c = None);
  ci_thread : match cp_thread c with
    | Some t => ct_transfer t = tid /\ ct_dest t = addr /\ NoDup (ct_left t) /\ ct_left t ⊆ ids
    | None => True
    end;
  ci_call : match cp_thread c with
    | Some t => forall req, ct_call t = Some req -> exists id rest content n, ct_left t = id :: rest /\
        req = StoreRequest.Put id content n /\ zlen content + 19 < 2 ^ 32 /\ u16_ok n /\
        (id ∈ tf_dirty s \/ read_value (sn_log (cp_source c)) id = Some (content, n))
    | None => True
    end;
  ci_ids : forall id, id ∈ ids ->
    id ∈ tf_dirty s \/
    (match cp_thread c with Some t => id ∈ ct_left t | None => False end /\
       (read_value (sn_log (cp_source c)) id = None -> read_value (sn_log (cp_dest c)) id = None)) \/
    read_value (sn_log (cp_dest c)) id = read_value (sn_log (cp_source c)) id
}.

Hypothesis Hids : Forall datum_ok ids.

Lemma copy_source_step src dst t s req :
  copy_inv (mkCopying src dst t) s -> request_fits req -> leaves_alone tid req ->
  exists s', copy_inv (mkCopying (node_after (serve src req)) dst t) s'.
Proof.
  intros [HF HD HT (E1 & E2 & E3 & E4) Ht Hc Hi] Hok Hl. simpl in *.
  destruct (serve_source src tid s req HF Hok Hl HT) as (HF' & s' & HT' & (A1 & A2 & A0 & A3 & A4) & Hr).
  exists s'. split; simpl; try done.
  - rewrite A1, A0. split_and!; [done|congruence|by apply A4|done].
  - destruct t as [t|]; [|done]. intros r Er. destruct (Hc r Er) as (id & rest & c & n & El & Ereq & Hz & Hn & Hd).
    exists id, rest, c, n. split_and!; [done..|]. destruct Hd as [Hd|Hd]; [left; set_solver|].
    assert (id ∈ tf_ids s) as Hin by (rewrite E1; destruct Ht as (_ & _ & _ & Hs); rewrite El in Hs; set_solver).
    destruct (Hr id Hin) as [? | ->]; [by left|by right].
  - intros id Hin. assert (id ∈ tf_ids s) as Hin' by (rewrite E1; set_solver).
    destruct (Hr id Hin') as [? | ->]; [by left|]. destruct (Hi id Hin) as [?|?]; [left; set_solver|by right].
Qed.

Lemma copy_dest_step src dst t s req :
  copy_inv (mkCopying src dst t) s -> request_fits req -> (forall tid', req <> StoreRequest.Retire tid') ->
  (forall o, write_of req = Some o -> op_id o ∉ ids) ->
  copy_inv (mkCopying src (node_after (serve dst req)) t) s.
Proof.
  intros [HF HD HT HE Ht Hc Hi] Hok Hl Hout. simpl in *. destruct (serve_dest dst req HD Hok Hl) as [HD' Hr].
  split; simpl; try done. intros id Hin. rewrite Hr; [by apply Hi|]. intros o Ho <-. by apply (Hout o Ho).
Qed.

(** Counting a copied id changes nothing the invariant is about. *)
Lemma bump_lookup m t s n : m !! tid = Some s -> t = tid ->
  exists s', bump_copied m t n !! tid = Some s' /\ tf_ids s' = tf_ids s /\ tf_dest s' = tf_dest s /\ tf_dirty s' = tf_dirty s /\
    tf_done s' = tf_done s.
Proof. intros Hs ->. unfold bump_copied. rewrite lookup_alter_eq, Hs. by eexists. Qed.

Lemma copy_turn src dst dst' t s id rest :
  copy_inv (mkCopying src dst (Some t)) s -> ct_left t = id :: rest -> log_fits (sn_log dst') ->
  (forall id', id' <> id -> read_value (sn_log dst') id' = read_value (sn_log dst) id') ->
  id ∈ tf_dirty s \/ read_value (sn_log dst') id = read_value (sn_log src) id ->
  exists s', copy_inv (mkCopying (copy_next src t).1 dst' (Some (copy_next src t).2)) s'.
Proof.
  intros [HF HD HT (E1 & E2 & E3 & E4) (T1 & T2 & T3 & T4) Hc Hi] El HD' Hother Hid. simpl in *.
  destruct (bump_lookup (sn_transfers src) (ct_transfer t) s 1 HT T1) as (s' & Hs' & A1 & A2 & A3 & A4). rewrite El in *.
  exists s'. split; simpl; try done.
  - rewrite A1, A2, A3, A4. split; [done|split; [done|split; [done|]]]. rewrite E4. by split.
  - apply NoDup_cons in T3 as [_ T3]. split_and!; [done..|]. set_solver.
  - intros id' Hin. rewrite A3. destruct (decide (id' = id)) as [->|Hne]; [tauto|]. rewrite Hother by done.
    destruct (Hi id' Hin) as [?|[[Hl ?]|?]]; [by left| |by right; right]. right. left. split; [|done].
    apply elem_of_cons in Hl as [|]; done.
Qed.

Lemma copy_read_step src dst t s :
  copy_inv (mkCopying src dst (Some t)) s -> ct_left t <> [] -> ct_call t = None ->
  exists s', copy_inv (match ct_call (copy_read src t) with
       | Some _ => mkCopying src dst (Some (copy_read src t))
       | None => mkCopying (copy_next src t).1 dst (Some (copy_next src t).2)
       end) s'.
Proof.
  intros HI Hne Hn. destruct (ct_left t) as [|id rest] eqn:El; [done|]. unfold copy_read. rewrite El. simpl.
  destruct (read_value (sn_log src) id) as [[content n]|] eqn:Hr.
  - exists s. destruct HI as [HF HD HT (E1 & E2 & E3 & E4) (T1 & T2 & T3 & T4) Hc Hi].
    split; simpl in *; try done; [|by rewrite <- El| |by rewrite <- El].
    { split; [done|split; [done|split; [done|]]]. rewrite E4. by split. }
    intros req [= <-]. destruct (read_value_ok _ _ _ _ HF Hr). exists id, rest, content, n. split_and!; try done. by right.
  - apply (copy_turn src dst dst t s id rest HI El); [by apply (ci_dest _ _ HI)|done|]. rewrite Hr.
    assert (id ∈ ids) as Hin by (destruct (ci_thread _ _ HI) as (_ & _ & _ & Hs); simpl in Hs; rewrite El in Hs; set_solver).
    destruct (ci_ids _ _ HI id Hin) as [?|[[_ Hd]|Hd]]; simpl in *; [by left|right; by apply Hd|right; congruence].
Qed.

Lemma copy_deliver_step src dst t s req :
  copy_inv (mkCopying src dst (Some t)) s -> ct_call t = Some req ->
  exists s', copy_inv (mkCopying (copy_next src t).1 (node_after (serve dst req)) (Some (copy_next src t).2)) s'.
Proof.
  intros HI Hreq. destruct (ci_call _ _ HI req Hreq) as (id & rest & content & n & El & -> & Hz & Hn & Hd). simpl in *.
  assert (id ∈ ids) as Hin by (destruct (ci_thread _ _ HI) as (_ & _ & _ & Hs); simpl in Hs; rewrite El in Hs; set_solver).
  destruct (serve_put dst id content n (ci_dest _ _ HI) (proj1 (Forall_forall _ _) Hids id Hin) Hn Hz) as (H1 & H2 & H3).
  apply (copy_turn src dst _ t s id rest HI El H1 H3). rewrite H2. destruct Hd as [? | ->]; [by left|by right].
Qed.

Lemma copy_end_step src dst t s :
  copy_inv (mkCopying src dst (Some t)) s -> ct_left t = [] -> exists s', copy_inv (mkCopying (copy_done src t) dst None) s'.
Proof.
  intros [HF HD HT (E1 & E2 & E3 & E4) (T1 & T2 & T3 & T4) Hc Hi] El. simpl in *.
  exists (mkTransfer (tf_ids s) (tf_dest s) (tf_copied s) (tf_dirty s) true). split; simpl; try done.
  - unfold mark_done. by rewrite T1, lookup_alter_eq, HT.
  - intros id Hin. destruct (Hi id Hin) as [?|[[Hl _]|?]]; [by left| |by right; right]. rewrite El in Hl. by apply elem_of_nil in Hl.
Qed.

Lemma copy_step_inv c c' s : copy_inv c s -> copy_step c c' -> exists s', copy_inv c' s'.
Proof.
  intros HI HS. destruct HS.
  - by eapply copy_source_step.
  - exists s. by apply copy_dest_step.
  - by apply (copy_read_step src dst t s).
  - by eapply copy_deliver_step.
  - by apply (copy_end_step src dst t s).
Qed.

Lemma copy_steps_inv c c' s : copy_inv c s -> rtc copy_step c c' -> exists s', copy_inv c' s'.
Proof. intros HI HS. revert s HI. induction HS as [|c c1 c' H1 HS IH]; intros s HI; [by eexists|]. destruct (copy_step_inv c c1 s HI H1). eauto. Qed.

(** Left to itself, the thread ends. *)
Lemma thread_turn src dst t : ct_left t <> [] ->
  exists dst', rtc copy_step (mkCopying src dst (Some t)) (mkCopying (copy_next src t).1 dst' (Some (copy_next src t).2)).
Proof.
  intros Hne. destruct (ct_call t) as [req|] eqn:Ec; [eexists; apply rtc_once; by apply step_deliver|].
  pose proof (step_read src dst t Hne Ec) as HS. destruct (ct_call (copy_read src t)) as [req|] eqn:Er; [|exists dst; by apply rtc_once].
  eexists. etrans; [apply rtc_once, HS|]. assert (copy_next src t = copy_next src (copy_read src t)) as ->.
  { unfold copy_next, copy_read. by destruct (ct_left t). }
  apply rtc_once, step_deliver, Er.
Qed.

Lemma thread_ends n src dst t : (length (ct_left t) <= n)%nat ->
  exists c', rtc copy_step (mkCopying src dst (Some t)) c' /\ cp_thread c' = None /\ sn_log (cp_source c') = sn_log src.
Proof.
  revert src dst t. induction n as [|n IH]; intros src dst t Hn; (destruct (decide (ct_left t = [])) as [El|Hne];
    [exists (mkCopying (copy_done src t) dst None); split_and!; [apply rtc_once; by constructor|done..]|]).
  - destruct (ct_left t); simpl in Hn; [done|lia].
  - destruct (thread_turn src dst t Hne) as [dst' HT].
    destruct (IH (copy_next src t).1 dst' (copy_next src t).2) as (c' & HR & Hc & Hl); [simpl; destruct (ct_left t); simpl in *; [done|lia]|].
    exists c'. split; [by etrans|]. done.
Qed.
End copy.

(** ** The tail *)

(** The calls of a [FinishTransfer], made one after the other. *)
Definition deliver_all (dst : StoreNode) (calls : store_calls) : StoreNode :=
  fold_left (λ dst call, node_after (serve dst call.2)) calls dst.

Lemma deliver_resends addr l ids dst : log_fits l -> log_fits (sn_log dst) -> Forall datum_ok ids -> NoDup ids ->
  let dst' := deliver_all dst (map (λ id, (addr, resend l id)) ids) in
  log_fits (sn_log dst') /\ forall id, read_value (sn_log dst') id = if bool_decide (id ∈ ids) then read_value l id else read_value (sn_log dst) id.
Proof.
  intros Hl. revert dst. induction ids as [|x ids IH]; intros dst HD Hok Hnd; simpl; [by split|].
  inversion_clear Hok as [|? ? Hx Hok']. apply NoDup_cons in Hnd as [Hnx Hnd].
  destruct (serve_resend dst l x HD Hl Hx) as (H1 & H2 & H3). destruct (IH _ H1 Hok' Hnd) as [H4 H5]. split; [done|].
  intros id. rewrite H5. destruct (decide (id = x)) as [->|Hne]; [by rewrite bool_decide_eq_false_2, bool_decide_eq_true_2 by (done || left)|].
  rewrite H3 by done. repeat case_bool_decide; [done|set_solver..|done].
Qed.


(** ** A transfer of one datum *)

Lemma fresh_fits id : zlen id = 16 -> log_fits (fresh_log id).
Proof. intros H. split; [eexists; by apply fresh_inv|done|done]. Qed.

Lemma demo_fits : log_fits demo_log.
Proof. by destruct (log_exec_reads (fresh_log demo_id) (LPut 7 demo_value 2) demo_log (fresh_fits demo_id eq_refl) demo_put_ok eq_refl). Qed.

Definition demo_node (l : DatumLog) : StoreNode := mkNode l 1 0 1000 ∅ ∅ ∅.
Definition demo_started : StoreNode := node_after (serve (demo_node demo_log) (StoreRequest.Transfer 5 [7] (lit "b"))).
Definition demo_thread : CopyThread := mkCopy 5 (lit "b") [7] None.
Definition demo_put : StoreRequest.t := StoreRequest.Put 7 demo_value 2.
(** Read, deliver, end; the source is overwritten while the copy is in flight. *)
Definition demo_rewrite : StoreRequest.t := StoreRequest.Put 7 demo_id 3.
Definition demo_copied : copying :=
  let t := copy_read demo_started demo_thread in
  let src := node_after (serve demo_started demo_rewrite) in
  let '(src, t') := copy_next src t in
  mkCopying (copy_done src t') (node_after (serve (demo_node (fresh_log demo_id)) demo_put)) None.

Lemma demo_copies : rtc (copy_step 5 [7]) (mkCopying demo_started (demo_node (fresh_log demo_id)) (Some demo_thread)) demo_copied.
Proof.
  assert (ct_call (copy_read demo_started demo_thread) = Some demo_put) as Hc by (vm_compute; reflexivity).
  eapply rtc_l; [apply (step_read 5 [7] demo_started (demo_node (fresh_log demo_id)) demo_thread); done|]. rewrite Hc.
  eapply rtc_l; [apply (step_source 5 [7] _ _ _ demo_rewrite); [|done]|].
    { change (log_op_ok (LPut 7 demo_id 3)). split_and!; simpl; unfold datum_ok, uint_ok; vm_compute; intuition congruence. }
  eapply rtc_l; [eapply step_deliver; exact Hc|]. apply rtc_once. by constructor.
Qed.

