(* ===== verification/Collections.v ===== *)
(** * The ordered collections a client sees

    Models the trait [CollectionStore] of
    [crates/seisin-node/src/collection_store.rs] as a class of calls on a store's
    state, with its laws: each collection is a list of entries in key order. A
    storage node ([StoreNode.v]) implements them, through the requests it serves. *)

From S2P Require Import Prelude Core Codec DatumLog StoreWire Names Pages BTree BTreeRep BTreeDisk BTreeQuery BTreeInsert BTreeSpec RankedTree TreeKinds StoreNode.

(** ** Calls on a state *)

(** A call that changes a state and may fail. *)
Definition io (S A : Type) : Type := S -> S * res A.

#[global] Instance io_ret S : MRet (io S) := λ A x s, (s, Ok x).
#[global] Instance io_bind S : MBind (io S) := λ A B k m s,
  match m s with
  | (s, Ok x) => k x s
  | (s, Err e) => (s, Err e)
  | (s, Panic) => (s, Panic)
  end.

Definition io_lift {S A} (r : res A) : io S A := λ s, (s, r).

Lemma io_bind_ok {S A B} (m : io S A) (k : A -> io S B) s s' x : m s = (s', Ok x) -> (m ≫= k) s = k x s'.
Proof. intros E. unfold mbind, io_bind. by rewrite E. Qed.

(** ** The trait *)

(** The replication factor a call is given is its last argument but the state. *)
Class CollectionStore (W : Type) := {
  cs_create : DatumId -> Z -> Z -> Z -> io W ();
  cs_insert : DatumId -> bytes -> bytes -> Z -> io W ();
  cs_remove : DatumId -> bytes -> Z -> io W ();
  cs_get : DatumId -> bytes -> Z -> io W (option bytes);
  cs_scan_forward : DatumId -> Z -> Z -> io W (list (bytes * bytes));
  cs_scan_backward : DatumId -> Z -> Z -> io W (list (bytes * bytes));
  cs_sample : DatumId -> Z -> Z -> io W (list (bytes * bytes));
  cs_rank_of_key : DatumId -> bytes -> Z -> io W (option Z);
  cs_scan_from_rank : DatumId -> Z -> Z -> Z -> io W (list (bytes * bytes));
  cs_count : DatumId -> Z -> io W Z
}.

(** A collection: its key and value sizes and its entries. *)
Record collection := mkCollection { co_key_size : Z; co_value_size : Z; co_entries : list (bytes * bytes) }.

Definition put_in (c : collection) (e : bytes * bytes) : collection :=
  mkCollection (co_key_size c) (co_value_size c) (put_entry e (co_entries c)).
Definition del_in (c : collection) (key : bytes) : collection :=
  mkCollection (co_key_size c) (co_value_size c) (del_entry (from_be key) (co_entries c)).

Definition value_in (c : collection) (key : bytes) : option bytes :=
  snd <$> head (filter (λ e, e.1 = key) (co_entries c)).

(** [rep n w m]: the store [w] holds the collections [m], and each can grow by [n]
    entries. A read keeps them; with every factor [r] it answers the same. *)
Class CollectionStoreLaws (W : Type) `{!CollectionStore W} (rep : nat -> W -> gmap DatumId collection -> Prop) : Prop := {
  cs_sorted n w m id c : rep n w m -> m !! id = Some c ->
    sorted_entries (co_entries c) /\ Forall (sized (co_key_size c) (co_value_size c)) (co_entries c);
  cs_create_law n w m id ks vs r : rep n w m -> Z.of_nat n <= 2 ^ 15 ->
    match m !! id with
    | Some _ => True
    | None => u32_ok ks /\ u32_ok vs /\ 0 < ks + vs /\ fits_page ks vs COLLECTION_PAGE_SIZE
    end ->
    exists w', cs_create id ks vs r w = (w', Ok ()) /\
      rep n w' (match m !! id with Some _ => m | None => <[id := mkCollection ks vs []]> m end);
  cs_insert_law n w m id c key value r : rep (S n) w m -> m !! id = Some c ->
    sized (co_key_size c) (co_value_size c) (key, value) ->
    exists w', cs_insert id key value r w = (w', Ok ()) /\ rep n w' (<[id := put_in c (key, value)]> m);
  cs_remove_law n w m id c key r : rep n w m -> m !! id = Some c -> zlen key = co_key_size c ->
    exists w', cs_remove id key r w = (w', Ok ()) /\ rep n w' (<[id := del_in c key]> m);
  cs_get_law n w m id c key r : rep n w m -> m !! id = Some c ->
    exists w', cs_get id key r w = (w', Ok (value_in c key)) /\ rep n w' m;
  cs_scan_forward_law n w m id c (limit : Z) r : rep n w m -> m !! id = Some c ->
    exists w', cs_scan_forward id limit r w = (w', Ok (take (Z.to_nat limit) (rev (co_entries c)))) /\ rep n w' m;
  cs_scan_backward_law n w m id c (limit : Z) r : rep n w m -> m !! id = Some c ->
    exists w', cs_scan_backward id limit r w = (w', Ok (take (Z.to_nat limit) (co_entries c))) /\ rep n w' m;
  cs_rank_of_key_law n w m id c key r : rep n w m -> m !! id = Some c -> zlen key = co_key_size c ->
    exists w', cs_rank_of_key id key r w =
      (w', Ok (if has (from_be key) (co_entries c) then Some (zlen (below (from_be key) (co_entries c))) else None)) /\ rep n w' m;
  cs_scan_from_rank_law n w m id c (rank limit : Z) r : rep n w m -> m !! id = Some c -> 0 <= rank ->
    exists w', cs_scan_from_rank id rank limit r w =
      (w', Ok (take (Z.to_nat limit) (drop (Z.to_nat rank) (co_entries c)))) /\ rep n w' m;
  cs_count_law n w m id c r : rep n w m -> m !! id = Some c ->
    exists w', cs_count id r w = (w', Ok (zlen (co_entries c))) /\ rep n w' m;
  cs_weaken n w m : rep (S n) w m -> rep n w m
}.

(** ** A storage node implements it *)

(** A call of the trait that expects an [Ack]. *)
Definition acked (r : served) : res () := match r with Reply StoreResponse.Ack => Ok () | _ => Panic end.

Definition node_call {A} (request : StoreRequest.t) (expect : served -> res A) : io StoreNode A := λ node,
  let '(node, r) := serve_collection node request in (node, expect r).

Definition expect_entries (r : served) : res (list (bytes * bytes)) :=
  match r with Reply (StoreResponse.CollectionEntries es) => Ok es | _ => Panic end.

#[export] Instance node_collections : CollectionStore StoreNode := {
  cs_create id key_size value_size _ := node_call (StoreRequest.CollectionCreate id key_size value_size) acked;
  cs_insert id key value _ := node_call (StoreRequest.CollectionInsert id key value) acked;
  cs_remove id key _ := node_call (StoreRequest.CollectionRemove id key) acked;
  cs_get id key _ := node_call (StoreRequest.CollectionGet id key)
    (λ r, match r with Reply (StoreResponse.CollectionEntry value) => Ok value | _ => Panic end);
  cs_scan_forward id limit _ := node_call (StoreRequest.CollectionScanForward id limit) expect_entries;
  cs_scan_backward id limit _ := node_call (StoreRequest.CollectionScanBackward id limit) expect_entries;
  cs_sample id k _ := node_call (StoreRequest.CollectionSample id k) expect_entries;
  cs_rank_of_key id key _ := node_call (StoreRequest.CollectionRankOfKey id key)
    (λ r, match r with Reply (StoreResponse.CollectionRank rank) => Ok rank | _ => Panic end);
  cs_scan_from_rank id rank limit _ := node_call (StoreRequest.CollectionScanFromRank id rank limit) expect_entries;
  cs_count id _ := node_call (StoreRequest.CollectionCount id)
    (λ r, match r with Reply (StoreResponse.CollectionCount total) => Ok total | _ => Panic end)
}.

(** The collections of a node are its open files; it has no others on disk. *)
Definition node_holds (n : nat) (node : StoreNode) (m : gmap DatumId collection) : Prop :=
  forall id,
    match m !! id with
    | Some c => exists t, sn_collections node !! id = Some t /\ bt_holds (co_key_size c) (co_value_size c) t (co_entries c) /\
        bt_room n t
    | None => sn_collections node !! id = None /\ sn_data_dir node !! file_name "collection" id = None
    end.

Lemma node_holds_put n k node m id c t :
  node_holds n node m -> (k <= n)%nat -> (forall t, bt_room n t -> bt_room k t) ->
  bt_holds (co_key_size c) (co_value_size c) t (co_entries c) -> bt_room k t ->
  node_holds k (with_tree node id t) (<[id := c]> m).
Proof.
  intros HN Hk Hw Hh Hr id'. simpl. destruct (decide (id' = id)) as [->|Hne].
  - rewrite !lookup_insert_eq. by exists t.
  - rewrite !lookup_insert_ne by done. specialize (HN id'). destruct (m !! id'); [|done].
    destruct HN as (t' & ? & ? & ?). exists t'. split_and!; [done..|by apply Hw].
Qed.

(** Opening a collection a node has. *)
Lemma with_collection_open {A} n node m id c t cr (f : BPlusTree -> res (A * BPlusTree)) :
  node_holds n node m -> m !! id = Some c -> sn_collections node !! id = Some t ->
  with_collection node id cr f =
    match f t with
    | Ok (x, t) => (with_tree node id t, Ok x)
    | Err e => (with_tree node id t, Err e)
    | Panic => (node, Panic)
    end.
Proof. intros HN Hm Ht. unfold with_collection. by rewrite Ht. Qed.

Lemma node_read {A B} n node m id c request (f : BPlusTree -> res A) (mk : A -> StoreResponse.t) expect (x : A) (y : B) :
  node_holds n node m -> m !! id = Some c ->
  (forall node, serve_collection node request = collection_reply (with_collection node id None (reading f)) mk) ->
  (forall t, bt_holds (co_key_size c) (co_value_size c) t (co_entries c) -> bt_room n t -> f t = Ok x) ->
  expect (Reply (mk x)) = Ok y ->
  exists node', node_call request expect node = (node', Ok y) /\ node_holds n node' m.
Proof.
  intros HN Hm Hs Hf He. pose proof (HN id) as Hid. rewrite Hm in Hid. destruct Hid as (t & Ht & Hh & Hr).
  unfold node_call. rewrite Hs, (with_collection_open n node m id c t) by done. unfold reading. rewrite (Hf t Hh Hr). rsimpl.
  unfold collection_reply. cbn [fst snd]. rewrite He. eexists. split; [done|].
  rewrite <- (insert_id m id c Hm). by apply (node_holds_put n n).
Qed.

#[export] Instance node_collections_laws : CollectionStoreLaws StoreNode node_holds.
Proof.
  split.
  - intros n w m id c HN Hm. specialize (HN id). rewrite Hm in HN. destruct HN as (t & _ & Hh & _). split.
    + exact (rt_sorted t _ Hh).
    + exact (rt_sized t _ Hh).
  - intros n w m id ks vs r HN Hn Hc. pose proof (HN id) as Hid. cbn [cs_create node_collections]. unfold node_call, serve_collection.
    destruct (m !! id) as [c|] eqn:Hm.
    + destruct Hid as (t & Ht & Hh & Hr). rewrite (with_collection_open n w m id c t) by done. eexists. split; [done|].
      rewrite <- (insert_id m id c Hm). by apply (node_holds_put n n).
    + destruct Hid as [H1 H2], Hc as (Hk & Hv & Hkv & Hf). unfold with_collection. rewrite H1, H2.
      destruct (create_holds ks vs COLLECTION_PAGE_SIZE n) as (t & -> & Hh & Hr); [done..|]. eexists. split; [done|].
      by apply (node_holds_put n n).
  - intros n w m id c key value r HN Hm Hs. pose proof (HN id) as Hid. rewrite Hm in Hid. destruct Hid as (t & Ht & Hh & Hr).
    cbn [cs_insert node_collections]. unfold node_call, serve_collection. rewrite (with_collection_open (S n) w m id c t) by done.
    destruct (rt_insert_law t _ key value n Hh Hs Hr) as (t' & Hi & Hh' & Hr'). cbn [rt_insert btree_ranked] in Hi. rewrite Hi. rsimpl.
    eexists. split; [done|]. apply (node_holds_put (S n) n); [done|lia|apply bt_room_less|done..].
  - intros n w m id c key r HN Hm Hs. pose proof (HN id) as Hid. rewrite Hm in Hid. destruct Hid as (t & Ht & Hh & Hr).
    cbn [cs_remove node_collections]. unfold node_call, serve_collection. rewrite (with_collection_open n w m id c t) by done.
    destruct (rt_remove_law t _ key Hh Hs) as (t' & Hi & Hh' & Hr'). cbn [rt_remove btree_ranked] in Hi. rewrite Hi.
    eexists. split; [done|]. apply (node_holds_put n n); [done|lia|done|done|by apply Hr'].
  - intros n w m id c key r HN Hm. cbn [cs_get node_collections]. eapply (node_read n w m id c); [done..| |done].
    intros t Hh Hr. pose proof (rt_scan_law t _ 0 (Z.to_nat (total_count t)) Hh ltac:(lia)) as Hsc.
    cbn [rt_scan_from_rank btree_ranked] in Hsc. cbv beta. rewrite Hsc. rsimpl. pose proof (rt_len_law t _ Hh) as Hl. cbn [rt_len btree_ranked] in Hl.
    rewrite Hl, drop_0, take_ge by (unfold zlen; lia). done.
  - intros n w m id c limit r HN Hm. cbn [cs_scan_forward node_collections]. eapply (node_read n w m id c); [done..| |done].
    intros t Hh Hr. exact (rt_backward_law t _ _ Hh).
  - intros n w m id c limit r HN Hm. cbn [cs_scan_backward node_collections]. eapply (node_read n w m id c); [done..| |done].
    intros t Hh Hr. exact (rt_forward_law t _ _ Hh).
  - intros n w m id c key r HN Hm Hk. cbn [cs_rank_of_key node_collections]. eapply (node_read n w m id c); [done..| |done].
    intros t Hh Hr. exact (rt_rank_of_key_law t _ _ Hh Hk).
  - intros n w m id c rank limit r HN Hm Hk. cbn [cs_scan_from_rank node_collections]. eapply (node_read n w m id c); [done..| |done].
    intros t Hh Hr. exact (rt_scan_law t _ _ _ Hh Hk).
  - intros n w m id c r HN Hm. cbn [cs_count node_collections]. eapply (node_read n w m id c); [done..| |done].
    intros t Hh Hr. pose proof (rt_len_law t _ Hh) as Hl. cbn [rt_len btree_ranked] in Hl. cbv beta. by rewrite Hl.
  - intros n w m HN id. specialize (HN id). destruct (m !! id); [|done]. destruct HN as (t & ? & ? & ?). exists t.
    split_and!; [done..|by apply bt_room_less].
Qed.
