(* ===== verification/LbKind.v ===== *)
(** * Leaderboards and their cache

    Models [crates/seisin-types/src/lb_kind.rs] and [lb_cache.rs]: a board is two
    collections of a [CollectionStore], one in rank order and one by player, behind a
    cache of the best and worst entries, the size, and recently read entries. A call
    changes the cache and the store; the store is any with the interface of
    [Collections.v]. *)

From S2P Require Import Prelude Core Codec Protocol Names RankKeys Indexes Pages BTree TreeKinds Collections.

(** ** lb_kind.rs *)

Definition lb_composite_key (rank_key : bytes) (player_id : DatumId) : bytes := rank_key ++ as_bytes player_id.

Definition encode_display (display : bytes) (display_len : Z) : bytes :=
  let capped := take (Z.to_nat (Z.min (zlen display) display_len)) display in
  to_le 2 (wrap 16 (zlen capped)) ++ capped ++ replicate (Z.to_nat (display_len - zlen capped)) (u8 0).

Definition decode_display (value : bytes) : res bytes :=
  l ← slice value 0 2;
  slice value 2 (2 + Z.min (from_le l) (zlen value - 2)).

Definition entry_from (e : bytes * bytes) : res LbEntry :=
  rank_key ← slice e.1 0 8;
  player ← slice e.1 8 24;
  display ← decode_display e.2;
  Ok (mkLbEntry rank_key (from_bytes player) display).

(** ** lb_cache.rs *)

Record LbCacheConfig := mkLbConfig { cc_pinned_top : Z; cc_pinned_bottom : Z; cc_max_cached_entries : Z }.

(** *** The entries read lately *)

Record LruMiddle := mkLru { lm_entries : gmap DatumId (LbEntry * Z); lm_next_seq : Z; lm_cap : Z }.

(** [min_by_key] on the sequence number: the first of the least. *)
Fixpoint oldest (l : list (DatumId * (LbEntry * Z))) : option (DatumId * Z) :=
  match l with
  | [] => None
  | (id, (_, seq)) :: l =>
      match oldest l with
      | Some (id', seq') => Some (if seq <=? seq' then (id, seq) else (id', seq'))
      | None => Some (id, seq)
      end
  end.

Definition lru_touch (l : LruMiddle) (entry : LbEntry) : LruMiddle :=
  let entries := <[le_player_id entry := (entry, lm_next_seq l)]> (lm_entries l) in
  let entries :=
    if lm_cap l =? 0 then ∅
    else if lm_cap l <? Z.of_nat (size entries) then
      match oldest (map_to_list entries) with Some (evict, _) => delete evict entries | None => entries end
    else entries in
  mkLru entries (wrap 64 (lm_next_seq l + 1)) (lm_cap l).

Definition lru_get (l : LruMiddle) (player_id : DatumId) : option LbEntry * LruMiddle :=
  let seq := lm_next_seq l in
  match lm_entries l !! player_id with
  | Some (entry, _) => (Some entry, mkLru (<[player_id := (entry, seq)]> (lm_entries l)) (wrap 64 (seq + 1)) (lm_cap l))
  | None => (None, mkLru (lm_entries l) (wrap 64 (seq + 1)) (lm_cap l))
  end.

Definition lru_remove (l : LruMiddle) (player_id : DatumId) : LruMiddle :=
  mkLru (delete player_id (lm_entries l)) (lm_next_seq l) (lm_cap l).

(** *** The cache *)

Record LbCacheState := mkLbState {
  cs_pinned_top : option (list LbEntry); cs_pinned_bottom : option (list LbEntry); cs_total : option Z; cs_middle : LruMiddle }.

Record LbCache := mkLbCache {
  lb_def : LbClassDef; lb_rank_id : DatumId; lb_by_player_id : DatumId; lb_replication : Z; lb_config : LbCacheConfig }.

Definition LB_REPLICATION : Z := 2.

Section lb.
Context {W : Type} `{!CollectionStore W}.

(** A call of the cache: its own state and the store's. *)
Definition lb_io : Type -> Type := io (LbCacheState * W).

Definition on_store {A} (m : io W A) : lb_io A := λ '(s, w), let '(w, r) := m w in ((s, w), r).
Definition get_state : lb_io LbCacheState := λ '(s, w), ((s, w), Ok s).
Definition set_state (s : LbCacheState) : lb_io () := λ '(_, w), ((s, w), Ok ()).
Definition on_middle {A} (f : LruMiddle -> A * LruMiddle) : lb_io A := λ '(s, w),
  let '(x, m) := f (cs_middle s) in ((mkLbState (cs_pinned_top s) (cs_pinned_bottom s) (cs_total s) m, w), Ok x).

Variable c : LbCache.

Definition ensure_top : lb_io (list LbEntry) :=
  s ← get_state;
  match cs_pinned_top s with
  | Some entries => mret entries
  | None =>
      raw ← on_store (cs_scan_forward (lb_rank_id c) (wrap 32 (cc_pinned_top (lb_config c))) (lb_replication c));
      entries ← io_lift (mapM entry_from raw);
      _ ← set_state (mkLbState (Some entries) (cs_pinned_bottom s) (cs_total s) (cs_middle s));
      mret entries
  end.

Definition ensure_bottom : lb_io (list LbEntry) :=
  s ← get_state;
  match cs_pinned_bottom s with
  | Some entries => mret entries
  | None =>
      raw ← on_store (cs_scan_backward (lb_rank_id c) (wrap 32 (cc_pinned_bottom (lb_config c))) (lb_replication c));
      entries ← io_lift (mapM entry_from raw);
      _ ← set_state (mkLbState (cs_pinned_top s) (Some entries) (cs_total s) (cs_middle s));
      mret entries
  end.

Definition ensure_total : lb_io Z :=
  s ← get_state;
  match cs_total s with
  | Some total => mret total
  | None =>
      total ← on_store (cs_count (lb_rank_id c) (lb_replication c));
      _ ← set_state (mkLbState (cs_pinned_top s) (cs_pinned_bottom s) (Some total) (cs_middle s));
      mret total
  end.

Definition invalidate : lb_io () := λ '(s, w), ((mkLbState None None None (cs_middle s), w), Ok ()).

Definition apply_rule (old_key new_key : bytes) : bool :=
  match lc_rule (lb_def c) with
  | RuleMax => bool_decide (bytes_cmp new_key old_key = Gt)
  | RuleMin => bool_decide (bytes_cmp new_key old_key = Lt)
  | RuleReplace => negb (bool_decide (new_key = old_key))
  end.

(** A value that is not eight bytes fails the conversion. *)
Definition player_rank_key (player_id : DatumId) : lb_io (option bytes) :=
  v ← on_store (cs_get (lb_by_player_id c) (as_bytes player_id) (lb_replication c));
  match v with
  | None => mret None
  | Some v => if zlen v =? 8 then mret (Some v) else io_lift Panic
  end.

Definition rank_of (rank_key : bytes) (player_id : DatumId) (err : string) : lb_io Z :=
  asc ← on_store (cs_rank_of_key (lb_rank_id c) (lb_composite_key rank_key player_id) (lb_replication c));
  match asc with Some asc => mret asc | None => io_lift (Err err) end.

(** [total - 1 - asc] *)
Definition best_rank_of (total asc : Z) : res Z := x ← sub_u64 total 1; sub_u64 x asc.

Definition touch_all (entries : list LbEntry) : lb_io () := on_middle (λ m, ((), fold_left lru_touch entries m)).

Definition around (player_id : DatumId) (window : Z) : lb_io (option (Z * list LbEntry)) :=
  k ← player_rank_key player_id;
  match k with
  | None => mret None
  | Some rank_key =>
      total ← ensure_total;
      asc ← rank_of rank_key player_id "board map/collection divergence: mapped key missing";
      best_rank ← io_lift (best_rank_of total asc);
      if window =? 0 then mret (Some (best_rank, [])) else
      let half := window / 2 in
      let best_start := Z.max 0 (best_rank - half) in
      let best_end := Z.min (wrap 64 (best_start + window)) total in
      let best_start := Z.max 0 (best_end - window) in
      asc_start ← io_lift (sub_u64 total best_end);
      n ← io_lift (sub_u64 best_end best_start);
      raw ← on_store (cs_scan_from_rank (lb_rank_id c) asc_start (wrap 32 n) (lb_replication c));
      entries ← io_lift (mapM entry_from raw);
      _ ← touch_all (rev entries);
      mret (Some (best_rank, rev entries))
  end.

(** One turn of the loop of [friend_ranks]. *)
Definition friend_rank (total : Z) (friend_id : DatumId) : lb_io (option LbFriendRank) :=
  cached ← on_middle (λ m, lru_get m friend_id);
  match cached with
  | Some cached =>
      asc ← rank_of (le_rank_key cached) friend_id "board map/collection divergence: cached key missing";
      rank ← io_lift (best_rank_of total asc);
      mret (Some (mkLbFriendRank friend_id rank (le_rank_key cached) (le_display cached)))
  | None =>
      k ← player_rank_key friend_id;
      match k with
      | None => mret None
      | Some rank_key =>
          asc ← rank_of rank_key friend_id "board map/collection divergence: mapped key missing";
          raw ← on_store (cs_scan_from_rank (lb_rank_id c) asc 1 (lb_replication c));
          match head raw with
          | None => io_lift (Err "board map/collection divergence: rank scan empty")
          | Some e =>
              entry ← io_lift (entry_from e);
              _ ← touch_all [entry];
              rank ← io_lift (best_rank_of total asc);
              mret (Some (mkLbFriendRank friend_id rank rank_key (le_display entry)))
          end
      end
  end.

Fixpoint friends_loop (total : Z) (friend_ids : list DatumId) : lb_io (list LbFriendRank) :=
  match friend_ids with
  | [] => mret []
  | id :: friend_ids =>
      f ← friend_rank total id;
      rest ← friends_loop total friend_ids;
      mret (match f with Some f => f :: rest | None => rest end)
  end.

Definition friend_ranks (friend_ids : list DatumId) : lb_io (list LbFriendRank) :=
  total ← ensure_total; friends_loop total friend_ids.

(** [query] past the decoding. *)
Definition run_lb_query (q : LbQueryReq) : lb_io LbResult :=
  top_entries ← ensure_top;
  bottom_entries ← ensure_bottom;
  total ← ensure_total;
  a ← match lq_around_player q with
      | Some player_id => around player_id (lq_window q)
      | None => mret None
      end;
  friends ← friend_ranks (lq_friend_ids q);
  mret (mkLbResult total (fst <$> a) (take (Z.to_nat (lq_top q)) top_entries) (take (Z.to_nat (lq_bottom q)) bottom_entries)
          (match a with Some (_, entries) => entries | None => [] end) friends).

Definition lb_query (query : bytes) : lb_io bytes :=
  q ← io_lift (decode_lb_query_req query); r ← run_lb_query q; mret (encode_lb_result r).

Definition run_lb_execute (op : LbExecuteOp) : lb_io bytes :=
  match op with
  | LbUpdate player_id display rank_key friend_ids top window =>
      old_key ← player_rank_key player_id;
      let replace := match old_key with None => true | Some old_key => apply_rule old_key rank_key end in
      _ ← (if replace : bool then
             _ ← match old_key with
                 | Some old_key => on_store (cs_remove (lb_rank_id c) (lb_composite_key old_key player_id) (lb_replication c))
                 | None => mret ()
                 end;
             _ ← on_store (cs_insert (lb_rank_id c) (lb_composite_key rank_key player_id)
                             (encode_display display (lc_display_len (lb_def c))) (lb_replication c));
             _ ← on_store (cs_insert (lb_by_player_id c) (as_bytes player_id) rank_key (lb_replication c));
             _ ← invalidate;
             on_middle (λ m, ((), lru_remove m player_id))
           else mret ());
      lb_query (encode_lb_query_req (mkLbQueryReq top 0 (Some player_id) window friend_ids))
  | LbRemove player_id =>
      old_key ← player_rank_key player_id;
      _ ← match old_key with
          | Some old_key =>
              _ ← on_store (cs_remove (lb_rank_id c) (lb_composite_key old_key player_id) (lb_replication c));
              _ ← on_store (cs_remove (lb_by_player_id c) (as_bytes player_id) (lb_replication c));
              _ ← invalidate;
              on_middle (λ m, ((), lru_remove m player_id))
          | None => mret ()
          end;
      lb_query (encode_lb_query_req (mkLbQueryReq 0 0 None 0 []))
  end.

Definition lb_execute (payload : bytes) : lb_io bytes :=
  op ← io_lift (decode_lb_execute_op payload); run_lb_execute op.

Definition lb_apply (payload : bytes) : lb_io IndexApplyOutcome :=
  mret (rejected (lit "lb boards are maintained via execute ops, not framework index updates")).
End lb.

(** [LbCache::new]: both collections are created, the cache is empty. *)
Definition LbCache_new {W} `{!CollectionStore W} (from_name : DatumId -> bytes -> DatumId) (def : LbClassDef) (board_id : DatumId)
    (replication : Z) (config : LbCacheConfig) : io W (LbCache * LbCacheState) :=
  let by_player_id := from_name board_id (lit "by_player") in
  _ ← cs_create board_id 24 (2 + lc_display_len def) replication;
  _ ← cs_create by_player_id 16 8 replication;
  let middle_cap := Z.max 0 (cc_max_cached_entries config - (cc_pinned_top config + cc_pinned_bottom config)) in
  mret (mkLbCache def board_id by_player_id replication config, mkLbState None None None (mkLru ∅ 0 middle_cap)).

(** [open]: the class of the board, how it names a collection after the board, its
    cache sizes, and the store attached, if one was. *)
Definition lb_open {W} `{!CollectionStore W} (from_name : DatumId -> bytes -> DatumId) (def : LbClassDef)
    (cache_config : DatumId -> LbCacheConfig) (attached : bool) (target : DatumId) : io W (LbCache * LbCacheState) :=
  if negb attached then io_lift (Err "lb: collection store not attached before first access") else
  LbCache_new from_name def target LB_REPLICATION (cache_config target).
