(* ===== verification/LbTheorems.v ===== *)
(** * Leaderboards: what a board answers

    Theorems about [LbKind.v], over any store with the laws of [Collections.v]: a
    board is a list of entries, one per player, in the order of rank key and id;
    queries answer from that list whatever the cache holds, and an update follows
    the rule of its class. *)

From S2P Require Import Prelude Core Codec Protocol Names RankKeys Indexes Pages DatumLog BTree BTreeRep BTreeDisk BTreeQuery BTreeInsert BTreeSpec RankedTree TreeKinds StoreNode Collections LbKind.

(** ** The specification *)

(** The standings from the best entry down, and a player's place in it. *)
Definition place (xs : list LbEntry) (player : DatumId) : option (nat * LbEntry) :=
  list_find (λ e, le_player_id e = player) (rev xs).

(** The [w] entries about place [r], as far inside the board as they can be. *)
Definition window_of (xs : list LbEntry) (r w : Z) : list LbEntry :=
  take (Z.to_nat w) (drop (Z.to_nat (Z.max 0 (Z.min (r - w / 2) (zlen xs - w)))) (rev xs)).

Definition friend_of (xs : list LbEntry) (player : DatumId) : option LbFriendRank :=
  '(i, e) ← place xs player; Some (mkLbFriendRank player (Z.of_nat i) (le_rank_key e) (le_display e)).

(** What a query is to be answered with. *)
Definition answer (config : LbCacheConfig) (xs : list LbEntry) (q : LbQueryReq) : LbResult :=
  let p := player ← lq_around_player q; place xs player in
  mkLbResult (zlen xs) (Z.of_nat ∘ fst <$> p)
    (take (Z.to_nat (lq_top q)) (take (Z.to_nat (cc_pinned_top config)) (rev xs)))
    (take (Z.to_nat (lq_bottom q)) (take (Z.to_nat (cc_pinned_bottom config)) xs))
    (match p with Some (i, _) => window_of xs (Z.of_nat i) (lq_window q) | None => [] end)
    (omap (friend_of xs) (lq_friend_ids q)).

(** ** Entries *)

Section layout.
Variable dl : Z.
Hypothesis Hdl : u16_ok dl.

Definition lb_item (e : LbEntry) : bytes * bytes :=
  (lb_composite_key (le_rank_key e) (le_player_id e), encode_display (le_display e) dl).
Definition player_item (e : LbEntry) : bytes * bytes := (as_bytes (le_player_id e), le_rank_key e).

Definition capped (display : bytes) : bytes := take (Z.to_nat (Z.min (zlen display) dl)) display.

Definition lb_fits (e : LbEntry) : Prop :=
  rank_key_ok (le_rank_key e) /\ datum_ok (le_player_id e) /\ zlen (le_display e) <= dl.

Lemma zlen_capped d : zlen (capped d) <= dl /\ zlen (capped d) <= zlen d.
Proof. unfold capped, zlen. rewrite length_take. unfold uint_ok in Hdl. lia. Qed.

Lemma capped_id d : zlen d <= dl -> capped d = d.
Proof. intros H. unfold capped. apply take_ge. unfold zlen in *. lia. Qed.

Lemma encode_capped d : encode_display (capped d) dl = encode_display d dl.
Proof. pose proof (zlen_capped d) as [H _]. unfold encode_display. fold (capped d). fold (capped (capped d)). by rewrite (capped_id (capped d)). Qed.

Lemma zlen_encode_display d : zlen (encode_display d dl) = 2 + dl.
Proof.
  pose proof (zlen_capped d) as [H _]. pose proof (zlen_nonneg (capped d)). unfold encode_display. fold (capped d).
  autorewrite with zlen. lia.
Qed.

Lemma decode_encode_display d : zlen d <= dl -> decode_display (encode_display d dl) = Ok d.
Proof.
  intros H. unfold decode_display. rewrite zlen_encode_display. unfold encode_display. fold (capped d). rewrite capped_id by done.
  pose proof (zlen_nonneg d). rewrite wrap_small by (unfold uint_ok in *; lia). rewrite slice_here by apply zlen_to_le. rsimpl.
  rewrite from_le_to_le by (unfold uint_ok in *; lia). rewrite (slice_skip (to_le 2 (zlen d)) _ 2), zlen_to_le by (rewrite zlen_to_le; lia).
  change (2 - Z.of_nat 2) with 0. rewrite Z.min_l by lia. replace (2 + zlen d - Z.of_nat 2) with (zlen d) by lia. by rewrite slice_here.
Qed.

Lemma entry_from_item e : lb_fits e -> entry_from (lb_item e) = Ok e.
Proof.
  intros (Hk & Hp & Hd). unfold entry_from, lb_item, lb_composite_key. cbn [fst snd]. rewrite slice_here by exact Hk. rsimpl.
  assert (zlen (le_rank_key e) = 8) as Hk8 by exact Hk.
  rewrite (slice_skip (le_rank_key e) _ 8), Hk8 by lia. rewrite slice_all by (by rewrite zlen_as_bytes). rsimpl.
  rewrite decode_encode_display by done. rsimpl. rewrite from_bytes_as_bytes by done. by destruct e.
Qed.

Lemma entries_from_items es : Forall lb_fits es -> mapM entry_from (map lb_item es) = Ok es.
Proof. intros HF. apply mapM_map_Ok. eapply Forall_impl; [exact HF|]. apply entry_from_item. Qed.

Lemma lb_item_sized e : lb_fits e -> sized 24 (2 + dl) (lb_item e).
Proof.
  intros (Hk & _ & _). unfold sized, lb_item, lb_composite_key. cbn [fst snd]. assert (zlen (le_rank_key e) = 8) by exact Hk.
  rewrite zlen_app, zlen_as_bytes, zlen_encode_display. lia.
Qed.

Lemma player_item_sized e : lb_fits e -> sized 16 8 (player_item e).
Proof. intros (Hk & _ & _). split; [apply zlen_as_bytes|exact Hk]. Qed.

(** The rank order tells entries of different players apart. *)
Lemma lb_item_key x y : lb_fits x -> lb_fits y -> kz (lb_item x) = kz (lb_item y) ->
  le_rank_key x = le_rank_key y /\ le_player_id x = le_player_id y.
Proof.
  intros (Hk & Hp & _) (Hk' & Hp' & _) [E1 E2]%kz_pair_eq; [|by rewrite Hk, Hk'|by rewrite !zlen_as_bytes].
  split; [done|by apply as_bytes_inj].
Qed.

Lemma player_item_key x y : lb_fits x -> lb_fits y -> kz (player_item x) = kz (player_item y) -> le_player_id x = le_player_id y.
Proof.
  intros (_ & Hp & _) (_ & Hp' & _) E. apply from_be_inj in E; [|simpl; by rewrite !zlen_as_bytes]. by apply as_bytes_inj.
Qed.

(** The order of the standings: by rank key, ties by id. *)
Definition lb_before (x y : LbEntry) : Prop :=
  bytes_cmp (le_rank_key x) (le_rank_key y) = Lt \/ (le_rank_key x = le_rank_key y /\ le_player_id x < le_player_id y).

(** ** Standings *)

Definition one_each (xs : list LbEntry) : Prop := forall x y, x ∈ xs -> y ∈ xs -> le_player_id x = le_player_id y -> x = y.

Record standings (xs : list LbEntry) : Prop := {
  st_fits : Forall lb_fits xs;
  st_sorted : sorted_entries (map lb_item xs);
  st_one : one_each xs;
  st_len : zlen xs < 2 ^ 63 }.

Lemma st_fit xs x : standings xs -> x ∈ xs -> lb_fits x.
Proof. intros H. pose proof (st_fits xs H) as HF. rewrite Forall_forall in HF. apply HF. Qed.

Lemma st_ordered xs : standings xs -> StronglySorted lb_before xs.
Proof.
  intros H. apply (sorted_map lb_item); [by apply st_sorted|]. intros x y Hx Hy HL.
  destruct (st_fit xs x H Hx) as (Hk & Hp & _), (st_fit xs y H Hy) as (Hk' & Hp' & _).
  apply (rk_item_order (le_rank_key x, le_player_id x) (le_rank_key y, le_player_id y)); [by split..|].
  apply HL.
Qed.

(** Where a player stands. *)
Lemma st_split xs p : standings xs ->
  (exists pre e post, xs = pre ++ e :: post /\ le_player_id e = p /\ place xs p = Some (length post, e)) \/
  (place xs p = None /\ forall e, e ∈ xs -> le_player_id e <> p).
Proof.
  intros H. destruct (place xs p) as [[i e]|] eqn:E; unfold place in E.
  - left. apply list_find_Some in E as (Hi & Ep & _). apply list_elem_of_lookup_2 in Hi as Hin.
    assert (e ∈ xs) as Hin' by (rewrite list_elem_of_In, in_rev, <- list_elem_of_In; done).
    apply list_elem_of_split in Hin' as (pre & post & ->). exists pre, e, post. split_and!; [done..|].
    rewrite rev_app_distr in Hi. simpl in Hi. rewrite <- app_assoc in Hi. simpl in Hi. f_equal. f_equal.
    assert (forall y, y ∈ rev post ++ rev pre -> y = e -> False) as Hno.
    { intros y Hy ->. pose proof (st_sorted _ H) as Hs. rewrite map_app in Hs. apply sorted_app in Hs as (_ & Hs & Hab).
      simpl in Hs. apply sorted_inv in Hs as [_ Hs]. rewrite elem_of_app, !list_elem_of_In, <- !in_rev, <- !list_elem_of_In in Hy.
      rewrite List.Forall_map, Forall_forall in Hs. rewrite List.Forall_map, Forall_forall in Hab.
      destruct Hy as [Hy|Hy]; [specialize (Hs e Hy); lia|]. specialize (Hab e Hy). simpl in Hab. apply Forall_inv in Hab. lia. }
    apply lookup_app_Some in Hi as [Hi|[Hl Hi]].
    + apply list_elem_of_lookup_2 in Hi. exfalso. eapply Hno; [|done]. set_solver.
    + rewrite length_rev in *. destruct (i - length post)%nat eqn:Ei; [lia|]. simpl in Hi.
      apply list_elem_of_lookup_2 in Hi. exfalso. eapply Hno; [|done]. set_solver.
  - right. split; [done|]. intros e He Ep. apply list_find_None in E. rewrite Forall_forall in E.
    apply (E e); [|done]. by rewrite list_elem_of_In, <- in_rev, <- list_elem_of_In.
Qed.

Lemma st_below pre e post : standings (pre ++ e :: post) ->
  below (kz (lb_item e)) (map lb_item (pre ++ e :: post)) = map lb_item pre /\ has (kz (lb_item e)) (map lb_item (pre ++ e :: post)) = true.
Proof.
  intros H. pose proof (st_sorted _ H) as Hs. rewrite map_app in *. simpl in *. pose proof Hs as Hs0.
  apply sorted_app in Hs as (_ & Hs & Hab). apply sorted_inv in Hs as [_ HF].
  assert (Forall (λ x, kz x < kz (lb_item e)) (map lb_item pre)) as Ha by (eapply Forall_impl; [exact Hab|]; by intros y Hy%Forall_inv).
  apply below_all in Ha as (Ha & _ & _). apply above_all in HF as (Hb & _ & _). split.
  - rewrite below_app, Ha. unfold below in *. by rewrite filter_cons_False, Hb, app_nil_r by lia.
  - apply has_spec. exists (lb_item e). split; [set_solver|done].
Qed.
End layout.

(** ** A board and its cache *)

Section board.
Context {W : Type} {rep : nat -> W -> gmap DatumId collection -> Prop} `{CollectionStoreLaws W rep}.
Variable c : LbCache.
Abbreviation dl := (lc_display_len (lb_def c)).
Hypothesis Hdl : u16_ok dl.
Hypothesis Hcols : lb_rank_id c <> lb_by_player_id c.
Hypothesis Htop : u32_ok (cc_pinned_top (lb_config c)).
Hypothesis Hbottom : u32_ok (cc_pinned_bottom (lb_config c)).

(** The store holds the standings [xs], and can take [n] more entries. *)
Definition board (n : nat) (w : W) (xs : list LbEntry) : Prop :=
  exists m bp, rep n w m /\ m !! lb_rank_id c = Some (mkCollection 24 (2 + dl) (map (lb_item dl) xs)) /\
    m !! lb_by_player_id c = Some (mkCollection 16 8 bp) /\ (forall e, e ∈ bp <-> exists x, x ∈ xs /\ e = player_item x) /\
    standings dl xs.

(** What the cache keeps is so. *)
Record cached (s : LbCacheState) (xs : list LbEntry) : Prop := {
  ca_top : forall es, cs_pinned_top s = Some es -> es = take (Z.to_nat (cc_pinned_top (lb_config c))) (rev xs);
  ca_bottom : forall es, cs_pinned_bottom s = Some es -> es = take (Z.to_nat (cc_pinned_bottom (lb_config c))) xs;
  ca_total : forall t, cs_total s = Some t -> t = zlen xs;
  ca_middle : forall p e seq, lm_entries (cs_middle s) !! p = Some (e, seq) -> e ∈ xs /\ le_player_id e = p }.

Section reads.
Variables (n : nat) (xs : list LbEntry).

(** A call that answers [x], and leaves the board and the cache's truth alone. *)
Definition reads {A} (m : lb_io A) (x : A) : Prop := forall s w, board n w xs -> cached s xs ->
  exists s' w', m (s, w) = ((s', w'), Ok x) /\ board n w' xs /\ cached s' xs.

Lemma reads_ret {A} (x : A) : reads (mret x) x.
Proof. intros s w Hb Hc. by exists s, w. Qed.

Lemma reads_lift {A} (r : res A) x : r = Ok x -> reads (io_lift r) x.
Proof. intros -> s w Hb Hc. by exists s, w. Qed.

Lemma reads_bind {A B} (m : lb_io A) (k : A -> lb_io B) x y : reads m x -> reads (k x) y -> reads (m ≫= k) y.
Proof.
  intros Hm Hk s w Hb Hc. destruct (Hm s w Hb Hc) as (s1 & w1 & E & Hb1 & Hc1).
  destruct (Hk s1 w1 Hb1 Hc1) as (s2 & w2 & E2 & ?). exists s2, w2. split; [|done]. rewrite <- E2. by apply io_bind_ok.
Qed.

Lemma reads_bind_lift {A B} (r : res A) (k : A -> lb_io B) x y : r = Ok x -> reads (k x) y -> reads (io_lift r ≫= k) y.
Proof. intros Hr. by apply reads_bind, reads_lift. Qed.

Lemma reads_store {A} (call : io W A) x :
  (forall w m bp, rep n w m -> m !! lb_rank_id c = Some (mkCollection 24 (2 + dl) (map (lb_item dl) xs)) ->
     m !! lb_by_player_id c = Some (mkCollection 16 8 bp) -> (forall e, e ∈ bp <-> exists x, x ∈ xs /\ e = player_item x) ->
     standings dl xs -> exists w', call w = (w', Ok x) /\ rep n w' m) ->
  reads (on_store call) x.
Proof.
  intros Hcall s w (m & bp & Hr & H1 & H2 & H3 & H4) Hc. destruct (Hcall w m bp Hr H1 H2 H3 H4) as (w' & E & Hr').
  exists s, w'. unfold on_store. rewrite E. split; [done|]. split; [|done]. by exists m, bp.
Qed.

Lemma reads_middle {A} (f : LruMiddle -> A * LruMiddle) (x : A) :
  (forall s, cached s xs -> (f (cs_middle s)).1 = x /\ forall p e seq, lm_entries (f (cs_middle s)).2 !! p = Some (e, seq) -> e ∈ xs /\ le_player_id e = p) ->
  reads (on_middle f) x.
Proof.
  intros Hf s w Hb Hc. destruct (Hf s Hc) as [E Hm]. unfold on_middle. destruct (f (cs_middle s)) as [y m]. simpl in *. subst y.
  eexists _, w. split; [done|]. split; [done|]. by destruct Hc.
Qed.

Lemma reads_standings {A} (m : lb_io A) x : (standings dl xs -> reads m x) -> reads m x.
Proof. intros Hm s w Hb. pose proof Hb as (m0 & bp & _ & _ & _ & _ & Hst). by apply Hm. Qed.

Lemma wrap32_id z : u32_ok z -> wrap 32 z = z.
Proof. intros Hz. by apply wrap_small. Qed.

Lemma fits_of (P : list LbEntry) : standings dl xs -> P ⊆ xs -> Forall (lb_fits dl) P.
Proof. intros Hst Hs. apply Forall_forall. intros x Hx. apply (st_fit dl xs); [done|by apply Hs]. Qed.

Lemma take_sub {A} k (l : list A) : take k l ⊆ l.
Proof. intros x Hx. rewrite <- (take_drop k l). set_solver. Qed.
Lemma drop_sub {A} k (l : list A) : drop k l ⊆ l.
Proof. intros x Hx. rewrite <- (take_drop k l). set_solver. Qed.
Lemma rev_sub {A} (l : list A) : rev l ⊆ l.
Proof. intros x. by rewrite !list_elem_of_In, <- in_rev. Qed.

Lemma reads_ensure_top : reads (ensure_top c) (take (Z.to_nat (cc_pinned_top (lb_config c))) (rev xs)).
Proof.
  intros s w Hb Hc. pose proof Hb as (m & bp & Hr & H1 & H2 & H3 & H4). unfold ensure_top, get_state, mbind, io_bind.
  destruct (cs_pinned_top s) as [es|] eqn:Et; [exists s, w; split; [by rewrite (ca_top _ _ Hc es Et)|done]|].
  unfold on_store. rewrite (wrap32_id _ Htop). destruct (cs_scan_forward_law n w m _ _ (cc_pinned_top (lb_config c)) (lb_replication c) Hr H1) as (w' & -> & Hr').
  cbn [co_entries]. rewrite <- map_rev, firstn_map. unfold io_lift. rewrite entries_from_items; [|done|].
  2: { apply fits_of; [done|]. intros x Hx%take_sub. by apply rev_sub. }
  eexists _, w'. split; [done|]. split; [by exists m, bp|]. destruct Hc. split; simpl; try done. by intros es [= <-].
Qed.

Lemma reads_ensure_bottom : reads (ensure_bottom c) (take (Z.to_nat (cc_pinned_bottom (lb_config c))) xs).
Proof.
  intros s w Hb Hc. pose proof Hb as (m & bp & Hr & H1 & H2 & H3 & H4). unfold ensure_bottom, get_state, mbind, io_bind.
  destruct (cs_pinned_bottom s) as [es|] eqn:Et; [exists s, w; split; [by rewrite (ca_bottom _ _ Hc es Et)|done]|].
  unfold on_store. rewrite (wrap32_id _ Hbottom). destruct (cs_scan_backward_law n w m _ _ (cc_pinned_bottom (lb_config c)) (lb_replication c) Hr H1) as (w' & -> & Hr').
  cbn [co_entries]. rewrite firstn_map. unfold io_lift. rewrite entries_from_items; [|done|].
  2: { apply fits_of; [done|]. apply take_sub. }
  eexists _, w'. split; [done|]. split; [by exists m, bp|]. destruct Hc. split; simpl; try done. by intros es [= <-].
Qed.

Lemma reads_ensure_total : reads (ensure_total c) (zlen xs).
Proof.
  intros s w Hb Hc. pose proof Hb as (m & bp & Hr & H1 & H2 & H3 & H4). unfold ensure_total, get_state, mbind, io_bind.
  destruct (cs_total s) as [t|] eqn:Et; [exists s, w; split; [by rewrite (ca_total _ _ Hc t Et)|done]|].
  unfold on_store. destruct (cs_count_law n w m _ _ (lb_replication c) Hr H1) as (w' & -> & Hr').
  cbn [co_entries]. rewrite zlen_map. eexists _, w'. split; [done|]. split; [by exists m, bp|].
  destruct Hc. split; simpl; try done. by intros t [= <-].
Qed.
(** *** One player *)

Lemma value_in_unique (es : list (bytes * bytes)) ks vs key v :
  (exists e, e ∈ es /\ e.1 = key) -> (forall e, e ∈ es -> e.1 = key -> e.2 = v) -> value_in (mkCollection ks vs es) key = Some v.
Proof.
  intros (e & He & Ek) Hall. unfold value_in. cbn [co_entries]. destruct (filter (λ e, e.1 = key) es) as [|e' l] eqn:E.
  - exfalso. apply (elem_of_nil e). rewrite <- E. by apply list_elem_of_filter.
  - assert (e' ∈ filter (λ e, e.1 = key) es) as [Hk Hin]%list_elem_of_filter by (rewrite E; left). simpl. f_equal. by apply Hall.
Qed.

Lemma value_in_none (es : list (bytes * bytes)) ks vs key : (forall e, e ∈ es -> e.1 <> key) -> value_in (mkCollection ks vs es) key = None.
Proof.
  intros Hall. unfold value_in. cbn [co_entries]. rewrite filter_none; [done|]. apply Forall_forall. intros e He Ek. by apply (Hall e).
Qed.

Lemma reads_player_rank_key p : datum_ok p -> reads (player_rank_key c p) (le_rank_key ∘ snd <$> place xs p).
Proof.
  intros Hp. apply reads_standings. intros Hst. unfold player_rank_key.
  apply reads_bind with (x := le_rank_key ∘ snd <$> place xs p).
  - apply reads_store. intros w m bp Hr H1 H2 H3 _.
    destruct (cs_get_law n w m _ _ (as_bytes p) (lb_replication c) Hr H2) as (w' & E & Hr'). exists w'. split; [|done]. rewrite E. do 2 f_equal.
    destruct (st_split dl Hdl xs p Hst) as [(pre & e & post & Ex & Ep & ->)|[-> Hno]]; simpl.
    + assert (e ∈ xs) as Hin by (rewrite Ex; set_solver). apply value_in_unique.
      * exists (player_item e). split; [apply H3; by exists e|]. unfold player_item. by rewrite Ep.
      * intros y (x & Hx & ->)%H3 Ek. unfold player_item in Ek |- *. simpl in *. f_equal. apply (st_one dl xs Hst); [done..|].
        rewrite Ep. apply as_bytes_inj in Ek; [done| |done]. by destruct (st_fit dl xs x Hst Hx) as (_ & ? & _).
    + apply value_in_none. intros y (x & Hx & ->)%H3 Ek. simpl in Ek. apply (Hno x Hx). apply as_bytes_inj in Ek; [done| |done].
      by destruct (st_fit dl xs x Hst Hx) as (_ & ? & _).
  - destruct (st_split dl Hdl xs p Hst) as [(pre & e & post & Ex & Ep & ->)|[-> Hno]]; simpl; [|apply reads_ret].
    assert (zlen (le_rank_key e) = 8) as -> by (destruct (st_fit dl xs e Hst) as (Hk & _ & _); [rewrite Ex; set_solver|exact Hk]).
    apply reads_ret.
Qed.

Lemma reads_rank_of pre e post err : xs = pre ++ e :: post -> reads (rank_of c (le_rank_key e) (le_player_id e) err) (zlen pre).
Proof.
  intros Ex. apply reads_standings. intros Hst. unfold rank_of. apply reads_bind with (x := Some (zlen pre)); [|apply reads_ret].
  apply reads_store. intros w m bp Hr H1 _ _ _.
  assert (e ∈ xs) as Hin by (rewrite Ex; set_solver). pose proof (lb_item_sized dl Hdl e (st_fit dl xs e Hst Hin)) as [Hk _].
  destruct (cs_rank_of_key_law n w m _ _ (lb_composite_key (le_rank_key e) (le_player_id e)) (lb_replication c) Hr H1 Hk) as (w' & E & Hr').
  exists w'. split; [|done]. rewrite E. cbn [co_entries].
  change (from_be (lb_composite_key (le_rank_key e) (le_player_id e))) with (kz (lb_item dl e)). rewrite Ex in Hst |- *.
  destruct (st_below dl Hdl pre e post Hst) as [-> ->]. by rewrite zlen_map.
Qed.

Lemma best_rank_at pre e post : xs = pre ++ e :: post -> best_rank_of (zlen xs) (zlen pre) = Ok (Z.of_nat (length post)).
Proof.
  intros ->. unfold best_rank_of, sub_u64. rewrite zlen_app, zlen_cons. pose proof (zlen_nonneg pre). pose proof (zlen_nonneg post).
  rewrite (proj2 (Z.leb_le _ _)) by lia. rsimpl. rewrite (proj2 (Z.leb_le _ _)) by lia. f_equal. unfold zlen in *. lia.
Qed.

(** *** The entries read lately *)

Definition all_true (m : LruMiddle) : Prop := forall p e seq, lm_entries m !! p = Some (e, seq) -> e ∈ xs /\ le_player_id e = p.

Lemma touch_true m e : e ∈ xs -> all_true m -> all_true (lru_touch m e).
Proof.
  intros He Hm. unfold lru_touch. set (es := <[le_player_id e := (e, lm_next_seq m)]> (lm_entries m)).
  assert (forall p x seq, es !! p = Some (x, seq) -> x ∈ xs /\ le_player_id x = p) as Hes.
  { intros p x seq. unfold es. destruct (decide (p = le_player_id e)) as [->|Hne]; [rewrite lookup_insert_eq; by intros [= <- _]|].
    rewrite lookup_insert_ne by done. apply Hm. }
  intros p x seq. cbn [lm_entries]. destruct (lm_cap m =? 0); [done|]. destruct (_ <? _); [|apply Hes].
  destruct (oldest (map_to_list es)) as [[ev ?]|]; [|apply Hes]. intros [_ Hl]%lookup_delete_Some. by apply (Hes p x seq).
Qed.

Lemma reads_touch_all es : es ⊆ xs -> reads (touch_all es) ().
Proof.
  intros Hs. apply reads_middle. intros s Hc. split; [done|]. cbn [fst snd]. pose proof (ca_middle s xs Hc) as Hm.
  fold (all_true (cs_middle s)) in Hm. revert Hm. generalize (cs_middle s). clear s Hc.
  induction es as [|e es IH]; intros m Hm; simpl; [exact Hm|]. apply IH; [set_solver|]. apply touch_true; [set_solver|done].
Qed.

Lemma get_true m p : all_true m ->
  match (lru_get m p).1 with Some e => e ∈ xs /\ le_player_id e = p | None => True end /\ all_true (lru_get m p).2.
Proof.
  intros Hm. unfold lru_get. destruct (lm_entries m !! p) as [[e seq]|] eqn:E; simpl; [|by split].
  pose proof (Hm p e seq E) as He. split; [done|]. intros p' x s'. cbn [lm_entries].
  destruct (decide (p' = p)) as [->|Hne]; [rewrite lookup_insert_eq; by intros [= <- _]|]. rewrite lookup_insert_ne by done. apply Hm.
Qed.

(** *** The window around a player *)

Lemma rev_slice {A} (l : list A) a k : (a + k <= length l)%nat -> rev (take k (drop a l)) = take k (drop (length l - a - k) (rev l)).
Proof.
  intros Hle. rewrite <- (take_drop (a + k) l) at 3. rewrite rev_app_distr.
  assert (length (rev (drop (a + k) l)) = (length l - a - k)%nat) as Hl by (rewrite length_rev, length_drop; lia).
  rewrite drop_app_length' by done.
  assert (take (a + k) l = take a l ++ take k (drop a l)) as ->.
  { rewrite <- (take_drop a l) at 1. rewrite take_app, length_take, Nat.min_l by lia. replace (a + k - a)%nat with k by lia.
    f_equal. rewrite take_take. f_equal. lia. }
  rewrite rev_app_distr, take_app_length'; [done|]. rewrite length_rev, length_take, length_drop. lia.
Qed.

Lemma reads_around p w : datum_ok p -> u32_ok w -> 
  reads (around c p w) ((λ '(i, _), (Z.of_nat i, window_of xs (Z.of_nat i) w)) <$> place xs p).
Proof.
  intros Hp Hw. apply reads_standings. intros Hst. unfold around. eapply reads_bind; [by apply reads_player_rank_key|].
  destruct (st_split dl Hdl xs p Hst) as [(pre & e & post & Ex & Ep & ->)|[-> _]]; [|apply reads_ret]. simpl. subst p.
  eapply reads_bind; [apply reads_ensure_total|]. eapply reads_bind; [by eapply reads_rank_of|].
  eapply reads_bind_lift; [by eapply best_rank_at|]. set (r := Z.of_nat (length post)). set (total := zlen xs).
  pose proof (zlen_nonneg pre) as Hpre. assert (total = zlen pre + 1 + r) as Htot by (unfold total; rewrite Ex, zlen_app, zlen_cons; unfold zlen, r; lia).
  pose proof (st_len dl xs Hst) as Hlen. fold total in Hlen. unfold uint_ok in Hw.
  destruct (Z.eqb_spec w 0) as [->|Hw0]; [apply reads_ret|]. pose proof (Z.div_pos w 2 ltac:(lia) ltac:(lia)) as Hh.
  rewrite wrap_small by (unfold uint_ok; lia). set (b0 := Z.max 0 (r - w / 2)). set (be := Z.min (b0 + w) total). set (bs := Z.max 0 (be - w)).
  assert (0 <= bs <= be /\ be <= total /\ be - bs <= w /\ bs = Z.max 0 (Z.min (r - w / 2) (total - w)) /\ (be - bs < w -> be = total)) as (H1 & H2 & H3 & H4 & H5)
    by (unfold bs, be, b0; lia).
  apply (reads_bind_lift _ _ (total - be)); [unfold sub_u64; by rewrite (proj2 (Z.leb_le _ _)) by lia|].
  apply (reads_bind_lift _ _ (be - bs)); [unfold sub_u64; by rewrite (proj2 (Z.leb_le _ _)) by lia|].
  rewrite wrap_small by (unfold uint_ok; lia). set (part := take (Z.to_nat (be - bs)) (drop (Z.to_nat (total - be)) xs)).
  apply (reads_bind _ _ (map (lb_item dl) part)).
  { apply reads_store. intros wd m bp Hr Hm _ _ _.
    destruct (cs_scan_from_rank_law n wd m _ _ (total - be) (be - bs) (lb_replication c) Hr Hm ltac:(lia)) as (w' & E & Hr').
    exists w'. split; [|done]. rewrite E. cbn [co_entries]. unfold part. by rewrite skipn_map, firstn_map. }
  assert (part ⊆ xs) as Hpart by (intros x Hx%take_sub; by apply drop_sub in Hx).
  eapply reads_bind_lift; [apply entries_from_items; [done|by apply fits_of]|].
  eapply reads_bind; [apply reads_touch_all; intros x Hx%rev_sub; by apply Hpart|].
  assert (rev part = window_of xs r w) as ->; [|apply reads_ret].
  unfold part, window_of. fold total. rewrite <- H4, rev_slice by (unfold total, zlen in *; lia).
  replace (length xs - Z.to_nat (total - be) - Z.to_nat (be - bs))%nat with (Z.to_nat bs) by (unfold total, zlen in *; lia).
  destruct (Z.lt_ge_cases (be - bs) w) as [Hlt|]; [|f_equal; lia]. specialize (H5 Hlt).
  rewrite !take_ge; [done|..]; rewrite length_drop, length_rev; unfold total, zlen in *; lia.
Qed.

(** *** Friends *)

Lemma reads_friend_rank p : datum_ok p -> reads (friend_rank c (zlen xs) p) (friend_of xs p).
Proof.
  intros Hp. apply reads_standings. intros Hst s w Hb Hc. unfold friend_rank.
  pose proof (get_true (cs_middle s) p (ca_middle s xs Hc)) as [Hg Hg'].
  set (s1 := mkLbState (cs_pinned_top s) (cs_pinned_bottom s) (cs_total s) (lru_get (cs_middle s) p).2).
  assert (cached s1 xs) as Hc1 by (destruct Hc; by split).
  rewrite (io_bind_ok _ _ (s, w) (s1, w) (lru_get (cs_middle s) p).1) by (unfold on_middle; by destruct (lru_get _ _)).
  revert s1 w Hb Hc1. destruct (lru_get (cs_middle s) p).1 as [e|].
  - destruct Hg as [Hin <-]. destruct (st_split dl Hdl xs (le_player_id e) Hst) as [(pre & e' & post & Ex & Ep & Epl)|[_ Hno]]; [|by destruct (Hno e Hin)].
    assert (e' = e) as -> by (apply (st_one dl xs Hst); [rewrite Ex; set_solver|done|done]). intros s1 w Hb Hc1.
    refine (_ s1 w Hb Hc1). eapply reads_bind; [by apply (reads_rank_of pre e post)|]. eapply reads_bind_lift; [by eapply best_rank_at|].
    unfold friend_of. rewrite Epl. apply reads_ret.
  - intros s1 w Hb Hc1. refine (_ s1 w Hb Hc1). eapply reads_bind; [by apply reads_player_rank_key|].
    unfold friend_of. destruct (st_split dl Hdl xs p Hst) as [(pre & e & post & Ex & Ep & ->)|[-> _]]; [|apply reads_ret]. simpl. subst p.
    eapply reads_bind; [by apply (reads_rank_of pre e post)|].
    apply (reads_bind _ _ [lb_item dl e]).
    { apply reads_store. intros wd m bp Hr Hm _ _ _.
      destruct (cs_scan_from_rank_law n wd m _ _ (zlen pre) 1 (lb_replication c) Hr Hm (zlen_nonneg pre)) as (w' & E & Hr').
      exists w'. split; [|done]. rewrite E. cbn [co_entries]. unfold zlen. rewrite Nat2Z.id, Ex, map_app, drop_app_length' by by rewrite length_map. done. }
    assert (e ∈ xs) as Hin by (rewrite Ex; set_solver). cbn [head].
    eapply reads_bind_lift; [apply entry_from_item; [done|by apply (st_fit dl xs)]|].
    eapply reads_bind; [apply reads_touch_all; set_solver|]. eapply reads_bind_lift; [by eapply best_rank_at|]. apply reads_ret.
Qed.

Lemma reads_friends ids : Forall datum_ok ids -> reads (friends_loop c (zlen xs) ids) (omap (friend_of xs) ids).
Proof.
  induction 1 as [|p ids Hp _ IH]; simpl; [apply reads_ret|]. eapply reads_bind; [by apply reads_friend_rank|].
  eapply reads_bind; [exact IH|]. destruct (friend_of xs p); apply reads_ret.
Qed.

Lemma reads_query q : lb_query_ok q -> reads (run_lb_query c q) (answer (lb_config c) xs q).
Proof.
  intros (Ht & Hbo & Hp & Hw & [_ Hf]). unfold run_lb_query. eapply reads_bind; [apply reads_ensure_top|].
  eapply reads_bind; [apply reads_ensure_bottom|]. eapply reads_bind; [apply reads_ensure_total|].
  apply (reads_bind _ _ (player ← lq_around_player q; (λ '(i, _), (Z.of_nat i, window_of xs (Z.of_nat i) (lq_window q))) <$> place xs player)).
  { destruct (lq_around_player q) as [p|]; [by apply reads_around|apply reads_ret]. }
  apply (reads_bind _ _ (omap (friend_of xs) (lq_friend_ids q))).
  { unfold friend_ranks. eapply reads_bind; [apply reads_ensure_total|]. by apply reads_friends. }
  unfold answer. destruct (lq_around_player q) as [p|]; simpl; [|apply reads_ret]. destruct (place xs p) as [[i e]|]; apply reads_ret.
Qed.

Lemma reads_lb_query q : lb_query_ok q -> reads (lb_query c (encode_lb_query_req q)) (encode_lb_result (answer (lb_config c) xs q)).
Proof.
  intros Hq. unfold lb_query. eapply reads_bind_lift; [by apply (codec_complete _ _ _ lb_query_codec)|].
  eapply reads_bind; [by apply reads_query|]. apply reads_ret.
Qed.
End reads.
(** *** Writes *)

(** The entries the file [es] is made of, which are [x] and [ys] without the player of [x]. *)
Lemma standings_put ys x : standings dl ys -> lb_fits dl x -> zlen ys + 1 < 2 ^ 63 -> (forall y, y ∈ ys -> le_player_id y <> le_player_id x) ->
  exists xs, put_entry (lb_item dl x) (map (lb_item dl) ys) = map (lb_item dl) xs /\ standings dl xs /\ forall y, y ∈ xs <-> y = x \/ y ∈ ys.
Proof.
  intros Hst Hx Hlen Hno.
  assert (forall y, y ∈ ys -> kz (lb_item dl y) <> kz (lb_item dl x)) as Hne.
  { intros y Hy E. apply lb_item_key in E as [_ E]; [by apply (Hno y)|by apply (st_fit dl ys)|done]. }
  destruct (map_preimage (lb_item dl) (λ y, y = x \/ y ∈ ys) (put_entry (lb_item dl x) (map (lb_item dl) ys))) as (xs & E & HF).
  { apply Forall_forall. intros e [->|[(y & -> & Hy)%list_elem_of_fmap _]]%elem_of_put; [by exists x; split; [left|]|by exists y; split; [right|]]. }
  rewrite Forall_forall in HF. assert (forall y, y = x \/ y ∈ ys -> lb_fits dl y) as Hfit by (intros y [->|Hy]; [done|by apply (st_fit dl ys)]).
  assert (forall y z, (y = x \/ y ∈ ys) -> (z = x \/ z ∈ ys) -> le_player_id y = le_player_id z -> y = z) as Hone.
  { intros y z [->|Hy] [->|Hz] Ep; [done|by destruct (Hno z Hz)|by destruct (Hno y Hy)|by apply (st_one dl ys Hst)]. }
  assert (forall y, y ∈ xs <-> y = x \/ y ∈ ys) as Hin.
  { intros y. split; [apply HF|]. intros Hy. assert (lb_item dl y ∈ map (lb_item dl) xs) as (z & Ez & Hz)%list_elem_of_fmap.
    - rewrite <- E. apply elem_of_put. destruct Hy as [->|Hy]; [by left|right]. split; [apply list_elem_of_fmap; by exists y|by apply Hne].
    - rewrite (Hone y z Hy (HF z Hz)); [done|]. by apply (lb_item_key dl y z); [apply Hfit..|rewrite Ez]; [|apply HF|]. }
  exists xs. split; [exact E|]. split; [|exact Hin]. split.
  - apply Forall_forall. intros y Hy. by apply Hfit, HF.
  - rewrite <- E. by apply put_sorted, (st_sorted dl).
  - intros y z Hy Hz. apply Hone; by apply HF.
  - apply (f_equal zlen) in E. rewrite zlen_put, !zlen_map in E by apply (st_sorted dl ys Hst). destruct (has _ _); simpl in E; lia.
Qed.

Lemma standings_del pre e post : standings dl (pre ++ e :: post) ->
  del_entry (kz (lb_item dl e)) (map (lb_item dl) (pre ++ e :: post)) = map (lb_item dl) (pre ++ post) /\ standings dl (pre ++ post) /\
  (forall y, y ∈ pre ++ post <-> y ∈ pre ++ e :: post /\ le_player_id y <> le_player_id e) /\ zlen (pre ++ post) + 1 = zlen (pre ++ e :: post).
Proof.
  intros Hst. assert (forall y, y ∈ pre ++ post <-> y ∈ pre ++ e :: post /\ le_player_id y <> le_player_id e) as Hin.
  { intros y. split.
    - intros Hy. assert (y ∈ pre ++ e :: post) as Hy' by set_solver. split; [done|]. intros Ep.
      assert (y = e) as -> by (apply (st_one dl _ Hst); [done|set_solver|done]).
      pose proof (st_sorted dl _ Hst) as Hs. rewrite map_app in Hs. apply sorted_app in Hs as (_ & Hs & Hab). simpl in Hs.
      apply sorted_inv in Hs as [_ Hs]. rewrite List.Forall_map, Forall_forall in Hs. rewrite List.Forall_map, Forall_forall in Hab.
      apply elem_of_app in Hy as [Hy|Hy]; [specialize (Hab e Hy); apply Forall_inv in Hab; lia|specialize (Hs e Hy); lia].
    - intros [Hy Hne]. assert (y = e \/ y ∈ pre ++ post) as [->|] by set_solver; done. }
  pose proof (st_sorted dl _ Hst) as Hs. assert (del_entry (kz (lb_item dl e)) (map (lb_item dl) (pre ++ e :: post)) = map (lb_item dl) (pre ++ post)) as E.
  { rewrite !map_app in *. simpl in *. by apply del_between. }
  assert (zlen (pre ++ post) + 1 = zlen (pre ++ e :: post)) as El by (rewrite !zlen_app, zlen_cons; lia).
  split_and!; [done| |done|done]. split.
  - apply Forall_forall. intros y [Hy _]%Hin. by apply (st_fit dl _ y Hst).
  - rewrite <- E. by apply del_sorted.
  - intros y z [Hy _]%Hin [Hz _]%Hin. by apply (st_one dl _ Hst).
  - pose proof (st_len dl _ Hst). lia.
Qed.

(** The writes of an accepted update, on standings without the player, whose place by
    player may be an old one. *)
Lemma board_insert n w m ys bp x d : rep (S (S n)) w m ->
  m !! lb_rank_id c = Some (mkCollection 24 (2 + dl) (map (lb_item dl) ys)) -> m !! lb_by_player_id c = Some (mkCollection 16 8 bp) ->
  (forall b, kz b <> kz (player_item x) -> b ∈ bp <-> exists y, y ∈ ys /\ b = player_item y) -> standings dl ys ->
  zlen ys + 1 < 2 ^ 63 -> lb_fits dl x -> le_display x = capped dl d -> (forall y, y ∈ ys -> le_player_id y <> le_player_id x) ->
  exists w1 w2 xs,
    cs_insert (lb_rank_id c) (lb_composite_key (le_rank_key x) (le_player_id x)) (encode_display d dl) (lb_replication c) w = (w1, Ok ()) /\
    cs_insert (lb_by_player_id c) (as_bytes (le_player_id x)) (le_rank_key x) (lb_replication c) w1 = (w2, Ok ()) /\
    board n w2 xs /\ forall y, y ∈ xs <-> y = x \/ y ∈ ys.
Proof.
  intros Hr H1 H2 H3 Hst Hlen Hx Hd Hno.
  assert ((lb_composite_key (le_rank_key x) (le_player_id x), encode_display d dl) = lb_item dl x) as Ei
    by (unfold lb_item; by rewrite Hd, encode_capped).
  destruct (cs_insert_law (S n) w m _ _ (lb_composite_key (le_rank_key x) (le_player_id x)) (encode_display d dl) (lb_replication c) Hr H1)
    as (w1 & E1 & Hr1); [rewrite Ei; by apply lb_item_sized|]. unfold put_in in Hr1. cbn [co_key_size co_value_size co_entries] in Hr1. rewrite Ei in Hr1.
  destruct (standings_put ys x Hst Hx Hlen Hno) as (xs & Exs & Hst' & Hin). rewrite Exs in Hr1.
  destruct (cs_insert_law n w1 _ (lb_by_player_id c) (mkCollection 16 8 bp) (as_bytes (le_player_id x)) (le_rank_key x) (lb_replication c) Hr1)
    as (w2 & E2 & Hr2); [by rewrite lookup_insert_ne by done|by apply (player_item_sized dl)|]. unfold put_in in Hr2. cbn [co_key_size co_value_size co_entries] in Hr2.
  exists w1, w2, xs. split; [done|]. split; [done|]. split; [|done]. eexists _, _. split; [exact Hr2|].
  rewrite (lookup_insert_ne _ (lb_by_player_id c)), lookup_insert_eq by done. split; [done|]. rewrite lookup_insert_eq. split; [done|]. split; [|done].
  change (as_bytes (le_player_id x), le_rank_key x) with (player_item x). intros e. rewrite elem_of_put. split.
  - intros [->|[He Hne]]; [exists x; rewrite Hin; auto|]. apply (H3 e Hne) in He as (y & Hy & ->). exists y. rewrite Hin; auto.
  - intros (y & [->|Hy]%Hin & ->); [by left|right]. assert (kz (player_item y) <> kz (player_item x)) as Hne.
    { intros E. apply (Hno y Hy). by apply (player_item_key dl); [apply (st_fit dl ys)| |]. }
    split; [|done]. apply H3; [done|]. by exists y.
Qed.

(** The removals that take a player off. *)
Lemma board_remove n w pre e post : board n w (pre ++ e :: post) ->
  exists w1 w2,
    cs_remove (lb_rank_id c) (lb_composite_key (le_rank_key e) (le_player_id e)) (lb_replication c) w = (w1, Ok ()) /\
    cs_remove (lb_by_player_id c) (as_bytes (le_player_id e)) (lb_replication c) w1 = (w2, Ok ()) /\ board n w2 (pre ++ post).
Proof.
  intros (m & bp & Hr & H1 & H2 & H3 & Hst). destruct (standings_del pre e post Hst) as (Edel & Hst' & Hin & _).
  assert (e ∈ pre ++ e :: post) as He by set_solver. pose proof (st_fit dl _ e Hst He) as Hfit.
  destruct (cs_remove_law n w m _ _ (lb_composite_key (le_rank_key e) (le_player_id e)) (lb_replication c) Hr H1) as (w1 & E1 & Hr1);
    [by apply (lb_item_sized dl Hdl e)|]. unfold del_in in Hr1. cbn [co_key_size co_value_size co_entries] in Hr1.
  change (from_be (lb_composite_key (le_rank_key e) (le_player_id e))) with (kz (lb_item dl e)) in Hr1. rewrite Edel in Hr1.
  destruct (cs_remove_law n w1 _ (lb_by_player_id c) (mkCollection 16 8 bp) (as_bytes (le_player_id e)) (lb_replication c) Hr1) as (w2 & E2 & Hr2);
    [by rewrite lookup_insert_ne by done|apply zlen_as_bytes|]. unfold del_in in Hr2. cbn [co_key_size co_value_size co_entries] in Hr2.
  exists w1, w2. split; [done|]. split; [done|]. eexists _, _. split; [exact Hr2|].
  rewrite (lookup_insert_ne _ (lb_by_player_id c)), lookup_insert_eq by done. split; [done|]. rewrite lookup_insert_eq. split; [done|]. split; [|done].
  change (from_be (as_bytes (le_player_id e))) with (kz (player_item e)). intros x. rewrite elem_of_del, H3. split.
  - intros [(y & Hy & ->) Hne]. exists y. split; [|done]. apply Hin. split; [done|]. intros Ep. apply Hne.
    assert (y = e) as -> by (by apply (st_one dl _ Hst)). done.
  - intros (y & [Hy Hne]%Hin & ->). split; [by exists y|]. intros E. apply Hne. by apply (player_item_key dl); [apply (st_fit dl _ y Hst)| |].
Qed.
(** *** Execute *)

(** The rule of the class, on scores as numbers. *)
Definition improves (old new : bytes) : bool :=
  match lc_rule (lb_def c) with
  | RuleMax => from_be old <? from_be new
  | RuleMin => from_be new <? from_be old
  | RuleReplace => negb (from_be new =? from_be old)
  end.

Definition accepts_score (xs : list LbEntry) (p : DatumId) (new : bytes) : bool :=
  match place xs p with Some (_, e) => improves (le_rank_key e) new | None => true end.

(** The standings an operation makes of [xs]. *)
Definition lb_effect (op : LbExecuteOp) (xs xs' : list LbEntry) : Prop :=
  match op with
  | LbUpdate p d k _ _ _ =>
      if accepts_score xs p k
      then forall y, y ∈ xs' <-> y = mkLbEntry k p (capped dl d) \/ (y ∈ xs /\ le_player_id y <> p)
      else xs' = xs
  | LbRemove p => forall y, y ∈ xs' <-> y ∈ xs /\ le_player_id y <> p
  end.

(** The query an operation answers. *)
Definition query_of (op : LbExecuteOp) : LbQueryReq :=
  match op with
  | LbUpdate p _ _ fs top window => mkLbQueryReq top 0 (Some p) window fs
  | LbRemove _ => mkLbQueryReq 0 0 None 0 []
  end.

Lemma query_of_ok op : lb_execute_ok op -> lb_query_ok (query_of op).
Proof.
  destruct op; simpl; [intros (? & ? & ? & ? & ? & ?); by split_and!|]. intros _. by split_and!.
Qed.

Lemma apply_rule_improves old new : rank_key_ok old -> rank_key_ok new -> apply_rule c old new = improves old new.
Proof.
  intros Ho Hn. assert (zlen old = 8 /\ zlen new = 8) as [Ho8 Hn8] by (split; [exact Ho|exact Hn]). unfold apply_rule, improves.
  destruct (lc_rule (lb_def c)); rewrite ?bytes_cmp_from_be by (unfold zlen in *; lia).
  - rewrite Z.ltb_compare. rewrite (Z.compare_antisym (from_be new) (from_be old)). by destruct (_ ?= _).
  - rewrite Z.ltb_compare. by destruct (_ ?= _).
  - destruct (Z.eqb_spec (from_be new) (from_be old)) as [E|E]; case_bool_decide as E'; subst; try done. by apply from_be_inj in E; [|congruence].
Qed.

Lemma cached_invalidated s ys xs p : cached s ys -> (forall y, y ∈ ys -> le_player_id y <> p -> y ∈ xs) ->
  cached (mkLbState None None None (lru_remove (cs_middle s) p)) xs.
Proof.
  intros [_ _ _ Hm] Hin. split; simpl; try done. intros q e seq [Hne Hl]%lookup_delete_Some. destruct (Hm q e seq Hl) as [He Ep].
  split; [|done]. apply Hin; [done|]. congruence.
Qed.

Lemma board_weaken n w xs : board (S n) w xs -> board n w xs.
Proof. intros (m & bp & Hr & H1). exists m, bp. split; [by apply cs_weaken|done]. Qed.

Lemma io_store {A B} (m : io W A) (k : A -> lb_io B) s w w' x :
  m w = (w', Ok x) -> (on_store m ≫= k) (s, w) = k x (s, w').
Proof. intros E. apply io_bind_ok. unfold on_store. by rewrite E. Qed.

(** The writes of an update, and the cache after them. *)
Lemma update_runs n s w xs p d k fs top window : board (S (S n)) w xs -> cached s xs -> zlen xs + 1 < 2 ^ 63 ->
  lb_execute_ok (LbUpdate p d k fs top window) ->
  exists s' w' xs', run_lb_execute c (LbUpdate p d k fs top window) (s, w) =
      lb_query c (encode_lb_query_req (query_of (LbUpdate p d k fs top window))) (s', w') /\
    board n w' xs' /\ cached s' xs' /\ lb_effect (LbUpdate p d k fs top window) xs xs'.
Proof.
  intros Hb Hc Hlen (Hp & Hd & Hk & Hfs & Ht & Hw). unfold run_lb_execute. cbn [query_of lb_effect].
  destruct (reads_player_rank_key (S (S n)) xs p Hp s w Hb Hc) as (s1 & w1 & E1 & Hb1 & Hc1).
  rewrite (io_bind_ok _ _ _ _ _ E1). clear s w Hb Hc E1. pose proof Hb1 as (m & bp & Hr & H1 & H2 & H3 & Hst).
  set (new := mkLbEntry k p (capped dl d)).
  assert (lb_fits dl new) as Hnew by (split_and!; [done..|by destruct (zlen_capped dl Hdl d)]).
  unfold accepts_score. destruct (st_split dl Hdl xs p Hst) as [(pre & e & post & Ex & Ep & ->)|[-> Hno]]; cbn [fmap option_fmap option_map compose snd].
  - assert (e ∈ xs) as He by (rewrite Ex; set_solver). destruct (st_fit dl xs e Hst He) as (Hek & _).
    rewrite apply_rule_improves by done. destruct (improves (le_rank_key e) k).
    2: { exists s1, w1, xs. split; [done|]. split; [by apply board_weaken, board_weaken|done]. }
    rewrite Ex in H1, Hst, H3. destruct (standings_del pre e post Hst) as (Edel & Hst' & Hin & Hl).
    destruct (cs_remove_law (S (S n)) w1 m _ _ (lb_composite_key (le_rank_key e) p) (lb_replication c) Hr H1) as (w2 & E2 & Hr2).
    { rewrite <- Ep. apply (lb_item_sized dl Hdl e), (st_fit dl _ e Hst). set_solver. }
    unfold del_in in Hr2. cbn [co_key_size co_value_size co_entries] in Hr2. rewrite <- Ep in Hr2.
    change (from_be (lb_composite_key (le_rank_key e) (le_player_id e))) with (kz (lb_item dl e)) in Hr2. rewrite Edel in Hr2.
    destruct (board_insert n w2 _ (pre ++ post) bp new d Hr2) as (w3 & w4 & xs' & E3 & E4 & Hb' & Hin'); try done.
    + by rewrite lookup_insert_eq.
    + by rewrite lookup_insert_ne.
    + intros b Hne. rewrite H3. split; intros (y & Hy & ->); exists y; (split; [|done]); apply Hin; [|set_solver].
      split; [done|]. intros E. apply Hne. unfold kz, player_item. simpl. congruence.
    + rewrite Ex in Hlen. lia.
    + intros y [_ Hy]%Hin. simpl. congruence.
    + eexists _, w4, xs'. split.
      { rewrite (io_bind_ok _ _ _ (mkLbState None None None (lru_remove (cs_middle s1) p), w4) ()); [done|].
        rewrite (io_store _ _ s1 w1 w2 ()) by done. rewrite (io_store _ _ s1 w2 w3 ()) by done. rewrite (io_store _ _ s1 w3 w4 ()) by done. done. }
      split; [done|]. split.
      * apply (cached_invalidated s1 xs); [done|]. intros y Hy Hne. apply Hin'. right. apply Hin. by rewrite <- Ex, Ep.
      * intros y. rewrite Hin', Hin, <- Ex, Ep. done.
  - destruct (board_insert n w1 m xs bp new d Hr H1 H2) as (w3 & w4 & xs' & E3 & E4 & Hb' & Hin'); try done.
    eexists _, w4, xs'. split.
    { rewrite (io_bind_ok _ _ _ (mkLbState None None None (lru_remove (cs_middle s1) p), w4) ()); [done|].
      rewrite (io_bind_ok _ _ _ (s1, w1) ()) by done. rewrite (io_store _ _ s1 w1 w3 ()) by done. rewrite (io_store _ _ s1 w3 w4 ()) by done. done. }
    split; [done|]. split.
    + apply (cached_invalidated s1 xs); [done|]. intros y Hy Hne. apply Hin'. by right.
    + intros y. rewrite Hin'. split; [intros [?|?]; [by left|right; split; [done|by apply Hno]]|intros [?|[? _]]; [by left|by right]].
Qed.

Lemma remove_runs n s w xs p : board n w xs -> cached s xs -> datum_ok p ->
  exists s' w' xs', run_lb_execute c (LbRemove p) (s, w) = lb_query c (encode_lb_query_req (query_of (LbRemove p))) (s', w') /\
    board n w' xs' /\ cached s' xs' /\ lb_effect (LbRemove p) xs xs'.
Proof.
  intros Hb Hc Hp. unfold run_lb_execute. cbn [query_of lb_effect].
  destruct (reads_player_rank_key n xs p Hp s w Hb Hc) as (s1 & w1 & E1 & Hb1 & Hc1).
  rewrite (io_bind_ok _ _ _ _ _ E1). clear s w Hb Hc E1. pose proof Hb1 as (m & bp & Hr & H1 & H2 & H3 & Hst).
  destruct (st_split dl Hdl xs p Hst) as [(pre & e & post & -> & Ep & ->)|[-> Hno]]; cbn [fmap option_fmap option_map compose snd].
  - destruct (standings_del pre e post Hst) as (_ & _ & Hin & _). destruct (board_remove n w1 pre e post Hb1) as (w2 & w3 & E2 & E3 & Hb').
    rewrite Ep in *. eexists _, w3, (pre ++ post). split.
    { rewrite (io_bind_ok _ _ _ (mkLbState None None None (lru_remove (cs_middle s1) p), w3) ()); [done|].
      rewrite (io_store _ _ s1 w1 w2 ()) by done. rewrite (io_store _ _ s1 w2 w3 ()) by done. done. }
    split; [done|]. split; [|done]. apply (cached_invalidated s1 (pre ++ e :: post)); [done|]. intros y Hy Hne. by apply Hin.
  - exists s1, w1, xs. split; [done|]. split; [done|]. split; [done|]. intros y. split; [intros Hy; split; [done|by apply Hno]|by intros [? _]].
Qed.

(** C22: a leaderboard is its standings. On a store that holds the standings [xs], one
    entry for each player, in strict order of rank key and id, and whatever the cache
    has kept of them, a query answers with the size, the best and the worst entries up
    to the windows the cache pins, the player's place with the entries about it, and
    the places of friends; an operation changes the standings as the class's rule says
    (a score that does not improve changes nothing) and answers the query it carries on
    the standings it leaves. Cache and store still agree afterwards. *)
Theorem leaderboard_is_its_standings n s w xs : board (S (S n)) w xs -> cached s xs -> zlen xs + 1 < 2 ^ 63 ->
  StronglySorted lb_before xs /\ one_each xs /\
  (forall q, lb_query_ok q -> exists s' w',
     lb_query c (encode_lb_query_req q) (s, w) = ((s', w'), Ok (encode_lb_result (answer (lb_config c) xs q))) /\
     board (S (S n)) w' xs /\ cached s' xs) /\
  (forall op, lb_execute_ok op -> exists s' w' xs',
     lb_execute c (encode_lb_execute_op op) (s, w) = ((s', w'), Ok (encode_lb_result (answer (lb_config c) xs' (query_of op)))) /\
     board n w' xs' /\ cached s' xs' /\ lb_effect op xs xs').
Proof.
  intros Hb Hc Hlen. pose proof Hb as (m & bp & _ & _ & _ & _ & Hst). split_and!.
  - by apply (st_ordered dl).
  - by apply (st_one dl).
  - intros q Hq. by apply reads_lb_query.
  - intros op Hop. unfold lb_execute. rewrite (io_bind_ok _ _ _ (s, w) op) by (unfold io_lift; by rewrite (codec_complete _ _ _ lb_execute_codec)).
    assert (exists s' w' xs', run_lb_execute c op (s, w) = lb_query c (encode_lb_query_req (query_of op)) (s', w') /\
      board n w' xs' /\ cached s' xs' /\ lb_effect op xs xs') as (s1 & w1 & xs' & -> & Hb' & Hc' & He).
    { destruct op; [by apply update_runs|]. apply remove_runs; [by apply board_weaken, board_weaken|done|exact Hop]. }
    destruct (reads_lb_query n xs' (query_of op) (query_of_ok op Hop) s1 w1 Hb' Hc') as (s2 & w2 & E & Hb2 & Hc2).
    exists s2, w2, xs'. by split_and!.
Qed.
End board.

(** ** Opening a board *)

Lemma lb_open_board {W : Type} {rep : nat -> W -> gmap DatumId collection -> Prop} `{CollectionStoreLaws W rep}
    from_name def config target n w m :
  rep n w m -> Z.of_nat n <= 2 ^ 15 -> u16_ok (lc_display_len def) -> fits_page 24 (2 + lc_display_len def) COLLECTION_PAGE_SIZE ->
  target <> from_name target (lit "by_player") -> m !! target = None -> m !! from_name target (lit "by_player") = None ->
  exists c s w', lb_open from_name def config true target w = (w', Ok (c, s)) /\ lb_def c = def /\ lb_config c = config target /\
    lb_rank_id c <> lb_by_player_id c /\ board (rep := rep) c n w' [] /\ cached c s [].
Proof.
  intros Hr Hn Hdl Hf Hne H1 H2. unfold lb_open, LbCache_new. cbn [negb]. cbv zeta.
  pose proof (cs_create_law n w m target 24 (2 + lc_display_len def) LB_REPLICATION Hr Hn) as HC. rewrite H1 in HC.
  destruct HC as (w1 & E1 & Hr1); [unfold uint_ok in *; split_and!; try done; lia|].
  pose proof (cs_create_law n w1 _ (from_name target (lit "by_player")) 16 8 LB_REPLICATION Hr1 Hn) as HC.
  rewrite lookup_insert_ne, H2 in HC by done. destruct HC as (w2 & E2 & Hr2); [by split_and!|].
  rewrite (io_bind_ok _ _ _ _ _ E1), (io_bind_ok _ _ _ _ _ E2). eexists _, _, w2. split; [done|]. split_and!; try done.
  eexists _, []. split; [exact Hr2|]. rewrite (lookup_insert_ne _ (from_name target (lit "by_player"))), !lookup_insert_eq by done.
  split_and!; [done|done| |].
  - intros e. split; [by intros ?%elem_of_nil|]. intros (x & Hx & _). by apply elem_of_nil in Hx.
  - split; [constructor|constructor| |done]. intros x y Hx. by apply elem_of_nil in Hx.
Qed.

(** A board of best scores in a fresh node. *)
Definition demo_lb_class : LbClassDef := mkLbClass (lit "race") ScoreI64 4 RuleMax.
Definition demo_lb_config (_ : DatumId) : LbCacheConfig := mkLbConfig 3 3 10.
Definition demo_score : LbExecuteOp := LbUpdate 7 (lit "ada") (to_be 8 5) [] 1 0.

Definition empty_node : StoreNode := mkNode (fresh_log (replicate 16 (u8 0))) 1 0 1000 ∅ ∅ ∅.

Lemma empty_node_holds n : node_holds n empty_node ∅.
Proof. intros id. rewrite lookup_empty. split; apply lookup_empty. Qed.

Lemma demo_score_ok : lb_execute_ok demo_score.
Proof. by split_and!. Qed.

Lemma demo_opens : exists c s w, lb_open (λ id _, id + 1) demo_lb_class demo_lb_config true 5 empty_node = (w, Ok (c, s)) /\
  lb_def c = demo_lb_class /\ lb_config c = demo_lb_config 5 /\ lb_rank_id c <> lb_by_player_id c /\
  board (rep := node_holds) c 2 w [] /\ cached c s [].
Proof.
  apply (lb_open_board (rep := node_holds) (λ id _, id + 1) demo_lb_class demo_lb_config 5 2 empty_node ∅).
  - apply empty_node_holds.
  - lia.
  - by split.
  - by split_and!.
  - discriminate.
  - apply lookup_empty.
  - apply lookup_empty.
Qed.

Lemma leaderboard_is_its_standings_witness :
  exists c s w s' w' xs', lb_open (λ id _, id + 1) demo_lb_class demo_lb_config true 5 empty_node =
      (w, Ok (c, s)) /\
    lb_execute c (encode_lb_execute_op demo_score) (s, w) = ((s', w'), Ok (encode_lb_result (answer (lb_config c) xs' (query_of demo_score)))) /\
    xs' = [mkLbEntry (to_be 8 5) 7 (lit "ada")].
Proof.
  destruct demo_opens as (c & s & w & Eo & Ed & Ec & Hne & Hb & Hc).
  assert (u16_ok (lc_display_len (lb_def c))) as Hdl by (rewrite Ed; by split).
  assert (u32_ok (cc_pinned_top (lb_config c)) /\ u32_ok (cc_pinned_bottom (lb_config c))) as [Ht Hbo] by (rewrite Ec; unfold uint_ok; simpl; lia).
  destruct (leaderboard_is_its_standings (rep := node_holds) c Hdl Hne Ht Hbo 0 s w [] Hb Hc) as (_ & _ & _ & Hx); [reflexivity|].
  destruct (Hx demo_score) as (s' & w' & xs' & Ex & Hb' & _ & He); [exact demo_score_ok|].
  exists c, s, w, s', w', xs'. split; [exact Eo|]. split; [exact Ex|]. clear Eo Ex.
  unfold lb_effect, demo_score in He. unfold accepts_score, place in He. simpl in He. rewrite Ed in He.
  destruct Hb' as (m & bp & _ & _ & _ & _ & Hst).
  destruct xs' as [|y [|z xs']].
  - exfalso. apply (elem_of_nil (mkLbEntry (to_be 8 5) 7 (lit "ada"))), He. by left.
  - f_equal. destruct (proj1 (He y)) as [->|[Hy _]]; [by left|reflexivity|by apply elem_of_nil in Hy].
  - exfalso. pose proof (st_ordered _ _ Hst) as Hs. inversion_clear Hs as [|? ? _ HF]. apply Forall_inv in HF.
    destruct (proj1 (He y)) as [->|[Hy _]]; [by left| |by apply elem_of_nil in Hy].
    destruct (proj1 (He z)) as [->|[Hy _]]; [right; by left| |by apply elem_of_nil in Hy].
    destruct HF as [HF|[_ HF]]; [by vm_compute in HF|simpl in HF; lia].
Defined.
