(* ===== verification/Collation.v ===== *)
(** * seisin-node: the lock of one datum

    Models [crates/seisin-node/src/collation.rs]: [NativeLock], which a datum's
    native thread keeps, with its queue ordered by operation id and its
    wound-wait answer. A callback [on_granted] is a value of a type of the
    client's; an operation of the lock returns the callbacks it fired. *)

From S2P Require Import Prelude Core.

Record Holder := mkHolder { h_node : NodeId; h_thread : ThreadId; h_op : DatumId }.

Record Waiter (A : Type) := mkWaiter {
  w_op : DatumId; w_node : NodeId; w_thread : ThreadId; on_granted : A }.
Arguments mkWaiter {A} _ _ _ _.
Arguments w_op {A} _.
Arguments w_node {A} _.
Arguments w_thread {A} _.
Arguments on_granted {A} _.

Inductive AcquireOutcome := GrantedImmediately | RecallNeeded (holder : Holder) | Queued.

Record NativeLock (A : Type) := mkNative { current_holder : option Holder; waiters : list (Waiter A) }.
Arguments mkNative {A} _ _.
Arguments current_holder {A} _.
Arguments waiters {A} _.

Section lock.
Context {A : Type}.
Implicit Types (l : NativeLock A) (w : Waiter A).

Definition NativeLock_new : NativeLock A := mkNative None [].

Definition holder_of (w : Waiter A) : Holder := mkHolder (w_node w) (w_thread w) (w_op w).

Definition grant_front l : NativeLock A * list A :=
  match waiters l with
  | w :: ws => (mkNative (Some (holder_of w)) ws, [on_granted w])
  | [] => (l, [])
  end.

(** [VecDeque::insert] at the first waiter with a larger id, else at the end. *)
Fixpoint enqueue (w : Waiter A) (ws : list (Waiter A)) : list (Waiter A) :=
  match ws with
  | [] => [w]
  | v :: ws => if w_op w <? w_op v then w :: v :: ws else v :: enqueue w ws
  end.

Definition request l (w : Waiter A) : NativeLock A * list A * AcquireOutcome :=
  let needs_recall := match current_holder l with Some h => w_op w <? h_op h | None => false end in
  let l := mkNative (current_holder l) (enqueue w (waiters l)) in
  match current_holder l with
  | None => (grant_front l, GrantedImmediately)
  | Some h => (l, [], if needs_recall then RecallNeeded h else Queued)
  end.

Definition release l : NativeLock A * list A := grant_front (mkNative None (waiters l)).

Definition held_by (l : NativeLock A) (node_id : NodeId) : bool :=
  match current_holder l with Some h => h_node h =? node_id | None => false end.

Definition handle_node_death l (node_id : NodeId) : NativeLock A * list A :=
  let l := mkNative (current_holder l) (filter (λ w, w_node w <> node_id) (waiters l)) in
  if held_by l node_id then release l else (l, []).

(** ** The contract

    Requests wait in the order they came; a grant goes to the oldest operation,
    the smallest id, and among requests of one operation to the first to come. *)

Record Queue := mkQueue { q_holder : option Holder; q_waiting : list (Waiter A) }.

(** The oldest request and the ones left. *)
Fixpoint oldest (w : Waiter A) (ws : list (Waiter A)) : Waiter A * list (Waiter A) :=
  match ws with
  | [] => (w, [])
  | v :: ws =>
      let '(o, rest) := oldest v ws in
      if w_op o <? w_op w then (o, w :: rest) else (w, v :: ws)
  end.

Definition q_grant (ws : list (Waiter A)) : Queue * list A :=
  match ws with
  | [] => (mkQueue None [], [])
  | w :: ws => let '(o, rest) := oldest w ws in (mkQueue (Some (holder_of o)) rest, [on_granted o])
  end.

Inductive LockOp := LRequest (w : Waiter A) | LRelease | LDeath (node_id : NodeId).

Definition q_step (q : Queue) (op : LockOp) : Queue * list A * option AcquireOutcome :=
  match op, q_holder q with
  | LRequest w, None => (q_grant (q_waiting q ++ [w]), Some GrantedImmediately)
  | LRequest w, Some h =>
      (mkQueue (Some h) (q_waiting q ++ [w]), [], Some (if w_op w <? h_op h then RecallNeeded h else Queued))
  | LRelease, _ => (q_grant (q_waiting q), None)
  | LDeath n, h =>
      let ws := filter (λ w, w_node w <> n) (q_waiting q) in
      if match h with Some h => h_node h =? n | None => false end then (q_grant ws, None)
      else (mkQueue h ws, [], None)
  end.

Definition lock_step l (op : LockOp) : NativeLock A * list A * option AcquireOutcome :=
  match op with
  | LRequest w => ((request l w).1, Some (request l w).2)
  | LRelease => (release l, None)
  | LDeath n => (handle_node_death l n, None)
  end.

(** The fired callbacks and the answers of a history, in order. *)
Fixpoint run_with {St} (step : St -> LockOp -> St * list A * option AcquireOutcome) (s : St)
    (ops : list LockOp) : St * list (list A * option AcquireOutcome) :=
  match ops with
  | [] => (s, [])
  | op :: ops =>
      let '(s, fired, o) := step s op in
      let '(s, log) := run_with step s ops in (s, (fired, o) :: log)
  end.

(** The waiters in arrival order, sorted by a stable insertion. *)
Definition sorted_queue (ws : list (Waiter A)) : list (Waiter A) := fold_left (λ acc w, enqueue w acc) ws [].

Definition requested (ops : list LockOp) : list A :=
  flat_map (λ op, match op with LRequest w => [on_granted w] | _ => [] end) ops.

(** ** The queue is the stable sort of the arrivals *)

Definition not_after (v w : Waiter A) : Prop := w_op v <= w_op w.

Lemma enqueue_perm w ws : enqueue w ws ≡ₚ w :: ws.
Proof.
  induction ws as [|v ws IH]; simpl; [done|]. destruct (_ <? _); [done|].
  rewrite IH. apply Permutation_swap.
Qed.

Lemma enqueue_front w ws : Forall (λ v, w_op w < w_op v) ws -> enqueue w ws = w :: ws.
Proof. intros [|v vs H _]; simpl; [done|]. by rewrite (proj2 (Z.ltb_lt (w_op w) (w_op v))). Qed.

Lemma enqueue_behind w v ws : w_op v <= w_op w -> enqueue w (v :: ws) = v :: enqueue w ws.
Proof. intros H. simpl. by rewrite (proj2 (Z.ltb_ge (w_op w) (w_op v))). Qed.

Lemma enqueue_sorted w ws : StronglySorted not_after ws -> StronglySorted not_after (enqueue w ws).
Proof.
  induction 1 as [|v ws Hs IH Hv]; simpl; [by repeat constructor|].
  destruct (Z.ltb_spec (w_op w) (w_op v)).
  - repeat constructor; [done..|unfold not_after; lia|].
    eapply Forall_impl; [exact Hv|]. unfold not_after. intros x. lia.
  - constructor; [done|]. rewrite enqueue_perm. by constructor.
Qed.

Lemma sorted_queue_snoc ws w : sorted_queue (ws ++ [w]) = enqueue w (sorted_queue ws).
Proof. unfold sorted_queue. by rewrite fold_left_app. Qed.

Lemma sorted_queue_sorted ws : StronglySorted not_after (sorted_queue ws).
Proof.
  induction ws as [|w ws IH] using rev_ind; [constructor|].
  rewrite sorted_queue_snoc. by apply enqueue_sorted.
Qed.

Lemma filter_enqueue (P : Waiter A -> Prop) `{!forall w, Decision (P w)} w ws :
  StronglySorted not_after ws ->
  filter P (enqueue w ws) = if decide (P w) then enqueue w (filter P ws) else filter P ws.
Proof.
  induction 1 as [|v ws Hs IH Hv]; simpl.
  - rewrite filter_cons. done.
  - destruct (Z.ltb_spec (w_op w) (w_op v)).
    + rewrite (filter_cons _ w). destruct (decide (P w)); [|done]. rewrite enqueue_front; [done|].
      apply Forall_forall. intros x [_ Hx]%list_elem_of_filter. rewrite Forall_forall in Hv.
      apply elem_of_cons in Hx as [->|Hx]; [done|]. specialize (Hv x Hx). unfold not_after in Hv. lia.
    + rewrite !filter_cons, IH. destruct (decide (P v)), (decide (P w)); try done. by rewrite enqueue_behind.
Qed.

Lemma filter_sorted_queue (P : Waiter A -> Prop) `{!forall w, Decision (P w)} ws :
  filter P (sorted_queue ws) = sorted_queue (filter P ws).
Proof.
  induction ws as [|w ws IH] using rev_ind; [done|].
  rewrite sorted_queue_snoc, filter_enqueue, IH, filter_app, filter_cons by apply sorted_queue_sorted.
  destruct (decide (P w)); [by rewrite filter_nil, sorted_queue_snoc|by rewrite filter_nil, app_nil_r].
Qed.

Lemma oldest_split w ws o rest :
  oldest w ws = (o, rest) ->
  exists pre post, w :: ws = pre ++ o :: post /\ rest = pre ++ post /\
    Forall (λ v, w_op o < w_op v) pre /\ Forall (λ v, w_op o <= w_op v) post.
Proof.
  revert w o rest. induction ws as [|v ws IH]; intros w o rest; simpl; [intros [= <- <-]; by exists [], []|].
  destruct (oldest v ws) as [o' rest'] eqn:E. destruct (IH _ _ _ E) as (pre & post & -> & -> & Hpre & Hpost).
  destruct (Z.ltb_spec (w_op o') (w_op w)); intros [= <- <-].
  - exists (w :: pre), post. split_and!; by try constructor.
  - exists [], (pre ++ o' :: post). split_and!; [done..|].
    apply Forall_app; split; [eapply Forall_impl; [exact Hpre|]|constructor; [|eapply Forall_impl; [exact Hpost|]]];
      simpl; intros; lia.
Qed.

Lemma sorted_queue_oldest w ws o rest :
  oldest w ws = (o, rest) -> sorted_queue (w :: ws) = o :: sorted_queue rest.
Proof.
  intros (pre & post & -> & -> & Hpre & Hpost)%oldest_split. unfold sorted_queue.
  assert (Forall (λ v, w_op o < w_op v) (@nil (Waiter A))) as Hacc by constructor. revert Hacc.
  generalize (@nil (Waiter A)) as acc. induction Hpre as [|p pre Hp _ IH]; intros acc Hacc; simpl.
  - rewrite enqueue_front by done. clear Hacc. revert acc. induction Hpost as [|v post Hv _ IH]; intros acc; simpl; [done|].
    rewrite <- IH. simpl. by rewrite (proj2 (Z.ltb_ge (w_op v) (w_op o))).
  - apply IH. rewrite enqueue_perm. by constructor.
Qed.

(** ** Refinement *)

Definition lock_rep l (q : Queue) : Prop :=
  current_holder l = q_holder q /\ waiters l = sorted_queue (q_waiting q) /\
  (q_holder q = None -> q_waiting q = []).

Lemma grant_rep h ws :
  let '(l', fired) := grant_front (mkNative h (sorted_queue ws)) in
  h = None -> lock_rep l' (q_grant ws).1 /\ fired = (q_grant ws).2.
Proof.
  unfold grant_front, q_grant. destruct ws as [|w ws]; simpl; [by intros ->|].
  destruct (oldest w ws) as [o rest] eqn:E. rewrite (sorted_queue_oldest _ _ _ _ E). intros _; by repeat split.
Qed.

Lemma lock_step_rep l q op :
  lock_rep l q ->
  lock_rep (lock_step l op).1.1 (q_step q op).1.1 /\
  (lock_step l op).1.2 = (q_step q op).1.2 /\ (lock_step l op).2 = (q_step q op).2.
Proof.
  destruct l as [h ws], q as [h' qs]. unfold lock_rep at 1. simpl. intros (-> & -> & Hnone). destruct op as [w| |n]; simpl.
  - destruct h' as [h|]; simpl.
    + by rewrite <- sorted_queue_snoc.
    + rewrite <- sorted_queue_snoc. unfold request. simpl. pose proof (grant_rep None (qs ++ [w])) as HG.
      rewrite Hnone in * by done. simpl in *. by split_and!.
  - unfold release. simpl. pose proof (grant_rep None qs) as HG. destruct (grant_front _) as [l' f].
    destruct HG as [? ->]; [done|]. by split_and!.
  - unfold handle_node_death. simpl. rewrite filter_sorted_queue. unfold held_by. simpl. destruct h' as [h|]; simpl.
    + destruct (_ =? _); [|by split_and!]. unfold release. simpl.
      pose proof (grant_rep None (filter (λ w, w_node w <> n) qs)) as HG. destruct (grant_front _) as [l' f].
      destruct HG as [? ->]; [done|]. by split_and!.
    + split_and!; try done. split_and!; try done. intros _. simpl. by rewrite Hnone.
Qed.

Lemma grant_count l :
  (grant_front l).2 ++ map on_granted (waiters (grant_front l).1) = map on_granted (waiters l).
Proof. unfold grant_front. by destruct (waiters l) as [|w ws] eqn:E; simpl; rewrite ?E. Qed.

Lemma lock_step_fires l op :
  (lock_step l op).1.2 ++ map on_granted (waiters (lock_step l op).1.1) ⊆+
  requested [op] ++ map on_granted (waiters l).
Proof.
  destruct op as [w| |n]; simpl.
  - unfold request. destruct (current_holder l) as [h|] eqn:Eh; simpl; [by rewrite enqueue_perm|].
    rewrite grant_count. simpl. by rewrite enqueue_perm.
  - unfold release. by rewrite grant_count.
  - assert (map on_granted (filter (λ w, w_node w <> n) (waiters l)) ⊆+ map on_granted (waiters l)) as HS.
    { apply fmap_submseteq, sublist_submseteq, sublist_filter. }
    unfold handle_node_death. destruct (held_by _ _); simpl; [unfold release; by rewrite grant_count|done].
Qed.
End lock.

(** C9: a datum's lock is a wound-wait lock over a queue of arrivals: over any
    history of requests, releases and confirmed node deaths it holds, grants and
    answers exactly as the reference does, in which a free lock is granted at once,
    a request older than the holder asks for a recall of exactly that holder, any
    other waits, and every release grants to the oldest operation, among its
    requests the first to come; a free lock has nobody waiting; the kept queue is
    the arrivals sorted by operation id; and no request is ever granted twice or
    granted while it still waits. *)
Theorem native_lock_is_wound_wait {A} (ops : list (LockOp (A := A))) :
  let '(l, log) := run_with lock_step NativeLock_new ops in
  let '(q, qlog) := run_with q_step (mkQueue None []) ops in
  log = qlog /\ current_holder l = q_holder q /\ waiters l = sorted_queue (q_waiting q) /\
  (current_holder l = None -> waiters l = []) /\ StronglySorted not_after (waiters l) /\
  flat_map fst log ++ map on_granted (waiters l) ⊆+ requested ops.
Proof.
  assert (lock_rep NativeLock_new (mkQueue (A := A) None [])) as Hrep by done.
  assert (map on_granted (waiters (@NativeLock_new A)) = []) as Hw by done.
  revert Hrep. generalize dependent (mkQueue (A := A) None []). rewrite <- (app_nil_l (requested ops)), <- Hw. clear Hw.
  generalize (@NativeLock_new A) as l. induction ops as [|op ops IH]; intros l q Hrep; simpl.
  - destruct Hrep as (-> & -> & Hn). rewrite app_nil_r. split_and!; try done; [|apply sorted_queue_sorted].
    by intros ->%Hn.
  - pose proof (lock_step_rep l q op Hrep) as (Hrep' & Hf & Ho). pose proof (lock_step_fires l op) as HF.
    destruct (lock_step l op) as [[l1 f1] o1], (q_step q op) as [[q1 g1] p1]. simpl in *. subst g1 p1.
    specialize (IH l1 q1 Hrep'). destruct (run_with lock_step l1 ops) as [l' log], (run_with q_step q1 ops) as [q' qlog].
    destruct IH as (-> & Hh & Hq & Hn & Hs & Hsub). split_and!; try done. simpl.
    rewrite <- app_assoc. etrans; [apply submseteq_app; [done|exact Hsub]|]. rewrite (app_assoc f1).
    etrans; [apply submseteq_app; [exact HF|done]|]. apply Permutation_submseteq. simpl. rewrite app_nil_r.
    rewrite app_assoc. apply Permutation_app; [apply Permutation_app_comm|done].
Qed.
