(* ===== verification/OpContext.v ===== *)
(** * seisin-ops: what an operation reads and writes

    Models [crates/seisin-ops/src/context.rs] and [registry.rs]: the staged
    writes, index updates and existence checks of one running operation, the
    table of operations, and the commit of the staged writes that
    [crates/seisin-node/src/worker.rs] performs. A solution's operation is code
    outside the repository; what it can do is call the context, so a handler is
    the tree of its calls. *)

From S2P Require Import Prelude Core Cache Names.

(** ** context.rs *)

Record PendingIndexUpdate := mkIndexUpdate { pu_target : DatumId; pu_index_kind : bytes; pu_payload : bytes }.

Inductive FkMissingPolicy :=
| Reject
| Track (pending_datum : DatumId) (index_kind entry : bytes).

Inductive Expectation :=
| Present (on_missing : FkMissingPolicy)
| Absent (message : bytes).

Record PendingExistsCheck := mkExistsCheck { ck_target : DatumId; expect : Expectation }.

Record OpContext (S : Type) := mkCtx {
  ctx_cache : Cache S;
  staged : gmap DatumId (option bytes * Z);
  pending_index_updates : list PendingIndexUpdate;
  pending_exists_checks : list PendingExistsCheck
}.
Arguments mkCtx {S} _ _ _ _.
Arguments ctx_cache {S} _.
Arguments staged {S} _.
Arguments pending_index_updates {S} _.
Arguments pending_exists_checks {S} _.

(** A staged write with the replication factor it commits at. *)
Definition staged_write : Type := DatumId * option bytes * Z.

(** ** A handler *)

Inductive OpProgram :=
| Return (result : bytes)
| Panics
| Get (id : DatumId) (n : Z) (k : option bytes -> OpProgram)
| Put (id : DatumId) (content : bytes) (n : Z) (k : OpProgram)
| Delete (id : DatumId) (n : Z) (k : OpProgram)
| Schedule (u : PendingIndexUpdate) (k : OpProgram)
| ScheduleCheck (c : PendingExistsCheck) (k : OpProgram).

Definition OpHandler : Type := list DatumId -> bytes -> OpProgram.

Definition OpRegistry : Type := gmap bytes OpHandler.

Definition register (r : OpRegistry) (name : bytes) (handler : OpHandler) : OpRegistry := <[name := handler]> r.

(** [Result<Vec<u8>, String>] *)
Inductive OpReply := ReplyOk (payload : bytes) | ReplyErr (message : bytes).

Section context.
Context {S : Type} `{StoreOps S}.
Implicit Types (ctx : OpContext S) (c : Cache S).

Definition OpContext_new c : OpContext S := mkCtx c ∅ [] [].

Definition ctx_get_replicated ctx (id : DatumId) (n : Z) : option bytes * OpContext S :=
  match staged ctx !! id with
  | Some (value, _) => (value, ctx)
  | None =>
      let '(value, c) := get_replicated (ctx_cache ctx) id n in
      (value, mkCtx c (staged ctx) (pending_index_updates ctx) (pending_exists_checks ctx))
  end.

Definition stage ctx (id : DatumId) (value : option bytes) (n : Z) : OpContext S :=
  mkCtx (ctx_cache ctx) (<[id := (value, n)]> (staged ctx)) (pending_index_updates ctx) (pending_exists_checks ctx).

Definition ctx_get ctx id := ctx_get_replicated ctx id 1.
Definition ctx_put_replicated ctx id (content : bytes) (n : Z) := stage ctx id (Some content) n.
Definition ctx_put ctx id content := stage ctx id (Some content) 1.
Definition ctx_delete_replicated ctx id (n : Z) := stage ctx id None n.
Definition ctx_delete ctx id := stage ctx id None 1.

Definition schedule_index_update ctx (u : PendingIndexUpdate) : OpContext S :=
  mkCtx (ctx_cache ctx) (staged ctx) (pending_index_updates ctx ++ [u]) (pending_exists_checks ctx).

Definition schedule_exists_check ctx (k : PendingExistsCheck) : OpContext S :=
  mkCtx (ctx_cache ctx) (staged ctx) (pending_index_updates ctx) (pending_exists_checks ctx ++ [k]).

(** The drained map, in the order of its traversal. *)
Definition take_staged_writes ctx : list staged_write := map (λ '(id, (value, n)), (id, value, n)) (map_to_list (staged ctx)).

(** ** registry.rs *)

Fixpoint run_program (p : OpProgram) ctx : OpContext S * option bytes :=
  match p with
  | Return result => (ctx, Some result)
  | Panics => (ctx, None)
  | Get id n k => let '(value, ctx) := ctx_get_replicated ctx id n in run_program (k value) ctx
  | Put id content n k => run_program k (ctx_put_replicated ctx id content n)
  | Delete id n k => run_program k (ctx_delete_replicated ctx id n)
  | Schedule u k => run_program k (schedule_index_update ctx u)
  | ScheduleCheck c k => run_program k (schedule_exists_check ctx c)
  end.

Definition invoke (r : OpRegistry) (name : bytes) ctx (datum_ids : list DatumId) (payload : bytes)
    : OpContext S * OpReply :=
  match r !! name with
  | None => (ctx, ReplyErr (lit "unknown op: " ++ name))
  | Some handler =>
      match run_program (handler datum_ids payload) ctx with
      | (ctx, Some result) => (ctx, ReplyOk result)
      | (ctx, None) => (ctx, ReplyErr (lit "op '" ++ name ++ lit "' panicked"))
      end
  end.

(** ** The commit of worker.rs *)

Definition commit_write c (w : staged_write) : Cache S :=
  let '(id, content, n) := w in
  match content with
  | Some bs => put_replicated c id bs n
  | None => delete_replicated c id n
  end.

Definition commit_writes c (ws : list staged_write) : Cache S := fold_left commit_write ws c.

(** ** An operation over a plain map *)

Record Effects := mkEffects { e_updates : list PendingIndexUpdate; e_checks : list PendingExistsCheck }.

Fixpoint spec_program (p : OpProgram) (m : gmap DatumId bytes) (e : Effects)
    : gmap DatumId bytes * Effects * option bytes :=
  match p with
  | Return result => (m, e, Some result)
  | Panics => (m, e, None)
  | Get id _ k => spec_program (k (m !! id)) m e
  | Put id content _ k => spec_program k (<[id := content]> m) e
  | Delete id _ k => spec_program k (delete id m) e
  | Schedule u k => spec_program k m (mkEffects (e_updates e ++ [u]) (e_checks e))
  | ScheduleCheck c k => spec_program k m (mkEffects (e_updates e) (e_checks e ++ [c]))
  end.

Definition apply_write (m : gmap DatumId bytes) (w : staged_write) : gmap DatumId bytes :=
  let '(id, content, _) := w in match content with Some bs => <[id := bs]> m | None => delete id m end.

Context `{!StoreLaws S}.

(** What the operation sees: the staged value of an id, else the stored one. *)
Definition overlay (st : gmap DatumId (option bytes * Z)) (m : gmap DatumId bytes) : gmap DatumId bytes :=
  merge (λ s v, match s with Some (value, _) => value | None => v end) st m.

Lemma lookup_overlay st m id :
  overlay st m !! id = match st !! id with Some (value, _) => value | None => m !! id end.
Proof. unfold overlay. rewrite lookup_merge. by destruct (st !! id) as [[]|], (m !! id). Qed.

Lemma overlay_stage st m id value n :
  overlay (<[id := (value, n)]> st) m =
  match value with Some bs => <[id := bs]> (overlay st m) | None => delete id (overlay st m) end.
Proof.
  apply map_eq. intros i. rewrite lookup_overlay. destruct (decide (i = id)) as [->|Hne].
  - destruct value; by simplify_map_eq.
  - rewrite lookup_insert_ne by done. destruct value; rewrite ?lookup_insert_ne, ?lookup_delete_ne, lookup_overlay by done; done.
Qed.

Definition ctx_view ctx : gmap DatumId bytes := overlay (staged ctx) (cache_view (ctx_cache ctx)).
Definition ctx_effects ctx : Effects := mkEffects (pending_index_updates ctx) (pending_exists_checks ctx).

Lemma ctx_get_spec ctx id n :
  coherent (ctx_cache ctx) ->
  let '(value, ctx') := ctx_get_replicated ctx id n in
  value = ctx_view ctx !! id /\ ctx_view ctx' = ctx_view ctx /\ ctx_effects ctx' = ctx_effects ctx /\
  coherent (ctx_cache ctx') /\ cache_view (ctx_cache ctx') = cache_view (ctx_cache ctx) /\ staged ctx' = staged ctx.
Proof.
  intros Hc. unfold ctx_get_replicated, ctx_view. rewrite lookup_overlay.
  destruct (staged ctx !! id) as [[value m]|] eqn:E; [done|].
  pose proof (get_value _ id n Hc) as E1. pose proof (get_view (ctx_cache ctx) id n) as E2.
  pose proof (get_coherent _ id n Hc) as E3. destruct (get_replicated _ id n) as [v c]. simpl in *.
  by rewrite E2.
Qed.

Lemma run_program_spec p ctx :
  coherent (ctx_cache ctx) ->
  let '(ctx', result) := run_program p ctx in
  spec_program p (ctx_view ctx) (ctx_effects ctx) = (ctx_view ctx', ctx_effects ctx', result) /\
  coherent (ctx_cache ctx') /\ cache_view (ctx_cache ctx') = cache_view (ctx_cache ctx).
Proof.
  revert ctx. induction p as [r| |id n k IH|id content n k IH|id n k IH|u k IH|c k IH]; intros ctx Hc; simpl; try done.
  - pose proof (ctx_get_spec ctx id n Hc) as HG. destruct (ctx_get_replicated ctx id n) as [v ctx'].
    destruct HG as (-> & Hv & He & Hc' & Hs & _). specialize (IH (ctx_view ctx !! id) ctx' Hc').
    destruct (run_program _ ctx') as [ctx'' r]. by rewrite Hv, He, Hs in IH.
  - specialize (IH (ctx_put_replicated ctx id content n) Hc). destruct (run_program k _) as [ctx' r].
    unfold ctx_view at 1 in IH. simpl in IH. by rewrite overlay_stage in IH.
  - specialize (IH (ctx_delete_replicated ctx id n) Hc). destruct (run_program k _) as [ctx' r].
    unfold ctx_view at 1 in IH. simpl in IH. by rewrite overlay_stage in IH.
  - exact (IH (schedule_index_update ctx u) Hc).
  - exact (IH (schedule_exists_check ctx c) Hc).
Qed.

Lemma commit_write_spec c w :
  coherent c -> cache_view (commit_write c w) = apply_write (cache_view c) w /\ coherent (commit_write c w).
Proof.
  intros Hc. destruct w as [[id [bs|]] n]; simpl.
  - by split; [apply put_view|apply put_coherent].
  - by split; [apply delete_view|apply delete_coherent].
Qed.

Lemma commit_writes_spec c ws :
  coherent c ->
  cache_view (commit_writes c ws) = fold_left apply_write ws (cache_view c) /\ coherent (commit_writes c ws).
Proof.
  revert c. induction ws as [|w ws IH]; intros c Hc; [done|]. simpl.
  destruct (commit_write_spec c w Hc) as [E Hc']. destruct (IH _ Hc') as [E' ?]. split; [|done].
  rewrite <- E. exact E'.
Qed.

(** Writes to different ids commit to the same content in any order. *)
Lemma apply_writes_lookup ws m id :
  NoDup (map (λ w : staged_write, w.1.1) ws) ->
  fold_left apply_write ws m !! id =
  match list_find (λ w : staged_write, w.1.1 = id) ws with Some (_, w) => w.1.2 | None => m !! id end.
Proof.
  revert m. induction ws as [|[[i v] n] ws IH]; intros m Hnd; [done|].
  simpl in Hnd. apply NoDup_cons in Hnd as [Hi Hnd]. simpl. rewrite IH by done.
  destruct (decide (i = id)) as [->|Hne].
  - replace (list_find (λ w : staged_write, w.1.1 = id) ws) with (@None (nat * staged_write)).
    + destruct v; by simplify_map_eq.
    + symmetry. apply list_find_None, Forall_forall. intros w Hw E. apply Hi. rewrite <- E. apply list_elem_of_fmap. by exists w.
  - destruct (list_find (λ w : staged_write, w.1.1 = id) ws) as [[k w]|]; simpl; [done|]. destruct v; by rewrite ?lookup_insert_ne, ?lookup_delete_ne.
Qed.

Lemma apply_staged st m ws :
  ws ≡ₚ map (λ '(id, (value, n)), (id, value, n)) (map_to_list st) ->
  fold_left apply_write ws m = overlay st m.
Proof.
  intros Hp. assert (map (λ w : staged_write, w.1.1) ws ≡ₚ map fst (map_to_list st)) as Hk.
  { rewrite Hp, map_map. apply reflexive_eq, map_ext. by intros [? []]. }
  apply map_eq. intros id. 
  assert (NoDup (map (λ w : staged_write, w.1.1) ws)) as Hnd by (rewrite Hk; apply NoDup_fst_map_to_list).
  rewrite (apply_writes_lookup _ _ _ Hnd), lookup_overlay.
  destruct (list_find (λ w : staged_write, w.1.1 = id) ws) as [[k w]|] eqn:E.
  - apply list_find_Some in E as (Hw & <- & _). apply list_elem_of_lookup_2 in Hw. rewrite Hp in Hw.
    apply list_elem_of_fmap in Hw as ([i [v n]] & -> & Hw). apply elem_of_map_to_list in Hw. simpl. by rewrite Hw.
  - apply list_find_None in E. destruct (st !! id) as [[v n]|] eqn:Es; [|done].
    rewrite Forall_forall in E. exfalso. apply (E (id, v, n)); [|done].
    rewrite Hp. apply list_elem_of_fmap. exists (id, (v, n)). by rewrite elem_of_map_to_list.
Qed.
End context.

Lemma invoke_spec {S} `{StoreLaws S} (r : OpRegistry) (name : bytes) (c : Cache S)
    (datum_ids : list DatumId) (payload : bytes) (writes : list staged_write) :
  coherent c ->
  let '(ctx, reply) := invoke r name (OpContext_new c) datum_ids payload in
  cache_view (ctx_cache ctx) = cache_view c /\ coherent (ctx_cache ctx) /\
  match r !! name with
  | None => reply = ReplyErr (lit "unknown op: " ++ name)
  | Some handler =>
      let '(m, e, result) := spec_program (handler datum_ids payload) (cache_view c) (mkEffects [] []) in
      pending_index_updates ctx = e_updates e /\ pending_exists_checks ctx = e_checks e /\
      reply = match result with
              | Some bs => ReplyOk bs
              | None => ReplyErr (lit "op '" ++ name ++ lit "' panicked")
              end /\
      (writes ≡ₚ take_staged_writes ctx ->
       cache_view (commit_writes (ctx_cache ctx) writes) = m /\ coherent (commit_writes (ctx_cache ctx) writes))
  end.
Proof.
  intros Hc. unfold invoke. destruct (r !! name) as [handler|]; [|done].
  pose proof (run_program_spec (handler datum_ids payload) (OpContext_new c) Hc) as HR.
  assert (ctx_view (OpContext_new c) = cache_view c) as E.
  { apply map_eq. intros i. unfold ctx_view. by rewrite lookup_overlay. }
  rewrite E in HR. change (ctx_effects (OpContext_new c)) with (mkEffects [] []) in HR.
  destruct (run_program _ _) as [ctx [bs|]]; destruct HR as (-> & Hc' & Hv);
    (split_and!; [exact Hv|exact Hc'|done..|]); intros Hp;
    destruct (commit_writes_spec (ctx_cache ctx) writes Hc') as [E' ?]; (split; [|done]);
    rewrite E'; by apply apply_staged.
Qed.

(** An operation is one atomic step on the stored content. Running it changes
    nothing that is stored; it sees its own staged writes over the stored values,
    schedules exactly the updates and checks, and answers exactly what its handler
    would over a plain map; and committing what it staged, in whatever order the
    staging map is traversed, makes the stored content that map's final value. An
    unknown name and a panicking handler are answered with their messages. *)
Theorem operation_is_atomic {S} `{StoreLaws S} (r : OpRegistry) (name : bytes) (c : Cache S)
    (datum_ids : list DatumId) (payload : bytes) (writes : list staged_write) :
  coherent c ->
  let '(ctx, reply) := invoke r name (OpContext_new c) datum_ids payload in
  cache_view (ctx_cache ctx) = cache_view c /\ coherent (ctx_cache ctx) /\
  match r !! name with
  | None => reply = ReplyErr (lit "unknown op: " ++ name)
  | Some handler =>
      let '(m, e, result) := spec_program (handler datum_ids payload) (cache_view c) (mkEffects [] []) in
      pending_index_updates ctx = e_updates e /\ pending_exists_checks ctx = e_checks e /\
      reply = match result with
              | Some bs => ReplyOk bs
              | None => ReplyErr (lit "op '" ++ name ++ lit "' panicked")
              end /\
      (writes ≡ₚ take_staged_writes ctx ->
       cache_view (commit_writes (ctx_cache ctx) writes) = m /\ coherent (commit_writes (ctx_cache ctx) writes))
  end.
Proof. apply invoke_spec. Qed.

(** Appends the payload to the first datum, then drops the second. *)
Definition demo_handler : OpHandler := λ ids payload,
  match ids with
  | [a; b] => Get a 1 (λ v, Put a (default [] v ++ payload) 1 (Delete b 1 (Get a 1 (λ v, Return (default [] v)))))
  | _ => Panics
  end.

Lemma operation_is_atomic_witness :
  let r := register ∅ (lit "append") demo_handler in
  let c := cache_put (cache_put (Cache_new InMemoryStore_new) 1 (lit "ab")) 2 (lit "x") in
  let ctx := (invoke r (lit "append") (OpContext_new c) [1; 2] (lit "c")).1 in
  coherent c /\ (invoke r (lit "append") (OpContext_new c) [1; 2] (lit "c")).2 = ReplyOk (lit "abc") /\
  cache_view (commit_writes (ctx_cache ctx) (take_staged_writes ctx)) = {[1 := lit "abc"]}.
Proof.
  intros r c ctx. assert (coherent c) as Hc by (apply put_coherent, put_coherent, new_coherent).
  pose proof (operation_is_atomic r (lit "append") c [1; 2] (lit "c") (take_staged_writes ctx) Hc) as HT.
  split; [exact Hc|]. split; [by vm_compute|]. subst ctx. destruct (invoke _ _ _ _ _) as [ctx reply].
  destruct HT as (_ & _ & _ & _ & _ & HT). refine (eq_trans (proj1 (HT (reflexivity _))) _). by vm_compute.
Defined.
