(* ===== verification/Worker.v ===== *)
(** * seisin-node: the owning thread

    Models [crates/seisin-node/src/worker.rs]: the state of one owning thread and
    what it does with each message of its inbox. A message handler is a function
    from the thread's state to its new state and the messages, calls and answers
    it emits, in order; a boxed callback is the data it captures, and [continue]
    is what it posts when the response comes. An [Arc<PeerLink>] and a channel to
    a blocked caller are numbers. The traversal order of a [HashMap] is the one of
    [map_to_list]. *)

From S2P Require Import Prelude Core Cache Names Ring Pages Messages Responses Indexes Collation OpContext.

Definition MAX_ACQUIRE_RETRIES : Z := 3.

(** [AcquireReply], [RecallReply] and [IndexUpdateReply]: the inbox of a thread of
    this node, or a peer link and the call it answers. *)
Inductive PeerReply := Local (inbox : ThreadId) | Remote (link correlation_id : Z).

Inductive ExistsReply := ExistsTo (reply : PeerReply) | ExistsSync (tx : Z).

Inductive WorkerMessage :=
| RunOp (op_id : DatumId) (op_name : bytes) (datum_ids : list DatumId) (payload : bytes) (tx : Z)
| Acquire (op_id datum_id : DatumId) (requester_node : NodeId) (requester_thread : ThreadId) (reply : PeerReply)
| AcquireGranted (op_id datum_id : DatumId)
| AcquireFailed (op_id datum_id : DatumId) (retries_left : Z)
| Recall (datum_id : DatumId) (reply : PeerReply)
| Release (datum_id : DatumId)
| EvictNonNative (is_native : DatumId -> bool)
| ReleaseLocksHeldBy (node_id : NodeId)
| IndexUpdate (target op_id : DatumId) (index_kind payload : bytes) (reply : PeerReply)
| IndexUpdateReplied (op_id target : DatumId) (violation : option bytes)
| IndexQuery (target : DatumId) (index_kind query : bytes) (tx : Z)
| IndexExecute (target : DatumId) (index_kind payload : bytes) (tx : Z)
| ExistsCheck (datum_id op_id : DatumId) (reply : ExistsReply)
| ExistsCheckReplied (op_id target : DatumId) (exists_ : bool).

(** What a callback passed to [PeerLink::call] captures. *)
Inductive Callback :=
| OnAcquire (op_id datum_id : DatumId) (retries_left : Z)
| OnRecall (datum_id : DatumId)
| OnRelease
| OnIndexUpdate (op_id target : DatumId)
| OnExists (op_id target : DatumId).

Inductive Effect :=
| Send (inbox : ThreadId) (m : WorkerMessage)
| Call (node : NodeId) (target_thread : ThreadId) (request : Request.t) (k : Callback)
| Respond (link correlation_id : Z) (response : Response.t)
| Answer (tx : Z) (reply : OpReply)
| AnswerExists (tx : Z) (exists_ : bool).

(** A waiter's callback: where its grant goes and what it says. *)
Record Grant := mkGrant { g_reply : PeerReply; g_op : DatumId; g_datum : DatumId }.

Record IndexUpdateState := mkState {
  staged_writes : list staged_write;
  op_result : bytes;
  pending : Z;
  st_violation : option bytes;
  exists_expectations : gmap DatumId Expectation
}.

Record OpRecord := mkRecord {
  op_name : bytes;
  op_payload : bytes;
  op_datum_ids : list DatumId;
  still_needed : list DatumId;
  acquired : list DatumId;
  op_tx : Z;
  index_update_state : option IndexUpdateState
}.

Record Worker (S R : Type) := mkWorker {
  cache : Cache S;
  native_locks : gmap DatumId (NativeLock Grant);
  op_records : gmap DatumId OpRecord;
  resident_indexes : gmap DatumId R
}.
Arguments mkWorker {S R} _ _ _ _.
Arguments cache {S R} _.
Arguments native_locks {S R} _.
Arguments op_records {S R} _.
Arguments resident_indexes {S R} _.

(** What [spawn] captures. [linked] says whether the registry has a link to a node. *)
Record Env (R : Type) := mkEnv {
  self_thread_id : ThreadId;
  self_node_id : NodeId;
  peers : Z;
  ring : Ring;
  linked : NodeId -> bool;
  ops : OpRegistry;
  index_kinds : gmap bytes (DatumId -> option bytes -> res R)
}.
Arguments mkEnv {R} _ _ _ _ _ _ _.
Arguments self_thread_id {R} _.
Arguments self_node_id {R} _.
Arguments peers {R} _.
Arguments ring {R} _.
Arguments linked {R} _.
Arguments ops {R} _.
Arguments index_kinds {R} _.

Definition grant (g : Grant) : Effect :=
  match g_reply g with
  | Local inbox => Send inbox (AcquireGranted (g_op g) (g_datum g))
  | Remote link correlation_id => Respond link correlation_id Response.Granted
  end.

Definition ack (reply : PeerReply) (datum_id : DatumId) : Effect :=
  match reply with
  | Local inbox => Send inbox (Release datum_id)
  | Remote link correlation_id => Respond link correlation_id Response.Released
  end.

Definition respond_update (reply : PeerReply) (op_id target : DatumId) (violation : option bytes) : Effect :=
  match reply with
  | Local inbox => Send inbox (IndexUpdateReplied op_id target violation)
  | Remote link correlation_id => Respond link correlation_id (Response.IndexUpdateResult violation)
  end.

Definition respond_exists (reply : ExistsReply) (op_id target : DatumId) (exists_ : bool) : Effect :=
  match reply with
  | ExistsTo (Local inbox) => Send inbox (ExistsCheckReplied op_id target exists_)
  | ExistsTo (Remote link correlation_id) => Respond link correlation_id (Response.Exists exists_)
  | ExistsSync tx => AnswerExists tx exists_
  end.

Section worker.
Context {S R : Type} `{StoreOps S} `{ResidentIndex R}.
Implicit Types (w : Worker S R) (e : Env R).

(** The [Debug] renderings the messages to clients quote. *)
Variables (show_id : DatumId -> bytes) (show_node : NodeId -> bytes) (show_str : bytes -> bytes)
  (show_response : Response.t -> bytes).

(** What the callback of a call posts to the caller's inbox. *)
Definition continue (k : Callback) (response : Response.t) : option WorkerMessage :=
  match k with
  | OnAcquire op_id datum_id retries_left =>
      Some (match response with
            | Response.Granted => AcquireGranted op_id datum_id
            | _ => AcquireFailed op_id datum_id retries_left
            end)
  | OnRecall datum_id => Some (Release datum_id)
  | OnRelease => None
  | OnIndexUpdate op_id target =>
      Some (IndexUpdateReplied op_id target
        (match response with
         | Response.IndexUpdateResult violation => violation
         | other => Some (lit "unexpected response applying index update to " ++ show_id target ++ lit ": " ++
                          show_response other)
         end))
  | OnExists op_id target =>
      Some (ExistsCheckReplied op_id target (match response with Response.Exists true => true | _ => false end))
  end.

Definition with_cache w (c : Cache S) := mkWorker c (native_locks w) (op_records w) (resident_indexes w).
Definition with_locks w l := mkWorker (cache w) l (op_records w) (resident_indexes w).
Definition with_records w r := mkWorker (cache w) (native_locks w) r (resident_indexes w).
Definition with_residents w (r : gmap DatumId R) := mkWorker (cache w) (native_locks w) (op_records w) r.

(** [peers[thread]] *)
Definition peer e (thread : ThreadId) : res ThreadId := if (0 <=? thread) && (thread <? peers e) then Ok thread else Panic.

(** A loop that emits. *)
Fixpoint emit_all {A} (f : A -> res (list Effect)) (l : list A) : res (list Effect) :=
  match l with
  | [] => Ok []
  | x :: l => es ← f x; rest ← emit_all f l; Ok (es ++ rest)
  end.

(** The split every dispatch makes: a thread of this node, a linked node, or neither. *)
Definition route e (datum_id : DatumId) (local : ThreadId -> Effect) (remote : NodeId -> ThreadId -> Effect)
    (unlinked : NodeId -> list Effect) : res (list Effect) :=
  '(native_node, native_thread) ← native (ring e) datum_id;
  if native_node =? self_node_id e then thread ← peer e native_thread; Ok [local thread]
  else if linked e native_node then Ok [remote native_node native_thread]
  else Ok (unlinked native_node).

Definition send_acquire e (op_id : DatumId) (retries_left : Z) (datum_id : DatumId) : res (list Effect) :=
  route e datum_id
    (λ thread, Send thread (Acquire op_id datum_id (self_node_id e) (self_thread_id e) (Local (self_thread_id e))))
    (λ node thread, Call node thread (Request.Acquire op_id datum_id (self_node_id e) (self_thread_id e))
       (OnAcquire op_id datum_id retries_left))
    (λ _, [Send (self_thread_id e) (AcquireFailed op_id datum_id retries_left)]).

Definition dispatch_exists_check e (op_id target : DatumId) : res (list Effect) :=
  route e target
    (λ thread, Send thread (ExistsCheck target op_id (ExistsTo (Local (self_thread_id e)))))
    (λ node thread, Call node thread (Request.ExistsCheck target) (OnExists op_id target))
    (λ _, [Send (self_thread_id e) (ExistsCheckReplied op_id target false)]).

Definition dispatch_index_update e (op_id : DatumId) (u : PendingIndexUpdate) : res (list Effect) :=
  let target := pu_target u in
  route e target
    (λ thread, Send thread (IndexUpdate target op_id (pu_index_kind u) (pu_payload u) (Local (self_thread_id e))))
    (λ node thread, Call node thread (Request.IndexUpdate target op_id (pu_index_kind u) (pu_payload u))
       (OnIndexUpdate op_id target))
    (λ node, [Send (self_thread_id e) (IndexUpdateReplied op_id target
                (Some (lit "no peer-link connection to node " ++ show_node node)))]).

Definition release_one e (datum_id : DatumId) : res (list Effect) :=
  route e datum_id
    (λ thread, Send thread (Release datum_id))
    (λ node thread, Call node thread (Request.Release datum_id) OnRelease)
    (λ _, []).

Definition release_datums e w (datum_ids : list DatumId) : res (Worker S R * list Effect) :=
  es ← emit_all (release_one e) datum_ids;
  Ok (with_cache w (fold_left invalidate datum_ids (cache w)), es).
(** [op_records.remove(&op_id).unwrap()], the answer, then the release of what it held. *)
Definition finish_op e w (op_id : DatumId) (record : OpRecord) (reply : OpReply) : res (Worker S R * list Effect) :=
  '(w, es) ← release_datums e (with_records w (delete op_id (op_records w))) (acquired record);
  Ok (w, Answer (op_tx record) reply :: es).

Definition fail_op e w (op_id : DatumId) (message : bytes) : res (Worker S R * list Effect) :=
  match op_records w !! op_id with
  | Some record => finish_op e w op_id record (ReplyErr message)
  | None => Ok (w, [])
  end.

Definition set_record w (op_id : DatumId) (record : OpRecord) : Worker S R :=
  with_records w (<[op_id := record]> (op_records w)).

Definition with_state (r : OpRecord) (st : IndexUpdateState) : OpRecord :=
  mkRecord (op_name r) (op_payload r) (op_datum_ids r) (still_needed r) (acquired r) (op_tx r) (Some st).

Definition is_ready (r : OpRecord) : bool :=
  match still_needed r, index_update_state r with [], None => true | _, _ => false end.

(** The operation has run and must wait for its updates and checks. *)
Definition start_waiting e w (op_id : DatumId) (record : OpRecord) (op_result : bytes) (writes : list staged_write)
    (updates : list PendingIndexUpdate) (checks : list PendingExistsCheck) : res (Worker S R * list Effect) :=
  let expectations := fold_left (λ m c, <[ck_target c := expect c]> m) checks (∅ : gmap DatumId Expectation) in
  let state := mkState writes op_result (zlen updates + zlen checks) None expectations in
  us ← emit_all (dispatch_index_update e op_id) updates;
  cs ← emit_all (dispatch_exists_check e op_id) (map ck_target checks);
  Ok (set_record w op_id (with_state record state), us ++ cs).

Definition try_run_if_ready e w (op_id : DatumId) : res (Worker S R * list Effect) :=
  match op_records w !! op_id with
  | Some record =>
      if negb (is_ready record) then Ok (w, []) else
      let '(ctx, result) :=
        invoke (ops e) (op_name record) (OpContext_new (cache w)) (op_datum_ids record) (op_payload record) in
      let w := with_cache w (ctx_cache ctx) in
      match result with
      | ReplyErr message => finish_op e w op_id record (ReplyErr message)
      | ReplyOk op_result =>
          match pending_index_updates ctx, pending_exists_checks ctx with
          | [], [] =>
              finish_op e (with_cache w (commit_writes (cache w) (take_staged_writes ctx))) op_id record (ReplyOk op_result)
          | updates, checks =>
              start_waiting e w op_id record op_result (take_staged_writes ctx) updates checks
          end
      end
  | None => Ok (w, [])
  end.

Definition finish_op_if_settled e w (op_id : DatumId) : res (Worker S R * list Effect) :=
  match op_records w !! op_id with
  | Some record =>
      match index_update_state record with
      | Some state =>
          if pending state =? 0 then
            match st_violation state with
            | Some message => finish_op e w op_id record (ReplyErr message)
            | None =>
                finish_op e (with_cache w (commit_writes (cache w) (staged_writes state))) op_id record
                  (ReplyOk (op_result state))
            end
          else Ok (w, [])
      | None => Ok (w, [])
      end
  | None => Ok (w, [])
  end.

(** Running [g] after [f]: the effects in order. *)
Definition and_then (x : res (Worker S R * list Effect)) (g : Worker S R -> res (Worker S R * list Effect)) :
    res (Worker S R * list Effect) :=
  '(w, es) ← x; '(w, es') ← g w; Ok (w, es ++ es').

(** ** Locks *)

Definition lock_of w (datum_id : DatumId) : NativeLock Grant := default NativeLock_new (native_locks w !! datum_id).

Definition handle_acquire e w (op_id datum_id : DatumId) (requester_node : NodeId) (requester_thread : ThreadId)
    (reply : PeerReply) : res (Worker S R * list Effect) :=
  let '(lock, fired, outcome) :=
    request (lock_of w datum_id) (mkWaiter op_id requester_node requester_thread (mkGrant reply op_id datum_id)) in
  let w := with_locks w (<[datum_id := lock]> (native_locks w)) in
  match outcome with
  | RecallNeeded holder =>
      let recall_reply := Local (self_thread_id e) in
      if h_node holder =? self_node_id e then
        thread ← peer e (h_thread holder);
        Ok (w, map grant fired ++ [Send thread (Recall datum_id recall_reply)])
      else if linked e (h_node holder) then
        Ok (w, map grant fired ++ [Call (h_node holder) (h_thread holder) (Request.Recall datum_id) (OnRecall datum_id)])
      else Ok (w, map grant fired ++ [Send (self_thread_id e) (Release datum_id)])
  | _ => Ok (w, map grant fired)
  end.

Definition handle_release w (datum_id : DatumId) : Worker S R * list Effect :=
  let w := with_cache w (invalidate (cache w) datum_id) in
  match native_locks w !! datum_id with
  | Some lock =>
      let '(lock, fired) := release lock in
      (with_locks w (<[datum_id := lock]> (native_locks w)), map grant fired)
  | None => (w, [])
  end.

(** One turn of the loop over the locks when [node_id] is dead. *)
Definition death_step (node_id : NodeId) (acc : Worker S R * list Effect) (entry : DatumId * NativeLock Grant)
    : Worker S R * list Effect :=
  let '(w, es) := acc in
  let '(datum_id, lock) := entry in
  let '(lock', fired) := handle_node_death lock node_id in
  let w := with_locks w (<[datum_id := lock']> (native_locks w)) in
  (if held_by lock node_id then with_cache w (invalidate (cache w) datum_id) else w, es ++ map grant fired).

Definition handle_death w (node_id : NodeId) : Worker S R * list Effect :=
  fold_left (death_step node_id) (map_to_list (native_locks w)) (w, []).

(** ** Operation records *)

Definition handle_run_op e w (op_id : DatumId) (name : bytes) (datum_ids : list DatumId) (payload : bytes) (tx : Z) :
    res (Worker S R * list Effect) :=
  let w := set_record w op_id (mkRecord name payload datum_ids datum_ids [] tx None) in
  and_then (es ← emit_all (send_acquire e op_id MAX_ACQUIRE_RETRIES) datum_ids; Ok (w, es))
    (λ w, try_run_if_ready e w op_id).

Definition set_locks (r : OpRecord) (needed held : list DatumId) : OpRecord :=
  mkRecord (op_name r) (op_payload r) (op_datum_ids r) needed held (op_tx r) (index_update_state r).

Definition handle_granted e w (op_id datum_id : DatumId) : res (Worker S R * list Effect) :=
  match op_records w !! op_id with
  | Some r =>
      let needed := filter (λ id, id <> datum_id) (still_needed r) in
      try_run_if_ready e (set_record w op_id (set_locks r needed (acquired r ++ [datum_id]))) op_id
  | None => release_datums e w [datum_id]
  end.

Definition handle_acquire_failed e w (op_id datum_id : DatumId) (retries_left : Z) : res (Worker S R * list Effect) :=
  if 0 <? retries_left then
    es ← send_acquire e op_id (retries_left - 1) datum_id; Ok (w, es)
  else
    fail_op e w op_id (lit "failed to acquire datum " ++ show_id datum_id ++ lit " after 3 retries").

(** [acquired.remove(pos)] at the first position of the datum. *)
Fixpoint remove_first (x : DatumId) (l : list DatumId) : list DatumId :=
  match l with
  | [] => []
  | y :: l => if y =? x then l else y :: remove_first x l
  end.

(** The first record, in the order of the traversal, that holds the datum. *)
Definition wounded w (datum_id : DatumId) : option (DatumId * OpRecord) :=
  snd <$> list_find (λ p : DatumId * OpRecord, datum_id ∈ acquired p.2) (map_to_list (op_records w)).

Definition handle_recall e w (datum_id : DatumId) (reply : PeerReply) : res (Worker S R * list Effect) :=
  let w := with_cache w (invalidate (cache w) datum_id) in
  match wounded w datum_id with
  | Some (op_id, r) =>
      let w := set_record w op_id (set_locks r (still_needed r ++ [datum_id]) (remove_first datum_id (acquired r))) in
      es ← send_acquire e op_id MAX_ACQUIRE_RETRIES datum_id;
      Ok (w, ack reply datum_id :: es)
  | None => Ok (w, [ack reply datum_id])
  end.

(** ** Resident indexes *)

Definition err_text (s : string) : bytes := lit s.

(** The resident structure of [target], opened from the stored bytes on a cold
    miss; [inr] is the message of an unknown kind or a failed open. *)
Definition open_resident e w (target : DatumId) (index_kind : bytes) : res (Worker S R * (R + bytes)) :=
  match resident_indexes w !! target with
  | Some r => Ok (w, inl r)
  | None =>
      match index_kinds e !! index_kind with
      | None => Ok (w, inr (lit "no index kind registered for " ++ show_str index_kind))
      | Some open =>
          let '(stored, c) := cache_get (cache w) target in
          let w := with_cache w c in
          match open target stored with
          | Ok r => Ok (with_residents w (<[target := r]> (resident_indexes w)), inl r)
          | Err message => Ok (w, inr (err_text message))
          | Panic => Panic
          end
      end
  end.

Definition set_resident w (target : DatumId) (r : R) : Worker S R :=
  with_residents w (<[target := r]> (resident_indexes w)).

Definition write_back w (target : DatumId) (wt : WriteThrough) : Worker S R :=
  match wt with
  | WtPut bs => with_cache w (cache_put (cache w) target bs)
  | WtDelete => with_cache w (cache_delete (cache w) target)
  | WtNone => w
  end.

Definition handle_index_update e w (target op_id : DatumId) (index_kind payload : bytes) (reply : PeerReply) :
    res (Worker S R * list Effect) :=
  '(w, opened) ← open_resident e w target index_kind;
  match opened with
  | inr message => Ok (w, [respond_update reply op_id target (Some message)])
  | inl r =>
      match ix_apply r payload with
      | (r, Ok outcome) =>
          let w := set_resident w target r in
          let w := match violation outcome with None => write_back w target (write_through outcome) | Some _ => w end in
          Ok (w, [respond_update reply op_id target (violation outcome)])
      | (_, _) => Panic
      end
  end.

(** A query or an execute call: the resident's answer, or why it did not open. *)
Definition handle_resident_call e w (f : R -> bytes -> R * res bytes) (target : DatumId) (index_kind payload : bytes)
    (tx : Z) : res (Worker S R * list Effect) :=
  '(w, opened) ← open_resident e w target index_kind;
  match opened with
  | inr message => Ok (w, [Answer tx (ReplyErr message)])
  | inl r =>
      match f r payload with
      | (r, Ok bs) => Ok (set_resident w target r, [Answer tx (ReplyOk bs)])
      | (r, Err message) => Ok (set_resident w target r, [Answer tx (ReplyErr (err_text message))])
      | (_, Panic) => Panic
      end
  end.
(** ** Replies to an operation's updates and checks *)

Definition violate (state : IndexUpdateState) (message : option bytes) : IndexUpdateState :=
  mkState (staged_writes state) (op_result state) (pending state)
    (match st_violation state with Some v => Some v | None => message end) (exists_expectations state).

Definition set_pending (state : IndexUpdateState) (n : Z) : IndexUpdateState :=
  mkState (staged_writes state) (op_result state) n (st_violation state) (exists_expectations state).

Definition take_expectation (state : IndexUpdateState) (target : DatumId) : option Expectation * IndexUpdateState :=
  (exists_expectations state !! target,
   mkState (staged_writes state) (op_result state) (pending state) (st_violation state)
     (delete target (exists_expectations state))).

(** The record and its state while the operation waits for replies. *)
Definition waiting w (op_id : DatumId) : option (OpRecord * IndexUpdateState) :=
  r ← op_records w !! op_id; st ← index_update_state r; Some (r, st).

Definition handle_update_replied e w (op_id : DatumId) (v : option bytes) : res (Worker S R * list Effect) :=
  w ← match waiting w op_id with
      | Some (r, st) => n ← sub_u64 (pending st) 1; Ok (set_record w op_id (with_state r (violate (set_pending st n) v)))
      | None => Ok w
      end;
  finish_op_if_settled e w op_id.

(** What an answer means for the check that was scheduled: a violation, an index
    update to dispatch, or nothing. *)
Definition judge (target : DatumId) (exists_ : bool) (expectation : option Expectation) : option bytes * option PendingIndexUpdate :=
  match exists_, expectation with
  | true, Some (Absent message) => (Some message, None)
  | false, Some (Present (Track pending_datum index_kind entry)) =>
      (None, Some (mkIndexUpdate pending_datum index_kind entry))
  | true, _ | false, Some (Absent _) => (None, None)
  | false, _ => (Some (lit "dangling reference: " ++ show_id target ++ lit " does not exist"), None)
  end.

Definition settle_check e w (op_id target : DatumId) (exists_ : bool) : res (Worker S R * list Effect) :=
  match waiting w op_id with
  | Some (r, st) =>
      n ← sub_u64 (pending st) 1;
      let '(expectation, st) := take_expectation (set_pending st n) target in
      match judge target exists_ expectation with
      | (message, None) => Ok (set_record w op_id (with_state r (violate st message)), [])
      | (message, Some u) =>
          es ← dispatch_index_update e op_id u;
          Ok (set_record w op_id (with_state r (violate (set_pending st (pending st + 1)) message)), es)
      end
  | None => Ok (w, [])
  end.

(** ** One message *)

Definition handle e w (message : WorkerMessage) : res (Worker S R * list Effect) :=
  match message with
  | RunOp op_id name datum_ids payload tx => handle_run_op e w op_id name datum_ids payload tx
  | Acquire op_id datum_id node thread reply => handle_acquire e w op_id datum_id node thread reply
  | AcquireGranted op_id datum_id => handle_granted e w op_id datum_id
  | AcquireFailed op_id datum_id retries_left => handle_acquire_failed e w op_id datum_id retries_left
  | Recall datum_id reply => handle_recall e w datum_id reply
  | Release datum_id => Ok (handle_release w datum_id)
  | EvictNonNative is_native => Ok (with_cache w (evict_non_native (cache w) is_native), [])
  | ReleaseLocksHeldBy node_id => Ok (handle_death w node_id)
  | IndexUpdate target op_id kind payload reply => handle_index_update e w target op_id kind payload reply
  | IndexUpdateReplied op_id target v => handle_update_replied e w op_id v
  | IndexQuery target kind query tx => handle_resident_call e w ix_query target kind query tx
  | IndexExecute target kind payload tx => handle_resident_call e w ix_execute target kind payload tx
  | ExistsCheck datum_id op_id reply =>
      let '(value, c) := cache_get (cache w) datum_id in
      Ok (with_cache w c, [respond_exists reply op_id datum_id (match value with Some _ => true | None => false end)])
  | ExistsCheckReplied op_id target exists_ =>
      and_then (settle_check e w op_id target exists_) (λ w, finish_op_if_settled e w op_id)
  end.
End worker.
