(* ===== verification/WorkerInv.v ===== *)
(** * seisin-node: what every message of a thread preserves

    The invariant of [Worker.v]: a record holds or still needs every datum of its
    operation, a record that is complete has been run, and one that waits for
    replies has some outstanding; the threads of this node that hold or wait for
    a lock exist; every resident index is well formed. *)

From S2P Require Import Prelude Core Cache Names JumpHash Ring Pages Messages Responses Indexes Collation OpContext Worker.

Record env_ok {R} (ok : R -> Prop) (e : Env R) : Prop := {
  env_ring : ring_ok (ring e);
  env_some : slots (ring e) <> [];
  env_local : forall n t, (n, t) ∈ slots (ring e) -> n = self_node_id e -> 0 <= t < peers e;
  env_open kind open target stored :
    index_kinds e !! kind = Some open -> match open target stored with Ok r => ok r | Err _ => True | Panic => False end
}.

Definition local_ok {R} (e : Env R) (node : NodeId) (thread : ThreadId) : Prop :=
  node = self_node_id e -> 0 <= thread < peers e.

Definition holder_ok {R} (e : Env R) (h : Holder) : Prop := local_ok e (h_node h) (h_thread h).

Definition lock_ok {R} (e : Env R) (l : NativeLock Grant) : Prop :=
  Forall (λ v, local_ok e (w_node v) (w_thread v)) (waiters l) /\ from_option (holder_ok e) True (current_holder l).

Definition record_ok (r : OpRecord) : Prop :=
  (forall d, d ∈ op_datum_ids r -> d ∈ still_needed r \/ d ∈ acquired r) /\
  is_ready r = false /\ (forall st, index_update_state r = Some st -> 0 < pending st).

(** A record between two loops of the thread: it may be ready to run, or settled. *)
Definition record_open (r : OpRecord) : Prop :=
  (forall d, d ∈ op_datum_ids r -> d ∈ still_needed r \/ d ∈ acquired r) /\
  (forall st, index_update_state r = Some st -> 0 <= pending st).

Record worker_ok {S R} (ok : R -> Prop) (e : Env R) (w : Worker S R) : Prop := {
  ok_records : map_Forall (λ _, record_ok) (op_records w);
  ok_locks : map_Forall (λ _, lock_ok e) (native_locks w);
  ok_residents : map_Forall (λ _, ok) (resident_indexes w)
}.

(** All but the record of one operation. *)
Record worker_ok_but {S R} (ok : R -> Prop) (e : Env R) (w : Worker S R) (op_id : DatumId) : Prop := {
  but_records : map_Forall (λ _, record_ok) (delete op_id (op_records w));
  but_open r : op_records w !! op_id = Some r -> record_open r;
  but_locks : map_Forall (λ _, lock_ok e) (native_locks w);
  but_residents : map_Forall (λ _, ok) (resident_indexes w)
}.

Definition message_ok {R} (e : Env R) (m : WorkerMessage) : Prop :=
  match m with Acquire _ _ node thread _ => local_ok e node thread | _ => True end.

Section inv.
Context {S R : Type} `{StoreOps S} `{ResidentIndex R} (ok : R -> Prop) `{!ResidentIndexLaws R ok}.
Variables (show_id : DatumId -> bytes) (show_node : NodeId -> bytes) (show_str : bytes -> bytes)
  (show_response : Response.t -> bytes).
Implicit Types (w : Worker S R) (e : Env R).

(** A handler that goes through, with what it establishes. *)
Definition goes_through (x : res (Worker S R * list Effect)) (P : Worker S R -> list Effect -> Prop) : Prop :=
  exists w' es, x = Ok (w', es) /\ P w' es.

Lemma goes_ret w es (P : Worker S R -> list Effect -> Prop) : P w es -> goes_through (Ok (w, es)) P.
Proof. by exists w, es. Qed.

Lemma goes_and_then x g (P Q : Worker S R -> list Effect -> Prop) :
  goes_through x P -> (forall w es, P w es -> goes_through (g w) (λ w' es', Q w' (es ++ es'))) ->
  goes_through (and_then x g) Q.
Proof.
  intros (w & es & -> & HP) Hg. destruct (Hg w es HP) as (w' & es' & E & HQ).
  exists w', (es ++ es'). unfold and_then. rsimpl. by rewrite E.
Qed.

Lemma goes_weaken x (P Q : Worker S R -> list Effect -> Prop) :
  goes_through x P -> (forall w es, P w es -> Q w es) -> goes_through x Q.
Proof. intros (w & es & E & HP) HQ. exists w, es. auto. Qed.

Lemma peer_ok e t : 0 <= t < peers e -> peer e t = Ok t.
Proof. intros Ht. unfold peer. by rewrite (proj2 (Z.leb_le 0 t)), (proj2 (Z.ltb_lt t (peers e))) by lia. Qed.

Lemma route_ok e d l r u : env_ok ok e -> exists es, route e d l r u = Ok es.
Proof.
  intros He. unfold route.
  destruct (ring_index_ok (ring e) (hash_key d) (env_ring _ _ He) (env_some _ _ He)) as ([n t] & E & Hs).
  unfold native. rewrite E. rsimpl. apply list_elem_of_lookup_2 in Hs.
  destruct (Z.eqb_spec n (self_node_id e)) as [Hn|]; [|destruct (linked e n); by eexists].
  rewrite peer_ok by (by eapply env_local). by eexists.
Qed.

Lemma emit_all_ok {A} (f : A -> res (list Effect)) l :
  (forall x, exists es, f x = Ok es) -> exists es, emit_all f l = Ok es.
Proof.
  intros Hf. induction l as [|x l [es IH]]; [by eexists|]. destruct (Hf x) as [es' E].
  exists (es' ++ es). simpl. rewrite E. rsimpl. by rewrite IH.
Qed.

Lemma send_acquire_ok e op n d : env_ok ok e -> exists es, send_acquire e op n d = Ok es.
Proof. apply route_ok. Qed.

Lemma send_acquires_ok e op n ds : env_ok ok e -> exists es, emit_all (send_acquire e op n) ds = Ok es.
Proof. intros He. apply emit_all_ok. intros d. by apply send_acquire_ok. Qed.

Lemma dispatch_update_ok e op u : env_ok ok e -> exists es, dispatch_index_update show_node e op u = Ok es.
Proof. apply route_ok. Qed.

Lemma dispatch_check_ok e op d : env_ok ok e -> exists es, dispatch_exists_check e op d = Ok es.
Proof. apply route_ok. Qed.

(** What a handler may change besides the cache. *)
Definition same_but_cache w w' : Prop :=
  op_records w' = op_records w /\ native_locks w' = native_locks w /\ resident_indexes w' = resident_indexes w.

Lemma release_datums_ok e w ds :
  env_ok ok e ->
  goes_through (release_datums e w ds) (λ w' es,
    w' = with_cache w (fold_left invalidate ds (cache w)) /\ emit_all (release_one e) ds = Ok es).
Proof.
  intros He. destruct (emit_all_ok (release_one e) ds (λ d, route_ok e d _ _ _ He)) as [es E].
  unfold release_datums. rewrite E. rsimpl. by apply goes_ret.
Qed.

Lemma finish_op_ok e w op r reply :
  env_ok ok e ->
  goes_through (finish_op e w op r reply) (λ w' es,
    op_records w' = delete op (op_records w) /\ native_locks w' = native_locks w /\
    resident_indexes w' = resident_indexes w /\ cache w' = fold_left invalidate (acquired r) (cache w) /\
    exists rel, es = Answer (op_tx r) reply :: rel /\ emit_all (release_one e) (acquired r) = Ok rel).
Proof.
  intros He. unfold finish_op.
  destruct (release_datums_ok e (with_records w (delete op (op_records w))) (acquired r) He) as (w' & es & -> & -> & E).
  rsimpl. apply goes_ret. split_and!; try done. by exists es.
Qed.

Lemma finish_op_inv e w op r reply :
  env_ok ok e -> worker_ok_but ok e w op -> goes_through (finish_op e w op r reply) (λ w' _, worker_ok ok e w').
Proof.
  intros He [H1 _ H3 H4]. eapply goes_weaken; [by apply finish_op_ok|].
  intros w' es (Er & El & Ex & _). split; [rewrite Er|rewrite El|rewrite Ex]; done.
Qed.

Lemma worker_close e w op :
  worker_ok_but ok e w op -> (forall r, op_records w !! op = Some r -> record_ok r) -> worker_ok ok e w.
Proof.
  intros [H1 _ H3 H4] Hr. split; [|done..]. intros i r Hi. destruct (decide (i = op)) as [->|Hne]; [by apply Hr|].
  apply (H1 i r). by rewrite lookup_delete_ne.
Qed.

Lemma worker_open e w op : worker_ok ok e w -> worker_ok_but ok e w op.
Proof.
  intros [H1 H3 H4]. split; [by apply map_Forall_delete| |done..].
  intros r Hr. destruct (H1 _ _ Hr) as (? & _ & Hp). split; [done|]. intros st Hst. specialize (Hp st Hst). lia.
Qed.

Lemma set_record_but e w op r :
  worker_ok_but ok e w op -> record_open r -> worker_ok_but ok e (set_record w op r) op.
Proof.
  intros [H1 H2 H3 H4] Hr. split; simpl; [by rewrite delete_insert_eq| |done..].
  intros r'. rewrite lookup_insert_eq. by intros [= <-].
Qed.

Lemma with_cache_but e w op c : worker_ok_but ok e w op -> worker_ok_but ok e (with_cache w c) op.
Proof. by intros [H1 H2 H3 H4]. Qed.
Lemma with_cache_ok e w c : worker_ok ok e w -> worker_ok ok e (with_cache w c).
Proof. by intros [H1 H3 H4]. Qed.
(** The record of [op] once it cannot run any more, or can but does not wait. *)
Definition not_settled (r : OpRecord) : Prop := forall st, index_update_state r = Some st -> 0 < pending st.

Lemma close_record e w op r :
  worker_ok_but ok e w op -> op_records w !! op = Some r -> is_ready r = false -> not_settled r -> worker_ok ok e w.
Proof.
  intros Hw Hr Hn Hp. apply (worker_close e w op Hw). intros r' Hr'. simplify_eq.
  split; [by apply (but_open _ _ _ _ Hw)|by split].
Qed.

Lemma close_absent e w op : worker_ok_but ok e w op -> op_records w !! op = None -> worker_ok ok e w.
Proof. intros Hw Hr. apply (worker_close e w op Hw). intros r. by rewrite Hr. Qed.

Lemma record_open_state e w op r st :
  worker_ok_but ok e w op -> op_records w !! op = Some r -> 0 <= pending st -> record_open (with_state r st).
Proof.
  intros Hw Hr Hp. destruct (but_open _ _ _ _ Hw _ Hr) as [Hc _]. split; [exact Hc|]. by intros st' [= <-].
Qed.

Lemma waiting_not_ready r st : is_ready (with_state r st) = false.
Proof. unfold is_ready. simpl. by destruct (still_needed r). Qed.

Lemma dispatches_ok e op updates checks :
  env_ok ok e ->
  exists us cs, emit_all (dispatch_index_update show_node e op) updates = Ok us /\
    emit_all (dispatch_exists_check e op) (map ck_target checks) = Ok cs.
Proof.
  intros He. destruct (emit_all_ok (dispatch_index_update show_node e op) updates) as [us Eu].
  { intros u. by apply dispatch_update_ok. }
  destruct (emit_all_ok (dispatch_exists_check e op) (map ck_target checks)) as [cs Ec].
  { intros d. by apply dispatch_check_ok. }
  by exists us, cs.
Qed.

Lemma start_waiting_inv e w op r result writes updates checks :
  env_ok ok e -> worker_ok_but ok e w op -> op_records w !! op = Some r -> 0 < zlen updates + zlen checks ->
  goes_through (start_waiting show_node e w op r result writes updates checks) (λ w' _, worker_ok ok e w').
Proof.
  intros He Hw Hr Hp. unfold start_waiting.
  destruct (dispatches_ok e op updates checks He) as (us & cs & -> & Ec). rsimpl. rewrite Ec. rsimpl. apply goes_ret.
  eapply close_record; [apply set_record_but; [exact Hw|]|simpl; by rewrite lookup_insert_eq|apply waiting_not_ready|].
  - eapply record_open_state; [exact Hw|exact Hr|simpl; lia].
  - by intros st [= <-].
Qed.

Lemma try_run_inv e w op :
  env_ok ok e -> worker_ok_but ok e w op -> (forall r, op_records w !! op = Some r -> not_settled r) ->
  goes_through (try_run_if_ready show_node e w op) (λ w' _, worker_ok ok e w').
Proof.
  intros He Hw Hns. unfold try_run_if_ready. destruct (op_records w !! op) as [r|] eqn:Hr.
  2:{ apply goes_ret. by eapply close_absent. }
  destruct (is_ready r) eqn:Hready; simpl; [|apply goes_ret; eapply close_record; eauto].
  destruct (invoke _ _ _ _ _) as [ctx result]. pose proof (with_cache_but e w op (ctx_cache ctx) Hw) as Hw'.
  destruct result as [bs|message]; [|by apply finish_op_inv].
  pose proof (λ us cs, start_waiting_inv e _ op r bs (take_staged_writes ctx) us cs He Hw' Hr) as Hgo.
  destruct (pending_index_updates ctx) as [|u us], (pending_exists_checks ctx) as [|c cs];
    [apply finish_op_inv; [done|]; by apply with_cache_but|apply Hgo..];
    unfold zlen; simpl length; lia.
Qed.

Lemma finish_settled_inv e w op :
  env_ok ok e -> worker_ok_but ok e w op -> (forall r, op_records w !! op = Some r -> is_ready r = false) ->
  goes_through (finish_op_if_settled e w op) (λ w' _, worker_ok ok e w').
Proof.
  intros He Hw Hnr. unfold finish_op_if_settled. destruct (op_records w !! op) as [r|] eqn:Hr.
  2:{ apply goes_ret. by eapply close_absent. }
  destruct (index_update_state r) as [st|] eqn:Hst.
  2:{ apply goes_ret. eapply close_record; eauto. intros st. by rewrite Hst. }
  destruct (Z.eqb_spec (pending st) 0) as [Hz|Hz].
  - destruct (st_violation st); apply finish_op_inv; try done. by apply with_cache_but.
  - apply goes_ret. eapply close_record; eauto. intros st' Hst'. simplify_eq.
    destruct (but_open _ _ _ _ Hw _ Hr) as [_ Hp]. specialize (Hp _ Hst). lia.
Qed.
(** ** Locks *)

Lemma enqueue_Forall (P : Waiter Grant -> Prop) v ws : Forall P ws -> P v -> Forall P (enqueue v ws).
Proof. intros Hws Hv. rewrite enqueue_perm. by constructor. Qed.

Lemma grant_front_ok e l : lock_ok e l -> lock_ok e (grant_front l).1.
Proof.
  intros [Hws Hh]. unfold grant_front. destruct (waiters l) as [|v ws] eqn:E; [by split; simpl; [rewrite E; constructor|]|].
  apply Forall_cons in Hws as [Hv Hws]. by split.
Qed.

Lemma release_ok e l : lock_ok e l -> lock_ok e (release l).1.
Proof. intros [Hws _]. by apply grant_front_ok. Qed.

Lemma request_ok e l v :
  lock_ok e l -> local_ok e (w_node v) (w_thread v) ->
  lock_ok e (request l v).1.1 /\ (forall h, (request l v).2 = RecallNeeded h -> holder_ok e h).
Proof.
  intros [Hws Hh] Hv. unfold request.
  assert (lock_ok e (mkNative (current_holder l) (enqueue v (waiters l)))) as Hl.
  { split; [by apply enqueue_Forall|done]. }
  destruct (current_holder l) as [h|] eqn:E; simpl.
  - split; [exact Hl|]. by destruct (_ <? _); [intros h' [= <-]|].
  - split; [by apply grant_front_ok|done].
Qed.

Lemma death_ok e l node : lock_ok e l -> lock_ok e (handle_node_death l node).1.
Proof.
  intros [Hws Hh]. unfold handle_node_death.
  assert (lock_ok e (mkNative (current_holder l) (filter (λ v, w_node v <> node) (waiters l)))) as Hl.
  { split; [|done]. apply Forall_forall. intros v [_ Hv]%list_elem_of_filter. rewrite Forall_forall in Hws. by apply Hws. }
  destruct (held_by _ node); [by apply release_ok|done].
Qed.

Lemma lock_of_ok e w d : worker_ok ok e w -> lock_ok e (lock_of w d).
Proof.
  intros Hw. unfold lock_of. destruct (native_locks w !! d) as [l|] eqn:E; simpl; [by eapply (ok_locks _ _ _ Hw)|].
  by split; [constructor|].
Qed.

Lemma set_lock_ok e w d l :
  worker_ok ok e w -> lock_ok e l -> worker_ok ok e (with_locks w (<[d := l]> (native_locks w))).
Proof. intros [H1 H3 H4] Hl. split; simpl; [done|by apply map_Forall_insert_2|done]. Qed.

Lemma handle_acquire_inv e w op d node thread reply :
  worker_ok ok e w -> local_ok e node thread ->
  goes_through (handle_acquire e w op d node thread reply) (λ w' _, worker_ok ok e w').
Proof.
  intros Hw Hl. unfold handle_acquire.
  pose proof (request_ok e (lock_of w d) (mkWaiter op node thread (mkGrant reply op d)) (lock_of_ok e w d Hw) Hl) as [Hlock Hrec].
  destruct (request _ _) as [[l fired] outcome]. simpl in *. pose proof (set_lock_ok e w d l Hw Hlock) as Hw'.
  destruct outcome as [|h|]; try by apply goes_ret.
  destruct (Z.eqb_spec (h_node h) (self_node_id e)) as [Hn|Hn].
  - rewrite peer_ok by exact (Hrec h eq_refl Hn). by apply goes_ret.
  - destruct (linked e (h_node h)); by apply goes_ret.
Qed.

Lemma handle_release_inv e w d : worker_ok ok e w -> worker_ok ok e (handle_release w d).1.
Proof.
  intros Hw. unfold handle_release. simpl. destruct (native_locks w !! d) as [l|] eqn:E; [|by apply with_cache_ok].
  pose proof (release_ok e l (ok_locks _ _ _ Hw _ _ E)) as Hl. destruct (release l) as [l' fired].
  apply (set_lock_ok e (with_cache w (invalidate (cache w) d))); [by apply with_cache_ok|done].
Qed.

Lemma handle_death_inv e w node : worker_ok ok e w -> worker_ok ok e (handle_death w node).1.
Proof.
  intros Hw. unfold handle_death.
  assert (Forall (λ p, lock_ok e p.2) (map_to_list (native_locks w))) as HF.
  { apply Forall_forall. intros [d l] Hd. apply elem_of_map_to_list in Hd. by eapply (ok_locks _ _ _ Hw). }
  revert Hw HF. generalize (@nil Effect) as es. generalize (map_to_list (native_locks w)) as ls. intros ls es. revert w es.
  induction ls as [|[d l] ls IH]; intros w es Hw HF; [done|]. apply Forall_cons in HF as [Hl HF]. simpl.
  pose proof (death_ok e l node Hl) as Hl'. destruct (handle_node_death l node) as [l' fired].
  apply IH; [|done]. pose proof (set_lock_ok e w d l' Hw Hl'). by destruct (held_by l node); [apply with_cache_ok|].
Qed.

(** ** Operation records *)

Lemma handle_run_op_inv e w op name ids payload tx :
  env_ok ok e -> worker_ok ok e w ->
  goes_through (handle_run_op show_node e w op name ids payload tx) (λ w' _, worker_ok ok e w').
Proof.
  intros He Hw. unfold handle_run_op. destruct (send_acquires_ok e op MAX_ACQUIRE_RETRIES ids He) as [es ->]. rsimpl.
  eapply (goes_and_then _ _ (λ w' _, w' = set_record w op (mkRecord name payload ids ids [] tx None))); [by apply goes_ret|].
  intros w' es' ->. apply try_run_inv; [done| |].
  - apply set_record_but; [by apply worker_open|]. split; [by left|done].
  - intros r. simpl. rewrite lookup_insert_eq. intros [= <-]. intros st. done.
Qed.

Lemma granted_covers (needed held : list DatumId) (d x : DatumId) :
  x ∈ needed \/ x ∈ held -> x ∈ filter (λ id, id <> d) needed \/ x ∈ held ++ [d].
Proof.
  intros Hx. destruct (decide (x = d)) as [->|Hne]; [right; set_solver|].
  destruct Hx as [Hx|Hx]; [left; by apply list_elem_of_filter|right; set_solver].
Qed.

Lemma handle_granted_inv e w op d :
  env_ok ok e -> worker_ok ok e w ->
  goes_through (handle_granted show_node e w op d) (λ w' _, worker_ok ok e w').
Proof.
  intros He Hw. unfold handle_granted. destruct (op_records w !! op) as [r|] eqn:Hr.
  - destruct (ok_records _ _ _ Hw _ _ Hr) as (Hc & _ & Hp). apply try_run_inv; [done| |].
    + apply set_record_but; [by apply worker_open|]. split; simpl.
      * intros x Hx. by apply granted_covers, Hc.
      * intros st Hst. specialize (Hp st Hst). lia.
    + intros r'. simpl. rewrite lookup_insert_eq. by intros [= <-].
  - eapply goes_weaken; [by apply release_datums_ok|]. intros w' es [-> _]. by apply with_cache_ok.
Qed.

Lemma handle_failed_inv e w op d n :
  env_ok ok e -> worker_ok ok e w ->
  goes_through (handle_acquire_failed show_id e w op d n) (λ w' _, worker_ok ok e w').
Proof.
  intros He Hw. unfold handle_acquire_failed. destruct (0 <? n).
  - destruct (send_acquire_ok e op (n - 1) d He) as [es ->]. rsimpl. by apply goes_ret.
  - unfold fail_op. destruct (op_records w !! op); [|by apply goes_ret].
    apply finish_op_inv; [done|]. by apply worker_open.
Qed.

Lemma elem_of_remove_first (d x : DatumId) l : x ∈ l -> x <> d -> x ∈ remove_first d l.
Proof.
  induction l as [|y l IH]; simpl; [done|]. intros Hx Hne. destruct (Z.eqb_spec y d) as [->|]; set_solver.
Qed.

Lemma handle_recall_inv e w d reply :
  env_ok ok e -> worker_ok ok e w -> goes_through (handle_recall e w d reply) (λ w' _, worker_ok ok e w').
Proof.
  intros He Hw. unfold handle_recall. pose proof (with_cache_ok e w (invalidate (cache w) d) Hw) as Hw'.
  destruct (wounded _ d) as [[op r]|] eqn:Hwd; [|by apply goes_ret].
  destruct (send_acquire_ok e op MAX_ACQUIRE_RETRIES d He) as [es ->]. rsimpl. apply goes_ret.
  unfold wounded in Hwd. apply fmap_Some in Hwd as ([i p] & Hf & Ep). simpl in Ep. subst p.
  apply list_find_Some in Hf as (Hf & _ & _). apply list_elem_of_lookup_2, elem_of_map_to_list in Hf.
  destruct (ok_records _ _ _ Hw' _ _ Hf) as (Hc & _ & Hp). eapply (close_record e _ op).
  - apply set_record_but; [by apply worker_open|]. split; simpl.
    + intros x Hx. destruct (decide (x = d)) as [->|Hne]; [left; set_solver|].
      destruct (Hc x Hx) as [?|?]; [left; set_solver|right; by apply elem_of_remove_first].
    + intros st Hst. specialize (Hp st Hst). lia.
  - simpl. by rewrite lookup_insert_eq.
  - unfold is_ready. simpl. by destruct (still_needed r).
  - exact Hp.
Qed.

(** ** Resident indexes *)

Lemma open_resident_inv e w target kind :
  env_ok ok e -> worker_ok ok e w ->
  exists w' o, open_resident show_str e w target kind = Ok (w', o) /\ worker_ok ok e w' /\
    (forall r, o = inl r -> ok r).
Proof.
  intros He Hw. unfold open_resident. destruct (resident_indexes w !! target) as [r|] eqn:Er.
  { eexists _, _. split; [done|]. split; [done|]. intros ? [= <-]. by eapply (ok_residents _ _ _ Hw). }
  destruct (index_kinds e !! kind) as [open|] eqn:Ek; [|by eexists _, _].
  destruct (cache_get (cache w) target) as [stored c]. pose proof (env_open _ _ He kind open target stored Ek) as Ho.
  pose proof (with_cache_ok e w c Hw) as Hw'. destruct (open target stored) as [r|m|]; [|by eexists _, _|done].
  eexists _, _. split; [done|]. destruct Hw' as [H1 H2 H3]. split; [|by intros ? [= <-]].
  split; simpl; [done|done|by apply map_Forall_insert_2].
Qed.

Lemma set_resident_ok e w target r : worker_ok ok e w -> ok r -> worker_ok ok e (set_resident w target r).
Proof. intros [H1 H2 H3] Hr. split; simpl; [done|done|by apply map_Forall_insert_2]. Qed.

Lemma handle_index_update_inv e w target op kind payload reply :
  env_ok ok e -> worker_ok ok e w ->
  goes_through (handle_index_update show_str e w target op kind payload reply) (λ w' _, worker_ok ok e w').
Proof.
  intros He Hw. unfold handle_index_update.
  destruct (open_resident_inv e w target kind He Hw) as (w1 & o & -> & Hw1 & Ho). rsimpl.
  destruct o as [r|m]; [|by apply goes_ret].
  destruct (ix_apply_contract r payload (Ho r eq_refl)) as (r' & out & -> & Hr' & _). apply goes_ret.
  pose proof (set_resident_ok e w1 target r' Hw1 Hr') as Hw2.
  destruct (violation out); [done|]. destruct (write_through out); simpl; by try apply with_cache_ok.
Qed.

Lemma handle_call_inv e w f target kind payload tx :
  env_ok ok e -> worker_ok ok e w -> call_ok ok f ->
  goes_through (handle_resident_call show_str e w f target kind payload tx) (λ w' _, worker_ok ok e w').
Proof.
  intros He Hw Hf. unfold handle_resident_call.
  destruct (open_resident_inv e w target kind He Hw) as (w1 & o & -> & Hw1 & Ho). rsimpl.
  destruct o as [r|m]; [|by apply goes_ret].
  destruct (Hf r payload (Ho r eq_refl)) as [Hr Hn]. destruct (f r payload) as [r' [bs|m|]]; simpl in *;
    [apply goes_ret; by apply set_resident_ok..|done].
Qed.

(** ** Replies *)

Lemma waiting_spec w op r st :
  waiting w op = Some (r, st) <-> op_records w !! op = Some r /\ index_update_state r = Some st.
Proof.
  unfold waiting. destruct (op_records w !! op) as [r'|]; simpl; [|naive_solver].
  destruct (index_update_state r') as [st'|] eqn:E; simpl; naive_solver congruence.
Qed.

Lemma waiting_pending e w op r st : worker_ok ok e w -> waiting w op = Some (r, st) -> sub_u64 (pending st) 1 = Ok (pending st - 1) /\ 0 < pending st.
Proof.
  intros Hw [Hr Hst]%waiting_spec. destruct (ok_records _ _ _ Hw _ _ Hr) as (_ & _ & Hp). specialize (Hp _ Hst).
  unfold sub_u64. rewrite (proj2 (Z.leb_le 1 (pending st))) by lia. done.
Qed.

Lemma settled_of_ok e w op :
  env_ok ok e -> worker_ok ok e w -> goes_through (finish_op_if_settled e w op) (λ w' _, worker_ok ok e w').
Proof.
  intros He Hw. apply finish_settled_inv; [done|by apply worker_open|].
  intros r Hr. by destruct (ok_records _ _ _ Hw _ _ Hr) as (_ & ? & _).
Qed.

Lemma settled_of_state e w op r st :
  env_ok ok e -> worker_ok ok e w -> op_records w !! op = Some r -> 0 <= pending st ->
  goes_through (finish_op_if_settled e (set_record w op (with_state r st)) op) (λ w' _, worker_ok ok e w').
Proof.
  intros He Hw Hr Hp. apply finish_settled_inv; [done| |].
  - apply set_record_but; [by apply worker_open|]. eapply record_open_state; [by apply worker_open|exact Hr|done].
  - intros r'. simpl. rewrite lookup_insert_eq. intros [= <-]. apply waiting_not_ready.
Qed.

Lemma handle_update_replied_inv e w op v :
  env_ok ok e -> worker_ok ok e w -> goes_through (handle_update_replied e w op v) (λ w' _, worker_ok ok e w').
Proof.
  intros He Hw. unfold handle_update_replied. destruct (waiting w op) as [[r st]|] eqn:Hwt.
  - destruct (waiting_pending e w op r st Hw Hwt) as [-> Hp]. rsimpl. apply waiting_spec in Hwt as [Hr _].
    apply settled_of_state; [done..|]. simpl. lia.
  - rsimpl. by apply settled_of_ok.
Qed.

Lemma handle_check_replied_inv e w op target b :
  env_ok ok e -> worker_ok ok e w ->
  goes_through (and_then (settle_check show_id show_node e w op target b) (λ w, finish_op_if_settled e w op))
    (λ w' _, worker_ok ok e w').
Proof.
  intros He Hw. unfold settle_check. destruct (waiting w op) as [[r st]|] eqn:Hwt.
  2:{ eapply (goes_and_then _ _ (λ w' _, w' = w)); [by apply goes_ret|]. intros w' es ->. by apply settled_of_ok. }
  destruct (waiting_pending e w op r st Hw Hwt) as [-> Hp]. rsimpl. apply waiting_spec in Hwt as [Hr _].
  unfold take_expectation. cbn [exists_expectations set_pending]. destruct (judge show_id target b (exists_expectations st !! target)) as [message [u|]].
  - destruct (dispatch_update_ok e op u He) as [es ->]. rsimpl.
    eapply (goes_and_then _ _ (λ w' _, exists st', 0 <= pending st' /\ w' = set_record w op (with_state r st')));
      [apply goes_ret; eexists; split; [|done]; simpl; lia|].
    intros w' es' (st' & Hp' & ->). by apply settled_of_state.
  - eapply (goes_and_then _ _ (λ w' _, exists st', 0 <= pending st' /\ w' = set_record w op (with_state r st')));
      [apply goes_ret; eexists; split; [|done]; simpl; lia|].
    intros w' es' (st' & Hp' & ->). by apply settled_of_state.
Qed.

Lemma handle_inv e w m :
  env_ok ok e -> message_ok e m -> worker_ok ok e w ->
  goes_through (handle show_id show_node show_str e w m) (λ w' _, worker_ok ok e w').
Proof.
  intros He Hm Hw. destruct m as [| | | | | | | | | | | |datum op reply|]; simpl.
  - by apply handle_run_op_inv.
  - by apply handle_acquire_inv.
  - by apply handle_granted_inv.
  - by apply handle_failed_inv.
  - by apply handle_recall_inv.
  - pose proof (handle_release_inv e w datum_id Hw) as HR. destruct (handle_release w datum_id). by apply goes_ret.
  - apply goes_ret. by apply with_cache_ok.
  - pose proof (handle_death_inv e w node_id Hw) as HR. destruct (handle_death w node_id). by apply goes_ret.
  - by apply handle_index_update_inv.
  - by apply handle_update_replied_inv.
  - apply handle_call_inv; [done..|]. apply ix_query_contract.
  - apply handle_call_inv; [done..|]. apply ix_execute_contract.
  - destruct (cache_get (cache w) datum) as [v c]. apply goes_ret. by apply with_cache_ok.
  - by apply handle_check_replied_inv.
Qed.
End inv.
