(* ===== verification/WorkerTheorems.v ===== *)
(** * seisin-node: what an owning thread does for an operation

    The theorems about [Worker.v]: a thread never panics and keeps its records
    sound over any messages; an operation is run once it holds everything and
    commits all of its writes or none; an index update through the resident
    structure is the same as one through the stored bytes. *)

From S2P Require Import Prelude Core Cache Names JumpHash Ring Pages Messages Responses Indexes Collation OpContext Worker WorkerInv.

Section life.
Context {S R : Type} `{StoreLaws S} `{ResidentIndexLaws R ok}.
Variables (show_id : DatumId -> bytes) (show_node : NodeId -> bytes) (show_str : bytes -> bytes).
Implicit Types (w : Worker S R) (e : Env R).

(** The content the thread's store holds. *)
Definition view w : gmap DatumId bytes := cache_view (Worker.cache w).

(** Answered, gone, and everything it held let go: dropped from the thread's cache
    and a release sent home. *)
Definition finished e w' (es : list Effect) (op_id : DatumId) (r : OpRecord) (reply : OpReply) : Prop :=
  op_records w' !! op_id = None /\
  (exists released, es = Answer (op_tx r) reply :: released /\ emit_all (release_one e) (acquired r) = Ok released) /\
  forall d, d ∈ acquired r -> entries (Worker.cache w') !! d = None.

Lemma fold_invalidate ds (c : Cache S) :
  store (fold_left invalidate ds c) = store c /\ (forall d, d ∈ ds -> entries (fold_left invalidate ds c) !! d = None) /\
  (forall d v, entries (fold_left invalidate ds c) !! d = Some v -> entries c !! d = Some v).
Proof.
  revert c. induction ds as [|x ds IH]; intros c; simpl; [split; [done|split; [by intros d ?%elem_of_nil|done]]|].
  destruct (IH (invalidate c x)) as (Hs & Hd & Hv). split; [done|]. split.
  - intros d Hin. destruct (entries (fold_left invalidate ds (invalidate c x)) !! d) as [v|] eqn:E; [|done].
    pose proof (Hv _ _ E) as E'. simpl in E'. apply lookup_delete_Some in E' as [Hne _].
    apply elem_of_cons in Hin as [->|Hin]; [done|]. by rewrite Hd in E.
  - intros d v E. apply Hv in E. simpl in E. by apply lookup_delete_Some in E as [_ E].
Qed.

Lemma fold_invalidate_coherent ds (c : Cache S) : coherent c -> coherent (fold_left invalidate ds c).
Proof.
  intros Hc d v _ Hv. destruct (fold_invalidate ds c) as (Hs & _ & Hk). unfold cache_view. rewrite Hs.
  apply Hc; [done|]. by apply Hk.
Qed.

Lemma finish_op_finishes e w op r reply :
  env_ok ok e -> coherent (Worker.cache w) ->
  goes_through (finish_op e w op r reply) (λ w' es,
    finished e w' es op r reply /\ coherent (Worker.cache w') /\ view w' = view w).
Proof.
  intros He Hc. eapply goes_weaken; [by apply (finish_op_ok ok)|].
  intros w' es (Er & _ & _ & Ec & rel & -> & Hrel). unfold view. rewrite Ec.
  destruct (fold_invalidate (acquired r) (Worker.cache w)) as (Hs & Hd & _).
  split; [split; [by rewrite Er, lookup_delete_eq|split; [by exists rel|by rewrite Ec]]|].
  split; [by apply fold_invalidate_coherent|]. unfold cache_view. by rewrite Hs.
Qed.

Lemma start_waiting_stays e w op r result writes updates checks :
  env_ok ok e ->
  goes_through (start_waiting show_node e w op r result writes updates checks) (λ w' es,
    Worker.cache w' = Worker.cache w /\
    (exists us cs, es = us ++ cs /\ emit_all (dispatch_index_update show_node e op) updates = Ok us /\
       emit_all (dispatch_exists_check e op) (map ck_target checks) = Ok cs) /\
    exists st, op_records w' !! op = Some (with_state r st) /\ staged_writes st = writes /\ op_result st = result /\
      pending st = zlen updates + zlen checks /\ st_violation st = None /\
      exists_expectations st = fold_left (λ m c, <[ck_target c := expect c]> m) checks ∅).
Proof.
  intros He. unfold start_waiting. destruct (dispatches_ok ok show_node e op updates checks He) as (us & cs & Eu & Ec).
  rewrite Eu. rsimpl. rewrite Ec. rsimpl. apply goes_ret. split; [done|]. split; [by exists us, cs|].
  eexists. split; [simpl; by rewrite lookup_insert_eq|done].
Qed.

(** ** Replies *)

(** A reply to one of the operation's index updates or existence checks. *)
Inductive Answered := UpdateAnswer (target : DatumId) (v : option bytes) | CheckAnswer (target : DatumId) (exists_ : bool).

Definition answer_message (op_id : DatumId) (a : Answered) : WorkerMessage :=
  match a with
  | UpdateAnswer target v => IndexUpdateReplied op_id target v
  | CheckAnswer target b => ExistsCheckReplied op_id target b
  end.

(** What a reply objects to, the update it makes the thread send, and the
    expectations left. *)
Definition assess (expected : gmap DatumId Expectation) (a : Answered) :
    option bytes * option PendingIndexUpdate * gmap DatumId Expectation :=
  match a with
  | UpdateAnswer _ v => (v, None, expected)
  | CheckAnswer target b => (judge show_id target b (expected !! target), delete target expected)
  end.

(** The verdict over [n] outstanding replies: the first objection, if any; [None]
    when the replies do not end the wait exactly. *)
Fixpoint verdict (n : Z) (expected : gmap DatumId Expectation) (answers : list Answered) : option (option bytes) :=
  match answers with
  | [] => if n =? 0 then Some None else None
  | a :: answers =>
      if n =? 0 then None else
      let '(objection, more, expected) := assess expected a in
      v ← verdict (n - 1 + (match more with Some _ => 1 | None => 0 end)) expected answers;
      Some (match objection with Some m => Some m | None => v end)
  end.

Fixpoint handle_all e w (ms : list WorkerMessage) : res (Worker S R * list Effect) :=
  match ms with
  | [] => Ok (w, [])
  | m :: ms => and_then (handle show_id show_node show_str e w m) (λ w, handle_all e w ms)
  end.

Definition first_objection (a b : option bytes) : option bytes := match a with Some m => Some m | None => b end.

Definition absorb (st : IndexUpdateState) (a : Answered) : IndexUpdateState :=
  let '(objection, more, expected) := assess (exists_expectations st) a in
  mkState (staged_writes st) (op_result st) (pending st - 1 + (match more with Some _ => 1 | None => 0 end))
    (first_objection (st_violation st) objection) expected.

Definition settled_end e w (op_id : DatumId) (r : OpRecord) (st : IndexUpdateState) : res (Worker S R * list Effect) :=
  match st_violation st with
  | Some message => finish_op e w op_id r (ReplyErr message)
  | None => finish_op e (with_cache w (commit_writes (Worker.cache w) (staged_writes st))) op_id r (ReplyOk (op_result st))
  end.

Lemma finish_if_settled_eval e w op r st :
  finish_op_if_settled e (set_record w op (with_state r st)) op =
  if pending st =? 0 then settled_end e (set_record w op (with_state r st)) op (with_state r st) st
  else Ok (set_record w op (with_state r st), []).
Proof. unfold finish_op_if_settled. simpl. by rewrite lookup_insert_eq. Qed.

Lemma handle_answer e w op r st a :
  env_ok ok e -> op_records w !! op = Some r -> index_update_state r = Some st -> 0 < pending st ->
  exists sent, handle show_id show_node show_str e w (answer_message op a) =
    and_then (Ok (w, sent)) (λ w, finish_op_if_settled e (set_record w op (with_state r (absorb st a))) op).
Proof.
  intros He Hr Hst Hp. assert (waiting w op = Some (r, st)) as Hwt by by apply waiting_spec.
  assert (sub_u64 (pending st) 1 = Ok (pending st - 1)) as Hsub.
  { unfold sub_u64. by rewrite (proj2 (Z.leb_le 1 (pending st))) by lia. }
  destruct a as [target v|target b]; simpl.
  - exists []. unfold handle_update_replied. rewrite Hwt. rsimpl. rewrite Hsub. rsimpl.
    replace (violate (set_pending st (pending st - 1)) v) with (absorb st (UpdateAnswer target v))
      by (unfold absorb, violate; simpl; f_equal; lia).
    by destruct (finish_op_if_settled _ _ _) as [[w' es]| |].
  - unfold settle_check. rewrite Hwt, Hsub. rsimpl. unfold take_expectation, absorb. cbn [assess exists_expectations set_pending].
    destruct (judge show_id target b (exists_expectations st !! target)) as [m [u|]].
    + destruct (dispatch_update_ok ok show_node e op u He) as [es ->]. exists es. unfold and_then. rsimpl. done.
    + exists []. unfold and_then. rsimpl. unfold violate. simpl. by rewrite Z.add_0_r.
Qed.

Lemma settled_end_finishes e w op r st :
  env_ok ok e -> coherent (Worker.cache w) ->
  goes_through (settled_end e w op r st) (λ w' es,
    coherent (Worker.cache w') /\
    match st_violation st with
    | Some m => finished e w' es op r (ReplyErr m) /\ view w' = view w
    | None => finished e w' es op r (ReplyOk (op_result st)) /\ view w' = fold_left apply_write (staged_writes st) (view w)
    end).
Proof.
  intros He Hc. unfold settled_end. destruct (st_violation st) as [m|].
  - eapply goes_weaken; [by apply finish_op_finishes|]. naive_solver.
  - destruct (commit_writes_spec (Worker.cache w) (staged_writes st) Hc) as [E Hc'].
    eapply goes_weaken; [by apply finish_op_finishes|]. intros w' es (Hf & Hcw & Hv).
    split_and!; [done..|]. rewrite Hv. exact E.
Qed.

(** What one more reply leaves of the verdict. *)
Lemma verdict_absorb st a answers v :
  0 < pending st -> verdict (pending st) (exists_expectations st) (a :: answers) = Some v ->
  staged_writes (absorb st a) = staged_writes st /\ op_result (absorb st a) = op_result st /\
  0 <= pending (absorb st a) /\
  exists v', verdict (pending (absorb st a)) (exists_expectations (absorb st a)) answers = Some v' /\
    first_objection (st_violation st) v = first_objection (st_violation (absorb st a)) v'.
Proof.
  intros Hp Hv. simpl in Hv. rewrite (proj2 (Z.eqb_neq (pending st) 0)) in Hv by lia. unfold absorb.
  destruct (assess (exists_expectations st) a) as [[objection more] expected]. simpl.
  split_and!; [done..|destruct more; lia|]. apply bind_Some in Hv as (v' & Hv' & [= <-]). exists v'. split; [done|].
  by destruct (st_violation st), objection.
Qed.

Lemma answers_wait e w op r st pre post v :
  env_ok ok e -> op_records w !! op = Some r -> index_update_state r = Some st ->
  0 < pending st -> verdict (pending st) (exists_expectations st) (pre ++ post) = Some v -> post <> [] ->
  exists w' es, handle_all e w (map (answer_message op) pre) = Ok (w', es) /\
    Worker.cache w' = Worker.cache w /\ is_Some (op_records w' !! op).
Proof.
  intros He. revert w r st v. induction pre as [|a pre IH]; intros w r st v Hr Hst Hp Hv Hpost; [by eexists w, []|].
  destruct (handle_answer e w op r st a He Hr Hst Hp) as [sent Ha].
  destruct (verdict_absorb st a (pre ++ post) v Hp Hv) as (_ & _ & Hnn & v' & Hv' & _).
  assert (pending (absorb st a) <> 0) as Hz by (intros Hz; rewrite Hz in Hv'; by destruct pre, post).
  destruct (IH (set_record w op (with_state r (absorb st a))) (with_state r (absorb st a)) (absorb st a) v')
    as (w' & es & E & Hcw & Hrec); [simpl; by rewrite lookup_insert_eq|done|lia|done|done|].
  exists w', (sent ++ es). simpl. rewrite Ha. unfold and_then. rsimpl.
  rewrite finish_if_settled_eval, (proj2 (Z.eqb_neq _ 0) Hz). rsimpl. rewrite E. rsimpl. by rewrite app_nil_r.
Qed.

Lemma answers_settle e w op r st answers v :
  env_ok ok e -> coherent (Worker.cache w) -> op_records w !! op = Some r -> index_update_state r = Some st ->
  0 < pending st -> verdict (pending st) (exists_expectations st) answers = Some v ->
  exists w' sent es, handle_all e w (map (answer_message op) answers) = Ok (w', sent ++ es) /\ coherent (Worker.cache w') /\
    match first_objection (st_violation st) v with
    | Some m => finished e w' es op r (ReplyErr m) /\ view w' = view w
    | None => finished e w' es op r (ReplyOk (op_result st)) /\ view w' = fold_left apply_write (staged_writes st) (view w)
    end.
Proof.
  intros He. revert w r st v. induction answers as [|a answers IH]; intros w r st v Hc Hr Hst Hp Hv.
  { simpl in Hv. by rewrite (proj2 (Z.eqb_neq (pending st) 0)) in Hv by lia. }
  destruct (handle_answer e w op r st a He Hr Hst Hp) as [sent Ha].
  destruct (verdict_absorb st a answers v Hp Hv) as (Ews & Eres & Hnn & v' & Hv' & Evv).
  simpl. rewrite Ha. unfold and_then at 2. rsimpl. rewrite finish_if_settled_eval, Evv. rewrite <- Ews, <- Eres.
  set (w1 := set_record w op (with_state r (absorb st a))) in *.
  destruct (Z.eqb_spec (pending (absorb st a)) 0) as [Hz|Hz].
  - destruct (settled_end_finishes e w1 op (with_state r (absorb st a)) (absorb st a) He Hc) as (w' & es & E & Hcw & Hfin).
    rewrite E. rsimpl. rewrite Hz in Hv'. destruct answers as [|a' answers]; [|done]. injection Hv' as <-.
    exists w', sent, es. unfold and_then. rsimpl. simpl. rsimpl. rewrite app_nil_r.
    split_and!; [done..|]. by destruct (st_violation (absorb st a)).
  - destruct (IH w1 (with_state r (absorb st a)) (absorb st a) v') as (w' & sent' & es & E & Hcw & Hfin);
      [exact Hc|simpl; by rewrite lookup_insert_eq|done|lia|done|].
    exists w', (sent ++ sent'), es. unfold and_then. rsimpl. rewrite E. rsimpl. rewrite app_nil_r, app_assoc. done.
Qed.
End life.



(** ** Any messages *)

Fixpoint run_worker {S R} `{StoreOps S} `{ResidentIndex R} (show_id show_node : DatumId -> bytes) (show_str : bytes -> bytes)
    (w : Worker S R) (steps : list (Env R * WorkerMessage)) : res (Worker S R) :=
  match steps with
  | [] => Ok w
  | (e, m) :: steps =>
      '(w, _) ← handle show_id show_node show_str e w m; run_worker show_id show_node show_str w steps
  end.

Definition Worker_new {S R} (s : S) : Worker S R := mkWorker (Cache_new s) ∅ ∅ ∅.

(** The same thread, whatever ring and links it has at the time. *)
Definition same_node {R} (e e' : Env R) : Prop := self_node_id e' = self_node_id e /\ peers e' = peers e.

Lemma worker_ok_same {S R} (ok : R -> Prop) (e e' : Env R) (w : Worker S R) :
  same_node e e' -> worker_ok ok e w -> worker_ok ok e' w.
Proof.
  intros [Hn Hp] [H1 H2 H3]. split; [done| |done]. intros d l Hl. specialize (H2 d l Hl).
  unfold lock_ok, holder_ok, local_ok in *. by rewrite Hn, Hp.
Qed.


(** ** Resident indexes *)

Lemma cache_get_stored {S} `{StoreLaws S} (c : Cache S) id :
  coherent c -> (cache_get c id).1 = cache_view c !! id /\ cache_view (cache_get c id).2 = cache_view c /\
  coherent (cache_get c id).2.
Proof. intros Hc. split_and!; [by apply get_value|apply get_view|by apply get_coherent]. Qed.

Lemma write_back_view {S R} `{StoreLaws S} (w : Worker S R) target wt :
  coherent (Worker.cache w) ->
  view (write_back w target wt) !! target = stored_after (view w !! target) wt /\
  (forall i, i <> target -> view (write_back w target wt) !! i = view w !! i) /\
  resident_indexes (write_back w target wt) = resident_indexes w.
Proof.
  intros Hc. unfold view. destruct wt as [|bs|]; simpl; unfold cache_put, cache_delete; [done| |].
  - rewrite (put_view (Worker.cache w) target bs 1 Hc). split_and!; [by simplify_map_eq| |done]. intros i Hi. by simplify_map_eq.
  - rewrite (delete_view (Worker.cache w) target 1). split_and!; [by simplify_map_eq| |done]. intros i Hi. by simplify_map_eq.
Qed.


(** ** What the lifecycle lets through *)

Lemma fmap_wounded {S R} `{StoreOps S} (w : Worker S R) d op r :
  wounded w d = Some (op, r) -> op_records w !! op = Some r.
Proof.
  unfold wounded. intros ([i p] & Hf & Ep)%fmap_Some. simpl in Ep. subst p.
  apply list_find_Some in Hf as (Hf & _ & _). by apply list_elem_of_lookup_2, elem_of_map_to_list in Hf.
Qed.

(** A recall does not stop an operation that has already run. When a datum is
    recalled from an operation that waits for its last reply, the thread tells the
    datum's home that it is released and asks for it again, and the reply still
    commits every staged write, the recalled datum's among them, while the record
    does not hold it: the lock's next owner and this operation both write. *)
Theorem recalled_operation_commits_without_its_lock {S R} `{StoreLaws S} `{ResidentIndexLaws R ok}
    (show_id show_node : DatumId -> bytes) (show_str : bytes -> bytes) (e : Env R) (w : Worker S R) (op_id d target : DatumId)
    (r : OpRecord) (st : IndexUpdateState) (reply : PeerReply) :
  env_ok ok e -> coherent (Worker.cache w) -> wounded (with_cache w (invalidate (Worker.cache w) d)) d = Some (op_id, r) ->
  index_update_state r = Some st -> pending st = 1 -> st_violation st = None ->
  exists w1 asks w2 sent es,
    handle show_id show_node show_str e w (Recall d reply) = Ok (w1, ack reply d :: asks) /\
    (exists r1, op_records w1 !! op_id = Some r1 /\ d ∈ still_needed r1) /\
    handle show_id show_node show_str e w1 (IndexUpdateReplied op_id target None) = Ok (w2, sent ++ Answer (op_tx r) (ReplyOk (op_result st)) :: es) /\
    view w2 = fold_left apply_write (staged_writes st) (view w).
Proof.
  intros He Hc Hwd Hst Hp Hn. simpl. unfold handle_recall. rewrite Hwd.
  destruct (send_acquire_ok ok e op_id MAX_ACQUIRE_RETRIES d He) as [asks ->]. rsimpl.
  set (r1 := set_locks r (still_needed r ++ [d]) (remove_first d (acquired r))).
  set (w1 := set_record _ op_id r1).
  destruct (answers_settle show_id show_node show_str (ok := ok) e w1 op_id r1 st [UpdateAnswer target None] None)
    as (w2 & sent & es & E & _ & Hfin); [done|by apply invalidate_coherent|simpl; by rewrite lookup_insert_eq|exact Hst|lia| |].
  { simpl. rewrite Hp. done. }
  rewrite Hn in Hfin. destruct Hfin as [(_ & (rel & -> & _) & _) Hv].
  exists w1, asks, w2, sent, rel. split; [done|]. split.
  { exists r1. split; [simpl; by rewrite lookup_insert_eq|simpl; set_solver]. }
  split; [|exact Hv]. unfold handle_all in E. simpl in E. unfold and_then in E.
  destruct (handle_update_replied e w1 op_id None) as [[w' es']| |] eqn:Eh; try done. simpl in E. rewrite app_nil_r in E.
  by injection E as -> ->.
Qed.

(** An operation that checks one missing target twice is rejected even though
    the reference may dangle: the policy is consumed by the first answer, and the
    second finds none and objects. With one check the same operation commits. *)
Theorem reference_checked_twice_is_rejected {S R} `{StoreLaws S} `{ResidentIndexLaws R ok}
    (show_id show_node : DatumId -> bytes) (show_str : bytes -> bytes) (e : Env R) (w : Worker S R) (op_id target home : DatumId)
    (r : OpRecord) (result kind entry : bytes) (writes : list staged_write) (twice : bool) :
  env_ok ok e -> coherent (Worker.cache w) ->
  let check := mkExistsCheck target (Present (Track home kind entry)) in
  exists w1 es1 w2 sent es,
    start_waiting show_node e w op_id r result writes [] (check :: (if twice then [check] else [])) = Ok (w1, es1) /\
    handle_all show_id show_node show_str e w1
      (map (answer_message op_id) ([CheckAnswer target false] ++ (if twice then [CheckAnswer target false] else []) ++
         [UpdateAnswer home None])) = Ok (w2, sent ++ es) /\
    if twice then
      finished e w2 es op_id r (ReplyErr (lit "dangling reference: " ++ show_id target ++ lit " does not exist")) /\ view w2 = view w
    else finished e w2 es op_id r (ReplyOk result) /\ view w2 = fold_left apply_write writes (view w).
Proof.
  intros He Hc check.
  destruct (start_waiting_stays (ok := ok) show_node e w op_id r result writes []
    (check :: if twice then [check] else []) He) as (w1 & es1 & E1 & Hcw & _ & st & Hr & Hws & Hres & Hp & Hn & Hexp).
  set (answers := [CheckAnswer target false] ++ (if twice then [CheckAnswer target false] else []) ++ [UpdateAnswer home None]).
  set (v := if twice then Some (lit "dangling reference: " ++ show_id target ++ lit " does not exist") else None).
  assert (verdict show_id (pending st) (exists_expectations st) answers = Some v) as Hv.
  { rewrite Hp, Hexp. subst answers v. destruct twice; simpl.
    - rewrite lookup_insert_eq. simpl. by rewrite delete_insert_eq, lookup_delete_eq.
    - by rewrite lookup_insert_eq. }
  destruct (answers_settle show_id show_node show_str (ok := ok) e w1 op_id (with_state r st) st answers v)
    as (w2 & sent & es & E2 & _ & Hfin); [done|by rewrite Hcw|done|done|rewrite Hp; by destruct twice|done|].
  exists w1, es1, w2, sent, es. split; [done|]. split; [exact E2|]. rewrite Hn, Hres, Hws in Hfin.
  assert (view w1 = view w) as Ev by (unfold view; by rewrite Hcw). rewrite Ev in Hfin. subst v. by destruct twice.
Qed.

(** ** A node to try them on *)

Definition append_handler : OpHandler := λ ids payload,
  match ids with
  | d :: _ => Get d 1 (λ v, Put d (default [] v ++ payload) 1 (Return []))
  | [] => Panics
  end.

(** The same, keeping an index entry for the operation's second id. *)
Definition append_indexed_handler : OpHandler := λ ids payload,
  match ids with
  | d :: _ => Get d 1 (λ v, Put d (default [] v ++ payload) 1
      (Schedule (mkIndexUpdate 77 (lit "sk") (encode_sk_index_op (SkInsert d None))) (Return [])))
  | [] => Panics
  end.

Definition demo_ops : OpRegistry :=
  register (register ∅ (lit "append") append_handler) (lit "append_indexed") append_indexed_handler.

Definition demo_env (thread : nat) : Env SkResidentIndex :=
  mkEnv (Z.of_nat thread) 1 3 (from_members [(1, 3)]) (λ _, false) demo_ops {[ lit "sk" := λ _ stored, sk_open stored ]}.

(** The ids are rendered by the empty text. *)
Definition no_text {A} (_ : A) : bytes := [].


Lemma demo_env_ok (thread : nat) : env_ok (λ _, True) (demo_env thread).
Proof.
  split; [vm_compute; reflexivity|done| |].
  - intros n t Hin _. simpl in Hin. repeat (apply elem_of_cons in Hin as [[= -> ->]|Hin]; [simpl; lia|]).
    by apply elem_of_nil in Hin.
  - intros kind open target stored Hk. unfold demo_env in Hk. cbn [index_kinds] in Hk. apply lookup_singleton_Some in Hk as [_ <-]. unfold sk_open.
    destruct stored as [bs|]; [|done]. pose proof (decode_sk_entries_safe bs). by destruct (decode_sk_entries bs).
Qed.
#[local] Existing Instance sk_laws_any.

Definition demo_worker : Worker InMemoryStore SkResidentIndex :=
  mkWorker (cache_put (Cache_new InMemoryStore_new) 2 (lit "A")) ∅ ∅ ∅.

Lemma demo_coherent : coherent (Worker.cache demo_worker).
Proof. apply put_coherent, new_coherent. Qed.

(** Operation 5 holds datum 2 and appends a letter, keeping an index entry. *)
Definition demo_record : OpRecord := mkRecord (lit "append_indexed") (lit "B") [2] [] [2] 50 None.
Definition demo_waiting : IndexUpdateState := mkState [(2, Some (lit "AB"), 1)] (lit "ok") 1 None ∅.





Lemma recalled_operation_commits_without_its_lock_witness :
  exists w1 asks w2 es,
    handle no_text no_text no_text (demo_env 0) (set_record demo_worker 5 (with_state demo_record demo_waiting)) (Recall 2 (Local 1))
      = Ok (w1, Send 1 (Release 2) :: asks) /\
    handle no_text no_text no_text (demo_env 0) w1 (IndexUpdateReplied 5 77 None) = Ok (w2, es) /\
    view w2 !! 2 = Some (lit "AB").
Proof.
  destruct (recalled_operation_commits_without_its_lock no_text no_text no_text (demo_env 0)
    (set_record demo_worker 5 (with_state demo_record demo_waiting)) 5 2 77 (with_state demo_record demo_waiting) demo_waiting
    (Local 1) (demo_env_ok 0) demo_coherent eq_refl eq_refl eq_refl eq_refl) as (w1 & asks & w2 & sent & es & E1 & _ & E2 & Hv).
  exists w1, asks, w2, (sent ++ Answer 50 (ReplyOk (lit "ok")) :: es). split; [exact E1|]. split; [exact E2|].
  rewrite Hv. vm_compute. reflexivity.
Defined.

Lemma reference_checked_twice_is_rejected_witness :
  exists w1 es1 w2 sent es,
    let check := mkExistsCheck 8 (Present (Track 77 (lit "fk_pending") [])) in
    start_waiting no_text (demo_env 0) (set_record demo_worker 5 demo_record) 5 demo_record [] [(2, Some (lit "AB"), 1)] []
      [check; check] = Ok (w1, es1) /\
    handle_all no_text no_text no_text (demo_env 0) w1
      [ExistsCheckReplied 5 8 false; ExistsCheckReplied 5 8 false; IndexUpdateReplied 5 77 None] = Ok (w2, sent ++ es) /\
    finished (demo_env 0) w2 es 5 demo_record (ReplyErr (lit "dangling reference:  does not exist")) /\
    view w2 !! 2 = Some (lit "A").
Proof.
  destruct (reference_checked_twice_is_rejected no_text no_text no_text (demo_env 0) (set_record demo_worker 5 demo_record) 5 8 77
    demo_record [] (lit "fk_pending") [] [(2, Some (lit "AB"), 1)] true (demo_env_ok 0) demo_coherent)
    as (w1 & es1 & w2 & sent & es & E1 & E2 & Hf & Hv).
  exists w1, es1, w2, sent, es. split; [exact E1|]. split; [exact E2|]. split; [exact Hf|]. rewrite Hv. vm_compute. reflexivity.
Defined.
