(* ===== verification/Pool.v ===== *)
(** * seisin-node: the threads of one node

    Models [crates/seisin-node/src/pool.rs]: the owning threads of [Worker.v] with
    their inboxes and the store they share, the thread an operation is assigned to,
    and the translation of a peer's request into a message. A run is a schedule,
    the list of the threads that take their next message; each inbox is first in,
    first out. *)

From S2P Require Import Prelude Core Cache Names JumpHash Ring Messages Responses Indexes Collation OpContext Worker WorkerInv WorkerTheorems.

Record Pool (S R : Type) := mkPool {
  shared_store : S;
  workers : list (Worker S R);
  inboxes : list (list WorkerMessage);
  answered : list (Z * OpReply)
}.
Arguments mkPool {S R} _ _ _ _.
Arguments shared_store {S R} _.
Arguments workers {S R} _.
Arguments inboxes {S R} _.
Arguments answered {S R} _.

(** *** [on_request]: what a peer's request becomes; [Release] is acknowledged at once. *)
Definition on_request (link correlation_id : Z) (request : Request.t) : list Effect * option WorkerMessage :=
  let reply := Remote link correlation_id in
  match request with
  | Request.Acquire op_id datum_id requester_node requester_thread =>
      ([], Some (Acquire op_id datum_id requester_node requester_thread reply))
  | Request.Recall datum_id => ([], Some (Recall datum_id reply))
  | Request.Release datum_id => ([Respond link correlation_id Response.Released], Some (Release datum_id))
  | Request.ExistsCheck datum_id => ([], Some (ExistsCheck datum_id (from_bytes (replicate 16 (u8 0))) (ExistsTo reply)))
  | Request.IndexUpdate target op_id index_kind payload => ([], Some (IndexUpdate target op_id index_kind payload reply))
  | _ => ([], None)
  end.

(** *** [pick_destination_thread] *)

(** The larger count, the smaller thread on a tie. *)
Definition prefer (a b : ThreadId * Z) : ThreadId * Z :=
  if (a.2 <? b.2) || ((a.2 =? b.2) && (b.1 <? a.1)) then b else a.

Fixpoint thread_counts (r : Ring) (ids : list DatumId) (counts : gmap ThreadId Z) : res (gmap ThreadId Z) :=
  match ids with
  | [] => Ok counts
  | id :: ids =>
      '(_, thread_id) ← native r id;
      thread_counts r ids (<[thread_id := default 0 (counts !! thread_id) + 1]> counts)
  end.

Definition pick_destination_thread (r : Ring) (datum_ids : list DatumId) : res ThreadId :=
  counts ← thread_counts r datum_ids ∅;
  Ok (match map_to_list counts with
      | [] => 0
      | c :: cs => (fold_left prefer cs c).1
      end).

Section pool.
Context {S R : Type} `{StoreOps S} `{ResidentIndex R}.
Variables (show_id : DatumId -> bytes) (show_node : NodeId -> bytes) (show_str : bytes -> bytes).
Implicit Types (p : Pool S R).

Definition post p (thread : nat) (m : WorkerMessage) : Pool S R :=
  mkPool (shared_store p) (workers p) (alter (λ q, q ++ [m]) thread (inboxes p)) (answered p).

(** A message to a thread of the node or an answer to a caller; calls over peer links
    leave the node. *)
Definition deliver p (eff : Effect) : Pool S R :=
  match eff with
  | Send inbox m => post p (Z.to_nat inbox) m
  | Answer tx reply => mkPool (shared_store p) (workers p) (inboxes p) (answered p ++ [(tx, reply)])
  | Call _ _ _ _ | Respond _ _ _ | AnswerExists _ _ => p
  end.

(** The thread's cache over the store as the other threads left it. *)
Definition on_store (s : S) (w : Worker S R) : Worker S R := with_cache w (mkCache s (entries (Worker.cache w))).

(** One thread takes and handles its next message. *)
Definition pool_step (env : nat -> Env R) p (thread : nat) : option (Pool S R) :=
  match workers p !! thread, inboxes p !! thread with
  | Some w, Some (m :: rest) =>
      match handle show_id show_node show_str (env thread) (on_store (shared_store p) w) m with
      | Ok (w, es) =>
          Some (fold_left deliver es
            (mkPool (store (Worker.cache w)) (<[thread := w]> (workers p)) (<[thread := rest]> (inboxes p)) (answered p)))
      | _ => None
      end
  | _, _ => None
  end.

Fixpoint pool_run (env : nat -> Env R) p (schedule : list nat) : option (Pool S R) :=
  match schedule with
  | [] => Some p
  | thread :: schedule => p ← pool_step env p thread; pool_run env p schedule
  end.

Definition Pool_spawn (s : S) (thread_count : nat) : Pool S R :=
  mkPool s (replicate thread_count (Worker_new s)) (replicate thread_count []) [].

(** [handles[thread]] and the message sent there; an index past the node's threads
    panics. *)
Definition send_to p (thread : ThreadId) (m : WorkerMessage) : res (Pool S R) :=
  _ ← index (workers p) thread; Ok (post p (Z.to_nat thread) m).

(** [run_op]: the operation goes to the thread that owns most of its datums. *)
Definition run_op (r : Ring) p (op_id : DatumId) (op_name : bytes) (datum_ids : list DatumId) (payload : bytes) (tx : Z) :
    res (Pool S R) :=
  destination ← pick_destination_thread r datum_ids;
  send_to p destination (RunOp op_id op_name datum_ids payload tx).

(** Requests for one datum go to the thread its slot names. *)
Definition send_native (r : Ring) p (target : DatumId) (m : WorkerMessage) : res (Pool S R) :=
  '(_, thread_id) ← native r target; send_to p thread_id m.

Definition run_index_query (r : Ring) p (target : DatumId) (index_kind query : bytes) (tx : Z) : res (Pool S R) :=
  send_native r p target (IndexQuery target index_kind query tx).
Definition run_index_execute (r : Ring) p (target : DatumId) (index_kind payload : bytes) (tx : Z) : res (Pool S R) :=
  send_native r p target (IndexExecute target index_kind payload tx).
Definition run_exists_check (r : Ring) p (datum_id : DatumId) (tx : Z) : res (Pool S R) :=
  send_native r p datum_id (ExistsCheck datum_id (from_bytes (replicate 16 (u8 0))) (ExistsSync tx)).

(** A message to every thread. *)
Definition broadcast p (m : WorkerMessage) : Pool S R :=
  mkPool (shared_store p) (workers p) (map (λ q, q ++ [m]) (inboxes p)) (answered p).

Definition pool_evict_non_native p (is_native : DatumId -> bool) : Pool S R := broadcast p (EvictNonNative is_native).
Definition pool_release_locks_held_by p (node_id : NodeId) : Pool S R := broadcast p (ReleaseLocksHeldBy node_id).

(** The operations, with their threads, whose records hold the datum. *)
Definition holders p (d : DatumId) : list (nat * DatumId) :=
  mjoin (imap (λ i w, map (λ e : DatumId * OpRecord, (i, e.1))
    (List.filter (λ e : DatumId * OpRecord, bool_decide (d ∈ acquired e.2)) (map_to_list (op_records w)))) (workers p)).
End pool.

(** ** A late recall *)

(** Three operations on datum 2, whose home is thread 0: operation 10 runs there,
    20 on thread 1 and 5, the oldest, on thread 2. *)
Definition demo_start : option (Pool InMemoryStore SkResidentIndex) :=
  let r := ring (demo_env 0) in
  p ← ok_option (run_op r (Pool_spawn (R := SkResidentIndex) InMemoryStore_new 3) 10 (lit "append") [2] (lit "A") 100);
  p ← ok_option (run_op r p 20 (lit "append") [2; 1; 9] (lit "C") 200);
  ok_option (run_op r p 5 (lit "append_indexed") [2; 3; 4] (lit "B") 50).

(** Operation 10 has run and released when the recall that operation 5 caused
    reaches it: the recall is acknowledged as one more release. *)
Definition late_recall : list nat := [0; 0; 1; 2; 0; 0; 0; 0; 0; 2; 2; 2; 2; 2; 0; 1; 1; 1; 1]%nat.
Definition both_finish : list nat := [1; 0; 2]%nat.

(** C38: the release a late recall is answered with takes the lock from its next
    owner. There is a schedule of three threads, each handling its inbox in order,
    after which two operations on two threads hold the same datum at once; run on,
    all three operations are answered with success, and the write of one of them is
    lost. *)
Theorem late_recall_breaks_mutual_exclusion :
  exists start both final,
    demo_start = Some start /\
    pool_run no_text no_text no_text demo_env start late_recall = Some both /\
    holders both 2 = [(1%nat, 20); (2%nat, 5)] /\
    pool_run no_text no_text no_text demo_env both both_finish = Some final /\
    answered final = [(100, ReplyOk []); (200, ReplyOk []); (50, ReplyOk [])] /\
    store_view (shared_store final) !! 2 = Some (lit "AB").
Proof.
  eexists _, _, _. split; [vm_compute; reflexivity|]. split; [vm_compute; reflexivity|]. split; [vm_compute; reflexivity|].
  split; [vm_compute; reflexivity|]. split; vm_compute; reflexivity.
Qed.
