(* ===== verification/PeerLink.v ===== *)
(** * The connection between two nodes

    Models [crates/seisin-node/src/peer_link.rs]: the calls pending on one connection,
    what its reader makes of a frame and of the connection's end, and the registry of a
    node's connections. Two ends and the frames between them make a system that moves
    by calls, replies, deliveries and drops, in any order; what is delivered is what was
    sent, in order. A callback is a value of [K]. *)

From S2P Require Import Prelude Core Codec Protocol Messages Responses Names.

(** ** One end *)

Record PeerLink (K : Type) := mkLink { pl_pending : gmap Z K; pl_next : Z; pl_queue : list bytes }.
Arguments mkLink {K} _ _ _.
Arguments pl_pending {K} _.
Arguments pl_next {K} _.
Arguments pl_queue {K} _.

(** A callback that runs, under the id of its call, or a request handed on. *)
Inductive LinkEvent (K : Type) :=
| Answered (correlation_id : Z) (k : K) (response : Response.t)
| Requested (target_thread : ThreadId) (request : Request.t) (correlation_id : Z).
Arguments Answered {K} _ _ _.
Arguments Requested {K} _ _ _.

Section link.
Context {K : Type}.
Implicit Types (l : PeerLink K).

Definition PeerLink_new : PeerLink K := mkLink ∅ 0 [].

Definition link_call l (target_thread : ThreadId) (request : Request.t) (k : K) : PeerLink K :=
  let correlation_id := pl_next l in
  mkLink (<[correlation_id := k]> (pl_pending l)) (wrap 64 (correlation_id + 1))
    (pl_queue l ++ [encode_envelope (mkEnvelope correlation_id KindRequest target_thread (encode_request request))]).

Definition link_respond l (correlation_id : Z) (response : Response.t) : PeerLink K :=
  mkLink (pl_pending l) (pl_next l)
    (pl_queue l ++ [encode_envelope (mkEnvelope correlation_id KindResponse 0 (encode_response response))]).

(** The reader's loop body on a frame. *)
Definition link_read l (frame : bytes) : PeerLink K * option (LinkEvent K) :=
  match decode_envelope frame with
  | Ok envelope =>
      match kind envelope with
      | KindResponse =>
          let callback := pl_pending l !! correlation_id envelope in
          (mkLink (delete (correlation_id envelope) (pl_pending l)) (pl_next l) (pl_queue l),
           match callback, decode_response (body envelope) with
           | Some k, Ok response => Some (Answered (correlation_id envelope) k response)
           | _, _ => None
           end)
      | KindRequest =>
          (l, match decode_request (body envelope) with
              | Ok request => Some (Requested (target_thread envelope) request (correlation_id envelope))
              | _ => None
              end)
      end
  | _ => (l, None)
  end.

Definition disconnected : Response.t := Response.OpError (lit "peer link disconnected").

(** The reader's end: every pending call fails. *)
Definition link_closed l : PeerLink K * list (LinkEvent K) :=
  (mkLink ∅ (pl_next l) (pl_queue l), map (λ p : Z * K, Answered p.1 p.2 disconnected) (map_to_list (pl_pending l))).
End link.

(** ** The registry *)

Section registry.
Context {L : Type}.

(** The peers [start] dials. *)
Definition dials (self : NodeId) (address_book : gmap NodeId bytes) : list (NodeId * bytes) :=
  base.filter (λ p, self < p.1) (map_to_list address_book).

(** [connect]: the link to an address, when it can be reached. *)
Definition registry_start (connect : bytes -> option L) (self : NodeId) (address_book : gmap NodeId bytes) : gmap NodeId L :=
  fold_left (λ links p, match connect p.2 with Some link => <[p.1 := link]> links | None => links end)
    (dials self address_book) ∅.

(** An inbound connection, whose first eight bytes name the peer. *)
Definition registry_accept (links : gmap NodeId L) (preamble : bytes) (link : L) : gmap NodeId L :=
  <[from_le preamble := link]> links.

Definition registry_get (links : gmap NodeId L) (node_id : NodeId) : option L := links !! node_id.
End registry.

(** ** Two ends *)

(** An end, whether its reader still runs, the requests handed on and not replied to;
    and what happened: the calls made, the callbacks run, the replies given. *)
Record End (K : Type) := mkEnd {
  en_link : PeerLink K; en_up : bool; en_handed : list (Z * ThreadId * Request.t);
  en_calls : list (ThreadId * Request.t * K); en_answers : list (Z * K * Response.t); en_replies : list (Z * Response.t) }.
Arguments mkEnd {K} _ _ _ _ _ _.
Arguments en_link {K} _.
Arguments en_up {K} _.
Arguments en_handed {K} _.
Arguments en_calls {K} _.
Arguments en_answers {K} _.
Arguments en_replies {K} _.

Inductive link_act (K : Type) :=
| ActCall (s : bool) (target_thread : ThreadId) (request : Request.t) (k : K)
| ActRespond (s : bool) (correlation_id : Z) (response : Response.t)
| ActDeliver (s : bool)
| ActDrop (s : bool).
Arguments ActCall {K} _ _ _ _.
Arguments ActRespond {K} _ _ _.
Arguments ActDeliver {K} _.
Arguments ActDrop {K} _.

Section pair.
Context {K : Type}.
Implicit Types (e : End K) (p : End K * End K).

Definition End_new : End K := mkEnd PeerLink_new true [] [] [] [].

Definition side p (s : bool) : End K := if s then p.1 else p.2.
Definition set_side p (s : bool) e : End K * End K := if s then (e, p.2) else (p.1, e).

Definition end_call e (target_thread : ThreadId) (request : Request.t) (k : K) : End K :=
  mkEnd (link_call (en_link e) target_thread request k) (en_up e) (en_handed e)
    (en_calls e ++ [(target_thread, request, k)]) (en_answers e) (en_replies e).

(** A reply to a request that was handed on. *)
Definition end_respond e (correlation_id : Z) (response : Response.t) : option (End K) :=
  '(i, _) ← list_find (λ h : Z * ThreadId * Request.t, h.1.1 = correlation_id) (en_handed e);
  Some (mkEnd (link_respond (en_link e) correlation_id response) (en_up e) (delete i (en_handed e))
    (en_calls e) (en_answers e) (en_replies e ++ [(correlation_id, response)])).

Definition record_event e (ev : LinkEvent K) : End K :=
  match ev with
  | Answered c k response => mkEnd (en_link e) (en_up e) (en_handed e) (en_calls e) (en_answers e ++ [(c, k, response)]) (en_replies e)
  | Requested t request c => mkEnd (en_link e) (en_up e) (en_handed e ++ [(c, t, request)]) (en_calls e) (en_answers e) (en_replies e)
  end.

Definition with_link e (l : PeerLink K) (up : bool) : End K :=
  mkEnd l up (en_handed e) (en_calls e) (en_answers e) (en_replies e).

Definition end_drop e : End K :=
  let '(l, evs) := link_closed (en_link e) in fold_left record_event evs (with_link e l false).

Definition end_read e (frame : bytes) : End K :=
  let '(l, ev) := link_read (en_link e) frame in from_option (record_event (with_link e l (en_up e))) (with_link e l (en_up e)) ev.

(** A frame leaves the sender's queue when it can be written at all, and ends the
    receiver's reader when it is longer than a frame may be. *)
Definition pair_step p (a : link_act K) : option (End K * End K) :=
  match a with
  | ActCall s t request k => Some (set_side p s (end_call (side p s) t request k))
  | ActRespond s c response => e ← end_respond (side p s) c response; Some (set_side p s e)
  | ActDeliver s =>
      let e := side p s in let sender := side p (negb s) in
      if negb (en_up e) then None else
      match pl_queue (en_link sender) with
      | [] => None
      | frame :: queue =>
          match write_frame frame with
          | Ok _ =>
              let p := set_side p (negb s) (with_link sender (mkLink (pl_pending (en_link sender)) (pl_next (en_link sender)) queue) (en_up sender)) in
              Some (set_side p s (if MAX_FRAME_LEN <? zlen frame then end_drop e else end_read e frame))
          | _ => None
          end
      end
  | ActDrop s => if en_up (side p s) then Some (set_side p s (end_drop (side p s))) else None
  end.

Fixpoint pair_run p (acts : list (link_act K)) : option (End K * End K) :=
  match acts with [] => Some p | a :: acts => p ← pair_step p a; pair_run p acts end.
End pair.

(** ** What the system keeps *)

Section correlation.
Context {K : Type}.
Implicit Types (e : End K) (p : End K * End K).

(** The call of [e] that has the id [c]. *)
Definition call_at e (c : Z) (t : ThreadId) (r : Request.t) (k : K) : Prop :=
  0 <= c /\ en_calls e !! Z.to_nat c = Some (t, r, k).

Definition request_frame (c : Z) (t : ThreadId) (r : Request.t) : bytes :=
  encode_envelope (mkEnvelope c KindRequest t (encode_request r)).
Definition reply_frame (c : Z) (resp : Response.t) : bytes :=
  encode_envelope (mkEnvelope c KindResponse 0 (encode_response resp)).

Definition answered_ids e : list Z := map (λ a : Z * K * Response.t, a.1.1) (en_answers e).

(** What holds of the calls of [e] and of its peer [e'], while at most [n] more calls
    are to come. *)
Record carries (n : nat) e (e' : End K) : Prop := {
  ca_next : pl_next (en_link e) = zlen (en_calls e);
  ca_bound : zlen (en_calls e) + Z.of_nat n < 2 ^ 64;
  ca_calls c t r k : call_at e c t r k -> u32_ok t /\ request_ok r;
  ca_pending c k : pl_pending (en_link e) !! c = Some k -> exists t r, call_at e c t r k;
  ca_queue f : f ∈ pl_queue (en_link e) ->
    (exists c t r k, call_at e c t r k /\ f = request_frame c t r) \/ (exists c resp, (c, resp) ∈ en_replies e /\ f = reply_frame c resp);
  ca_handed c t r : (c, t, r) ∈ en_handed e' -> exists k, call_at e c t r k;
  ca_replies c resp : (c, resp) ∈ en_replies e' -> response_ok resp /\ exists t r k, call_at e c t r k;
  ca_answers c k resp : (c, k, resp) ∈ en_answers e ->
    (exists t r, call_at e c t r k) /\ pl_pending (en_link e) !! c = None /\
    ((c, resp) ∈ en_replies e' \/ (resp = disconnected /\ en_up e = false));
  ca_once : NoDup (answered_ids e);
  ca_open c t r k : en_up e = true -> call_at e c t r k -> pl_pending (en_link e) !! c = Some k \/ c ∈ answered_ids e
}.

Definition act_ok (a : link_act K) : Prop :=
  match a with
  | ActCall _ t r _ => u32_ok t /\ request_ok r
  | ActRespond _ _ resp => response_ok resp
  | _ => True
  end.

Lemma call_id_ok n e e' c t r k : carries n e e' -> call_at e c t r k -> u64_ok c.
Proof.
  intros H [Hc Hl]. apply lookup_lt_Some in Hl. pose proof (ca_bound _ _ _ H). unfold uint_ok, zlen in *. lia.
Qed.

Lemma answered_ids_elem e c : c ∈ answered_ids e <-> exists k resp, (c, k, resp) ∈ en_answers e.
Proof.
  unfold answered_ids. rewrite list_elem_of_fmap. split.
  - intros ([[c' k] resp] & -> & Hin). by exists k, resp.
  - intros (k & resp & Hin). by exists (c, k, resp).
Qed.

Lemma call_at_fun e c t r k t' r' k' : call_at e c t r k -> call_at e c t' r' k' -> k = k'.
Proof. intros [_ H] [_ H']. rewrite H in H'. by simplify_eq. Qed.

(** The peer's part may change as long as what it is about does not. *)
Lemma carries_peer n e e1 e2 :
  carries n e e1 -> (forall h, h ∈ en_handed e2 -> h ∈ en_handed e1) -> en_replies e2 = en_replies e1 -> carries n e e2.
Proof.
  intros [H1 H2 H3 H4 H5 H6 H7 H8 H9 H10] Hh Hr. split; try done.
  - intros c t r Hin. by apply (H6 c t r), Hh.
  - intros c resp. rewrite Hr. apply H7.
  - intros c k resp Hin. rewrite Hr. by apply H8.
Qed.

Lemma carries_less n e e' : carries (S n) e e' -> carries n e e'.
Proof. intros [H1 H2 H3 H4 H5 H6 H7 H8 H9 H10]. split; try done. lia. Qed.

(** *** A call *)

Lemma call_at_end_call e t r k c t' r' k' :
  call_at (end_call e t r k) c t' r' k' <-> call_at e c t' r' k' \/ (c = zlen (en_calls e) /\ (t', r', k') = (t, r, k)).
Proof.
  unfold call_at, end_call. cbn [en_calls]. unfold zlen. split.
  - intros [Hc Hl]. apply lookup_app_Some in Hl as [Hl|[Hge Hl]]; [by left|right].
    apply list_lookup_singleton_Some in Hl as [Hi <-]. split; [lia|done].
  - intros [[Hc Hl]|[-> [= -> -> ->]]]; (split; [lia|]); [by apply lookup_app_l_Some|].
    rewrite Nat2Z.id, lookup_app_r, Nat.sub_diag by done. done.
Qed.

Lemma carries_call n e e' t r k :
  carries (S n) e e' -> u32_ok t -> request_ok r -> carries n (end_call e t r k) e'.
Proof.
  intros [H1 H2 H3 H4 H5 H6 H7 H8 H9 H10] Ht Hr. pose proof (zlen_nonneg (en_calls e)) as Hnn.
  assert (forall c t' r' k', call_at e c t' r' k' -> call_at (end_call e t r k) c t' r' k') as Hmono
    by (intros; apply call_at_end_call; by left).
  split; cbn [end_call en_link en_calls en_answers en_up en_replies link_call pl_pending pl_next pl_queue].
  - rewrite zlen_app. change (zlen [(t, r, k)]) with 1. rewrite H1. apply wrap_small. unfold uint_ok. lia.
  - rewrite zlen_app. change (zlen [(t, r, k)]) with 1. lia.
  - intros c t' r' k' [Hc|[_ [= -> -> ->]]]%call_at_end_call; [by eapply H3|done].
  - intros c k' Hp. rewrite H1 in Hp. destruct (decide (c = zlen (en_calls e))) as [->|Hne].
    + rewrite lookup_insert_eq in Hp. injection Hp as <-. exists t, r. apply call_at_end_call. by right.
    + rewrite lookup_insert_ne in Hp by done. destruct (H4 _ _ Hp) as (t' & r' & Hc). exists t', r'. by apply Hmono.
  - intros f [Hf| ->%list_elem_of_singleton]%elem_of_app.
    + destruct (H5 f Hf) as [(c & t' & r' & k' & Hc & ->)|(c & resp & Hin & ->)]; [left|right; by exists c, resp].
      exists c, t', r', k'. split; [by apply Hmono|done].
    + left. exists (zlen (en_calls e)), t, r, k. rewrite H1. split; [apply call_at_end_call; by right|done].
  - intros c t' r' Hin. destruct (H6 c t' r' Hin) as [k' Hc]. exists k'. by apply Hmono.
  - intros c resp Hin. destruct (H7 c resp Hin) as (Hok & t' & r' & k' & Hc). split; [done|]. exists t', r', k'. by apply Hmono.
  - intros c k' resp Hin. destruct (H8 c k' resp Hin) as ((t' & r' & Hc) & Hp & Hor). split_and!; [exists t', r'; by apply Hmono| |done].
    rewrite lookup_insert_ne; [done|]. rewrite H1. destruct Hc as [? Hl%lookup_lt_Some]. unfold zlen. lia.
  - done.
  - intros c t' r' k' Hup [Hc|[-> [= -> -> ->]]]%call_at_end_call; [|left; by rewrite H1, lookup_insert_eq].
    destruct (H10 c t' r' k' Hup Hc) as [Hp|Ha]; [left|by right].
    rewrite lookup_insert_ne; [done|]. rewrite H1. destruct Hc as [? Hl%lookup_lt_Some]. unfold zlen. lia.
Qed.

(** *** A reply *)

(** Its own calls are untouched; its queue and replies grow together. *)
Lemma carries_respond n e e' c resp e2 :
  carries n e e' -> end_respond e c resp = Some e2 -> carries n e2 e'.
Proof.
  intros [H1 H2 H3 H4 H5 H6 H7 H8 H9 H10] He. unfold end_respond in He. apply bind_Some in He as ([i h] & _ & [= <-]).
  split; try done. intros f [Hf| ->%list_elem_of_singleton]%elem_of_app.
  - destruct (H5 f Hf) as [?|(c' & resp' & Hin & ->)]; [by left|right]. exists c', resp'. split; [|done]. apply elem_of_app. by left.
  - right. exists c, resp. split; [|done]. apply elem_of_app. right. by apply list_elem_of_singleton.
Qed.

Lemma carries_responded n e e' c resp e2 :
  carries n e e' -> response_ok resp -> end_respond e' c resp = Some e2 -> carries n e e2.
Proof.
  intros [H1 H2 H3 H4 H5 H6 H7 H8 H9 H10] Hok He. unfold end_respond in He. apply bind_Some in He as ([i [[c' t] r]] & Hf & [= <-]).
  apply list_find_Some in Hf as (Hi & Hc & _). cbn [fst] in Hc. subst c'.
  split; cbn [en_handed en_replies]; try done.
  - intros c' t' r' Hin. apply (H6 c' t' r'). by eapply list_elem_of_delete_inv.
  - intros c' resp' [Hin| [= -> ->]%list_elem_of_singleton]%elem_of_app; [by apply H7|].
    split; [done|]. apply list_elem_of_lookup_2 in Hi. destruct (H6 _ _ _ Hi) as [k Hk]. by exists t, r, k.
  - intros c' k' resp' Hin. destruct (H8 _ _ _ Hin) as (? & ? & [?|?]); split_and!; [done..|left; apply elem_of_app; by left|done|done|by right].
Qed.

(** *** A drop *)

Lemma record_answers e (l : list (Z * K)) (up : bool) lk :
  fold_left record_event (map (λ p : Z * K, Answered p.1 p.2 disconnected) l) (with_link e lk up) =
  mkEnd lk up (en_handed e) (en_calls e) (en_answers e ++ map (λ p : Z * K, (p.1, p.2, disconnected)) l) (en_replies e).
Proof.
  assert (forall e1, fold_left record_event (map (λ p : Z * K, Answered p.1 p.2 disconnected) l) e1 =
    mkEnd (en_link e1) (en_up e1) (en_handed e1) (en_calls e1) (en_answers e1 ++ map (λ p : Z * K, (p.1, p.2, disconnected)) l) (en_replies e1)) as ->; [|done].
  induction l as [|q l IH]; intros e1; simpl; [rewrite app_nil_r; by destruct e1|]. rewrite IH. simpl. by rewrite <- app_assoc.
Qed.

Lemma end_drop_eq e :
  end_drop e = mkEnd (mkLink ∅ (pl_next (en_link e)) (pl_queue (en_link e))) false (en_handed e) (en_calls e)
    (en_answers e ++ map (λ p : Z * K, (p.1, p.2, disconnected)) (map_to_list (pl_pending (en_link e)))) (en_replies e).
Proof. unfold end_drop, link_closed. apply record_answers. Qed.

Lemma dropped_answers e c k resp :
  (c, k, resp) ∈ en_answers (end_drop e) <->
  (c, k, resp) ∈ en_answers e \/ (pl_pending (en_link e) !! c = Some k /\ resp = disconnected).
Proof.
  rewrite end_drop_eq. cbn [en_answers]. rewrite elem_of_app. apply or_iff_compat_l. rewrite list_elem_of_fmap. split.
  - intros ([c' k'] & [= -> -> ->] & Hin%elem_of_map_to_list). done.
  - intros [Hp ->]. exists (c, k). by rewrite elem_of_map_to_list.
Qed.

Lemma carries_drop n e e' : carries n e e' -> carries n (end_drop e) e'.
Proof.
  intros [H1 H2 H3 H4 H5 H6 H7 H8 H9 H10]. pose proof (dropped_answers e) as Hd. rewrite end_drop_eq in *.
  split; cbn [en_link en_calls en_answers en_up en_replies pl_pending pl_next pl_queue] in *; try done.
  - intros c k resp [Hin|[Hp ->]]%Hd.
    + destruct (H8 c k resp Hin) as (? & _ & [?|[? _]]); split_and!; [done..|by left|done|done|by right].
    + split_and!; [by apply H4|done|by right].
  - unfold answered_ids. cbn [en_answers]. rewrite map_app, map_map. cbn [fst]. apply NoDup_app. split_and!.
    + exact H9.
    + intros c (k & resp & Hin)%answered_ids_elem Hc. destruct (H8 _ _ _ Hin) as (_ & Hn & _).
      apply list_elem_of_fmap in Hc as ([c' k'] & -> & Hc%elem_of_map_to_list). cbn [fst] in Hn. by rewrite Hn in Hc.
    + apply (NoDup_fst_map_to_list (pl_pending (en_link e))).
Qed.

(** *** A frame *)

Lemma read_request e c t r :
  u64_ok c -> u32_ok t -> request_ok r ->
  end_read e (request_frame c t r) = mkEnd (en_link e) (en_up e) (en_handed e ++ [(c, t, r)]) (en_calls e) (en_answers e) (en_replies e).
Proof.
  intros Hc Ht Hr. unfold end_read, link_read, request_frame. rewrite decode_encode_envelope by done. cbn [kind body target_thread correlation_id].
  by rewrite decode_encode_request.
Qed.

Lemma read_reply e c resp :
  u64_ok c -> response_ok resp ->
  end_read e (reply_frame c resp) =
    mkEnd (mkLink (delete c (pl_pending (en_link e))) (pl_next (en_link e)) (pl_queue (en_link e))) (en_up e) (en_handed e) (en_calls e)
      (en_answers e ++ match pl_pending (en_link e) !! c with Some k => [(c, k, resp)] | None => [] end) (en_replies e).
Proof.
  intros Hc Hr. unfold end_read, link_read, reply_frame. rewrite decode_encode_envelope by done. cbn [kind body target_thread correlation_id].
  rewrite response_roundtrip by done. destruct (pl_pending (en_link e) !! c); [done|]. simpl. unfold with_link. by rewrite app_nil_r.
Qed.

Lemma carries_reply n e e' c resp :
  carries n e e' -> (c, resp) ∈ en_replies e' -> carries n (end_read e (reply_frame c resp)) e'.
Proof.
  intros HC Hin. pose proof HC as [H1 H2 H3 H4 H5 H6 H7 H8 H9 H10]. destruct (H7 _ _ Hin) as (Hok & t0 & r0 & k0 & Hcall).
  rewrite read_reply by (first [done|by eapply call_id_ok]).
  assert (forall c', pl_pending (en_link e) !! c' = None -> delete c (pl_pending (en_link e)) !! c' = None) as Hdel.
  { intros c' Hn. apply lookup_delete_None. by right. }
  split; cbn [en_link en_calls en_answers en_up en_replies pl_pending pl_next pl_queue]; try done.
  - intros c' k' [_ Hp]%lookup_delete_Some. by apply H4.
  - intros c' k' resp' [Hin'|Hin']%elem_of_app.
    + destruct (H8 _ _ _ Hin') as (? & ? & ?). split_and!; [done|by apply Hdel|done].
    + destruct (pl_pending (en_link e) !! c) as [k|] eqn:Ek; [|by apply elem_of_nil in Hin'].
      apply list_elem_of_singleton in Hin' as [= -> -> ->]. split_and!; [by apply H4|apply lookup_delete_eq|by left].
  - unfold answered_ids. cbn [en_answers]. rewrite map_app. destruct (pl_pending (en_link e) !! c) as [k|] eqn:Ek; [|by rewrite app_nil_r].
    apply NoDup_app. split_and!; [done| |apply NoDup_singleton].
    intros c' (k' & resp' & Hin')%answered_ids_elem ->%list_elem_of_singleton. cbn [fst] in Hin'.
    destruct (H8 _ _ _ Hin') as (_ & Hn & _). by rewrite Hn in Ek.
  - intros c' t' r' k' Hup Hc. unfold answered_ids. cbn [en_answers]. rewrite map_app, elem_of_app.
    destruct (H10 _ _ _ _ Hup Hc) as [Hp|?]; [|right; by left]. destruct (decide (c' = c)) as [->|Hne].
    + right. right. rewrite Hp. by apply list_elem_of_singleton.
    + left. by rewrite lookup_delete_ne.
Qed.

Lemma carries_read n e e' frame :
  carries n e e' -> carries n e' e -> frame ∈ pl_queue (en_link e') ->
  carries n (end_read e frame) e' /\ carries n e' (end_read e frame).
Proof.
  intros HC HC' Hf. destruct (ca_queue _ _ _ HC' frame Hf) as [(c & t & r & k & Hc & ->)|(c & resp & Hin & ->)].
  - destruct (ca_calls _ _ _ HC' _ _ _ _ Hc) as [Ht Hr]. rewrite read_request by (first [done|by eapply call_id_ok]). split.
    + destruct HC. by split.
    + destruct HC' as [H1 H2 H3 H4 H5 H6 H7 H8 H9 H10]. split; try done. cbn [en_handed].
      intros c' t' r' [Hin| [= -> -> ->]%list_elem_of_singleton]%elem_of_app; [by apply (H6 c' t' r')|by exists k].
  - split; [by apply carries_reply|]. destruct (ca_replies _ _ _ HC _ _ Hin) as (Hok & t & r & k & Hc).
    rewrite read_reply by (first [done|by eapply (call_id_ok _ _ _ _ _ _ _ HC)]). by eapply carries_peer.
Qed.

(** *** The system *)

Lemma carries_pop n e e' frame queue :
  pl_queue (en_link e) = frame :: queue -> carries n e e' ->
  carries n (with_link e (mkLink (pl_pending (en_link e)) (pl_next (en_link e)) queue) (en_up e)) e'.
Proof.
  intros Hq [H1 H2 H3 H4 H5 H6 H7 H8 H9 H10]. split; try done. cbn [with_link en_link pl_queue]. intros f Hf. apply H5. rewrite Hq. by right.
Qed.

Definition both (n : nat) p : Prop := forall s, carries n (side p s) (side p (negb s)).

Lemma side_set p s e : side (set_side p s e) s = e.
Proof. by destruct s. Qed.
Lemma side_set_ne p s e : side (set_side p s e) (negb s) = side p (negb s).
Proof. by destruct s. Qed.

Lemma both_set n p s e :
  carries n e (side p (negb s)) -> carries n (side p (negb s)) e -> both n (set_side p s e).
Proof.
  intros H H' s'. destruct (decide (s' = s)) as [->|Hne]; [by rewrite side_set, side_set_ne|].
  assert (s' = negb s) as -> by by destruct s, s'. by rewrite negb_involutive, side_set, side_set_ne.
Qed.

Lemma both_side n p s : both n p -> carries n (side p s) (side p (negb s)) /\ carries n (side p (negb s)) (side p s).
Proof. intros H. split; [apply H|]. pose proof (H (negb s)) as H'. by rewrite negb_involutive in H'. Qed.

Lemma end_drop_peer n e e' : carries n e' e -> carries n e' (end_drop e).
Proof. intros H. eapply carries_peer; [exact H|..]; rewrite end_drop_eq; [by intros h Hh|done]. Qed.

Lemma both_step n p a p' : both (S n) p -> act_ok a -> pair_step p a = Some p' -> both n p'.
Proof.
  intros HB Hok Hs. assert (both n p) as HB0 by (intros s; apply carries_less, HB). destruct a as [s t r k|s c resp|s|s]; cbn [pair_step] in Hs.
  - injection Hs as <-. destruct (both_side _ _ s HB) as [H _], (both_side _ _ s HB0) as [_ H'].
    apply both_set; [by destruct Hok; apply carries_call|]. by eapply carries_peer.
  - apply bind_Some in Hs as (e & He & [= <-]). destruct (both_side _ _ s HB0) as [H H'].
    apply both_set; [by eapply carries_respond|by eapply carries_responded].
  - destruct (en_up (side p s)); cbn [negb] in Hs; [|done].
    destruct (pl_queue (en_link (side p (negb s)))) as [|frame queue] eqn:Hq; [done|].
    destruct (write_frame frame); [|done..]. injection Hs as <-. set (sender := with_link _ _ _).
    destruct (both_side _ _ s HB0) as [H H'].
    assert (carries n sender (side p s)) as Hc' by (by eapply carries_pop).
    assert (carries n (side p s) sender) as Hc by (by eapply carries_peer).
    assert (forall e, carries n e sender -> carries n sender e -> both n (set_side (set_side p (negb s) sender) s e)) as Hset.
    { intros e He He'. apply both_set; by rewrite side_set. }
    destruct (MAX_FRAME_LEN <? zlen frame); [apply Hset; [by apply carries_drop|by apply end_drop_peer]|].
    destruct (carries_read n (side p s) (side p (negb s)) frame H H') as [Hr Hr']; [rewrite Hq; left|].
    apply Hset; [by eapply carries_peer|by eapply carries_pop].
  - destruct (en_up (side p s)); [|done]. injection Hs as <-. destruct (both_side _ _ s HB0) as [H H'].
    apply both_set; [by apply carries_drop|by apply end_drop_peer].
Qed.

Definition fresh_pair : End K * End K := (End_new, End_new).

Lemma both_fresh n : Z.of_nat n < 2 ^ 64 -> both n fresh_pair.
Proof.
  intros Hn s. assert (carries n (@End_new K) End_new); [|by destruct s].
  assert (forall c t r k, ~ call_at (@End_new K) c t r k) as Hno by (intros c t r k [_ H]; done).
  split; cbn [End_new en_link en_calls en_answers en_up en_replies en_handed PeerLink_new pl_pending pl_next pl_queue]; try done;
    try (by intros ? ? ? []%elem_of_nil); try (by intros ? ? []%elem_of_nil); try (by intros ? []%elem_of_nil).
  - by intros c t r k []%Hno.
  - constructor.
  - by intros c t r k _ []%Hno.
Qed.

Lemma both_run n p acts p' :
  both (length acts + n) p -> Forall act_ok acts -> pair_run p acts = Some p' -> both n p'.
Proof.
  revert p. induction acts as [|a acts IH]; intros p HB HF Hr; cbn [pair_run] in Hr; [by injection Hr as <-|].
  apply Forall_cons in HF as [Ha HF]. apply bind_Some in Hr as (p1 & Hs & Hr). eapply IH; [|done|exact Hr].
  by eapply both_step.
Qed.

(** C21: each call over a peer link is answered at most once, and by its own answer. After
    any calls, replies, deliveries and drops at the two ends of a fresh connection,
    fewer than [2^64] of them, no id is answered twice; an answer goes to the callback
    of the call with its id and is what the other end replied to that call, or the
    disconnection error once this end's reader is gone. When the reader ends, every
    call made before has been answered. *)
Theorem answers_match_their_calls acts p s :
  Forall act_ok acts -> Z.of_nat (length acts) < 2 ^ 64 -> pair_run fresh_pair acts = Some p ->
  let e := side p s in let peer := side p (negb s) in
  NoDup (answered_ids e) /\
  (forall c k resp, (c, k, resp) ∈ en_answers e ->
     (exists t r, call_at e c t r k) /\ ((c, resp) ∈ en_replies peer \/ (resp = disconnected /\ en_up e = false))) /\
  (forall c resp, (c, resp) ∈ en_replies peer -> exists t r k, call_at e c t r k) /\
  (en_up e = true -> exists p', pair_step p (ActDrop s) = Some p' /\
     forall c t r k, call_at e c t r k -> exists resp, (c, k, resp) ∈ en_answers (side p' s)).
Proof.
  intros HF Hn Hr e peer. pose proof (both_run 0 _ _ _ ltac:(rewrite Nat.add_0_r; by apply both_fresh) HF Hr s) as HC.
  fold e peer in HC. split; [apply HC|]. split.
  { intros c k resp Hin. by destruct (ca_answers _ _ _ HC _ _ _ Hin) as (? & _ & ?). }
  split; [intros c resp Hin; by destruct (ca_replies _ _ _ HC _ _ Hin)|]. intros Hup. cbn [pair_step]. fold e. rewrite Hup.
  eexists. split; [reflexivity|]. rewrite side_set. intros c t r k Hc.
  destruct (ca_open _ _ _ HC _ _ _ _ Hup Hc) as [Hp|(k' & resp & Hin)%answered_ids_elem].
  - exists disconnected. apply dropped_answers. by right.
  - exists resp. apply dropped_answers. left. destruct (ca_answers _ _ _ HC _ _ _ Hin) as ((t' & r' & Hc') & _).
    by rewrite (call_at_fun _ _ _ _ _ _ _ _ Hc Hc').
Qed.

(** *** After the reader has ended *)

Lemma step_down p a p' s :
  en_up (side p s) = false -> pair_step p a = Some p' -> en_up (side p' s) = false /\ en_answers (side p' s) = en_answers (side p s).
Proof.
  intros Hd Hs. destruct a as [s' t r k|s' c resp|s'|s']; cbn [pair_step] in Hs.
  - injection Hs as <-. by destruct s, s'.
  - apply bind_Some in Hs as (e & He & [= <-]). unfold end_respond in He. apply bind_Some in He as ([i h] & _ & [= <-]). by destruct s, s'.
  - destruct (en_up (side p s')) eqn:Hup; cbn [negb] in Hs; [|done]. assert (s = negb s') as -> by (destruct s, s'; simpl in *; congruence).
    destruct (pl_queue _) as [|frame queue]; [done|]. destruct (write_frame frame); [|done..]. injection Hs as <-.
    rewrite side_set_ne, side_set. by rewrite Hd.
  - destruct (en_up (side p s')) eqn:Hup; [|done]. injection Hs as <-. assert (s = negb s') as -> by (destruct s, s'; simpl in *; congruence).
    by rewrite side_set_ne.
Qed.

(** A call made once the reader has ended is never answered: the connection stays in
    the registry, its calls are accepted, and whatever happens then, no callback of
    this end runs again. *)
Theorem call_after_the_drop_is_never_answered p s t r k acts p' :
  en_up (side p s) = false -> pair_run p (ActCall s t r k :: acts) = Some p' ->
  en_answers (side p' s) = en_answers (side p s).
Proof.
  generalize (ActCall s t r k :: acts) as l. clear acts. intros l. revert p. induction l as [|a l IH]; intros p Hd Hr; cbn [pair_run] in Hr.
  { by injection Hr as <-. }
  apply bind_Some in Hr as (p1 & Hs & Hr). destruct (step_down _ _ _ _ Hd Hs) as [Hd1 E]. rewrite <- E. by apply IH.
Qed.
End correlation.

(** One end acquires twice; the other grants the second and drops out before the first. *)
Definition acquire (op : Z) : Request.t := Request.Acquire op 7 1 0.
Definition two_calls : list (link_act Z) :=
  [ActCall true 0 (acquire 1) 10; ActCall true 0 (acquire 2) 20; ActDeliver false; ActDeliver false;
   ActRespond false 1 Response.Granted; ActDeliver true].

Lemma answers_match_their_calls_witness :
  exists p p', pair_run fresh_pair two_calls = Some p /\ en_answers (side p true) = [(1, 20, Response.Granted)] /\
    pair_step p (ActDrop true) = Some p' /\ exists resp, (0, 10, resp) ∈ en_answers (side p' true).
Proof.
  destruct (pair_run fresh_pair two_calls) as [p|] eqn:E; [|vm_compute in E; discriminate E].
  assert (en_answers (side p true) = [(1, 20, Response.Granted)] /\ en_up (side p true) = true /\
    call_at (side p true) 0 0 (acquire 1) 10) as (Ha & Hup & Hc).
  { vm_compute in E. injection E as <-. vm_compute. repeat split; done. }
  destruct (answers_match_their_calls two_calls p true) as (_ & _ & _ & Hdrop); [by repeat constructor|reflexivity|exact E|].
  destruct (Hdrop Hup) as (p' & Hs & Hall). exists p, p'. split; [done|]. split; [exact Ha|]. split; [exact Hs|].
  exact (Hall 0 0 (acquire 1) 10 Hc).
Defined.
