(* ===== verification/Cluster.v ===== *)
(** * A node's view of the cluster

    Models [crates/seisin-node/src/halt.rs], [gossip_state.rs], [gossip_client.rs]
    and [gossip_server.rs]: the serving gate, the shared gossip state, the rings and
    books a ring mutation touches, a turn of the gossip server and a turn of the
    probing loop. A lock guards one field at a time; what a function does under its
    locks is one step. The network is the payload a probe reads back; the pool is
    the one of [Pool.v]. *)

From S2P Require Import Prelude Core Cache Ring Membership Sequencer FailureDetector GossipWire Names Indexes Worker Pool.

(** ** halt.rs *)

Record HaltState := mkHalt { halted : bool; reason : option bytes; paused : bool; pause_reason : option bytes }.

Definition HaltState_new : HaltState := mkHalt false None false None.

(** The first reason stays. *)
Definition do_halt (h : HaltState) (why : bytes) : HaltState :=
  mkHalt true (Some (default why (reason h))) (paused h) (pause_reason h).
Definition clear_halt (h : HaltState) : HaltState := mkHalt false None (paused h) (pause_reason h).
Definition pause (h : HaltState) (why : bytes) : HaltState := mkHalt (halted h) (reason h) true (Some why).
Definition resume (h : HaltState) : HaltState := mkHalt (halted h) (reason h) false None.

Definition gate (h : HaltState) : option bytes :=
  if halted h then Some (default (lit "cluster halted") (reason h))
  else if paused h then Some (lit "cluster paused: " ++ default [] (pause_reason h))
  else None.

(** ** gossip_state.rs *)

Definition RECENT_MUTATIONS_CAP : Z := 16.

Record GossipState := mkGossip {
  member_table : gmap NodeId MemberRecord; mutation_log : MutationLog; recent_mutations : list mutation_record }.

Definition GossipState_new : GossipState := mkGossip ∅ MutationLog_new [].

Definition with_table (g : GossipState) (t : gmap NodeId MemberRecord) : GossipState :=
  mkGossip t (mutation_log g) (recent_mutations g).

(** The [while] of [record_mutation]. *)
Fixpoint trim_recent (recent : list mutation_record) : list mutation_record :=
  match recent with
  | [] => []
  | _ :: rest => if RECENT_MUTATIONS_CAP <? zlen recent then trim_recent rest else recent
  end.

Definition record_mutation (g : GossipState) (epoch : Z) (mutation : RingMutation) : GossipState :=
  mkGossip (member_table g) (record (mutation_log g) epoch mutation) (trim_recent (recent_mutations g ++ [(epoch, mutation)])).

Definition piggyback (g : GossipState) : list MemberUpdate * list mutation_record :=
  (all_members (member_table g), recent_mutations g).

Definition merge_incoming (g : GossipState) (updates : list MemberUpdate) (mutations : list mutation_record) : GossipState :=
  fold_left (λ g m, record_mutation g m.1 m.2) mutations (with_table g (merge_all (member_table g) updates)).

Record ClusterState := mkCluster {
  compute_ring : Ring; storage_ring : Ring; store_addresses : gmap NodeId bytes; identity_book : gmap NodeId DatumId;
  storage_alive : gset NodeId; storage_stale : gset NodeId; halt : HaltState }.

Definition compute_only (r : Ring) : ClusterState := mkCluster r (from_members []) ∅ ∅ ∅ ∅ HaltState_new.

Definition with_compute_ring (c : ClusterState) (r : Ring) : ClusterState :=
  mkCluster r (storage_ring c) (store_addresses c) (identity_book c) (storage_alive c) (storage_stale c) (halt c).
Definition with_book (c : ClusterState) (book : gmap NodeId DatumId) : ClusterState :=
  mkCluster (compute_ring c) (storage_ring c) (store_addresses c) book (storage_alive c) (storage_stale c) (halt c).
Definition with_serving (c : ClusterState) (alive stale : gset NodeId) : ClusterState :=
  mkCluster (compute_ring c) (storage_ring c) (store_addresses c) (identity_book c) alive stale (halt c).
Definition with_halt (c : ClusterState) (h : HaltState) : ClusterState :=
  mkCluster (compute_ring c) (storage_ring c) (store_addresses c) (identity_book c) (storage_alive c) (storage_stale c) h.

Definition NO_LOG_ID : bytes := replicate 16 (u8 0).

(** [entry(..).or_insert_with(..)] for a storage member whose log id is known. *)
Definition reconcile_member (book : gmap NodeId DatumId) (u : MemberUpdate) : gmap NodeId DatumId :=
  if bool_decide (u_role u = Storage /\ u_log_id u <> NO_LOG_ID) then
    match book !! u_node_id u with Some _ => book | None => <[u_node_id u := from_bytes (u_log_id u)]> book end
  else book.

Definition reconcile_identity_book (g : GossipState) (c : ClusterState) : ClusterState :=
  with_book c (fold_left reconcile_member (all_members (member_table g)) (identity_book c)).

Definition mutation_node (m : RingMutation) : NodeId := match m with Join n _ | Leave n => n end.

Definition role_in (t : gmap NodeId MemberRecord) (n : NodeId) : MemberRole := default Compute (u_role <$> member_get t n).

(** A storage member that joins becomes available; the ring stays as it is. *)
Definition storage_join (t : gmap NodeId MemberRecord) (c : ClusterState) (n : NodeId) : ClusterState :=
  let addresses u := if bool_decide (u_store_address u = []) then store_addresses c else <[n := u_store_address u]> (store_addresses c) in
  let book u := if bool_decide (u_log_id u = NO_LOG_ID) then identity_book c else <[n := from_bytes (u_log_id u)]> (identity_book c) in
  let u := member_get t n in
  mkCluster (compute_ring c) (storage_ring c) (from_option addresses (store_addresses c) u) (from_option book (identity_book c) u)
    ({[n]} ∪ storage_alive c) (storage_stale c) (halt c).

(** One turn of the [for] of [apply_ready_mutations]. *)
Definition apply_mutation (t : gmap NodeId MemberRecord) (c : ClusterState) (m : RingMutation) : ClusterState :=
  match role_in t (mutation_node m), m with
  | Compute, Join n thread_count => with_compute_ring c (apply_join (compute_ring c) n thread_count)
  | Compute, Leave n => with_compute_ring c (apply_leave (compute_ring c) n)
  | Storage, Join n _ => storage_join t c n
  | Storage, Leave n => with_serving c (storage_alive c ∖ {[n]}) ({[n]} ∪ storage_stale c)
  end.

Definition changes_compute (t : gmap NodeId MemberRecord) (m : RingMutation) : bool :=
  bool_decide (role_in t (mutation_node m) = Compute).

Section node.
Context {S R : Type}.
Implicit Types (p : Pool S R).

(** What the threads are told once the compute ring has changed. A thread asks the
    ring when it takes the message; here the ring is the one the mutations left. *)
Definition announce (self : NodeId) (r : Ring) (ready : list RingMutation) p : Pool S R :=
  let is_native id := match native r id with Ok (n, _) => n =? self | _ => false end in
  fold_left (λ p m, match m with Leave n => pool_release_locks_held_by p n | Join _ _ => p end) ready
    (pool_evict_non_native p is_native).

Definition apply_ready_mutations (self : NodeId) (g : GossipState) (c : ClusterState) p : GossipState * ClusterState * Pool S R :=
  let '(ready, log) := drain_applicable (mutation_log g) in
  let g := mkGossip (member_table g) log (recent_mutations g) in
  let c := fold_left (apply_mutation (member_table g)) ready c in
  (g, c, if existsb (changes_compute (member_table g)) ready then announce self (compute_ring c) ready p else p).

(** The state the threads of a compute node share. *)
Definition NodeState : Type := GossipState * ClusterState * Pool S R.

(** *** gossip_server.rs *)

Definition message_facts (m : GossipMessage) : list MemberUpdate * list mutation_record :=
  match m with Ping us ms | PingReq _ us ms | Ack us ms => (us, ms) end.

(** Merge, apply, reconcile. *)
Definition gossip_turn (self : NodeId) (s : NodeState) (facts : list MemberUpdate * list mutation_record) : NodeState :=
  let '(g, c, p) := s in
  let '(g, c, p) := apply_ready_mutations self (merge_incoming g facts.1 facts.2) c p in
  (g, reconcile_identity_book g c, p).

(** The state after a payload and the reply, when there is one. *)
Definition handle_gossip_connection (self : NodeId) (s : NodeState) (payload : bytes) : NodeState * option bytes :=
  match decode_gossip_message payload with
  | Ok message =>
      let s := gossip_turn self s (message_facts message) in
      let '(us, ms) := piggyback s.1.1 in (s, Some (encode_gossip_message (Ack us ms)))
  | _ => (s, None)
  end.

(** *** gossip_client.rs *)

Definition self_refute_if_falsely_suspected (self : NodeId) (g : GossipState) : res GossipState :=
  match member_get (member_table g) self with
  | Some u =>
      if bool_decide (u_status u = Suspect) then
        '(refutation, t) ← confirm_alive_self (member_table g) self;
        Ok (with_table g (merge_update t refutation).2)
      else Ok g
  | None => Ok g
  end.

Definition highest_seen_epoch (g : GossipState) : Z := fold_left Z.max (map fst (recent_mutations g)) 0.

Definition mint_leave_if_sequencer (self : NodeId) (g : GossipState) (dead : NodeId) : GossipState :=
  if is_sequencer self (alive_members (member_table g))
  then record_mutation g (highest_seen_epoch g + 1) (Leave dead) else g.

(** [reply] is the payload read back, none when a step of the exchange fails. *)
Definition send_ping (g : GossipState) (target : NodeId) (reply : option bytes) : bool * GossipState :=
  match member_get (member_table g) target, reply with
  | Some _, Some payload =>
      match decode_gossip_message payload with
      | Ok (Ack us ms) => (true, merge_incoming g us ms)
      | _ => (false, g)
      end
  | _, _ => (false, g)
  end.

(** The variables of [run_gossip_loop]. *)
Record LoopState := mkLoop { lp_detector : FailureDetector; lp_index : Z; lp_outstanding : option NodeId }.

(** A probe is begun when none is outstanding. *)
Definition begin_probe (self : NodeId) (g : GossipState) (now : Z) (l : LoopState) : LoopState :=
  match lp_outstanding l with
  | Some _ => l
  | None =>
      let candidates := base.filter (λ id, id <> self) (alive_members (member_table g)) in
      match candidates !! Z.to_nat (lp_index l mod zlen candidates) with
      | Some target => mkLoop (begin_direct_probe (lp_detector l) now target) (wrap 64 (lp_index l + 1)) (Some target)
      | None => l
      end
  end.

Definition probe (reply : option bytes) (g : GossipState) (l : LoopState) : GossipState * LoopState :=
  match lp_outstanding l with
  | Some target =>
      let '(acked, g) := send_ping g target reply in
      (g, if acked then mkLoop (on_ack (lp_detector l) target) (lp_index l) None else l)
  | None => (g, l)
  end.

Definition act (self : NodeId) (s : GossipState * option NodeId) (action : TimeoutAction) : GossipState * option NodeId :=
  match action with
  | EscalateToIndirect _ => s
  | MarkSuspect target => (with_table s.1 (mark_suspect (member_table s.1) target).2, s.2)
  | MarkDead target =>
      (mint_leave_if_sequencer self (with_table s.1 (mark_dead (member_table s.1) target).2) target,
       if bool_decide (s.2 = Some target) then None else s.2)
  end.

(** A turn of [run_gossip_loop]: the clock is read at [t0] and [t1]. *)
Definition gossip_tick (self : NodeId) (t0 t1 : Z) (reply : option bytes) (s : NodeState) (l : LoopState) : res (NodeState * LoopState) :=
  let '(g, c, p) := s in
  g ← self_refute_if_falsely_suspected self g;
  let '(g, l) := probe reply g (begin_probe self g t0 l) in
  let '(actions, detector) := check_timeouts (lp_detector l) t1 in
  let '(g, outstanding) := fold_left (act self) actions (g, lp_outstanding l) in
  let '(g, c, p) := apply_ready_mutations self g c p in
  Ok ((g, reconcile_identity_book g c, p), mkLoop detector (lp_index l) outstanding).
End node.

(** [serve_gossip_storage]: a storage node's turn; the instant is what [record]
    stores in its heartbeat. *)
Definition gossip_turn_storage (now : Z) (s : GossipState * Z) (payload : bytes) : GossipState * Z * option bytes :=
  match decode_gossip_message payload with
  | Ok message =>
      let '(us, ms) := message_facts message in
      let g := merge_incoming s.1 us ms in
      let '(us, ms) := piggyback g in (g, now, Some (encode_gossip_message (Ack us ms)))
  | _ => (s, None)
  end.

(** ** Gossip carries the sequencer's history *)

Lemma merge_incoming_table g us ms : member_table (merge_incoming g us ms) = merge_all (member_table g) us.
Proof.
  unfold merge_incoming. change (merge_all (member_table g) us) with (member_table (with_table g (merge_all (member_table g) us))) at 2.
  generalize (with_table g (merge_all (member_table g) us)). induction ms as [|m ms IH]; intros g'; [done|]. simpl. by rewrite IH.
Qed.

Lemma merge_incoming_log g us ms :
  mutation_log (merge_incoming g us ms) = fold_left (λ l m, record l m.1 m.2) ms (mutation_log g).
Proof.
  unfold merge_incoming. change (mutation_log g) with (mutation_log (with_table g (merge_all (member_table g) us))).
  generalize (with_table g (merge_all (member_table g) us)). induction ms as [|m ms IH]; intros g'; [done|]. simpl. by rewrite IH.
Qed.

(** The ring mutations of a compute tier. *)
Definition mutate_ring (r : Ring) (m : RingMutation) : Ring :=
  match m with Join n thread_count => apply_join r n thread_count | Leave n => apply_leave r n end.

(** The log events of a node that takes its gossip one message after the other. *)
Definition turn_events (turns : list (list MemberUpdate * list mutation_record)) : list log_event :=
  mjoin (map (λ t, map (λ m, Deliver m.1 m.2) t.2 ++ [Drain]) turns).

Lemma turn_events_snoc turns t :
  turn_events (turns ++ [t]) = (turn_events turns ++ map (λ m, Deliver m.1 m.2) t.2) ++ [Drain].
Proof. unfold turn_events. rewrite map_app, join_app. simpl. by rewrite app_nil_r, app_assoc. Qed.

Lemma log_run_deliver evs ms :
  log_run (evs ++ map (λ m, Deliver m.1 m.2) ms) = (fold_left (λ l m, record l m.1 m.2) ms (log_run evs).1, (log_run evs).2).
Proof.
  unfold log_run. rewrite fold_left_app. generalize (fold_left log_step evs (MutationLog_new, [])).
  induction ms as [|m ms IH]; intros s; simpl; [by destruct s|]. by rewrite IH.
Qed.

Lemma log_run_snoc evs ev : log_run (evs ++ [ev]) = log_step (log_run evs) ev.
Proof. unfold log_run. by rewrite fold_left_app. Qed.

Section history.
Context (f : Z -> RingMutation).

(** No one the history names is known as a storage member. *)
Definition compute_named (t : gmap NodeId MemberRecord) : Prop :=
  forall n r, t !! n = Some r -> r_role r = Storage -> forall e, mutation_node (f e) <> n.

Definition facts_of_history (facts : list MemberUpdate * list mutation_record) : Prop :=
  Forall (λ u, u_role u = Storage -> forall e, mutation_node (f e) <> u_node_id u) facts.1 /\
  Forall (λ m : mutation_record, m.2 = f m.1) facts.2.

Lemma compute_named_merge t us :
  compute_named t -> Forall (λ u, u_role u = Storage -> forall e, mutation_node (f e) <> u_node_id u) us ->
  compute_named (merge_all t us).
Proof.
  induction us as [|u us IH] using rev_ind; intros Ht Hu; [done|]. apply Forall_app in Hu as [Hus Hu]. apply Forall_inv in Hu.
  rewrite merge_all_snoc. specialize (IH Ht Hus). revert IH. generalize (merge_all t us). intros t' IH n r Hr Hs.
  destruct (decide (n = u_node_id u)) as [->|Hne].
  - unfold merge_update in Hr. destruct (t' !! u_node_id u) as [cur|] eqn:E; [destruct (accepts u cur)|]; simpl in Hr.
    + rewrite lookup_insert_eq in Hr. injection Hr as <-. by apply Hu.
    + rewrite E in Hr. injection Hr as ->. by apply (IH _ _ E).
    + rewrite lookup_insert_eq in Hr. injection Hr as <-. by apply Hu.
  - rewrite merge_update_lookup_ne in Hr by done. by apply (IH n r).
Qed.

Lemma apply_history_mutation t c e :
  compute_named t ->
  compute_ring (apply_mutation t c (f e)) = mutate_ring (compute_ring c) (f e) /\
  storage_ring (apply_mutation t c (f e)) = storage_ring c.
Proof.
  intros Ht. assert (role_in t (mutation_node (f e)) = Compute) as Hr.
  { unfold role_in, member_get. destruct (t !! mutation_node (f e)) as [r|] eqn:E; [simpl|done].
    destruct (r_role r) eqn:Hs; [done|]. by destruct (Ht _ _ E Hs e). }
  unfold apply_mutation. rewrite Hr. by destruct (f e).
Qed.

Lemma apply_history t c es :
  compute_named t ->
  compute_ring (fold_left (apply_mutation t) (map f es) c) = fold_left mutate_ring (map f es) (compute_ring c) /\
  storage_ring (fold_left (apply_mutation t) (map f es) c) = storage_ring c.
Proof.
  intros Ht. revert c. induction es as [|e es IH]; intros c; [done|]. simpl.
  destruct (apply_history_mutation t c e Ht) as [<- <-]. apply IH.
Qed.
End history.

Section turns.
Context {S R : Type} (f : Z -> RingMutation) (self : NodeId).
Implicit Types (p : Pool S R).

(** After some turns: the log is the one of their events, and the compute ring has
    seen what that log released. *)
Definition turns_inv (r0 rs : Ring) turns (s : NodeState (S := S) (R := R)) : Prop :=
  let '(g, c, _) := s in
  mutation_log g = (log_run (turn_events turns)).1 /\ compute_named f (member_table g) /\
  compute_ring c = fold_left mutate_ring (log_run (turn_events turns)).2 r0 /\ storage_ring c = rs.

Lemma turn_events_history turns : Forall (facts_of_history f) turns -> Forall (from_history f) (turn_events turns).
Proof.
  induction turns as [|t turns IH] using rev_ind; intros HF; [constructor|]. apply Forall_app in HF as [HF Ht].
  apply Forall_inv in Ht as [_ Hm]. rewrite turn_events_snoc. apply Forall_app. split; [|by repeat constructor].
  apply Forall_app. split; [by apply IH|]. apply Forall_map. eapply Forall_impl; [exact Hm|]. by intros m ->.
Qed.

Lemma gossip_turn_inv r0 rs turns t s :
  Forall (facts_of_history f) turns -> facts_of_history f t -> turns_inv r0 rs turns s ->
  turns_inv r0 rs (turns ++ [t]) (gossip_turn self s t).
Proof.
  intros HT [Hu Hm] HI. destruct s as [[g c] p]. destruct HI as (Hl & Ht & Hc & Hs).
  assert (from_history_all : Forall (from_history f) (turn_events turns ++ map (λ m, Deliver m.1 m.2) t.2)).
  { apply Forall_app. split; [by apply turn_events_history|]. apply Forall_map. eapply Forall_impl; [exact Hm|]. by intros m ->. }
  pose proof (log_run_inv f _ from_history_all) as (Hok & Hout & _). rewrite log_run_deliver in Hok, Hout. simpl in Hok, Hout.
  unfold turns_inv, gossip_turn, apply_ready_mutations. rewrite merge_incoming_log, merge_incoming_table, Hl.
  rewrite turn_events_snoc, log_run_snoc, log_run_deliver. simpl.
  pose proof (drain_spec f _ Hok) as HD. destruct (drain_applicable _) as [ready l'] eqn:ED. destruct HD as (-> & _).
  simpl. pose proof (compute_named_merge f _ _ Ht Hu) as Ht'. split; [reflexivity|]. split; [exact Ht'|]. split.
  - destruct (apply_history f _ c (epochs (applied_epoch (fold_left (λ l m, record l m.1 m.2) t.2 (log_run (turn_events turns)).1))
      (applied_epoch l')) Ht') as [-> _]. by rewrite Hc, fold_left_app.
  - rewrite <- Hs. by apply (apply_history f).
Qed.

Lemma gossip_turns_inv g c p turns :
  mutation_log g = MutationLog_new -> compute_named f (member_table g) -> Forall (facts_of_history f) turns ->
  turns_inv (compute_ring c) (storage_ring c) turns (fold_left (gossip_turn self) turns (g, c, p)).
Proof.
  intros Hg Ht. induction turns as [|t turns IH] using rev_ind; intros HF; [done|].
  apply Forall_app in HF as [HF Hl]. apply Forall_inv in Hl. rewrite fold_left_app. simpl. apply gossip_turn_inv; auto.
Qed.
End turns.

(** C18: however one history of sequenced mutations of the compute tier reaches a
    node - in any order, split over any messages, any number of times, with any
    membership news - a node that takes its messages one after the other holds the
    compute ring that the history up to its epoch makes, and its storage ring is
    untouched; once every mutation up to epoch [k] has been in a message, its epoch
    is at least [k]. Two such nodes at the same epoch own every datum alike. *)
Theorem gossip_builds_the_ring_of_the_history {S R : Type} (f : Z -> RingMutation) (self : NodeId) g c (p : Pool S R) turns (k : Z) :
  mutation_log g = MutationLog_new -> compute_named f (member_table g) -> Forall (facts_of_history f) turns ->
  let '(g', c', _) := fold_left (gossip_turn self) turns (g, c, p) in
  let e := applied_epoch (mutation_log g') in
  compute_ring c' = fold_left mutate_ring (map f (epochs 0 e)) (compute_ring c) /\ storage_ring c' = storage_ring c /\
  ((forall i, 0 < i <= k -> exists t, t ∈ turns /\ (i, f i) ∈ t.2) -> k <= e).
Proof.
  intros Hg Ht HF. pose proof (gossip_turns_inv f self g c p turns Hg Ht HF) as HI.
  destruct (fold_left (gossip_turn self) turns (g, c, p)) as [[g' c'] p']. destruct HI as (Hl & _ & Hc & Hs).
  pose proof (log_run_inv f _ (turn_events_history f turns HF)) as (_ & Hout & _).
  rewrite Hl, Hc, Hout. split; [done|]. split; [done|]. intros Hall.
  destruct turns as [|t turns _] using rev_ind.
  - destruct (decide (k <= 0)) as [|Hk]; [done|]. destruct (Hall 1) as (t & Hin & _); [lia|]. set_solver.
  - pose proof (turn_events_history f _ HF) as HE. rewrite turn_events_snoc in *. apply Forall_app in HE as [HE _].
    apply (drain_progress f); [done|]. intros i Hi. destruct (Hall i Hi) as (t' & Hin & Hm).
    rewrite elem_of_app. apply elem_of_app in Hin as [Hin|Hin%list_elem_of_singleton].
    + left. unfold turn_events. apply list_elem_of_join. exists (map (λ m, Deliver m.1 m.2) t'.2 ++ [Drain]). split.
      * apply elem_of_app. left. apply list_elem_of_fmap. by exists (i, f i).
      * apply list_elem_of_fmap. by exists t'.
    + subst t'. right. apply list_elem_of_fmap. by exists (i, f i).
Qed.

Definition demo_history (e : Z) : RingMutation := if e =? 2 then Leave 7 else Join (e + 6) 2.

Lemma gossip_builds_the_ring_of_the_history_witness :
  let turns := [([], [(2, demo_history 2)]); ([demo_update 7 0 Alive], [(3, demo_history 3); (1, demo_history 1)])] in
  let '(_, c', _) := fold_left (gossip_turn 7) turns
    (GossipState_new, compute_only (from_members [(1, 2)]), Pool_spawn (R := SkResidentIndex) InMemoryStore_new 2) in
  slots (compute_ring c') = [(1, 0); (1, 1); (9, 0); (9, 1)].
Proof.
  intros turns.
  pose proof (gossip_builds_the_ring_of_the_history demo_history 7 GossipState_new (compute_only (from_members [(1, 2)]))
    (Pool_spawn (R := SkResidentIndex) InMemoryStore_new 2) turns 3) as H.
  assert (HE : applied_epoch (mutation_log (fold_left (gossip_turn 7) turns
    (GossipState_new, compute_only (from_members [(1, 2)]), Pool_spawn (R := SkResidentIndex) InMemoryStore_new 2)).1.1) = 3)
    by (vm_compute; reflexivity).
  destruct (fold_left _ _ _) as [[g' c'] p']. simpl in HE. destruct H as (H & _).
  - done.
  - intros n r Hr. simpl in Hr. by rewrite lookup_empty in Hr.
  - repeat constructor; done.
  - rewrite H, HE. vm_compute. reflexivity.
Defined.

(** ** What goes wrong *)

(** The gossip server's threads and the probing loop as they interleave: each drains
    the shared log and then applies what it drained, one mutation at a time. *)
Inductive drain_event :=
| Arrives (epoch : Z) (mutation : RingMutation)
| Drains (thread : nat)
| Applies (thread : nat).

Definition drain_step (t : gmap NodeId MemberRecord) (s : MutationLog * ClusterState * list (list RingMutation)) (ev : drain_event) :=
  let '(log, c, held) := s in
  match ev with
  | Arrives epoch m => (record log epoch m, c, held)
  | Drains i => let '(ready, log) := drain_applicable log in (log, c, <[i := ready]> held)
  | Applies i =>
      match held !! i with
      | Some (m :: ready) => (log, apply_mutation t c m, <[i := ready]> held)
      | _ => s
      end
  end.

Definition drain_run t (s : MutationLog * ClusterState * list (list RingMutation)) (evs : list drain_event) :=
  fold_left (drain_step t) evs s.

(** The lock of the log is released before the mutations drained from it are
    applied. Two threads that drain one after the other can apply in the other
    order: with two joins at epochs 1 and 2, the second can be appended first, and
    the node then owns data otherwise than every node that applied them in turn. *)
Theorem racing_turns_reorder_mutations :
  exists evs c log,
    let start := (MutationLog_new, compute_only (from_members [(1, 1)]), [[]; []]) in
    drain_run ∅ start evs = (log, c, [[]; []]) /\ applied_epoch log = 2 /\
    evs = [Arrives 1 (Join 7 1); Drains 0; Arrives 2 (Join 8 1); Drains 1; Applies 1; Applies 0] /\
    native (compute_ring c) 1 = Ok (8, 0) /\
    native (fold_left mutate_ring [Join 7 1; Join 8 1] (from_members [(1, 1)])) 1 = Ok (7, 0).
Proof.
  eexists [Arrives 1 (Join 7 1); Drains 0; Arrives 2 (Join 8 1); Drains 1; Applies 1; Applies 0], _, _.
  split; [vm_compute; reflexivity|]. split; [vm_compute; reflexivity|]. split; [done|]. split; vm_compute; reflexivity.
Qed.

(** The buffer keeps the last sixteen. *)
Lemma trim_recent_drop l : trim_recent l = drop (length l - 16) l.
Proof.
  induction l as [|x l IH]; [done|]. cbn [trim_recent]. unfold RECENT_MUTATIONS_CAP, zlen. cbn [length].
  destruct (Z.ltb_spec 16 (Z.of_nat (S (length l)))) as [Hl|Hl].
  - rewrite IH. replace (S (length l) - 16)%nat with (S (length l - 16))%nat by lia. done.
  - by replace (S (length l) - 16)%nat with 0%nat by lia.
Qed.

Lemma merge_incoming_recent g us ms :
  ms <> [] ->
  let all := recent_mutations g ++ ms in recent_mutations (merge_incoming g us ms) = drop (length all - 16) all.
Proof.
  cbn zeta. unfold merge_incoming. change (recent_mutations g) with (recent_mutations (with_table g (merge_all (member_table g) us))).
  generalize (with_table g (merge_all (member_table g) us)). intros g'. induction ms as [|[e m] ms IH] using rev_ind; [done|].
  intros _. rewrite fold_left_app, app_assoc. cbn [fold_left record_mutation recent_mutations fst snd]. rewrite trim_recent_drop.
  destruct (decide (ms = [])) as [->|Hne]; [by rewrite app_nil_r|]. rewrite (IH Hne).
  set (all := recent_mutations g' ++ ms). rewrite <- (drop_app_le all [(e, m)]) by lia.
  rewrite drop_drop, length_drop, !length_app. cbn [length]. f_equal. lia.
Qed.

Lemma record_applied l e m : e <= applied_epoch l -> record l e m = l.
Proof. intros He. unfold record. by destruct (Z.ltb_spec (applied_epoch l) e); [lia|]. Qed.

Lemma fold_max_le l x b : x <= b -> Forall (λ y, y <= b) l -> fold_left Z.max l x <= b.
Proof. revert x. induction l as [|y l IH]; intros x Hx Hl; [done|]. apply Forall_cons in Hl as [Hy Hl]. apply IH; [lia|done]. Qed.

(** The next epoch is one more than the highest in the buffer of recent
    mutations, not than the applied one. A message from a peer that lags - sixteen
    old mutations, or more - pushes every newer one out of the buffer; the [Leave]
    the sequencer then mints for a dead member is given an epoch already applied and
    is dropped by its own log, so no ring ever loses the member. *)
Theorem lagging_peer_loses_the_leave g us ms self dead :
  0 < applied_epoch (mutation_log g) -> (16 <= length ms)%nat ->
  Forall (λ m : mutation_record, m.1 < applied_epoch (mutation_log g)) ms ->
  mutation_log (mint_leave_if_sequencer self (merge_incoming g us ms) dead) = mutation_log g.
Proof.
  intros H0 Hlen Hms.
  assert (mutation_log (merge_incoming g us ms) = mutation_log g) as Hlog.
  { rewrite merge_incoming_log. clear Hlen. induction ms as [|m ms IH]; [done|]. apply Forall_cons in Hms as [Hm Hms].
    cbn [fold_left]. rewrite record_applied by lia. by apply IH. }
  unfold mint_leave_if_sequencer. destruct (is_sequencer _ _); [|done]. cbn [record_mutation mutation_log]. rewrite Hlog.
  apply record_applied. unfold highest_seen_epoch. rewrite merge_incoming_recent by (intros ->; simpl in Hlen; lia).
  set (l := drop _ _). assert (Forall (λ y, y <= applied_epoch (mutation_log g) - 1) (map fst l)) as Hl.
  { unfold l. rewrite length_app, drop_app_ge by lia. apply Forall_map, Forall_drop. eapply Forall_impl; [exact Hms|]. intros m Hm. simpl in *. lia. }
  pose proof (fold_max_le (map fst l) 0 (applied_epoch (mutation_log g) - 1) ltac:(lia) Hl). lia.
Qed.

Lemma lagging_peer_loses_the_leave_witness :
  let old := map (λ e, (e, Join e 1)) (epochs 0 16) in
  let joins := map (λ e, (e, Join e 1)) (epochs 0 17) in
  let g := merge_incoming GossipState_new [demo_update 1 0 Alive; demo_update 7 0 Alive] joins in
  let g := mkGossip (member_table g) (drain_applicable (mutation_log g)).2 (recent_mutations g) in
  let lagging := merge_incoming g [] old in
  let dead := with_table lagging (mark_dead (member_table lagging) 7).2 in
  is_sequencer 1 (alive_members (member_table dead)) = true /\
  mutation_log (mint_leave_if_sequencer 1 dead 7) = mutation_log g.
Proof.
  intros old joins g g' lagging dead. split; [vm_compute; reflexivity|].
  assert (dead = merge_incoming (with_table g' (member_table dead)) [] old) as -> by (vm_compute; reflexivity).
  refine (lagging_peer_loses_the_leave (with_table g' (member_table dead)) [] old 1 7 _ _ _); [by vm_compute|vm_compute; lia|].
  apply Forall_map, Forall_forall. intros e He. apply elem_of_seqZ in He. change (e < 17). lia.
Defined.
