(* ===== verification/NodeConfig.v ===== *)
(** * The configuration of a node and the state it boots with

    Models [crates/seisin-node/src/config.rs], the parsed configuration and what it
    answers, and the part of [node.rs] that builds the state of a node from it: the
    rings, the address books and the seeded membership table. Reading the file,
    binding the listeners and starting the threads are not modelled. *)

From S2P Require Import Prelude Core Ring Membership Sequencer FailureDetector GossipWire Names Worker Pool Cluster.

(** ** config.rs *)

Inductive NodeRole := ComputeNode | StorageNode.

#[global] Instance NodeRole_eq_dec : EqDecision NodeRole.
Proof. solve_decision. Defined.

Record MemberConfig := mkMember {
  mc_node_id : Z; mc_address : bytes; mc_gossip_address : bytes; mc_peer_link_address : bytes; mc_thread_count : Z;
  mc_role : NodeRole; mc_store_address : option bytes; mc_capacity_weight : option Z }.

Record NodeConfig := mkConfig {
  nc_self_node_id : Z; nc_members : list MemberConfig; nc_data_dir : bytes; nc_probe_interval_millis : option Z;
  nc_probe_timeout_millis : option Z; nc_suspicion_timeout_millis : option Z; nc_self_halt_threshold_millis : option Z }.

Definition probe_interval_millis (c : NodeConfig) : Z := default PROBE_TIMEOUT_MILLIS (nc_probe_interval_millis c).
Definition probe_timeout (c : NodeConfig) : Z := default PROBE_TIMEOUT_MILLIS (nc_probe_timeout_millis c).
Definition suspicion_timeout (c : NodeConfig) : Z := default SUSPICION_TIMEOUT_MILLIS (nc_suspicion_timeout_millis c).
Definition self_halt_threshold (c : NodeConfig) : Z := default SUSPICION_TIMEOUT_MILLIS (nc_self_halt_threshold_millis c).

Definition has_role (role : NodeRole) (m : MemberConfig) : bool := bool_decide (mc_role m = role).

Definition storage_ring_members (c : NodeConfig) : list (Z * Z) :=
  map (λ m, (mc_node_id m, default 1 (mc_capacity_weight m))) (List.filter (has_role StorageNode) (nc_members c)).

(** [collect] into a [HashMap]: the last entry of a key stays. *)
Definition collect {A} (entries : list (Z * A)) : gmap Z A := fold_left (λ m e, <[e.1 := e.2]> m) entries ∅.

Definition store_address_book (c : NodeConfig) : gmap Z bytes :=
  collect (omap (λ m, (λ a, (mc_node_id m, a)) <$> mc_store_address m) (List.filter (has_role StorageNode) (nc_members c))).

Definition self_member (c : NodeConfig) : option MemberConfig :=
  find (λ m, mc_node_id m =? nc_self_node_id c) (nc_members c).

(** [expect]: a configuration that does not list its node panics. *)
Definition self_address (c : NodeConfig) : res bytes :=
  match self_member c with Some m => Ok (mc_address m) | None => Panic end.

(** ** node.rs *)

Definition member_role (r : NodeRole) : MemberRole := match r with ComputeNode => Compute | StorageNode => Storage end.

Definition seed_update (log_id_of : MemberConfig -> bytes) (m : MemberConfig) : MemberUpdate :=
  mkUpdate (mc_node_id m) 0 Alive (mc_address m) (mc_gossip_address m) (mc_thread_count m) (member_role (mc_role m))
    (default 1 (mc_capacity_weight m)) (default [] (mc_store_address m)) (log_id_of m).

Definition seed_member_table (g : GossipState) (c : NodeConfig) (log_id_of : MemberConfig -> bytes) : GossipState :=
  with_table g (fold_left (λ t m, (merge_update t (seed_update log_id_of m)).2) (nc_members c) (member_table g)).

(** What a storage node seeds: its own log id. *)
Definition storage_seed (c : NodeConfig) (self_log_id : bytes) : GossipState :=
  seed_member_table GossipState_new c (λ m, if mc_node_id m =? nc_self_node_id c then self_log_id else NO_LOG_ID).

Definition compute_seed (c : NodeConfig) : GossipState := seed_member_table GossipState_new c (λ _, NO_LOG_ID).

(** The rings and books a compute node starts with. *)
Definition boot_cluster (c : NodeConfig) : ClusterState :=
  let compute := map (λ m, (mc_node_id m, mc_thread_count m)) (List.filter (has_role ComputeNode) (nc_members c)) in
  let storage := storage_ring_members c in
  mkCluster (from_members compute) (from_members storage) (store_address_book c) ∅ (list_to_set (map fst storage)) ∅ HaltState_new.

Definition address_book (c : NodeConfig) : gmap NodeId bytes := collect (map (λ m, (mc_node_id m, mc_address m)) (nc_members c)).
Definition peer_link_address_book (c : NodeConfig) : gmap NodeId bytes :=
  collect (map (λ m, (mc_node_id m, mc_peer_link_address m)) (nc_members c)).

(** [run] on the role of its node: which servers it starts, with what state. *)
Inductive Boot :=
| BootStorage (store_address : bytes) (seed : bytes -> GossipState)
| BootCompute (gossip : GossipState) (cluster : ClusterState) (threads : Z) (remote : bool).

Definition boot (c : NodeConfig) : res Boot :=
  match self_member c with
  | None => Err "self_node_id not in members"
  | Some m =>
      match mc_role m with
      | StorageNode =>
          match mc_store_address m with
          | Some a => Ok (BootStorage a (storage_seed c))
          | None => Err "storage members must set store_address"
          end
      | ComputeNode =>
          Ok (BootCompute (compute_seed c) (boot_cluster c) (mc_thread_count m)
            (negb (bool_decide (storage_ring_members c = []))))
      end
  end.

(** ** What the members learn of a storage node's log *)

Section seed.
Context (log_id_of : MemberConfig -> bytes).

(** A fact at incarnation 0 that says a node is alive is never news of a node that is
    already known. *)
Lemma first_fact_is_no_news t u r :
  t !! u_node_id u = Some r -> 0 <= r_incarnation r -> u_incarnation u = 0 -> u_status u = Alive -> (merge_update t u).2 = t.
Proof.
  intros Ht Hr Hi Hs. unfold merge_update, accepts. rewrite Ht, Hi, Hs. change (severity Alive) with 0.
  destruct (Z.ltb_spec (r_incarnation r) 0); [lia|]. destruct (Z.eqb_spec 0 (r_incarnation r)); [|done].
  destruct (Z.ltb_spec (severity (r_status r)) 0); [|done]. pose proof (severity_range (r_status r)). lia.
Qed.

(** The table of a node that was seeded: everyone is known, at incarnation 0, with the
    log id the seed gave. *)
Lemma seeded_table ms t :
  (forall n r, t !! n = Some r -> r_incarnation r = 0 /\ r_status r = Alive /\ exists m, r_log_id r = log_id_of m /\ mc_node_id m = n) ->
  let t' := fold_left (λ t m, (merge_update t (seed_update log_id_of m)).2) ms t in
  (forall n r, t' !! n = Some r -> r_incarnation r = 0 /\ r_status r = Alive /\ exists m, r_log_id r = log_id_of m /\ mc_node_id m = n) /\
  forall n, is_Some (t' !! n) <-> is_Some (t !! n) \/ n ∈ map mc_node_id ms.
Proof.
  revert t. induction ms as [|m ms IH]; intros t Ht; [simpl; set_solver|]. cbn zeta. cbn [fold_left map].
  assert ((merge_update t (seed_update log_id_of m) = (false, t) /\ is_Some (t !! mc_node_id m)) \/
    merge_update t (seed_update log_id_of m) = (true, <[mc_node_id m := of_update (seed_update log_id_of m)]> t)) as [[E Hin]|E].
  { unfold merge_update. cbn [u_node_id seed_update]. destruct (t !! mc_node_id m) as [r|] eqn:E; [left|by right].
    destruct (Ht _ _ E) as (Hi & Hs & _). split; [|by exists r]. unfold accepts. rewrite Hi, Hs. reflexivity. }
  - rewrite E. destruct (IH t Ht) as [H1 H2]. split; [exact H1|]. intros n. rewrite H2, elem_of_cons.
    split; [tauto|]. intros [?|[-> |?]]; auto.
  - rewrite E. cbn [snd]. destruct (IH (<[mc_node_id m := of_update (seed_update log_id_of m)]> t)) as [H1 H2].
    + intros n r. rewrite lookup_insert_Some. intros [[<- <-]|[Hne Hr]]; [simpl; eauto|by apply Ht].
    + split; [exact H1|]. intros n. rewrite H2, elem_of_cons, lookup_insert_is_Some'. naive_solver.
Qed.
End seed.

Lemma seeded g c log_id_of :
  member_table g = ∅ ->
  let t := member_table (seed_member_table g c log_id_of) in
  (forall n r, t !! n = Some r -> r_incarnation r = 0 /\ r_status r = Alive /\ exists m, r_log_id r = log_id_of m /\ mc_node_id m = n) /\
  forall n, is_Some (t !! n) <-> n ∈ map mc_node_id (nc_members c).
Proof.
  intros Hg. cbn zeta. unfold seed_member_table. cbn [member_table with_table]. rewrite Hg.
  destruct (seeded_table log_id_of (nc_members c) ∅) as [H1 H2]; [intros n r Hr; by rewrite lookup_empty in Hr|].
  split; [exact H1|]. intros n. rewrite H2, lookup_empty. split; [intros [[? ?]|?]; done|tauto].
Qed.

Lemma merge_seed_same t us :
  (forall n r, t !! n = Some r -> r_incarnation r = 0 /\ r_status r = Alive /\
     exists m, r_log_id r = (λ _ : MemberConfig, NO_LOG_ID) m /\ mc_node_id m = n) ->
  Forall (λ u, u_incarnation u = 0 /\ u_status u = Alive /\ is_Some (t !! u_node_id u)) us -> merge_all t us = t.
Proof.
  intros Ht HF. induction us as [|u us IH] using rev_ind; [done|]. apply Forall_app in HF as [HF Hu].
  apply Forall_inv in Hu as (Hi & Hs & r & Hr). rewrite merge_all_snoc, (IH HF). apply (first_fact_is_no_news t u r); [done| |done..].
  destruct (Ht _ _ Hr) as [-> _]. lia.
Qed.

Lemma reconcile_unknown us book : Forall (λ u, u_log_id u = NO_LOG_ID) us -> fold_left reconcile_member us book = book.
Proof.
  intros HF. induction us as [|u us IH]; [done|]. apply Forall_cons in HF as [Hu HF]. cbn [fold_left].
  replace (reconcile_member book u) with book; [by apply IH|]. unfold reconcile_member. by rewrite bool_decide_eq_false_2 by tauto.
Qed.

(** A comment of [run] says that the compute nodes learn a storage member's log id
    by gossip. They do not: every node seeds every configured member at incarnation 0,
    the compute nodes with a zero log id, and a storage node never raises its own
    incarnation; a fact at incarnation 0 about a known live member is no news. However
    often the members' seeds are gossiped, the table of a compute node stays as it
    was seeded and its identity book stays empty. *)
Theorem configured_log_ids_are_never_learned (c : NodeConfig) (log_id_of : NodeConfig -> MemberConfig -> bytes)
    (senders : list NodeConfig) (cluster : ClusterState) :
  Forall (λ s, map mc_node_id (nc_members s) = map mc_node_id (nc_members c)) senders -> identity_book cluster = ∅ ->
  let g := fold_left (λ g s, merge_incoming g (piggyback (seed_member_table GossipState_new s (log_id_of s))).1 [])
    senders (compute_seed c) in
  member_table g = member_table (compute_seed c) /\ identity_book (reconcile_identity_book g cluster) = ∅.
Proof.
  intros HF Hbook. cbn zeta. destruct (seeded GossipState_new c (λ _, NO_LOG_ID) eq_refl) as [Hrec Hdom].
  fold (compute_seed c) in Hrec, Hdom.
  assert (member_table (fold_left (λ g s, merge_incoming g (piggyback (seed_member_table GossipState_new s (log_id_of s))).1 [])
    senders (compute_seed c)) = member_table (compute_seed c)) as Hsame.
  { induction senders as [|s senders IH] using rev_ind; [done|]. apply Forall_app in HF as [HF Hs]. apply Forall_inv in Hs.
    rewrite fold_left_app. cbn [fold_left]. rewrite merge_incoming_table, (IH HF).
    destruct (seeded GossipState_new s (log_id_of s) eq_refl) as [Hrs Hds].
    apply merge_seed_same; [exact Hrec|]. cbn [piggyback fst]. unfold all_members. apply Forall_map, Forall_forall.
    intros [n r] Hin%elem_of_map_to_list. destruct (Hrs n r Hin) as (Hi & Hst & _). split; [done|]. split; [done|].
    apply Hdom. rewrite <- Hs. apply Hds. by exists r. }
  split; [exact Hsame|]. unfold reconcile_identity_book. cbn [identity_book with_book]. rewrite Hsame, Hbook.
  apply reconcile_unknown. unfold all_members. apply Forall_map, Forall_forall.
  intros [n r] Hin%elem_of_map_to_list. by destruct (Hrec n r Hin) as (_ & _ & m & Hl & _).
Qed.

Definition demo_config (self : Z) : NodeConfig :=
  mkConfig self [mkMember 1 (lit "a") (lit "g") (lit "p") 2 ComputeNode None None;
    mkMember 3 (lit "b") (lit "h") [] 1 StorageNode (Some (lit "s")) (Some 4)] (lit "/d") None None None None.

Lemma configured_log_ids_are_never_learned_witness :
  let log_id_of s m := if mc_node_id m =? nc_self_node_id s then replicate 16 (u8 4) else NO_LOG_ID in
  u_log_id <$> member_get (member_table (seed_member_table GossipState_new (demo_config 3) (log_id_of (demo_config 3)))) 3
    = Some (replicate 16 (u8 4)) /\
  identity_book (reconcile_identity_book
    (merge_incoming (compute_seed (demo_config 1))
      (piggyback (seed_member_table GossipState_new (demo_config 3) (log_id_of (demo_config 3)))).1 []) (boot_cluster (demo_config 1))) = ∅.
Proof.
  intros log_id_of. split; [vm_compute; reflexivity|].
  destruct (configured_log_ids_are_never_learned (demo_config 1) log_id_of [demo_config 3] (boot_cluster (demo_config 1))) as [_ H];
    [by repeat constructor|done|exact H].
Defined.
