(* ===== verification/Server.v ===== *)
(** * The client-facing server and the client

    Models [crates/seisin-node/src/server.rs] and [crates/seisin-client/src/lib.rs]:
    what a node makes of a decoded request - a reply, a call on its pool and the
    reply the answer becomes, or a dropped connection - the control plane, the gate
    in front of the pool as connections interleave, and the client's loop. How a
    node id is rendered in a message is a parameter. *)

From S2P Require Import Prelude Core Cache Ring Protocol Messages Responses Names Indexes OpContext Worker WorkerTheorems Pool Membership Sequencer GossipWire Cluster.

(** ** Requests *)

Inductive PoolCall :=
| CallOp (op_id : DatumId) (op_name : bytes) (datum_ids : list DatumId) (payload : bytes)
| CallQuery (target : DatumId) (index_kind query : bytes)
| CallExecute (target : DatumId) (index_kind payload : bytes).

(** What a handler comes to. *)
Inductive routed :=
| Replied (r : Response.t)
| Calls (c : PoolCall) (k : OpReply -> res Response.t)
| Probes (datum_id : DatumId) (k : bool -> Response.t)
| Drops.

(** The message a pool call posts. *)
Definition pool_call {S R} (r : Ring) (p : Pool S R) (c : PoolCall) (tx : Z) : res (Pool S R) :=
  match c with
  | CallOp op_id op_name datum_ids payload => run_op r p op_id op_name datum_ids payload tx
  | CallQuery target kind query => run_index_query r p target kind query tx
  | CallExecute target kind payload => run_index_execute r p target kind payload tx
  end.

Definition is_admin (request : Request.t) : bool :=
  match request with
  | Request.GetClusterConfig | Request.Pause _ | Request.Resume | Request.ClearHalt | Request.InstallStorageRing _ => true
  | _ => false
  end.

(** *** The control plane *)

Definition handle_get_cluster_config (c : ClusterState) : Response.t :=
  Response.ClusterConfig
    (map (λ m : NodeId * Z, mkStorageMember m.1 m.2 (default [] (store_addresses c !! m.1))
            (default (from_bytes NO_LOG_ID) (identity_book c !! m.1)))
       (weights (storage_ring c))).

Definition handle_install_storage_ring (c : ClusterState) (members : list StorageMember) : ClusterState * Response.t :=
  let addresses := fold_left (λ a m, if bool_decide (sm_store_address m = []) then a else <[sm_node_id m := sm_store_address m]> a)
    members ∅ in
  let identity := fold_left (λ i m, <[sm_node_id m := sm_log_id m]> i) members ∅ in
  (mkCluster (compute_ring c) (from_members (map (λ m, (sm_node_id m, sm_weight m)) members)) addresses identity
     (storage_alive c) (fold_left (λ s m, s ∖ {[sm_node_id m]}) members (storage_stale c)) (halt c),
   Response.Ack).

(** The arm of [ClearHalt]. *)
Definition handle_clear_halt (c : ClusterState) : ClusterState :=
  with_serving (with_halt c (clear_halt (halt c))) (list_to_set (node_ids (storage_ring c))) ∅.

(** The admin requests; the drain of [Pause] is below. *)
Definition handle_admin (c : ClusterState) (request : Request.t) : option (ClusterState * Response.t) :=
  match request with
  | Request.GetClusterConfig => Some (c, handle_get_cluster_config c)
  | Request.Pause why => Some (with_halt c (pause (halt c) why), Response.Ack)
  | Request.Resume => Some (with_halt c (resume (halt c)), Response.Ack)
  | Request.ClearHalt => Some (handle_clear_halt c, Response.Ack)
  | Request.InstallStorageRing members => Some (handle_install_storage_ring c members)
  | _ => None
  end.

Section handlers.
Variable show_node : NodeId -> bytes.
Context (self : NodeId) (book : gmap NodeId bytes) (r : Ring).

(** *** Routing *)

Definition redirect_to (node : NodeId) : routed :=
  match book !! node with
  | Some address => Replied (Response.Redirect address)
  | None => Replied (Response.OpError (lit "no known address for node " ++ show_node node))
  end.

(** [redirect_if_foreign], and the handler's rest. *)
Definition unless_foreign (datum_id : DatumId) (here : routed) : res routed :=
  '(native_node, _) ← native r datum_id;
  Ok (if native_node =? self then here else redirect_to native_node).

Definition native_nodes (datum_ids : list DatumId) : res (gset NodeId) :=
  fold_left (λ acc id, s ← acc; '(n, _) ← native r id; Ok ({[n]} ∪ s)) datum_ids (Ok ∅).

Definition op_response (reply : OpReply) : res Response.t :=
  Ok match reply with ReplyOk payload => Response.OpResult payload | ReplyErr message => Response.OpError message end.

Definition handle_op_request (op_id : DatumId) (op_name : bytes) (datum_ids : list DatumId) (payload : bytes) : res routed :=
  nodes ← native_nodes datum_ids;
  let local := Calls (CallOp op_id op_name datum_ids payload) op_response in
  Ok (match elements nodes with
      | [only_node] => if only_node =? self then local else redirect_to only_node
      | _ => local
      end).

(** *** The handlers of one datum *)

(** A result that is decoded into the response, or the error under its name. *)
Definition decoded {A} (what : string) (decode : bytes -> res A) (mk : A -> Response.t) (reply : OpReply) : res Response.t :=
  match reply with
  | ReplyOk bytes =>
      match decode bytes with
      | Ok x => Ok (mk x)
      | Err e => Ok (Response.OpError (lit "malformed " ++ lit what ++ lit " result: " ++ lit e))
      | Panic => Panic
      end
  | ReplyErr message => Ok (Response.OpError message)
  end.

Definition handle_rk_query (index_datum_id : DatumId) (query : RkQueryKind) : res routed :=
  unless_foreign index_datum_id
    (Calls (CallQuery index_datum_id (lit "rk") (encode_rk_query_kind query))
       (decoded "rk query" decode_rk_entries Response.RkQueryResult)).

Definition lb_result_response : OpReply -> res Response.t := decoded "lb" decode_lb_result Response.LbResult.
Definition tk_result_response : OpReply -> res Response.t := decoded "tk" decode_tk_result Response.TkResult.

Definition handle_lb_execute (board_id : DatumId) (class : bytes) (op : LbExecuteOp) : res routed :=
  unless_foreign board_id (Calls (CallExecute board_id (lit "lb:" ++ class) (encode_lb_execute_op op)) lb_result_response).
Definition handle_lb_query (board_id : DatumId) (class : bytes) (query : LbQueryReq) : res routed :=
  unless_foreign board_id (Calls (CallQuery board_id (lit "lb:" ++ class) (encode_lb_query_req query)) lb_result_response).
Definition handle_tk_execute (entity : DatumId) (class : bytes) (op : TkOp) : res routed :=
  unless_foreign entity (Calls (CallExecute entity (lit "tk:" ++ class) (encode_tk_op op)) tk_result_response).
Definition handle_tk_query (entity : DatumId) (class : bytes) (query : TkQueryReq) : res routed :=
  unless_foreign entity (Calls (CallQuery entity (lit "tk:" ++ class) (encode_tk_query_req query)) tk_result_response).

Definition handle_exists_check (datum_id : DatumId) : res routed := unless_foreign datum_id (Probes datum_id Response.Exists).

Definition handle_fk_pending (pending : DatumId) (op : FkPendingOp) : res routed :=
  let kind := lit "fk_pending" in
  let k := decoded "fk pending" decode_fk_entries Response.FkPendingResult in
  unless_foreign pending
    match op with
    | FkList => Calls (CallQuery pending kind (encode_fk_pending_op op)) k
    | FkRemove _ _ => Calls (CallExecute pending kind (encode_fk_pending_op op)) k
    | FkInsert _ _ => Replied (Response.OpError (lit "fk pending inserts arrive via the write path, not this request"))
    end.

Definition extent_response (what : string) : OpReply -> res Response.t :=
  decoded what decode_extent_result (λ x, Response.ExtentResult x.1 x.2).

Definition handle_extent_query (extent : DatumId) (offset limit : Z) : res routed :=
  unless_foreign extent (Calls (CallQuery extent (lit "partition") (encode_extent_page offset limit)) (extent_response "extent")).
Definition handle_partition_update (partition : DatumId) (op : ExtentOp) : res routed :=
  unless_foreign partition (Calls (CallExecute partition (lit "partition") (encode_extent_op op)) (extent_response "partition")).

(** The [match] of [handle_connection] over op traffic. *)
Definition handle_op_traffic (request : Request.t) : res routed :=
  match request with
  | Request.Op op_id op_name datum_ids payload => handle_op_request op_id op_name datum_ids payload
  | Request.RkQuery id query => handle_rk_query id query
  | Request.LbExecute id class op => handle_lb_execute id class op
  | Request.LbQuery id class query => handle_lb_query id class query
  | Request.TkExecute id class op => handle_tk_execute id class op
  | Request.TkQuery id class query => handle_tk_query id class query
  | Request.ExistsCheck id => handle_exists_check id
  | Request.FkPending id op => handle_fk_pending id op
  | Request.ExtentQuery id offset limit => handle_extent_query id offset limit
  | Request.PartitionUpdate id op => handle_partition_update id op
  | _ => Ok Drops
  end.
End handlers.

(** A turn of [handle_connection] on a decoded request. *)
Definition handle_request (show_node : NodeId -> bytes) (self : NodeId) (book : gmap NodeId bytes) (c : ClusterState)
    (request : Request.t) : ClusterState * res routed :=
  match handle_admin c request with
  | Some (c, response) => (c, Ok (Replied response))
  | None =>
      (c, match gate (halt c) with
          | Some message => Ok (Replied (Response.OpError message))
          | None => handle_op_traffic show_node self book (compute_ring c) request
          end)
  end.

(** ** The client *)

Definition MAX_REDIRECTS : nat := 8.

(** [exchange]: a connection, the request written and the response read. *)
Fixpoint call_loop (exchange : bytes -> res Response.t) (turns : nat) (address : bytes) : res Response.t :=
  match turns with
  | O => Err "gave up after redirects"
  | S turns =>
      response ← exchange address;
      match response with Response.Redirect next => call_loop exchange turns next | other => Ok other end
  end.

Definition call (exchange : bytes -> res Response.t) (initial_address : bytes) : res Response.t :=
  call_loop exchange MAX_REDIRECTS initial_address.

(** ** The gate and the pool's op gate, as connections interleave *)

(** An operation that holds the read guard has yet to ask the gate, or runs. *)
Inductive op_phase := Guarded | Running.

Record Gate := mkGate { gt_halt : HaltState; gt_ops : gmap Z op_phase }.

Inductive gate_event :=
| OpBegins (op : Z) | OpAsks (op : Z) | OpEnds (op : Z)
| PauseEngaged (why : bytes) | PauseAcked | Resumed | Halted (why : bytes) | HaltCleared.

(** [op_guard] takes a read lock for as long as the operation lives; the drain of a
    [Pause] takes the write lock, which waits for every read lock to go. *)
Definition gate_step (s : Gate) (ev : gate_event) : option Gate :=
  match ev with
  | OpBegins op => match gt_ops s !! op with None => Some (mkGate (gt_halt s) (<[op := Guarded]> (gt_ops s))) | Some _ => None end
  | OpAsks op =>
      match gt_ops s !! op with
      | Some Guarded =>
          Some (mkGate (gt_halt s) (if gate (gt_halt s) then delete op (gt_ops s) else <[op := Running]> (gt_ops s)))
      | _ => None
      end
  | OpEnds op => match gt_ops s !! op with Some Running => Some (mkGate (gt_halt s) (delete op (gt_ops s))) | _ => None end
  | PauseEngaged why => Some (mkGate (pause (gt_halt s) why) (gt_ops s))
  | PauseAcked => if bool_decide (gt_ops s = ∅) then Some s else None
  | Resumed => Some (mkGate (resume (gt_halt s)) (gt_ops s))
  | Halted why => Some (mkGate (do_halt (gt_halt s) why) (gt_ops s))
  | HaltCleared => Some (mkGate (clear_halt (gt_halt s)) (gt_ops s))
  end.

Fixpoint gate_run (s : Gate) (evs : list gate_event) : option Gate :=
  match evs with [] => Some s | ev :: evs => s ← gate_step s ev; gate_run s evs end.

(** ** Redirects lead to the owner *)

(** The datums that decide where a request is served. *)
Definition request_datums (request : Request.t) : option (list DatumId) :=
  match request with
  | Request.Op _ _ datum_ids _ => Some datum_ids
  | Request.RkQuery id _ | Request.LbExecute id _ _ | Request.LbQuery id _ _ | Request.TkExecute id _ _
  | Request.TkQuery id _ _ | Request.ExistsCheck id | Request.FkPending id _ | Request.ExtentQuery id _ _
  | Request.PartitionUpdate id _ => Some [id]
  | _ => None
  end.

(** All of them belong to the node [owner]. *)
Definition owned (r : Ring) (owner : NodeId) (request : Request.t) : Prop :=
  exists ids, request_datums request = Some ids /\ ids <> [] /\ Forall (λ d, exists t, native r d = Ok (owner, t)) ids.

(** A handler that serves the request itself, whatever its pool answers. *)
Definition serves (h : routed) : Prop :=
  match h with
  | Replied response => forall a, response <> Response.Redirect a
  | Calls _ k => forall reply a, k reply <> Ok (Response.Redirect a)
  | Probes _ k => forall b a, k b <> Response.Redirect a
  | Drops => False
  end.

Lemma decoded_serves {A} what (decode : bytes -> res A) mk :
  (forall x a, mk x <> Response.Redirect a) -> forall reply a, decoded what decode mk reply <> Ok (Response.Redirect a).
Proof. intros Hmk [b|m] a; simpl; [|done]. destruct (decode b) as [x|e|]; [|done..]. intros [= E]. by apply (Hmk x a). Qed.

Lemma native_nodes_owned r owner ids :
  ids <> [] -> Forall (λ d, exists t, native r d = Ok (owner, t)) ids -> native_nodes r ids = Ok {[owner]}.
Proof.
  intros Hne HF. unfold native_nodes.
  assert (forall acc, fold_left (λ acc id, s ← acc; '(n, _) ← native r id; Ok ({[n]} ∪ s)) ids (Ok acc) =
    Ok (match ids with [] => acc | _ => {[owner]} ∪ acc end : gset NodeId)) as H.
  { clear Hne. induction ids as [|d ids IH]; intros acc; [done|]. apply Forall_cons in HF as [(t & Hd) HF].
    cbn [fold_left]. rsimpl. rewrite Hd. rsimpl. rewrite (IH HF). destruct ids; [done|]. f_equal. set_solver. }
  rewrite H. destruct ids; [done|]. f_equal. set_solver.
Qed.

Lemma traffic_owned show book r owner request :
  owned r owner request ->
  exists h, serves h /\
    forall self, handle_op_traffic show self book r request = Ok (if owner =? self then h else redirect_to show book owner).
Proof.
  intros (ids & Hreq & Hne & HF).
  assert (forall id, ids = [id] -> forall self h, unless_foreign show self book r id h =
    Ok (if owner =? self then h else redirect_to show book owner)) as Hone.
  { intros id -> self h. apply Forall_inv in HF as [t Hd]. unfold unless_foreign. rewrite Hd. by rsimpl. }
  destruct request; try discriminate Hreq; injection Hreq as <-.
  - exists (Calls (CallOp op_id op_name datum_ids payload) op_response). split; [by intros [] a|]. intros self.
    cbn [handle_op_traffic]. unfold handle_op_request. rewrite (native_nodes_owned r owner datum_ids Hne HF). rsimpl.
    by rewrite elements_singleton.
  - eexists; split; cycle 1; [intros self; by apply Hone|by refine (decoded_serves _ _ _ _)].
  - eexists; split; cycle 1; [intros self; by apply Hone|by refine (decoded_serves _ _ _ _)].
  - eexists; split; cycle 1; [intros self; by apply Hone|by refine (decoded_serves _ _ _ _)].
  - eexists; split; cycle 1; [intros self; by apply Hone|by refine (decoded_serves _ _ _ _)].
  - eexists; split; cycle 1; [intros self; by apply Hone|by refine (decoded_serves _ _ _ _)].
  - eexists; split; cycle 1; [intros self; by apply Hone|done].
  - eexists; split; cycle 1; [intros self; by apply Hone|destruct op; [by refine (decoded_serves _ _ _ _)..|done]].
  - eexists; split; cycle 1; [intros self; by apply Hone|by refine (decoded_serves _ _ _ _)].
  - eexists; split; cycle 1; [intros self; by apply Hone|by refine (decoded_serves _ _ _ _)].
Qed.

Section compute_tier.
Variable show : NodeId -> bytes.
Context (book : gmap NodeId bytes) (nodes : gmap NodeId ClusterState) (node_at : bytes -> option NodeId).
(** What the pool of each node answers. *)
Context (answers : NodeId -> PoolCall -> OpReply) (present : NodeId -> DatumId -> bool).

Definition reply_of (n : NodeId) (h : routed) : res Response.t :=
  match h with
  | Replied response => Ok response
  | Calls c k => k (answers n c)
  | Probes d k => Ok (k (present n d))
  | Drops => Err "connection closed"
  end.

(** An exchange with whichever node listens at the address. *)
Definition exchange_with (request : Request.t) (address : bytes) : res Response.t :=
  match node_at address with
  | Some n =>
      match nodes !! n with
      | Some c => h ← (handle_request show n book c request).2; reply_of n h
      | None => Err "connection refused"
      end
  | None => Err "connection refused"
  end.

(** What the node makes of the request when it is the owner. *)
Definition served_by (n : NodeId) (r : Ring) (request : Request.t) : res Response.t :=
  h ← handle_op_traffic show n book r request; reply_of n h.
End compute_tier.

Lemma served_no_redirect show book answers present n r request a :
  owned r n request -> served_by show book answers present n r request <> Ok (Response.Redirect a).
Proof.
  intros Ho. destruct (traffic_owned show book r n request Ho) as (h & Hs & Hh). unfold served_by. rewrite Hh, Z.eqb_refl. rsimpl.
  destruct h; simpl in *; [|apply Hs| |done]; intros [= E]; by eapply Hs.
Qed.

(** C20: a client may start at any compute node. When the nodes agree on the ring, know
    each other's addresses and serve, a request whose datums belong to one node is
    answered by that node's own handler, past at most one redirect; in particular the
    client's loop never gives up and never returns a redirect. *)
Theorem redirects_reach_the_owner show book nodes node_at answers present r owner request start address :
  (forall n a, book !! n = Some a -> node_at a = Some n) ->
  (forall n c, nodes !! n = Some c -> compute_ring c = r /\ gate (halt c) = None) ->
  is_Some (nodes !! owner) -> is_Some (book !! owner) -> owned r owner request ->
  node_at address = Some start -> is_Some (nodes !! start) ->
  call (exchange_with show book nodes node_at answers present request) address =
    served_by show book answers present owner r request /\
  forall a, served_by show book answers present owner r request <> Ok (Response.Redirect a).
Proof.
  intros Hat Hag [co Hco] [ao Hao] Ho Hstart [cs Hcs].
  assert (handle_admin co request = None /\ handle_admin cs request = None) as [Had Has].
  { destruct Ho as (ids & Hids & _). by destruct request. }
  destruct (traffic_owned show book r owner request Ho) as (h & Hs & Hh).
  assert (exchange_with show book nodes node_at answers present request ao =
    served_by show book answers present owner r request) as Hlast.
  { unfold exchange_with, handle_request. rewrite (Hat _ _ Hao), Hco, Had. by destruct (Hag _ _ Hco) as [-> ->]. }
  pose proof (served_no_redirect show book answers present owner r request) as Hno. split; [|intros a; by apply Hno].
  assert (forall k, call_loop (exchange_with show book nodes node_at answers present request) (S k) ao =
    served_by show book answers present owner r request) as Hdone.
  { intros k. cbn [call_loop]. rewrite Hlast. destruct (served_by _ _ _ _ _ _ _) as [x| |]; [|done..]. rsimpl.
    destruct x; [|done..]. by destruct (Hno address0 Ho). }
  assert (exchange_with show book nodes node_at answers present request address =
    reply_of answers present start (if owner =? start then h else redirect_to show book owner)) as Hfirst.
  { unfold exchange_with, handle_request. rewrite Hstart, Hcs, Has. destruct (Hag _ _ Hcs) as [-> ->]. cbn [snd].
    rewrite (Hh start). by rsimpl. }
  unfold call, MAX_REDIRECTS. destruct (Z.eqb_spec owner start) as [->|Hne].
  - rewrite <- (Hdone 7%nat). cbn [call_loop]. rewrite Hlast, Hfirst. unfold served_by. by rewrite (Hh start), Z.eqb_refl.
  - change 8%nat with (S 7). cbn [call_loop]. rewrite Hfirst. unfold redirect_to. rewrite Hao. cbn [reply_of]. rsimpl. apply (Hdone 6%nat).
Qed.

Lemma redirects_reach_the_owner_witness :
  let r := from_members [(1, 1); (2, 1)] in
  let nodes := <[1 := compute_only r]> {[2 := compute_only r]} in
  let book : gmap NodeId bytes := <[1 := lit "a"]> {[2 := lit "b"]} in
  let node_at a := if bool_decide (a = lit "a") then Some 1 else if bool_decide (a = lit "b") then Some 2 else None in
  let answers n c := ReplyOk (to_le 1 n) in
  let request := Request.Op 9 (lit "append") [1; 1] [] in
  exchange_with no_text book nodes node_at answers (λ _ _, false) request (lit "a") = Ok (Response.Redirect (lit "b")) /\
  call (exchange_with no_text book nodes node_at answers (λ _ _, false) request) (lit "a") = Ok (Response.OpResult [u8 2]).
Proof.
  intros r nodes book node_at answers request. split; [vm_compute; reflexivity|].
  destruct (redirects_reach_the_owner no_text book nodes node_at answers (λ _ _, false) r 2 request 1 (lit "a")) as [H _].
  - intros n a Hn. unfold book in Hn. apply lookup_insert_Some in Hn as [[<- <-]|[_ [<- <-]%lookup_singleton_Some]]; done.
  - intros n c Hn. unfold nodes in Hn. apply lookup_insert_Some in Hn as [[<- <-]|[_ [<- <-]%lookup_singleton_Some]]; done.
  - by exists (compute_only r).
  - by exists (lit "b").
  - exists [1; 1]. split; [done|]. split; [done|]. repeat constructor; (exists 0; vm_compute; reflexivity).
  - done.
  - by exists (compute_only r).
  - rewrite H. vm_compute. reflexivity.
Defined.

(** ** The pause is a barrier *)

Definition no_resume (evs : list gate_event) : Prop := Resumed ∉ evs.

Definition none_running (s : Gate) : Prop := forall op, gt_ops s !! op <> Some Running.

Lemma gate_closed h : paused h = true -> exists m, gate h = Some m.
Proof. intros Hp. unfold gate. rewrite Hp. destruct (halted h); eauto. Qed.

(** While paused, nothing starts to run. *)
Lemma gate_step_paused s ev s' :
  gate_step s ev = Some s' -> ev <> Resumed -> paused (gt_halt s) = true ->
  paused (gt_halt s') = true /\ (none_running s -> none_running s') /\ (ev = PauseAcked -> none_running s').
Proof.
  intros E Hne Hp. destruct ev; simpl in E; try done.
  - destruct (gt_ops s !! op) eqn:Ho; [done|]. injection E as <-. split; [done|]. split; [|done].
    intros Hr op'. simpl. destruct (decide (op' = op)) as [->|]; [by rewrite lookup_insert_eq|rewrite lookup_insert_ne by done; apply Hr].
  - destruct (gt_ops s !! op) as [[]|] eqn:Ho; [|done..]. injection E as <-. destruct (gate_closed _ Hp) as [m ->].
    split; [done|]. split; [|done]. intros Hr op'. simpl. destruct (decide (op' = op)) as [->|];
      [by rewrite lookup_delete_eq|rewrite lookup_delete_ne by done; apply Hr].
  - destruct (gt_ops s !! op) as [[]|] eqn:Ho; [done| |done]. injection E as <-. split; [done|]. split; [|done].
    intros Hr. by destruct (Hr op).
  - injection E as <-. by split_and!.
  - case_bool_decide as He; [|done]. injection E as <-. split_and!; [done..|]. intros _ op. by rewrite He, lookup_empty.
  - injection E as <-. by split_and!.
  - injection E as <-. by split_and!.
Qed.

Lemma gate_run_app s evs evs' : gate_run s (evs ++ evs') = (s ← gate_run s evs; gate_run s evs').
Proof. revert s. induction evs as [|ev evs IH]; intros s; [done|]. simpl. destruct (gate_step s ev); [apply IH|done]. Qed.

Lemma gate_run_paused s evs s' :
  gate_run s evs = Some s' -> no_resume evs -> paused (gt_halt s) = true ->
  paused (gt_halt s') = true /\ (none_running s -> none_running s').
Proof.
  revert s. induction evs as [|ev evs IH]; intros s E Hn Hp; [injection E as ->; done|]. simpl in E.
  destruct (gate_step s ev) as [s1|] eqn:E1; [|done]. unfold no_resume in Hn. apply not_elem_of_cons in Hn as [Hne Hn].
  destruct (gate_step_paused s ev s1 E1 (not_eq_sym Hne) Hp) as (Hp1 & Hr1 & _).
  destruct (IH s1 E Hn Hp1) as [Hp' Hr']. split; [done|auto].
Qed.

(** C15: the acknowledgement of [Pause] is a barrier. However connections interleave -
    operations already inside, operations between taking the guard and asking the
    gate, other pauses, halts and their clearing - from the moment a pause is
    acknowledged until somebody resumes no operation runs, and none that arrives is
    let through. *)
Theorem acknowledged_pause_is_a_barrier s before why during after s' :
  gate_run s (before ++ PauseEngaged why :: during ++ PauseAcked :: after) = Some s' ->
  no_resume during -> no_resume after ->
  none_running s' /\ exists message, gate (gt_halt s') = Some message.
Proof.
  intros E Hd Ha. rewrite gate_run_app in E. destruct (gate_run s before) as [s1|]; [|done]. cbn in E.
  change (gate_run (mkGate (pause (gt_halt s1) why) (gt_ops s1)) (during ++ PauseAcked :: after) = Some s') in E.
  rewrite gate_run_app in E. destruct (gate_run _ during) as [s2|] eqn:E2; [|done].
  destruct (gate_run_paused _ _ _ E2 Hd eq_refl) as [Hp2 _].
  change ((s ← gate_step s2 PauseAcked; gate_run s after) = Some s') in E.
  destruct (gate_step s2 PauseAcked) as [s3|] eqn:E3; [|done].
  destruct (gate_step_paused _ _ _ E3 ltac:(done) Hp2) as (Hp3 & _ & Hr3).
  destruct (gate_run_paused _ _ _ E Ha Hp3) as [Hp' Hr']. split; [by apply Hr', Hr3|by apply gate_closed].
Qed.

Lemma acknowledged_pause_is_a_barrier_witness :
  exists s', gate_run (mkGate HaltState_new ∅)
    [OpBegins 1; OpAsks 1; OpBegins 2; PauseEngaged (lit "migrating"); OpBegins 3; OpAsks 3; OpAsks 2; OpEnds 1; PauseAcked;
     HaltCleared; OpBegins 4; OpAsks 4] = Some s' /\ none_running s' /\ exists message, gate (gt_halt s') = Some message.
Proof.
  eexists. split; [reflexivity|].
  apply (acknowledged_pause_is_a_barrier (mkGate HaltState_new ∅) [OpBegins 1; OpAsks 1; OpBegins 2] (lit "migrating")
    [OpBegins 3; OpAsks 3; OpAsks 2; OpEnds 1] [HaltCleared; OpBegins 4; OpAsks 4]);
    [reflexivity|unfold no_resume; set_solver|unfold no_resume; set_solver].
Defined.

(** ** The control plane *)

Lemma elem_of_fold_minus {A} (f : A -> NodeId) (l : list A) (s : gset NodeId) n :
  n ∈ fold_left (λ s m, s ∖ {[f m]}) l s <-> n ∈ s /\ n ∉ map f l.
Proof.
  revert s. induction l as [|x l IH]; intros s; simpl; [set_solver|]. rewrite IH. set_solver.
Qed.

Lemma fold_left_ext {A B} (f g : A -> B -> A) l a : (forall a b, f a b = g a b) -> fold_left f l a = fold_left g l a.
Proof. intros E. revert a. induction l as [|x l IH]; intros a; [done|]. simpl. by rewrite E, IH. Qed.

Lemma lookup_fold_book {A V} (f : A -> NodeId) (g : A -> V) (keep : A -> bool) l (m : gmap NodeId V) x :
  NoDup (map f l) -> x ∈ l ->
  fold_left (λ m x, if keep x then <[f x := g x]> m else m) l m !! f x = if keep x then Some (g x) else m !! f x.
Proof.
  revert m. induction l as [|y l IH]; intros m Hnd Hin; [set_solver|]. apply NoDup_cons in Hnd as [Hy Hnd]. simpl.
  assert (forall m : gmap NodeId V, f y ∉ map f l -> fold_left (λ m x, if keep x then <[f x := g x]> m else m) l m !! f y = m !! f y) as Hout.
  { clear. induction l as [|z l IH]; intros m Hn; [done|]. simpl in *. apply not_elem_of_cons in Hn as [Hz Hn].
    rewrite IH by done. destruct (keep z); [by rewrite lookup_insert_ne|done]. }
  apply elem_of_cons in Hin as [->|Hin].
  - rewrite Hout by done. destruct (keep y); [by rewrite lookup_insert_eq|done].
  - rewrite (IH _ Hnd Hin). destruct (keep x); [done|]. destruct (keep y); [|done]. rewrite lookup_insert_ne; [done|].
    intros E. apply Hy. rewrite E. apply list_elem_of_fmap. by exists x.
Qed.

(** An install followed by a config request answers the members that were installed,
    in their order, with their weights, addresses and log ids: what the migration
    driver reads back is what it wrote. The install re-admits exactly the members that
    were stale, and leaves the compute ring, the gate and the alive set as they were -
    a member that was not alive is in the ring without serving. *)
Theorem installed_ring_is_reported (c : ClusterState) (members : list StorageMember) :
  NoDup (map sm_node_id members) -> Forall (λ m, 0 < sm_weight m) members ->
  let c' := (handle_install_storage_ring c members).1 in
  handle_get_cluster_config c' = Response.ClusterConfig members /\
  (forall n, n ∈ storage_stale c' <-> n ∈ storage_stale c /\ n ∉ map sm_node_id members) /\
  storage_alive c' = storage_alive c /\ compute_ring c' = compute_ring c /\ halt c' = halt c.
Proof.
  intros Hnd Hw. cbn zeta. split_and!; try done; [|intros n; apply elem_of_fold_minus].
  unfold handle_get_cluster_config, handle_install_storage_ring. cbn [fst storage_ring store_addresses identity_book].
  destruct (weights_from_members (map (λ m, (sm_node_id m, sm_weight m)) members)) as [-> _].
  - by rewrite <- list_fmap_compose.
  - by apply Forall_map.
  - f_equal. rewrite map_map. transitivity (map id members); [|apply map_id]. apply map_ext_in. intros m Hm%list_elem_of_In. cbn [fst snd].
    pose proof (lookup_fold_book sm_node_id sm_log_id (λ _, true) members ∅ m Hnd Hm) as Hi. cbn beta iota in Hi. rewrite Hi.
    pose proof (lookup_fold_book sm_node_id sm_store_address (λ m, negb (bool_decide (sm_store_address m = []))) members ∅ m Hnd Hm) as Ha.
    rewrite (fold_left_ext _ (λ a m, if negb (bool_decide (sm_store_address m = [])) then <[sm_node_id m := sm_store_address m]> a else a)).
    + rewrite Ha. case_bool_decide as He; simpl; [rewrite lookup_empty; simpl; rewrite <- He|]; by destruct m.
    + intros a x. by case_bool_decide.
Qed.

Lemma installed_ring_is_reported_witness :
  let members := [mkStorageMember 9 3 (lit "s9") 4; mkStorageMember 5 1 [] 7] in
  handle_get_cluster_config (handle_install_storage_ring (compute_only ring_empty) members).1 = Response.ClusterConfig members.
Proof.
  intros members. apply installed_ring_is_reported.
  - by repeat constructor; set_solver.
  - by repeat constructor.
Defined.

(** An operation on datums of several nodes is run where the client sent it, by the
    thread whose number most of its datums have - on whichever node they live. When
    another node has more threads than this one, that number can be past the end of
    the pool's threads: the handler's thread panics and the client is never answered. *)
Theorem spread_operation_panics_on_a_smaller_node {S R : Type} (p : Pool S R) show book :
  let r := from_members [(1, 1); (2, 3)] in
  length (workers p) = 1%nat ->
  handle_op_request show 1 book r 9 (lit "append") [2; 6; 10] [] = Ok (Calls (CallOp 9 (lit "append") [2; 6; 10] []) op_response) /\
  pool_call r p (CallOp 9 (lit "append") [2; 6; 10] []) 0 = Panic.
Proof.
  cbn zeta. intros Hp. split; [vm_compute; reflexivity|]. cbn [pool_call]. unfold run_op.
  replace (pick_destination_thread (from_members [(1, 1); (2, 3)]) [2; 6; 10]) with (Ok 2) by (vm_compute; reflexivity). rsimpl.
  unfold send_to, index. rewrite lookup_ge_None_2; [done|rewrite Hp; simpl; lia].
Qed.

Lemma spread_operation_panics_on_a_smaller_node_witness :
  pool_call (from_members [(1, 1); (2, 3)]) (Pool_spawn (R := SkResidentIndex) InMemoryStore_new 1)
    (CallOp 9 (lit "append") [2; 6; 10] []) 0 = Panic.
Proof. by apply (spread_operation_panics_on_a_smaller_node _ no_text ∅). Defined.
