(* ===== verification/IndexKinds.v ===== *)
(** * The registry of index kinds, and a ranked index end to end

    Models the registry of [crates/seisin-node/src/index_handler.rs] and the
    [register_*] functions of [crates/seisin-types]: which structure a thread opens for
    an index datum, by the name of its kind. A leaderboard's calls go to the storage
    tier, so its structure is not among those a modelled thread keeps ([LbKind.v] has
    its operations). The composition: a client's ranking query through the node's
    routing, the thread and its file. *)

From S2P Require Import Prelude Core Codec Cache Ring Protocol Messages Responses Names Pages BTree BTreeRep BTreeQuery BTreeInsert BTreeSpec RankKeys Indexes RankedTree TreeKinds TkKind Collections LbKind OpContext Collation Worker WorkerInv WorkerTheorems Pool Membership Sequencer Cluster Server.

(** ** The resident structures *)

Inductive Resident :=
| RSk (s : SkResidentIndex)
| RFkPending (s : FkPendingResident)
| RRk (s : RkResidentIndex BPlusTree)
| RPartition (s : PartitionResident BPlusTree)
| RTk (s : TkResidentHistory BPlusTree).

Definition inject {A B} (mk : A -> Resident) (r : A * B) : Resident * B := (mk r.1, r.2).

(** A call on the trait object. *)
#[export] Instance any_resident : ResidentIndex Resident := {
  ix_apply r payload :=
    match r with
    | RSk s => inject RSk (ix_apply s payload) | RFkPending s => inject RFkPending (ix_apply s payload)
    | RRk s => inject RRk (ix_apply s payload) | RPartition s => inject RPartition (ix_apply s payload)
    | RTk s => inject RTk (ix_apply s payload)
    end;
  ix_query r query :=
    match r with
    | RSk s => inject RSk (ix_query s query) | RFkPending s => inject RFkPending (ix_query s query)
    | RRk s => inject RRk (ix_query s query) | RPartition s => inject RPartition (ix_query s query)
    | RTk s => inject RTk (ix_query s query)
    end;
  ix_execute r payload :=
    match r with
    | RSk s => inject RSk (ix_execute s payload) | RFkPending s => inject RFkPending (ix_execute s payload)
    | RRk s => inject RRk (ix_execute s payload) | RPartition s => inject RPartition (ix_execute s payload)
    | RTk s => inject RTk (ix_execute s payload)
    end
}.

(** ** The kinds *)

(** A history's clock is what it reads at a call; a board's store is attached or not. *)
Inductive IndexKind :=
| SkIndexKind
| FkPendingKind
| RkIndexKind (data_dir : directory)
| PartitionKind (data_dir : directory)
| TkIndexKind (def : TkClassDef) (data_dir : directory) (clock : Z)
| LbIndexKind (def : LbClassDef) (cache_config : DatumId -> LbCacheConfig) (collection_store : bool).

(** [IndexKind::open] *)
Definition open_kind (k : IndexKind) : option (DatumId -> option bytes -> res Resident) :=
  match k with
  | SkIndexKind => Some (λ _ stored, s ← sk_open stored; Ok (RSk s))
  | FkPendingKind => Some (λ _ stored, s ← fk_open stored; Ok (RFkPending s))
  | RkIndexKind dir => Some (λ target stored, s ← rk_open dir target stored; Ok (RRk s))
  | PartitionKind dir => Some (λ target stored, s ← partition_open dir target stored; Ok (RPartition s))
  | TkIndexKind def dir clock => Some (λ target stored, s ← tk_open def clock dir target stored; Ok (RTk s))
  | LbIndexKind _ _ _ => None
  end.

(** [IndexKind::attach_collection_store]; a second store is ignored. *)
Definition attach (k : IndexKind) : IndexKind :=
  match k with LbIndexKind def cache_config _ => LbIndexKind def cache_config true | k => k end.

(** ** The registry *)

Abbreviation IndexKindRegistry := (gmap bytes IndexKind) (only parsing).

Definition register (r : IndexKindRegistry) (kind : bytes) (k : IndexKind) : IndexKindRegistry := <[kind := k]> r.

Definition registry_get (r : IndexKindRegistry) (kind : bytes) : res IndexKind :=
  match r !! kind with Some k => Ok k | None => Err "no index kind registered" end.

Definition attach_collection_store (r : IndexKindRegistry) : IndexKindRegistry := attach <$> r.

Definition tk_kind_name (class : bytes) : bytes := lit "tk:" ++ class.
Definition lb_kind_name (class : bytes) : bytes := lit "lb:" ++ class.

Definition register_sk_index_kind (r : IndexKindRegistry) : IndexKindRegistry := register r (lit "sk") SkIndexKind.
Definition register_fk_pending_kind (r : IndexKindRegistry) : IndexKindRegistry := register r (lit "fk_pending") FkPendingKind.
Definition register_rk_index_kind (r : IndexKindRegistry) (data_dir : directory) : IndexKindRegistry := register r (lit "rk") (RkIndexKind data_dir).
Definition register_partition_kind (r : IndexKindRegistry) (data_dir : directory) : IndexKindRegistry := register r (lit "partition") (PartitionKind data_dir).
Definition register_tk_class (r : IndexKindRegistry) (def : TkClassDef) (data_dir : directory) (clock : Z) : IndexKindRegistry :=
  register r (tk_kind_name (tc_name def)) (TkIndexKind def data_dir clock).
Definition register_lb_class (r : IndexKindRegistry) (def : LbClassDef) (cache_config : DatumId -> LbCacheConfig) : IndexKindRegistry :=
  register r (lb_kind_name (lc_name def)) (LbIndexKind def cache_config false).

(** What a thread opens, by kind. *)
Definition thread_kinds (r : IndexKindRegistry) : gmap bytes (DatumId -> option bytes -> res Resident) := omap open_kind r.

(** ** Messages that do not touch a resident structure *)

Section frame.
Context {S R : Type} `{StoreOps S} `{ResidentIndex R}.
Context (show_id : DatumId -> bytes) (show_node : NodeId -> bytes) (show_str : bytes -> bytes).
Implicit Types (w : Worker S R) (e : Env R) (x : res (Worker S R * list Effect)).

(** When it returns, the resident structure of [id] is as it was. *)
Definition keeps_resident (id : DatumId) w x : Prop := forall w' es, x = Ok (w', es) -> resident_indexes w' !! id = resident_indexes w !! id.

Variable id : DatumId.

Lemma keeps_ret w w' es : resident_indexes w' = resident_indexes w -> keeps_resident id w (Ok (w', es)).
Proof. intros E ? ? [= <- <-]. by rewrite E. Qed.
Lemma keeps_bind {A} w (y : res A) (f : A -> res (Worker S R * list Effect)) :
  (forall a, keeps_resident id w (f a)) -> keeps_resident id w (a ← y; f a).
Proof. intros Hf w' es. destruct y; [apply Hf|done..]. Qed.
Lemma keeps_same w w1 x : resident_indexes w1 = resident_indexes w -> keeps_resident id w1 x -> keeps_resident id w x.
Proof. intros E Hx w' es Hr. by rewrite (Hx w' es Hr), E. Qed.
Lemma keeps_then w x (g : Worker S R -> res (Worker S R * list Effect)) :
  keeps_resident id w x -> (forall w1, keeps_resident id w1 (g w1)) -> keeps_resident id w (and_then x g).
Proof.
  intros Hx Hg w' es. unfold and_then. destruct x as [[w1 es1]| |] eqn:E; [|done..]. rsimpl. destruct (g w1) as [[w2 es2]| |] eqn:E2; [|done..].
  rsimpl. intros [= <- <-]. by rewrite (Hg w1 w2 es2 E2), (Hx w1 es1 eq_refl).
Qed.

Lemma keeps_release e w ds : keeps_resident id w (release_datums e w ds).
Proof. apply keeps_bind. intros es. by apply keeps_ret. Qed.
Lemma keeps_finish e w op r reply : keeps_resident id w (finish_op e w op r reply).
Proof.
  intros w' es. unfold finish_op. destruct (release_datums _ _ _) as [[w1 es1]| |] eqn:E; [|done..]. rsimpl. intros [= <- <-].
  by rewrite (keeps_release _ _ _ _ _ E).
Qed.
Lemma keeps_try_run e w op : keeps_resident id w (try_run_if_ready show_node e w op).
Proof.
  unfold try_run_if_ready. destruct (op_records w !! op) as [r|]; [|by apply keeps_ret]. destruct (negb _); [by apply keeps_ret|].
  destruct (invoke _ _ _ _ _) as [ctx [op_result|message]]; [|by eapply keeps_same, keeps_finish].
  assert (forall us cs, keeps_resident id w (start_waiting show_node e (with_cache w (ctx_cache ctx)) op r op_result (take_staged_writes ctx) us cs)) as Hw.
  { intros us cs. unfold start_waiting. do 2 (apply keeps_bind; intros ?). by apply keeps_ret. }
  destruct (pending_index_updates ctx), (pending_exists_checks ctx); [by eapply keeps_same, keeps_finish|apply Hw..].
Qed.
Lemma keeps_settled e w op : keeps_resident id w (finish_op_if_settled e w op).
Proof.
  unfold finish_op_if_settled. destruct (op_records w !! op) as [r|]; [|by apply keeps_ret].
  destruct (index_update_state r) as [st|]; [|by apply keeps_ret]. destruct (Worker.pending st =? 0); [|by apply keeps_ret].
  destruct (st_violation st); [apply keeps_finish|by eapply keeps_same, keeps_finish].
Qed.
Lemma keeps_death w n : resident_indexes (handle_death w n).1 = resident_indexes w.
Proof.
  unfold handle_death. assert (forall (l : list (DatumId * NativeLock Grant)) (acc : Worker S R * list Effect),
    resident_indexes (fold_left (death_step n) l acc).1 = resident_indexes acc.1) as Hf.
  { induction l as [|[d lock] l IH]; intros [w1 es]; [done|]. cbn [fold_left]. rewrite IH. unfold death_step.
    destruct (handle_node_death lock n). by destruct (held_by lock n). }
  apply Hf.
Qed.

(** Resident structures are reached by three messages only. *)
Definition addresses (m : WorkerMessage) : option DatumId :=
  match m with IndexUpdate target _ _ _ _ | IndexQuery target _ _ _ | IndexExecute target _ _ _ => Some target | _ => None end.

Lemma keeps_open e w target kind w1 o :
  target <> id -> open_resident show_str e w target kind = Ok (w1, o) -> resident_indexes w1 !! id = resident_indexes w !! id.
Proof.
  intros Hne. unfold open_resident. destruct (resident_indexes w !! target); [by intros [= <- _]|].
  destruct (index_kinds e !! kind) as [open|]; [|by intros [= <- _]]. destruct (cache_get (cache w) target) as [stored c].
  destruct (open target stored); [intros [= <- _]; cbn; by rewrite lookup_insert_ne|by intros [= <- _]|done].
Qed.

Lemma keeps_call e w f target kind payload tx : target <> id -> keeps_resident id w (handle_resident_call show_str e w f target kind payload tx).
Proof.
  intros Hne w' es. unfold handle_resident_call. destruct (open_resident _ _ _ _ _) as [[w1 o]| |] eqn:Eo; [|done..]. rsimpl.
  pose proof (keeps_open _ _ _ _ _ _ Hne Eo) as E1. destruct o as [r|message]; [|by intros [= <- _]].
  destruct (f r payload) as [r' [bs| |]]; [| |done]; intros [= <- _]; cbn; by rewrite lookup_insert_ne.
Qed.

Lemma keeps_other e w m : addresses m <> Some id -> keeps_resident id w (handle show_id show_node show_str e w m).
Proof.
  intros Ha. destruct m; cbn [handle]; try (by apply keeps_ret).
  - unfold handle_run_op. eapply keeps_same; [|apply keeps_then; [apply keeps_bind; intros es; by apply keeps_ret|intros w1; apply keeps_try_run]]. done.
  - unfold handle_acquire. destruct (request _ _) as [[lock fired] outcome]. destruct outcome; try (by apply keeps_ret).
    destruct (_ =? _); [apply keeps_bind; intros t; by apply keeps_ret|]. destruct (linked _ _); by apply keeps_ret.
  - unfold handle_granted. destruct (op_records w !! op_id); [by eapply keeps_same, keeps_try_run|apply keeps_release].
  - unfold handle_acquire_failed. destruct (0 <? retries_left); [apply keeps_bind; intros es; by apply keeps_ret|].
    unfold fail_op. destruct (op_records w !! op_id); [apply keeps_finish|by apply keeps_ret].
  - unfold handle_recall. destruct (wounded _ _) as [[op r]|]; [|by apply keeps_ret]. apply keeps_bind. intros es. by apply keeps_ret.
  - intros w' es [= E]. unfold handle_release in E. destruct (native_locks _ !! _) as [lock|]; [destruct (release lock)|]; by injection E as <- <-.
  - intros w' es E. assert (w' = (handle_death w node_id).1) as -> by (destruct (handle_death w node_id); by injection E as <- _). by rewrite keeps_death.
  - intros w' es. unfold handle_index_update. destruct (open_resident _ _ _ _ _) as [[w1 o]| |] eqn:Eo; [|done..]. rsimpl.
    assert (target <> id) as Hne by (intros ->; by apply Ha). pose proof (keeps_open _ _ _ _ _ _ Hne Eo) as E1.
    destruct o as [r|message]; [|by intros [= <- _]]. destruct (ix_apply r payload) as [r' [out| |]]; [|done..]. intros [= <- _].
    assert (forall v : Worker S R, resident_indexes (set_resident v target r') !! id = resident_indexes v !! id) as Es by (intros v; cbn; by rewrite lookup_insert_ne).
    destruct (violation out); [by rewrite Es|]. destruct (write_through out); cbn; by rewrite lookup_insert_ne.
  - unfold handle_update_replied. destruct (waiting w op_id) as [[r st]|]; [|apply keeps_settled].
    destruct (sub_u64 (Worker.pending st) 1) as [n| |]; [|done..]. rsimpl. by eapply keeps_same, keeps_settled.
  - apply keeps_call. by intros ->; apply Ha.
  - apply keeps_call. by intros ->; apply Ha.
  - destruct (cache_get (cache w) datum_id) as [value c]. by apply keeps_ret.
  - apply keeps_then; [|intros w1; apply keeps_settled]. unfold settle_check. destruct (waiting w op_id) as [[r st]|]; [|by apply keeps_ret].
    apply keeps_bind. intros n. destruct (take_expectation _ _) as [ex st']. destruct (judge _ _ _ _) as [message [u|]]; [|by apply keeps_ret].
    apply keeps_bind. intros es. by apply keeps_ret.
Qed.
End frame.

(** ** A ranked index at its thread *)

(** A run of the loop of a thread: what each message makes it send. *)
Fixpoint thread_run {S R : Type} `{StoreOps S} `{ResidentIndex R} (show_id show_node : DatumId -> bytes) (show_str : bytes -> bytes)
    (w : Worker S R) (steps : list (Env R * WorkerMessage)) : res (Worker S R * list (list Effect)) :=
  match steps with
  | [] => Ok (w, [])
  | (e, m) :: steps =>
      '(w, es) ← handle show_id show_node show_str e w m;
      '(w, ess) ← thread_run show_id show_node show_str w steps; Ok (w, es :: ess)
  end.

(** The messages about the ranked index [id] are updates and queries as the other
    components send them. *)
Definition rank_message (id : DatumId) (m : WorkerMessage) : Prop :=
  addresses m <> Some id \/
  (exists op_id op reply, rk_index_op_ok op /\ m = IndexUpdate id op_id (lit "rk") (encode_rk_index_op op) reply) \/
  (exists q tx, rk_query_ok q /\ m = IndexQuery id (lit "rk") (encode_rk_query_kind q) tx).

(** What a message makes of the ranking and sends: an update is acknowledged without a
    violation, a query is answered with bytes from which the node's handler makes the
    client's response, any other message is no matter. *)
Inductive rank_step (id : DatumId) : WorkerMessage -> list (bytes * DatumId) -> list (bytes * DatumId) -> list Effect -> Prop :=
| rank_update op_id op reply xs xs' :
    (forall k pk, (k, pk) ∈ xs' <-> (ri_new_rank_key op = Some k /\ pk = ri_pk_id op) \/
       ((k, pk) ∈ xs /\ ~ (ri_old_rank_key op = Some k /\ pk = ri_pk_id op))) ->
    StronglySorted rank_before xs' ->
    rank_step id (IndexUpdate id op_id (lit "rk") (encode_rk_index_op op) reply) xs xs' [respond_update reply op_id id None]
| rank_query q tx xs out bs :
    rk_answers q xs out -> decoded "rk query" decode_rk_entries Response.RkQueryResult (ReplyOk bs) = Ok (Response.RkQueryResult out) ->
    rank_step id (IndexQuery id (lit "rk") (encode_rk_query_kind q) tx) xs xs [Answer tx (ReplyOk bs)]
| rank_other m xs es : addresses m <> Some id -> rank_step id m xs xs es.

Inductive rank_steps (id : DatumId) : list WorkerMessage -> list (bytes * DatumId) -> list (bytes * DatumId) -> list (list Effect) -> Prop :=
| rank_steps_nil xs : rank_steps id [] xs xs []
| rank_steps_cons m ms xs xs1 xs2 es ess :
    rank_step id m xs xs1 es -> rank_steps id ms xs1 xs2 ess -> rank_steps id (m :: ms) xs xs2 (es :: ess).

Abbreviation tree_ranking := (ranking (holds := bt_holds RK_KEY_SIZE RK_VALUE_SIZE)) (only parsing).

Section served.
Context {S : Type} `{StoreOps S} (show_id show_node : DatumId -> bytes) (show_str : bytes -> bytes).
Context (kinds : IndexKindRegistry) (dir : directory) (id : DatumId).
Hypothesis Hkind : kinds !! lit "rk" = Some (RkIndexKind dir).
Implicit Types (w : Worker S Resident) (e : Env Resident).

(** The index [id] of the thread is the ranking [xs], resident or in its file yet, with
    room for [n] more entries. *)
Definition ranked_at w (xs : list (bytes * DatumId)) (n : nat) : Prop :=
  exists s, (resident_indexes w !! id = Some (RRk s) \/ (resident_indexes w !! id = None /\ forall stored, rk_open dir id stored = Ok s)) /\
    tree_ranking s xs /\ bt_room n (rk_tree s) /\ zlen xs + Z.of_nat n < 2 ^ 32.

Lemma open_ranked e w xs n :
  index_kinds e = thread_kinds kinds -> ranked_at w xs n ->
  exists w1 s, open_resident show_str e w id (lit "rk") = Ok (w1, inl (RRk s)) /\ tree_ranking s xs /\ bt_room n (rk_tree s) /\
    zlen xs + Z.of_nat n < 2 ^ 32.
Proof.
  intros He (s & [Hr|[Hr Ho]] & HR & Hroom & Hlen); unfold open_resident; rewrite Hr; [by exists w, s|].
  rewrite He. unfold thread_kinds. rewrite lookup_omap, Hkind. cbn [mbind option_bind open_kind].
  destruct (cache_get (cache w) id) as [stored c]. rewrite Ho. rsimpl. by eexists _, s.
Qed.

Lemma ranked_set w s xs n :
  tree_ranking s xs -> bt_room n (rk_tree s) -> zlen xs + Z.of_nat n < 2 ^ 32 -> ranked_at (set_resident w id (RRk s)) xs n.
Proof. intros HR Hroom Hlen. exists s. split; [left; apply lookup_insert_eq|done]. Qed.

Lemma ranking_grows xs xs' x :
  StronglySorted rank_before xs' -> (forall y, y ∈ xs' -> y = x \/ y ∈ xs) -> zlen xs' <= zlen xs + 1.
Proof.
  intros Hs Hin. assert (NoDup xs') as Hnd.
  { clear Hin. induction Hs as [|y l Hs IH HF]; [constructor|]. constructor; [|done]. intros Hy. rewrite Forall_forall in HF.
    destruct (HF y Hy) as [Hlt|[_ Hlt]]; [by rewrite (bytes_cmp_refl y.1) in Hlt|lia]. }
  unfold zlen. pose proof (submseteq_length _ _ (NoDup_submseteq xs' (x :: xs) Hnd ltac:(intros y Hy; destruct (Hin y Hy); set_solver))) as Hl.
  simpl in Hl. lia.
Qed.

Lemma ranked_less w xs n : ranked_at w xs (Datatypes.S n) -> ranked_at w xs n.
Proof. intros (s & Hr & HR & Hroom & Hlen). exists s. split; [done|]. split; [done|]. split; [by apply bt_room_less|lia]. Qed.

Lemma rk_answer_decodes (s : RkResidentIndex BPlusTree) xs q out :
  tree_ranking s xs -> rk_query_ok q -> zlen xs < 2 ^ 32 -> rk_answers q xs out -> decode_rk_entries (encode_rk_entries out) = Ok out.
Proof.
  intros [_ HF] Hq Hlen Ha. apply (codec_complete _ _ _ rk_entries_codec). split.
  - unfold uint_ok in *. destruct q as [k|k|k]; cbn [rk_answers rk_query_ok] in *.
    + subst out. unfold zlen in *. rewrite length_take, length_rev. unfold uint_ok in *. lia.
    + subst out. unfold zlen in *. rewrite length_take. unfold uint_ok in *. lia.
    + destruct Ha as [Hl _]. unfold uint_ok in *. unfold zlen in *. rewrite Hl. destruct (Z.of_nat (length xs) =? 0); lia.
  - rewrite Forall_forall in HF |- *. intros x Hx. by apply HF, (rk_answers_in q xs out).
Qed.

(** One message about the index. *)
Lemma serve_rank e w xs n m :
  index_kinds e = thread_kinds kinds -> ranked_at w xs (Datatypes.S n) -> rank_message id m -> addresses m = Some id ->
  exists w' es xs', handle show_id show_node show_str e w m = Ok (w', es) /\ rank_step id m xs xs' es /\ ranked_at w' xs' n.
Proof.
  intros He Hw Hm Ha. destruct (open_ranked e w xs _ He Hw) as (w1 & s & Eo & HR & Hroom & Hlen).
  destruct Hm as [?|[(op_id & op & reply & Hop & ->)|(q & tx & Hq & ->)]]; [done|..]; cbn [handle].
  - destruct (rk_apply_spec (holds := bt_holds RK_KEY_SIZE RK_VALUE_SIZE) (room := bt_room) s xs op n HR Hroom Hop)
      as (s' & xs' & Ea & HR' & Hroom' & Hx).
    assert (StronglySorted rank_before xs') as Hs by by eapply ranking_sorted.
    exists (set_resident w1 id (RRk s')), [respond_update reply op_id id None], xs'. split; [|split; [by constructor|]].
    + unfold handle_index_update. rewrite Eo. rsimpl. cbn [ix_apply any_resident]. cbn [ix_apply rk_resident]. rewrite Ea. done.
    + apply ranked_set; [done|by destruct (ri_new_rank_key op); [|apply bt_room_less]|].
      destruct (ri_new_rank_key op) as [k|] eqn:Ek.
      * assert (zlen xs' <= zlen xs + 1); [|lia]. apply (ranking_grows _ _ (k, ri_pk_id op)); [done|].
        intros [k' pk] [[[= <-] ->]|[? _]]%Hx; [by left|by right].
      * assert (zlen xs' <= zlen xs + 1); [|lia]. apply (ranking_grows _ _ ([], 0)); [done|].
        intros [k' pk] [[? _]|[? _]]%Hx; [done|by right].
  - destruct (rk_query_spec (holds := bt_holds RK_KEY_SIZE RK_VALUE_SIZE) (room := bt_room) s xs q HR Hq ltac:(lia)) as (out & Eq & Hout).
    exists (set_resident w1 id (RRk s)), [Answer tx (ReplyOk (encode_rk_entries out))], xs. split; [|split; [econstructor; [exact Hout|]|]].
    + unfold handle_resident_call. rewrite Eo. rsimpl. cbn [ix_query any_resident]. cbn [ix_query rk_resident]. rewrite Eq. done.
    + unfold decoded. by rewrite (rk_answer_decodes s xs q out HR Hq ltac:(lia) Hout).
    + apply ranked_set; [done|by apply bt_room_less|lia].
Qed.

(** C25: a ranked index is served as its ranking. On the thread that owns the index, between
    any other messages - locks, operations, other indexes, evictions - every update is
    applied and acknowledged without a violation and every query is answered, in the
    client's response, from the ranking as the updates before it left it; the file is opened at the first of them.
    The run stops early only at a message that is not about the index. *)
Theorem ranked_index_is_served (steps : list (Env Resident * WorkerMessage)) w xs n :
  Forall (λ '(e, m), index_kinds e = thread_kinds kinds /\ rank_message id m) steps ->
  ranked_at w xs (length steps + n) ->
  (exists w' ess xs', thread_run show_id show_node show_str w steps = Ok (w', ess) /\
     rank_steps id (map snd steps) xs xs' ess /\ ranked_at w' xs' n) \/
  (exists before e m after w1 ess xs1, steps = before ++ (e, m) :: after /\
     thread_run show_id show_node show_str w before = Ok (w1, ess) /\ rank_steps id (map snd before) xs xs1 ess /\
     addresses m <> Some id /\ forall w2 es, handle show_id show_node show_str e w1 m <> Ok (w2, es)).
Proof.
  intros HF. revert w xs. induction HF as [|[e m] steps [He Hm] HF IH]; intros w xs Hw.
  { left. exists w, [], xs. by split_and!; [|constructor|]. }
  assert ((exists w1 es xs1, handle show_id show_node show_str e w m = Ok (w1, es) /\ rank_step id m xs xs1 es /\ ranked_at w1 xs1 (length steps + n)) \/
    (addresses m <> Some id /\ forall w2 es, handle show_id show_node show_str e w m <> Ok (w2, es))) as [(w1 & es & xs1 & E & Hs & Hw1)|[Ha Hstop]].
  { destruct (decide (addresses m = Some id)) as [Ha|Ha]; [left; by apply (serve_rank e w xs)|].
    destruct (handle show_id show_node show_str e w m) as [[w1 es]| |] eqn:E; [left|by right..].
    exists w1, es, xs. split; [done|]. split; [by constructor|]. apply ranked_less. destruct Hw as (s & Hr & Hrest). exists s. split; [|done].
    by rewrite (keeps_other show_id show_node show_str id e w m Ha w1 es E). }
  - destruct (IH w1 xs1 Hw1) as [(w2 & ess & xs2 & E2 & Hs2 & Hw2)|(before & e2 & m2 & after & w2 & ess & xs2 & -> & E2 & Hs2 & Ha & Hstop)].
    + left. exists w2, (es :: ess), xs2. cbn [thread_run map snd]. rewrite E. rsimpl. rewrite E2. rsimpl. split_and!; [done|by econstructor|done].
    + right. exists ((e, m) :: before), e2, m2, after, w2, (es :: ess), xs2. cbn [thread_run map snd]. rewrite E. rsimpl. rewrite E2. rsimpl.
      split_and!; [done..|by econstructor|done|done].
  - right. exists [], e, m, steps, w, [], xs. by split_and!; [..|constructor| |].
Qed.
End served.

(** The query of a client reaches the thread of the index as the message above. *)
Lemma client_query_is_routed {S : Type} self book (show_node : NodeId -> bytes) (r : Ring) (p : Pool S Resident) id q tx thread :
  native r id = Ok (self, thread) ->
  exists k, handle_rk_query show_node self book r id q = Ok (Calls (CallQuery id (lit "rk") (encode_rk_query_kind q)) k) /\
    pool_call r p (CallQuery id (lit "rk") (encode_rk_query_kind q)) tx =
      send_to p thread (IndexQuery id (lit "rk") (encode_rk_query_kind q) tx) /\
    k = decoded "rk query" decode_rk_entries Response.RkQueryResult.
Proof.
  intros Hn. eexists. split; [unfold handle_rk_query, unless_foreign; by rewrite Hn; rsimpl; rewrite Z.eqb_refl|].
  split; [unfold pool_call, run_index_query, send_native; by rewrite Hn|done].
Qed.

(** *** A node with one thread and a ranked index that has no file yet *)

Definition blank (_ : bytes) : bytes := [].
Definition demo_kinds : IndexKindRegistry := register_rk_index_kind (register_sk_index_kind ∅) ∅.
Definition rank_env : Env Resident := mkEnv 0 1 1 (from_members [(1, 1)]) (λ _, false) ∅ (thread_kinds demo_kinds).
Definition demo_ops : list (Env Resident * WorkerMessage) :=
  map (pair rank_env)
    [IndexUpdate 77 5 (lit "rk") (encode_rk_index_op (mkRkIndexOp 7 None (Some (to_be 8 5)))) (Local 0); Release 3;
     IndexUpdate 77 6 (lit "rk") (encode_rk_index_op (mkRkIndexOp 8 None (Some (to_be 8 9)))) (Local 0);
     IndexUpdate 77 6 (lit "rk") (encode_rk_index_op (mkRkIndexOp 7 (Some (to_be 8 5)) None)) (Local 0);
     IndexQuery 77 (lit "rk") (encode_rk_query_kind (TopN 2)) 50].

Lemma new_index_is_empty n : Z.of_nat n <= 2 ^ 15 -> ranked_at ∅ 77 (Worker_new (R := Resident) InMemoryStore_new) [] n.
Proof.
  intros Hn. destruct (create_holds RK_KEY_SIZE RK_VALUE_SIZE RK_PAGE_SIZE n) as (t & Ht & Hh & Hr); [done..|by split_and!|done|].
  exists (mkRkResident t). split; [right; split; [apply lookup_empty|]|].
  - intros stored. unfold rk_open, open_file. by rewrite lookup_empty, Ht.
  - split; [by split; [exact Hh|constructor]|]. split; [exact Hr|]. rewrite zlen_nil. lia.
Qed.

(** The second of two scores is moved out; the first is what the query finds. *)
Lemma ranked_index_is_served_witness :
  exists w' ess xs', thread_run (λ _, []) (λ _, []) blank (Worker_new InMemoryStore_new) demo_ops = Ok (w', ess) /\
    rank_steps 77 (map snd demo_ops) [] xs' ess.
Proof.
  destruct (ranked_index_is_served (λ _, []) (λ _, []) blank demo_kinds ∅ 77 eq_refl demo_ops (Worker_new InMemoryStore_new) [] 0)
    as [(w' & ess & xs' & E & Hs & _)|(before & e & m & after & w1 & ess & xs1 & Es & _ & _ & Ha & Hstop)].
  - repeat (apply Forall_cons; split; [split; [reflexivity|]|]); [..|constructor].
    1, 3, 4: right; left; eexists _, _, _; split; [|reflexivity].
    1-3: split; [by vm_compute|split; [done|by vm_compute]].
    + left. done.
    + right. right. eexists _, _. by split; [|reflexivity].
  - apply new_index_is_empty. simpl. lia.
  - exists w', ess, xs'. split; [exact E|exact Hs].
  - exfalso. assert (m = Release 3 /\ e = rank_env) as [-> ->].
    { assert ((e, m) ∈ demo_ops) as Hin by (rewrite Es; set_solver). unfold demo_ops in Hin. cbn [map] in Hin.
      repeat (apply elem_of_cons in Hin as [[= -> ->]|Hin]; [first [done|by destruct Ha]|]). by apply elem_of_nil in Hin. }
    cbn [handle] in Hstop. destruct (handle_release w1 3) as [w2 es] eqn:E. by apply (Hstop w2 es).
Defined.
