(* ===== verification/Remote.v ===== *)
(** * The networked stores of a compute node

    Models [crates/seisin-node/src/replica_resolver.rs], [remote_store.rs] and the
    [RemoteCollectionStore] of [collection_store.rs]: a datum's replicas, the call on
    one of them with its one retry, writes to all that serve and reads that fail over,
    the marking of failed replicas and the fail-stop. The storage nodes at the other
    end are those of [StoreNode.v]; what the network does with an exchange is a
    parameter, [fate], of the count of exchanges. Other threads of the compute node do
    not change the shared state during a call. *)

From S2P Require Import Prelude Core Codec Ring Delta DatumLog StoreWire Responses Pages BTree Names RankedTree TreeKinds StoreNode Transfer Collections Membership Sequencer GossipWire Cluster Server.

(** ** The world *)

(** The shared cluster state, this thread's open connections with the address each was
    made to, and the storage nodes by the address they listen at. *)
Record World := mkWorld {
  w_cluster : ClusterState; w_conns : gmap NodeId bytes; w_nodes : gmap bytes StoreNode; w_tick : nat }.

(** What becomes of an exchange: the request does not arrive, its reply does not, or
    both do. *)
Inductive Fate := Refused | Lost | Delivered.

Definition with_cluster (w : World) (c : ClusterState) : World := mkWorld c (w_conns w) (w_nodes w) (w_tick w).

(** ** replica_resolver.rs *)

Definition can_serve (c : ClusterState) (node : NodeId) : bool :=
  bool_decide (node ∈ storage_alive c) && negb (bool_decide (node ∈ storage_stale c)).

Definition serving_replicas (c : ClusterState) (id : DatumId) (n : Z) : res (list NodeId) :=
  nodes ← replicas (storage_ring c) id (Z.to_nat n); Ok (List.filter (can_serve c) nodes).

Definition mark_stale (w : World) (node : NodeId) : World :=
  let c := w_cluster w in with_cluster w (with_serving c (storage_alive c) ({[node]} ∪ storage_stale c)).

Section remote.
Variable show_id : DatumId -> bytes.
Variables (fate : nat -> Fate) (clock : nat -> Z).

(** The halt is engaged and the worker's thread panics. *)
Definition halt_total_loss {A} (id : DatumId) : io World A := λ w,
  let c := w_cluster w in
  (with_cluster w (with_halt c (do_halt (halt c)
     (lit "cluster halted: every replica of " ++ show_id id ++ lit " is unreachable - total shard loss"))), Panic).

(** ** One call *)

(** The closure of [try_call]: an exchange on the connection to [node], which is made
    when there is none. A frame longer than the reader accepts ends the connection. *)
Definition exchange (w : World) (node : NodeId) (address : bytes) (request : StoreRequest.t) : World * res bytes :=
  let stream := default address (w_conns w !! node) in
  let payload := encode_store_request request in
  let broken nodes := (mkWorld (w_cluster w) (delete node (w_conns w)) nodes (S (w_tick w)), Err "io error") in
  match w_nodes w !! stream, fate (w_tick w) with
  | None, _ | _, Refused => broken (w_nodes w)
  | Some sn, arrived =>
      if MAX_FRAME_LEN <? zlen payload then broken (w_nodes w) else
      let '(sn, outcome, _, _) := handle_connection sn (clock (w_tick w)) payload in
      let nodes := <[stream := sn]> (w_nodes w) in
      match arrived, outcome with
      | Delivered, Reply response =>
          let reply := encode_store_response response in
          if MAX_FRAME_LEN <? zlen reply then broken nodes
          else (mkWorld (w_cluster w) (<[node := stream]> (w_conns w)) nodes (S (w_tick w)), Ok reply)
      | _, _ => broken nodes
      end
  end.

(** [try_call]: a second attempt after an I/O error. *)
Definition try_call (w : World) (node : NodeId) (request : StoreRequest.t) : World * res StoreResponse.t :=
  match store_addresses (w_cluster w) !! node with
  | None => (w, Err "no store address configured")
  | Some address =>
      match exchange w node address request with
      | (w, Ok payload) => (w, decode_store_response payload)
      | (w, _) => let '(w, r) := exchange w node address request in (w, payload ← r; decode_store_response payload)
      end
  end.

(** ** remote_store.rs *)

Definition expect_ack (r : World * res StoreResponse.t) : World * bool :=
  (r.1, match r.2 with Ok StoreResponse.Ack => true | _ => false end).

(** Whether the write of one replica was acknowledged. *)
Definition write_one (id : DatumId) (content : bytes) (delta : option Delta) (n : Z) (w : World) (node : NodeId) : World * bool :=
  let full := StoreRequest.Put id content n in
  match delta with
  | Some delta =>
      match try_call w node (StoreRequest.Patch id delta n) with
      | (w, Ok StoreResponse.Ack) => (w, true)
      | (w, Ok StoreResponse.NeedFull) => expect_ack (try_call w node full)
      | (w, _) => (w, false)
      end
  | None => expect_ack (try_call w node full)
  end.

(** The [for] over the targets: the world after it and whether some replica
    acknowledged; those that did not are stale. *)
Fixpoint send_all (send : World -> NodeId -> World * bool) (w : World) (targets : list NodeId) : World * bool :=
  match targets with
  | [] => (w, false)
  | node :: targets =>
      let '(w, ok) := send w node in
      let '(w, acked) := send_all send (if ok then w else mark_stale w node) targets in
      (w, ok || acked)
  end.

(** The frame of a write: its targets, and the halt when there are none or none
    acknowledged. *)
Definition replicated_write (id : DatumId) (n : Z) (send : World -> NodeId -> World * bool) : io World () := λ w,
  match serving_replicas (w_cluster w) id n with
  | Ok [] => halt_total_loss id w
  | Ok targets => let '(w, acked) := send_all send w targets in if acked then (w, Ok ()) else halt_total_loss id w
  | _ => (w, Panic)
  end.

(** The delta of a write, when it is small enough. *)
Definition delta_of (previous : option bytes) (content : bytes) : res (option Delta) :=
  match previous with
  | Some prev => d ← diff prev content; Ok (if encoded_len d <? zlen content / 2 then Some d else None)
  | None => Ok None
  end.

(** The delta is made after the targets are known to be some. *)
Definition write_all (id : DatumId) (content : bytes) (previous : option bytes) (n : Z) : io World () := λ w,
  match delta_of previous content with
  | Ok delta => replicated_write id n (write_one id content delta n) w
  | _ => match serving_replicas (w_cluster w) id n with Ok [] => halt_total_loss id w | _ => (w, Panic) end
  end.

Definition put_replicated (id : DatumId) (content : bytes) (n : Z) : io World () := write_all id content None n.
Definition put_with_previous_replicated (id : DatumId) (content : bytes) (previous : option bytes) (n : Z) : io World () :=
  write_all id content previous n.

Definition delete_replicated (id : DatumId) (n : Z) : io World () :=
  replicated_write id n (λ w node, expect_ack (try_call w node (StoreRequest.Delete id))).

Fixpoint get_loop (id : DatumId) (w : World) (targets : list NodeId) (reached_any : bool) : World * res (option bytes) :=
  match targets with
  | [] => if reached_any then (w, Ok None) else halt_total_loss id w
  | node :: targets =>
      match try_call w node (StoreRequest.Get id) with
      | (w, Ok (StoreResponse.Value (Some value))) => (w, Ok (Some value))
      | (w, Ok (StoreResponse.Value None)) => get_loop id w targets true
      | (w, _) => get_loop id (mark_stale w node) targets reached_any
      end
  end.

Definition get_replicated (id : DatumId) (n : Z) : io World (option bytes) := λ w,
  match serving_replicas (w_cluster w) id n with
  | Ok [] => halt_total_loss id w
  | Ok targets => get_loop id w targets false
  | _ => (w, Panic)
  end.

(** ** [RemoteCollectionStore] *)

Definition collection_write (collection_id : DatumId) (n : Z) (request : StoreRequest.t) : io World () :=
  replicated_write collection_id n (λ w node, expect_ack (try_call w node request)).

Fixpoint read_loop (id : DatumId) (request : StoreRequest.t) (w : World) (targets : list NodeId) : World * res StoreResponse.t :=
  match targets with
  | [] => halt_total_loss id w
  | node :: targets =>
      match try_call w node request with
      | (w, Ok response) => (w, Ok response)
      | (w, _) => read_loop id request (mark_stale w node) targets
      end
  end.

Definition read_one (collection_id : DatumId) (n : Z) (request : StoreRequest.t) : io World StoreResponse.t := λ w,
  match serving_replicas (w_cluster w) collection_id n with
  | Ok [] => halt_total_loss collection_id w
  | Ok targets => read_loop collection_id request w targets
  | _ => (w, Panic)
  end.

(** A read, whose reply is the one expected or a panic. *)
Definition collection_read {A} (collection_id : DatumId) (n : Z) (request : StoreRequest.t) (expect : served -> res A) : io World A :=
  response ← read_one collection_id n request; io_lift (expect (Reply response)).

#[local] Instance remote_collections : CollectionStore World := {
  cs_create id key_size value_size n := collection_write id n (StoreRequest.CollectionCreate id key_size value_size);
  cs_insert id key value n := collection_write id n (StoreRequest.CollectionInsert id key value);
  cs_remove id key n := collection_write id n (StoreRequest.CollectionRemove id key);
  cs_get id key n := collection_read id n (StoreRequest.CollectionGet id key)
    (λ r, match r with Reply (StoreResponse.CollectionEntry value) => Ok value | _ => Panic end);
  cs_scan_forward id limit n := collection_read id n (StoreRequest.CollectionScanForward id limit) expect_entries;
  cs_scan_backward id limit n := collection_read id n (StoreRequest.CollectionScanBackward id limit) expect_entries;
  cs_sample id k n := collection_read id n (StoreRequest.CollectionSample id k) expect_entries;
  cs_rank_of_key id key n := collection_read id n (StoreRequest.CollectionRankOfKey id key)
    (λ r, match r with Reply (StoreResponse.CollectionRank rank) => Ok rank | _ => Panic end);
  cs_scan_from_rank id rank limit n := collection_read id n (StoreRequest.CollectionScanFromRank id rank limit) expect_entries;
  cs_count id n := collection_read id n (StoreRequest.CollectionCount id)
    (λ r, match r with Reply (StoreResponse.CollectionCount total) => Ok total | _ => Panic end)
}.
End remote.
