(* ===== verification/RemoteTheorems.v ===== *)
(** * Theorems about the networked store

    What [Remote.v] promises: whatever the network does, the replicas that serve a
    datum agree on its value and the store behaves as a map, or the cluster halts; as
    long as one replica that serves it is up, it goes on. And where it breaks. *)

From S2P Require Import Prelude Core Codec Ring Protocol Delta DatumLog StoreWire Responses Pages BTree Names RankedTree TreeKinds StoreNode Transfer Collections Membership Sequencer GossipWire Worker WorkerTheorems Cluster Server Remote.

(** ** One replica *)

Lemma log_step l o l' : log_fits l -> log_op_ok o -> log_exec l o = Ok l' ->
  log_fits l' /\ forall id, get l' id = spec_exec (get l) o id.
Proof.
  intros HF Hok HE. destruct (log_exec_reads l o l' HF Hok HE) as (HF' & _). split; [done|].
  destruct (lf_ok l HF) as [recs HI]. pose proof (log_exec_spec l recs o HI Hok) as HS. rewrite HE in HS. by destruct HS as (_ & _ & ?).
Qed.

(** A replica during a write of [v] to [id]: every other datum reads as in [base], and
    [id] as it did or as [v]. *)
Definition between (base : contents) (id : DatumId) (v : option bytes) (sn : StoreNode) : Prop :=
  log_fits (sn_log sn) /\ (forall id', id' <> id -> get (sn_log sn) id' = base id') /\
  (get (sn_log sn) id = base id \/ get (sn_log sn) id = Ok v).

(** What a reply to the write means. *)
Definition replied (id : DatumId) (v : option bytes) (resp : StoreResponse.t) (sn : StoreNode) : Prop :=
  resp = StoreResponse.Ack -> get (sn_log sn) id = Ok v.

Definition served_as (P : StoreNode -> Prop) (Q : StoreResponse.t -> StoreNode -> Prop) (request : StoreRequest.t) : Prop :=
  forall sn now, P sn ->
    let '(sn', out, _, _) := handle_connection sn now (encode_store_request request) in
    P sn' /\ forall resp, out = Reply resp -> Q resp sn' /\ store_response_ok resp.

(** A request past its decoding: served, or refused by a node out of touch. *)
Lemma served_as_intro (P : StoreNode -> Prop) (Q : StoreResponse.t -> StoreNode -> Prop) request :
  store_request_ok request ->
  (forall sn, P sn -> let '(sn', out, _, _) := serve sn request in P sn' /\ forall resp, out = Reply resp -> Q resp sn' /\ store_response_ok resp) ->
  (forall sn m, Q (StoreResponse.Error m) sn) -> served_as P Q request.
Proof.
  intros Hok Hs HQ sn now HP. unfold handle_connection. rewrite store_request_roundtrip by done.
  destruct (stale _ _ _); [|by apply Hs]. split; [done|]. intros resp [= <-]. split; [apply HQ|]. vm_compute. reflexivity.
Qed.

Lemma between_write base id v o sn l' :
  between base id v sn -> log_op_ok o -> op_id o = id -> log_exec (sn_log sn) o = Ok l' -> get l' id = Ok v ->
  between base id v (written sn l' id) /\ get (sn_log (written sn l' id)) id = Ok v.
Proof.
  intros (HF & Ho & _) Hok Hid HE Hv. destruct (log_step _ _ _ HF Hok HE) as [HF' Hg]. split; [|exact Hv].
  split; [exact HF'|]. split; [|by right]. intros id' Hne. cbn [written sn_log with_transfers with_log]. rewrite Hg, <- (Ho id' Hne).
  destruct o; simpl in *; unfold set_content; rewrite (proj2 (Z.eqb_neq _ _)); congruence.
Qed.

Lemma serve_put_as base id content n :
  datum_ok id -> u16_ok n -> zlen content + 19 < 2 ^ 32 ->
  served_as (between base id (Some content)) (replied id (Some content)) (StoreRequest.Put id content n).
Proof.
  intros Hid Hn Hc. apply served_as_intro; [done| |by intros]. intros sn HP.
  destruct (between_write base id (Some content) (LPut id content n) sn _ HP ltac:(by split_and!) eq_refl eq_refl) as [HP' Hv].
  - destruct HP as (HF & _). destruct (log_step _ (LPut id content n) _ HF ltac:(by split_and!) eq_refl) as [_ ->].
    simpl. unfold set_content. by rewrite Z.eqb_refl.
  - split; [exact HP'|]. intros resp [= <-]. split; [by intros _|done].
Qed.

Lemma serve_delete_as base id : datum_ok id -> served_as (between base id None) (replied id None) (StoreRequest.Delete id).
Proof.
  intros Hid. apply served_as_intro; [done| |by intros]. intros sn HP.
  destruct (between_write base id None (LDelete id) sn _ HP Hid eq_refl eq_refl) as [HP' Hv].
  - destruct HP as (HF & _). destruct (log_step _ (LDelete id) _ HF Hid eq_refl) as [_ ->].
    simpl. unfold set_content. by rewrite Z.eqb_refl.
  - split; [exact HP'|]. intros resp [= <-]. split; [by intros _|done].
Qed.

(** A patch made from the value the replica has; served twice, it changes nothing. *)
Lemma serve_patch_as base id prev content d n :
  datum_ok id -> u16_ok n -> delta_ok d -> encoded_len d + 19 < 2 ^ 32 -> new_total_len d + 19 < 2 ^ 32 ->
  base id = Ok (Some prev) -> apply prev d = Ok content -> apply content d = Ok content ->
  served_as (between base id (Some content)) (replied id (Some content)) (StoreRequest.Patch id d n).
Proof.
  intros Hid Hn Hd Hl Ht Hb Hp Hc. apply served_as_intro; [done| |by intros]. intros sn HP.
  assert (Hok : log_op_ok (LPatch id d n)) by by split_and!.
  pose proof HP as (HF & Ho & Hv).
  assert (patched (get (sn_log sn) id) d = Ok (Some content)) as Hpatch.
  { unfold patched. destruct Hv as [-> | ->]; [rewrite Hb|]; rsimpl; [by rewrite Hp|by rewrite Hc]. }
  destruct (lf_ok _ HF) as [recs HI]. pose proof (put_delta_inv _ recs id d n HI Hok) as HD. unfold serve. cbn [on_collection serve_data].
  destruct (put_delta (sn_log sn) id d n) as [[[|] l']|m|] eqn:E.
  - destruct HD as (_ & _ & Hget & _).
    destruct (between_write base id (Some content) (LPatch id d n) sn l' HP Hok eq_refl) as [HP' Hv'];
      [by simpl; rewrite E|by rewrite Hget|].
    split; [exact HP'|]. intros resp [= <-]. split; [by intros _|done].
  - destruct HD as [_ HD]. unfold patched in Hpatch. by rewrite HD in Hpatch.
  - by rewrite Hpatch in HD.
  - done.
Qed.

Lemma serve_get_as (P : StoreNode -> Prop) id :
  datum_ok id ->
  served_as P (λ resp sn, forall v, resp = StoreResponse.Value v -> get (sn_log sn) id = Ok v) (StoreRequest.Get id).
Proof.
  intros Hid. apply served_as_intro; [done| |by intros]. intros sn HP. unfold serve. cbn [on_collection serve_data].
  destruct (get (sn_log sn) id) as [v| |] eqn:E; (split; [done|]); intros resp; [|done..]. intros [= <-]. split; [|done]. by intros v' [= <-].
Qed.

(** ** One call *)

Definition node_of (w : World) (node : NodeId) : option StoreNode :=
  a ← store_addresses (w_cluster w) !! node; w_nodes w !! a.

(** Nodes have addresses of their own, connections go where the addresses say, and every
    log is sound. *)
Record world_ok (w : World) : Prop := {
  wo_addresses : forall n1 n2 a, store_addresses (w_cluster w) !! n1 = Some a -> store_addresses (w_cluster w) !! n2 = Some a -> n1 = n2;
  wo_conns : forall n a, w_conns w !! n = Some a -> store_addresses (w_cluster w) !! n = Some a;
  wo_logs : forall a sn, w_nodes w !! a = Some sn -> log_fits (sn_log sn) }.

Section calls.
Variables (fate : nat -> Fate) (clock : nat -> Z).
Local Abbreviation exchange := (exchange fate clock).
Local Abbreviation try_call := (try_call fate clock).

(** What a call on [node] leaves alone. *)
Record elsewhere (w w' : World) (node : NodeId) : Prop := {
  el_cluster : w_cluster w' = w_cluster w;
  el_nodes : forall a, store_addresses (w_cluster w) !! node <> Some a -> w_nodes w' !! a = w_nodes w !! a;
  el_conns : forall n a, w_conns w' !! n = Some a -> w_conns w !! n = Some a \/ store_addresses (w_cluster w) !! n = Some a;
  el_up : is_Some (node_of w' node) <-> is_Some (node_of w node) }.

Lemma elsewhere_refl w node : elsewhere w w node.
Proof. split; auto. Qed.

Lemma elsewhere_trans w w1 w2 node : elsewhere w w1 node -> elsewhere w1 w2 node -> elsewhere w w2 node.
Proof.
  intros [C1 N1 K1 U1] [C2 N2 K2 U2]. rewrite C1 in *. split.
  - congruence.
  - intros a Ha. by rewrite N2, N1.
  - intros n a Ha. destruct (K2 n a Ha) as [Ha'|]; [by apply K1|by right].
  - by rewrite U2.
Qed.

(** What an exchange comes to when the node was [P] and answers as [Q]. *)
Definition exchanged (P : StoreNode -> Prop) (Q : StoreResponse.t -> StoreNode -> Prop) w node address (x : World * res bytes) : Prop :=
  elsewhere w x.1 node /\ (forall sn, w_nodes x.1 !! address = Some sn -> P sn) /\
  match x.2 with
  | Ok payload => exists resp sn, decode_store_response payload = Ok resp /\ Q resp sn /\ w_nodes x.1 !! address = Some sn
  | Err _ => True
  | Panic => False
  end.

Lemma exchange_spec (P : StoreNode -> Prop) Q w node address request :
  served_as P Q request -> world_ok w -> store_addresses (w_cluster w) !! node = Some address ->
  (forall sn, w_nodes w !! address = Some sn -> P sn) ->
  exchanged P Q w node address (exchange w node address request).
Proof.
  intros Hserve [Hinj Hconns _] Ha HP. unfold Remote.exchange.
  assert (default address (w_conns w !! node) = address) as ->.
  { destruct (w_conns w !! node) as [a|] eqn:E; [|done]. simpl. apply Hconns in E. congruence. }
  set (broken nodes := (mkWorld (w_cluster w) (delete node (w_conns w)) nodes (S (w_tick w)), Err "io error" : res bytes)).
  assert (forall nodes, (forall a, a <> address -> nodes !! a = w_nodes w !! a) -> (is_Some (nodes !! address) <-> is_Some (w_nodes w !! address)) ->
    (forall sn, nodes !! address = Some sn -> P sn) -> exchanged P Q w node address (broken nodes)) as Hbroken.
  { intros nodes H1 H2 H3. split; [|by split]. split; cbn [broken fst w_cluster w_nodes w_conns].
    - done.
    - intros a Hne. apply H1. congruence.
    - intros n a [_ Hin]%lookup_delete_Some. by left.
    - unfold node_of. cbn [w_cluster w_nodes]. by rewrite Ha. }
  pose proof (Hbroken (w_nodes w) ltac:(done) ltac:(done) HP) as Hstay.
  destruct (w_nodes w !! address) as [sn|] eqn:Esn; [|exact Hstay].
  pose proof (Hserve sn (clock (w_tick w)) (HP sn eq_refl)) as HS.
  destruct (handle_connection sn (clock (w_tick w)) (encode_store_request request)) as [[[sn' out] calls] copy].
  destruct HS as [HP' HQ].
  assert (Hserved : exchanged P Q w node address (broken (<[address := sn']> (w_nodes w)))).
  { apply Hbroken; [intros a Hne; by rewrite lookup_insert_ne|rewrite lookup_insert_eq; split; eauto|].
    intros sn1. rewrite lookup_insert_eq. by intros [= <-]. }
  destruct (fate (w_tick w)); [exact Hstay|destruct (MAX_FRAME_LEN <? _); [exact Hstay|by destruct out]|].
  destruct (MAX_FRAME_LEN <? _); [exact Hstay|]. destruct out as [resp| |]; [|exact Hserved..].
  destruct (MAX_FRAME_LEN <? _); [exact Hserved|]. destruct (HQ resp eq_refl) as [HQr Hok].
  destruct Hserved as (_ & HP'' & _). split; [|split; [exact HP''|]].
  - split; cbn [fst w_cluster w_nodes w_conns].
    + done.
    + intros a Hne. rewrite lookup_insert_ne; congruence.
    + intros n a [[<- <-]|[_ Hin]]%lookup_insert_Some; [by right|by left].
    + unfold node_of. cbn [w_cluster w_nodes]. rewrite Ha. cbn. rewrite lookup_insert_eq, Esn. split; eauto.
  - exists resp, sn'. split; [by apply store_response_wire|]. split; [done|]. cbn [fst w_nodes]. by rewrite lookup_insert_eq.
Qed.

Lemma world_ok_after w w' node : world_ok w -> elsewhere w w' node ->
  (forall sn, node_of w' node = Some sn -> log_fits (sn_log sn)) -> world_ok w'.
Proof.
  intros [Hinj Hconns Hlogs] [HC HN HK HU] Hlog. split; rewrite ?HC.
  - done.
  - intros n a Hin. rewrite ?HC. destruct (HK n a Hin); [by apply Hconns|done].
  - intros a sn Hsn. destruct (decide (store_addresses (w_cluster w) !! node = Some a)) as [Ha|Ha].
    + apply Hlog. unfold node_of. rewrite HC, Ha. exact Hsn.
    + rewrite HN in Hsn by done. by apply Hlogs in Hsn.
Qed.

(** A call with its retry: the request is served not at all, once or twice. *)
Lemma try_call_spec (P : StoreNode -> Prop) Q w node request :
  served_as P Q request -> world_ok w -> (forall sn, P sn -> log_fits (sn_log sn)) ->
  (forall sn, node_of w node = Some sn -> P sn) ->
  let '(w', r) := try_call w node request in
  elsewhere w w' node /\ world_ok w' /\ (forall sn, node_of w' node = Some sn -> P sn) /\
  match r with
  | Ok resp => exists sn, Q resp sn /\ node_of w' node = Some sn
  | Err _ => True
  | Panic => False
  end.
Proof.
  intros Hserve Hw Hfits HP. unfold Remote.try_call.
  destruct (store_addresses (w_cluster w) !! node) as [address|] eqn:Ha; [|split; [apply elsewhere_refl|by split_and!]].
  assert (forall w, store_addresses (w_cluster w) !! node = Some address -> node_of w node = w_nodes w !! address) as Hat.
  { intros w0 E. unfold node_of. by rewrite E. }
  pose proof (exchange_spec P Q w node address request Hserve Hw Ha) as H1. rewrite Hat in HP by done. specialize (H1 HP).
  destruct (exchange w node address request) as [w1 r1]. destruct H1 as (He1 & HP1 & Hr1). cbn [fst snd] in *.
  assert (Ha1 : store_addresses (w_cluster w1) !! node = Some address) by by rewrite (el_cluster _ _ _ He1).
  assert (Hw1 : world_ok w1).
  { eapply world_ok_after; [exact Hw|exact He1|]. intros sn. rewrite Hat by done. auto. }
  destruct r1 as [payload|m|]; [| |done].
  - destruct Hr1 as (resp & sn & Hdec & HQ & Hsn). rewrite Hdec. split; [done|]. split; [done|].
    split; [intros sn'; rewrite Hat by done; auto|]. exists sn. split; [done|]. by rewrite Hat.
  - pose proof (exchange_spec P Q w1 node address request Hserve Hw1 Ha1 HP1) as H2.
    destruct (exchange w1 node address request) as [w2 r2]. destruct H2 as (He2 & HP2 & Hr2). cbn [fst snd] in *.
    assert (Ha2 : store_addresses (w_cluster w2) !! node = Some address) by by rewrite (el_cluster _ _ _ He2).
    split; [by eapply elsewhere_trans|]. split; [eapply world_ok_after; [exact Hw1|exact He2|intros sn; rewrite Hat by done; auto]|].
    split; [intros sn'; rewrite Hat by done; auto|]. destruct r2 as [payload| |]; [|done..]. rsimpl.
    destruct Hr2 as (resp & sn & -> & HQ & Hsn). exists sn. split; [done|]. by rewrite Hat.
Qed.

(** ** The write of one replica *)

Definition reads (w : World) (node : NodeId) (id : DatumId) : option (res (option bytes)) :=
  (λ sn, get (sn_log sn) id) <$> node_of w node.

(** A write of [v] to [id] at [node]: no other datum and no other node changes, and an
    acknowledgement means that the replica has the value. *)
Record wrote (id : DatumId) (v : option bytes) (w w' : World) (node : NodeId) (ok : bool) : Prop := {
  wr_cluster : w_cluster w' = w_cluster w;
  wr_world : world_ok w';
  wr_else : forall node', node' <> node -> node_of w' node' = node_of w node';
  wr_other : forall node' id', node' <> node \/ id' <> id -> reads w' node' id' = reads w node' id';
  wr_ok : ok = true -> reads w' node id = Some (Ok v) }.

(** A replica that the call finds in a state between. *)
Lemma node_of_elsewhere w w' node node' : world_ok w -> elsewhere w w' node -> node' <> node -> node_of w' node' = node_of w node'.
Proof.
  intros Hw He Hne. unfold node_of. rewrite (el_cluster _ _ _ He).
  destruct (store_addresses (w_cluster w) !! node') as [a|] eqn:Ha; [|done]. cbn. apply (el_nodes _ _ _ He).
  intros Ha'. apply Hne. by eapply (wo_addresses _ Hw).
Qed.

Definition base_of (w : World) (node : NodeId) : contents := λ id, default (Ok None) (reads w node id).

Lemma between_base w node id v sn : world_ok w -> node_of w node = Some sn -> between (base_of w node) id v sn.
Proof.
  intros Hw Hsn. unfold base_of, reads. rewrite Hsn. split; [|split; [done|by left]].
  unfold node_of in Hsn. destruct (store_addresses (w_cluster w) !! node) as [a|] eqn:Ha; [|done]. by eapply (wo_logs _ Hw).
Qed.

Lemma reads_base w node id sn : node_of w node = Some sn -> base_of w node id = get (sn_log sn) id.
Proof. intros Hsn. unfold base_of, reads. by rewrite Hsn. Qed.

(** A call that leaves the node between what it was and the write. *)
Lemma wrote_intro id v w w' node ok :
  world_ok w -> elsewhere w w' node -> world_ok w' -> (forall sn, node_of w' node = Some sn -> between (base_of w node) id v sn) ->
  (ok = true -> exists sn, node_of w' node = Some sn /\ get (sn_log sn) id = Ok v) -> wrote id v w w' node ok.
Proof.
  intros Hw He Hw' HP Hok. split; [apply He|done|intros; by eapply node_of_elsewhere| |].
  - intros node' id' Hne. unfold reads. destruct (decide (node' = node)) as [->|Hn]; [|by rewrite (node_of_elsewhere w w' node)].
    destruct Hne as [?|Hne]; [done|]. destruct (node_of w' node) as [sn'|] eqn:E'.
    + destruct (node_of w node) as [sn|] eqn:E; [|by destruct (proj1 (el_up _ _ _ He) ltac:(by eexists)) as [? ?]; rewrite E in H].
      simpl. destruct (HP sn' eq_refl) as (_ & Ho & _). by rewrite Ho, (reads_base w node id' sn).
    + destruct (node_of w node) as [sn|] eqn:E; [|done]. destruct (proj2 (el_up _ _ _ He) ltac:(by eexists)) as [? H]. by rewrite E' in H.
  - intros Ho. destruct (Hok Ho) as (sn & Hsn & Hg). unfold reads. by rewrite Hsn, <- Hg.
Qed.

(** One request that writes. *)
Lemma call_wrote w node id v request :
  world_ok w -> served_as (between (base_of w node) id v) (replied id v) request ->
  let '(w', ok) := expect_ack (try_call w node request) in wrote id v w w' node ok.
Proof.
  intros Hw Hserve. pose proof (try_call_spec (between (base_of w node) id v) (replied id v) w node request Hserve Hw) as HT.
  specialize (HT ltac:(by intros sn (? & _)) (λ sn, between_base w node id v sn Hw)).
  destruct (try_call w node request) as [w' r]. destruct HT as (He & Hw' & HP & Hr). unfold expect_ack. cbn [fst snd].
  apply wrote_intro; [done..|]. intros Hok. destruct r as [resp| |]; [|done..]. destruct resp; try done.
  destruct Hr as (sn & HQ & Hsn). exists sn. split; [done|]. by apply HQ.
Qed.

Definition datum_fits (id : DatumId) (content : bytes) (n : Z) : Prop := datum_ok id /\ u16_ok n /\ zlen content + 19 < 2 ^ 32.

(** The delta of [write_all] against the value the replica holds. *)
Lemma delta_of_spec previous content :
  zlen content + 19 < 2 ^ 32 -> (forall p, previous = Some p -> zlen p + 19 < 2 ^ 32) ->
  exists delta, delta_of previous content = Ok delta /\
    forall d, delta = Some d -> exists p, previous = Some p /\ delta_ok d /\ encoded_len d + 19 < 2 ^ 32 /\ new_total_len d + 19 < 2 ^ 32 /\
      apply p d = Ok content /\ apply content d = Ok content.
Proof.
  intros Hc Hp. pose proof (zlen_nonneg content). destruct previous as [p|]; [|by exists None].
  specialize (Hp p eq_refl). pose proof (zlen_nonneg p).
  destruct (diff_spec p content) as (d & E & Hd & Hl & Ht & H1 & H2); [unfold uint_ok; lia..|].
  unfold delta_of. rewrite E. rsimpl. eexists. split; [done|]. intros d' Hd'. exists p. split; [done|].
  destruct (Z.ltb_spec (encoded_len d) (zlen content / 2)) as [Hlt|]; [|done]. injection Hd' as <-.
  split_and!; [done| |rewrite Ht; lia|done..]. pose proof (Z.div_le_upper_bound (zlen content) 2 (zlen content)). lia.
Qed.

Lemma write_one_spec w node id content previous delta n :
  world_ok w -> datum_fits id content n -> delta_of previous content = Ok delta -> (forall p, previous = Some p -> zlen p + 19 < 2 ^ 32) ->
  (forall p, previous = Some p -> forall r, reads w node id = Some r -> r = Ok (Some p)) ->
  let '(w', ok) := write_one fate clock id content delta n w node in wrote id (Some content) w w' node ok.
Proof.
  intros Hw (Hid & Hn & Hc) Hdelta Hlen Hprev. unfold write_one. destruct delta as [d|].
  2: { apply call_wrote; [done|]. by apply serve_put_as. }
  destruct (delta_of_spec previous content Hc Hlen) as (delta & E & Hd). rewrite Hdelta in E. injection E as <-.
  destruct (Hd d eq_refl) as (p & -> & Hdok & Hl & Ht & H1 & H2).
  destruct (node_of w node) as [sn|] eqn:Esn.
  - assert (Hb : base_of w node id = Ok (Some p)).
    { unfold base_of. destruct (reads w node id) as [r|] eqn:Er; [by rewrite (Hprev p eq_refl r)|]. unfold reads in Er. by rewrite Esn in Er. }
    pose proof (serve_patch_as (base_of w node) id p content d n Hid Hn Hdok Hl Ht Hb H1 H2) as Hserve.
    pose proof (try_call_spec _ _ w node _ Hserve Hw ltac:(by intros ? (? & _)) (λ sn, between_base w node id _ sn Hw)) as HT.
    destruct (try_call w node (StoreRequest.Patch id d n)) as [w1 r]. destruct HT as (He & Hw1 & HP & Hr).
    destruct r as [resp| |]; [|by apply wrote_intro|done].
    destruct Hr as (sn1 & HQ & Hsn1). destruct resp; try by apply wrote_intro.
    + apply wrote_intro; [done..|]. intros _. exists sn1. split; [done|]. by apply HQ.
    + (* the replica has lost the datum: the whole value is sent *)
      pose proof (try_call_spec (between (base_of w node) id (Some content)) (replied id (Some content)) w1 node
        (StoreRequest.Put id content n) ltac:(by apply serve_put_as) Hw1 ltac:(by intros ? (? & _)) HP) as HT.
      destruct (try_call w1 node (StoreRequest.Put id content n)) as [w2 r2]. destruct HT as (He2 & Hw2 & HP2 & Hr2).
      unfold expect_ack. cbn [fst snd]. apply wrote_intro; [done|by eapply elsewhere_trans|done|done|].
      intros Hok. destruct r2 as [resp2| |]; [|done..]. destruct resp2; try done. destruct Hr2 as (sn2 & HQ2 & Hsn2).
      exists sn2. split; [done|]. by apply HQ2.
  - assert (forall request, served_as (λ sn, False) (λ _ _, False) request) as Hnone by by intros request sn now [].
    pose proof (try_call_spec _ _ w node (StoreRequest.Patch id d n) (Hnone _) Hw ltac:(done) ltac:(by rewrite Esn)) as HT.
    destruct (try_call w node (StoreRequest.Patch id d n)) as [w1 r]. destruct HT as (He & Hw1 & HP & Hr).
    destruct r as [resp| |]; [by destruct Hr as (? & [] & _)| |done].
    apply wrote_intro; [done..|by intros sn Hsn; destruct (HP sn Hsn)|done].
Qed.
End calls.

(** ** Writing to every replica *)

(** The cluster after some replicas were marked stale. *)
Definition staled (c : ClusterState) (s : gset NodeId) : ClusterState := with_serving c (storage_alive c) s.

Lemma reads_with_cluster w c node id : store_addresses c = store_addresses (w_cluster w) -> reads (with_cluster w c) node id = reads w node id.
Proof. intros E. unfold reads, node_of. cbn [with_cluster w_cluster w_nodes]. by rewrite E. Qed.

Lemma world_ok_with_cluster w c : world_ok w -> store_addresses c = store_addresses (w_cluster w) -> world_ok (with_cluster w c).
Proof. intros [H1 H2 H3] E. split; cbn [with_cluster w_cluster w_nodes w_conns]; rewrite ?E; auto. Qed.

Record written_all (id : DatumId) (v : option bytes) (targets : list NodeId) (w w' : World) (acked : bool) (s : gset NodeId) : Prop := {
  wa_world : world_ok w';
  wa_cluster : w_cluster w' = staled (w_cluster w) s;
  wa_stale : storage_stale (w_cluster w) ⊆ s;
  wa_failed : forall node, node ∈ s -> node ∈ storage_stale (w_cluster w) \/ node ∈ targets;
  wa_other : forall node id', node ∉ targets \/ id' <> id -> reads w' node id' = reads w node id';
  wa_target : forall node, node ∈ targets -> node ∈ s \/ reads w' node id = Some (Ok v);
  wa_acked : if acked then exists node, node ∈ targets /\ (node ∈ s -> node ∈ storage_stale (w_cluster w)) /\ reads w' node id = Some (Ok v)
             else forall node, node ∈ targets -> node ∈ s }.

Lemma send_all_spec id v (send : World -> NodeId -> World * bool) targets w :
  NoDup targets -> world_ok w ->
  (forall w1 node, node ∈ targets -> world_ok w1 -> reads w1 node id = reads w node id ->
     let '(w2, ok) := send w1 node in wrote id v w1 w2 node ok) ->
  let '(w', acked) := send_all send w targets in exists s, written_all id v targets w w' acked s.
Proof.
  revert w. induction targets as [|x targets IH]; intros w Hnd Hw Hsend.
  { cbn [send_all]. exists (storage_stale (w_cluster w)). split; [done|by destruct w as [[] ? ? ?]|done|by left|done|set_solver|set_solver]. }
  apply NoDup_cons in Hnd as [Hx Hnd]. cbn [send_all].
  pose proof (Hsend w x ltac:(set_solver) Hw eq_refl) as H1. destruct (send w x) as [w1 ok]. destruct H1 as [Hc1 Hw1 _ Ho1 Hok1].
  set (w2 := if ok then w1 else mark_stale w1 x).
  assert (Hr2 : forall node id', reads w2 node id' = reads w1 node id').
  { intros node id'. unfold w2. destruct ok; [done|]. by apply reads_with_cluster. }
  assert (Hw2 : world_ok w2) by (unfold w2; destruct ok; [done|by apply world_ok_with_cluster]).
  assert (Hc2 : w_cluster w2 = staled (w_cluster w) (if ok then storage_stale (w_cluster w) else {[x]} ∪ storage_stale (w_cluster w))).
  { unfold w2. destruct ok; [rewrite Hc1; by destruct (w_cluster w)|]. unfold mark_stale. cbn [with_cluster w_cluster]. by rewrite Hc1. }
  assert (Hst2 : storage_stale (w_cluster w2) = if ok then storage_stale (w_cluster w) else {[x]} ∪ storage_stale (w_cluster w)) by by rewrite Hc2.
  specialize (IH w2 Hnd Hw2). destruct (send_all send w2 targets) as [w' acked]. destruct IH as (s & [Hw' Hc' Hs' Hf' Ho' Ht' Ha']).
  { intros w3 node Hin Hw3 Hr3. apply Hsend; [set_solver|done|]. rewrite Hr3, Hr2. apply Ho1. left. by intros ->. }
  rewrite Hst2 in Hs', Hf', Ha'. exists s. split.
  - done.
  - rewrite Hc', Hc2. done.
  - destruct ok; set_solver.
  - intros node Hin. destruct (Hf' node Hin); destruct ok; set_solver.
  - intros node id' Hne. rewrite Ho' by set_solver. rewrite Hr2. apply Ho1. set_solver.
  - intros node [->|Hin]%elem_of_cons; [|by apply Ht']. destruct ok; [right|left; set_solver].
    rewrite Ho' by by left. rewrite Hr2. by apply Hok1.
  - destruct acked; cbn [orb].
    + rewrite orb_true_r. destruct Ha' as (node & Hin & Hs & Hr). exists node. split; [set_solver|]. split; [|done].
      intros Hns. specialize (Hs Hns). destruct ok; [done|]. set_solver.
    + rewrite orb_false_r. destruct ok.
      * exists x. split; [set_solver|]. split; [intros Hxs; destruct (Hf' x Hxs); [done|set_solver]|].
        rewrite Ho' by by left. rewrite Hr2. by apply Hok1.
      * intros node [->|Hin]%elem_of_cons; [set_solver|by apply Ha'].
Qed.

(** ** Reading with failover *)

(** A world that differs in what is stale and in the gate. *)
Record staled_by (w w' : World) (s : gset NodeId) : Prop := {
  sb_world : world_ok w';
  sb_ring : storage_ring (w_cluster w') = storage_ring (w_cluster w);
  sb_alive : storage_alive (w_cluster w') = storage_alive (w_cluster w);
  sb_stale : storage_stale (w_cluster w') = s;
  sb_grows : storage_stale (w_cluster w) ⊆ s }.

Lemma mark_stale_by w node : world_ok w -> staled_by w (mark_stale w node) ({[node]} ∪ storage_stale (w_cluster w)).
Proof. intros Hw. split; try done; [by apply world_ok_with_cluster|set_solver]. Qed.

Lemma staled_by_trans w w1 w2 s1 s2 : staled_by w w1 s1 -> staled_by w1 w2 s2 -> staled_by w w2 s2.
Proof. intros [? A1 B1 C1 D1] [? A2 B2 C2 D2]. split; [done|congruence..|set_solver]. Qed.

Section get.
Variable show_id : DatumId -> bytes.
Variables (fate : nat -> Fate) (clock : nat -> Z).

Lemma halt_by {A} (id : DatumId) w : world_ok w ->
  exists w', halt_total_loss (A := A) show_id id w = (w', Panic) /\ staled_by w w' (storage_stale (w_cluster w)) /\
    halted (halt (w_cluster w')) = true /\ forall node id', reads w' node id' = reads w node id'.
Proof.
  intros Hw. eexists. split; [done|]. split; [|split; [done|intros; by apply reads_with_cluster]].
  split; try done. by apply world_ok_with_cluster.
Qed.

(** A [Get] changes no replica. *)
Lemma call_get w node id : world_ok w -> datum_ok id ->
  let '(w', r) := try_call fate clock w node (StoreRequest.Get id) in
  staled_by w w' (storage_stale (w_cluster w)) /\ (forall node', node_of w' node' = node_of w node') /\
  match r with Ok (StoreResponse.Value v) => reads w node id = Some (Ok v) | Panic => False | _ => True end.
Proof.
  intros Hw Hid.
  pose proof (try_call_spec fate clock (λ sn, node_of w node = Some sn) _ w node _ (serve_get_as _ id Hid) Hw) as HT.
  specialize (HT ltac:(intros sn Hsn; by destruct (between_base w node id None sn Hw Hsn)) ltac:(done)).
  destruct (try_call fate clock w node (StoreRequest.Get id)) as [w' r]. destruct HT as (He & Hw' & HP & Hr).
  assert (Hsame : node_of w' node = node_of w node).
  { destruct (node_of w' node) as [sn|] eqn:E; [by rewrite (HP sn)|]. destruct (node_of w node) as [sn|] eqn:E'; [|done].
    destruct (proj2 (el_up _ _ _ He) ltac:(by eexists)) as [? H]. by rewrite E in H. }
  split; [|split].
  - split; rewrite ?(el_cluster _ _ _ He); done.
  - intros node'. destruct (decide (node' = node)) as [->|Hne]; [done|]. by apply (node_of_elsewhere w w' node node').
  - destruct r as [resp| |]; [|done..]. destruct resp; try done. destruct Hr as (sn & HQ & Hsn). unfold reads.
    rewrite <- Hsame, Hsn. simpl. by rewrite (HQ content eq_refl).
Qed.

Lemma get_loop_spec id v targets w reached :
  world_ok w -> datum_ok id -> (forall node r, node ∈ targets -> reads w node id = Some r -> r = Ok v) -> (reached = true -> v = None) ->
  let '(w', r) := get_loop show_id fate clock id w targets reached in
  exists s, staled_by w w' s /\ (forall node id', reads w' node id' = reads w node id') /\
    match r with
    | Ok x => x = v
    | Err _ => False
    | Panic => halted (halt (w_cluster w')) = true /\ forall node, node ∈ targets -> node ∈ s
    end.
Proof.
  revert w reached. induction targets as [|x targets IH]; intros w reached Hw Hid Hv Hreached; cbn [get_loop].
  { destruct reached.
    - exists (storage_stale (w_cluster w)). split; [by split|]. split; [done|]. by rewrite Hreached.
    - destruct (halt_by (A := option bytes) id w Hw) as (w' & E & Hs & Hh & Hr). rewrite E.
      exists (storage_stale (w_cluster w)). split; [done|]. split; [done|]. split; [done|set_solver]. }
  pose proof (call_get w x id Hw Hid) as Hc. destruct (try_call fate clock w x (StoreRequest.Get id)) as [w1 r].
  destruct Hc as (Hs1 & Hn1 & Hval). pose proof (sb_world _ _ _ Hs1) as Hw1.
  assert (Hr1 : forall node id', reads w1 node id' = reads w node id') by (intros; unfold reads; by rewrite Hn1).
  assert (Hnext : forall w2 reached', world_ok w2 -> (forall node id', reads w2 node id' = reads w node id') -> (reached' = true -> v = None) ->
    let '(w', r) := get_loop show_id fate clock id w2 targets reached' in
    exists s, staled_by w2 w' s /\ (forall node id', reads w' node id' = reads w2 node id') /\
      match r with Ok x => x = v | Err _ => False
      | Panic => halted (halt (w_cluster w')) = true /\ forall node, node ∈ targets -> node ∈ s end).
  { intros w2 reached' Hw2 Hr2 Hre. apply IH; [done|done| |done]. intros node r' Hin. rewrite Hr2. apply Hv. set_solver. }
  assert (Hbad : let '(w', r) := get_loop show_id fate clock id (mark_stale w1 x) targets reached in
    exists s, staled_by w w' s /\ (forall node id', reads w' node id' = reads w node id') /\
      match r with Ok x => x = v | Err _ => False
      | Panic => halted (halt (w_cluster w')) = true /\ forall node, node ∈ x :: targets -> node ∈ s end).
  { pose proof (mark_stale_by w1 x Hw1) as Hm. specialize (Hnext (mark_stale w1 x) reached (sb_world _ _ _ Hm)).
    assert (forall node id', reads (mark_stale w1 x) node id' = reads w node id') as Hrm.
    { intros. rewrite <- Hr1. by apply reads_with_cluster. }
    specialize (Hnext Hrm Hreached). destruct (get_loop show_id fate clock id (mark_stale w1 x) targets reached) as [w' r'].
    destruct Hnext as (s & Hs & Hr & Hres). exists s. split; [eapply staled_by_trans; [exact Hs1|]; by eapply staled_by_trans|].
    split; [intros; by rewrite Hr|]. destruct r'; [done..|]. destruct Hres as [Hh Ht]. split; [done|].
    intros node [->|Hin]%elem_of_cons; [|by apply Ht]. apply (sb_grows _ _ _ Hs). cbn. set_solver. }
  destruct r as [resp| |]; [|exact Hbad|done]. destruct resp as [| |[c|]| | | | | | | |]; try exact Hbad.
  - exists (storage_stale (w_cluster w)). split; [done|]. split; [done|].
    specialize (Hv x (Ok (Some c)) ltac:(set_solver) Hval). congruence.
  - assert (v = None) as Hnone by (specialize (Hv x (Ok None) ltac:(set_solver) Hval); congruence).
    specialize (Hnext w1 true Hw1 Hr1 ltac:(done)).
    destruct (get_loop show_id fate clock id w1 targets true) as [w' r'] eqn:EG.
    destruct Hnext as (s & Hs & Hr & Hres). exists s. split; [by eapply staled_by_trans|]. split; [intros; by rewrite Hr|].
    destruct r' as [y| |]; [done..|]. exfalso. clear -EG. revert w1 EG. induction targets as [|y targets IH]; intros w1; cbn [get_loop]; [done|].
    destruct (try_call fate clock w1 y (StoreRequest.Get id)) as [w2 [[| |[c|]| | | | | | | |]| |]]; (done || apply IH).
Qed.
End get.

(** ** The store as a map *)

Lemma serving_replicas_ok c id n : ring_ok (storage_ring c) -> exists l, serving_replicas c id n = Ok l /\ NoDup l.
Proof.
  intros Hr. unfold serving_replicas.
  assert (exists l, replicas (storage_ring c) id (Z.to_nat n) = Ok l /\ NoDup l) as (l & E & Hnd).
  { destruct (decide (slots (storage_ring c) = [] \/ Z.to_nat n = 0%nat)) as [H|H].
    - exists []. split; [|constructor]. unfold replicas.
      destruct H; [rewrite (bool_decide_eq_true_2 (slots _ = []))|rewrite (bool_decide_eq_true_2 (Z.to_nat n = _)), orb_true_r]; done.
    - destruct (replicas_set (storage_ring c) id (Z.to_nat n) Hr) as (l & _ & _ & E & _ & _ & Hnd & _); [tauto|lia|]. by exists l. }
  rewrite E. rsimpl. eexists. split; [done|]. by apply NoDup_ListNoDup, List.NoDup_filter, NoDup_ListNoDup.
Qed.

Section map.
Variable show_id : DatumId -> bytes.
Variables (fate : nat -> Fate) (clock : nat -> Z).
(** The replication factor every call gives a datum. *)
Variable factor : DatumId -> Z.

Definition serving (w : World) (id : DatumId) (node : NodeId) : Prop :=
  exists l, serving_replicas (w_cluster w) id (factor id) = Ok l /\ node ∈ l.

(** Every replica that serves a datum has its value. *)
Record agrees (m : gmap DatumId bytes) (w : World) : Prop := {
  ag_world : world_ok w;
  ag_ring : ring_ok (storage_ring (w_cluster w));
  ag_fits : forall id v, m !! id = Some v -> zlen v + 19 < 2 ^ 32;
  ag_value : forall id node r, serving w id node -> reads w node id = Some r -> r = Ok (m !! id) }.

Lemma serving_staled w w' s id node : staled_by w w' s -> serving w' id node <-> serving w id node /\ node ∉ s.
Proof.
  intros [_ Hr Ha Hs Hg]. unfold serving, serving_replicas. rewrite Hr.
  destruct (replicas (storage_ring (w_cluster w)) id (Z.to_nat (factor id))) as [l| |]; rsimpl; [|naive_solver..].
  assert (forall c, node ∈ List.filter (can_serve c) l <-> node ∈ l /\ node ∈ storage_alive c /\ node ∉ storage_stale c) as Hf.
  { intros c. rewrite !list_elem_of_In, filter_In. unfold can_serve. rewrite andb_true_iff, negb_true_iff, bool_decide_eq_true, bool_decide_eq_false. tauto. }
  split.
  - intros (l' & [= <-] & Hin). apply Hf in Hin as (Hin & Hal & Hst). rewrite Ha in Hal. rewrite Hs in Hst. split; [|done].
    eexists. split; [done|]. apply Hf. set_solver.
  - intros [(l' & [= <-] & Hin) Hst]. eexists. split; [done|]. apply Hf in Hin as (Hin & Hal & _). apply Hf. by rewrite Ha, Hs.
Qed.

(** The calls of the [Store] trait. *)
Inductive store_op :=
| StoreGet (id : DatumId)
| StorePut (id : DatumId) (content : bytes) (previous : option bytes)
| StoreDelete (id : DatumId).

Definition store_exec (o : store_op) : io World (option bytes) :=
  match o with
  | StoreGet id => get_replicated show_id fate clock id (factor id)
  | StorePut id content None => put_replicated show_id fate clock id content (factor id) ≫= λ _, mret None
  | StorePut id content previous => put_with_previous_replicated show_id fate clock id content previous (factor id) ≫= λ _, mret None
  | StoreDelete id => delete_replicated show_id fate clock id (factor id) ≫= λ _, mret None
  end.

Definition op_datum (o : store_op) : DatumId := match o with StoreGet id | StorePut id _ _ | StoreDelete id => id end.

Definition store_spec (m : gmap DatumId bytes) (o : store_op) : gmap DatumId bytes * option bytes :=
  match o with
  | StoreGet id => (m, m !! id)
  | StorePut id content _ => (<[id := content]> m, None)
  | StoreDelete id => (delete id m, None)
  end.

(** Values that fit, and a previous value that is the one stored. *)
Definition store_op_ok (m : gmap DatumId bytes) (o : store_op) : Prop :=
  datum_ok (op_datum o) /\ u16_ok (factor (op_datum o)) /\
  match o with
  | StorePut id content previous => zlen content + 19 < 2 ^ 32 /\ forall p, previous = Some p -> m !! id = Some p
  | _ => True
  end.

(** What the writes have in common: [v] sent to every replica. *)
Lemma replicated_write_spec m id v send w :
  agrees m w -> (forall c, v = Some c -> zlen c + 19 < 2 ^ 32) ->
  (forall w1 node, world_ok w1 -> (forall r, reads w1 node id = Some r -> r = Ok (m !! id)) ->
     let '(w2, ok) := send w1 node in wrote id v w1 w2 node ok) ->
  let '(w', r) := replicated_write show_id id (factor id) send w in
  match r with
  | Ok _ => agrees (partial_alter (λ _, v) id m) w' /\ exists node, serving w' id node /\ reads w' node id = Some (Ok v)
  | Err _ => False
  | Panic => agrees m w' /\ halted (halt (w_cluster w')) = true /\ forall node, ~ serving w' id node
  end.
Proof.
  intros [Hw Hring Hfits Hval] Hv Hsend. unfold replicated_write.
  destruct (serving_replicas_ok (w_cluster w) id (factor id) Hring) as (targets & E & Hnd). rewrite E.
  assert (Hin : forall node, node ∈ targets <-> serving w id node).
  { intros node. unfold serving. rewrite E. naive_solver. }
  assert (Hhalt : forall w1 s, staled_by w w1 s -> (forall node, node ∈ targets -> node ∈ s) ->
    (forall node id', serving w1 id' node -> reads w1 node id' = reads w node id') ->
    let '(w', r) := halt_total_loss (A := ()) show_id id w1 in
    match r with
    | Ok _ => agrees (partial_alter (λ _, v) id m) w' /\ exists node, serving w' id node /\ reads w' node id = Some (Ok v)
    | Err _ => False
    | Panic => agrees m w' /\ halted (halt (w_cluster w')) = true /\ forall node, ~ serving w' id node
    end).
  { intros w1 s Hs Hall Hsame. destruct (halt_by (A := ()) show_id id w1 (sb_world _ _ _ Hs)) as (w' & -> & Hs' & Hh & Hr).
    rewrite (sb_stale _ _ _ Hs) in Hs'. split; [|split; [done|]].
    - split; [apply Hs'|by rewrite (sb_ring _ _ _ Hs'), (sb_ring _ _ _ Hs)|done|].
      intros id' node r' Hse. rewrite Hr. pose proof (proj1 (serving_staled w1 w' s id' node Hs') Hse) as [Hse1 _]. rewrite Hsame by done.
      apply Hval. by apply (serving_staled w w1 s id' node Hs) in Hse1 as [? _].
    - intros node Hse. apply (serving_staled w1 w' s id node Hs') in Hse as [Hse _].
      apply (serving_staled w w1 s id node Hs) in Hse as [Hse Hns]. by apply Hns, Hall, Hin. }
  destruct targets as [|x targets].
  { apply (Hhalt w (storage_stale (w_cluster w))); [by split|set_solver|done]. }
  pose proof (send_all_spec id v send (x :: targets) w Hnd Hw) as HS.
  destruct (send_all send w (x :: targets)) as [w' acked]. destruct HS as (s & [Hw' Hc' Hs' Hf' Ho' Ht' Ha']).
  { intros w1 node Hnode Hw1 Hr1. apply Hsend; [done|]. intros r. rewrite Hr1. apply Hval. by apply Hin. }
  assert (Hst : staled_by w w' s) by (split; [done|by rewrite Hc'..|done]).
  destruct acked.
  - split.
    + split; [done|by rewrite Hc'| |].
      * intros id' v'. destruct (decide (id' = id)) as [->|Hne]; [rewrite lookup_partial_alter_eq; apply Hv|rewrite lookup_partial_alter_ne by done; apply Hfits].
      * intros id' node r Hse Hrd. apply (serving_staled w w' s id' node Hst) in Hse as [Hse Hns].
        destruct (decide (id' = id)) as [->|Hne].
        -- rewrite lookup_partial_alter_eq. apply Hin in Hse. destruct (Ht' node Hse) as [|Hrd']; [done|]. congruence.
        -- rewrite lookup_partial_alter_ne by done. rewrite Ho' in Hrd by by right. by apply (Hval id' node).
    + destruct Ha' as (node & Hnode & Hns & Hrd). exists node. split; [|done]. apply Hin in Hnode.
      apply (serving_staled w w' s id node Hst). split; [done|]. intros Hs1. specialize (Hns Hs1).
      destruct Hnode as (l & El & Hl). unfold serving_replicas in El. destruct (replicas _ _ _) as [l0| |]; rsimpl in El; [|done..]. injection El as <-.
      apply list_elem_of_In, filter_In in Hl as [_ Hl]. unfold can_serve in Hl. by rewrite (bool_decide_eq_true_2 (node ∈ storage_stale _)), andb_false_r in Hl by done.
  - apply (Hhalt w' s); [done|done|]. intros node id' Hse. apply (serving_staled w w' s id' node Hst) in Hse as [Hse Hns].
    apply Ho'. destruct (decide (id' = id)) as [->|]; [left|by right]. intros Hnode. by apply Hns, Ha'.
Qed.

Lemma get_replicated_spec m w id :
  agrees m w -> datum_ok id ->
  let '(w', r) := get_replicated show_id fate clock id (factor id) w in
  agrees m w' /\
  match r with
  | Ok y => y = m !! id
  | Err _ => False
  | Panic => halted (halt (w_cluster w')) = true /\ forall node, ~ serving w' id node
  end.
Proof.
  intros HA Hid. pose proof HA as [Hw Hring Hfits Hval]. unfold get_replicated.
  destruct (serving_replicas_ok (w_cluster w) id (factor id) Hring) as (targets & E & Hnd). rewrite E.
  assert (Hin : forall node, node ∈ targets <-> serving w id node) by (intros node; unfold serving; rewrite E; naive_solver).
  assert (Hkeep : forall w' s, staled_by w w' s -> (forall node id', reads w' node id' = reads w node id') -> agrees m w').
  { intros w' s Hs Hr. split; [apply Hs|by rewrite (sb_ring _ _ _ Hs)|done|]. intros id' node r Hse. rewrite Hr. apply Hval.
    by apply (serving_staled w w' s id' node Hs) in Hse as [? _]. }
  destruct targets as [|x targets].
  - destruct (halt_by (A := option bytes) show_id id w Hw) as (w' & -> & Hs & Hh & Hr). split; [by eapply Hkeep|]. split; [done|].
    intros node Hse. apply (serving_staled w w' _ id node Hs) in Hse as [Hse _]. apply Hin in Hse. set_solver.
  - pose proof (get_loop_spec show_id fate clock id (m !! id) (x :: targets) w false Hw Hid) as HG.
    specialize (HG ltac:(intros node r Hnode; apply Hval; by apply Hin) ltac:(done)).
    destruct (get_loop show_id fate clock id w (x :: targets) false) as [w' r]. destruct HG as (s & Hs & Hr & Hres).
    split; [by eapply Hkeep|]. destruct r as [y| |]; [done..|]. destruct Hres as [Hh Hall]. split; [done|].
    intros node Hse. apply (serving_staled w w' s id node Hs) in Hse as [Hse Hns]. by apply Hns, Hall, Hin.
Qed.

(** A put with a previous value or without: the same write, of the delta there is. *)
Lemma put_exec m w id content previous :
  agrees m w -> store_op_ok m (StorePut id content previous) ->
  exists delta, delta_of previous content = Ok delta /\
    store_exec (StorePut id content previous) w =
      (replicated_write show_id id (factor id) (write_one fate clock id content delta (factor id)) ≫= λ _, mret None) w /\
    forall w1 node, world_ok w1 -> (forall r, reads w1 node id = Some r -> r = Ok (m !! id)) ->
      let '(w2, ok) := write_one fate clock id content delta (factor id) w1 node in wrote id (Some content) w1 w2 node ok.
Proof.
  intros HA (Hid & Hn & Hc & Hprev). cbn [op_datum] in *.
  destruct (delta_of_spec previous content Hc) as (delta & Hdelta & _); [intros p Hp; by apply (ag_fits m w HA id), Hprev|].
  exists delta. split; [done|]. split.
  - cbn [store_exec]. destruct previous; unfold put_with_previous_replicated, put_replicated, write_all, mbind, io_bind; by rewrite Hdelta.
  - intros w1 node Hw1 Hr1. apply (write_one_spec fate clock w1 node id content previous); [done|by split_and!|done|..].
    + intros p Hp. by apply (ag_fits m w HA id), Hprev.
    + intros p Hp r1 Hr. rewrite (Hr1 r1 Hr). by rewrite (Hprev p Hp).
Qed.

(** C14: whatever becomes of the exchanges - requests that never arrive, replies that
    are lost after the replica has written, retries that deliver a write twice,
    replicas that refuse - the networked store is a map. A call that returns leaves
    every replica that serves a datum with the value the map has, a read returns that
    value, and a write has reached at least one replica that still serves. The only
    other outcome is the fail-stop: no replica of the datum serves any more, the halt
    is engaged, and what the remaining replicas serve is the map from before. *)
Theorem remote_store_refines_map m w o :
  agrees m w -> store_op_ok m o ->
  let '(w', r) := store_exec o w in
  let '(m', x) := store_spec m o in
  match r with
  | Ok y => agrees m' w' /\ y = x /\
      match o with StoreGet _ => True | _ => exists node, serving w' (op_datum o) node /\ reads w' node (op_datum o) = Some (Ok (m' !! op_datum o)) end
  | Err _ => False
  | Panic => agrees m w' /\ halted (halt (w_cluster w')) = true /\ forall node, ~ serving w' (op_datum o) node
  end.
Proof.
  intros HA Hok. pose proof Hok as (Hid & Hn & Hop). destruct o as [id|id content previous|id]; cbn [store_spec op_datum] in *.
  - cbn [store_exec]. pose proof (get_replicated_spec m w id HA Hid) as HG.
    destruct (get_replicated show_id fate clock id (factor id) w) as [w' r]. destruct HG as [HA' Hr]. by destruct r.
  - destruct (put_exec m w id content previous HA Hok) as (delta & _ & -> & Hone).
    pose proof (replicated_write_spec m id (Some content) _ w HA ltac:(intros c [= <-]; tauto) Hone) as HS.
    unfold mbind, io_bind. destruct (replicated_write show_id id (factor id) _ w) as [w' r].
    destruct r as [u| |]; [|done|exact HS]. destruct HS as [HA' (node & Hse & Hrd)].
    split; [exact HA'|]. split; [done|]. exists node. split; [done|]. by rewrite lookup_insert_eq.
  - assert (Hone : forall w1 node, world_ok w1 -> (forall r, reads w1 node id = Some r -> r = Ok (m !! id)) ->
      let '(w2, ok) := expect_ack (try_call fate clock w1 node (StoreRequest.Delete id)) in wrote id None w1 w2 node ok).
    { intros w1 node Hw1 _. apply call_wrote; [done|by apply serve_delete_as]. }
    pose proof (replicated_write_spec m id None (λ w node, expect_ack (try_call fate clock w node (StoreRequest.Delete id))) w HA ltac:(done) Hone) as HS.
    cbn [store_exec]. unfold delete_replicated, mbind, io_bind.
    destruct (replicated_write show_id id (factor id) _ w) as [w' r].
    destruct r as [u| |]; [|done|exact HS]. destruct HS as [HA' (node & Hse & Hrd)].
    split; [exact HA'|]. split; [done|]. exists node. split; [done|]. by rewrite lookup_delete_eq.
Qed.
End map.

(** ** A replica that is up *)

Section up.
Variable show_id : DatumId -> bytes.
Variables (fate : nat -> Fate) (clock : nat -> Z) (factor : DatumId -> Z).
Hypothesis all_delivered : forall k, fate k = Delivered.

(** It listens and is in touch with the cluster. *)
Definition up (w : World) (node : NodeId) : Prop :=
  exists sn, node_of w node = Some sn /\ forall k, stale (sn_last_heard sn) (clock k) (sn_self_halt_threshold sn) = false.

(** A call on it that fits a frame is answered. *)
Lemma call_up w node sn request sn' resp calls copy :
  world_ok w -> node_of w node = Some sn -> (forall k, stale (sn_last_heard sn) (clock k) (sn_self_halt_threshold sn) = false) ->
  store_request_ok request -> store_response_ok resp -> serve sn request = (sn', Reply resp, calls, copy) ->
  zlen (encode_store_request request) <= MAX_FRAME_LEN -> zlen (encode_store_response resp) <= MAX_FRAME_LEN ->
  exists w', try_call fate clock w node request = (w', Ok resp).
Proof.
  intros Hw Hn Hf Hok Hrok Hs Hl1 Hl2. unfold node_of in Hn. unfold try_call.
  destruct (store_addresses (w_cluster w) !! node) as [address|] eqn:Ha; [|done]. cbn in Hn. unfold exchange at 1.
  assert (default address (w_conns w !! node) = address) as ->.
  { destruct (w_conns w !! node) as [a|] eqn:E; [|done]. simpl. apply (wo_conns _ Hw) in E. congruence. }
  rewrite Hn, all_delivered. rewrite (proj2 (Z.ltb_ge _ _)) by done. unfold handle_connection.
  rewrite store_request_roundtrip by done. rewrite Hf, Hs. rewrite (proj2 (Z.ltb_ge _ _)) by done.
  eexists. f_equal. by apply store_response_wire.
Qed.

Lemma zlen_request_put id content n : zlen (encode_store_request (StoreRequest.Put id content n)) = 20 + zlen content.
Proof.
  unfold encode_store_request. cbn [store_request_body]. unfold put_id. rewrite !zlen_cons, !zlen_app, zlen_to_le, zlen_as_bytes. lia.
Qed.
Lemma zlen_request_patch id d n : zlen (encode_store_request (StoreRequest.Patch id d n)) = 20 + encoded_len d.
Proof.
  unfold encode_store_request. cbn [store_request_body]. unfold put_id.
  rewrite !zlen_cons, !zlen_app, zlen_to_le, zlen_as_bytes, zlen_encode_delta. lia.
Qed.
Lemma zlen_request_id request id : store_request_body request = ((store_request_body request).1, put_id id) ->
  zlen (encode_store_request request) = 18.
Proof. intros E. unfold encode_store_request. rewrite E. unfold put_id. by rewrite !zlen_cons, zlen_as_bytes. Qed.
Lemma zlen_response_value v : zlen (encode_store_response (StoreResponse.Value v)) = 3 + from_option zlen 0 v.
Proof. destruct v; unfold encode_store_response; cbn [store_response_body from_option]; rewrite !zlen_cons; [lia|done]. Qed.

Lemma up_node w w' node : node_of w' node = node_of w node -> up w node -> up w' node.
Proof. intros E (sn & Hsn & Hf). exists sn. by rewrite E. Qed.

(** The three writes and the read at a replica that is up. *)
Lemma put_up w node id content n :
  world_ok w -> up w node -> datum_fits id content n -> zlen content + 20 <= MAX_FRAME_LEN ->
  (expect_ack (try_call fate clock w node (StoreRequest.Put id content n))).2 = true.
Proof.
  intros Hw (sn & Hsn & Hf) (Hid & Hn & Hc) Hl.
  destruct (call_up w node sn (StoreRequest.Put id content n) _ StoreResponse.Ack _ _ Hw Hsn Hf ltac:(done) ltac:(done) eq_refl) as (w' & ->);
    [rewrite zlen_request_put; lia|by vm_compute|done].
Qed.

Lemma delete_up w node id : world_ok w -> up w node -> datum_ok id ->
  (expect_ack (try_call fate clock w node (StoreRequest.Delete id))).2 = true.
Proof.
  intros Hw (sn & Hsn & Hf) Hid.
  destruct (call_up w node sn (StoreRequest.Delete id) _ StoreResponse.Ack _ _ Hw Hsn Hf ltac:(done) ltac:(done) eq_refl) as (w' & ->);
    [by rewrite (zlen_request_id _ id)|by vm_compute|done].
Qed.

Lemma write_up w node id content previous delta n :
  world_ok w -> up w node -> datum_fits id content n -> zlen content + 20 <= MAX_FRAME_LEN -> delta_of previous content = Ok delta ->
  (forall p, previous = Some p -> zlen p + 19 < 2 ^ 32 /\ forall r, reads w node id = Some r -> r = Ok (Some p)) ->
  (write_one fate clock id content delta n w node).2 = true.
Proof.
  intros Hw Hup (Hid & Hn & Hc) Hl Hdelta Hprev. unfold write_one. destruct delta as [d|]; [|by apply put_up].
  destruct Hup as (sn & Hsn & Hf).
  destruct (delta_of_spec previous content Hc) as (delta & E & Hd); [intros p Hp; by apply Hprev|].
  rewrite Hdelta in E. injection E as <-. destruct (Hd d eq_refl) as (p & -> & Hdok & Henc & Htot & H1 & H2).
  destruct (Hprev p eq_refl) as [Hp Hr]. assert (Hlt : encoded_len d < zlen content / 2).
  { revert Hdelta. unfold delta_of. destruct (diff p content) as [d'| |]; rsimpl; [|done..].
    destruct (Z.ltb_spec (encoded_len d') (zlen content / 2)); [|done]. by intros [= ->]. }
  assert (Hget : get (sn_log sn) id = Ok (Some p)) by (apply Hr; unfold reads; by rewrite Hsn).
  destruct (between_base w node id None sn Hw Hsn) as (HF & _). destruct (lf_ok _ HF) as [recs HI].
  pose proof (put_delta_inv _ recs id d n HI ltac:(by split_and!)) as HD. unfold patched in HD. rewrite Hget in HD. rsimpl in HD. rewrite H1 in HD.
  destruct (put_delta (sn_log sn) id d n) as [[[|] l']|m|] eqn:EP; [|by destruct HD|done|done].
  assert (Hs : serve sn (StoreRequest.Patch id d n) = (written sn l' id, Reply StoreResponse.Ack, [], None)).
  { unfold serve. cbn [on_collection serve_data]. by rewrite EP. }
  destruct (call_up w node sn (StoreRequest.Patch id d n) _ StoreResponse.Ack _ _ Hw Hsn Hf ltac:(done) ltac:(done) Hs) as (w' & ->);
    [rewrite zlen_request_patch|by vm_compute|done].
  pose proof (Z.div_le_upper_bound (zlen content) 2 (zlen content)). pose proof (zlen_nonneg content). lia.
Qed.

Lemma get_up w node id v : world_ok w -> up w node -> datum_ok id -> reads w node id = Some (Ok v) -> from_option zlen 0 v + 3 <= MAX_FRAME_LEN ->
  exists w', try_call fate clock w node (StoreRequest.Get id) = (w', Ok (StoreResponse.Value v)).
Proof.
  intros Hw (sn & Hsn & Hf) Hid Hr Hl.
  assert (Hg : get (sn_log sn) id = Ok v) by (unfold reads in Hr; rewrite Hsn in Hr; by injection Hr).
  apply (call_up w node sn _ sn _ [] None Hw Hsn Hf); [done|done| |by rewrite (zlen_request_id _ id)|rewrite zlen_response_value; lia].
  unfold serve. cbn [on_collection serve_data]. by rewrite Hg.
Qed.

(** The loops reach it. *)
Lemma send_all_up id v (send : World -> NodeId -> World * bool) x targets w0 w :
  NoDup targets -> world_ok w -> x ∈ targets -> (forall node, node ∈ targets -> node_of w node = node_of w0 node) ->
  (forall w1 node, world_ok w1 -> node ∈ targets -> node_of w1 node = node_of w0 node -> let '(w2, ok) := send w1 node in wrote id v w1 w2 node ok) ->
  (forall w1, world_ok w1 -> node_of w1 x = node_of w0 x -> (send w1 x).2 = true) -> (send_all send w targets).2 = true.
Proof.
  revert w. induction targets as [|y targets IH]; intros w Hnd Hw Hx Hsame Hsend Hup; [set_solver|].
  apply NoDup_cons in Hnd as [Hy Hnd]. cbn [send_all].
  pose proof (Hsend w y Hw ltac:(set_solver) ltac:(apply Hsame; set_solver)) as H1.
  destruct (decide (y = x)) as [->|Hne].
  { specialize (Hup w Hw (Hsame x Hx)). destruct (send w x) as [w1 ok]. simpl in Hup. subst ok. by destruct (send_all send w1 targets). }
  destruct (send w y) as [w1 ok]. destruct H1 as [Hc1 Hw1 He1 _ _].
  assert (Hr : (send_all send (if ok then w1 else mark_stale w1 y) targets).2 = true).
  { apply IH; [done|by destruct ok; [|apply world_ok_with_cluster]|set_solver| |intros; apply Hsend; set_solver|done].
    intros node Hin. transitivity (node_of w1 node); [by destruct ok|]. rewrite He1 by (intros ->; done). apply Hsame. set_solver. }
  destruct (send_all send _ targets) as [w' acked]. simpl in *. rewrite Hr. apply orb_true_r.
Qed.

Lemma get_loop_up id v x targets w reached :
  world_ok w -> datum_ok id -> up w x -> reads w x id = Some (Ok v) -> from_option zlen 0 v + 3 <= MAX_FRAME_LEN -> x ∈ targets \/ reached = true ->
  exists w' y, get_loop show_id fate clock id w targets reached = (w', Ok y).
Proof.
  revert w reached. induction targets as [|y targets IH]; intros w reached Hw Hid Hup Hr Hl Hx; cbn [get_loop].
  { destruct Hx as [Hx| ->]; [set_solver|]. eauto. }
  pose proof (call_get fate clock w y id Hw Hid) as Hc.
  destruct (decide (y = x)) as [->|Hne].
  - destruct (get_up w x id v Hw Hup Hid Hr Hl) as (w1 & E). rewrite E in Hc |- *. destruct Hc as (Hs1 & Hn1 & _).
    destruct v as [c|]; [eauto|]. apply (IH w1); [apply Hs1|done|by apply (up_node w)| |done|by right].
    unfold reads. by rewrite Hn1.
  - destruct (try_call fate clock w y (StoreRequest.Get id)) as [w1 r]. destruct Hc as (Hs1 & Hn1 & _).
    assert (Hgo : forall reached', (x ∈ y :: targets \/ reached = true -> x ∈ targets \/ reached' = true) ->
      forall w2, world_ok w2 -> (forall n, node_of w2 n = node_of w1 n) ->
      exists w' z, get_loop show_id fate clock id w2 targets reached' = (w', Ok z)).
    { intros reached' Hre w2 Hw2 Hn2. apply (IH w2); [done|done|apply (up_node w); [by rewrite Hn2|done]| |done|auto]. unfold reads. by rewrite Hn2, Hn1. }
    assert (Hbad : exists w' z, get_loop show_id fate clock id (mark_stale w1 y) targets reached = (w', Ok z)).
    { apply Hgo; [set_solver|apply world_ok_with_cluster; [apply Hs1|done]|done]. }
    destruct r as [[| |[c|]| | | | | | | |]| |]; try exact Hbad; [eauto|]. apply Hgo; [by right|apply Hs1|done].
Qed.

(** C19: one replica is enough. When the network delivers and a replica that serves the
    datum listens and is in touch with the cluster, a call whose request and reply fit
    a frame returns, with the result the map gives - whichever of the other replicas
    have gone. *)
Theorem survivors_keep_serving m w o node :
  agrees factor m w -> store_op_ok factor m o -> serving factor w (op_datum o) node -> up w node ->
  match o with
  | StoreGet id => from_option zlen 0 (m !! id) + 3 <= MAX_FRAME_LEN
  | StorePut _ content _ => zlen content + 20 <= MAX_FRAME_LEN
  | StoreDelete _ => True
  end ->
  exists w', store_exec show_id fate clock factor o w = (w', Ok (store_spec m o).2).
Proof.
  intros HA Hok (targets & E & Hin) Hup Hl. pose proof (ag_world _ _ _ HA) as Hw. pose proof Hok as (Hid & Hn & Hop).
  pose proof (serving_replicas_ok (w_cluster w) (op_datum o) (factor (op_datum o)) (ag_ring _ _ _ HA)) as (l & E' & Hnd).
  rewrite E in E'. injection E' as <-.
  assert (Hreads : exists sn, node_of w node = Some sn /\ reads w node (op_datum o) = Some (Ok (m !! op_datum o))).
  { destruct Hup as (sn & Hsn & _). exists sn. split; [done|]. unfold reads. rewrite Hsn. simpl. f_equal.
    apply (ag_value _ _ _ HA (op_datum o) node); [by exists targets|]. unfold reads. by rewrite Hsn. }
  destruct Hreads as (sn & Hsn & Hreads).
  assert (Hwrite : forall send, (send_all send w targets).2 = true ->
    exists w', (replicated_write show_id (op_datum o) (factor (op_datum o)) send ≫= λ _, mret (None : option bytes)) w = (w', Ok None)).
  { intros send Hs. unfold mbind, io_bind, replicated_write. rewrite E. destruct targets as [|t targets]; [set_solver|].
    destruct (send_all send w (t :: targets)) as [w' acked]. simpl in Hs. rewrite Hs. by eexists. }
  destruct o as [id|id content previous|id]; cbn [op_datum store_spec snd] in *.
  - destruct (get_loop_up id (m !! id) node targets w false Hw Hid Hup Hreads Hl (or_introl Hin)) as (w' & y & EG).
    pose proof (get_replicated_spec show_id fate clock factor m w id HA Hid) as HG. cbn [store_exec]. unfold get_replicated in *. rewrite E in *.
    destruct targets as [|t targets]; [set_solver|]. rewrite EG in *. destruct HG as [_ ->]. by eexists.
  - destruct (put_exec show_id fate clock factor m w id content previous HA Hok) as (delta & Hdelta & -> & Hone).
    apply Hwrite. destruct Hop as [Hc Hprev]. apply (send_all_up id (Some content) _ node targets w w); [done|done|done|done|..].
    + intros w1 node1 Hw1 Hnode1 Hsame. apply Hone; [done|]. intros r. unfold reads. rewrite Hsame. apply (ag_value _ _ _ HA). by exists targets.
    + intros w1 Hw1 Hsame. apply (write_up w1 node id content previous); [done|by apply (up_node w)|by split_and!|lia|done|].
      intros p Hp. split; [by apply (ag_fits _ _ _ HA id), Hprev|]. intros r. unfold reads. rewrite Hsame. fold (reads w node id).
      rewrite Hreads. intros [= <-]. by rewrite (Hprev p Hp).
  - cbn [store_exec]. apply Hwrite. apply (send_all_up id None _ node targets w w); [done|done|done|done|..].
    + intros w1 node1 Hw1 _ _. apply call_wrote; [done|by apply serve_delete_as].
    + intros w1 Hw1 Hsame. apply delete_up; [done|by apply (up_node w)|done].
Qed.
End up.

(** *** Two storage nodes *)

Definition demo_node (n : NodeId) : StoreNode := mkNode (fresh_log (replicate 16 (u8 n))) n 0 1000 ∅ ∅ ∅.
Definition demo_cluster : ClusterState :=
  mkCluster (from_members [(9, 1)]) (from_members [(1, 1); (2, 1)]) (<[1 := lit "a"]> {[2 := lit "b"]}) ∅ {[1; 2]} ∅ HaltState_new.
Definition demo_world : World := mkWorld demo_cluster ∅ (<[lit "a" := demo_node 1]> {[lit "b" := demo_node 2]}) 0.

Lemma demo_agrees factor : agrees factor ∅ demo_world.
Proof.
  assert (Hlog : forall a sn, w_nodes demo_world !! a = Some sn -> exists n, sn = demo_node n).
  { intros a sn Ha. cbn [demo_world w_nodes] in Ha. apply lookup_insert_Some in Ha as [[<- <-]|[_ [<- <-]%lookup_singleton_Some]]; eauto. }
  split; [split| | |].
  - intros n1 n2 a Ha Hb. cbn [demo_world demo_cluster w_cluster store_addresses] in Ha, Hb. apply lookup_insert_Some in Ha, Hb.
    destruct Ha as [[<- <-]|[_ [<- <-]%lookup_singleton_Some]]; destruct Hb as [[<- E]|[_ [<- E]%lookup_singleton_Some]]; done.
  - intros n a Ha. cbn [demo_world w_conns] in Ha. by rewrite lookup_empty in Ha.
  - intros a sn Hsn. destruct (Hlog a sn Hsn) as [n ->]. split; [exists []; by apply fresh_inv| |].
    + intros id n' Hn'. unfold n_of in Hn'. simpl in Hn'. by rewrite lookup_empty in Hn'.
    + intros id v Hv. simpl in Hv. rewrite get_absent in Hv; [done|apply lookup_empty].
  - vm_compute. reflexivity.
  - intros id v Hv. by rewrite lookup_empty in Hv.
  - intros id node r _ Hr. unfold reads in Hr. destruct (node_of demo_world node) as [sn|] eqn:E; [|done]. injection Hr as <-.
    unfold node_of in E. destruct (store_addresses _ !! node) as [a|]; [|done]. destruct (Hlog a sn E) as [n ->].
    rewrite lookup_empty. apply get_absent. apply lookup_empty.
Qed.

(** The first reply is lost and the write is sent again. *)
Lemma remote_store_refines_map_witness :
  let fate k := if (k =? 0)%nat then Lost else Delivered in
  let factor _ := 2 in
  exists w', store_exec no_text fate (λ _, 0) factor (StorePut 7 (lit "value") None) demo_world = (w', Ok None) /\
    agrees factor {[7 := lit "value"]} w' /\ w_tick w' = 3%nat.
Proof.
  intros fate factor.
  set (o := StorePut 7 (lit "value") None).
  assert (Hok : store_op_ok factor ∅ o) by (split; [by vm_compute|split; [by vm_compute|split; [by vm_compute|done]]]).
  pose proof (remote_store_refines_map no_text fate (λ _, 0) factor ∅ demo_world o (demo_agrees factor) Hok) as H.
  assert (E : (store_exec no_text fate (λ _, 0) factor o demo_world).2 = Ok None) by (vm_compute; reflexivity).
  assert (T : w_tick (store_exec no_text fate (λ _, 0) factor o demo_world).1 = 3%nat) by (vm_compute; reflexivity).
  revert H E T. generalize (store_exec no_text fate (λ _, 0) factor o demo_world). intros [w' r] H E T. cbn [fst snd] in E, T. subst r.
  destruct H as (HA & _). exists w'. split; [reflexivity|]. split; [exact HA|exact T].
Defined.

(** The first storage node does not listen. *)
Definition demo_survivor : World := mkWorld demo_cluster ∅ {[lit "b" := demo_node 2]} 0.

Lemma demo_survivor_agrees factor : agrees factor ∅ demo_survivor.
Proof.
  destruct (demo_agrees factor) as [[H1 H2 H3] Hring Hfits Hval]. split; [split; [exact H1|exact H2|]|exact Hring|exact Hfits|].
  - intros a sn Ha. apply (H3 a). cbn [demo_survivor demo_world w_nodes] in *. apply lookup_singleton_Some in Ha as [<- <-]. reflexivity.
  - intros id node r Hs Hr. apply (Hval id node r); [exact Hs|]. unfold reads, node_of in *.
    cbn [demo_survivor demo_world w_cluster w_nodes] in *. destruct (store_addresses demo_cluster !! node) as [a|]; [|done].
    change ((λ sn, get (sn_log sn) id) <$> ({[lit "b" := demo_node 2]} : gmap bytes StoreNode) !! a = Some r) in Hr.
    destruct (({[lit "b" := demo_node 2]} : gmap bytes StoreNode) !! a) as [sn|] eqn:E; [|done].
    apply lookup_singleton_Some in E as [<- <-]. exact Hr.
Qed.

Lemma survivors_keep_serving_witness :
  exists w', store_exec no_text (λ _, Delivered) (λ _, 0) (λ _, 2) (StorePut 7 (lit "value") None) demo_survivor = (w', Ok None).
Proof.
  apply (survivors_keep_serving no_text (λ _, Delivered) (λ _, 0) (λ _, 2) ltac:(done) ∅ demo_survivor (StorePut 7 (lit "value") None) 2).
  - apply demo_survivor_agrees.
  - split; [by vm_compute|split; [by vm_compute|split; [by vm_compute|done]]].
  - eexists. split; [vm_compute; reflexivity|]. set_solver.
  - exists (demo_node 2). split; [reflexivity|]. intros k. by vm_compute.
  - by vm_compute.
Defined.

(** ** Where it breaks *)

Section oversized.
Variable show_id : DatumId -> bytes.
Variables (fate : nat -> Fate) (clock : nat -> Z).

Lemma call_oversized w node request : MAX_FRAME_LEN < zlen (encode_store_request request) ->
  exists w' m, try_call fate clock w node request = (w', Err m) /\ w_cluster w' = w_cluster w.
Proof.
  intros Hl.
  assert (Hx : forall w address, exists w' m, exchange fate clock w node address request = (w', Err m) /\ w_cluster w' = w_cluster w).
  { intros w0 address. unfold exchange. rewrite (proj2 (Z.ltb_lt _ _)) by done.
    destruct (w_nodes w0 !! _); [destruct (fate (w_tick w0))|]; by eexists _, _. }
  unfold try_call. destruct (store_addresses (w_cluster w) !! node) as [address|]; [|by eexists _, _].
  destruct (Hx w address) as (w1 & m1 & -> & E1). destruct (Hx w1 address) as (w2 & m2 & -> & E2). eexists _, _. split; [by rsimpl|congruence].
Qed.

Lemma send_all_fails send targets w :
  (forall w node, node ∈ targets -> exists w', send w node = (w', false) /\ w_cluster w' = w_cluster w) ->
  exists w', send_all send w targets = (w', false) /\ storage_ring (w_cluster w') = storage_ring (w_cluster w) /\
    forall node, node ∈ targets \/ node ∈ storage_stale (w_cluster w) -> node ∈ storage_stale (w_cluster w').
Proof.
  revert w. induction targets as [|x targets IH]; intros w Hs; cbn [send_all]; [exists w; set_solver|].
  destruct (Hs w x) as (w1 & -> & E1); [set_solver|]. destruct (IH (mark_stale w1 x)) as (w2 & -> & Hr & Hst); [set_solver|].
  exists w2. split; [done|]. cbn in Hr, Hst. rewrite E1 in Hr, Hst. split; [done|]. intros node Hn. apply Hst. set_solver.
Qed.

(** A value that does not fit a frame fail-stops the cluster. [write_frame] sends it,
    every replica's [read_frame] refuses it and hangs up, the retry ends the same way,
    and the failure is put down to the replica: one put of more than 64 MiB marks every
    replica of the datum stale and engages the halt, though all of them are up. *)
Theorem oversized_value_halts_the_cluster w id content n :
  ring_ok (storage_ring (w_cluster w)) -> MAX_FRAME_LEN < zlen content + 20 ->
  exists w' targets, put_replicated show_id fate clock id content n w = (w', Panic) /\ halted (halt (w_cluster w')) = true /\
    serving_replicas (w_cluster w) id n = Ok targets /\ forall node, node ∈ targets -> node ∈ storage_stale (w_cluster w').
Proof.
  intros Hring Hl. destruct (serving_replicas_ok (w_cluster w) id n Hring) as (targets & E & _).
  unfold put_replicated, write_all. cbn [delta_of]. unfold replicated_write. rewrite E.
  destruct targets as [|x targets]; [eexists _, []; split; [done|]; split; [done|]; split; [done|set_solver]|].
  destruct (send_all_fails (write_one fate clock id content None n) (x :: targets) w) as (w1 & -> & _ & Hst).
  { intros w0 node _. unfold write_one, expect_ack. destruct (call_oversized w0 node (StoreRequest.Put id content n)) as (w' & m & -> & E');
      [rewrite zlen_request_put; lia|]. by exists w'. }
  eexists _, _. split; [done|]. split; [done|]. split; [done|]. intros node Hin. apply Hst. by left.
Qed.
End oversized.

Lemma oversized_value_halts_the_cluster_witness :
  exists w' targets, put_replicated no_text (λ _, Delivered) (λ _, 0) 7 (replicate (Z.to_nat (MAX_FRAME_LEN + 1)) (u8 0)) 2 demo_world = (w', Panic) /\
    halted (halt (w_cluster w')) = true /\ serving_replicas (w_cluster demo_world) 7 2 = Ok targets /\
    forall node, node ∈ targets -> node ∈ storage_stale (w_cluster w').
Proof.
  apply oversized_value_halts_the_cluster; [vm_compute; reflexivity|]. pose proof zlen_repeat_big. lia.
Defined.

(** The cluster state and nodes of [w] as [ClearHalt] leaves them. *)
Definition after_clear_halt (w : World) : World := with_cluster w (handle_clear_halt (w_cluster w)).

(** C39: a comment of [ClusterState] says that a replica that missed writes stays excluded
    until a re-replication re-admits it, so that it can never serve stale data.
    [ClearHalt] re-admits every member of the ring: a put is acknowledged, a second put
    of the datum misses one replica and is acknowledged by the other, and after a
    [ClearHalt] the datum reads as the first value again. *)
Theorem cleared_halt_serves_a_lost_write :
  exists w1 w2 w3,
    let missing k := if (k <? 2)%nat then Delivered else if (k <? 4)%nat then Refused else Delivered in
    put_replicated no_text missing (λ _, 0) 7 (lit "first") 2 demo_world = (w1, Ok ()) /\
    put_replicated no_text missing (λ _, 0) 7 (lit "second") 2 w1 = (w2, Ok ()) /\
    (get_replicated no_text missing (λ _, 0) 7 2 w2).2 = Ok (Some (lit "second")) /\
    get_replicated no_text missing (λ _, 0) 7 2 (after_clear_halt w2) = (w3, Ok (Some (lit "first"))).
Proof. eexists _, _, _. cbn zeta. split; [vm_compute; reflexivity|]. split; [vm_compute; reflexivity|]. split; vm_compute; reflexivity. Qed.

(** C40: the ring of [InstallStorageRing] may name storage nodes that this node does not
    know to be alive, and installing it does not make them so. The first access to a
    datum all of whose new replicas are such nodes - a get, a put, a delete - finds no
    replica to serve it and halts the cluster with a total shard loss, without a call to
    any storage node, though a migration has just put the datum there. *)
Theorem installed_newcomers_halt_the_cluster show_id fate clock w members id n content nodes :
  let w1 := with_cluster w (handle_install_storage_ring (w_cluster w) members).1 in
  replicas (storage_ring (w_cluster w1)) id (Z.to_nat n) = Ok nodes ->
  (forall node, node ∈ nodes -> node ∉ storage_alive (w_cluster w)) ->
  exists w2, get_replicated show_id fate clock id n w1 = (w2, Panic) /\ put_replicated show_id fate clock id content n w1 = (w2, Panic) /\
    delete_replicated show_id fate clock id n w1 = (w2, Panic) /\ halted (halt (w_cluster w2)) = true /\
    w_nodes w2 = w_nodes w /\ w_tick w2 = w_tick w.
Proof.
  intros w1 Hr Hno. assert (serving_replicas (w_cluster w1) id n = Ok []) as Hs.
  { unfold serving_replicas. rewrite Hr. rsimpl. f_equal. assert (Forall (λ node, can_serve (w_cluster w1) node = false) nodes) as HF.
    { apply Forall_forall. intros node Hin. unfold can_serve. by rewrite bool_decide_eq_false_2 by by apply Hno. }
    clear Hr Hno. induction HF as [|x l Hx HF IH]; [done|]. cbn [List.filter]. by rewrite Hx. }
  unfold get_replicated, put_replicated, delete_replicated, write_all, replicated_write, delta_of. rewrite Hs. by eexists.
Qed.

(** A datum of node 1 goes to node 3. *)
Lemma installed_newcomers_halt_the_cluster_witness :
  exists w2, get_replicated no_text (λ _, Delivered) (λ _, 0) 7 2
      (with_cluster demo_world (handle_install_storage_ring demo_cluster [mkStorageMember 3 1 (lit "d") 0]).1) = (w2, Panic) /\
    halted (halt (w_cluster w2)) = true.
Proof.
  destruct (installed_newcomers_halt_the_cluster no_text (λ _, Delivered) (λ _, 0) demo_world [mkStorageMember 3 1 (lit "d") 0] 7 2 (lit "v") [3])
    as (w2 & H1 & _ & _ & H4 & _); [vm_compute; reflexivity| |by exists w2].
  intros node ->%list_elem_of_singleton. vm_compute. intros H. by inversion H.
Defined.

(** The primary was last in touch at 0 and loses touch after a second, the other later. *)
Definition demo_fading : World :=
  mkWorld demo_cluster ∅ (<[lit "a" := mkNode (fresh_log (replicate 16 (u8 1))) 1 0 1000 ∅ ∅ ∅]>
    {[lit "b" := mkNode (fresh_log (replicate 16 (u8 2))) 2 0 9000 ∅ ∅ ∅]}) 0.

(** A comment says that a collection read mirrors the failover of the datum read. It
    does not fail over from a node that answers with an error: with the primary out of
    touch - it answers every request with an error - and the other replica well, a
    datum read marks the primary stale and returns from the other, while a collection
    read panics on the error and leaves the primary serving. *)
Theorem error_reply_is_not_failed_over :
  exists w1 w2 w3 w4,
    let clock k := if (k <? 2)%nat then 0 else 1500 in
    let collections := remote_collections no_text (λ _, Delivered) clock in
    cs_create (CollectionStore := collections) 2 8 8 2 demo_fading = (w1, Ok ()) /\
    cs_count (CollectionStore := collections) 2 2 w1 = (w2, Panic) /\ storage_stale (w_cluster w2) = ∅ /\
    get_replicated no_text (λ _, Delivered) clock 2 2 w1 = (w3, Ok None) /\ serving_replicas (w_cluster w3) 2 2 = Ok [2] /\
    cs_count (CollectionStore := collections) 2 2 w3 = (w4, Ok 0).
Proof.
  eexists _, _, _, _. cbn zeta. split; [vm_compute; reflexivity|]. split; [vm_compute; reflexivity|]. split; [reflexivity|].
  split; [vm_compute; reflexivity|]. split; vm_compute; reflexivity.
Qed.
