(* ===== verification/Migrate.v ===== *)
(** * The migration driver

    Models [crates/seisin-migrate/src/lib.rs]: the plan, which is ring arithmetic, and
    the programs [migrate], [resume] and [recover] over the two calls they make, on a
    compute node and on a storage node. A program is a call on the state of whatever
    answers, so it runs against any network. The loops that page through ids and poll
    a copy take fuel, which the pages and polls to come must not exceed. What is
    printed is not modelled; a hash map is visited in the order of [map_to_list]. *)

From S2P Require Import Prelude Core Codec Ring Protocol Messages Responses StoreWire Names Membership Collections.

(** ** The plan *)

Record Move := mkMove { mv_id : DatumId; mv_source : NodeId; mv_dest : NodeId }.

#[global] Instance Move_eq_dec : EqDecision Move.
Proof. solve_decision. Defined.

(** The moves of one datum: a copy to each new replica that was none. *)
Definition moves_of (old new : Ring) (id : DatumId) (n : Z) : res (list Move) :=
  old_set ← replicas old id (Z.to_nat n);
  match old_set with
  | [] => Ok []
  | source :: _ =>
      new_set ← replicas new id (Z.to_nat n);
      Ok (map (mkMove id source) (base.filter (λ dest, dest ∉ old_set) new_set))
  end.

Fixpoint plan_moves (old new : Ring) (ids : list (DatumId * Z)) : res (list Move) :=
  match ids with
  | [] => Ok []
  | (id, n) :: ids => moves ← moves_of old new id n; rest ← plan_moves old new ids; Ok (moves ++ rest)
  end.

Definition drops_of (old new : Ring) (id : DatumId) (n : Z) : res (list (NodeId * DatumId)) :=
  new_set ← replicas new id (Z.to_nat n);
  old_set ← replicas old id (Z.to_nat n);
  Ok (map (λ node, (node, id)) (base.filter (λ node, node ∉ new_set) old_set)).

Fixpoint plan_drops (old new : Ring) (ids : list (DatumId * Z)) : res (list (NodeId * DatumId)) :=
  match ids with
  | [] => Ok []
  | (id, n) :: ids => drops ← drops_of old new id n; rest ← plan_drops old new ids; Ok (drops ++ rest)
  end.

(** The source moved off a node that does not answer, to an old replica that does. *)
Definition reroute (old : Ring) (id_factors : gmap DatumId Z) (reachable : gset NodeId) (mv : Move) : res (option Move) :=
  if bool_decide (mv_source mv ∈ reachable) then Ok (Some mv) else
  nodes ← replicas old (mv_id mv) (Z.to_nat (default 1 (id_factors !! mv_id mv)));
  Ok ((λ source, mkMove (mv_id mv) source (mv_dest mv)) <$> find (λ node, bool_decide (node ∈ reachable)) nodes).

Fixpoint reroute_all (old : Ring) (id_factors : gmap DatumId Z) (reachable : gset NodeId) (moves : list Move) : res (list Move) :=
  match moves with
  | [] => Ok []
  | mv :: moves =>
      kept ← reroute old id_factors reachable mv; rest ← reroute_all old id_factors reachable moves;
      Ok (match kept with Some mv => mv :: rest | None => rest end)
  end.

(** The ids to move, by source and destination. *)
Definition by_pair (moves : list Move) : gmap (NodeId * NodeId) (list DatumId) :=
  fold_left (λ m mv, <[(mv_source mv, mv_dest mv) := default [] (m !! (mv_source mv, mv_dest mv)) ++ [mv_id mv]]> m) moves ∅.

Definition addr_map (members : list StorageMember) : gmap NodeId bytes :=
  fold_left (λ m x, <[sm_node_id x := sm_store_address x]> m) members ∅.
Definition ring_of (members : list StorageMember) : Ring := from_members (map (λ m, (sm_node_id m, sm_weight m)) members).

Record Report := mkReport { rp_applied : bool; rp_total_moves : Z; rp_per_pair : list (NodeId * NodeId * Z) }.

(** ** The calls *)

Class DriverNet (W : Type) := {
  nt_store : bytes -> StoreRequest.t -> io W StoreResponse.t;
  nt_client : bytes -> Request.t -> io W Response.t;
  nt_fresh : io W DatumId
}.

Section driver.
Context {W : Type} `{!DriverNet W}.

Definition io_fail {A} (msg : string) : io W A := io_lift (Err msg).

(** [match f() { Ok(..) => .., Err(..) => .. }] *)
Definition io_try {A} (m : io W A) : io W (option A) := λ w,
  match m w with
  | (w, Ok x) => (w, Ok (Some x))
  | (w, Err _) => (w, Ok None)
  | (w, Panic) => (w, Panic)
  end.

(** A [for] whose body may fail. *)
Fixpoint each {A} (f : A -> io W ()) (l : list A) : io W () :=
  match l with [] => mret () | x :: l => f x ≫= λ _, each f l end.

Definition get_cluster_config (compute_addr : bytes) : io W (list StorageMember) :=
  response ← nt_client compute_addr Request.GetClusterConfig;
  match response with Response.ClusterConfig members => mret members | _ => io_fail "GetClusterConfig" end.

Definition identify (store_addr : bytes) : io W (NodeId * DatumId) :=
  response ← nt_store store_addr StoreRequest.Identify;
  match response with StoreResponse.Identity node_id log_id => mret (node_id, log_id) | _ => io_fail "Identify" end.

Definition PAGE : Z := 1024.

Fixpoint list_loop (fuel : nat) (store_addr : bytes) (after : option DatumId) (ids : list (DatumId * Z)) : io W (list (DatumId * Z)) :=
  match fuel with
  | O => io_fail "out of fuel"
  | S fuel =>
      response ← nt_store store_addr (StoreRequest.ListIds after PAGE);
      match response with
      | StoreResponse.IdList page done_ =>
          if done_ || bool_decide (page = []) then mret (ids ++ page)
          else list_loop fuel store_addr (fst <$> last page) (ids ++ page)
      | _ => io_fail "ListIds"
      end
  end.

Definition list_all_ids (fuel : nat) (store_addr : bytes) : io W (list (DatumId * Z)) := list_loop fuel store_addr None [].

Definition expect_ack (compute_addr : bytes) (request : Request.t) : io W () :=
  response ← nt_client compute_addr request;
  match response with Response.Ack => mret () | _ => io_fail "expected Ack" end.

Definition expect_store_ack (store_addr : bytes) (request : StoreRequest.t) : io W () :=
  response ← nt_store store_addr request;
  match response with StoreResponse.Ack => mret () | _ => io_fail "expected Ack from storage" end.

(** ** [migrate] *)

(** The proposed members with the log ids they report. *)
Fixpoint resolve (proposed : list StorageMember) : io W (list StorageMember) :=
  match proposed with
  | [] => mret []
  | m :: proposed =>
      '(node_id, log_id) ← identify (sm_store_address m);
      if negb (node_id =? sm_node_id m) then io_fail "proposed node reports another id" else
      rest ← resolve proposed;
      mret (mkStorageMember (sm_node_id m) (sm_weight m) (sm_store_address m) log_id :: rest)
  end.

(** The ids and factors of every source that answers, and those sources. *)
Fixpoint enumerate (fuel : nat) (current : list StorageMember) (found : gmap DatumId Z * gset NodeId) :
    io W (gmap DatumId Z * gset NodeId) :=
  match current with
  | [] => mret found
  | m :: current =>
      page ← io_try (list_all_ids fuel (sm_store_address m));
      enumerate fuel current
        (match page with
         | Some page => (fold_left (λ f e, <[e.1 := e.2]> f) page found.1, {[sm_node_id m]} ∪ found.2)
         | None => found
         end)
  end.

(** The [loop] on [TransferStatus]. *)
Fixpoint poll (fuel : nat) (source_addr : bytes) (transfer_id : DatumId) : io W () :=
  match fuel with
  | O => io_fail "out of fuel"
  | S fuel =>
      response ← nt_store source_addr (StoreRequest.TransferStatus transfer_id);
      match response with
      | StoreResponse.TransferProgress _ _ true => mret ()
      | StoreResponse.TransferProgress _ _ false => poll fuel source_addr transfer_id
      | _ => io_fail "TransferStatus"
      end
  end.

Fixpoint bulk_copy (fuel : nat) (current_addr proposed_addr : gmap NodeId bytes) (pairs : list (NodeId * NodeId * list DatumId)) :
    io W (list (bytes * DatumId)) :=
  match pairs with
  | [] => mret []
  | (source, dest, ids) :: pairs =>
      match current_addr !! source, proposed_addr !! dest with
      | Some source_addr, Some dest_addr =>
          transfer_id ← nt_fresh;
          expect_store_ack source_addr (StoreRequest.Transfer transfer_id ids dest_addr) ≫= λ _,
          poll fuel source_addr transfer_id ≫= λ _,
          rest ← bulk_copy fuel current_addr proposed_addr pairs;
          mret ((source_addr, transfer_id) :: rest)
      | _, _ => io_fail "no address"
      end
  end.

(** The end of a migration, once the copies are made. *)
Definition flip (compute_addrs : list bytes) (resolved : list StorageMember) (transfers : list (bytes * DatumId)) : io W () :=
  each (λ addr, expect_ack addr (Request.Pause (lit "migrating"))) compute_addrs ≫= λ _,
  each (λ t : bytes * DatumId, expect_store_ack t.1 (StoreRequest.FinishTransfer t.2)) transfers ≫= λ _,
  each (λ addr, expect_ack addr (Request.InstallStorageRing resolved)) compute_addrs ≫= λ _,
  each (λ addr, expect_ack addr Request.Resume) compute_addrs.

(** The superseded copies; an answer is not awaited for its sense. *)
Definition reclaim (current_addr : gmap NodeId bytes) (drops : list (NodeId * DatumId)) : io W () :=
  each (λ d : NodeId * DatumId,
    match current_addr !! d.1 with
    | Some addr => _ ← io_try (nt_store addr (StoreRequest.Delete d.2)); mret ()
    | None => mret ()
    end) drops.

Definition migrate (fuel : nat) (compute_addrs : list bytes) (proposed : list StorageMember) (apply : bool) : io W Report :=
  match compute_addrs with
  | [] => io_fail "need at least one compute node address"
  | first :: _ =>
      current ← get_cluster_config first;
      resolved ← resolve proposed;
      let old := ring_of current in
      let new := ring_of resolved in
      '(id_factors, reachable) ← enumerate fuel current (∅, ∅);
      drops ← io_lift (plan_drops old new (map_to_list id_factors));
      planned ← io_lift (plan_moves old new (map_to_list id_factors));
      moves ← io_lift (reroute_all old id_factors reachable planned);
      let pairs := map_to_list (by_pair moves) in
      let report applied := mkReport applied (zlen moves) (map (λ p : NodeId * NodeId * list DatumId, (p.1, zlen p.2)) pairs) in
      if negb apply then mret (report false) else
      transfers ← bulk_copy fuel (addr_map current) (addr_map resolved) pairs;
      flip compute_addrs resolved transfers ≫= λ _,
      reclaim (addr_map current) drops ≫= λ _,
      mret (report true)
  end.

(** ** [resume] and [recover] *)

Definition resume (compute_addrs : list bytes) : io W () :=
  match compute_addrs with
  | [] => io_fail "need at least one compute node address"
  | first :: _ =>
      members ← get_cluster_config first;
      each (λ m, '(node_id, log_id) ← identify (sm_store_address m);
                 if negb (node_id =? sm_node_id m) || negb (log_id =? sm_log_id m) then io_fail "impostor detected" else mret ())
        members ≫= λ _,
      each (λ addr, expect_ack addr Request.ClearHalt) compute_addrs
  end.

Fixpoint survivors (current : list StorageMember) : io W (list StorageMember) :=
  match current with
  | [] => mret []
  | m :: current =>
      answer ← io_try (identify (sm_store_address m));
      rest ← survivors current;
      mret (match answer with Some _ => m :: rest | None => rest end)
  end.

Definition recover (fuel : nat) (compute_addrs : list bytes) (apply : bool) : io W Report :=
  match compute_addrs with
  | [] => io_fail "need at least one compute node address"
  | first :: _ =>
      current ← get_cluster_config first;
      alive ← survivors current;
      if (length current - length alive =? 0)%nat then mret (mkReport false 0 []) else
      migrate fuel compute_addrs alive apply
  end.
(** ** The command line *)

Record ProposedMember := mkProposed { pm_node_id : NodeId; pm_weight : Z; pm_store_address : bytes }.
Record MigrateConfig := mkMigrateConfig { mc_compute_addresses : list bytes; mc_proposed : list ProposedMember }.

Definition usage {A} : option bytes -> (bytes -> io W A) -> io W A := λ path f,
  match path with Some path => f path | None => io_fail "usage" end.

(** [main]: its arguments from the program's name on, and the configuration a path
    loads, which the RON library parses. *)
Definition main (fuel : nat) (load : bytes -> res MigrateConfig) (args : list bytes) : io W () :=
  let apply := bool_decide (lit "--apply" ∈ args) in
  usage (args !! 1%nat) (λ command,
    if bool_decide (command = lit "resume") then
      usage (args !! 2%nat) (λ path, config ← io_lift (load path); resume (mc_compute_addresses config))
    else if bool_decide (command = lit "recover") then
      usage (args !! 2%nat) (λ path,
        config ← io_lift (load path); recover fuel (mc_compute_addresses config) apply ≫= λ _, mret ())
    else
      config ← io_lift (load command);
      let proposed := map (λ m, mkStorageMember (pm_node_id m) (pm_weight m) (pm_store_address m) (from_bytes (replicate 16 (u8 0))))
        (mc_proposed config) in
      migrate fuel (mc_compute_addresses config) proposed apply ≫= λ _, mret ()).
End driver.
