(* ===== verification/MigrateTheorems.v ===== *)
(** * Theorems about the migration driver

    The plan makes exactly the new replica sets; no step of the driver runs before the
    steps that make it safe, whatever the cluster answers; and the enumeration of a
    storage node ends with all its ids. *)

From S2P Require Import Prelude Core Codec Ring Protocol Messages Responses Delta DatumLog StoreWire Names Pages BTree RankedTree TreeKinds StoreNode Transfer Membership Collections Migrate.

(** ** The plan *)

Lemma replicas_total r id n : ring_ok r -> exists l, replicas r id (Z.to_nat n) = Ok l /\ NoDup l.
Proof.
  intros Hr. destruct (decide (slots r = [] \/ Z.to_nat n = 0%nat)) as [H|H].
  - exists []. split; [|constructor]. unfold replicas.
    destruct H; [rewrite (bool_decide_eq_true_2 (slots _ = []))|rewrite (bool_decide_eq_true_2 (Z.to_nat n = _)), orb_true_r]; done.
  - destruct (replicas_set r id (Z.to_nat n) Hr) as (l & _ & _ & E & _ & _ & Hnd & _); [tauto|lia|]. by exists l.
Qed.

Section plan.
Context (old new : Ring).
Hypotheses (Hold : ring_ok old) (Hnew : ring_ok new).

(** The replica sets of a datum under the two rings. *)
Definition sets_of (id : DatumId) (n : Z) (o w : list NodeId) : Prop :=
  replicas old id (Z.to_nat n) = Ok o /\ replicas new id (Z.to_nat n) = Ok w.

Lemma elem_of_plan_moves ids :
  exists moves, plan_moves old new ids = Ok moves /\
    forall mv, mv ∈ moves <-> exists n o w, (mv_id mv, n) ∈ ids /\ sets_of (mv_id mv) n o w /\ head o = Some (mv_source mv) /\
      mv_dest mv ∈ w /\ mv_dest mv ∉ o.
Proof.
  induction ids as [|[id n] ids (moves & E & IH)]; [exists []; split; [done|]; set_solver|].
  destruct (replicas_total old id n Hold) as (o & Eo & _). destruct (replicas_total new id n Hnew) as (w & Ew & _).
  cbn [plan_moves]. unfold moves_of. rewrite Eo. rsimpl. rewrite E.
  assert (Hmine : exists mine, (match o with [] => Ok [] | source :: _ => Ok (map (mkMove id source) (base.filter (λ dest, dest ∉ o) w)) end) = Ok mine /\
    forall mv, mv ∈ mine <-> mv_id mv = id /\ head o = Some (mv_source mv) /\ mv_dest mv ∈ w /\ mv_dest mv ∉ o).
  { destruct o as [|source o']; [exists []; split; [done|]; intros mv; simpl; set_solver|]. eexists. split; [done|]. intros mv.
    rewrite list_elem_of_fmap. split.
    - intros (dest & -> & Hin). apply list_elem_of_filter in Hin as [Hn Hin]. by split_and!.
    - intros (Hi & Hs & Hin & Hn). exists (mv_dest mv). split; [|by apply list_elem_of_filter]. simpl in Hs. injection Hs as ->. subst id. by destruct mv. }
  destruct Hmine as (mine & Em & Hmine). exists (mine ++ moves). split.
  - destruct o as [|source o']; [injection Em as <-; by rsimpl|]. rewrite Ew. rsimpl. by injection Em as <-.
  - intros mv. rewrite elem_of_app, Hmine, IH. setoid_rewrite elem_of_cons. split.
    + intros [(Hi & Hs & Hin & Hn)|(n' & o' & w' & Hin & H)].
      * subst id. exists n, o, w. split; [by left|]. split; [by split|]. by split_and!.
      * exists n', o', w'. split; [by right|exact H].
    + intros (n' & o' & w' & [[= Hi Hn']|Hin] & Hsets & Hrest); [left|right; by exists n', o', w']. subst. destruct Hsets as [H1 H2].
      rewrite Eo in H1. rewrite Ew in H2. injection H1 as <-. injection H2 as <-. by split.
Qed.

Lemma elem_of_plan_drops ids :
  exists drops, plan_drops old new ids = Ok drops /\
    forall d, d ∈ drops <-> exists n o w, (d.2, n) ∈ ids /\ sets_of d.2 n o w /\ d.1 ∈ o /\ d.1 ∉ w.
Proof.
  induction ids as [|[id n] ids (drops & E & IH)]; [exists []; split; [done|]; set_solver|].
  destruct (replicas_total old id n Hold) as (o & Eo & _). destruct (replicas_total new id n Hnew) as (w & Ew & _).
  cbn [plan_drops]. unfold drops_of. rewrite Ew, Eo. rsimpl. rewrite E. rsimpl. eexists. split; [done|].
  intros [node d]. rewrite elem_of_app, IH, list_elem_of_fmap. cbn [fst snd]. setoid_rewrite elem_of_cons. split.
  - intros [(x & [= -> ->] & Hin)|(n' & o' & w' & Hin & H)]; [|exists n', o', w'; split; [by right|exact H]]. apply list_elem_of_filter in Hin as [Hn Hin].
    exists n, o, w. split; [by left|]. by split_and!.
  - intros (n' & o' & w' & [[= -> ->]|Hin] & [H1 H2] & H3 & H4); [left|right; by exists n', o', w'].
    rewrite Eo in H1. rewrite Ew in H2. injection H1 as <-. injection H2 as <-. exists node. split; [done|]. by apply list_elem_of_filter.
Qed.

(** Moving the sources keeps the destinations, and a move is lost only where no old
    replica answers. *)
Lemma elem_of_reroute_all (factors : gmap DatumId Z) reachable moves :
  exists kept, reroute_all old factors reachable moves = Ok kept /\
    (forall mv, mv ∈ kept -> mv_source mv ∈ reachable /\ exists mv0 o, mv0 ∈ moves /\ mv_id mv = mv_id mv0 /\ mv_dest mv = mv_dest mv0 /\
       (mv_source mv = mv_source mv0 \/ replicas old (mv_id mv) (Z.to_nat (default 1 (factors !! mv_id mv))) = Ok o /\ mv_source mv ∈ o)) /\
    forall mv0 o node, mv0 ∈ moves -> replicas old (mv_id mv0) (Z.to_nat (default 1 (factors !! mv_id mv0))) = Ok o ->
      node ∈ o -> node ∈ reachable -> exists source, mkMove (mv_id mv0) source (mv_dest mv0) ∈ kept.
Proof.
  induction moves as [|mv moves (kept & E & IH1 & IH2)]; [exists []; split; [done|]; split; [set_solver|intros; set_solver]|].
  cbn [reroute_all]. unfold reroute. case_bool_decide as Hr; rsimpl.
  - rewrite E. rsimpl. eexists. split; [done|]. split.
    + intros mv' [->|Hin]%elem_of_cons; [|destruct (IH1 mv' Hin) as (? & mv0 & o & ? & ?); split; [done|]; exists mv0, o; set_solver].
      split; [done|]. exists mv, []. split; [set_solver|]. by repeat (split; [done|]); left.
    + intros mv0 o node [->|Hin]%elem_of_cons Ho Hn Hre; [exists (mv_source mv); destruct mv; set_solver|].
      destruct (IH2 mv0 o node Hin Ho Hn Hre) as [source Hs]. exists source. set_solver.
  - destruct (replicas_total old (mv_id mv) (default 1 (factors !! mv_id mv)) Hold) as (o & Eo & _). rewrite Eo. rsimpl. rewrite E. rsimpl.
    destruct (find (λ node, bool_decide (node ∈ reachable)) o) as [source|] eqn:Ef; simpl.
    + apply find_some in Ef as [Hso Hsr%bool_decide_eq_true]. apply list_elem_of_In in Hso. eexists. split; [done|]. split.
      * intros mv' [->|Hin]%elem_of_cons; [|destruct (IH1 mv' Hin) as (? & mv0 & o' & ? & ?); split; [done|]; exists mv0, o'; set_solver].
        split; [done|]. exists mv, o. split; [set_solver|]. simpl. by repeat (split; [done|]); right.
      * intros mv0 o' node [->|Hin]%elem_of_cons Ho Hn Hre; [exists source; set_solver|].
        destruct (IH2 mv0 o' node Hin Ho Hn Hre) as [s' Hs]. exists s'. set_solver.
    + exists kept. split; [done|]. split.
      * intros mv' Hin. destruct (IH1 mv' Hin) as (? & mv0 & o' & ? & ?). split; [done|]. exists mv0, o'. set_solver.
      * intros mv0 o' node [->|Hin]%elem_of_cons Ho Hn Hre; [|by eapply IH2]. rewrite Eo in Ho. injection Ho as <-.
        apply list_elem_of_In in Hn. pose proof (find_none _ _ Ef node Hn) as Hf. simpl in Hf. by apply bool_decide_eq_false in Hf.
Qed.
End plan.

(** The plan turns the old replica sets into the new ones. For every listed datum, the
    new replicas are the old ones and the destinations of its moves, less its drops;
    each move copies from an old replica that answers to a node that is a new replica
    and was none, and a drop is never a new replica, so a datum that some reachable old
    replica holds has a full set of live copies before anything is reclaimed. *)
Theorem migration_plan_is_exact (old new : Ring) (factors : gmap DatumId Z) (reachable : gset NodeId) :
  ring_ok old -> ring_ok new ->
  exists planned moves drops,
    plan_moves old new (map_to_list factors) = Ok planned /\ reroute_all old factors reachable planned = Ok moves /\
    plan_drops old new (map_to_list factors) = Ok drops /\
    (forall id n o w, factors !! id = Some n -> sets_of old new id n o w -> (exists node, node ∈ o /\ node ∈ reachable) ->
       forall node, node ∈ w <-> (node ∈ o \/ exists source, mkMove id source node ∈ moves) /\ (node, id) ∉ drops) /\
    (forall mv, mv ∈ moves -> exists n o w, factors !! mv_id mv = Some n /\ sets_of old new (mv_id mv) n o w /\
       mv_source mv ∈ o /\ mv_source mv ∈ reachable /\ mv_dest mv ∈ w /\ mv_dest mv ∉ o) /\
    (forall node id, (node, id) ∈ drops -> exists n o w, factors !! id = Some n /\ sets_of old new id n o w /\ node ∈ o /\ node ∉ w).
Proof.
  intros Hold Hnew. destruct (elem_of_plan_moves old new Hold Hnew (map_to_list factors)) as (planned & Ep & Hp).
  destruct (elem_of_plan_drops old new Hold Hnew (map_to_list factors)) as (drops & Ed & Hd).
  destruct (elem_of_reroute_all old new Hold Hnew factors reachable planned) as (moves & Em & Hm1 & Hm2).
  assert (Hmoves : forall mv, mv ∈ moves -> exists n o w, factors !! mv_id mv = Some n /\ sets_of old new (mv_id mv) n o w /\
    mv_source mv ∈ o /\ mv_source mv ∈ reachable /\ mv_dest mv ∈ w /\ mv_dest mv ∉ o).
  { intros mv Hin. destruct (Hm1 mv Hin) as (Hr & mv0 & o1 & Hin0 & Hi & Hde & Hsrc). apply Hp in Hin0 as (n & o & w & Hn & [Ho Hw] & Hh & Hw1 & Hw2).
    apply elem_of_map_to_list in Hn. exists n, o, w. rewrite Hi, Hde. split; [done|]. split; [done|]. split; [|by split].
    destruct Hsrc as [->|[E1 Hso]]; [by destruct o; [|injection Hh as ->; left]|].
    rewrite Hi, Hn in E1. simpl in E1. rewrite Ho in E1. by injection E1 as <-. }
  exists planned, moves, drops. split; [done|]. split; [done|]. split; [done|]. split; [|split; [exact Hmoves|]].
  - intros id n o w Hn [Ho Hw] (live & Hlo & Hlr) node. split.
    + intros Hin. split.
      * destruct (decide (node ∈ o)) as [|Hno]; [by left|right]. destruct o as [|source o']; [set_solver|].
        destruct (Hm2 (mkMove id source node) (source :: o') live) as [s' Hs']; simpl; [|by rewrite Hn|done..|by exists s'].
        apply Hp. exists n, (source :: o'), w. simpl. split; [by apply elem_of_map_to_list|]. by split_and!.
      * intros Hdrop. apply Hd in Hdrop as (n' & o' & w' & Hn' & [_ Hw'] & _ & Hnw). simpl in *. apply elem_of_map_to_list in Hn'. congruence.
    + intros [[Hin|[source Hin]] Hnd].
      * destruct (decide (node ∈ w)) as [|Hnw]; [done|]. destruct Hnd. apply Hd. exists n, o, w. split; [by apply elem_of_map_to_list|]. by split_and!.
      * destruct (Hmoves _ Hin) as (n' & o' & w' & Hn' & [_ Hw'] & _ & _ & H1 & _). simpl in *. congruence.
  - intros node id Hin. apply Hd in Hin as (n & o & w & Hn & Hs & H1 & H2). apply elem_of_map_to_list in Hn. by exists n, o, w.
Qed.

Lemma migration_plan_is_exact_witness :
  let old := from_members [(1, 1); (2, 1)] in
  let new := from_members [(1, 1); (2, 1); (3, 1)] in
  exists planned moves drops, plan_moves old new (map_to_list {[7 := 2]}) = Ok planned /\
    reroute_all old {[7 := 2]} {[2]} planned = Ok moves /\ plan_drops old new (map_to_list {[7 := 2]}) = Ok drops.
Proof.
  intros old new. destruct (migration_plan_is_exact old new {[7 := 2]} {[2]}) as (planned & moves & drops & H1 & H2 & H3 & _);
    [vm_compute; reflexivity|vm_compute; reflexivity|].
  exists planned, moves, drops. exact (conj H1 (conj H2 H3)).
Defined.

(** ** The order of the driver's steps *)

(** A call and its answer. *)
Inductive event :=
| StoreCalled (address : bytes) (request : StoreRequest.t) (answer : res StoreResponse.t)
| NodeCalled (address : bytes) (request : Request.t) (answer : res Response.t).

Section trace.
(** Whatever the nodes answer, to what was called before. *)
Context (store_answer : list event -> bytes -> StoreRequest.t -> res StoreResponse.t).
Context (node_answer : list event -> bytes -> Request.t -> res Response.t) (fresh : list event -> DatumId).

#[local] Instance traced : DriverNet (list event) := {
  nt_store a r := λ tr, (tr ++ [StoreCalled a r (store_answer tr a r)], store_answer tr a r);
  nt_client a r := λ tr, (tr ++ [NodeCalled a r (node_answer tr a r)], node_answer tr a r);
  nt_fresh := λ tr, (tr, Ok (fresh tr))
}.

Definition acked (tr : list event) (address : bytes) (request : Request.t) : Prop := NodeCalled address request (Ok Response.Ack) ∈ tr.

Definition installed (tr : list event) (address : bytes) : Prop := exists members, acked tr address (Request.InstallStorageRing members).

(** Every transfer begun is copied; and its tail is sent. *)
Definition copied (tr : list event) : Prop :=
  forall a tid ids dest x, StoreCalled a (StoreRequest.Transfer tid ids dest) x ∈ tr ->
    exists n d, StoreCalled a (StoreRequest.TransferStatus tid) (Ok (StoreResponse.TransferProgress n d true)) ∈ tr.
Definition finished (tr : list event) : Prop :=
  forall a tid ids dest x, StoreCalled a (StoreRequest.Transfer tid ids dest) x ∈ tr ->
    StoreCalled a (StoreRequest.FinishTransfer tid) (Ok StoreResponse.Ack) ∈ tr.

Section migration.
Variable compute_addrs : list bytes.

Definition everywhere (P : list event -> bytes -> Prop) (tr : list event) : Prop := forall addr, addr ∈ compute_addrs -> P tr addr.
Definition paused_all : list event -> Prop := everywhere (λ tr addr, acked tr addr (Request.Pause (lit "migrating"))).

(** What must have been answered before a step is taken. *)
Definition guard (e : event) (tr : list event) : Prop :=
  match e with
  | NodeCalled _ (Request.Pause _) _ => copied tr
  | StoreCalled _ (StoreRequest.FinishTransfer _) _ => copied tr /\ paused_all tr
  | NodeCalled _ (Request.InstallStorageRing _) _ => copied tr /\ paused_all tr /\ finished tr
  | NodeCalled _ Request.Resume _ => everywhere installed tr
  | StoreCalled _ (StoreRequest.Delete _) _ => everywhere installed tr /\ everywhere (λ tr addr, acked tr addr Request.Resume) tr
  | NodeCalled _ Request.ClearHalt _ =>
      exists first members, NodeCalled first Request.GetClusterConfig (Ok (Response.ClusterConfig members)) ∈ tr /\
        forall m, m ∈ members ->
          StoreCalled (sm_store_address m) StoreRequest.Identify (Ok (StoreResponse.Identity (sm_node_id m) (sm_log_id m))) ∈ tr
  | StoreCalled _ (StoreRequest.Put _ _ _ | StoreRequest.Patch _ _ _ | StoreRequest.Retire _) _ => False
  | _ => True
  end.

(** Every step of [new] is guarded by what is before it. *)
Definition guarded_after (tr new : list event) : Prop := forall l e l', new = l ++ e :: l' -> guard e (tr ++ l).

(** From [Pre], the program takes guarded steps, and ends in [Post] when it does. *)
Definition steps {A} (Pre : list event -> Prop) (m : io (list event) A) (Post : A -> list event -> Prop) : Prop :=
  forall tr, Pre tr -> exists new, (m tr).1 = tr ++ new /\ guarded_after tr new /\ forall x, (m tr).2 = Ok x -> Post x (tr ++ new).

Lemma guarded_nil tr : guarded_after tr [].
Proof. intros l e l' E. by destruct l. Qed.

Lemma guarded_app tr l1 l2 : guarded_after tr l1 -> guarded_after (tr ++ l1) l2 -> guarded_after tr (l1 ++ l2).
Proof.
  intros H1 H2 l e l' E. apply app_eq_app in E as (k & [[-> E]|[-> E]]).
  - destruct k as [|e' k]; simpl in E.
    + rewrite app_nil_r in *. specialize (H2 [] e l' (eq_sym E)). by rewrite app_nil_r in H2.
    + injection E as -> ->. by eapply H1.
  - rewrite app_assoc. by eapply H2.
Qed.

Lemma steps_ret {A} (Pre : list event -> Prop) (x : A) : steps Pre (mret x) (λ y tr, y = x /\ Pre tr).
Proof. intros tr H. exists []. rewrite app_nil_r. split; [done|]. split; [apply guarded_nil|]. by intros y [= <-]. Qed.

Lemma steps_fail {A} (Pre : list event -> Prop) msg (Post : A -> list event -> Prop) : steps Pre (io_fail msg) Post.
Proof. intros tr H. exists []. rewrite app_nil_r. split; [done|]. by split; [apply guarded_nil|]. Qed.

Lemma steps_lift {A} (Pre : list event -> Prop) (r : res A) : steps Pre (io_lift r) (λ y tr, r = Ok y /\ Pre tr).
Proof. intros tr H. exists []. rewrite app_nil_r. split; [done|]. split; [apply guarded_nil|]. by intros y E. Qed.

Lemma steps_bind {A B} Pre (m : io (list event) A) (k : A -> io (list event) B) Mid Post :
  steps Pre m Mid -> (forall x, steps (Mid x) (k x) Post) -> steps Pre (m ≫= k) Post.
Proof.
  intros Hm Hk tr HP. destruct (Hm tr HP) as (new & E & Hg & Hpost). unfold mbind, io_bind.
  destruct (m tr) as [tr1 r] eqn:Em. simpl in E, Hpost. subst tr1. destruct r as [x| |].
  - destruct (Hk x _ (Hpost x eq_refl)) as (new' & E' & Hg' & Hpost'). exists (new ++ new'). rewrite app_assoc.
    split; [exact E'|]. split; [by apply guarded_app|]. by rewrite <- app_assoc in * .
  - exists new. by split_and!.
  - exists new. by split_and!.
Qed.

Lemma steps_weaken {A} (Pre Pre' : list event -> Prop) (m : io (list event) A) (Post Post' : A -> list event -> Prop) :
  steps Pre m Post -> (forall tr, Pre' tr -> Pre tr) -> (forall x tr, Post x tr -> Post' x tr) -> steps Pre' m Post'.
Proof. intros H H1 H2 tr HP. destruct (H tr (H1 tr HP)) as (new & E & Hg & Hp). exists new. split_and!; auto. Qed.

Lemma steps_try {A} Pre (m : io (list event) A) Post :
  steps Pre m Post -> (forall tr, Pre tr -> forall new, (m tr).1 = tr ++ new -> Pre (tr ++ new)) ->
  steps Pre (io_try m) (λ _ tr, Pre tr).
Proof.
  intros H Hstay tr HP. destruct (H tr HP) as (new & E & Hg & Hp). exists new. unfold io_try. specialize (Hstay tr HP new E).
  destruct (m tr) as [tr1 r]. simpl in *. destruct r; simpl; (split; [done|]); (split; [done|]); by intros.
Qed.

(** One call: its guard, and what its answer makes true. *)
Lemma steps_store a r (Pre : list event -> Prop) Post :
  (forall tr x, Pre tr -> guard (StoreCalled a r x) tr /\ forall y, x = Ok y -> Post y (tr ++ [StoreCalled a r x])) ->
  steps Pre (nt_store a r) Post.
Proof.
  intros H tr HP. destruct (H tr (store_answer tr a r) HP) as [Hg Hp]. exists [StoreCalled a r (store_answer tr a r)]. split; [done|]. split.
  - intros l e l' E. destruct l as [|? [|? ?]]; [injection E as <- <-; by rewrite app_nil_r|done..].
  - intros x. apply Hp.
Qed.

Lemma steps_node a r (Pre : list event -> Prop) Post :
  (forall tr x, Pre tr -> guard (NodeCalled a r x) tr /\ forall y, x = Ok y -> Post y (tr ++ [NodeCalled a r x])) ->
  steps Pre (nt_client a r) Post.
Proof.
  intros H tr HP. destruct (H tr (node_answer tr a r) HP) as [Hg Hp]. exists [NodeCalled a r (node_answer tr a r)]. split; [done|]. split.
  - intros l e l' E. destruct l as [|? [|? ?]]; [injection E as <- <-; by rewrite app_nil_r|done..].
  - intros x. apply Hp.
Qed.

(** A [for]: each turn keeps [Inv] and makes [F] of its element, which later turns keep. *)
Lemma steps_each {X} (f : X -> io (list event) ()) l (Inv : list event -> Prop) (F : X -> list event -> Prop) :
  (forall x, x ∈ l -> steps Inv (f x) (λ _ tr, Inv tr /\ F x tr)) ->
  (forall x tr new, F x tr -> F x (tr ++ new)) ->
  steps Inv (each f l) (λ _ tr, Inv tr /\ forall x, x ∈ l -> F x tr).
Proof.
  intros Hf HF.
  assert (forall done_ l', (forall x, x ∈ l' -> x ∈ l) ->
    steps (λ tr, Inv tr /\ forall x, x ∈ done_ -> F x tr) (each f l') (λ _ tr, Inv tr /\ forall x, x ∈ done_ ++ l' -> F x tr)) as H.
  { intros done_ l'. revert done_. induction l' as [|x l' IH]; intros done_ Hl.
    - cbn [each]. eapply steps_weaken; [apply steps_ret|exact (λ tr H, H)|]. intros _ tr [_ [HI Hd]]. by rewrite app_nil_r.
    - cbn [each]. eapply steps_bind with (Mid := λ _ tr, Inv tr /\ forall y, y ∈ done_ ++ [x] -> F y tr).
      + intros tr [HI Hd]. destruct (Hf x (Hl x ltac:(set_solver)) tr HI) as (new & E & Hg & Hp). exists new. split; [done|]. split; [done|].
        intros u Eu. destruct (Hp u Eu) as [HI' HFx]. split; [done|]. intros y [Hy| ->%list_elem_of_singleton]%elem_of_app; [by apply HF, Hd|done].
      + intros _. replace (done_ ++ x :: l') with ((done_ ++ [x]) ++ l') by by rewrite <- app_assoc. apply IH. set_solver. }
  specialize (H [] l ltac:(done)). eapply steps_weaken; [exact H| |].
  - intros tr HI. split; [done|set_solver].
  - intros _ tr [HI HF']. split; [done|]. intros x Hx. by apply HF'.
Qed.

(** *** Programs that only read *)

Definition is_read (e : event) : Prop :=
  match e with
  | StoreCalled _ (StoreRequest.Identify | StoreRequest.ListIds _ _) _ | NodeCalled _ Request.GetClusterConfig _ => True
  | _ => False
  end.

Definition quiet {A} (m : io (list event) A) : Prop := forall tr, exists new, (m tr).1 = tr ++ new /\ Forall is_read new.

Lemma quiet_ret {A} (x : A) : quiet (mret x).
Proof. intros tr. exists []. by rewrite app_nil_r. Qed.
Lemma quiet_lift {A} (r : res A) : quiet (io_lift r).
Proof. intros tr. exists []. by rewrite app_nil_r. Qed.
Lemma quiet_store a r : is_read (StoreCalled a r Panic) -> quiet (nt_store a r).
Proof. intros H tr. eexists. split; [done|]. constructor; [by destruct r|done]. Qed.
Lemma quiet_node a r : is_read (NodeCalled a r Panic) -> quiet (nt_client a r).
Proof. intros H tr. eexists. split; [done|]. constructor; [by destruct r|done]. Qed.

Lemma quiet_bind {A B} (m : io (list event) A) (k : A -> io (list event) B) : quiet m -> (forall x, quiet (k x)) -> quiet (m ≫= k).
Proof.
  intros Hm Hk tr. destruct (Hm tr) as (new & E & HF). unfold mbind, io_bind. destruct (m tr) as [tr1 r]. simpl in E. subst tr1.
  destruct r as [x| |]; [|by exists new..]. destruct (Hk x (tr ++ new)) as (new' & E' & HF'). exists (new ++ new').
  rewrite app_assoc. split; [done|]. by apply Forall_app.
Qed.

Lemma quiet_try {A} (m : io (list event) A) : quiet m -> quiet (io_try m).
Proof. intros Hm tr. destruct (Hm tr) as (new & E & HF). exists new. unfold io_try. by destruct (m tr) as [tr1 []]. Qed.

Lemma quiet_steps {A} (m : io (list event) A) (Inv : list event -> Prop) :
  quiet m -> (forall tr e, is_read e -> Inv tr -> Inv (tr ++ [e])) -> steps Inv m (λ _ tr, Inv tr).
Proof.
  intros Hm Hkeep tr HI. destruct (Hm tr) as (new & E & HF). exists new. split; [done|]. split.
  - intros l e l' ->. apply Forall_app in HF as [_ HF]. apply Forall_inv in HF. by destruct e as [? [] ?|? [] ?].
  - intros _ _. clear E. revert tr HI. induction HF as [|e new He HF IH]; intros tr HI; [by rewrite app_nil_r|].
    rewrite cons_middle, app_assoc. apply IH. by apply Hkeep.
Qed.

Lemma quiet_config a : quiet (get_cluster_config a).
Proof. apply quiet_bind; [by apply quiet_node|]. intros []; (apply quiet_ret || apply quiet_lift). Qed.
Lemma quiet_identify a : quiet (identify a).
Proof. apply quiet_bind; [by apply quiet_store|]. intros []; (apply quiet_ret || apply quiet_lift). Qed.

Lemma quiet_list fuel a after ids : quiet (list_loop fuel a after ids).
Proof.
  revert after ids. induction fuel as [|fuel IH]; intros after ids; [apply quiet_lift|]. cbn [list_loop].
  apply quiet_bind; [by apply quiet_store|]. intros []; try apply quiet_lift. destruct (_ || _); [apply quiet_ret|apply IH].
Qed.

Lemma quiet_resolve proposed : quiet (resolve proposed).
Proof.
  induction proposed as [|m proposed IH]; [apply quiet_ret|]. cbn [resolve]. apply quiet_bind; [apply quiet_identify|]. intros [node_id log_id].
  destruct (negb _); [apply quiet_lift|]. apply quiet_bind; [exact IH|]. intros rest. apply quiet_ret.
Qed.

Lemma quiet_enumerate fuel current found : quiet (enumerate fuel current found).
Proof.
  revert found. induction current as [|m current IH]; intros found; [apply quiet_ret|]. cbn [enumerate].
  apply quiet_bind; [apply quiet_try, quiet_list|]. intros page. apply IH.
Qed.

Lemma quiet_survivors current : quiet (survivors current).
Proof.
  induction current as [|m current IH]; [apply quiet_ret|]. cbn [survivors]. apply quiet_bind; [apply quiet_try, quiet_identify|].
  intros answer. apply quiet_bind; [exact IH|]. intros rest. apply quiet_ret.
Qed.

(** *** The bulk copy *)

(** Every transfer begun is in the list, and all but perhaps one are copied. *)
Definition listed (ts : list (bytes * DatumId)) (tr : list event) : Prop :=
  forall a tid ids dest x, StoreCalled a (StoreRequest.Transfer tid ids dest) x ∈ tr -> (a, tid) ∈ ts.
Definition done_at (tr : list event) (a : bytes) (tid : DatumId) : Prop :=
  exists n d, StoreCalled a (StoreRequest.TransferStatus tid) (Ok (StoreResponse.TransferProgress n d true)) ∈ tr.
Definition copied_but (t : bytes * DatumId) (tr : list event) : Prop :=
  forall a tid ids dest x, StoreCalled a (StoreRequest.Transfer tid ids dest) x ∈ tr -> (a, tid) = t \/ done_at tr a tid.

(** Appending a call that begins no transfer. *)
Definition begins_none (e : event) : Prop := match e with StoreCalled _ (StoreRequest.Transfer _ _ _) _ => False | _ => True end.

Lemma listed_app ts tr e : begins_none e -> listed ts tr -> listed ts (tr ++ [e]).
Proof. intros He H a tid ids dest x [Hin|Hin%list_elem_of_singleton]%elem_of_app; [by eapply H|by subst e]. Qed.
Lemma done_at_app tr l a tid : done_at tr a tid -> done_at (tr ++ l) a tid.
Proof. intros (n & d & H). exists n, d. apply elem_of_app. by left. Qed.
Lemma copied_but_app t tr e : begins_none e -> copied_but t tr -> copied_but t (tr ++ [e]).
Proof.
  intros He H a tid ids dest x [Hin|Hin%list_elem_of_singleton]%elem_of_app; [|by subst e].
  destruct (H a tid ids dest x Hin); [by left|right; by apply done_at_app].
Qed.
Lemma copied_app tr e : begins_none e -> copied tr -> copied (tr ++ [e]).
Proof.
  intros He H a tid ids dest x [Hin|Hin%list_elem_of_singleton]%elem_of_app; [|by subst e].
  by apply (done_at_app tr [e] a tid), (H a tid ids dest x).
Qed.
Lemma finished_app tr e : begins_none e -> finished tr -> finished (tr ++ [e]).
Proof.
  intros He H a tid ids dest x [Hin|Hin%list_elem_of_singleton]%elem_of_app; [|by subst e].
  apply elem_of_app. left. by eapply H.
Qed.
Lemma everywhere_app (P : list event -> bytes -> Prop) tr e :
  (forall addr, P tr addr -> P (tr ++ [e]) addr) -> everywhere P tr -> everywhere P (tr ++ [e]).
Proof. intros HP H addr Hin. by apply HP, H. Qed.
Lemma acked_app tr l a r : acked tr a r -> acked (tr ++ l) a r.
Proof. intros H. apply elem_of_app. by left. Qed.
Lemma installed_app tr l a : installed tr a -> installed (tr ++ l) a.
Proof. intros [m H]. exists m. by apply acked_app. Qed.

Lemma steps_expect_ack a r (Inv : list event -> Prop) :
  (forall tr x, Inv tr -> guard (NodeCalled a r x) tr /\ Inv (tr ++ [NodeCalled a r x])) ->
  steps Inv (expect_ack a r) (λ _ tr, Inv tr /\ acked tr a r).
Proof.
  intros H. eapply steps_bind with (Mid := λ y tr, Inv tr /\ NodeCalled a r (Ok y) ∈ tr).
  - apply steps_node. intros tr x HI. destruct (H tr x HI) as [Hg HI']. split; [done|]. intros y ->. split; [done|]. set_solver.
  - intros y. destruct y; try apply steps_fail. eapply steps_weaken; [apply steps_ret|exact (λ tr H, H)|]. by intros _ tr [_ HH].
Qed.

Lemma steps_expect_store_ack a r (Inv Post : list event -> Prop) :
  (forall tr x, Inv tr -> guard (StoreCalled a r x) tr /\ Post (tr ++ [StoreCalled a r x])) ->
  steps Inv (expect_store_ack a r) (λ _ tr, Post tr /\ StoreCalled a r (Ok StoreResponse.Ack) ∈ tr).
Proof.
  intros H. eapply steps_bind with (Mid := λ y tr, Post tr /\ StoreCalled a r (Ok y) ∈ tr).
  - apply steps_store. intros tr x HI. destruct (H tr x HI) as [Hg HI']. split; [done|]. intros y ->. split; [done|]. set_solver.
  - intros y. destruct y; try apply steps_fail. eapply steps_weaken; [apply steps_ret|exact (λ tr H, H)|]. by intros _ tr [_ HH].
Qed.

Lemma steps_poll fuel a tid (Inv : list event -> Prop) :
  (forall tr e, begins_none e -> Inv tr -> Inv (tr ++ [e])) ->
  steps Inv (poll fuel a tid) (λ _ tr, Inv tr /\ done_at tr a tid).
Proof.
  intros Hkeep. induction fuel as [|fuel IH]; [apply steps_fail|]. cbn [poll].
  eapply steps_bind with (Mid := λ y tr, Inv tr /\ StoreCalled a (StoreRequest.TransferStatus tid) (Ok y) ∈ tr).
  - apply steps_store. intros tr x HI. split; [done|]. intros y ->. split; [by apply Hkeep|]. set_solver.
  - intros y. destruct y; try apply steps_fail. destruct done_.
    + eapply steps_weaken; [apply steps_ret|exact (λ tr H, H)|]. intros _ tr [_ [HI Hin]]. split; [done|]. by eexists _, _.
    + eapply steps_weaken; [exact IH|by intros tr [HI _]|done].
Qed.

Lemma steps_bulk fuel current_addr proposed_addr pairs ts :
  steps (λ tr, copied tr /\ listed ts tr) (bulk_copy fuel current_addr proposed_addr pairs)
    (λ new_ts tr, copied tr /\ listed (ts ++ new_ts) tr).
Proof.
  revert ts. induction pairs as [|[[source dest] ids] pairs IH]; intros ts; cbn [bulk_copy].
  { eapply steps_weaken; [apply steps_ret|exact (λ tr H, H)|]. intros x tr [-> H]. by rewrite app_nil_r. }
  destruct (current_addr !! source) as [sa|]; [|apply steps_fail]. destruct (proposed_addr !! dest) as [da|]; [|apply steps_fail].
  eapply steps_bind with (Mid := λ _ tr, copied tr /\ listed ts tr).
  { intros tr H. exists []. rewrite app_nil_r. split; [done|]. split; [apply guarded_nil|done]. }
  intros tid. eapply steps_bind.
  { apply (steps_expect_store_ack sa _ _ (λ tr, copied_but (sa, tid) tr /\ listed (ts ++ [(sa, tid)]) tr)). intros tr x [Hc Hl]. split; [done|]. split.
    - intros a t i d y [Hin|Hin%list_elem_of_singleton]%elem_of_app; [right; by apply done_at_app, (Hc a t i d y)|left; by injection Hin as -> -> _].
    - intros a t i d y [Hin|Hin%list_elem_of_singleton]%elem_of_app; apply elem_of_app; [left; by eapply Hl|right; injection Hin as -> -> _; set_solver]. }
  intros done1. eapply steps_bind.
  { eapply steps_weaken; [apply (steps_poll fuel sa tid (λ tr, copied_but (sa, tid) tr /\ listed (ts ++ [(sa, tid)]) tr))| |exact (λ x tr H, H)].
    - intros tr e He [H1 H2]. split; [by apply copied_but_app|by apply listed_app].
    - by intros tr [H _]. }
  intros done2. eapply steps_bind.
  { eapply steps_weaken; [apply (IH (ts ++ [(sa, tid)]))| |exact (λ x tr H, H)]. intros tr [[Hc Hl] Hd]. split; [|done].
    intros a t i d y Hin. destruct (Hc a t i d y Hin) as [[= -> ->]|]; done. }
  intros rest. eapply steps_weaken; [apply steps_ret|exact (λ tr H, H)|]. intros result tr [-> [Hc Hl]]. split; [done|]. by rewrite <- app_assoc in Hl.
Qed.

(** *** The flip and the reclaim *)

Definition flipped (tr : list event) : Prop := everywhere installed tr /\ everywhere (λ tr addr, acked tr addr Request.Resume) tr.

Lemma paused_app tr e : paused_all tr -> paused_all (tr ++ [e]).
Proof. apply everywhere_app. intros addr. apply acked_app. Qed.
Lemma everywhere_installed_app tr e : everywhere installed tr -> everywhere installed (tr ++ [e]).
Proof. apply everywhere_app. intros addr. apply installed_app. Qed.

Lemma steps_flip resolved ts :
  steps (λ tr, copied tr /\ listed ts tr) (flip compute_addrs resolved ts) (λ _ tr, flipped tr).
Proof.
  unfold flip. eapply steps_bind.
  { apply (steps_each _ _ _ (λ addr tr, acked tr addr (Request.Pause (lit "migrating")))); [|intros addr tr l; apply acked_app].
    intros addr _. apply steps_expect_ack. intros tr x [Hc Hl]. split; [exact Hc|]. split; [by apply copied_app|by apply listed_app]. }
  intros done_. eapply steps_bind.
  { eapply steps_weaken; [apply (steps_each _ ts (λ tr, copied tr /\ listed ts tr /\ paused_all tr)
      (λ t tr, StoreCalled t.1 (StoreRequest.FinishTransfer t.2) (Ok StoreResponse.Ack) ∈ tr))| |exact (λ x tr H, H)].
    - intros [a tid] _. apply steps_expect_store_ack. intros tr x (Hc & Hl & Hp). split; [by split|].
      split; [by apply copied_app|]. split; [by apply listed_app|by apply paused_app].
    - intros t tr l H. apply elem_of_app. by left.
    - by intros tr [[Hc Hl] Hp]. }
  intros done1. eapply steps_bind.
  { eapply steps_weaken; [apply (steps_each _ compute_addrs (λ tr, copied tr /\ paused_all tr /\ finished tr)
      (λ addr tr, acked tr addr (Request.InstallStorageRing resolved)))| |exact (λ x tr H, H)].
    - intros addr _. apply steps_expect_ack. intros tr x (Hc & Hp & Hf). split; [by split|].
      split; [by apply copied_app|]. split; [by apply paused_app|by apply finished_app].
    - intros addr tr l. apply acked_app.
    - intros tr [(Hc & Hl & Hp) Hf]. split; [done|]. split; [done|]. intros a tid ids dest x Hin. apply (Hf (a, tid)). by eapply Hl. }
  intros done2. eapply steps_weaken; [apply (steps_each _ compute_addrs (everywhere installed) (λ addr tr, acked tr addr Request.Resume))| |].
  - intros addr _. apply steps_expect_ack. intros tr x Hi. split; [exact Hi|by apply everywhere_installed_app].
  - intros addr tr l. apply acked_app.
  - intros tr [_ Hi] addr Hin. exists resolved. by apply Hi.
  - intros u tr [Hi Hr]. by split.
Qed.

Lemma steps_reclaim current_addr drops : steps flipped (reclaim current_addr drops) (λ _ tr, flipped tr).
Proof.
  unfold reclaim. eapply steps_weaken; [apply (steps_each _ drops flipped (λ _ _, True))| |]; [|done|exact (λ tr H, H)|by intros u tr [H _]].
  intros [node id] _. cbn [fst snd]. destruct (current_addr !! node) as [addr|].
  - eapply steps_bind with (Mid := λ _ tr, flipped tr).
    + apply (steps_try flipped _ (λ _ tr, flipped tr)).
      * apply steps_store. intros tr x H. split; [exact H|]. intros y _. destruct H as [H1 H2]. split; [by apply everywhere_installed_app|].
        apply everywhere_app; [|done]. intros a. apply acked_app.
      * intros tr [H1 H2] new E. cbn in E. apply app_inv_head in E. subst new. split; [by apply everywhere_installed_app|].
        apply everywhere_app; [|done]. intros a. apply acked_app.
    + intros x. eapply steps_weaken; [apply steps_ret|exact (λ tr H, H)|]. by intros u tr [_ H].
  - eapply steps_weaken; [apply steps_ret|exact (λ tr H, H)|]. by intros u tr [_ H].
Qed.

(** No transfer has begun. *)
Lemma calm_read tr e : is_read e -> listed [] tr -> listed [] (tr ++ [e]).
Proof. intros He. apply listed_app. by destruct e as [? [] ?|? [] ?]. Qed.

Lemma steps_migrate fuel proposed apply : steps (listed []) (migrate fuel compute_addrs proposed apply) (λ _ _, True).
Proof.
  unfold migrate. destruct compute_addrs as [|first rest] eqn:EA; [apply steps_fail|]. rewrite <- EA in *.
  eapply steps_bind; [apply quiet_steps; [apply quiet_config|apply calm_read]|]. intros current.
  eapply steps_bind; [apply quiet_steps; [apply quiet_resolve|apply calm_read]|]. intros resolved.
  eapply steps_bind; [apply quiet_steps; [apply quiet_enumerate|apply calm_read]|]. intros [id_factors reachable].
  eapply steps_bind; [apply steps_lift|]. intros drops. eapply steps_bind; [apply steps_lift|]. intros planned.
  eapply steps_bind; [apply steps_lift|]. intros moves. destruct (negb apply).
  { eapply steps_weaken; [apply steps_ret|exact (λ tr H, H)|done]. }
  eapply steps_bind.
  { eapply steps_weaken; [apply (steps_bulk _ _ _ _ [])| |exact (λ x tr H, H)]. intros tr (_ & _ & _ & Hl). split; [|done].
    intros a tid ids dest x Hin. apply Hl in Hin. set_solver. }
  intros ts. eapply steps_bind; [apply steps_flip|]. intros ?. eapply steps_bind; [apply steps_reclaim|]. intros ?.
  eapply steps_weaken; [apply steps_ret|exact (λ tr H, H)|done].
Qed.

Lemma quiet_dry_run fuel proposed : quiet (migrate fuel compute_addrs proposed false).
Proof.
  unfold migrate. destruct compute_addrs; [apply quiet_lift|]. cbn [negb].
  apply quiet_bind; [apply quiet_config|]. intros current. apply quiet_bind; [apply quiet_resolve|]. intros resolved.
  apply quiet_bind; [apply quiet_enumerate|]. intros [id_factors reachable]. repeat (apply quiet_bind; [apply quiet_lift|]; intros ?). apply quiet_ret.
Qed.

Lemma steps_recover fuel apply : steps (listed []) (recover fuel compute_addrs apply) (λ _ _, True).
Proof.
  unfold recover. destruct compute_addrs as [|first rest] eqn:EA; [apply steps_fail|]. rewrite <- EA in *.
  eapply steps_bind; [apply quiet_steps; [apply quiet_config|apply calm_read]|]. intros current.
  eapply steps_bind; [apply quiet_steps; [apply quiet_survivors|apply calm_read]|]. intros alive.
  case_match; [eapply steps_weaken; [apply steps_ret|exact (λ tr H, H)|done]|apply steps_migrate].
Qed.

(** *** [resume] *)

Definition verified (first : bytes) (members : list StorageMember) (tr : list event) : Prop :=
  NodeCalled first Request.GetClusterConfig (Ok (Response.ClusterConfig members)) ∈ tr /\
  forall m, m ∈ members -> StoreCalled (sm_store_address m) StoreRequest.Identify (Ok (StoreResponse.Identity (sm_node_id m) (sm_log_id m))) ∈ tr.

Lemma steps_resume : steps (λ _, True) (resume compute_addrs) (λ _ _, True).
Proof.
  unfold resume. destruct compute_addrs as [|first rest] eqn:EA; [apply steps_fail|]. rewrite <- EA in *.
  eapply steps_bind with (Mid := λ members tr, NodeCalled first Request.GetClusterConfig (Ok (Response.ClusterConfig members)) ∈ tr).
  { unfold get_cluster_config. eapply steps_bind with (Mid := λ y tr, NodeCalled first Request.GetClusterConfig (Ok y) ∈ tr).
    - apply steps_node. intros tr x _. split; [done|]. intros y ->. set_solver.
    - intros y. destruct y; try apply steps_fail. eapply steps_weaken; [apply steps_ret|exact (λ tr H, H)|]. by intros m tr [-> H]. }
  intros members. eapply steps_bind with (Mid := λ _ tr, verified first members tr).
  { apply (steps_each _ members (λ tr, NodeCalled first Request.GetClusterConfig (Ok (Response.ClusterConfig members)) ∈ tr)
      (λ m tr, StoreCalled (sm_store_address m) StoreRequest.Identify (Ok (StoreResponse.Identity (sm_node_id m) (sm_log_id m))) ∈ tr)).
    - intros m _. set (cfg := NodeCalled first _ _).
      eapply steps_bind with (Mid := λ y tr, cfg ∈ tr /\ StoreCalled (sm_store_address m) StoreRequest.Identify (Ok (StoreResponse.Identity y.1 y.2)) ∈ tr).
      + unfold identify. eapply steps_bind with (Mid := λ y tr, cfg ∈ tr /\ StoreCalled (sm_store_address m) StoreRequest.Identify (Ok y) ∈ tr).
        * apply steps_store. intros tr x Hin. split; [done|]. intros y ->. set_solver.
        * intros y. destruct y; try apply steps_fail. eapply steps_weaken; [apply steps_ret|exact (λ tr H, H)|]. by intros z tr [-> H].
      + intros [node_id log_id]. cbn [fst snd]. destruct (Z.eqb_spec node_id (sm_node_id m)) as [->|]; [|apply steps_fail].
        destruct (Z.eqb_spec log_id (sm_log_id m)) as [->|]; [|apply steps_fail]. cbn [negb orb].
        eapply steps_weaken; [apply steps_ret|exact (λ tr H, H)|]. by intros u tr [_ H].
    - intros m tr l H. apply elem_of_app. by left. }
  intros done_. eapply steps_weaken; [apply (steps_each _ compute_addrs (verified first members) (λ _ _, True))| |]; [|done|exact (λ tr H, H)|done].
  intros addr _. eapply steps_weaken; [apply steps_expect_ack|exact (λ tr H, H)|by intros u tr [H _]].
  intros tr x [H1 H2]. split; [by exists first, members|]. split; [set_solver|]. intros m Hm. apply elem_of_app. left. by apply H2.
Qed.

(** C16: the driver is safe at every step, whatever the nodes answer and wherever it stops.
    No compute node is paused before every copy is done, no tail is sent before every
    compute node is paused, no ring is installed before every tail has been sent, no
    node is resumed before all have the new ring, and nothing is deleted before all
    have it and are resumed; [resume] clears a halt only after every member of the ring
    has proved its identity. A dry run only reads. *)
Theorem driver_steps_are_guarded fuel proposed apply :
  guarded_after [] (migrate fuel compute_addrs proposed apply []).1 /\
  guarded_after [] (recover fuel compute_addrs apply []).1 /\
  guarded_after [] (resume compute_addrs []).1 /\
  Forall is_read (migrate fuel compute_addrs proposed false []).1.
Proof.
  assert (Hnil : listed [] []) by (intros a tid ids dest x Hin; set_solver).
  split_and!.
  - destruct (steps_migrate fuel proposed apply [] Hnil) as (new & -> & H & _). exact H.
  - destruct (steps_recover fuel apply [] Hnil) as (new & -> & H & _). exact H.
  - destruct (steps_resume [] I) as (new & -> & H & _). exact H.
  - destruct (quiet_dry_run fuel proposed []) as (new & -> & H). exact H.
Qed.
End migration.

Lemma quiet_dry_recover fuel addrs : quiet (recover fuel addrs false).
Proof.
  unfold recover. destruct addrs as [|first rest] eqn:E; [apply quiet_lift|]. rewrite <- E.
  apply quiet_bind; [apply quiet_config|]. intros current. apply quiet_bind; [apply quiet_survivors|]. intros alive.
  case_match; [apply quiet_ret|apply quiet_dry_run].
Qed.

Lemma quiet_usage {A} path (f : bytes -> io (list event) A) : (forall p, quiet (f p)) -> quiet (usage path f).
Proof. intros Hf. destruct path; [apply Hf|apply quiet_lift]. Qed.

(** A command that neither says "--apply" nor resumes the cluster changes nothing. *)
Lemma command_without_apply_only_reads fuel load args :
  lit "--apply" ∉ args -> args !! 1%nat <> Some (lit "resume") -> quiet (main fuel load args).
Proof.
  intros Ha Hr. unfold main. rewrite (bool_decide_eq_false_2 _ Ha). destruct (args !! 1%nat) as [command|]; [|apply quiet_lift].
  cbn [usage]. rewrite bool_decide_eq_false_2 by (by intros ->). case_bool_decide; [apply quiet_usage; intros path|].
  - apply quiet_bind; [apply quiet_lift|]. intros config. apply quiet_bind; [apply quiet_dry_recover|]. intros report. apply quiet_ret.
  - apply quiet_bind; [apply quiet_lift|]. intros config. apply quiet_bind; [apply quiet_dry_run|]. intros report. apply quiet_ret.
Qed.
End trace.

(** ** Enumerating a storage node *)

(** The driver talking to one node, whose requests are served one at a time. *)
#[local] Instance one_node : DriverNet StoreNode := {
  nt_store _ r := λ node,
    let '(node, out, _, _) := serve node r in (node, match out with Reply x => Ok x | Dropped => Err "connection closed" | Crashed => Panic end);
  nt_client _ _ := λ node, (node, Err "not a compute node");
  nt_fresh := λ node, (node, Ok 0)
}.

Lemma ids_after_next l after k a :
  last (take k (ids_after l after)) = Some a -> ids_after l (Some a) = drop k (ids_after l after).
Proof.
  intros Ha. pose proof (ids_after_sorted l after) as Hs.
  rewrite <- (take_drop k (ids_after l after)) in Hs. apply StronglySorted_app_lt in Hs as [Hst Hlt].
  assert (Hs : StronglySorted Z.lt (drop k (ids_after l after))).
  { pose proof (ids_after_sorted l after) as H. rewrite <- (take_drop k (ids_after l after)) in H. by apply StronglySorted_app_1_r in H. }
  assert (Hin : a ∈ take k (ids_after l after)) by by apply last_Some_elem_of.
  assert (Hbelow : forall x, x ∈ take k (ids_after l after) -> x <= a).
  { intros x Hx. apply last_Some in Ha as [t Ht]. rewrite Ht in Hst, Hx. apply StronglySorted_app_lt in Hst as [_ H].
    apply elem_of_app in Hx as [Hx|Hx%list_elem_of_singleton]; [|lia]. specialize (H x a Hx ltac:(set_solver)). lia. }
  apply ascending_unique; [apply ids_after_sorted|done|]. intros x. rewrite elem_of_ids_after. split.
  - intros [Hx He]. assert (Hx' : x ∈ ids_after l after).
      { apply elem_of_ids_after. split; [|done]. apply (subseteq_take k) in Hin. apply elem_of_ids_after in Hin as [Hain _].
        destruct after as [b|]; [|done]. simpl in *. lia. }
      rewrite <- (take_drop k (ids_after l after)) in Hx'. apply elem_of_app in Hx' as [Hx'|]; [|done]. apply Hbelow in Hx'. simpl in Hx. lia.
  - intros Hx. split; [specialize (Hlt a x Hin Hx); simpl; lia|]. apply (subseteq_drop k) in Hx. by apply elem_of_ids_after in Hx as [_ ?].
Qed.

Section listing.
Context {W : Type} `{!DriverNet W} (addr : bytes) (w : W) (log : DatumLog).
(** A node that answers from the log [log]. *)
Hypothesis Hlist : forall after, nt_store addr (StoreRequest.ListIds after PAGE) w =
  (w, Ok (StoreResponse.IdList (list_ids log after (Z.to_nat PAGE)) (zlen (list_ids log after (Z.to_nat PAGE)) <? PAGE))).

Lemma list_loop_spec fuel after acc :
  (length (ids_after log after) < fuel)%nat ->
  list_loop fuel addr after acc w = (w, Ok (acc ++ map (λ id, (id, default 0 (n_of log id))) (ids_after log after))).
Proof.
  set (pair_of := λ id, (id, default 0 (n_of log id))).
  revert after acc. induction fuel as [|fuel IH]; intros after acc Hf; [lia|]. cbn [list_loop].
  set (ids := ids_after log after) in *. set (page := map pair_of (take 1024 ids)).
  erewrite io_bind_ok by apply Hlist. change (list_ids log after (Z.to_nat PAGE)) with page.
  destruct (Z.ltb_spec (zlen page) PAGE) as [Hlt|Hge]; cbn [orb].
  - unfold page in *. rewrite take_ge; [done|]. revert Hlt. unfold zlen, PAGE. rewrite length_map, length_take. lia.
  - assert (Hlen : (1024 <= length ids)%nat) by (revert Hge; unfold page, zlen, PAGE; rewrite length_map, length_take; lia).
    rewrite bool_decide_eq_false_2 by (intros E; rewrite E in Hge; by vm_compute in Hge).
    assert (exists a, last (take 1024 ids) = Some a) as [a Ha].
    { destruct (last (take 1024 ids)) as [a|] eqn:E; [by exists a|]. apply last_None in E.
      assert (length (take 1024 ids) = 0%nat) as H0 by by rewrite E. rewrite length_take in H0. lia. }
    assert (last page = Some (pair_of a)) as Hp by (unfold page; by rewrite fmap_last, Ha).
    rewrite Hp. change (fst <$> Some (pair_of a)) with (Some a). rewrite IH.
    + rewrite (ids_after_next _ after 1024 a Ha). fold ids. unfold page. by rewrite <- app_assoc, <- map_app, take_drop.
    + rewrite (ids_after_next _ after 1024 a Ha). fold ids. rewrite length_drop. lia.
Qed.

Lemma listing_spec fuel :
  (log_len log < fuel)%nat ->
  exists l, list_all_ids fuel addr w = (w, Ok l) /\ NoDup (map fst l) /\ forall id n, (id, n) ∈ l <-> n_of log id = Some n.
Proof.
  intros Hf. set (ids := ids_after log None).
  assert (Hin : forall id, id ∈ ids <-> is_Some (index_ log !! id)).
  { intros id. unfold ids. rewrite elem_of_ids_after. simpl. tauto. }
  assert (Hlen : length ids = log_len log).
  { unfold log_len. rewrite <- length_map_to_list, <- (length_fmap fst). apply Permutation_length, NoDup_Permutation.
    - apply ascending_NoDup, ids_after_sorted.
    - apply NoDup_fst_map_to_list.
    - intros id. rewrite Hin, list_elem_of_fmap. split.
      + intros [e He]. exists (id, e). by rewrite elem_of_map_to_list.
      + intros ([? e] & -> & He%elem_of_map_to_list). by exists e. }
  eexists. split; [apply list_loop_spec; fold ids; lia|]. cbn [app]. fold ids. split.
  - rewrite map_map. simpl. rewrite map_id. apply ascending_NoDup, ids_after_sorted.
  - intros id n. rewrite list_elem_of_fmap. unfold n_of. split.
    + intros (id' & [= -> ->] & Hid). apply Hin in Hid as [e He]. by rewrite He.
    + intros Hn. destruct (index_ log !! id) as [e|] eqn:He; [|done]. exists id. split; [|apply Hin; by exists e].
      by rewrite He; simpl in *; injection Hn as <-.
Qed.
End listing.

(** The driver's enumeration of a storage node ends, with every datum of its log once,
    each with the factor it was last written with, and nothing else; as many pages as
    the log has data are enough fuel. *)
Theorem enumeration_is_complete (node : StoreNode) (addr : bytes) (fuel : nat) :
  (log_len (sn_log node) < fuel)%nat ->
  exists l, list_all_ids fuel addr node = (node, Ok l) /\ NoDup (map fst l) /\
    forall id n, (id, n) ∈ l <-> n_of (sn_log node) id = Some n.
Proof. by apply (listing_spec addr node (sn_log node)). Qed.

(** A node holding datum 7, with factor 2. *)
Definition seven_node : StoreNode := mkNode demo_log 1 0 1000 ∅ ∅ ∅.

Lemma enumeration_is_complete_witness :
  (log_len (sn_log seven_node) < 2)%nat /\
  exists l, list_all_ids 2 (lit "a") seven_node = (seven_node, Ok l) /\ NoDup (map fst l) /\
    forall id n, (id, n) ∈ l <-> n_of (sn_log seven_node) id = Some n.
Proof.
  assert (log_len (sn_log seven_node) < 2)%nat as H by (vm_compute; lia).
  split; [exact H|exact (enumeration_is_complete seven_node (lit "a") 2 H)].
Defined.
