(* ===== verification/MigrateRun.v ===== *)
(** * A migration of data at rest

    The driver of [Migrate.v] against the modelled nodes: compute nodes that answer
    admin requests as [Server.v] does, storage nodes that serve as [StoreNode.v] does
    and whose copy threads run to their end before the driver asks for their progress.
    When the stored copies agree and no client writes, a migration ends with every new
    replica holding its data and every compute node on the new ring. *)

From S2P Require Import Prelude Core Codec Cache Ring Protocol Messages Responses Delta DatumLog StoreWire Names Indexes OpContext Worker WorkerTheorems Pool Pages BTree RankedTree TreeKinds StoreNode Transfer Membership Sequencer GossipWire Cluster Server Collections Remote Migrate MigrateTheorems.

(** ** The network *)

Abbreviation stores := (gmap bytes StoreNode) (only parsing).

(** The compute and the storage nodes by address, and the next id the driver draws. *)
Record Still := mkStill { q_compute : gmap bytes ClusterState; q_stores : stores; q_ids : Z }.

(** A call of one storage node on another; its failure is ignored. *)
Definition deliver (ss : stores) (call : bytes * StoreRequest.t) : stores := alter (λ sn, node_after (serve sn call.2)) call.1 ss.

(** The copy thread of the node at [addr], turn by turn. *)
Fixpoint copy_run (turns : nat) (addr : bytes) (t : CopyThread) (ss : stores) : stores :=
  match turns with
  | O => alter (λ sn, copy_done sn t) addr ss
  | S turns =>
      match ss !! addr with
      | Some sn =>
          let t := copy_read sn t in
          let ss := match ct_call t with Some r => deliver ss (ct_dest t, r) | None => ss end in
          match ss !! addr with
          | Some sn => copy_run turns addr (copy_next sn t).2 (<[addr := (copy_next sn t).1]> ss)
          | None => ss
          end
      | None => ss
      end
  end.

Definition still_store (addr : bytes) (r : StoreRequest.t) : io Still StoreResponse.t := λ w,
  match q_stores w !! addr with
  | Some sn =>
      let '(sn, out, calls, thread) := serve sn r in
      let ss := fold_left deliver calls (<[addr := sn]> (q_stores w)) in
      let ss := match thread ≫= copy_begin sn with Some t => copy_run (length (ct_left t)) addr t ss | None => ss end in
      (mkStill (q_compute w) ss (q_ids w),
       match out with Reply x => Ok x | Dropped => Err "connection closed" | Crashed => Panic end)
  | None => (w, Err "connection refused")
  end.

Definition still_client (addr : bytes) (request : Request.t) : io Still Response.t := λ w,
  match q_compute w !! addr with
  | Some c =>
      let '(c, out) := handle_request no_text 0 ∅ c request in
      (mkStill (<[addr := c]> (q_compute w)) (q_stores w) (q_ids w),
       match out with Ok (Replied r) => Ok r | _ => Err "connection closed" end)
  | None => (w, Err "connection refused")
  end.

#[export] Instance still_net : DriverNet Still := {
  nt_store := still_store;
  nt_client := still_client;
  nt_fresh := λ w, (mkStill (q_compute w) (q_stores w) (q_ids w + 1), Ok (q_ids w))
}.

(** A [for] whose every turn succeeds. *)
Lemma each_spec {X} (f : X -> io Still ()) l (Inv : Still -> Prop) (F : X -> Still -> Prop) w :
  Inv w ->
  (forall x w, x ∈ l -> Inv w -> exists w', f x w = (w', Ok ()) /\ Inv w' /\ F x w' /\ forall y, F y w -> F y w') ->
  exists w', each f l w = (w', Ok ()) /\ Inv w' /\ (forall x, x ∈ l -> F x w') /\ forall y, F y w -> F y w'.
Proof.
  revert w. induction l as [|x l IH]; intros w HI Hf.
  { exists w. split; [done|]. split; [done|]. split; [set_solver|done]. }
  destruct (Hf x w ltac:(left) HI) as (w1 & E1 & HI1 & HF1 & Hk1). cbn [each]. rewrite (io_bind_ok _ _ _ _ _ E1).
  destruct (IH w1 HI1) as (w2 & E2 & HI2 & HF2 & Hk2); [intros y v Hy; apply Hf; by right|]. exists w2. split; [done|]. split; [done|]. split; [|auto].
  intros y [->|Hy]%elem_of_cons; auto.
Qed.

(** ** What the copies hold *)

Section rest.
(** The value and the factor of each datum. *)
Variable data : DatumId -> option (bytes * Z).
Hypothesis Hdata : forall id x, data id = Some x -> datum_ok id.
Implicit Types ss : stores.

Definition node_ok (sn : StoreNode) : Prop :=
  log_fits (sn_log sn) /\ forall id x, read_value (sn_log sn) id = Some x -> data id = Some x.

(** No copy disagrees with the data. *)
Definition agree ss : Prop := forall a sn, ss !! a = Some sn -> node_ok sn.

Definition has ss (a : bytes) (id : DatumId) : Prop := exists sn, ss !! a = Some sn /\ is_Some (read_value (sn_log sn) id).

(** A transfer that can be finished: its node still holds what it is to re-send. *)
Definition live ss (a : bytes) (tid : DatumId) (done_ : bool) : Prop :=
  exists sn s, ss !! a = Some sn /\ sn_transfers sn !! tid = Some s /\ tf_done s = done_ /\ tf_dirty s ⊆ tf_ids s /\
    forall id, id ∈ tf_ids s -> is_Some (read_value (sn_log sn) id).

(** Nothing is lost from [ss] to [ss'], nor of the transfers in [P]. *)
Record keeps (P : DatumId -> Prop) ss ss' : Prop := {
  ks_agree : agree ss';
  ks_nodes a : is_Some (ss !! a) -> is_Some (ss' !! a);
  ks_has a id : has ss a id -> has ss' a id;
  ks_live a tid b : P tid -> live ss a tid b -> live ss' a tid b }.

Lemma keeps_refl P ss : agree ss -> keeps P ss ss.
Proof. by split. Qed.
Lemma keeps_trans P ss1 ss2 ss3 : keeps P ss1 ss2 -> keeps P ss2 ss3 -> keeps P ss1 ss3.
Proof. intros [A1 A2 A3 A4] [B1 B2 B3 B4]. split; eauto. Qed.
Lemma keeps_weaken (P Q : DatumId -> Prop) ss ss' : (forall tid, Q tid -> P tid) -> keeps P ss ss' -> keeps Q ss ss'.
Proof. intros H [A1 A2 A3 A4]. split; eauto. Qed.

(** One transfer becomes another that has as much to do, or less. *)
Definition transfer_le (s s' : TransferState) : Prop :=
  tf_ids s' = tf_ids s /\ tf_done s' = tf_done s /\ (tf_dirty s ⊆ tf_ids s -> tf_dirty s' ⊆ tf_ids s).

(** One node becomes another that reads at least as much and has the transfers of [P]. *)
Record node_le (P : DatumId -> Prop) (sn sn' : StoreNode) : Prop := {
  nl_ok : node_ok sn';
  nl_reads id : is_Some (read_value (sn_log sn) id) -> is_Some (read_value (sn_log sn') id);
  nl_transfers tid s : P tid -> sn_transfers sn !! tid = Some s -> exists s', sn_transfers sn' !! tid = Some s' /\ transfer_le s s' }.

Lemma transfer_le_refl s : transfer_le s s.
Proof. done. Qed.

Lemma keeps_node P ss a sn sn' : agree ss -> ss !! a = Some sn -> node_le P sn sn' -> keeps P ss (<[a := sn']> ss).
Proof.
  intros HA Ha [H1 H2 H3]. split.
  - intros b x [[-> <-]|[_ ?]]%lookup_insert_Some; [done|by eapply HA].
  - intros b Hb. destruct (decide (b = a)) as [->|Hne]; [by rewrite lookup_insert_eq|by rewrite lookup_insert_ne].
  - intros b id (x & Hb & Hr). destruct (decide (b = a)) as [->|Hne]; [|exists x; by rewrite lookup_insert_ne].
    exists sn'. rewrite lookup_insert_eq. simplify_eq. split; [done|by apply H2].
  - intros b tid d HP (x & s & Hb & Hs & Hd & Hsub & Hr). destruct (decide (b = a)) as [->|Hne].
    + simplify_eq. destruct (H3 tid s HP Hs) as (s' & Hs' & Ei & Ed & Hsub'). exists sn', s'. rewrite lookup_insert_eq, Ei, Ed.
      split; [done|]. split; [done|]. split; [done|]. split; [by apply Hsub'|]. intros id Hid. by apply H2, Hr.
    + exists x, s. by rewrite lookup_insert_ne.
Qed.

Lemma alter_present ss a f sn : ss !! a = Some sn -> alter f a ss = <[a := f sn]> ss.
Proof.
  intros E. apply map_eq. intros b. destruct (decide (b = a)) as [->|]; [by rewrite lookup_alter_eq, lookup_insert_eq, E|].
  by rewrite lookup_alter_ne, lookup_insert_ne.
Qed.

Lemma keeps_alter P ss a f : agree ss -> (forall sn, ss !! a = Some sn -> node_le P sn (f sn)) -> keeps P ss (alter f a ss).
Proof.
  intros HA Hf. destruct (ss !! a) as [sn|] eqn:E.
  - rewrite (alter_present ss a f sn E). eapply keeps_node; [done..|]. by apply Hf.
  - assert (alter f a ss = ss) as ->; [|by apply keeps_refl].
    apply map_eq. intros b. destruct (decide (b = a)) as [->|]; [by rewrite lookup_alter_eq, E|by rewrite lookup_alter_ne].
Qed.

(** *** The steps of a migration on one node *)

(** The transfers change, the log does not. *)
Lemma transfers_le P sn m :
  node_ok sn ->
  (forall tid s, P tid -> sn_transfers sn !! tid = Some s -> exists s', m !! tid = Some s' /\ transfer_le s s') ->
  node_le P sn (with_transfers sn m).
Proof. by split. Qed.

Lemma note_write_le (m : gmap DatumId TransferState) id tid s :
  m !! tid = Some s -> exists s', note_write m id !! tid = Some s' /\ transfer_le s s'.
Proof.
  intros Hs. exists (mark_dirty id s). unfold note_write. rewrite lookup_fmap, Hs. split; [done|]. unfold mark_dirty.
  case_bool_decide; [|done]. split; [done|]. split; [done|]. simpl. set_solver.
Qed.

(** Putting the value a datum has. *)
Lemma put_le P sn id content n :
  node_ok sn -> data id = Some (content, n) -> datum_ok id -> u16_ok n -> zlen content + 19 < 2 ^ 32 ->
  node_le P sn (node_after (serve sn (StoreRequest.Put id content n))) /\
  is_Some (read_value (sn_log (node_after (serve sn (StoreRequest.Put id content n)))) id).
Proof.
  intros [HF HD] Hd Hid Hn Hc. destruct (serve_put sn id content n HF Hid Hn Hc) as (HF' & Hr & Hother). split; [|by rewrite Hr].
  split.
  - split; [done|]. intros id' x. destruct (decide (id' = id)) as [->|Hne]; [rewrite Hr; by intros [= <-]|]. rewrite Hother by done. apply HD.
  - intros id' Hs. destruct (decide (id' = id)) as [->|Hne]; [by rewrite Hr|by rewrite Hother].
  - intros tid s _. apply note_write_le.
Qed.

Lemma bump_le P sn tid : node_ok sn -> node_le P sn (with_transfers sn (bump_copied (sn_transfers sn) tid 1)).
Proof.
  intros Hok. apply transfers_le; [done|]. intros tid' s _ Hs. unfold bump_copied. destruct (decide (tid' = tid)) as [->|Hne].
  - rewrite lookup_alter_eq, Hs. by eexists.
  - rewrite lookup_alter_ne by done. by exists s.
Qed.

Lemma take_dirty_le P sn tid : node_ok sn -> node_le P sn (with_transfers sn (take_dirty (sn_transfers sn) tid).2).
Proof.
  intros Hok. apply transfers_le; [done|]. intros tid' s _ Hs. unfold take_dirty. destruct (sn_transfers sn !! tid) as [s0|] eqn:E0; [|by exists s].
  simpl. destruct (decide (tid' = tid)) as [->|Hne].
  - rewrite lookup_insert_eq. simplify_eq. eexists. split; [done|]. split; [done|]. split; [done|]. simpl. set_solver.
  - rewrite lookup_insert_ne by done. by exists s.
Qed.

(** *** Deliveries and copies *)

(** The put of a datum's own value. *)
Definition own_put (d : bytes) (id : DatumId) (call : bytes * StoreRequest.t) : Prop :=
  exists content n, call = (d, StoreRequest.Put id content n) /\ data id = Some (content, n) /\ u16_ok n /\ zlen content + 19 < 2 ^ 32.

Lemma own_put_of sn d id : node_ok sn -> is_Some (read_value (sn_log sn) id) -> own_put d id (d, resend (sn_log sn) id).
Proof.
  intros [HF HD] [[content n] Hr]. destruct (read_value_ok _ _ _ _ HF Hr) as [Hc Hn]. exists content, n. unfold resend. rewrite Hr.
  split; [done|]. split; [by apply HD|by split].
Qed.

Lemma deliver_own P ss d id call :
  agree ss -> own_put d id call -> keeps P ss (deliver ss call) /\ (is_Some (ss !! d) -> has (deliver ss call) d id).
Proof.
  intros HA (content & n & -> & Hd & Hn & Hc).
  assert (forall dn, ss !! d = Some dn -> node_le P dn (node_after (serve dn (StoreRequest.Put id content n))) /\
    is_Some (read_value (sn_log (node_after (serve dn (StoreRequest.Put id content n)))) id)) as Hput.
  { intros dn Hdn. apply put_le; try done; [by eapply HA|by eapply Hdata]. }
  unfold deliver. cbn [fst snd]. split; [apply keeps_alter; [done|]; intros dn Hdn; by apply Hput|].
  intros [dn Hdn]. eexists. rewrite (alter_present _ _ _ _ Hdn), lookup_insert_eq. split; [done|]. by apply Hput.
Qed.

Lemma deliver_owns P calls ss : agree ss -> Forall (λ call, exists d id, own_put d id call) calls -> keeps P ss (fold_left deliver calls ss).
Proof.
  intros HA HC. revert ss HA. induction HC as [|call calls (d & id & Hc) HC IH]; intros ss HA; [by apply keeps_refl|]. cbn [fold_left].
  destruct (deliver_own P ss d id call HA Hc) as [K _]. eapply keeps_trans; [exact K|]. apply IH. by eapply ks_agree.
Qed.

Lemma copy_run_spec tid d turns : forall a (t : CopyThread) ss,
  turns = length (ct_left t) -> ct_transfer t = tid -> ct_dest t = d -> agree ss -> live ss a tid false -> is_Some (ss !! d) ->
  (forall id, id ∈ ct_left t -> has ss a id) ->
  let ss' := copy_run turns a t ss in
  keeps (λ tid', tid' <> tid) ss ss' /\ live ss' a tid true /\ forall id, id ∈ ct_left t -> has ss' d id.
Proof.
  induction turns as [|turns IH]; intros a t ss Ht Htid Hdest HA HL Hd Hhas ss'.
  - destruct HL as (sn & s & Ha & Hs & _ & Hsub & Hr). subst ss'. cbn [copy_run]. split_and!.
    + apply keeps_alter; [done|]. intros sn' Ha'. simplify_eq. apply transfers_le; [by eapply HA|]. intros tid' s' Hne Hs'.
      unfold mark_done. rewrite lookup_alter_ne by done. by exists s'.
    + eexists _, _. rewrite (alter_present _ _ _ _ Ha), lookup_insert_eq. split; [done|]. unfold copy_done, mark_done. cbn [sn_transfers with_transfers].
      rewrite Htid, lookup_alter_eq, Hs. simpl. by split.
    + intros id Hid. destruct (ct_left t); [set_solver|done].
  - destruct (ct_left t) as [|id rest] eqn:El; [done|]. subst ss'. cbn [copy_run]. injection Ht as Ht.
    destruct HL as (sn & s & Ha & Hs & Hdone & Hsub & Hr). rewrite Ha.
    destruct (Hhas id ltac:(left)) as (sn' & Ha' & [[content n] Hread]). simplify_eq.
    pose proof (own_put_of sn (ct_dest t) id (HA a sn Ha) ltac:(by rewrite Hread)) as Hown. unfold resend in Hown.
    unfold copy_read. rewrite El. rewrite Hread in Hown |- *. cbn [ct_call ct_dest].
    set (ss1 := deliver ss (ct_dest t, StoreRequest.Put id content n)).
    destruct (deliver_own (λ _, True) ss (ct_dest t) id _ HA Hown) as [K1 H1]. fold ss1 in K1, H1. specialize (H1 Hd).
    assert (live ss1 a (ct_transfer t) false) as (sn1 & s1 & Ha1 & Hs1 & Hd1 & Hsub1 & Hr1) by (eapply ks_live; [exact K1|done|by exists sn, s]).
    rewrite Ha1. cbn [copy_next fst snd ct_left ct_transfer tail ct_dest].
    set (ss2 := <[a := _]> ss1).
    assert (keeps (λ _, True) ss1 ss2) as K2.
    { apply (keeps_node _ _ _ sn1); [by eapply ks_agree|done|]. apply bump_le. eapply ks_agree; [exact K1|done]. }
    pose proof (keeps_trans _ _ _ _ K1 K2) as K.
    destruct (IH a (mkCopy (ct_transfer t) (ct_dest t) rest None) ss2) as (K3 & HL3 & H3); [done..| | | | |].
    + by eapply ks_agree.
    + eapply ks_live; [exact K|done|by exists sn, s].
    + by eapply ks_nodes.
    + intros x Hx. eapply ks_has; [exact K|]. apply Hhas. by right.
    + split_and!; [|done|].
      * eapply keeps_trans; [|exact K3]. by eapply keeps_weaken; [|exact K].
      * intros x [->|Hx]%elem_of_cons; [|by apply H3]. eapply ks_has; [exact K3|]. eapply ks_has; [exact K2|done].
Qed.

(** *** The calls of the driver *)

Definition with_stores (w : Still) ss : Still := mkStill (q_compute w) ss (q_ids w).

Lemma transfer_spec w a d tid ids :
  agree (q_stores w) -> is_Some (q_stores w !! a) -> is_Some (q_stores w !! d) -> (forall id, id ∈ ids -> has (q_stores w) a id) ->
  exists ss, still_store a (StoreRequest.Transfer tid ids d) w = (with_stores w ss, Ok StoreResponse.Ack) /\
    keeps (λ tid', tid' <> tid) (q_stores w) ss /\ live ss a tid true /\ forall id, id ∈ ids -> has ss d id.
Proof.
  intros HA [sn Ha] Hd Hhas. unfold still_store. rewrite Ha. cbn [serve serve_data fst snd fold_left].
  set (sn1 := with_transfers sn _). set (ss1 := <[a := sn1]> (q_stores w)).
  assert (sn_transfers sn1 !! tid = Some (mkTransfer (list_to_set ids) d 0 ∅ false)) as Hs by apply lookup_insert_eq.
  assert (keeps (λ tid', tid' <> tid) (q_stores w) ss1) as K1.
  { apply (keeps_node _ _ _ sn); [done..|]. apply transfers_le; [by eapply HA|]. intros tid' s Hne Hs'. unfold tm_start.
    rewrite lookup_insert_ne by done. by exists s. }
  assert (forall id, id ∈ elements (list_to_set ids : gset DatumId) <-> id ∈ ids) as Hel by (intros; by rewrite elem_of_elements, elem_of_list_to_set).
  cbn [mbind option_bind]. unfold copy_begin, tm_dest, tm_ids. rewrite Hs. cbn [fmap option_fmap option_map tf_dest tf_ids]. eexists. split; [done|].
  cbn [ct_left]. destruct (copy_run_spec tid d _ a (mkCopy tid d (elements (list_to_set ids : gset DatumId)) None) ss1 eq_refl eq_refl eq_refl) as (K2 & HL & H2).
  - by eapply ks_agree.
  - exists sn1. eexists. split; [apply lookup_insert_eq|]. split; [exact Hs|]. split; [done|]. split; [done|]. cbn [tf_ids]. intros id Hid%elem_of_list_to_set.
    destruct (Hhas id Hid) as (sn' & Ha' & Hr). by simplify_eq.
  - by eapply ks_nodes.
  - intros id Hid%Hel. eapply ks_has; [exact K1|by apply Hhas].
  - split; [by eapply keeps_trans|]. split; [done|]. intros id Hid. apply H2. by apply Hel.
Qed.

Lemma poll_spec w a tid fuel : live (q_stores w) a tid true -> (0 < fuel)%nat -> poll fuel a tid w = (w, Ok ()).
Proof.
  intros (sn & s & Ha & Hs & Hd & _) Hf. destruct fuel as [|fuel]; [lia|]. cbn [poll]. erewrite io_bind_ok.
  2: { cbn [nt_store still_net]. unfold still_store. rewrite Ha. cbn [serve serve_data on_collection]. unfold tm_status. rewrite Hs.
       cbn [fmap option_fmap option_map fold_left mbind option_bind]. rewrite insert_id by done. reflexivity. }
  rewrite Hd. by destruct w.
Qed.

Lemma finish_spec P w a tid :
  agree (q_stores w) -> live (q_stores w) a tid true ->
  exists ss, still_store a (StoreRequest.FinishTransfer tid) w = (with_stores w ss, Ok StoreResponse.Ack) /\ keeps P (q_stores w) ss.
Proof.
  intros HA (sn & s & Ha & Hs & _ & Hsub & Hr). unfold still_store. rewrite Ha. cbn [serve]. unfold finish_transfer, tm_dest.
  pose proof (take_dirty_le P sn tid (HA a sn Ha)) as Hle. unfold take_dirty in *. rewrite Hs in *.
  cbn [fmap option_fmap option_map mbind option_bind snd] in *. eexists. split; [done|].
  eapply keeps_trans; [by eapply keeps_node|]. apply deliver_owns.
  - eapply ks_agree. by apply (keeps_node P _ _ sn).
  - apply Forall_forall. intros call (id & -> & Hid%elem_of_elements)%list_elem_of_fmap. exists (tf_dest s), id.
    apply own_put_of; [by eapply HA|]. apply Hr. by apply Hsub.
Qed.

(** *** The copies *)

Lemma bulk_spec fuel (current_addr proposed_addr : gmap NodeId bytes) pairs : forall w,
  (0 < fuel)%nat -> agree (q_stores w) ->
  (forall s d ids, (s, d, ids) ∈ pairs -> exists sa da, current_addr !! s = Some sa /\ proposed_addr !! d = Some da /\
     is_Some (q_stores w !! sa) /\ is_Some (q_stores w !! da) /\ forall id, id ∈ ids -> has (q_stores w) sa id) ->
  exists w' ts, bulk_copy fuel current_addr proposed_addr pairs w = (w', Ok ts) /\ q_compute w' = q_compute w /\
    keeps (λ tid, tid < q_ids w) (q_stores w) (q_stores w') /\
    (forall a tid, (a, tid) ∈ ts -> live (q_stores w') a tid true) /\
    forall s d ids da id, (s, d, ids) ∈ pairs -> proposed_addr !! d = Some da -> id ∈ ids -> has (q_stores w') da id.
Proof.
  induction pairs as [|[[s d] ids] pairs IH]; intros w Hf HA Hp.
  { exists w, []. split; [done|]. split; [done|]. split; [by apply keeps_refl|]. split; intros; set_solver. }
  destruct (Hp s d ids ltac:(left)) as (sa & da & Hsa & Hda & Hs1 & Hs2 & Hhas). cbn [bulk_copy]. rewrite Hsa, Hda.
  erewrite io_bind_ok by reflexivity. set (w1 := mkStill (q_compute w) (q_stores w) (q_ids w + 1)).
  destruct (transfer_spec w1 sa da (q_ids w) ids HA Hs1 Hs2 Hhas) as (ss & E & K & HL & Hd). set (w2 := with_stores w1 ss) in *.
  erewrite io_bind_ok by (unfold expect_store_ack; by erewrite io_bind_ok by exact E).
  erewrite io_bind_ok by (by apply poll_spec).
  destruct (IH w2) as (w' & ts & E' & Hc & K' & HL' & Hd'); [done|by eapply ks_agree| |].
  { intros s' d' ids' Hin. destruct (Hp s' d' ids' ltac:(by right)) as (sa' & da' & ? & ? & ? & ? & Hh). exists sa', da'. split_and!; try done.
    - by eapply (ks_nodes _ _ _ K).
    - by eapply (ks_nodes _ _ _ K).
    - intros id Hid. by eapply ks_has, Hh. }
  erewrite io_bind_ok by exact E'. eexists w', _. split; [reflexivity|]. split; [done|]. split_and!.
  - apply (keeps_trans _ _ ss); [eapply keeps_weaken; [|exact K]; cbn; lia|eapply keeps_weaken; [|exact K']; cbn; lia].
  - intros a tid [[= -> ->]|Hin]%elem_of_cons; [|by apply HL']. eapply ks_live; [exact K'|cbn; lia|done].
  - intros s' d' ids' da' id [[= -> -> ->]|Hin]%elem_of_cons Hda' Hid; [|by eapply Hd']. simplify_eq. by eapply ks_has, Hd.
Qed.

(** *** The flip *)

(** Every compute node of [addrs] is in a state of [R]. *)
Definition compute_in (R : ClusterState -> Prop) (addrs : list bytes) (w : Still) : Prop :=
  forall addr, addr ∈ addrs -> exists c, q_compute w !! addr = Some c /\ R c.

Lemma admin_phase request (g : ClusterState -> ClusterState) (R Q : ClusterState -> Prop) addrs w :
  (forall c, handle_admin c request = Some (g c, Response.Ack)) -> (forall c, R c -> R (g c) /\ Q (g c)) ->
  compute_in R addrs w ->
  exists w', each (λ addr, expect_ack addr request) addrs w = (w', Ok ()) /\ q_stores w' = q_stores w /\ compute_in (λ c, R c /\ Q c) addrs w'.
Proof.
  intros Hg HRQ HR.
  destruct (each_spec (λ addr, expect_ack addr request) addrs (λ v, q_stores v = q_stores w /\ compute_in R addrs v)
    (λ addr v, exists c, q_compute v !! addr = Some c /\ R c /\ Q c) w) as (w' & E & [Hs _] & HF & _).
  - done.
  - intros addr v Hin [Hs Hv]. destruct (Hv addr Hin) as (c & Hc & HRc). destruct (HRQ c HRc) as [HR' HQ'].
    exists (mkStill (<[addr := g c]> (q_compute v)) (q_stores v) (q_ids v)). split.
    { unfold expect_ack. erewrite io_bind_ok; cycle 1.
      - cbn [nt_client still_net]. unfold still_client, handle_request. rewrite Hc, Hg. reflexivity.
      - done. }
    split; [split; [done|]|split].
    + intros a Ha. cbn. destruct (decide (a = addr)) as [->|Hne]; [exists (g c); by rewrite lookup_insert_eq|].
      destruct (Hv a Ha) as (ca & Hca & ?). exists ca. by rewrite lookup_insert_ne.
    + exists (g c). cbn. by rewrite lookup_insert_eq.
    + intros a (ca & Hca & HRa & HQa). cbn. destruct (decide (a = addr)) as [->|Hne]; [exists (g c); by rewrite lookup_insert_eq|].
      exists ca. by rewrite lookup_insert_ne.
  - by exists w'.
Qed.

Lemma flip_spec addrs resolved ts w :
  compute_in (λ _, True) addrs w -> agree (q_stores w) -> (forall a tid, (a, tid) ∈ ts -> live (q_stores w) a tid true) ->
  exists w', flip addrs resolved ts w = (w', Ok ()) /\ keeps (λ _, True) (q_stores w) (q_stores w') /\
    compute_in (λ c, storage_ring c = ring_of resolved /\ paused (halt c) = false) addrs w'.
Proof.
  intros HC HA HL. unfold flip.
  destruct (admin_phase (Request.Pause (lit "migrating")) (λ c, with_halt c (pause (halt c) (lit "migrating"))) (λ _, True) (λ _, True) addrs w)
    as (w1 & E1 & Hs1 & HC1); [done..|]. erewrite io_bind_ok by exact E1.
  destruct (each_spec (λ t : bytes * DatumId, expect_store_ack t.1 (StoreRequest.FinishTransfer t.2)) ts
    (λ v, q_compute v = q_compute w1 /\ keeps (λ _, True) (q_stores w) (q_stores v)) (λ _ _, True) w1) as (w2 & E2 & [Hc2 K2] & _).
  { rewrite Hs1. split; [done|by apply keeps_refl]. }
  { intros [a tid] v Hin [Hc K]. cbn [fst snd].
    destruct (finish_spec (λ _, True) v a tid) as (ss & E & K'); [by eapply ks_agree|by eapply ks_live, HL|].
    exists (with_stores v ss). split; [unfold expect_store_ack; by erewrite io_bind_ok by exact E|]. split; [|done]. split; [done|]. by eapply keeps_trans. }
  erewrite io_bind_ok by exact E2.
  destruct (admin_phase (Request.InstallStorageRing resolved) (λ c, (handle_install_storage_ring c resolved).1) (λ _, True)
    (λ c, storage_ring c = ring_of resolved) addrs w2) as (w3 & E3 & Hs3 & HC3); [done..| |].
  { intros addr Hin. rewrite Hc2. destruct (HC1 addr Hin) as (c & ? & _). by exists c. }
  erewrite io_bind_ok by exact E3.
  destruct (admin_phase Request.Resume (λ c, with_halt c (Cluster.resume (halt c))) (λ c, storage_ring c = ring_of resolved)
    (λ c, paused (halt c) = false) addrs w3) as (w4 & E4 & Hs4 & HC4); [done..| |].
  { intros addr Hin. destruct (HC3 addr Hin) as (c & ? & _ & ?). by exists c. }
  exists w4. rewrite Hs4, Hs3. by split_and!.
Qed.
End rest.
