(* ===== verification/MigrateRunTheorems.v ===== *)
(** * A migration moves the data

    Against the nodes at rest of [MigrateRun.v]: what the driver reads before it copies,
    what it deletes at the end, and the migration as a whole. *)

From S2P Require Import Prelude Core Codec Cache Ring Protocol Messages Responses Delta DatumLog StoreWire Names Indexes OpContext Worker WorkerTheorems Pool Pages BTree RankedTree TreeKinds StoreNode Transfer Membership Sequencer GossipWire Cluster Server Collections Remote Migrate MigrateTheorems MigrateRun.

(** ** What the driver reads *)

Lemma identify_spec w a sn : q_stores w !! a = Some sn -> identify a w = (w, Ok (sn_node_id sn, from_bytes (log_id (sn_log sn)))).
Proof.
  intros Ha. unfold identify. erewrite io_bind_ok; cycle 1.
  - cbn [nt_store still_net]. unfold still_store. rewrite Ha. cbn [serve on_collection serve_data fold_left mbind option_bind].
    rewrite insert_id by done. reflexivity.
  - by destruct w.
Qed.

(** What a member is, but for its log id. *)
Definition placed (m : StorageMember) : NodeId * Z * bytes := (sm_node_id m, sm_weight m, sm_store_address m).

Lemma resolve_spec w proposed :
  (forall m, m ∈ proposed -> exists sn, q_stores w !! sm_store_address m = Some sn /\ sn_node_id sn = sm_node_id m) ->
  exists resolved, resolve proposed w = (w, Ok resolved) /\ map placed resolved = map placed proposed.
Proof.
  induction proposed as [|m proposed IH]; intros Hp; [by exists []|]. cbn [resolve].
  destruct (Hp m ltac:(left)) as (sn & Ha & Hid). erewrite io_bind_ok by by apply identify_spec. rewrite Hid, Z.eqb_refl. cbn [negb].
  destruct IH as (rest & E & Hr); [intros m' Hm'; apply Hp; by right|]. erewrite io_bind_ok by exact E. eexists. split; [reflexivity|].
  cbn [map]. by f_equal.
Qed.

Lemma still_listing w a sn fuel :
  q_stores w !! a = Some sn -> (log_len (sn_log sn) < fuel)%nat ->
  exists l, list_all_ids fuel a w = (w, Ok l) /\ forall id n, (id, n) ∈ l <-> n_of (sn_log sn) id = Some n.
Proof.
  intros Ha Hf. destruct (listing_spec a w (sn_log sn)) with (fuel := fuel) as (l & E & _ & Hl); [|done|by exists l].
  intros after. cbn [nt_store still_net]. unfold still_store. rewrite Ha. cbn [serve on_collection serve_data fold_left mbind option_bind].
  rewrite insert_id by done. by destruct w.
Qed.

(** The ids of a page join those found. *)
Lemma lookup_fold_page (page : list (DatumId * Z)) : forall (f : gmap DatumId Z),
  let f' := fold_left (λ f e, <[e.1 := e.2]> f) page f in
  (forall id n, f' !! id = Some n -> f !! id = Some n \/ (id, n) ∈ page) /\
  forall id, is_Some (f !! id) \/ (exists n, (id, n) ∈ page) -> is_Some (f' !! id).
Proof.
  induction page as [|[i k] page IH]; intros f; cbn [fold_left fst snd]; [split; [auto|intros id [H|[n H]]; [done|set_solver]]|].
  destruct (IH (<[i := k]> f)) as [H1 H2]. split.
  - intros id n [H|H]%H1; [|right; by right]. apply lookup_insert_Some in H as [[-> ->]|[_ ?]]; [right; by left|by left].
  - intros id H. apply H2. destruct (decide (id = i)) as [->|Hne]; [left; by rewrite lookup_insert_eq|]. rewrite lookup_insert_ne by done.
    destruct H as [H|[n [[= -> ->]|H]%elem_of_cons]]; [by left|done|right; by exists n].
Qed.

(** The log of a member that answers. *)
Definition log_at (w : Still) (m : StorageMember) (l : DatumLog) : Prop :=
  exists sn, q_stores w !! sm_store_address m = Some sn /\ sn_log sn = l.

Lemma enumerate_spec w fuel current : forall f0 re0,
  (forall m l, m ∈ current -> log_at w m l -> (log_len l < fuel)%nat) ->
  exists f re, enumerate fuel current (f0, re0) w = (w, Ok (f, re)) /\
    (forall n, n ∈ re <-> n ∈ re0 \/ exists m l, m ∈ current /\ sm_node_id m = n /\ log_at w m l) /\
    (forall id n, f !! id = Some n -> f0 !! id = Some n \/ exists m l, m ∈ current /\ log_at w m l /\ n_of l id = Some n) /\
    (forall id, is_Some (f0 !! id) \/ (exists m l, m ∈ current /\ log_at w m l /\ is_Some (n_of l id)) -> is_Some (f !! id)).
Proof.
  induction current as [|m current IH]; intros f0 re0 Hf.
  { exists f0, re0. split; [done|]. split_and!; [intros n; split; [auto|intros [?|(m & l & ? & _)]; set_solver]|auto|].
    intros id [?|(m & l & ? & _)]; [done|set_solver]. }
  cbn [enumerate]. destruct (q_stores w !! sm_store_address m) as [sn|] eqn:Ha.
  - destruct (still_listing w _ sn fuel Ha) as (page & E & Hpage); [apply (Hf m); [left|by exists sn]|].
    erewrite io_bind_ok by (unfold io_try; by rewrite E). cbn beta iota. cbn [fst snd].
    destruct (lookup_fold_page page f0) as [P1 P2]. set (f1 := fold_left _ page f0) in *.
    destruct (IH f1 ({[sm_node_id m]} ∪ re0)) as (f & re & E' & H1 & H2 & H3); [intros m' l Hm'; apply Hf; by right|].
    assert (log_at w m (sn_log sn)) as Hlog by by exists sn.
    assert (forall l, log_at w m l -> l = sn_log sn) as Huniq by (intros l (sn' & ? & <-); by simplify_eq).
    exists f, re. split; [exact E'|]. split_and!.
    + intros n. rewrite H1, elem_of_union, elem_of_singleton. setoid_rewrite elem_of_cons. split.
      * intros [[->|?]|(m' & l & ? & ?)]; [right; exists m, (sn_log sn); auto|by left|right; exists m', l; auto].
      * intros [?|(m' & l & [->|?] & <- & ?)]; [auto|auto|right; by exists m', l].
    + intros id n [[H|H%Hpage]%P1|(m' & l & Hin & H)]%H2; [by left|right; exists m, (sn_log sn); split; [left|done]|].
      right. exists m', l. split; [by right|done].
    + intros id H. apply H3. destruct H as [H|(m' & l & [->|Hin]%elem_of_cons & Hl & [n Hn])].
      * left. apply P2. by left.
      * left. apply P2. right. exists n. apply Hpage. by rewrite <- (Huniq l Hl).
      * right. exists m', l. by split_and!.
  - erewrite io_bind_ok; cycle 1.
    { unfold io_try, list_all_ids. destruct fuel as [|fuel]; [reflexivity|]. cbn [list_loop]. unfold mbind, io_bind. cbn [nt_store still_net].
      unfold still_store. rewrite Ha. reflexivity. }
    assert (forall l, ~ log_at w m l) as Hno by (intros l (sn & ? & _); congruence).
    destruct (IH f0 re0) as (f & re & E' & H1 & H2 & H3); [intros m' l Hm'; apply Hf; by right|].
    exists f, re. split; [exact E'|]. split_and!.
    + intros n. rewrite H1. setoid_rewrite elem_of_cons. split; [naive_solver|].
      intros [?|(m' & l & [->|?] & ? & ?)]; [by left|by destruct (Hno l)|right; by exists m', l].
    + intros id n [H|(m' & l & Hin & H)]%H2; [by left|right; exists m', l; split; [by right|done]].
    + intros id H. apply H3. destruct H as [H|(m' & l & [->|Hin]%elem_of_cons & Hl & Hn)]; [by left|by destruct (Hno l)|right; by exists m', l].
Qed.

(** ** The pairs *)

Lemma elem_of_by_pair moves id s d : id ∈ default [] (by_pair moves !! (s, d)) <-> mkMove id s d ∈ moves.
Proof.
  assert (forall m : gmap (NodeId * NodeId) (list DatumId),
    id ∈ default [] (fold_left (λ m mv, <[(mv_source mv, mv_dest mv) := default [] (m !! (mv_source mv, mv_dest mv)) ++ [mv_id mv]]> m) moves m !! (s, d)) <->
    id ∈ default [] (m !! (s, d)) \/ mkMove id s d ∈ moves) as H.
  { induction moves as [|mv moves IH]; intros m; [set_solver|]. cbn [fold_left]. rewrite IH, elem_of_cons. clear IH.
    destruct (decide ((s, d) = (mv_source mv, mv_dest mv))) as [E|Hne].
    - rewrite <- E, lookup_insert_eq. injection E as -> ->. simpl. rewrite elem_of_app, list_elem_of_singleton.
      assert (id = mv_id mv <-> mkMove id (mv_source mv) (mv_dest mv) = mv) as -> by (destruct mv; simpl; naive_solver). tauto.
    - rewrite lookup_insert_ne by done. assert (mkMove id s d <> mv) by (intros <-; by apply Hne). naive_solver. }
  unfold by_pair. rewrite H, lookup_empty. simpl. set_solver.
Qed.

Lemma by_pair_entry moves s d ids : (s, d, ids) ∈ map_to_list (by_pair moves) -> forall id, id ∈ ids <-> mkMove id s d ∈ moves.
Proof. intros H%elem_of_map_to_list id. by rewrite <- elem_of_by_pair, H. Qed.
Lemma by_pair_has moves mv : mv ∈ moves -> exists ids, (mv_source mv, mv_dest mv, ids) ∈ map_to_list (by_pair moves) /\ mv_id mv ∈ ids.
Proof.
  intros Hin. assert (mv_id mv ∈ default [] (by_pair moves !! (mv_source mv, mv_dest mv))) as H by (apply elem_of_by_pair; by destruct mv).
  destruct (by_pair moves !! _) as [ids|] eqn:E; [|set_solver]. exists ids. split; [by apply elem_of_map_to_list|done].
Qed.

Lemma by_pair_nonempty moves k : by_pair moves !! k <> Some [].
Proof.
  unfold by_pair. assert (forall m : gmap (NodeId * NodeId) (list DatumId), m !! k <> Some [] ->
    fold_left (λ m mv, <[(mv_source mv, mv_dest mv) := default [] (m !! (mv_source mv, mv_dest mv)) ++ [mv_id mv]]> m) moves m !! k <> Some []) as H.
  { induction moves as [|mv moves IH]; intros m Hm; [done|]. cbn [fold_left]. apply IH.
    destruct (decide (k = (mv_source mv, mv_dest mv))) as [->|Hne]; [|by rewrite lookup_insert_ne].
    rewrite lookup_insert_eq. intros [= E]. by apply app_nil in E as [_ E]. }
  apply H. by rewrite lookup_empty.
Qed.

(** ** The addresses *)

Lemma lookup_addr_map members n a : addr_map members !! n = Some a -> exists m, m ∈ members /\ sm_node_id m = n /\ sm_store_address m = a.
Proof.
  unfold addr_map. assert (forall book : gmap NodeId bytes, fold_left (λ b m, <[sm_node_id m := sm_store_address m]> b) members book !! n = Some a ->
    book !! n = Some a \/ exists m, m ∈ members /\ sm_node_id m = n /\ sm_store_address m = a) as H.
  { induction members as [|m members IH]; intros book; [by left|]. intros [[[<- <-]|[_ ?]]%lookup_insert_Some|(m' & ? & ?)]%IH.
    - right. exists m. split; [left|done].
    - by left.
    - right. exists m'. split; [by right|done]. }
  intros [Hn|?]%H; [by rewrite lookup_empty in Hn|done].
Qed.

Lemma addr_map_present members m : m ∈ members -> is_Some (addr_map members !! sm_node_id m).
Proof.
  unfold addr_map. assert (forall book : gmap NodeId bytes, is_Some (book !! sm_node_id m) \/ m ∈ members ->
    is_Some (fold_left (λ b m, <[sm_node_id m := sm_store_address m]> b) members book !! sm_node_id m)) as H.
  { induction members as [|m' members IH]; intros book [H|H]; try done; [by apply elem_of_nil in H|..]; cbn [fold_left]; apply IH.
    - left. destruct (decide (sm_node_id m' = sm_node_id m)) as [->|]; [by rewrite lookup_insert_eq|by rewrite lookup_insert_ne].
    - apply elem_of_cons in H as [->|H]; [left; by rewrite lookup_insert_eq|by right]. }
  intros Hm. apply H. by right.
Qed.

Lemma addr_map_of members m :
  (forall m', m' ∈ members -> sm_node_id m' = sm_node_id m -> sm_store_address m' = sm_store_address m) -> m ∈ members ->
  addr_map members !! sm_node_id m = Some (sm_store_address m).
Proof. intros H Hm. destruct (addr_map_present members m Hm) as [a Ha]. destruct (lookup_addr_map _ _ _ Ha) as (m' & Hm' & Hi & <-). by rewrite Ha, (H m' Hm' Hi). Qed.

(** The log ids do not matter. *)
Lemma placed_same l l' : map placed l = map placed l' -> ring_of l = ring_of l' /\ addr_map l = addr_map l'.
Proof.
  intros E. split.
  - unfold ring_of. f_equal.
    transitivity (map fst (map placed l)); [by rewrite map_map|]. rewrite E. by rewrite map_map.
  - assert (forall ms, addr_map ms = fold_left (λ b (p : NodeId * Z * bytes), <[p.1.1 := p.2]> b) (map placed ms) ∅) as H.
    { intros ms. unfold addr_map. generalize (∅ : gmap NodeId bytes). induction ms as [|m ms IH]; intros b; [done|]. apply IH. }
    by rewrite !H, E.
Qed.

(** ** What the driver deletes *)

(** What the node at an address reads of an id. *)
Definition read_at (ss : gmap bytes StoreNode) (a : bytes) (id : DatumId) : option (bytes * Z) := ss !! a ≫= λ sn, read_value (sn_log sn) id.

Lemma serve_delete node id : log_fits (sn_log node) -> datum_ok id ->
  let node' := node_after (serve node (StoreRequest.Delete id)) in
  log_fits (sn_log node') /\ read_value (sn_log node') id = None /\
  forall id', id' <> id -> read_value (sn_log node') id' = read_value (sn_log node) id'.
Proof. intros HF Hid. destruct (log_exec_reads (sn_log node) (LDelete id) _ HF Hid eq_refl) as (H1 & H2 & H3). by split_and!. Qed.

(** Every log fits. *)
Definition all_fit (ss : gmap bytes StoreNode) : Prop := forall a sn, ss !! a = Some sn -> log_fits (sn_log sn).

Lemma delete_spec w a id :
  all_fit (q_stores w) -> datum_ok id ->
  exists ss x, still_store a (StoreRequest.Delete id) w = (with_stores w ss, x) /\ x <> Panic /\ all_fit ss /\
    forall a' id', read_at ss a' id' = if bool_decide (a' = a /\ id' = id) then None else read_at (q_stores w) a' id'.
Proof.
  intros HF Hid. unfold still_store. destruct (q_stores w !! a) as [sn|] eqn:Ha.
  - destruct (serve_delete sn id (HF a sn Ha) Hid) as (H1 & H2 & H3). cbn [serve on_collection serve_data fold_left mbind option_bind] in *.
    unfold node_after in *. cbn [fst snd] in *. eexists _, _. split; [reflexivity|]. split; [done|]. split.
    + intros a' sn' [[-> <-]|[_ ?]]%lookup_insert_Some; [done|by eapply HF].
    + intros a' id'. unfold read_at. destruct (decide (a' = a)) as [->|Hne].
      * rewrite lookup_insert_eq, Ha. cbn [mbind option_bind]. case_bool_decide as Hd; [by destruct Hd as [_ ->]|]. apply H3. naive_solver.
      * rewrite lookup_insert_ne by done. by rewrite bool_decide_eq_false_2 by naive_solver.
  - eexists (q_stores w), _. split; [by destruct w|]. split; [done|]. split; [done|]. intros a' id'. case_bool_decide as Hd; [|done].
    destruct Hd as [-> ->]. unfold read_at. by rewrite Ha.
Qed.

Lemma reclaim_spec w (book : gmap NodeId bytes) drops :
  all_fit (q_stores w) -> (forall d, d ∈ drops -> datum_ok d.2) ->
  exists w', reclaim book drops w = (w', Ok ()) /\ q_compute w' = q_compute w /\
    (forall a id, (forall n, book !! n = Some a -> (n, id) ∉ drops) -> read_at (q_stores w') a id = read_at (q_stores w) a id) /\
    forall n a id, (n, id) ∈ drops -> book !! n = Some a -> read_at (q_stores w') a id = None.
Proof.
  intros HF Hids. unfold reclaim.
  match goal with |- context [each ?f drops w] =>
    destruct (each_spec f drops
      (λ v, all_fit (q_stores v) /\ q_compute v = q_compute w /\
         forall a id, (forall n, book !! n = Some a -> (n, id) ∉ drops) -> read_at (q_stores v) a id = read_at (q_stores w) a id)
      (λ d v, forall a, book !! d.1 = Some a -> read_at (q_stores v) a d.2 = None) w) as (w' & E & (_ & Hc & Hkeep) & HD & _)
  end.
  - done.
  - intros [n id] v Hin (HF' & Hc & Hkeep). cbn [fst snd]. destruct (book !! n) as [a|] eqn:Ea; [|by exists v].
    destruct (delete_spec v a id HF' (Hids _ Hin)) as (ss & x & E & Hx & HF1 & Hr). exists (with_stores v ss). split.
    { assert (exists o, io_try (nt_store a (StoreRequest.Delete id)) v = (with_stores v ss, Ok o)) as [o Eo].
      { unfold io_try. cbn [nt_store still_net]. rewrite E. destruct x; [by eexists..|done]. }
      by erewrite io_bind_ok by exact Eo. }
    split; [|split].
    + split; [done|]. split; [done|]. intros a' id' Hno. cbn [q_stores with_stores]. rewrite Hr. case_bool_decide as Hd; [|by apply Hkeep].
      destruct Hd as [-> ->]. by destruct (Hno n Ea).
    + intros a' [= <-]. cbn [q_stores with_stores]. rewrite Hr. by rewrite bool_decide_eq_true_2.
    + intros y Hy a' Ha'. cbn [q_stores with_stores]. rewrite Hr. case_bool_decide; [done|by apply Hy].
  - exists w'. split; [done|]. split; [done|]. split; [done|]. intros n a id Hin. by apply (HD (n, id)).
Qed.

(** ** The migration *)

Lemma elem_of_ring_of members n : n ∈ (slots (ring_of members)).*1 -> exists m, m ∈ members /\ sm_node_id m = n.
Proof.
  unfold ring_of. intros H. assert (n ∈ (map (λ m, (sm_node_id m, sm_weight m)) members).*1) as Hin.
  { revert H. generalize (map (λ m, (sm_node_id m, sm_weight m)) members). intros ms. induction ms as [|[k c] ms IH] using rev_ind; [done|].
    rewrite from_members_snoc. unfold apply_join. cbn [slots]. rewrite !fmap_app, !elem_of_app. intros [H|H]; [left; by apply IH|right].
    apply list_elem_of_fmap in H as ([k' t] & -> & H). apply list_elem_of_fmap in H as (t' & [= -> ->] & _). by left. }
  apply list_elem_of_fmap in Hin as ([k c] & -> & Hin). apply list_elem_of_fmap in Hin as (m & [= -> ->] & Hin). by exists m.
Qed.

Lemma replicas_members members id n o : ring_ok (ring_of members) -> replicas (ring_of members) id (Z.to_nat n) = Ok o ->
  forall node, node ∈ o -> exists m, m ∈ members /\ sm_node_id m = node.
Proof.
  intros Hr Ho node Hin. destruct (decide (slots (ring_of members) = [] \/ Z.to_nat n = 0%nat)) as [H|H].
  - unfold replicas in Ho. assert (o = []) as ->; [|by apply elem_of_nil in Hin].
    destruct H; [rewrite (bool_decide_eq_true_2 (slots _ = [])) in Ho by done|
      rewrite (bool_decide_eq_true_2 (Z.to_nat n = _)), orb_true_r in Ho by done]; by injection Ho as <-.
  - destruct (replicas_set (ring_of members) id (Z.to_nat n) Hr) as (l & _ & _ & E & _ & _ & _ & Hs & _); [tauto|lia|].
    rewrite E in Ho. injection Ho as ->. by apply elem_of_ring_of, Hs.
Qed.

(** A cluster at rest: the compute nodes answer, the first with the members [current];
    an address is of one node; the proposed nodes answer with their ids; every copy of
    a datum is of its one value, and is readable; and every old replica that answers
    holds its data, at least one for each. *)
Record settled (data : DatumId -> option (bytes * Z)) (w : Still) (compute_addrs : list bytes) (current proposed : list StorageMember)
    (fuel : nat) : Prop := {
  se_compute : compute_in (λ _, True) compute_addrs w;
  se_current : exists first rest c, compute_addrs = first :: rest /\ q_compute w !! first = Some c /\
    handle_get_cluster_config c = Response.ClusterConfig current;
  se_addresses m m' : m ∈ current ++ proposed -> m' ∈ current ++ proposed ->
    sm_store_address m = sm_store_address m' <-> sm_node_id m = sm_node_id m';
  se_proposed m : m ∈ proposed -> exists sn, q_stores w !! sm_store_address m = Some sn /\ sn_node_id sn = sm_node_id m;
  se_rings : ring_ok (ring_of current) /\ ring_ok (ring_of proposed);
  se_data id x : data id = Some x -> datum_ok id;
  se_agree : agree data (q_stores w);
  se_indexed a sn id n : q_stores w !! a = Some sn -> n_of (sn_log sn) id = Some n -> is_Some (read_value (sn_log sn) id);
  se_held id content n o : data id = Some (content, n) -> replicas (ring_of current) id (Z.to_nat n) = Ok o ->
    (exists m, m ∈ current /\ sm_node_id m ∈ o /\ is_Some (q_stores w !! sm_store_address m)) /\
    forall m, m ∈ current -> sm_node_id m ∈ o -> is_Some (q_stores w !! sm_store_address m) -> has (q_stores w) (sm_store_address m) id;
  se_fuel : (0 < fuel)%nat /\ forall m l, m ∈ current -> log_at w m l -> (log_len l < fuel)%nat }.

Section migration.
Context (data : DatumId -> option (bytes * Z)) (w : Still) (compute_addrs : list bytes) (current proposed : list StorageMember) (fuel : nat).
Hypothesis HS : settled data w compute_addrs current proposed fuel.

Lemma config_spec first c : q_compute w !! first = Some c -> handle_get_cluster_config c = Response.ClusterConfig current ->
  get_cluster_config first w = (w, Ok current).
Proof.
  intros Hc Hcur. unfold get_cluster_config. erewrite io_bind_ok; cycle 1.
  - cbn [nt_client still_net]. unfold still_client. rewrite Hc. unfold handle_request. cbn [handle_admin]. rewrite Hcur.
    rewrite insert_id by done. reflexivity.
  - by destruct w.
Qed.

Lemma read_value_indexed l id x : read_value l id = Some x -> n_of l id = Some x.2.
Proof.
  unfold read_value, get, n_of. destruct (index_ l !! id) as [e|]; [|done]. destruct (read_record_at _ _ _) as [[r|]| |]; [|done..].
  rsimpl. destruct (replay_deltas _ _ _ _); [|done..]. rsimpl. by intros [= <-].
Qed.

(** What the enumeration finds is the data. *)
Lemma enumerate_settled : exists factors reachable,
  enumerate fuel current (∅, ∅) w = (w, Ok (factors, reachable)) /\
  (forall n, n ∈ reachable <-> exists m, m ∈ current /\ sm_node_id m = n /\ is_Some (q_stores w !! sm_store_address m)) /\
  forall id n, factors !! id = Some n <-> exists content, data id = Some (content, n).
Proof.
  destruct (enumerate_spec w fuel current ∅ ∅ (proj2 (se_fuel _ _ _ _ _ _ HS))) as (f & re & E & H1 & H2 & H3).
  exists f, re. split; [exact E|]. split.
  - intros n. rewrite H1. split.
    + intros [?|(m & l & ? & ? & sn & ? & _)]; [set_solver|exists m; eauto].
    + intros (m & ? & ? & sn & ?). right. exists m, (sn_log sn). split; [done|]. split; [done|]. by exists sn.
  - assert (forall id n, f !! id = Some n -> exists content, data id = Some (content, n)) as Hsound.
    { intros id n [Hn|(m & l & Hm & (sn & Ha & <-) & Hn)]%H2; [by rewrite lookup_empty in Hn|].
      destruct (se_indexed _ _ _ _ _ _ HS _ _ _ _ Ha Hn) as [[content n'] Hr]. pose proof (read_value_indexed _ _ _ Hr) as Hn'.
      exists content. destruct (se_agree _ _ _ _ _ _ HS _ _ Ha) as [_ HD]. specialize (HD _ _ Hr). simpl in *. congruence. }
    intros id n. split; [apply Hsound|]. intros [content Hd].
    destruct (replicas_total (ring_of current) id n (proj1 (se_rings _ _ _ _ _ _ HS))) as (o & Ho & _).
    destruct (se_held _ _ _ _ _ _ HS _ _ _ _ Hd Ho) as [(m & Hm & Hmo & Hans) Hhas].
    destruct (Hhas m Hm Hmo Hans) as (sn & Ha & [x Hr]). pose proof (read_value_indexed _ _ _ Hr) as Hn.
    destruct (H3 id) as [n' Hn']; [right; exists m, (sn_log sn); split; [done|]; split; [by exists sn|by rewrite Hn]|].
    destruct (Hsound _ _ Hn') as [content' Hd']. congruence.
Qed.

Lemma address_of l m : (forall x, x ∈ l -> x ∈ current ++ proposed) -> m ∈ l -> addr_map l !! sm_node_id m = Some (sm_store_address m).
Proof. intros Hl Hm. apply addr_map_of; [|done]. intros m' Hm' Hi. apply (se_addresses _ _ _ _ _ _ HS); auto. Qed.
Lemma current_address m : m ∈ current -> addr_map current !! sm_node_id m = Some (sm_store_address m).
Proof. apply address_of. intros x Hx. apply elem_of_app. by left. Qed.
Lemma proposed_address m : m ∈ proposed -> addr_map proposed !! sm_node_id m = Some (sm_store_address m).
Proof. apply address_of. intros x Hx. apply elem_of_app. by right. Qed.

(** A member's address tells it from the others. *)
Lemma address_node m m' : m ∈ current -> m' ∈ proposed -> sm_store_address m = sm_store_address m' -> sm_node_id m = sm_node_id m'.
Proof. intros Hm Hm'. apply (se_addresses _ _ _ _ _ _ HS); apply elem_of_app; auto. Qed.

(** A move goes from a node that holds the datum to one that answers. *)
Lemma move_ends (reachable : gset NodeId) (factors : gmap DatumId Z) mv n o wn :
  (forall n, n ∈ reachable <-> exists m, m ∈ current /\ sm_node_id m = n /\ is_Some (q_stores w !! sm_store_address m)) ->
  (forall id n, factors !! id = Some n <-> exists content, data id = Some (content, n)) ->
  factors !! mv_id mv = Some n -> sets_of (ring_of current) (ring_of proposed) (mv_id mv) n o wn ->
  mv_source mv ∈ o -> mv_source mv ∈ reachable -> mv_dest mv ∈ wn ->
  exists sa da, addr_map current !! mv_source mv = Some sa /\ addr_map proposed !! mv_dest mv = Some da /\
    is_Some (q_stores w !! sa) /\ is_Some (q_stores w !! da) /\ has (q_stores w) sa (mv_id mv).
Proof.
  intros Hreach Hfac Hn [Ho Hw] Hso Hsr Hd. apply Hreach in Hsr as (m & Hm & Hi & Ha). apply Hfac in Hn as [content Hn].
  destruct (replicas_members proposed _ _ _ (proj2 (se_rings _ _ _ _ _ _ HS)) Hw _ Hd) as (m' & Hm' & Hi').
  exists (sm_store_address m), (sm_store_address m'). rewrite <- Hi, <- Hi'. split; [by apply current_address|]. split; [by apply proposed_address|].
  split; [done|]. split.
  - destruct (se_proposed _ _ _ _ _ _ HS m' Hm') as (sn & ? & _). by exists sn.
  - destruct (se_held _ _ _ _ _ _ HS _ _ _ _ Hn Ho) as [_ Hhas]. apply Hhas; [done| |done]. by rewrite Hi.
Qed.

(** What is planned from what was found. *)
Record planned_of (factors : gmap DatumId Z) (moves : list Move) (drops : list (NodeId * DatumId)) : Prop := {
  po_factors id n : factors !! id = Some n <-> exists content, data id = Some (content, n);
  po_new id n o wn node : factors !! id = Some n -> sets_of (ring_of current) (ring_of proposed) id n o wn ->
    node ∈ wn -> node ∈ o \/ exists source, mkMove id source node ∈ moves;
  po_moves mv : mv ∈ moves -> exists sa da, addr_map current !! mv_source mv = Some sa /\ addr_map proposed !! mv_dest mv = Some da /\
    is_Some (q_stores w !! sa) /\ is_Some (q_stores w !! da) /\ has (q_stores w) sa (mv_id mv);
  po_drops node id : (node, id) ∈ drops <-> exists n o wn, factors !! id = Some n /\
    sets_of (ring_of current) (ring_of proposed) id n o wn /\ node ∈ o /\ node ∉ wn }.

(** What the driver does once the plan is made. *)
Definition carry_out (resolved : list StorageMember) (moves : list Move) (drops : list (NodeId * DatumId)) : io Still () :=
  transfers ← bulk_copy fuel (addr_map current) (addr_map resolved) (map_to_list (by_pair moves));
  flip compute_addrs resolved transfers ≫= λ _, reclaim (addr_map current) drops.

Lemma migrate_plans : exists resolved factors moves drops,
  ring_of resolved = ring_of proposed /\ addr_map resolved = addr_map proposed /\ planned_of factors moves drops /\
  forall w', carry_out resolved moves drops w = (w', Ok ()) ->
    exists report, migrate fuel compute_addrs proposed true w = (w', Ok report) /\ rp_applied report = true.
Proof.
  destruct (se_current _ _ _ _ _ _ HS) as (first & rest & c & EA & Hc & Hcur).
  destruct (resolve_spec w proposed (se_proposed _ _ _ _ _ _ HS)) as (resolved & Er & [Hring Haddr]%placed_same).
  destruct enumerate_settled as (factors & reachable & Ee & Hreach & Hfac).
  destruct (se_rings _ _ _ _ _ _ HS) as [Hr1 Hr2].
  destruct (migration_plan_is_exact (ring_of current) (ring_of proposed) factors reachable Hr1 Hr2)
    as (planned & moves & drops & Ep & Em & Ed & Hnew & Hmv & Hdr).
  exists resolved, factors, moves, drops. split; [done|]. split; [done|]. split.
  - split; [done| | |].
    + intros id n o wn node Hn Hsets Hin. destruct Hsets as [Ho Hw]. pose proof Hn as [content Hd]%Hfac.
      destruct (se_held _ _ _ _ _ _ HS _ _ _ _ Hd Ho) as [(m & Hm & Hmo & Hans) _].
      apply (Hnew id n o wn Hn (conj Ho Hw)) in Hin as [? _]; [done|]. exists (sm_node_id m). split; [done|]. apply Hreach. by exists m.
    + intros mv Hin. destruct (Hmv mv Hin) as (n & o & wn & Hn & Hsets & H1 & H2 & H3 & _). by eapply move_ends.
    + intros node id. split; [apply Hdr|]. intros (n & o & wn & Hn & Hsets & Hin & Hout).
      destruct (elem_of_plan_drops _ _ Hr1 Hr2 (map_to_list factors)) as (drops' & Ed' & Hd). assert (drops' = drops) as -> by congruence.
      apply Hd. exists n, o, wn. split; [by apply elem_of_map_to_list|done].
  - intros w' Ew. unfold migrate. rewrite EA. erewrite io_bind_ok by by eapply config_spec. erewrite io_bind_ok by exact Er.
    erewrite io_bind_ok by exact Ee. cbn beta iota zeta. rewrite Hring.
    erewrite io_bind_ok by (unfold io_lift; by rewrite Ed). erewrite io_bind_ok by (unfold io_lift; by rewrite Ep).
    erewrite io_bind_ok by (unfold io_lift; by rewrite Em).
    unfold carry_out in Ew. revert Ew. unfold mbind, io_bind. rewrite <- EA. cbn [negb].
    destruct (bulk_copy _ _ _ _ w) as [w1 [ts| |]]; [|done..]. destruct (flip _ _ _ w1) as [w2 [[]| |]]; [|done..].
    intros ->. eexists. by split.
Qed.

(** Carried out, the plan leaves every destination with its copy and every superseded
    copy deleted; what is not superseded is where it was. *)
Lemma carry_out_spec resolved factors moves drops :
  ring_of resolved = ring_of proposed -> addr_map resolved = addr_map proposed -> planned_of factors moves drops ->
  exists w', carry_out resolved moves drops w = (w', Ok ()) /\
    compute_in (λ c, storage_ring c = ring_of proposed /\ paused (halt c) = false) compute_addrs w' /\
    (forall a id x, data id = Some x -> (forall n, addr_map current !! n = Some a -> (n, id) ∉ drops) ->
       (has (q_stores w) a id \/ exists mv, mv ∈ moves /\ mv_id mv = id /\ addr_map proposed !! mv_dest mv = Some a) ->
       read_at (q_stores w') a id = Some x) /\
    forall n a id, (n, id) ∈ drops -> addr_map current !! n = Some a -> read_at (q_stores w') a id = None.
Proof.
  intros Hring Haddr HP. pose proof (se_data _ _ _ _ _ _ HS) as Hdata. pose proof (se_agree _ _ _ _ _ _ HS) as HA. unfold carry_out.
  destruct (bulk_spec data Hdata fuel (addr_map current) (addr_map proposed) (map_to_list (by_pair moves)) w) as (w1 & ts & E1 & Hc1 & K1 & HL & Hd);
    [exact (proj1 (se_fuel _ _ _ _ _ _ HS))|done| |].
  { intros s d ids Hin. assert (exists id, id ∈ ids) as [id Hid].
    { destruct ids as [|id ids]; [|exists id; by left]. apply elem_of_map_to_list in Hin. by destruct (by_pair_nonempty moves (s, d)). }
    destruct (po_moves _ _ _ HP (mkMove id s d)) as (sa & da & Hsa & Hda & Hs1 & Hs2 & _); [by eapply by_pair_entry|]. cbn in *.
    exists sa, da. split_and!; try done. intros id' Hid'.
    destruct (po_moves _ _ _ HP (mkMove id' s d)) as (sa' & da' & Hsa' & _ & _ & _ & Hhas); [by eapply by_pair_entry|]. cbn in *. by simplify_eq. }
  rewrite Haddr. erewrite io_bind_ok by exact E1.
  destruct (flip_spec data Hdata compute_addrs resolved ts w1) as (w2 & E2 & K2 & HC2).
  { intros addr Hin. rewrite Hc1. by apply (se_compute _ _ _ _ _ _ HS). }
  { by eapply ks_agree. } { exact HL. }
  erewrite io_bind_ok by exact E2. rewrite Hring in HC2.
  assert (keeps data (λ tid, tid < q_ids w) (q_stores w) (q_stores w2)) as K.
  { eapply keeps_trans; [exact K1|]. by eapply keeps_weaken; [|exact K2]. }
  pose proof (ks_agree _ _ _ _ K) as HA2.
  destruct (reclaim_spec w2 (addr_map current) drops) as (w3 & E3 & Hc3 & Hkeep & Hgone).
  { intros a sn Ha. by destruct (HA2 a sn Ha). }
  { intros [node id] Hin. apply (po_drops _ _ _ HP) in Hin as (n & o & wn & Hn & _). apply (po_factors _ _ _ HP) in Hn as [content Hn]. by eapply Hdata. }
  exists w3. split; [exact E3|]. split; [by intros addr Hin; rewrite Hc3; apply HC2|]. split; [|exact Hgone].
  intros a id x Hx Hno Hhas. rewrite (Hkeep a id Hno).
  assert (has (q_stores w2) a id) as (sn & Ha & [y Hr]).
  { destruct Hhas as [Hhas|(mv & Hin & <- & Hda)]; [by eapply ks_has|]. destruct (by_pair_has _ _ Hin) as (ids & Hp & Hid).
    eapply ks_has; [exact K2|]. by eapply Hd. }
  unfold read_at. rewrite Ha. cbn [mbind option_bind]. rewrite Hr. destruct (HA2 a sn Ha) as [_ HD]. specialize (HD _ _ Hr). congruence.
Qed.
End migration.


(** ** One datum moves from node 1 to node 2 *)

Definition moved_data (id : DatumId) : option (bytes * Z) := if id =? 7 then Some (demo_value, 2) else None.
Definition old_member : StorageMember := mkStorageMember 1 1 (lit "a") 0.
Definition new_member : StorageMember := mkStorageMember 2 1 (lit "b") 0.
Definition before_move : Still :=
  mkStill {[lit "c" := mkCluster (from_members [(9, 1)]) (ring_of [old_member]) {[1 := lit "a"]} {[1 := 0]} {[1]} ∅ HaltState_new]}
    (<[lit "a" := seven_node]> {[lit "b" := mkNode (fresh_log demo_id) 2 0 1000 ∅ ∅ ∅]}) 0.

Lemma demo_reads id x : read_value demo_log id = Some x -> moved_data id = Some x.
Proof.
  unfold moved_data. destruct (Z.eqb_spec id 7) as [->|Hne]; [vm_compute; congruence|].
  destruct (log_exec_reads (fresh_log demo_id) (LPut 7 demo_value 2) demo_log (fresh_fits demo_id eq_refl) demo_put_ok eq_refl) as (_ & Hr & _).
  rewrite (Hr id Hne). unfold read_value. by rewrite get_absent by apply lookup_empty.
Qed.

Lemma fresh_reads id : read_value (fresh_log demo_id) id = None.
Proof. unfold read_value. by rewrite get_absent by apply lookup_empty. Qed.

Lemma before_move_stores a sn : q_stores before_move !! a = Some sn ->
  (a = lit "a" /\ sn = seven_node) \/ (a = lit "b" /\ sn_log sn = fresh_log demo_id).
Proof. cbn [q_stores before_move]. intros [[<- <-]|[_ [<- <-]%lookup_singleton_Some]]%lookup_insert_Some; auto. Qed.

Lemma before_move_settled : settled moved_data before_move [lit "c"] [old_member] [new_member] 2.
Proof.
  split.
  - intros addr ->%list_elem_of_singleton. eexists. split; [apply lookup_singleton_eq|done].
  - eexists _, _, _. split; [reflexivity|]. split; [apply lookup_singleton_eq|]. vm_compute. reflexivity.
  - intros m m' Hm Hm'. cbn [app] in Hm, Hm'. rewrite !elem_of_cons, elem_of_nil in Hm, Hm'.
    destruct Hm as [->|[->|[]]], Hm' as [->|[->|[]]]; split; done.
  - intros m ->%list_elem_of_singleton. by eexists.
  - split; vm_compute; reflexivity.
  - intros id x. unfold moved_data. destruct (Z.eqb_spec id 7) as [->|]; [|done]. by intros _; split.
  - intros a sn [[_ ->]|[_ E]]%before_move_stores; (split; [|intros id x]).
    + exact demo_fits.
    + apply demo_reads.
    + rewrite E. by apply fresh_fits.
    + by rewrite E, fresh_reads.
  - intros a sn id n [[_ ->]|[_ E]]%before_move_stores; [|rewrite E; unfold n_of; cbn; by rewrite lookup_empty].
    unfold seven_node. cbn [sn_log]. unfold demo_log. rewrite n_of_put. destruct (Z.eqb_spec id 7) as [->|]; [intros _|].
    + eexists. vm_compute. reflexivity.
    + unfold n_of. cbn. by rewrite lookup_empty.
  - intros id content n o. unfold moved_data. destruct (Z.eqb_spec id 7) as [->|]; [|done]. intros [= <- <-].
    assert (replicas (ring_of [old_member]) 7 (Z.to_nat 2) = Ok [1]) as E by (vm_compute; reflexivity). rewrite E. intros [= <-].
    split; [exists old_member; split; [left|split; [left|by eexists]]|]. intros m ->%list_elem_of_singleton _ _.
    exists seven_node. split; [done|]. eexists. vm_compute. reflexivity.
  - split; [lia|]. intros m l ->%list_elem_of_singleton (sn & Ha & <-). apply before_move_stores in Ha as [[_ ->]|[Ha _]]; [vm_compute; lia|done].
Qed.

