(* ===== verification/TypedContext.v ===== *)
(** * seisin-types: the typed context of an operation

    Models [crates/seisin-types/src/typed_context.rs]: the typed reads and writes of
    an operation over [OpContext.v], and what [drop] schedules: the updates of
    secondary and ranked indexes and of the extent, the checks of references, the
    guards of deletes. *)

From S2P Require Import Prelude Core Codec Protocol Cache Fields Names Schema RankKeys Indexes OpContext.

Record TrackedDatum := mkTracked {
  tr_def : DatumTypeDef;
  tr_before : option (list FieldValue);
  tr_after : option (list FieldValue);
  tr_touched : bool
}.

Record TypedOpContext (S : Type) := mkTyped { t_ctx : OpContext S; tracked : gmap DatumId TrackedDatum }.
Arguments mkTyped {S} _ _.
Arguments t_ctx {S} _.
Arguments tracked {S} _.

(** [PartialEq] on [Option<FieldValue>]. *)
Definition opt_value_eqb (a b : option FieldValue) : bool :=
  match a, b with None, None => true | Some a, Some b => value_eqb a b | _, _ => false end.

(** [v.as_ref().map(|v| v[field_idx].clone())] *)
Definition field_of (values : option (list FieldValue)) (field_idx : nat) : res (option FieldValue) :=
  match values with
  | None => Ok None
  | Some vs => v ← index vs (Z.of_nat field_idx); Ok (Some v)
  end.

Section typed.
Context {S : Type} `{StoreOps S}.
Variable from_name : DatumId -> bytes -> DatumId.
(** The [Debug] rendering of an id in a message. *)
Variable show_id : DatumId -> bytes.
Implicit Types (t : TypedOpContext S) (d : DatumTypeDef).

Definition TypedOpContext_new (ctx : OpContext S) : TypedOpContext S := mkTyped ctx ∅.

(** The stored value of [pk_id], decoded. *)
Definition read_typed (ctx : OpContext S) (pk_id : DatumId) d : OpContext S * res (option (list FieldValue)) :=
  let '(content, ctx) := ctx_get_replicated ctx pk_id (td_replication_factor d) in
  (ctx, match content with
        | Some bs =>
            match decode_datum d bs with
            | Ok values => Ok (Some values)
            | Err _ => Err "existing content failed to decode"
            | Panic => Panic
            end
        | None => Ok None
        end).

Definition typed_get t (pk_id : DatumId) d : TypedOpContext S * res (option (list FieldValue)) :=
  let '(ctx, r) := read_typed (t_ctx t) pk_id d in
  match r with
  | Ok values =>
      let entry := match tracked t !! pk_id with Some e => e | None => mkTracked d values values false end in
      (mkTyped ctx (<[pk_id := entry]> (tracked t)), Ok values)
  | r => (mkTyped ctx (tracked t), r)
  end.

Definition ensure_tracked t (pk_id : DatumId) d : TypedOpContext S * res () :=
  match tracked t !! pk_id with
  | Some _ => (t, Ok ())
  | None =>
      let '(ctx, r) := read_typed (t_ctx t) pk_id d in
      match r with
      | Ok before => (mkTyped ctx (<[pk_id := mkTracked d before None false]> (tracked t)), Ok ())
      | Err m => (mkTyped ctx (tracked t), Err m)
      | Panic => (mkTyped ctx (tracked t), Panic)
      end
  end.

(** [entry.after = after; entry.touched = true] *)
Definition touch t (pk_id : DatumId) (after : option (list FieldValue)) : TypedOpContext S :=
  mkTyped (t_ctx t) (alter (λ e, mkTracked (tr_def e) (tr_before e) after true) pk_id (tracked t)).

Definition typed_set t (pk_id : DatumId) d (values : list FieldValue) : TypedOpContext S * res () :=
  match (_ ← check_pk from_name pk_id d; _ ← run_field_checks d values; encode_datum d values) with
  | Ok bs =>
      match ensure_tracked t pk_id d with
      | (t, Ok _) =>
          let t := mkTyped (ctx_put_replicated (t_ctx t) pk_id bs (td_replication_factor d)) (tracked t) in
          (touch t pk_id (Some values), Ok ())
      | r => r
      end
  | Err m => (t, Err m)
  | Panic => (t, Panic)
  end.

Definition typed_delete t (pk_id : DatumId) d : TypedOpContext S * res () :=
  match check_pk from_name pk_id d with
  | Ok _ =>
      match ensure_tracked t pk_id d with
      | (t, Ok _) =>
          let t := mkTyped (ctx_delete_replicated (t_ctx t) pk_id (td_replication_factor d)) (tracked t) in
          (touch t pk_id None, Ok ())
      | r => r
      end
  | r => (t, r)
  end.

(** ** Drop *)

Definition rank_key_of (v : option FieldValue) : option bytes := v ≫= λ v, ok_option (encode_rank_key v).

Definition index_updates (pk_id : DatumId) (e : TrackedDatum) (ix : IndexDef) : res (list PendingIndexUpdate) :=
  let field := match ix with IxSk field _ | IxRk field => field end in
  match field_position (td_fields (tr_def e)) field with
  | None => Ok []
  | Some field_idx =>
      old_value ← field_of (tr_before e) field_idx;
      new_value ← field_of (tr_after e) field_idx;
      if opt_value_eqb old_value new_value then Ok [] else
      match ix with
      | IxSk field unique =>
          Ok (match old_value ≫= λ v, ok_option (sk_key from_name (td_name (tr_def e)) field v) with
              | Some old_key => [mkIndexUpdate old_key (lit "sk") (encode_sk_index_op (SkRemove pk_id))]
              | None => []
              end ++
              match new_value ≫= λ v, ok_option (sk_key from_name (td_name (tr_def e)) field v) with
              | Some new_key => [mkIndexUpdate new_key (lit "sk") (encode_sk_index_op (SkInsert pk_id unique))]
              | None => []
              end)
      | IxRk field =>
          match rank_key_of old_value, rank_key_of new_value with
          | None, None => Ok []
          | old_rank_key, new_rank_key =>
              Ok [mkIndexUpdate (rk_key from_name (td_name (tr_def e)) field) (lit "rk")
                    (encode_rk_index_op (mkRkIndexOp pk_id old_rank_key new_rank_key))]
          end
      end
  end.

Definition extent_updates (pk_id : DatumId) (e : TrackedDatum) : list PendingIndexUpdate :=
  if td_track_extent (tr_def e) then
    let target := extent_key from_name (td_name (tr_def e)) in
    match tr_before e, tr_after e with
    | None, Some _ => [mkIndexUpdate target (lit "partition") (encode_extent_op (ExtentInsert pk_id))]
    | Some _, None => [mkIndexUpdate target (lit "partition") (encode_extent_op (ExtentRemove pk_id))]
    | _, _ => []
    end
  else [].

(** The delete guards: probes to check, references to mark. *)
Definition guard_actions (pk_id : DatumId) (e : TrackedDatum) : list PendingExistsCheck * list PendingIndexUpdate :=
  match tr_before e, tr_after e with
  | Some _, None =>
      let per (g : GuardRef) :=
        match sk_key from_name (gr_type_name g) (gr_field g) (FBytes (as_bytes pk_id)) with
        | Ok probe =>
            match gr_on_delete g with
            | Restrict =>
                ([mkExistsCheck probe (Absent (lit "delete restricted: " ++ gr_type_name g ++ lit "." ++ gr_field g ++
                                               lit " still references " ++ show_id pk_id))], [])
            | Schema.Track =>
                ([], [mkIndexUpdate (fk_deleted_key from_name (gr_type_name g) (gr_field g)) (lit "fk_pending")
                        (encode_fk_pending_op (FkInsert pk_id probe))])
            end
        | _ => ([], [])
        end in
      (flat_map (λ g, (per g).1) (td_guards (tr_def e)), flat_map (λ g, (per g).2) (td_guards (tr_def e)))
  | _, _ => ([], [])
  end.

(** The datum a reference names; [None] when there is nothing to check at run time. *)
Definition reference_target (target : FkTarget) (value : FieldValue) : option DatumId :=
  match target, value with
  | FkPkEnum _ _, _ => None
  | FkPkUuid _, FBytes bs => if zlen bs =? 16 then Some (from_bytes bs) else None
  | FkPkUuid _, _ => None
  | FkSkUnique type_name field, v => ok_option (sk_key from_name type_name field v)
  end.

Definition missing_policy (pk_id : DatumId) d (c : RelationalConstraintDef) (target : DatumId) : FkMissingPolicy :=
  match rc_resolution c with
  | None => Reject
  | Some _ =>
      OpContext.Track (fk_pending_key from_name (td_name d) (rc_field c)) (lit "fk_pending")
        (encode_fk_pending_op (FkInsert pk_id target))
  end.

Definition constraint_check (pk_id : DatumId) (e : TrackedDatum) (new_values : list FieldValue)
    (c : RelationalConstraintDef) : res (list PendingExistsCheck) :=
  match field_position (td_fields (tr_def e)) (rc_field c) with
  | None => Ok []
  | Some field_idx =>
      old_value ← field_of (tr_before e) field_idx;
      new_value ← index new_values (Z.of_nat field_idx);
      if opt_value_eqb old_value (Some new_value) then Ok [] else
      Ok (match reference_target (rc_references c) new_value with
          | Some target => [mkExistsCheck target (Present (missing_policy pk_id (tr_def e) c target))]
          | None => []
          end)
  end.

(** Lists collected by a loop that may panic. *)
Fixpoint collect {A B} (f : A -> res (list B)) (l : list A) : res (list B) :=
  match l with [] => Ok [] | x :: l => ys ← f x; zs ← collect f l; Ok (ys ++ zs) end.

(** One tracked datum: the updates and the checks it schedules. *)
Definition drop_one (entry : DatumId * TrackedDatum) : res (list PendingIndexUpdate * list PendingExistsCheck) :=
  let '(pk_id, e) := entry in
  if negb (tr_touched e) then Ok ([], []) else
  us ← collect (index_updates pk_id e) (td_indexes (tr_def e));
  let '(probes, marks) := guard_actions pk_id e in
  cs ← match tr_after e with
       | None => Ok []
       | Some new_values => collect (constraint_check pk_id e new_values) (td_constraints (tr_def e))
       end;
  Ok (us ++ extent_updates pk_id e ++ marks, probes ++ cs).

Fixpoint drop_all (entries : list (DatumId * TrackedDatum)) (ctx : OpContext S) : res (OpContext S) :=
  match entries with
  | [] => Ok ctx
  | entry :: entries =>
      '(us, cs) ← drop_one entry;
      drop_all entries (mkCtx (ctx_cache ctx) (staged ctx) (pending_index_updates ctx ++ us) (pending_exists_checks ctx ++ cs))
  end.

Definition typed_drop t : res (OpContext S) := drop_all (map_to_list (tracked t)) (t_ctx t).
End typed.
