(* ===== verification/TypedIndex.v ===== *)
(** * seisin-types: the indexes follow the data

    The theorems about [TypedContext.v]: what an operation's typed reads and writes
    do to the stored content, and that the index updates scheduled when its typed
    context is dropped take the indexes of the content before to the indexes of the
    content after. *)

From S2P Require Import Prelude Core Codec Protocol Cache Fields Names Schema RankKeys Indexes OpContext TypedContext.

(** ** The indexes as a set

    An entry is an index datum, a rank key (empty for an unranked index) and a
    primary key. *)

Definition entry : Type := DatumId * bytes * DatumId.

(** What an update does to the set, reading the payload as its index kind does. *)
Definition apply_update (E : gset entry) (u : PendingIndexUpdate) : gset entry :=
  let target := pu_target u in
  if bool_decide (pu_index_kind u = lit "sk") then
    match decode_sk_index_op (pu_payload u) with
    | Ok (SkInsert pk _) => {[(target, [], pk)]} ∪ E
    | Ok (SkRemove pk) => E ∖ {[(target, [], pk)]}
    | _ => E
    end
  else if bool_decide (pu_index_kind u = lit "rk") then
    match decode_rk_index_op (pu_payload u) with
    | Ok op =>
        let E := match ri_old_rank_key op with Some k => E ∖ {[(target, k, ri_pk_id op)]} | None => E end in
        match ri_new_rank_key op with Some k => {[(target, k, ri_pk_id op)]} ∪ E | None => E end
    | _ => E
    end
  else if bool_decide (pu_index_kind u = lit "partition") then
    match decode_extent_op (pu_payload u) with
    | Ok (ExtentInsert pk) => {[(target, [], pk)]} ∪ E
    | Ok (ExtentRemove pk) => E ∖ {[(target, [], pk)]}
    | _ => E
    end
  else E.

Definition opt_set {A} `{Countable A} (o : option A) : gset A := match o with Some x => {[x]} | None => ∅ end.

Section index.
Variable from_name : DatumId -> bytes -> DatumId.
Implicit Types (d : DatumTypeDef) (pk : DatumId).

(** The entry one index has for a datum's values. *)
Definition index_entry d pk (values : option (list FieldValue)) (ix : IndexDef) : option entry :=
  match ix with
  | IxSk field _ =>
      vs ← values; v ← field_value d vs field;
      key ← ok_option (sk_key from_name (td_name d) field v); Some (key, [], pk)
  | IxRk field =>
      vs ← values; v ← field_value d vs field;
      k ← ok_option (encode_rank_key v); Some (rk_key from_name (td_name d) field, k, pk)
  end.

#[local] Arguments index_entry : simpl never.

Definition extent_entry d pk (values : option (list FieldValue)) : option entry :=
  if td_track_extent d then _ ← values; Some (extent_key from_name (td_name d), [], pk) else None.

(** All the entries of a datum. *)
Definition entries_of d pk (values : option (list FieldValue)) : gset entry :=
  ⋃ map (λ ix, opt_set (index_entry d pk values ix)) (td_indexes d) ∪ opt_set (extent_entry d pk values).

(** ** Moves *)

(** A sequence of changes, each replacing the entries [old] by the entries [new], or
    leaving the set alone when they are the same. *)
Inductive moves : list (gset entry * gset entry) -> gset entry -> gset entry -> Prop :=
| moves_nil E : moves [] E E
| moves_step old new ms E E' : moves ms ((E ∖ old) ∪ new) E' -> moves ((old, new) :: ms) E E'
| moves_skip old ms E E' : moves ms E E' -> moves ((old, old) :: ms) E E'.

Definition olds (ms : list (gset entry * gset entry)) : gset entry := ⋃ map fst ms.
Definition news (ms : list (gset entry * gset entry)) : gset entry := ⋃ map snd ms.

Lemma elem_of_olds ms x : x ∈ olds ms <-> exists old new, (old, new) ∈ ms /\ x ∈ old.
Proof.
  unfold olds. rewrite elem_of_union_list. split.
  - intros (X & HX & Hx). apply list_elem_of_fmap in HX as ([old new] & -> & Hin). by exists old, new.
  - intros (old & new & Hin & Hx). exists old. split; [|done]. apply list_elem_of_fmap. by exists (old, new).
Qed.

Lemma elem_of_news ms x : x ∈ news ms <-> exists old new, (old, new) ∈ ms /\ x ∈ new.
Proof.
  unfold news. rewrite elem_of_union_list. split.
  - intros (X & HX & Hx). apply list_elem_of_fmap in HX as ([old new] & -> & Hin). by exists old, new.
  - intros (old & new & Hin & Hx). exists new. split; [|done]. apply list_elem_of_fmap. by exists (old, new).
Qed.

(** Moves that do not take from each other: an entry one adds is one no other takes
    away for good. *)
Definition compatible (ms : list (gset entry * gset entry)) : Prop :=
  forall o1 n1 o2 n2 x, (o1, n1) ∈ ms -> (o2, n2) ∈ ms -> x ∈ n1 -> x ∈ o2 -> x ∈ n2.

Lemma moves_removed ms E E' x :
  moves ms E E' -> x ∉ news ms -> (x ∈ E' <-> x ∈ E /\ x ∉ olds ms).
Proof.
  unfold news, olds. induction 1 as [E|old new ms E E' _ IH|old ms E E' _ IH]; simpl; intros Hn; [set_solver|..];
    rewrite IH by set_solver; set_solver.
Qed.

Lemma moves_kept ms E E' x :
  moves ms E E' -> (forall o n, (o, n) ∈ ms -> x ∈ o -> x ∈ n) -> x ∈ E -> x ∈ E'.
Proof.
  induction 1 as [E|old new ms E E' _ IH|old ms E E' _ IH]; intros Hc Hx; [done|..].
  - apply IH; [intros o n Hin; apply Hc; by right|]. specialize (Hc old new ltac:(by left)). destruct (decide (x ∈ old)); set_solver.
  - apply IH; [intros o n Hin; apply Hc; by right|done].
Qed.

Lemma moves_added ms E E' x :
  moves ms E E' -> (forall o n, (o, n) ∈ ms -> x ∉ o) -> x ∈ news ms -> x ∈ E'.
Proof.
  unfold news. induction 1 as [E|old new ms E E' Hm IH|old ms E E' Hm IH]; simpl; intros Ho Hx; [set_solver|..].
  - apply elem_of_union in Hx as [Hx|Hx]; [|apply IH; [intros o n Hin; apply (Ho o n); by right|done]].
    eapply moves_kept; [exact Hm|intros o n Hin Hxo; exfalso; eapply (Ho o n); [by right|done]|set_solver].
  - apply elem_of_union in Hx as [Hx|Hx]; [exfalso; by apply (Ho old old); [left|]|].
    apply IH; [intros o n Hin; apply (Ho o n); by right|done].
Qed.

Lemma moves_spec ms E E' :
  moves ms E E' -> compatible ms -> (forall x, x ∈ olds ms -> x ∈ E) -> E' = (E ∖ olds ms) ∪ news ms.
Proof.
  intros Hm Hc Hsub. apply set_eq. intros x. rewrite elem_of_union, elem_of_difference.
  destruct (decide (x ∈ news ms)) as [Hx|Hx]; [|rewrite (moves_removed _ _ _ _ Hm Hx); tauto].
  split; [by right|intros _]. apply elem_of_news in Hx as (o1 & n1 & Hin1 & Hx1).
  assert (forall o n, (o, n) ∈ ms -> x ∈ o -> x ∈ n) as Hk by (intros o n Hin Hxo; by apply (Hc o1 n1 o n x)).
  destruct (decide (x ∈ olds ms)) as [Ho|Ho].
  - eapply moves_kept; [exact Hm|exact Hk|by apply Hsub].
  - eapply moves_added; [exact Hm| |apply elem_of_news; by exists o1, n1].
    intros o n Hin Hxo. apply Ho, elem_of_olds. by exists o, n.
Qed.

Lemma moves_app ms1 ms2 E E1 E' : moves ms1 E E1 -> moves ms2 E1 E' -> moves (ms1 ++ ms2) E E'.
Proof. induction 1; intros H2; simpl; [done|constructor; auto|by apply moves_skip; auto]. Qed.

Lemma moves_one old new E E' : (E' = (E ∖ old) ∪ new) \/ (old = new /\ E' = E) -> moves [(old, new)] E E'.
Proof. intros [->|[-> ->]]; [apply moves_step, moves_nil|apply moves_skip, moves_nil]. Qed.

(** ** One index of one datum *)

Definition values_fit d (values : option (list FieldValue)) : Prop :=
  forall vs, values = Some vs -> length vs = length (td_fields d) /\ Forall value_ok vs.

(** Equal values are the same value: what [PartialEq] says of every type but [f64],
    where the two zeros are equal. *)
Definition faithful (before after : option (list FieldValue)) : Prop :=
  forall vs ws i a b, before = Some vs -> after = Some ws -> vs !! i = Some a -> ws !! i = Some b ->
    value_eqb a b = true -> a = b.

Definition unique_ok d : Prop := forall field unique, IxSk field unique ∈ td_indexes d -> opt_ok string_ok unique.

Record tracked_ok pk (e : TrackedDatum) : Prop := {
  tk_pk : datum_ok pk;
  tk_unique : unique_ok (tr_def e);
  tk_before : values_fit (tr_def e) (tr_before e);
  tk_after : values_fit (tr_def e) (tr_after e);
  tk_faithful : faithful (tr_before e) (tr_after e)
}.

Lemma field_of_spec d values field i :
  values_fit d values -> field_position (td_fields d) field = Some i ->
  field_of values i = Ok (values ≫= λ vs, field_value d vs field).
Proof.
  intros Hfit Hi. unfold field_of, field_value. destruct values as [vs|]; [|done]. simpl. rewrite Hi. simpl.
  destruct (Hfit vs eq_refl) as [Hl _]. unfold field_position in Hi. apply fmap_Some in Hi as ([j f] & Hf & ->).
  apply list_find_Some in Hf as (Hf & _ & _). apply lookup_lt_Some in Hf. simpl.
  destruct (index_ok vs (Z.of_nat j)) as (v & -> & Hv); [unfold zlen; lia|]. by rewrite Nat2Z.id in Hv; rewrite Hv.
Qed.

Lemma field_of_absent d values field : field_position (td_fields d) field = None -> (values ≫= λ vs, field_value d vs field) = None.
Proof. intros Hi. unfold field_value. rewrite Hi. by destruct values. Qed.

Lemma field_value_ok d values field v :
  values_fit d values -> values ≫= (λ vs, field_value d vs field) = Some v -> value_ok v.
Proof.
  intros Hfit Hv. destruct values as [vs|]; [|done]. simpl in Hv. destruct (Hfit vs eq_refl) as [_ HF].
  unfold field_value in Hv. destruct (field_position _ _) as [i|]; [|done]. simpl in Hv. by eapply Forall_lookup_1.
Qed.

Lemma opt_value_eqb_same d before after field :
  faithful before after ->
  opt_value_eqb (before ≫= λ vs, field_value d vs field) (after ≫= λ vs, field_value d vs field) = true ->
  (before ≫= λ vs, field_value d vs field) = (after ≫= λ vs, field_value d vs field).
Proof.
  intros Hf. unfold field_value. destruct (field_position _ _) as [i|]; simpl; [|by destruct before, after].
  destruct before as [vs|], after as [ws|]; simpl; try done.
  - destruct (vs !! i) as [a|] eqn:Ea, (ws !! i) as [b|] eqn:Eb; simpl; try done. intros H. f_equal. by eapply Hf.
  - by destruct (vs !! i).
  - by destruct (ws !! i).
Qed.

Lemma encode_rank_key_ok v k : value_ok v -> encode_rank_key v = Ok k -> rank_key_ok k.
Proof.
  intros Hv Hk. destruct v; try done; [by apply (rank_key_len ScoreI64 (FI64 i))|by apply (rank_key_len ScoreF64 (FF64 bits))].
Qed.

Lemma index_entry_sk d pk values field unique :
  index_entry d pk values (IxSk field unique) =
  (λ key, (key, [], pk)) <$> ((values ≫= λ vs, field_value d vs field) ≫= λ v, ok_option (sk_key from_name (td_name d) field v)).
Proof.
  unfold index_entry. destruct values as [vs|]; simpl; [|done]. destruct (field_value d vs field); simpl; [|done].
  by destruct (ok_option _).
Qed.

Lemma index_entry_rk d pk values field :
  index_entry d pk values (IxRk field) =
  (λ k, (rk_key from_name (td_name d) field, k, pk)) <$> rank_key_of (values ≫= λ vs, field_value d vs field).
Proof.
  unfold index_entry, rank_key_of. destruct values as [vs|]; simpl; [|done]. destruct (field_value d vs field); simpl; [|done].
  by destruct (ok_option _).
Qed.

Lemma apply_sk E key op : sk_op_ok op ->
  apply_update E (mkIndexUpdate key (lit "sk") (encode_sk_index_op op)) =
  match op with SkInsert pk _ => {[(key, [], pk)]} ∪ E | SkRemove pk => E ∖ {[(key, [], pk)]} end.
Proof. intros Hop. unfold apply_update. simpl. rewrite decode_encode_sk_op by done. by destruct op. Qed.

Lemma apply_rk E target op : rk_index_op_ok op ->
  apply_update E (mkIndexUpdate target (lit "rk") (encode_rk_index_op op)) =
  (E ∖ opt_set ((λ k, (target, k, ri_pk_id op)) <$> ri_old_rank_key op)) ∪
    opt_set ((λ k, (target, k, ri_pk_id op)) <$> ri_new_rank_key op).
Proof.
  intros Hop. unfold apply_update. simpl.
  rewrite (codec_complete _ _ _ rk_index_codec op Hop). destruct (ri_old_rank_key op), (ri_new_rank_key op); simpl; set_solver.
Qed.

Lemma apply_extent E target op : extent_op_ok op ->
  apply_update E (mkIndexUpdate target (lit "partition") (encode_extent_op op)) =
  match op with ExtentInsert pk => {[(target, [], pk)]} ∪ E | ExtentRemove pk => E ∖ {[(target, [], pk)]} end.
Proof.
  intros Hop. unfold apply_update. simpl.
  rewrite (codec_complete _ _ _ extent_op_codec op Hop). by destruct op.
Qed.

Definition index_move pk (e : TrackedDatum) (ix : IndexDef) : gset entry * gset entry :=
  (opt_set (index_entry (tr_def e) pk (tr_before e) ix), opt_set (index_entry (tr_def e) pk (tr_after e) ix)).

Lemma index_updates_spec pk e ix E :
  tracked_ok pk e -> ix ∈ td_indexes (tr_def e) ->
  exists us, index_updates from_name pk e ix = Ok us /\ moves [index_move pk e ix] E (fold_left apply_update us E).
Proof.
  intros [Hpk Hu Hb Ha Hf] Hix. unfold index_updates, index_move. set (d := tr_def e) in *.
  set (field := match ix with IxSk field _ | IxRk field => field end).
  set (old := tr_before e ≫= λ vs, field_value d vs field). set (new := tr_after e ≫= λ vs, field_value d vs field).
  assert (forall v, old = Some v -> value_ok v) as Hvo by (intros v; by apply field_value_ok).
  assert (forall v, new = Some v -> value_ok v) as Hvn by (intros v; by apply field_value_ok).
  assert (forall values, index_entry d pk values ix =
    match ix with
    | IxSk f _ => (λ key, (key, [], pk)) <$> ((values ≫= λ vs, field_value d vs field) ≫= λ v, ok_option (sk_key from_name (td_name d) f v))
    | IxRk f => (λ k, (rk_key from_name (td_name d) f, k, pk)) <$> rank_key_of (values ≫= λ vs, field_value d vs field)
    end) as Hentry by (intros values; destruct ix; [apply index_entry_sk|apply index_entry_rk]).
  rewrite !Hentry. fold old new. clear Hentry.
  destruct (field_position (td_fields d) field) as [i|] eqn:Hi.
  2:{ exists []. split; [done|]. apply moves_one. right. assert (old = None) as -> by by apply field_of_absent.
      assert (new = None) as -> by by apply field_of_absent. by destruct ix. }
  rewrite (field_of_spec d _ field i Hb Hi). rsimpl. rewrite (field_of_spec d _ field i Ha Hi). rsimpl. fold old new.
  destruct (opt_value_eqb old new) eqn:Heq.
  { exists []. split; [done|]. apply moves_one. right. split; [|done].
    assert (old = new) as -> by by apply opt_value_eqb_same. done. }
  destruct ix as [f unique|f]; simpl in field.
  - eexists. split; [done|]. apply moves_one. left.
    pose proof (Hu f unique Hix) as Huniq.
    destruct (old ≫= _) as [k|] eqn:Ek, (new ≫= _) as [k'|] eqn:Ek'; cbn [app fold_left opt_set fmap option_fmap option_map]; rewrite ?apply_sk by done; clear; set_solver.
  - assert (opt_ok rank_key_ok (rank_key_of old)) as Hko.
    { unfold rank_key_of. destruct old as [v|]; simpl; [|done]. destruct (encode_rank_key v) as [k| |] eqn:E1; simpl; try done.
      eapply encode_rank_key_ok; [by apply Hvo|done]. }
    assert (opt_ok rank_key_ok (rank_key_of new)) as Hkn.
    { unfold rank_key_of. destruct new as [v|]; simpl; [|done]. destruct (encode_rank_key v) as [k| |] eqn:E1; simpl; try done.
      eapply encode_rank_key_ok; [by apply Hvn|done]. }
    destruct (rank_key_of old) as [k|] eqn:Eo, (rank_key_of new) as [k'|] eqn:En; eexists; (split; [done|]); apply moves_one;
      [left..|right; done]; cbn [fold_left]; by rewrite apply_rk by done.
Qed.

(** ** One datum *)

Lemma extent_updates_spec pk e E :
  datum_ok pk ->
  moves [(opt_set (extent_entry (tr_def e) pk (tr_before e)), opt_set (extent_entry (tr_def e) pk (tr_after e)))]
    E (fold_left apply_update (extent_updates from_name pk e) E).
Proof.
  intros Hpk. unfold extent_updates, extent_entry. apply moves_one.
  destruct (td_track_extent (tr_def e)); [|right; done].
  destruct (tr_before e), (tr_after e); cbn [mbind option_bind opt_set fold_left]; [right; done|left..|right; done];
    rewrite apply_extent by done; clear; set_solver.
Qed.

Lemma marks_ignored show_id pk e E : fold_left apply_update (guard_actions from_name show_id pk e).2 E = E.
Proof.
  unfold guard_actions. destruct (tr_before e), (tr_after e); try done. simpl.
  induction (td_guards (tr_def e)) as [|g gs IH]; [done|]. simpl. destruct (gr_on_delete g); simpl; exact IH.
Qed.

Definition moves_of (p : DatumId * TrackedDatum) : list (gset entry * gset entry) :=
  let '(pk, e) := p in
  if tr_touched e then
    map (index_move pk e) (td_indexes (tr_def e)) ++
    [(opt_set (extent_entry (tr_def e) pk (tr_before e)), opt_set (extent_entry (tr_def e) pk (tr_after e)))]
  else [].

Lemma collect_index_updates pk e ixs E :
  tracked_ok pk e -> (forall ix, ix ∈ ixs -> ix ∈ td_indexes (tr_def e)) ->
  exists us, collect (index_updates from_name pk e) ixs = Ok us /\ moves (map (index_move pk e) ixs) E (fold_left apply_update us E).
Proof.
  intros He. revert E. induction ixs as [|ix ixs IH]; intros E Hin; [exists []; split; [done|constructor]|].
  destruct (index_updates_spec pk e ix E He (Hin ix ltac:(by left))) as (us & Eu & Hm).
  destruct (IH (fold_left apply_update us E)) as (vs & Ev & Hm'); [intros x Hx; apply Hin; by right|].
  exists (us ++ vs). simpl. rewrite Eu. rsimpl. rewrite Ev. rsimpl. split; [done|]. rewrite fold_left_app.
  exact (moves_app [_] _ _ _ _ Hm Hm').
Qed.

Lemma constraint_checks_ok pk e vs cs :
  tracked_ok pk e -> tr_after e = Some vs -> exists checks, collect (constraint_check from_name pk e vs) cs = Ok checks.
Proof.
  intros [_ _ Hb Ha _] Hvs. induction cs as [|c cs [checks IH]]; [by exists []|].
  assert (exists l, constraint_check from_name pk e vs c = Ok l) as [l El].
  { unfold constraint_check. destruct (field_position _ _) as [i|] eqn:Hi; [|by eexists].
    rewrite (field_of_spec (tr_def e) _ (rc_field c) i Hb Hi). rsimpl.
    pose proof (field_of_spec (tr_def e) _ (rc_field c) i Ha Hi) as Hn. rewrite Hvs in Hn. simpl in Hn.
    destruct (index vs (Z.of_nat i)) as [v| |]; [|done..]. rsimpl. destruct (opt_value_eqb _ _); by eexists. }
  exists (l ++ checks). simpl. rewrite El. rsimpl. by rewrite IH.
Qed.

Lemma drop_one_spec show_id pk e E :
  tracked_ok pk e ->
  exists us cs, drop_one from_name show_id (pk, e) = Ok (us, cs) /\ moves (moves_of (pk, e)) E (fold_left apply_update us E).
Proof.
  intros He. unfold drop_one, moves_of. destruct (tr_touched e); simpl; [|exists [], []; split; [done|constructor]].
  destruct (collect_index_updates pk e (td_indexes (tr_def e)) E He (λ _ H, H)) as (us & -> & Hm). rsimpl.
  pose proof (marks_ignored show_id pk e) as Hmarks. destruct (guard_actions from_name show_id pk e) as [probes marks].
  assert (exists cs, match tr_after e with
    | Some vs => collect (constraint_check from_name pk e vs) (td_constraints (tr_def e)) | None => Ok [] end = Ok cs) as [cs Ec].
  { destruct (tr_after e) as [vs|] eqn:Ea; [by eapply constraint_checks_ok|by eexists]. }
  exists (us ++ extent_updates from_name pk e ++ marks), (probes ++ cs).
  replace (match tr_after e with Some vs => _ | None => _ end) with (Ok cs : res (list PendingExistsCheck)) by (by destruct (tr_after e)).
  rsimpl. split; [done|]. rewrite !fold_left_app. simpl in Hmarks. rewrite Hmarks.
  eapply moves_app; [exact Hm|]. apply extent_updates_spec, He.
Qed.

Lemma drop_all_spec {S} show_id entries (ctx : OpContext S) E :
  Forall (λ p, tracked_ok p.1 p.2) entries ->
  exists ctx' us cs, drop_all from_name show_id entries ctx = Ok ctx' /\
    pending_index_updates ctx' = pending_index_updates ctx ++ us /\ pending_exists_checks ctx' = pending_exists_checks ctx ++ cs /\
    staged ctx' = staged ctx /\ ctx_cache ctx' = ctx_cache ctx /\
    moves (flat_map moves_of entries) E (fold_left apply_update us E).
Proof.
  intros HF. revert ctx E. induction HF as [|[pk e] entries He _ IH]; intros ctx E.
  { exists ctx, [], []. rewrite !app_nil_r. split_and!; [done..|constructor]. }
  destruct (drop_one_spec show_id pk e E He) as (us & cs & Ed & Hm).
  cbn [drop_all]. rewrite Ed. rsimpl.
  destruct (IH (mkCtx (ctx_cache ctx) (staged ctx) (pending_index_updates ctx ++ us) (pending_exists_checks ctx ++ cs))
    (fold_left apply_update us E)) as (ctx' & us' & cs' & E' & Hu & Hc & Hs & Hcc & Hm').
  exists ctx', (us ++ us'), (cs ++ cs'). simpl in *. rewrite Hu, Hc, !app_assoc, fold_left_app. split_and!; try done.
  by eapply moves_app.
Qed.

(** ** No two indexes share an entry *)

Context `{!Inj (=) (=) (from_name derived_id_namespace)}.

Definition names_ok d : Prop :=
  plain (td_name d) /\
  forall ix, ix ∈ td_indexes d -> plain (match ix with IxSk field _ | IxRk field => field end).

(** The name behind an entry's index datum. *)
Inductive entry_kind := KIndex (ix : IndexDef) | KExtent.

Definition kind_entry d pk values (k : entry_kind) : option entry :=
  match k with KIndex ix => index_entry d pk values ix | KExtent => extent_entry d pk values end.

Definition kind_ok d (k : entry_kind) : Prop := match k with KIndex ix => ix ∈ td_indexes d | KExtent => True end.

Lemma kind_entry_pk d pk values k x : kind_entry d pk values k = Some x -> x.2 = pk.
Proof.
  destruct k as [[f u|f]|]; simpl.
  - change (index_entry d pk values (IxSk f u) = Some x -> x.2 = pk). rewrite index_entry_sk. intros (key & _ & ->)%fmap_Some. done.
  - change (index_entry d pk values (IxRk f) = Some x -> x.2 = pk). rewrite index_entry_rk. intros (key & _ & ->)%fmap_Some. done.
  - unfold extent_entry. destruct (td_track_extent d), values; simpl; by intros [= <-].
Qed.

Definition kind_name d (k : entry_kind) (value : bytes) : derived :=
  match k with
  | KIndex (IxSk f _) => DSk (td_name d) f value
  | KIndex (IxRk f) => DRk (td_name d) f
  | KExtent => DPartition (td_name d) (lit "all")
  end.

Lemma kind_entry_name d pk values k x :
  kind_entry d pk values k = Some x -> exists value, x.1.1 = derive from_name (derived_name (kind_name d k value)).
Proof.
  destruct k as [[f u|f]|]; simpl.
  - change (index_entry d pk values (IxSk f u) = Some x -> exists value, x.1.1 = derive from_name (sk_name (td_name d) f value)).
    rewrite index_entry_sk. intros (key & Hk & ->)%fmap_Some. apply bind_Some in Hk as (v & _ & Hk). unfold sk_key in Hk.
    destruct (sk_value_bytes v) as [bs|]; [|done]. injection Hk as <-. by exists bs.
  - change (index_entry d pk values (IxRk f) = Some x -> exists value : bytes, x.1.1 = derive from_name (rk_name (td_name d) f)).
    rewrite index_entry_rk. intros (key & _ & ->)%fmap_Some. by exists [].
  - unfold extent_entry. destruct (td_track_extent d), values; simpl; try done. intros [= <-]. by exists [].
Qed.

(** Two indexes of a type with a common index datum are on the same field. *)
Lemma kind_entry_same d pk before after k1 k2 x y :
  names_ok d -> kind_ok d k1 -> kind_ok d k2 ->
  kind_entry d pk after k1 = Some x -> kind_entry d pk before k2 = Some y -> x.1.1 = y.1.1 ->
  kind_entry d pk after k2 = Some x.
Proof.
  intros [Ht Hn] H1 H2 Hx Hy E. destruct (kind_entry_name _ _ _ _ _ Hx) as [v1 E1], (kind_entry_name _ _ _ _ _ Hy) as [v2 E2].
  rewrite E1, E2 in E. unfold derive in E. apply (inj (from_name derived_id_namespace)) in E.
  apply derived_name_inj in E.
  - destruct k1 as [ix1|], k2 as [ix2|]; simpl in E; try (by destruct ix1); try (by destruct ix2); [|done].
    destruct ix1 as [f1 u1|f1], ix2 as [f2 u2|f2]; try done; injection E as <-; [|exact Hx].
    simpl in *. rewrite index_entry_sk in Hx |- *. exact Hx.
  - destruct k1 as [[f u|f]|]; simpl; [split; [done|exact (Hn _ H1)]..|done].
  - destruct k2 as [[f u|f]|]; simpl; [split; [done|exact (Hn _ H2)]..|done].
Qed.

Lemma elem_of_entries d pk values x :
  x ∈ entries_of d pk values <-> exists k, kind_ok d k /\ kind_entry d pk values k = Some x.
Proof.
  unfold entries_of. rewrite elem_of_union, elem_of_union_list. split.
  - intros [(X & HX & Hx)|Hx].
    + apply list_elem_of_fmap in HX as (ix & -> & Hix). exists (KIndex ix). split; [done|]. simpl.
      destruct (index_entry d pk values ix); simpl in Hx; set_solver.
    + exists KExtent. split; [done|]. simpl. destruct (extent_entry d pk values); simpl in Hx; set_solver.
  - intros ([ix|] & Hk & Hx); simpl in *; [left|right; rewrite Hx; simpl; set_solver].
    exists (opt_set (Some x)). split; [apply list_elem_of_fmap; exists ix; by rewrite Hx|simpl; set_solver].
Qed.

Lemma elem_of_moves entries o n :
  (o, n) ∈ flat_map moves_of entries <->
  exists pk e k, (pk, e) ∈ entries /\ tr_touched e = true /\ kind_ok (tr_def e) k /\
    o = opt_set (kind_entry (tr_def e) pk (tr_before e) k) /\ n = opt_set (kind_entry (tr_def e) pk (tr_after e) k).
Proof.
  rewrite list_elem_of_In, in_flat_map. split.
  - intros ([pk e] & Hin & Hm). apply list_elem_of_In in Hin, Hm. unfold moves_of in Hm.
    destruct (tr_touched e) eqn:Et; [|by apply elem_of_nil in Hm]. apply elem_of_app in Hm as [Hm|Hm].
    + apply list_elem_of_fmap in Hm as (ix & [= -> ->] & Hix). by exists pk, e, (KIndex ix).
    + apply list_elem_of_singleton in Hm as [= -> ->]. by exists pk, e, KExtent.
  - intros (pk & e & k & Hin & Et & Hk & -> & ->). exists (pk, e). split; [by apply list_elem_of_In|]. apply list_elem_of_In.
    unfold moves_of. rewrite Et. apply elem_of_app. destruct k as [ix|]; simpl in *.
    + left. apply list_elem_of_fmap. by exists ix.
    + right. apply list_elem_of_singleton. done.
Qed.

Lemma elem_of_opt_set (o : option entry) x : x ∈ opt_set o <-> o = Some x.
Proof. destruct o; simpl; set_solver. Qed.

Lemma moves_compatible (m : gmap DatumId TrackedDatum) :
  (forall pk e, m !! pk = Some e -> names_ok (tr_def e)) -> compatible (flat_map moves_of (map_to_list m)).
Proof.
  intros Hn o1 n1 o2 n2 x H1 H2 Hx1 Hx2.
  apply elem_of_moves in H1 as (pk1 & e1 & k1 & Hin1 & _ & Hk1 & _ & ->).
  apply elem_of_moves in H2 as (pk2 & e2 & k2 & Hin2 & _ & Hk2 & -> & ->).
  apply elem_of_opt_set in Hx1, Hx2. pose proof (kind_entry_pk _ _ _ _ _ Hx1) as E1. pose proof (kind_entry_pk _ _ _ _ _ Hx2) as E2.
  apply elem_of_map_to_list in Hin1, Hin2. rewrite <- E1 in *. rewrite <- E2 in *. rewrite Hin1 in Hin2. injection Hin2 as <-.
  apply elem_of_opt_set. eapply kind_entry_same; [by eapply Hn|exact Hk1|exact Hk2|exact Hx1|exact Hx2|done].
Qed.

(** The entries of the touched datums, before or after. *)
Lemma elem_of_touched (m : gmap DatumId TrackedDatum) x :
  (x ∈ olds (flat_map moves_of (map_to_list m)) <->
     exists e, m !! x.2 = Some e /\ tr_touched e = true /\ x ∈ entries_of (tr_def e) x.2 (tr_before e)) /\
  (x ∈ news (flat_map moves_of (map_to_list m)) <->
     exists e, m !! x.2 = Some e /\ tr_touched e = true /\ x ∈ entries_of (tr_def e) x.2 (tr_after e)).
Proof.
  rewrite elem_of_olds, elem_of_news. split; split.
  - intros (o & n & Hm & Hx). apply elem_of_moves in Hm as (pk & e & k & Hin & Et & Hk & -> & _). apply elem_of_opt_set in Hx.
    pose proof (kind_entry_pk _ _ _ _ _ Hx) as ->. apply elem_of_map_to_list in Hin. exists e. split_and!; [done..|].
    apply elem_of_entries. by exists k.
  - intros (e & He & Et & Hx). apply elem_of_entries in Hx as (k & Hk & Hx). eexists _, _. split.
    + apply elem_of_moves. exists x.2, e, k. by rewrite elem_of_map_to_list.
    + by apply elem_of_opt_set.
  - intros (o & n & Hm & Hx). apply elem_of_moves in Hm as (pk & e & k & Hin & Et & Hk & _ & ->). apply elem_of_opt_set in Hx.
    pose proof (kind_entry_pk _ _ _ _ _ Hx) as ->. apply elem_of_map_to_list in Hin. exists e. split_and!; [done..|].
    apply elem_of_entries. by exists k.
  - intros (e & He & Et & Hx). apply elem_of_entries in Hx as (k & Hk & Hx). eexists _, _. split.
    + apply elem_of_moves. exists x.2, e, k. by rewrite elem_of_map_to_list.
    + by apply elem_of_opt_set.
Qed.

(** ** An operation over typed data *)

(** What a datum's stored bytes hold at a definition. *)
Definition stored_values d (content : option bytes) : option (list FieldValue) :=
  bs ← content; ok_option (decode_datum d bs).

(** The entries the stored content asks for, of the datums with a declared type. *)
Definition all_entries (typing : gmap DatumId DatumTypeDef) (m : gmap DatumId bytes) : gset entry :=
  ⋃ map (λ p : DatumId * DatumTypeDef, entries_of p.2 p.1 (stored_values p.2 (m !! p.1))) (map_to_list typing).

Lemma elem_of_all_entries typing m x :
  x ∈ all_entries typing m <->
  exists d, typing !! x.2 = Some d /\ x ∈ entries_of d x.2 (stored_values d (m !! x.2)).
Proof.
  unfold all_entries. rewrite elem_of_union_list. split.
  - intros (X & HX & Hx). apply list_elem_of_fmap in HX as ([pk d] & -> & Hin). apply elem_of_map_to_list in Hin. simpl in *.
    pose proof Hx as Hx'. apply elem_of_entries in Hx' as (k & _ & Hk). apply kind_entry_pk in Hk as <-. by exists d.
  - intros (d & Hd & Hx). eexists. split; [|exact Hx]. apply list_elem_of_fmap. exists (x.2, d). by rewrite elem_of_map_to_list.
Qed.

Inductive TypedOp := TGet (pk : DatumId) | TSet (pk : DatumId) (values : list FieldValue) | TDelete (pk : DatumId).

Definition typed_op_ok (op : TypedOp) : Prop := match op with TSet _ values => Forall value_ok values | _ => True end.

Definition typing_ok (typing : gmap DatumId DatumTypeDef) : Prop :=
  forall pk d, typing !! pk = Some d -> datum_ok pk /\ u16_ok (td_version d) /\ unique_ok d /\ names_ok d.

Section op.
Context {S : Type} `{StoreLaws S}.
Implicit Types (t : TypedOpContext S) (typing : gmap DatumId DatumTypeDef).

(** One call of the handler, on the datum's declared type; a failed call is the
    handler's to judge. *)
Definition typed_step typing t (op : TypedOp) : TypedOpContext S :=
  let pk := match op with TGet pk | TSet pk _ | TDelete pk => pk end in
  match typing !! pk with
  | None => t
  | Some d =>
      match op with
      | TGet _ => (typed_get t pk d).1
      | TSet _ values => (typed_set from_name t pk d values).1
      | TDelete _ => (typed_delete from_name t pk d).1
      end
  end.

Definition entry_inv typing (m0 : gmap DatumId bytes) (ctx : OpContext S) pk (e : TrackedDatum) : Prop :=
  typing !! pk = Some (tr_def e) /\ tr_before e = stored_values (tr_def e) (m0 !! pk) /\
  values_fit (tr_def e) (tr_before e) /\ values_fit (tr_def e) (tr_after e) /\
  (if tr_touched e then stored_values (tr_def e) (ctx_view ctx !! pk) = tr_after e else staged ctx !! pk = None).

Record typed_inv typing (m0 : gmap DatumId bytes) t : Prop := {
  ti_coherent : coherent (ctx_cache (t_ctx t));
  ti_store : cache_view (ctx_cache (t_ctx t)) = m0;
  ti_updates : pending_index_updates (t_ctx t) = [];
  ti_tracked pk e : tracked t !! pk = Some e -> entry_inv typing m0 (t_ctx t) pk e;
  ti_untracked pk : tracked t !! pk = None -> staged (t_ctx t) !! pk = None
}.

Lemma read_typed_spec typing m0 t pk d :
  typed_inv typing m0 t ->
  let '(ctx, r) := read_typed (t_ctx t) pk d in
  typed_inv typing m0 (mkTyped ctx (tracked t)) /\ staged ctx = staged (t_ctx t) /\
  match r with
  | Ok values => values = stored_values d (ctx_view (t_ctx t) !! pk) /\ values_fit d values
  | _ => True
  end.
Proof.
  intros [Hc Hs Hu Ht Hn]. unfold read_typed.
  pose proof (ctx_get_spec (t_ctx t) pk (td_replication_factor d) Hc) as HG.
  destruct (ctx_get_replicated _ _ _) as [content ctx]. destruct HG as (-> & Hv & He & Hc' & Hs' & Hst).
  split; [|split; [done|]].
  - split; simpl; [done|by rewrite Hs'|by injection He as -> _| |by rewrite Hst].
    intros p e Hp. destruct (Ht p e Hp) as (H1 & H2 & H3 & H4 & H5). split_and!; try done. by rewrite Hv, Hst.
  - destruct (ctx_view (t_ctx t) !! pk) as [bs|]; [|split; [done|by intros ?]].
    pose proof (decode_datum_typed d bs) as HD. destruct (decode_datum d bs) as [vs| |] eqn:E; [|done..].
    split; [simpl; by rewrite E|]. intros vs' [= <-]. destruct HD as [HF Hok]. split; [|done].
    symmetry. by apply Forall2_length in HF.
Qed.

Lemma view_unstaged (ctx : OpContext S) pk m0 :
  cache_view (ctx_cache ctx) = m0 -> staged ctx !! pk = None -> ctx_view ctx !! pk = m0 !! pk.
Proof. intros <- Hs. unfold ctx_view. rewrite lookup_overlay. by rewrite Hs. Qed.

Lemma track_inv typing m0 t pk d e :
  typed_inv typing m0 t -> entry_inv typing m0 (t_ctx t) pk e ->
  typed_inv typing m0 (mkTyped (t_ctx t) (<[pk := e]> (tracked t))).
Proof.
  intros [Hc Hs Hu Ht Hn] He. split; simpl; [done..| |].
  - intros p e'. destruct (decide (p = pk)) as [->|Hne]; [rewrite lookup_insert_eq; by intros [= <-]|].
    rewrite lookup_insert_ne by done. apply Ht.
  - intros p. destruct (decide (p = pk)) as [->|Hne]; [by rewrite lookup_insert_eq|]. rewrite lookup_insert_ne by done. apply Hn.
Qed.

Lemma typed_get_inv typing m0 t pk d :
  typing !! pk = Some d -> typed_inv typing m0 t -> typed_inv typing m0 (typed_get t pk d).1.
Proof.
  intros Hd Ht. unfold typed_get. pose proof (read_typed_spec typing m0 t pk d Ht) as HR.
  destruct (read_typed (t_ctx t) pk d) as [ctx [values| |]]; destruct HR as (Hinv & Hst & Hv); [|done..].
  simpl. destruct Hv as [-> Hfit]. apply (track_inv typing m0 (mkTyped ctx (tracked t)) pk d); [done|]. simpl.
  destruct (tracked t !! pk) as [e|] eqn:Ee; [by apply (ti_tracked _ _ _ Hinv)|].
  pose proof (ti_untracked _ _ _ Hinv pk Ee) as Hun. simpl in Hun. rewrite Hst in Hun.
  rewrite (view_unstaged _ pk m0 (ti_store _ _ _ Ht) Hun) in *. split_and!; try done. simpl. by rewrite Hst.
Qed.

Lemma ensure_tracked_inv typing m0 t pk d :
  typing !! pk = Some d -> typed_inv typing m0 t ->
  let '(t', r) := ensure_tracked t pk d in
  typed_inv typing m0 t' /\ (r = Ok () -> exists e, tracked t' !! pk = Some e).
Proof.
  intros Hd Ht. unfold ensure_tracked. destruct (tracked t !! pk) as [e|] eqn:Ee; [split; [done|by exists e]|].
  pose proof (read_typed_spec typing m0 t pk d Ht) as HR.
  destruct (read_typed (t_ctx t) pk d) as [ctx [values| |]]; destruct HR as (Hinv & Hst & Hv); [|by split..].
  destruct Hv as [-> Hfit]. split; [|intros _; eexists; simpl; by rewrite lookup_insert_eq].
  apply (track_inv typing m0 (mkTyped ctx (tracked t)) pk d); [done|].
  pose proof (ti_untracked _ _ _ Hinv pk Ee) as Hun. simpl in Hun. rewrite Hst in Hun.
  rewrite (view_unstaged _ pk m0 (ti_store _ _ _ Ht) Hun) in *. split_and!; try done. simpl. by rewrite Hst.
Qed.

Lemma stage_inv typing m0 t pk d e value n after :
  typed_inv typing m0 t -> tracked t !! pk = Some e -> tr_def e = d ->
  stored_values d value = after -> values_fit d after ->
  typed_inv typing m0 (touch (mkTyped (stage (t_ctx t) pk value n) (tracked t)) pk after).
Proof.
  intros [Hc Hs Hu Ht Hn] He Hd Hval Hfit. unfold touch. simpl. split; simpl; [done..| |].
  - intros p e'. destruct (decide (p = pk)) as [->|Hne].
    + rewrite lookup_alter_eq, He. intros [= <-]. destruct (Ht pk e He) as (H1 & H2 & H3 & H4 & H5).
      split_and!; try done; simpl; [by rewrite Hd|]. unfold ctx_view. rewrite lookup_overlay. simpl.
      rewrite lookup_insert_eq, Hd. done.
    + rewrite lookup_alter_ne by done. intros He'. destruct (Ht p e' He') as (H1 & H2 & H3 & H4 & H5). split_and!; try done.
      revert H5. unfold ctx_view. rewrite !lookup_overlay. simpl. by rewrite lookup_insert_ne.
  - intros p. destruct (decide (p = pk)) as [->|Hne]; [by rewrite lookup_alter_eq, He|].
    rewrite lookup_alter_ne, lookup_insert_ne by done. apply Hn.
Qed.

Lemma tracked_def typing m0 t pk d e :
  typed_inv typing m0 t -> typing !! pk = Some d -> tracked t !! pk = Some e -> tr_def e = d.
Proof. intros Ht Hd He. destruct (ti_tracked _ _ _ Ht pk e He) as [H1 _]. rewrite Hd in H1. by injection H1. Qed.

Lemma typed_step_inv typing m0 t op :
  typing_ok typing -> typed_op_ok op -> typed_inv typing m0 t -> typed_inv typing m0 (typed_step typing t op).
Proof.
  intros Hty Hop Ht. unfold typed_step. destruct op as [pk|pk values|pk]; destruct (typing !! pk) as [d|] eqn:Hd; try done.
  - by apply typed_get_inv.
  - unfold typed_set. destruct (_ ← _; _) as [bs| |] eqn:Ebs; [|done..].
    apply res_bind_Ok in Ebs as (? & _ & Ebs). apply res_bind_Ok in Ebs as (? & _ & Ebs).
    destruct (Hty pk d Hd) as (_ & Hver & _ & _). destruct (encode_datum_ok d values bs Hver Hop Ebs) as [Hwt Hdec].
    pose proof (ensure_tracked_inv typing m0 t pk d Hd Ht) as HE. destruct (ensure_tracked t pk d) as [t' [[]| |]]; destruct HE as [Hinv He]; [|done..].
    destruct (He eq_refl) as [e Hte]. eapply stage_inv; [done..|by eapply tracked_def| |].
    + simpl. by rewrite Hdec.
    + intros vs [= <-]. split; [|done]. symmetry. by apply Forall2_length in Hwt.
  - unfold typed_delete. destruct (check_pk from_name pk d); [|done..].
    pose proof (ensure_tracked_inv typing m0 t pk d Hd Ht) as HE. destruct (ensure_tracked t pk d) as [t' [[]| |]]; destruct HE as [Hinv He]; [|done..].
    destruct (He eq_refl) as [e Hte]. eapply stage_inv; [done..|by eapply tracked_def|done|by intros ?].
Qed.

Lemma typed_run_inv typing t m0 ops :
  typing_ok typing -> Forall typed_op_ok ops -> typed_inv typing m0 t -> typed_inv typing m0 (fold_left (typed_step typing) ops t).
Proof.
  intros Hty HF. revert t. induction HF as [|op ops Hop _ IH]; intros t Ht; [done|]. by apply IH, typed_step_inv.
Qed.

Lemma typed_new_inv typing c :
  coherent c -> typed_inv typing (cache_view c) (TypedOpContext_new (OpContext_new c)).
Proof. intros Hc. split; simpl; try done. Qed.
End op.
End index.


(** ** An example *)

(** Any injection of names serves as the hash. *)
Definition demo_name (_ : DatumId) (name : bytes) : DatumId := Z.pos (encode name).

#[export] Instance demo_name_inj ns : Inj (=) (=) (demo_name ns).
Proof. intros a b [= H]. by apply (inj encode) in H. Qed.

(** A version-7 id. *)
Definition demo_pk : DatumId := from_bytes (map u8 [0; 0; 0; 0; 0; 0; 112; 0; 0; 0; 0; 0; 0; 0; 0; 1]).

Definition with_indexes (d : DatumTypeDef) (ixs : list IndexDef) : res DatumTypeDef :=
  fold_left (λ d ix, d ← d; add_index d ix) ixs (Ok d).

Definition demo_type : DatumTypeDef :=
  let d := add_field (add_field (DatumTypeDef_new (lit "user")) (lit "name") TyString) (lit "score") TyF64 in
  match with_indexes (set_track_extent d) [IxSk (lit "name") (Some (lit "rename")); IxRk (lit "score")] with
  | Ok d => d
  | _ => d
  end.

Definition demo_typing : gmap DatumId DatumTypeDef := {[demo_pk := demo_type]}.

Lemma plain_lit (bs : bytes) : bool_decide (u8 46 ∉ bs /\ u8 58 ∉ bs) = true -> plain bs.
Proof. by intros ?%bool_decide_eq_true. Qed.

Lemma demo_typing_ok : typing_ok demo_typing.
Proof.
  unfold demo_typing. intros pk d [<- <-]%lookup_singleton_Some. split; [by vm_compute|]. split; [by vm_compute|].
  assert (td_indexes demo_type = [IxSk (lit "name") (Some (lit "rename")); IxRk (lit "score")]) as E by by vm_compute.
  split; [|split; [by apply plain_lit|]].
  - intros f u Hin. rewrite E in Hin. apply elem_of_cons in Hin as [[= -> ->]|Hin]; [split; by vm_compute|].
    by apply list_elem_of_singleton in Hin.
  - intros ix Hin. rewrite E in Hin. apply elem_of_cons in Hin as [->|Hin]; [by apply plain_lit|].
    apply list_elem_of_singleton in Hin as ->. by apply plain_lit.
Qed.

Definition demo_values (name : bytes) (score : Z) : list FieldValue := [FString name; FF64 score].

(** The user "ann" with score 0. *)
Definition demo_cache : Cache InMemoryStore :=
  match encode_datum demo_type (demo_values (lit "ann") 0) with
  | Ok bs => cache_put (Cache_new InMemoryStore_new) demo_pk bs
  | _ => Cache_new InMemoryStore_new
  end.


(** A change between the two zeros strands an index entry: the two are equal to
    the comparison that skips unchanged fields, but their rank keys differ, so
    writing -0.0 over 0.0 schedules no update, and the ranked index keeps the entry
    of the old value instead of the entry of the stored one. *)
Theorem zero_sign_change_strands_an_entry :
  let t := (typed_set demo_name (TypedOpContext_new (OpContext_new demo_cache)) demo_pk demo_type
              (demo_values (lit "ann") 9223372036854775808)).1 in
  exists ctx, typed_drop demo_name as_bytes t = Ok ctx /\ pending_index_updates ctx = [] /\
    all_entries demo_name demo_typing (cache_view demo_cache) <>
    all_entries demo_name demo_typing (cache_view (commit_writes (ctx_cache ctx) (take_staged_writes ctx))).
Proof.
  eexists. split; [vm_compute; reflexivity|]. split; [done|]. intros H.
  apply (f_equal (λ E, elements E)) in H. vm_compute in H. done.
Qed.
