(* ===== verification/Driver.v ===== *)
(** * The scan driver of a type

    Models [crates/seisin-types/src/driver.rs]: the programs a solution runs against
    the cluster to validate the data of a type, through the calls of the client. A
    program is a call on the state of whatever answers; [client] is
    [seisin_client::call] on the address the driver was given and [fresh] is
    [DatumId::new]. The loops over the pages of a partition take fuel, which the pages
    to come must not exceed. *)

From S2P Require Import Prelude Core Codec Ring Protocol Messages Responses Names Fields Schema Indexes OpContext Pages BTree BTreeRep RankedTree TreeKinds TypedContext Collections Worker Pool Server.

Record ValidationFinding := mkFinding { vf_pk : DatumId; vf_field : bytes; vf_problem : bytes }.

Section driver.
Context {W : Type}.
Variables (client : Request.t -> io W Response.t) (fresh : io W DatumId).
Variable from_name : DatumId -> bytes -> DatumId.
(** The [Debug] rendering of an id in a message. *)
Variable show_id : DatumId -> bytes.
Implicit Types (d : DatumTypeDef) (findings : list ValidationFinding).

(** ** One datum *)

(** The [for] over the constraints. *)
Fixpoint probe_references d (pk : DatumId) (values : list FieldValue) (cs : list RelationalConstraintDef)
    findings : io W (list ValidationFinding) :=
  match cs with
  | [] => mret findings
  | c :: cs =>
      match field_position (td_fields d) (rc_field c), rc_references c with
      | None, _ | _, FkPkEnum _ _ => probe_references d pk values cs findings
      | Some field_idx, references =>
          value ← io_lift (index values (Z.of_nat field_idx));
          match reference_target from_name references value with
          | None => probe_references d pk values cs findings
          | Some target =>
              response ← client (Request.ExistsCheck target);
              match response with
              | Response.Exists true => probe_references d pk values cs findings
              | Response.Exists false =>
                  probe_references d pk values cs
                    (findings ++ [mkFinding pk (rc_field c) (lit "dangling reference: " ++ show_id target ++ lit " does not exist")])
              | _ => io_lift (Err "unexpected exists response")
              end
          end
      end
  end.

Definition validate_one d (read_op : bytes) (pk : DatumId) findings : io W (list ValidationFinding) :=
  op_id ← fresh;
  response ← client (Request.Op op_id read_op [pk] []);
  match response with
  | Response.OpResult [] => mret findings
  | Response.OpResult payload =>
      match decode_datum d payload with
      | Ok values =>
          match run_field_checks d values with
          | Ok _ => probe_references d pk values (td_constraints d) findings
          | Err e => probe_references d pk values (td_constraints d) (findings ++ [mkFinding pk [] (lit e)])
          | Panic => io_lift Panic
          end
      | Err e => mret (findings ++ [mkFinding pk [] (lit "undecodable content: " ++ lit e)])
      | Panic => io_lift Panic
      end
  | Response.OpError message => mret (findings ++ [mkFinding pk [] (lit "read failed: " ++ message)])
  | _ => io_lift (Err "unexpected read response")
  end.

(** ** The full scan *)

Fixpoint validate_page d (read_op : bytes) (pks : list DatumId) findings : io W (list ValidationFinding) :=
  match pks with
  | [] => mret findings
  | pk :: pks => findings ← validate_one d read_op pk findings; validate_page d read_op pks findings
  end.

Definition query_page (partition : DatumId) (offset page_size : Z) : io W (list DatumId) :=
  response ← client (Request.ExtentQuery partition offset page_size);
  match response with Response.ExtentResult _ pks => mret pks | _ => io_lift (Err "extent query failed") end.

Fixpoint scan_loop (fuel : nat) d (read_op : bytes) (page_size offset : Z) findings : io W (list ValidationFinding) :=
  match fuel with
  | O => io_lift (Err "out of fuel")
  | S fuel =>
      pks ← query_page (extent_key from_name (td_name d)) offset page_size;
      match pks with
      | [] => mret findings
      | _ =>
          offset ← io_lift (add_u64 offset (zlen pks));
          findings ← validate_page d read_op pks findings;
          scan_loop fuel d read_op page_size offset findings
      end
  end.

Definition validate_type (fuel : nat) d (read_op : bytes) (page_size : Z) : io W (list ValidationFinding) :=
  if negb (td_track_extent d) then io_lift (Err "type does not track an extent") else
  scan_loop fuel d read_op page_size 0 [].

(** ** The invalid partition *)

Definition partition_update (partition : DatumId) (op : ExtentOp) : io W () :=
  response ← client (Request.PartitionUpdate partition op);
  match response with Response.ExtentResult _ _ => mret () | _ => io_lift (Err "partition update failed") end.

Fixpoint mark_invalid d (pks : list DatumId) : io W () :=
  match pks with
  | [] => mret ()
  | pk :: pks => partition_update (invalid_key from_name (td_name d)) (ExtentInsert pk) ≫= λ _, mark_invalid d pks
  end.

Definition clear_invalid d (pk : DatumId) : io W () :=
  partition_update (invalid_key from_name (td_name d)) (ExtentRemove pk).

(** The [for] over a page: the findings, and how many ids it cleared. *)
Fixpoint revalidate_page d (read_op : bytes) (pks : list DatumId) findings (cleared : Z) :
    io W (list ValidationFinding * Z) :=
  match pks with
  | [] => mret (findings, cleared)
  | pk :: pks =>
      still_failing ← validate_one d read_op pk findings;
      if (length still_failing =? length findings)%nat then
        clear_invalid d pk ≫= λ _, revalidate_page d read_op pks still_failing (cleared + 1)
      else revalidate_page d read_op pks still_failing cleared
  end.

Fixpoint revalidate_loop (fuel : nat) d (read_op : bytes) (page_size offset : Z) findings : io W (list ValidationFinding) :=
  match fuel with
  | O => io_lift (Err "out of fuel")
  | S fuel =>
      pks ← query_page (invalid_key from_name (td_name d)) offset page_size;
      match pks with
      | [] => mret findings
      | _ =>
          '(findings, cleared) ← revalidate_page d read_op pks findings 0;
          kept ← io_lift (sub_u64 (zlen pks) cleared);
          offset ← io_lift (add_u64 offset kept);
          revalidate_loop fuel d read_op page_size offset findings
      end
  end.

Definition revalidate_invalid (fuel : nat) d (read_op : bytes) (page_size : Z) : io W (list ValidationFinding) :=
  revalidate_loop fuel d read_op page_size 0 [].
End driver.

(** ** The order of a sweep *)

Definition runtime_target (t : FkTarget) : option bytes :=
  match t with FkPkUuid type_name | FkSkUnique type_name _ => Some type_name | FkPkEnum _ _ => None end.

Definition incoming (defs : list DatumTypeDef) (name : bytes) : Z :=
  zlen (base.filter (λ c, runtime_target (rc_references c) = Some name) (flat_map td_constraints defs)).
Definition outgoing (d : DatumTypeDef) : Z :=
  zlen (base.filter (λ c, is_Some (runtime_target (rc_references c))) (td_constraints d)).

(** The key of a type in the sort, and its place among the types, by which a stable
    sort decides ties. *)
Record SweepKey := mkKey { sk_incoming : Z; sk_outgoing : Z; sk_type_id : bytes; sk_place : nat }.

Definition sweep_le (a b : SweepKey) : Prop :=
  sk_incoming b < sk_incoming a \/ (sk_incoming a = sk_incoming b /\
  (sk_outgoing a < sk_outgoing b \/ (sk_outgoing a = sk_outgoing b /\
  (bytes_cmp (sk_type_id a) (sk_type_id b) = Lt \/ (sk_type_id a = sk_type_id b /\ (sk_place a <= sk_place b)%nat))))).

#[global] Instance sweep_le_dec a b : Decision (sweep_le a b).
Proof. unfold sweep_le. apply _. Defined.

Section order.
Variable from_name : DatumId -> bytes -> DatumId.

Definition sweep_key (defs : list DatumTypeDef) (i : nat) (d : DatumTypeDef) : SweepKey :=
  mkKey (incoming defs (td_name d)) (outgoing d) (as_bytes (derive from_name (type_name_of (td_name d)))) i.

Definition scan_order (defs : list DatumTypeDef) : list nat :=
  map sk_place (merge_sort sweep_le (imap (sweep_key defs) defs)).

(** [partition_of] *)
Definition partition_id_of (type_name partition : bytes) : DatumId := partition_key from_name type_name partition.
End order.
