(* ===== verification/DriverTheorems.v ===== *)
(** * Theorems about the scan driver

    Against any cluster at rest that keeps the promises of [AtRest], a full scan finds
    exactly the data that are not sound, and a revalidation leaves exactly those in the
    invalid partition, although the partition shrinks under the pages it reads. The
    server of a compute node with its partition files keeps those promises. *)

From S2P Require Import Prelude Core Codec Ring Protocol Messages Responses Names Fields Schema Indexes OpContext Pages BTree BTreeRep RankedTree TreeKinds TypedContext Collections Worker WorkerTheorems Pool Server Driver.

(** ** A cluster at rest *)

(** What it shows: the ids of each partition, what the reading operation answers for
    a datum, and which data exist. *)
Record View := mkView { v_parts : DatumId -> list DatumId; v_reads : DatumId -> OpReply; v_there : DatumId -> bool }.

(** Nothing differs but the partition [id]. *)
Definition same_but (id : DatumId) (v v' : View) : Prop :=
  v_reads v' = v_reads v /\ v_there v' = v_there v /\ forall i, i <> id -> v_parts v' i = v_parts v i.

#[global] Instance same_but_po id : PreOrder (same_but id).
Proof.
  split; [by intros v|]. intros v1 v2 v3 (R1 & T1 & P1) (R2 & T2 & P2).
  split_and!; [congruence..|]. intros i Hi. by rewrite P2, P1.
Qed.

Definition after_update (op : ExtentOp) (xs : list DatumId) (pk : DatumId) : Prop :=
  match op with ExtentInsert p => pk = p \/ pk ∈ xs | ExtentRemove p => pk ∈ xs /\ pk <> p end.

(** [rep n w v]: the cluster [w] shows [v], and each partition can grow by [n] ids. *)
Class AtRest {W : Type} (client : Request.t -> io W Response.t) (fresh : io W DatumId) (read_op : bytes)
    (rep : nat -> W -> View -> Prop) : Prop := {
  rest_ids n w v id : rep n w v ->
    StronglySorted Z.lt (v_parts v id) /\ Forall datum_ok (v_parts v id) /\ zlen (v_parts v id) < 2 ^ 64;
  rest_page n w v id offset limit : rep n w v -> u64_ok offset -> u32_ok limit ->
    exists w' total, client (Request.ExtentQuery id offset limit) w =
      (w', Ok (Response.ExtentResult total (take (Z.to_nat limit) (drop (Z.to_nat offset) (v_parts v id))))) /\ rep n w' v;
  rest_read n w v op_id pk : rep n w v ->
    exists w', client (Request.Op op_id read_op [pk] []) w =
      (w', Ok match v_reads v pk with ReplyOk bs => Response.OpResult bs | ReplyErr m => Response.OpError m end) /\ rep n w' v;
  rest_exists n w v id : rep n w v ->
    exists w', client (Request.ExistsCheck id) w = (w', Ok (Response.Exists (v_there v id))) /\ rep n w' v;
  rest_update n w v id op : rep (match op with ExtentInsert _ => S n | ExtentRemove _ => n end) w v -> extent_op_ok op ->
    exists w' v' total pks, client (Request.PartitionUpdate id op) w = (w', Ok (Response.ExtentResult total pks)) /\
      rep n w' v' /\ same_but id v v' /\ forall pk, pk ∈ v_parts v' id <-> after_update op (v_parts v id) pk;
  rest_fresh n w v : rep n w v -> exists w' id, fresh w = (w', Ok id) /\ rep n w' v
}.

(** A datum is sound when it can be read and, if it holds anything, its content decodes,
    passes the declared checks and refers to data that exist. *)
Definition sound (from_name : DatumId -> bytes -> DatumId) (v : View) (d : DatumTypeDef) (pk : DatumId) : Prop :=
  match v_reads v pk with
  | ReplyErr _ => False
  | ReplyOk [] => True
  | ReplyOk bs => exists values, decode_datum d bs = Ok values /\ run_field_checks d values = Ok () /\
      forall c i value target, c ∈ td_constraints d -> field_position (td_fields d) (rc_field c) = Some i ->
        values !! i = Some value -> reference_target from_name (rc_references c) value = Some target -> v_there v target = true
  end.

Section scan.
Context {W : Type} (client : Request.t -> io W Response.t) (fresh : io W DatumId) (read_op : bytes)
  (rep : nat -> W -> View -> Prop) `{!AtRest client fresh read_op rep}.
Context (from_name : DatumId -> bytes -> DatumId) (show_id : DatumId -> bytes).
Implicit Types (w : W) (v : View) (d : DatumTypeDef) (fs : list ValidationFinding).

Definition about (pk : DatumId) fs : Prop := Forall (λ f, vf_pk f = pk) fs.

Lemma io_err_bind {A B} (m : io W A) (k : A -> io W B) w w' e : m w = (w', Err e) -> (m ≫= k) w = (w', Err e).
Proof. intros E. unfold mbind, io_bind. by rewrite E. Qed.

Lemma io_lift_ok {A B} (x : A) (r : res A) (k : A -> io W B) w : r = Ok x -> (io_lift r ≫= k) w = k x w.
Proof. by intros ->. Qed.

Lemma field_position_lt fields name i : field_position fields name = Some i -> (i < length fields)%nat.
Proof.
  unfold field_position. intros ([j y] & Hf & ->)%fmap_Some. apply list_find_Some in Hf as (Hf & _). by eapply lookup_lt_Some.
Qed.

Lemma index_nth {A} (l : list A) i x : l !! i = Some x -> index l (Z.of_nat i) = Ok x.
Proof.
  intros H. unfold index. rewrite (proj2 (Z.leb_le _ _)) by lia. by rewrite Nat2Z.id, H.
Qed.

Lemma probe_references_spec n w v d pk values cs fs :
  rep n w v -> length values = length (td_fields d) ->
  exists w' new, probe_references client from_name show_id d pk values cs fs w = (w', Ok (fs ++ new)) /\ rep n w' v /\ about pk new /\
    (new = [] <-> forall c i value target, c ∈ cs -> field_position (td_fields d) (rc_field c) = Some i ->
      values !! i = Some value -> reference_target from_name (rc_references c) value = Some target -> v_there v target = true).
Proof.
  intros Hr Hl. revert w fs Hr. induction cs as [|c cs IH]; intros w fs Hr; cbn [probe_references].
  { exists w, []. rewrite app_nil_r. split_and!; [done|done|constructor|set_solver]. }
  assert (forall w fs, rep n w v -> (forall i value target, field_position (td_fields d) (rc_field c) = Some i ->
      values !! i = Some value -> reference_target from_name (rc_references c) value = Some target -> v_there v target = true) ->
    exists w' new, probe_references client from_name show_id d pk values cs fs w = (w', Ok (fs ++ new)) /\ rep n w' v /\ about pk new /\
    (new = [] <-> forall c' i value target, c' ∈ c :: cs -> field_position (td_fields d) (rc_field c') = Some i ->
      values !! i = Some value -> reference_target from_name (rc_references c') value = Some target -> v_there v target = true)) as Hskip.
  { intros w0 fs0 Hr0 Hc. destruct (IH w0 fs0 Hr0) as (w' & new & E & Hr' & Ha & Hn). exists w', new. split_and!; [done..|].
    rewrite Hn. split; [|by intros Hall c' i va t Hin; apply Hall; right].
    intros Hall c' i va t [->|Hin]%elem_of_cons; [by apply Hc|by apply Hall]. }
  destruct (field_position _ (rc_field c)) as [i|] eqn:Ei; [|apply Hskip; by intros].
  destruct (rc_references c) as [tn|tn ms|tn f] eqn:Er; [|apply Hskip; [done|by intros ? ? ? ? ? ?]|].
  all: cbn match; assert (exists value, values !! i = Some value) as [value Hv] by
    (apply lookup_lt_is_Some_2; rewrite Hl; by eapply field_position_lt).
  all: rewrite (io_lift_ok value) by (by apply index_nth).
  all: destruct (reference_target _ _ value) as [target|] eqn:Et; [|apply Hskip; [done|by intros ? ? ? [= <-] ? ?; simplify_eq]].
  all: destruct (rest_exists (AtRest := AtRest0) n w v target Hr) as (w1 & E1 & Hr1).
  all: erewrite io_bind_ok by exact E1; cbn match.
  all: destruct (v_there v target) eqn:Eth; [apply Hskip; [done|by intros ? ? ? [= <-] ? ?; simplify_eq]|].
  all: match goal with |- context [probe_references _ _ _ _ _ _ _ (?fs0 ++ ?f)] =>
    destruct (IH w1 (fs0 ++ f) Hr1) as (w' & new & E & Hr' & Ha & _); exists w', (f ++ new) end.
  all: rewrite E, <- app_assoc; split_and!; [done..|by apply Forall_app; split; [repeat constructor|]|].
  all: split; [done|intros Hall; specialize (Hall c i value target ltac:(left) Ei Hv); rewrite Er, Et, Eth in Hall; by specialize (Hall eq_refl)].
Qed.

Lemma run_field_checks_safe d values : run_field_checks d values <> Panic.
Proof.
  unfold run_field_checks.
  pose proof (checks_loop_safe rc_field constraint_passes "field references no declared key" (td_fields d) values (td_constraints d)).
  destruct (checks_loop _ _ _ _ _ _); rsimpl; [|done..]. apply checks_loop_safe.
Qed.

Lemma validate_one_spec n w v d pk fs :
  rep n w v ->
  exists w' new, validate_one client fresh from_name show_id d read_op pk fs w = (w', Ok (fs ++ new)) /\ rep n w' v /\
    about pk new /\ (new = [] <-> sound from_name v d pk).
Proof.
  intros Hr. destruct (rest_fresh (AtRest := AtRest0) n w v Hr) as (w0 & op_id & E0 & Hr0).
  destruct (rest_read (AtRest := AtRest0) n w0 v op_id pk Hr0) as (w1 & E1 & Hr1).
  unfold validate_one. erewrite io_bind_ok by exact E0. erewrite io_bind_ok by exact E1.
  assert (forall f, vf_pk f = pk -> about pk [f]) as Hone by (intros; by repeat constructor).
  unfold sound. destruct (v_reads v pk) as [bs|m]; [|by eexists w1, [_]; split_and!; [reflexivity|done|by apply Hone|]].
  destruct bs as [|b bs]; [by exists w1, []; rewrite app_nil_r; split_and!; [..|constructor|]|]. set (payload := b :: bs).
  pose proof (decode_datum_typed d payload) as Ht. destruct (decode_datum d payload) as [values|e|]; [| |done].
  2: { eexists w1, [_]. split_and!; [reflexivity|done|by apply Hone|]. split; [done|by intros (? & ? & _)]. }
  destruct Ht as [Ht _]. apply Forall2_length in Ht. pose proof (run_field_checks_safe d values).
  destruct (run_field_checks d values) as [[]|e|] eqn:Ec; [| |done].
  - destruct (probe_references_spec n w1 v d pk values (td_constraints d) fs Hr1 ltac:(done)) as (w' & new & E & Hr' & Ha & Hn).
    exists w', new. split_and!; [done..|]. rewrite Hn. split; [intros Hall; by exists values|]. by intros (? & [= <-] & _ & ?).
  - match goal with |- context [fs ++ ?f] =>
      destruct (probe_references_spec n w1 v d pk values (td_constraints d) (fs ++ f) Hr1 ltac:(done)) as (w' & new & E & Hr' & Ha & _);
      exists w', (f ++ new) end.
    rewrite E, <- app_assoc. split_and!; [done..| |].
    + apply Forall_app. by split; [apply Hone|].
    + split; [done|]. intros (? & [= <-] & Hc & _). congruence.
Qed.

Lemma about_names pk fs : about pk fs -> forall p, p ∈ map vf_pk fs <-> p = pk /\ fs <> [].
Proof.
  intros Ha p. rewrite list_elem_of_fmap. unfold about in Ha. rewrite Forall_forall in Ha. split.
  - intros (f & -> & Hf). split; [by apply Ha|]. by destruct fs; [set_solver|].
  - intros [-> Hne]. destruct fs as [|f fs]; [done|]. exists f. split; [symmetry; apply Ha; left|left].
Qed.

(** The findings name the data that are not sound, of those gone through. *)
Lemma validate_page_spec n w v d pks fs :
  rep n w v ->
  exists w' new, validate_page client fresh from_name show_id d read_op pks fs w = (w', Ok (fs ++ new)) /\ rep n w' v /\
    forall pk, pk ∈ map vf_pk new <-> pk ∈ pks /\ ~ sound from_name v d pk.
Proof.
  revert w fs. induction pks as [|pk pks IH]; intros w fs Hr; cbn [validate_page].
  { exists w, []. rewrite app_nil_r. split_and!; [done..|]. set_solver. }
  destruct (validate_one_spec n w v d pk fs Hr) as (w1 & new1 & E1 & Hr1 & Ha & Hn). erewrite io_bind_ok by exact E1.
  destruct (IH w1 (fs ++ new1) Hr1) as (w2 & new2 & E2 & Hr2 & H2). exists w2, (new1 ++ new2).
  split; [by rewrite app_assoc|]. split; [done|]. intros p.
  rewrite map_app, elem_of_app, H2, (about_names pk new1 Ha), elem_of_cons, Hn. naive_solver.
Qed.

Lemma query_page_spec n w v id offset page_size :
  rep n w v -> u64_ok offset -> u32_ok page_size ->
  exists w', query_page client id offset page_size w =
    (w', Ok (take (Z.to_nat page_size) (drop (Z.to_nat offset) (v_parts v id)))) /\ rep n w' v.
Proof.
  intros Hr Ho Hp. destruct (rest_page (AtRest := AtRest0) n w v id offset page_size Hr Ho Hp) as (w' & total & E & Hr').
  exists w'. unfold query_page. by erewrite io_bind_ok by exact E.
Qed.

(** A page of what is left, and what is left after it. *)
Lemma split_page (rest : list DatumId) page_size :
  0 < page_size -> rest <> [] ->
  exists page rest2, rest = page ++ rest2 /\ take (Z.to_nat page_size) rest = page /\ page <> [].
Proof.
  intros Hp Hne. exists (take (Z.to_nat page_size) rest), (drop (Z.to_nat page_size) rest). rewrite take_drop. split_and!; [done..|].
  destruct rest; [done|]. by destruct (Z.to_nat page_size) eqn:?; [lia|].
Qed.

Lemma scan_loop_spec n v d page_size fuel :
  u32_ok page_size -> 0 < page_size ->
  forall w fs done_ rest, rep n w v -> v_parts v (extent_key from_name (td_name d)) = done_ ++ rest -> (length rest < fuel)%nat ->
  exists w' new, scan_loop client fresh from_name show_id fuel d read_op page_size (zlen done_) fs w = (w', Ok (fs ++ new)) /\
    rep n w' v /\ forall pk, pk ∈ map vf_pk new <-> pk ∈ rest /\ ~ sound from_name v d pk.
Proof.
  intros Hp Hp0. induction fuel as [|fuel IH]; intros w fs done_ rest Hr Hd Hf; [lia|]. cbn [scan_loop].
  destruct (rest_ids (AtRest := AtRest0) n w v (extent_key from_name (td_name d)) Hr) as (_ & _ & Hlen). rewrite Hd, zlen_app in Hlen.
  pose proof (zlen_nonneg done_). pose proof (zlen_nonneg rest).
  destruct (query_page_spec n w v (extent_key from_name (td_name d)) (zlen done_) page_size Hr) as (w1 & E1 & Hr1);
    [unfold uint_ok; lia|done|]. rewrite Hd in E1.
  rewrite (drop_app_length' done_ rest) in E1 by (unfold zlen; lia).
  erewrite io_bind_ok by exact E1.
  destruct (decide (rest = [])) as [->|Hne]; [rewrite take_nil; exists w1, []; rewrite app_nil_r; split_and!; [done..|]; set_solver|].
  destruct (split_page rest page_size Hp0 Hne) as (page & rest2 & -> & Ep & Hpage). rewrite Ep, zlen_app in *.
  pose proof (zlen_nonneg rest2). destruct page as [|y page'] eqn:Epage; [done|]. rewrite <- Epage in *.
  rewrite (io_lift_ok (zlen (done_ ++ page))) by (unfold add_u64; rewrite zlen_app, (proj2 (Z.ltb_lt _ _)) by lia; done).
  destruct (validate_page_spec n w1 v d page fs Hr1) as (w2 & new2 & E2 & Hr2 & H2). erewrite io_bind_ok by exact E2.
  destruct (IH w2 (fs ++ new2) (done_ ++ page) rest2 Hr2) as (w3 & new3 & E3 & Hr3 & H3).
  { by rewrite <- app_assoc. }
  { rewrite length_app in Hf. subst page. simpl in Hf. lia. }
  exists w3, (new2 ++ new3). split; [by rewrite app_assoc|]. split; [done|]. intros p.
  rewrite map_app, elem_of_app, H2, H3, elem_of_app. tauto.
Qed.

(** C11: a full scan of a type is exact. Against a cluster at rest, a scan with a page
    size that is not zero ends, once its fuel exceeds the extent, and names in its
    findings exactly the data of the extent that are not sound: that cannot be read,
    do not decode, fail a declared check or refer to data that do not exist. *)
Theorem full_scan_is_exact n w v d page_size fuel :
  rep n w v -> td_track_extent d = true -> u32_ok page_size -> 0 < page_size ->
  (length (v_parts v (extent_key from_name (td_name d))) < fuel)%nat ->
  exists w' fs, validate_type client fresh from_name show_id fuel d read_op page_size w = (w', Ok fs) /\ rep n w' v /\
    forall pk, pk ∈ map vf_pk fs <-> pk ∈ v_parts v (extent_key from_name (td_name d)) /\ ~ sound from_name v d pk.
Proof.
  intros Hr Ht Hp Hp0 Hf. unfold validate_type. rewrite Ht. cbn [negb].
  by destruct (scan_loop_spec n v d page_size fuel Hp Hp0 w [] [] _ Hr eq_refl Hf) as (w' & fs & E & Hr' & H); exists w', fs.
Qed.

(** ** The invalid partition *)

Lemma sound_same id v v' d pk : same_but id v v' -> sound from_name v' d pk <-> sound from_name v d pk.
Proof. intros (R & T & _). unfold sound. by rewrite R, T. Qed.

Lemma StronglySorted_skip {A} (R : A -> A -> Prop) pre x post : StronglySorted R (pre ++ x :: post) -> StronglySorted R (pre ++ post).
Proof.
  induction pre as [|y pre IH]; simpl; [by intros [? _]%StronglySorted_inv|]. intros [Hs HF]%StronglySorted_inv.
  constructor; [by apply IH|]. apply Forall_app in HF as [? [_ ?]%Forall_cons]. by apply Forall_app.
Qed.

(** The driver removes an id; what is around it stays. *)
Lemma clear_invalid_spec n w v d pk pre post :
  let inv := invalid_key from_name (td_name d) in
  rep n w v -> v_parts v inv = pre ++ pk :: post ->
  exists w' v', clear_invalid client from_name d pk w = (w', Ok ()) /\ rep n w' v' /\ same_but inv v v' /\ v_parts v' inv = pre ++ post.
Proof.
  intros inv Hr Hp. destruct (rest_ids (AtRest := AtRest0) n w v inv Hr) as (Hs & Hok & _). rewrite Hp in Hs, Hok.
  assert (extent_op_ok (ExtentRemove pk)) as Hop by (apply Forall_app in Hok as [_ Hok]; by apply Forall_cons in Hok as [? _]).
  destruct (rest_update (AtRest := AtRest0) n w v inv (ExtentRemove pk) Hr Hop) as (w' & v' & total & pks & E & Hr' & Hsame & Hin).
  exists w', v'. split; [unfold clear_invalid, partition_update; fold inv; by erewrite io_bind_ok by exact E|]. split_and!; [done..|].
  destruct (rest_ids (AtRest := AtRest0) n w' v' inv Hr') as (Hs' & _).
  pose proof (ascending_NoDup _ Hs) as Hnd. apply NoDup_app in Hnd as (_ & Hd & [Hni _]%NoDup_cons).
  apply ascending_unique; [done| |].
  - by eapply StronglySorted_skip.
  - intros x. rewrite Hin, Hp. cbn [after_update]. set_solver.
Qed.

Lemma revalidate_page_spec n d pks :
  let inv := invalid_key from_name (td_name d) in
  forall w v pre post fs cleared, rep n w v -> v_parts v inv = pre ++ pks ++ post ->
  exists w' v' new kept, revalidate_page client fresh from_name show_id d read_op pks fs cleared w =
      (w', Ok (fs ++ new, cleared + (zlen pks - zlen kept))) /\
    rep n w' v' /\ same_but inv v v' /\ v_parts v' inv = pre ++ kept ++ post /\ zlen kept <= zlen pks /\
    (forall pk, pk ∈ kept <-> pk ∈ pks /\ ~ sound from_name v d pk) /\ forall pk, pk ∈ map vf_pk new <-> pk ∈ kept.
Proof.
  intros inv. induction pks as [|pk pks IH]; intros w v pre post fs cleared Hr Hp; cbn [revalidate_page].
  { exists w, v, [], []. rewrite app_nil_r, Z.sub_diag, Z.add_0_r. split_and!; [done..|set_solver|set_solver]. }
  destruct (validate_one_spec n w v d pk fs Hr) as (w1 & new1 & E1 & Hr1 & Ha & Hn). erewrite io_bind_ok by exact E1.
  rewrite length_app. destruct new1 as [|f new1].
  - rewrite app_nil_r. cbn [length]. rewrite Nat.add_0_r, Nat.eqb_refl.
    destruct (clear_invalid_spec n w1 v d pk pre (pks ++ post) Hr1 Hp) as (w2 & v2 & E2 & Hr2 & Hs2 & Hp2).
    erewrite io_bind_ok by exact E2.
    destruct (IH w2 v2 pre post fs (cleared + 1) Hr2 Hp2) as (w3 & v3 & new & kept & E3 & Hr3 & Hs3 & Hp3 & Hl & Hk & Hnew).
    exists w3, v3, new, kept. rewrite zlen_cons. replace (cleared + (1 + zlen pks - zlen kept)) with (cleared + 1 + (zlen pks - zlen kept)) by lia.
    split; [exact E3|].
    split_and!; [done|by etrans|done|lia| |done]. intros p. rewrite Hk, (sound_same _ _ _ _ _ Hs2), elem_of_cons. naive_solver.
  - rewrite (proj2 (Nat.eqb_neq _ _)) by (simpl; lia).
    destruct (IH w1 v (pre ++ [pk]) post (fs ++ f :: new1) cleared Hr1) as (w3 & v3 & new & kept & E3 & Hr3 & Hs3 & Hp3 & Hl & Hk & Hnew);
      [by rewrite Hp, <- app_assoc|].
    exists w3, v3, ((f :: new1) ++ new), (pk :: kept). rewrite !zlen_cons.
    replace (1 + zlen pks - (1 + zlen kept)) with (zlen pks - zlen kept) by lia.
    split; [by rewrite app_assoc|]. split_and!; [done|done|by rewrite Hp3, <- app_assoc|lia| |].
    + intros p. rewrite elem_of_cons, Hk, elem_of_cons. naive_solver.
    + intros p. rewrite map_app, elem_of_app, Hnew, (about_names pk _ Ha), elem_of_cons. naive_solver.
Qed.

Lemma revalidate_loop_spec n d page_size fuel :
  let inv := invalid_key from_name (td_name d) in
  u32_ok page_size -> 0 < page_size ->
  forall w v fs pre rest, rep n w v -> v_parts v inv = pre ++ rest -> (length rest < fuel)%nat ->
  exists w' v' new kept, revalidate_loop client fresh from_name show_id fuel d read_op page_size (zlen pre) fs w = (w', Ok (fs ++ new)) /\
    rep n w' v' /\ same_but inv v v' /\ v_parts v' inv = pre ++ kept /\
    (forall pk, pk ∈ kept <-> pk ∈ rest /\ ~ sound from_name v d pk) /\ forall pk, pk ∈ map vf_pk new <-> pk ∈ kept.
Proof.
  intros inv Hp Hp0. induction fuel as [|fuel IH]; intros w v fs pre rest Hr Hd Hf; [lia|]. cbn [revalidate_loop]. fold inv.
  destruct (rest_ids (AtRest := AtRest0) n w v inv Hr) as (_ & _ & Hlen). rewrite Hd, zlen_app in Hlen.
  pose proof (zlen_nonneg pre). pose proof (zlen_nonneg rest).
  destruct (query_page_spec n w v inv (zlen pre) page_size Hr) as (w1 & E1 & Hr1); [unfold uint_ok; lia|done|]. rewrite Hd in E1.
  rewrite (drop_app_length' pre rest) in E1 by (unfold zlen; lia). erewrite io_bind_ok by exact E1.
  destruct (decide (rest = [])) as [->|Hne].
  { rewrite take_nil. exists w1, v, [], []. rewrite !app_nil_r in *. split_and!; [done..|set_solver|set_solver]. }
  destruct (split_page rest page_size Hp0 Hne) as (page & rest2 & -> & Ep & Hpage). rewrite Ep, zlen_app in *.
  pose proof (zlen_nonneg rest2). destruct page as [|y page'] eqn:Epage; [done|]. rewrite <- Epage in *.
  destruct (revalidate_page_spec n d page w1 v pre rest2 fs 0 Hr1 Hd) as (w2 & v2 & new2 & kept & E2 & Hr2 & Hs2 & Hp2 & Hl & Hk & Hn2).
  erewrite io_bind_ok by exact E2. cbn match. pose proof (zlen_nonneg kept).
  rewrite (io_lift_ok (zlen kept)) by (unfold sub_u64; rewrite (proj2 (Z.leb_le _ _)) by lia; f_equal; lia).
  rewrite (io_lift_ok (zlen (pre ++ kept))) by (unfold add_u64; rewrite zlen_app, (proj2 (Z.ltb_lt _ _)) by lia; done).
  destruct (IH w2 v2 (fs ++ new2) (pre ++ kept) rest2 Hr2) as (w3 & v3 & new3 & kept3 & E3 & Hr3 & Hs3 & Hp3 & Hk3 & Hn3).
  { by rewrite <- app_assoc. }
  { rewrite length_app in Hf. subst page. simpl in Hf. lia. }
  exists w3, v3, (new2 ++ new3), (kept ++ kept3). split; [by rewrite app_assoc|].
  split_and!; [done|by etrans|by rewrite app_assoc| |].
  - intros p. rewrite !elem_of_app, Hk, Hk3, (sound_same _ _ _ _ _ Hs2). tauto.
  - intros p. by rewrite map_app, !elem_of_app, Hn2, Hn3.
Qed.

(** C12: a revalidation leaves exactly the failing data in the invalid partition.
    Against a cluster at rest it ends, although every id it clears shifts the pages
    still to be read: the ids left are those that were marked and are not sound, each
    is named in the findings, and no other partition and no datum has changed. *)
Theorem revalidation_keeps_the_failing n w v d page_size fuel :
  let inv := invalid_key from_name (td_name d) in
  rep n w v -> u32_ok page_size -> 0 < page_size -> (length (v_parts v inv) < fuel)%nat ->
  exists w' v' fs, revalidate_invalid client fresh from_name show_id fuel d read_op page_size w = (w', Ok fs) /\ rep n w' v' /\
    same_but inv v v' /\ (forall pk, pk ∈ v_parts v' inv <-> pk ∈ v_parts v inv /\ ~ sound from_name v d pk) /\
    forall pk, pk ∈ map vf_pk fs <-> pk ∈ v_parts v' inv.
Proof.
  intros inv Hr Hp Hp0 Hf.
  destruct (revalidate_loop_spec n d page_size fuel Hp Hp0 w v [] [] _ Hr eq_refl Hf) as (w' & v' & fs & kept & E & Hr' & Hs & Ek & Hk & Hn).
  exists w', v', fs. fold inv in Ek. cbn [app] in Ek. rewrite Ek. by split_and!.
Qed.

(** Marking adds the ids to the invalid partition. *)
Lemma mark_invalid_spec n d pks :
  let inv := invalid_key from_name (td_name d) in
  Forall datum_ok pks ->
  forall w v, rep (length pks + n) w v ->
  exists w' v', mark_invalid client from_name d pks w = (w', Ok ()) /\ rep n w' v' /\ same_but inv v v' /\
    forall pk, pk ∈ v_parts v' inv <-> pk ∈ pks \/ pk ∈ v_parts v inv.
Proof.
  intros inv. induction 1 as [|pk pks Hpk Hpks IH]; intros w v Hr; cbn [mark_invalid].
  { exists w, v. split_and!; [done..|set_solver]. }
  destruct (rest_update (AtRest := AtRest0) _ w v inv (ExtentInsert pk) Hr Hpk) as (w1 & v1 & total & out & E1 & Hr1 & Hs1 & Hin1).
  destruct (IH w1 v1 Hr1) as (w2 & v2 & E2 & Hr2 & Hs2 & Hin2). exists w2, v2. split.
  - unfold partition_update. fold inv. unfold mbind at 1. unfold io_bind. unfold mbind, io_bind in *. rewrite E1. exact E2.
  - split; [done|]. split; [by etrans|]. intros p. rewrite Hin2, Hin1, elem_of_cons. cbn [after_update]. tauto.
Qed.
End scan.

(** ** A compute node keeps the promises

    A node that owns every datum, as it answers one request at a time: the routing is
    that of [Server.v], a partition is its file, opened at the first request, and the
    reading operation answers the content of its datum. *)

Record Desk := mkDesk { dk_parts : gmap DatumId (PartitionResident BPlusTree); dk_data : gmap DatumId bytes; dk_ids : Z }.

Definition desk_ring : Ring := from_members [(1, 1)].

Definition resident_at (w : Desk) (id : DatumId) : res (PartitionResident BPlusTree) :=
  match dk_parts w !! id with
  | Some s => Ok s
  | None => t ← create 16 1 PARTITION_PAGE_SIZE; Ok (mkPartition t)
  end.

Definition reply_of_res (r : res bytes) : OpReply :=
  match r with Ok bs => ReplyOk bs | Err m => ReplyErr (lit m) | Panic => ReplyErr (lit "panicked") end.

Definition on_partition (w : Desk) (id : DatumId)
    (f : PartitionResident BPlusTree -> PartitionResident BPlusTree * res bytes) : Desk * OpReply :=
  match resident_at w id with
  | Ok s => let '(s, r) := f s in (mkDesk (<[id := s]> (dk_parts w)) (dk_data w) (dk_ids w), reply_of_res r)
  | _ => (w, ReplyErr (lit "partition cannot be opened"))
  end.

Definition desk_call (w : Desk) (c : PoolCall) : Desk * OpReply :=
  match c with
  | CallOp _ name [pk] _ =>
      (w, if bool_decide (name = lit "read") then ReplyOk (default [] (dk_data w !! pk)) else ReplyErr (lit "unknown op"))
  | CallOp _ _ _ _ => (w, ReplyErr (lit "unknown op"))
  | CallQuery id _ query => on_partition w id (λ s, partition_query s query)
  | CallExecute id _ payload => on_partition w id (λ s, partition_execute s payload)
  end.

Definition desk_client (request : Request.t) : io Desk Response.t := λ w,
  match handle_op_traffic no_text 1 ∅ desk_ring request with
  | Ok (Replied r) => (w, Ok r)
  | Ok (Calls c k) => let '(w, reply) := desk_call w c in (w, k reply)
  | Ok (Probes id k) => (w, Ok (k (bool_decide (is_Some (dk_data w !! id)))))
  | Ok Drops => (w, Err "connection closed")
  | Err m => (w, Err m)
  | Panic => (w, Panic)
  end.

Definition desk_fresh : io Desk DatumId := λ w, (mkDesk (dk_parts w) (dk_data w) (dk_ids w + 1), Ok (dk_ids w)).

Definition desk_shows (n : nat) (w : Desk) (v : View) : Prop :=
  (forall pk, v_reads v pk = ReplyOk (default [] (dk_data w !! pk))) /\
  (forall id, v_there v id = bool_decide (is_Some (dk_data w !! id))) /\
  forall id, exists s, resident_at w id = Ok s /\ partition_of (holds := bt_holds 16 1) s (v_parts v id) /\ bt_room n (partition_tree s).

Lemma desk_native id : native desk_ring id = Ok (1, 0).
Proof.
  assert (ring_ok desk_ring) as Hr by by vm_compute. pose proof (native_total desk_ring id Hr) as H.
  change (bool_decide (slots desk_ring = [])) with false in H. destruct H as (s & E & Hs).
  change (slots desk_ring) with [(1, 0)] in Hs. by apply list_elem_of_singleton in Hs as ->.
Qed.

Lemma desk_here id h : unless_foreign no_text 1 ∅ desk_ring id h = Ok h.
Proof. unfold unless_foreign. by rewrite desk_native. Qed.

Lemma partition_ids (s : PartitionResident BPlusTree) xs :
  partition_of (holds := bt_holds 16 1) s xs -> StronglySorted Z.lt xs /\ Forall datum_ok xs /\ zlen xs < 2 ^ 64.
Proof.
  intros HP. split; [by eapply partition_sorted|]. destruct HP as [[(_ & Ht & Hb & _) _] HF]. split; [done|].
  rewrite Ht, zlen_map in Hb. done.
Qed.

(** What a call on a partition leaves. *)
Lemma desk_shows_part n n' w v id s xs :
  desk_shows n w v -> (forall t : BPlusTree, bt_room n t -> bt_room n' t) ->
  partition_of (holds := bt_holds 16 1) s xs -> bt_room n' (partition_tree s) ->
  desk_shows n' (mkDesk (<[id := s]> (dk_parts w)) (dk_data w) (dk_ids w))
    (mkView (λ i, if i =? id then xs else v_parts v i) (v_reads v) (v_there v)).
Proof.
  intros (Hd & Ht & Hp) Hroom HP Hr. split_and!; [done..|]. intros i. unfold resident_at. cbn [dk_parts v_parts].
  destruct (Z.eqb_spec i id) as [->|Hne]; [rewrite lookup_insert_eq; by exists s|]. rewrite lookup_insert_ne by done.
  destruct (Hp i) as (s' & E & HP' & Hr'). exists s'. split_and!; [exact E|done|by apply Hroom].
Qed.

Lemma desk_view_same n w v id xs :
  v_parts v id = xs -> desk_shows n w (mkView (λ i, if i =? id then xs else v_parts v i) (v_reads v) (v_there v)) -> desk_shows n w v.
Proof.
  intros Hx (Hd & Ht & Hp). split_and!; [done..|]. intros i. specialize (Hp i). cbn [v_parts] in Hp.
  destruct (Z.eqb_spec i id) as [E|]; [|done]. by rewrite E, Hx in *.
Qed.

#[export] Instance desk_at_rest : AtRest desk_client desk_fresh (lit "read") desk_shows.
Proof.
  split.
  - intros n w v id (_ & _ & Hp). destruct (Hp id) as (s & _ & HP & _). by apply (partition_ids s).
  - intros n w v id offset limit Hw Ho Hl. pose proof Hw as (Hd & Ht & Hp). destruct (Hp id) as (s & Es & HP & Hr).
    destruct (partition_ids s _ HP) as (_ & HF & Hlen).
    unfold desk_client, handle_op_traffic, handle_extent_query. rewrite desk_here. unfold desk_call, on_partition. rewrite Es.
    rewrite (partition_query_spec s (v_parts v id) offset limit HP Ho Hl). unfold extent_response, decoded. cbn [reply_of_res].
    set (page := take _ _). assert (u64_ok (zlen (v_parts v id)) /\ list_ok datum_ok page) as Hok.
    { split; [unfold uint_ok; pose proof (zlen_nonneg (v_parts v id)); lia|]. split; [|by apply Forall_take, Forall_drop].
      unfold page, uint_ok, zlen in *. rewrite length_take. unfold uint_ok in Hl. lia. }
    pose proof (codec_complete _ _ _ extent_result_codec (zlen (v_parts v id), page) Hok) as Edec. cbn [fst snd] in Edec. rewrite Edec.
    eexists _, _.
    split; [reflexivity|]. eapply desk_view_same; [reflexivity|]. by eapply desk_shows_part.
  - intros n w v op_id pk Hw. exists w. pose proof Hw as (Hd & _). split; [|done].
    unfold desk_client, handle_op_traffic, handle_op_request, native_nodes. cbn [fold_left]. rsimpl. rewrite desk_native. rsimpl.
    rewrite Hd. reflexivity.
  - intros n w v id Hw. exists w. pose proof Hw as (_ & Ht & _). split; [|done].
    unfold desk_client, handle_op_traffic, handle_exists_check. rewrite desk_here. by rewrite Ht.
  - intros n w v id op Hw Hop. pose proof Hw as (Hd & Ht & Hp). destruct (Hp id) as (s & Es & HP & Hr).
    destruct (partition_execute_spec (room := bt_room) s (v_parts v id) op n HP) as (t & xs' & E & _ & HP' & Hr' & Hx); [by destruct op|done|].
    destruct (partition_ids _ _ HP') as (_ & _ & Hlen).
    unfold desk_client, handle_op_traffic, handle_partition_update. rewrite desk_here. unfold desk_call, on_partition. rewrite Es, E.
    unfold extent_response, decoded. cbn [reply_of_res].
    eexists _, (mkView (λ i, if i =? id then xs' else v_parts v i) (v_reads v) (v_there v)), _, _.
    assert (u64_ok (zlen xs') /\ list_ok datum_ok []) as Hok.
    { split; [unfold uint_ok; pose proof (zlen_nonneg xs'); lia|]. by split; [|constructor]. }
    pose proof (codec_complete _ _ _ extent_result_codec (zlen xs', []) Hok) as Edec. cbn [fst snd] in Edec. rewrite Edec.
    split; [reflexivity|]. split; [|split].
    + eapply desk_shows_part; [exact Hw| |done|done]. by destruct op; [apply bt_room_less|].
    + split_and!; [done..|]. intros i Hi. cbn [v_parts]. by rewrite (proj2 (Z.eqb_neq _ _)).
    + intros p. cbn [v_parts]. rewrite Z.eqb_refl, Hx. by destruct op.
  - intros n w v Hw. eexists _, _. split; [reflexivity|]. exact Hw.
Qed.

(** A node that holds the data [data] and no partition yet. *)
Definition new_desk (data : gmap DatumId bytes) : Desk := mkDesk ∅ data 100.
Definition new_view (data : gmap DatumId bytes) : View :=
  mkView (λ _, []) (λ pk, ReplyOk (default [] (data !! pk))) (λ id, bool_decide (is_Some (data !! id))).

Lemma new_desk_shows data n : Z.of_nat n <= 2 ^ 15 -> desk_shows n (new_desk data) (new_view data).
Proof.
  intros Hn. split_and!; [done..|]. intros id.
  destruct (create_holds 16 1 PARTITION_PAGE_SIZE n) as (t & Ht & Hh & Hr); [done..|by split_and!|done|].
  exists (mkPartition t). unfold resident_at, new_desk. cbn [dk_parts]. rewrite lookup_empty, Ht.
  split_and!; [done|by split; [|constructor]|done].
Qed.

(** A type with one number, which is not negative; datum 7 breaks the rule and datum 8
    does not exist. *)
Definition score_type : DatumTypeDef :=
  mkType (lit "score") 1 PkUuid [(lit "n", TyI64)] [] [] [] [mkCheck (lit "n") (CkGe (FI64 0))] true None 1.
Definition broken_score : bytes := match encode_datum score_type [FI64 (-3)] with Ok bs => bs | _ => [] end.
Definition by_length (_ : DatumId) (name : bytes) : DatumId := zlen name.

Lemma broken_not_sound v : v_reads v 7 = ReplyOk broken_score -> ~ sound by_length v score_type 7.
Proof.
  unfold sound. intros ->. assert (exists b bs, broken_score = b :: bs) as (b & bs & E) by (vm_compute; by eexists _, _).
  rewrite E, <- E. intros (values & Hd & Hc & _). vm_compute in Hd. injection Hd as <-. vm_compute in Hc. discriminate Hc.
Qed.

Lemma full_scan_is_exact_witness :
  exists w v w' fs, desk_shows 0 w v /\
    validate_type desk_client desk_fresh by_length no_text (S (length (v_parts v (extent_key by_length (lit "score"))))) score_type
      (lit "read") 2 w = (w', Ok fs) /\ 7 ∈ map vf_pk fs.
Proof.
  pose proof (new_desk_shows {[7 := broken_score]} 1 ltac:(lia)) as H0.
  destruct (rest_update 0 _ _ (extent_key by_length (lit "score")) (ExtentInsert 7) H0) as (w & v & total & pks & _ & Hr & (Hv & _) & Hin);
    [by vm_compute|].
  destruct (full_scan_is_exact desk_client desk_fresh (lit "read") desk_shows by_length no_text 0 w v score_type 2
    (S (length (v_parts v (extent_key by_length (lit "score"))))) Hr) as (w' & fs & E & _ & Hfs);
    [reflexivity|by vm_compute|lia|apply Nat.lt_succ_diag_r|].
  exists w, v, w', fs. split; [exact Hr|]. split; [exact E|]. apply Hfs. split; [apply Hin; by left|].
  apply broken_not_sound. by rewrite Hv.
Defined.

Lemma revalidation_keeps_the_failing_witness :
  exists w v w' v' fs, desk_shows 0 w v /\
    revalidate_invalid desk_client desk_fresh by_length no_text (S (length (v_parts v (invalid_key by_length (lit "score"))))) score_type
      (lit "read") 1 w = (w', Ok fs) /\
    8 ∈ v_parts v (invalid_key by_length (lit "score")) /\ 7 ∈ v_parts v' (invalid_key by_length (lit "score")) /\
    8 ∉ v_parts v' (invalid_key by_length (lit "score")).
Proof.
  pose proof (new_desk_shows {[7 := broken_score]} 2 ltac:(lia)) as H0.
  destruct (mark_invalid_spec desk_client desk_fresh (lit "read") desk_shows by_length no_text 0 score_type [7; 8]) with (2 := H0)
    as (w & v & _ & Hr & (Hv & _) & Hin); [by repeat constructor; vm_compute|].
  destruct (revalidation_keeps_the_failing desk_client desk_fresh (lit "read") desk_shows by_length no_text 0 w v score_type 1
    (S (length (v_parts v (invalid_key by_length (lit "score"))))) Hr) as (w' & v' & fs & E & _ & _ & Hkeep & _);
    [by vm_compute|lia|apply Nat.lt_succ_diag_r|].
  exists w, v, w', v', fs. split; [exact Hr|]. split; [exact E|]. split; [apply Hin; left; set_solver|]. split.
  - apply Hkeep. split; [apply Hin; left; set_solver|]. apply broken_not_sound. by rewrite Hv.
  - intros [_ Hs]%Hkeep. apply Hs. unfold sound. by rewrite Hv.
Defined.

(** ** The order of a sweep *)

#[global] Instance sweep_le_total : Total sweep_le.
Proof.
  intros a b. unfold sweep_le. destruct (Z.lt_total (sk_incoming a) (sk_incoming b)) as [|[->|]]; [tauto| |tauto].
  destruct (Z.lt_total (sk_outgoing a) (sk_outgoing b)) as [|[->|]]; [tauto| |tauto].
  rewrite (bytes_cmp_antisym (sk_type_id a) (sk_type_id b)).
  destruct (bytes_cmp (sk_type_id a) (sk_type_id b)) eqn:E; simpl; [|tauto..].
  apply bytes_cmp_eq in E as ->. destruct (Nat.le_ge_cases (sk_place a) (sk_place b)); tauto.
Qed.

#[global] Instance sweep_le_trans : Transitive sweep_le.
Proof.
  intros a b c. unfold sweep_le. intros [?|(E1 & [?|(E2 & [?|(E3 & ?)])])] [?|(F1 & [?|(F2 & [?|(F3 & ?)])])];
    try (left; lia); right; (split; [lia|]); try (left; lia); right; (split; [lia|]);
    rewrite ?E3, <- ?F3; try (left; first [by eapply bytes_cmp_lt_trans|assumption|congruence]); right; (split; [congruence|lia]).
Qed.

(** A sweep goes through every type once, the most referred to first; among types
    referred to alike, those that refer least. *)
Theorem sweep_is_by_urgency from_name defs :
  let order := scan_order from_name defs in
  order ≡ₚ seq 0 (length defs) /\
  forall a b i j di dj, (a < b)%nat -> order !! a = Some i -> order !! b = Some j -> defs !! i = Some di -> defs !! j = Some dj ->
    incoming defs (td_name dj) < incoming defs (td_name di) \/
    (incoming defs (td_name di) = incoming defs (td_name dj) /\ outgoing di <= outgoing dj).
Proof.
  intros order. set (keys := imap (sweep_key from_name defs) defs). split.
  - unfold order, scan_order. fold keys. rewrite merge_sort_Permutation. apply reflexive_eq. unfold keys.
    apply list_eq. intros i. rewrite list_lookup_fmap, list_lookup_imap. destruct (defs !! i) as [d|] eqn:E; simpl.
    + rewrite lookup_seq_lt by (by eapply lookup_lt_Some). done.
    + symmetry. apply lookup_seq_ge. by apply lookup_ge_None.
  - intros a b i j di dj Hab Ha Hb Hi Hj. unfold order, scan_order in *. fold keys in Ha, Hb.
    rewrite list_lookup_fmap in Ha, Hb. apply fmap_Some in Ha as (ka & Ha & ->), Hb as (kb & Hb & ->).
    assert (forall x k d, merge_sort sweep_le keys !! x = Some k -> defs !! sk_place k = Some d -> k = sweep_key from_name defs (sk_place k) d) as Hkey.
    { intros x k d Hx Hd. apply list_elem_of_lookup_2 in Hx. rewrite merge_sort_Permutation in Hx.
      apply list_elem_of_lookup_1 in Hx as [y Hy]. unfold keys in Hy. rewrite list_lookup_imap in Hy.
      apply fmap_Some in Hy as (d' & Hd' & ->). cbn [sk_place sweep_key] in *. rewrite Hd in Hd'. by injection Hd' as ->. }
    pose proof (StronglySorted_merge_sort sweep_le keys) as Hs.
    assert (sweep_le ka kb) as Hle.
    { rewrite <- (take_drop (S a) (merge_sort sweep_le keys)) in Hs. eapply (StronglySorted_app_1_elem_of sweep_le); [exact Hs|..].
      - apply list_elem_of_lookup_2 with a. by rewrite lookup_take_lt by lia.
      - apply list_elem_of_lookup_2 with (b - S a)%nat. rewrite lookup_drop. by replace (S a + (b - S a))%nat with b by lia. }
    rewrite (Hkey _ _ _ Ha Hi), (Hkey _ _ _ Hb Hj) in Hle. unfold sweep_le in Hle. cbn [sk_incoming sk_outgoing sweep_key] in Hle.
    destruct Hle as [?|(? & [?|(? & _)])]; [by left|right; lia|right; lia].
Qed.
